(* ===== verification/_CoqProject ===== *)
-Q . S2P
Prelude.v
CxxString.v
Platform.v
Timer.v
Messages.v
Util.v
Interfaces.v
RpcToString.v
EasyStateMachine.v
Rpc.v
Client.v
Data.v
Entry.v
ThreadPool.v
StateMachineControler.v
RaftServer.v
ServerFacts.v
ServerSpecs.v
Node.v
Config.v
ThreeServers.v
Commit.v
Replication.v
EntriesStore.v
CatchUp.v
Election.v
Wire.v
Progress.v
Cluster.v
LogMatching.v
Replicas.v
Agreement.v
Service.v
Durable.v
Programs.v
