(* ===== verification/Prelude.v ===== *)
(** * my_raft: a replicated state machine on Raft, and what it guarantees

    ** The program

    Every server is one process.  An io thread runs a boost io_context with the
    callbacks of the network, of the timers and of finished tasks, all on one
    [RaftServer] object; six worker threads in two pools (one for updates, five
    for queries) run the state machine.  Three servers or more elect a primary by
    RequestVote; a client sends its calls to it; the primary appends a call to its
    log, sends it to the others one entry at a time by AppendEntry, commits what a
    majority stores, has the state machine apply it and answers the client.  Every
    server keeps its log in two files.

    Source, file of this development, and how one is the other:

    - util.h, util.cpp, the exceptions and [throw_line]: Prelude (exceptions,
      the monad [M] of computations on a mutable state that can throw, exit or be
      undefined) and Util.  An [int] is a [Z]; an addition that can leave its range
      goes through [int_add] and [int_sub], undefined outside; [u32] and [to_int]
      are the conversions.
    - The C++ library: CxxString ([to_string], [atoi], [sprintf], slices).
    - libc, boost and the generated protobuf classes are no part of src/: each is
      a type class of operations in Platform with a class of the documented
      behaviour that is relied on, and an instance on which examples run.
    - rpc.proto, easy_state_machine.proto, rpc/rpc_type.h: Messages.  rpc/
      rpc_to_string.cpp: RpcToString.
    - entry/data: Data, a computation on the object and the disk.  entry/entry:
      Entry (class [Entries]).  EntriesStore makes it the log of a server.
    - rpc/rpc, rpc/connection: Rpc.  One module, since the classes share the map
      of connections.  A handler passed to asio is an operation of its own
      ([connect_done], [deliver_done], [accept], [read_failed], [arrive]); objects are
      destroyed with their last pointer ([release]).
    - state_machine/ThreadPool.h: ThreadPool, threads as labelled steps.
      state_machine/StateMachineControler: StateMachineControler.
      state_machine/EasyStateMachine: EasyStateMachine.
    - Timer.h, Timer.cpp: Timer, a deadline timer made of one.
    - RaftServer.h, RaftServer.cpp: RaftServer.  A member function is a
      computation on the record of data members, with the same name; a lambda
      given to a timer is a value of [handler], and [run_handler] is its body.
    - client/client: Client.  main.cpp, client/main.cpp: Programs.

    Components meet at interfaces: the server uses a log through [LogStore], the
    network through [Transport], the machine through [StateMachine]
    (Interfaces.v), timers through [DeadlineTimer].  Its theorems are proved from
    the laws of these classes ([LogStoreLaws], [StateMachineLaws] and so on);
    EntriesStore, Rpc, EasyStateMachine and Timer prove that the code of this
    repository satisfies them.  The candidate's timer, a bare deadline timer, and
    the retry timers, which are [Timer] objects, have one type in the model.

    ** Runs

    Node is one process: the server, its machine, the queue of the io_context.
    [perform] makes one step (a message arrives, the head of the queue runs, a
    timer expires, a worker wakes up or finishes), so every order of callbacks
    and every interleaving of the workers is a list of labels.  Cluster is a list
    of processes and the messages in flight, which are delivered once and in any
    order, or lost; a process whose step throws has ended, as [main] rethrows.

    ** What is proved

    - Elections (Election, Cluster): the answer to a vote request on every branch;
      one vote a term; a primary has the votes of a majority; in a cluster two
      servers that lead a term are the same; an undisturbed election succeeds.
      The safety theorems have a proviso, [timely]: no vote request of a term
      reaches a server after an AppendEntry of that term.  The code needs it, as
      every AppendEntry gives the receiver its vote back; a run that elects two
      primaries of one term is a theorem too, and so is one in which a server
      that was killed and restarted votes a second time in a term.
    - Replication (Replication, CatchUp): the answer to an AppendEntry on every
      branch; what one round does to the follower's log; a follower that is behind
      or has diverged gets the primary's log in a bounded number of rounds; a
      message that comes again counts once.
    - Logs of a cluster (Wire, LogMatching): Log Matching and Leader Append-Only,
      from a step-by-step account of what a server sends and does to its log;
      every number sent fits its field and every message is read as written.
      Besides [timely] the proviso is that clients call the primary ([fair]): a
      follower appends a client's call too, and a run in which that makes two
      logs fork is a theorem.  The logs are empty at the start, since a server
      that restarts has forgotten its term.  State Machine Safety the code does not
      give, as a vote does not look at the term of the candidate's last entry: a
      run in which a committed entry is overwritten is a theorem.
    - Commit and apply (Commit, Wire): the committed index is the largest that a
      majority stores; along every run the i-th task of the machine is entry i with
      its message, none left out; the client gets the reply to its call.
    - The whole (Replicas, Progress, Agreement, Service, Durable): as long as only
      the primary of one term takes calls, one sequence of client calls explains
      the logs and the state machines of all servers, and machines that applied
      equally many answer alike.  Over several terms the machines still agree if
      leaders are complete: a server that sends an AppendEntry has in its log what
      its own machine was given, and the log of a primary that commits agrees with
      what any machine was given; the run with the overwritten entry is shown not
      to be so, and the vote is what lets it happen.  All these theorems about runs
      of a cluster share the provisos [timely_so_far] and [fair_run] (calls to a
      primary only, as UTF-8 text, with room in the logs), empty logs at the start
      and no restart.  And a call is served: an idle primary
      with one follower that answers, however far behind it is, gets from the call
      to the reply of the machine; with the logs in files the call is then on two
      disks, from which a restart recovers it.
      A query is answered by the server that gets it from its own machine; a run
      in which that gives a client the value from before its write is a theorem.
    - The log on disk (Entry, EntriesStore): inserts refine truncate-and-append on
      a list, a restart gets the list back, and an acknowledged entry survives.  A
      process that dies at any point of an append leaves the old or the new log,
      except at one: between the opening of the offset file, which empties it, and
      its write it leaves a file on which the constructor throws.
    - Network (Rpc): the frames that calls put on a connection can be taken apart
      into the messages again, and the reader of a header waits for exactly the
      rest of a frame; reads stay in their arrays on any input; the map of
      connections is the table of what opened and failed, and holds no destroyed
      object; a call on every branch.  What a receiver does with a message the
      program sends is undefined behaviour ([process_msg] gives [atoi] an array
      without a terminator, and reads overlap), so the theorems about servers
      begin where a message has been read; and the handler of a write can use a
      connection that is destroyed, which is a theorem.
    - Pools, machine, client, configuration, start (ThreadPool, EasyStateMachine,
      Client, Config, Programs): first-in first-out with one worker, draining and
      progress of the destructor; replicas agree; a typed session makes its calls;
      a configuration is read back and reading ends; the server comes up.

    ServerFacts and ServerSpecs hold the lemmas on [RaftServer] that these share,
    ThreeServers a concrete cluster for the witnesses.

    ** Fuel

    [load_config_from_file] reads lines with the length of the text plus one as
    fuel, each line taking at least a byte or ending the loop; [receive] serves
    reads with the bytes there plus one, each round taking a byte;
    [update_commit_index_and_apply] loops as often as the applied index is below
    the new one.  [load_config_ends] and [receive_in_bounds] show the first two
    are enough on every input, [commits_majority_index] the third.  [exchange] of
    CatchUp gets its fuel from the theorem, and the rounds of the client's endless
    loop are counted from outside.

    ** Assumptions

    The laws in Platform: files that can be opened and transfers that are complete
    (only where a theorem asks for it: [PosixHealthy]), archives and protobuf
    messages that are read back (a [string] field only if it is UTF-8), the
    documented behaviour of timers, [rand] and [boost::split], and that an empty
    file is no archive.  In Rpc nothing is assumed of the class [Sockets]; theorems
    that need it have as hypothesis that an address parses and that the kernel takes
    a message whole.

    ** Not modelled

    Logging, the signal handler that prints the stack and exits, the programs in
    tests/ and the generated protobuf code; [fsync], which does not change the content;
    exceptions and futures of tasks, which the program does not use; two threads
    in one object without a lock (queries beside an update, the client's network
    used by its two threads), which C++ leaves undefined. *)

From stdpp Require Export base gmap list strings numbers pretty.
From Stdlib Require Export Ascii ZArith Lia.

#[global] Open Scope Z_scope.

Declare Scope cxx_scope.
Delimit Scope cxx_scope with cxx.

(** ** Exceptions and results of a C++ call *)

(** What a call can throw: [my_exception] of util.h, raised by the macro
    [throw_line] with its file and line, or an exception of the standard
    library or of boost. *)
Inductive exn :=
| my_exception (arg file : string) (line : Z)
| std_exception (what : string).

(** [my_exception::what()]: "file:line: arg". *)
Definition what (e : exn) : string :=
  match e with
  | my_exception arg file line => file +:+ ":" +:+ pretty line +:+ ": " +:+ arg
  | std_exception w => w
  end.

(** The ways a call ends: a value, an exception that propagates, [exit(code)],
    or an operation whose behaviour the C++ standard does not define. *)
Inductive res (A : Type) :=
| Val (a : A)
| Exn (e : exn)
| Exited (code : Z)
| Undef (why : string).
Arguments Val {_} _.
Arguments Exn {_} _.
Arguments Exited {_} _.
Arguments Undef {_} _.

(** A computation over a mutable state [S].  The state survives a throw, since
    what was written or sent before it stays written or sent. *)
Definition M (S A : Type) : Type := S -> res A * S.

Definition ret {S A} (a : A) : M S A := fun s => (Val a, s).
Definition throw {S A} (e : exn) : M S A := fun s => (Exn e, s).
Definition throw_line {S A} (file : string) (line : Z) (arg : string) : M S A :=
  throw (my_exception arg file line).
Definition exit {S A} (code : Z) : M S A := fun s => (Exited code, s).
Definition ub {S A} (why : string) : M S A := fun s => (Undef why, s).

Definition bind {S A B} (m : M S A) (f : A -> M S B) : M S B := fun s =>
  match m s with
  | (Val a, s') => f a s'
  | (Exn e, s') => (Exn e, s')
  | (Exited c, s') => (Exited c, s')
  | (Undef w, s') => (Undef w, s')
  end.

Definition gets {S A} (f : S -> A) : M S A := fun s => (Val (f s), s).
Definition modify {S} (f : S -> S) : M S unit := fun s => (Val tt, f s).

(** A call on a member object: the callee's state is a part of the caller's. *)
Definition zoom {S T A} (get : S -> T) (set : T -> S -> S) (m : M T A) : M S A :=
  fun s => let '(r, t) := m (get s) in (r, set t s).

Notation "'let!' x := m 'in' k" := (bind m (fun x => k))
  (at level 10, x pattern, m at level 100, k at level 200) : cxx_scope.
Notation "m ;; k" := (bind m (fun _ => k))
  (at level 100, right associativity) : cxx_scope.
#[global] Open Scope cxx_scope.

(** [for (auto x : l) f(x);] *)
Fixpoint for_each {S A} (l : list A) (f : A -> M S unit) : M S unit :=
  match l with
  | [] => ret tt
  | x :: l' => f x ;; for_each l' f
  end.

(** ** Machine integers *)

Definition INT_MAX : Z := 2147483647.
Definition INT_MIN : Z := -2147483648.
Definition in_int (z : Z) : bool := (INT_MIN <=? z) && (z <=? INT_MAX).

(** Conversions: to [unsigned int], to [size_t] (64 bits), to [int]. *)
Definition u32 (z : Z) : Z := z mod 2 ^ 32.
Definition u64 (z : Z) : Z := z mod 2 ^ 64.
Definition to_int (z : Z) : Z := (z + 2 ^ 31) mod 2 ^ 32 - 2 ^ 31.

(** [int] arithmetic: a result that does not fit is undefined behaviour. *)
Definition int_result {S} (z : Z) : M S Z :=
  if in_int z then ret z else ub "signed integer overflow".
Definition int_add {S} (a b : Z) : M S Z := int_result (a + b).
Definition int_sub {S} (a b : Z) : M S Z := int_result (a - b).

(** ** std::vector and std::map *)

(** [v[i]]: not checked, so an index outside the vector is undefined. *)
Definition vec_at {S A} (l : list A) (i : Z) : M S A :=
  if i <? 0 then ub "vector index out of range"
  else match l !! Z.to_nat i with
       | Some x => ret x
       | None => ub "vector index out of range"
       end.

(** [m[k]] of a std::map creates a missing entry with the default value. *)
Definition map_touch {K V} `{Countable K} (d : V) (k : K) (m : gmap K V) : gmap K V :=
  match m !! k with Some _ => m | None => <[k := d]> m end.
Definition map_at {K V} `{Countable K} (d : V) (k : K) (m : gmap K V) : V :=
  default d (m !! k).

(** ** Reasoning about computations *)

(** Total correctness: the call returns a value, and it satisfies [Q]. *)
Definition total {S A} (m : M S A) (s : S) (Q : A -> S -> Prop) : Prop :=
  exists a s', m s = (Val a, s') /\ Q a s'.

(** Partial correctness: whenever the call returns a value, it satisfies [Q]. *)
Definition partial {S A} (m : M S A) (s : S) (Q : A -> S -> Prop) : Prop :=
  forall a s', m s = (Val a, s') -> Q a s'.

(** [R] relates the states before and after, however the call ends. *)
Definition stable {S A} (R : relation S) (m : M S A) : Prop :=
  forall s, R s (snd (m s)).

Create HintDb cxx discriminated.
#[export] Hint Constants Opaque : cxx.
Create Rewrite HintDb cxx.

Section bind_laws.
Context {S A B C : Type}.
Implicit Types (m : M S A) (f : A -> M S B) (g : B -> M S C).

Lemma bind_val m f s a s' : m s = (Val a, s') -> bind m f s = f a s'.
Proof. unfold bind. by intros ->. Qed.

Lemma bind_exn m f s e s' : m s = (Exn e, s') -> bind m f s = (Exn e, s').
Proof. unfold bind. by intros ->. Qed.

Lemma bind_ub m f s e s' : m s = (Undef e, s') -> bind m f s = (Undef e, s').
Proof. unfold bind. by intros ->. Qed.

Lemma bind_ret a f s : bind (ret a) f s = f a s.
Proof. done. Qed.

Lemma bind_bind m f g s : bind (bind m f) g s = bind m (fun a => bind (f a) g) s.
Proof. unfold bind. destruct (m s) as [[] s']; done. Qed.

(** A sequence returns exactly when both parts do. *)
Lemma bind_val_inv m f s b s'' :
  bind m f s = (Val b, s'') ->
  exists a s', m s = (Val a, s') /\ f a s' = (Val b, s'').
Proof. unfold bind. destruct (m s) as [[] s']; intros; simplify_eq; eauto. Qed.
End bind_laws.

Section total_laws.
Context {S A B : Type}.
Implicit Types (m : M S A) (f : A -> M S B).

Lemma total_bind m f s Q P :
  total m s P -> (forall a s', P a s' -> total (f a) s' Q) -> total (bind m f) s Q.
Proof.
  intros (a & s' & E & HP) H. destruct (H a s' HP) as (b & s'' & E' & HQ).
  exists b, s''. split; [by rewrite (bind_val _ _ _ _ _ E)|done].
Qed.

(** A step whose outcome is known. *)
Lemma total_step m f s a s' (Q : B -> S -> Prop) :
  m s = (Val a, s') -> total (f a) s' Q -> total (bind m f) s Q.
Proof. intros E H. destruct H as (b & s'' & E' & HQ). exists b, s''. split; [by rewrite (bind_val _ _ _ _ _ E)|done]. Qed.

Lemma total_assoc {C} m f (g : B -> M S C) s (Q : C -> S -> Prop) :
  total (bind m (fun a => bind (f a) g)) s Q -> total (bind (bind m f) g) s Q.
Proof. unfold total. by rewrite bind_bind. Qed.

Lemma total_gets (g : S -> A) f s (Q : B -> S -> Prop) :
  total (f (g s)) s Q -> total (bind (gets g) f) s Q.
Proof. by apply total_step. Qed.

Lemma total_modify (g : S -> S) (f : unit -> M S B) s (Q : B -> S -> Prop) :
  total (f tt) (g s) Q -> total (bind (modify g) f) s Q.
Proof. done. Qed.

Lemma total_ret (a : A) s (Q : A -> S -> Prop) : Q a s -> total (ret a) s Q.
Proof. intros HQ. by exists a, s. Qed.

Lemma total_mono m s (P Q : A -> S -> Prop) :
  total m s P -> (forall a s', P a s' -> Q a s') -> total m s Q.
Proof. intros (a & s' & E & HP) H. exists a, s'. auto. Qed.

Lemma partial_bind m f s Q :
  partial m s (fun a s' => partial (f a) s' Q) -> partial (bind m f) s Q.
Proof. intros H b s'' (a & s' & E & E')%bind_val_inv. by eapply H. Qed.

Lemma partial_ret (a : A) s (Q : A -> S -> Prop) : Q a s -> partial (ret a) s Q.
Proof. intros HQ a' s' E. unfold ret in E. by simplify_eq. Qed.

Lemma partial_mono m s (P Q : A -> S -> Prop) :
  partial m s P -> (forall a s', P a s' -> Q a s') -> partial m s Q.
Proof. intros HP H a s' E. auto. Qed.

Lemma total_partial m s Q : total m s Q -> partial m s Q.
Proof. intros (a & s' & E & HQ) a' s'' E'. rewrite E in E'. by simplify_eq. Qed.
End total_laws.

(** A sequence of statements that all return, with the states they lead to; what
    the first [n] of them do. *)
Fixpoint runs {S} (steps : list (M S unit)) (s : S) (states : list S) : Prop :=
  match steps, states with
  | [], [] => True
  | m :: steps', s' :: states' => m s = (Val tt, s') /\ runs steps' s' states'
  | _, _ => False
  end.

Lemma last_cons_default {A} (x d : A) l : List.last (x :: l) d = List.last l x.
Proof. cbn [List.last]. destruct l as [|y l]; [done|]. revert y. induction l as [|z l IH]; intros y; [done|]. apply IH. Qed.

Lemma runs_firstn {S} n (steps : list (M S unit)) s states :
  runs steps s states ->
  for_each (firstn n steps) (fun m => m) s = (Val tt, List.last (firstn n states) s).
Proof.
  revert n s states. induction steps as [|m steps IH]; intros n s [|s' states] H; try done.
  - by destruct n.
  - destruct H as [E H]. destruct n as [|n]; [done|]. cbn [firstn for_each].
    by rewrite (bind_val _ _ _ _ _ E), (IH n s' states H), last_cons_default.
Qed.

Lemma runs_all {S} (steps : list (M S unit)) s states :
  runs steps s states -> for_each steps (fun m => m) s = (Val tt, List.last states s).
Proof.
  intros H. pose proof (runs_firstn (length steps) steps s states H) as E. rewrite firstn_all in E.
  rewrite E. do 2 f_equal. apply firstn_all2. clear E. revert s states H.
  induction steps as [|m steps IH]; intros s [|s' states] H; try done. cbn. destruct H as [_ H].
  apply le_n_S. by apply (IH s').
Qed.

Lemma runs_app {S} (steps1 steps2 : list (M S unit)) s states1 states2 :
  runs steps1 s states1 -> runs steps2 (List.last states1 s) states2 ->
  runs (steps1 ++ steps2) s (states1 ++ states2).
Proof.
  revert s states1. induction steps1 as [|m steps1 IH]; intros s [|s' states1] H1 H2; try done.
  destruct H1 as [E H1]. split; [done|]. apply IH; [done|]. by rewrite last_cons_default in H2.
Qed.

Section stable_laws.
Context {S : Type} (R : relation S) `{!PreOrder R}.

Lemma stable_ret {A} (a : A) : stable R (ret a).
Proof. intros s. cbn. reflexivity. Qed.
Lemma stable_gets {A} (f : S -> A) : stable R (gets f).
Proof. intros s. cbn. reflexivity. Qed.
Lemma stable_throw {A} e : stable R (@throw S A e).
Proof. intros s. cbn. reflexivity. Qed.
Lemma stable_throw_line {A} f l a : stable R (@throw_line S A f l a).
Proof. apply stable_throw. Qed.
Lemma stable_ub {A} w : stable R (@ub S A w).
Proof. intros s. cbn. reflexivity. Qed.
Lemma stable_exit {A} c : stable R (@exit S A c).
Proof. intros s. cbn. reflexivity. Qed.
Lemma stable_modify f : (forall s, R s (f s)) -> stable R (modify f).
Proof. intros H s. apply H. Qed.
Lemma stable_int_result z : stable R (int_result z).
Proof. unfold int_result. destruct (in_int z); [apply stable_ret|apply stable_ub]. Qed.
Lemma stable_int_add a b : stable R (int_add a b).
Proof. apply stable_int_result. Qed.
Lemma stable_int_sub a b : stable R (int_sub a b).
Proof. apply stable_int_result. Qed.
Lemma stable_vec_at {A} (l : list A) i : stable R (vec_at l i).
Proof.
  unfold vec_at. destruct (i <? 0); [apply stable_ub|].
  destruct (l !! _); [apply stable_ret|apply stable_ub].
Qed.

Lemma stable_bind {A B} (m : M S A) (f : A -> M S B) :
  stable R m -> (forall a, stable R (f a)) -> stable R (bind m f).
Proof.
  intros Hm Hf s. unfold bind. specialize (Hm s).
  destruct (m s) as [[] s']; cbn in *; try done.
  etrans; [exact Hm|apply Hf].
Qed.

(** A sequence, from one state: the first part there, the second anywhere. *)
Lemma after_bind {A B} (m : M S A) (f : A -> M S B) s :
  R s (snd (m s)) -> (forall a, stable R (f a)) -> R s (snd (bind m f s)).
Proof. intros Hm Hf. unfold bind. destruct (m s) as [[] s']; try done. etrans; [exact Hm|apply Hf]. Qed.

Lemma stable_for_each {A} (l : list A) (f : A -> M S unit) :
  (forall x, stable R (f x)) -> stable R (for_each l f).
Proof. intros Hf. induction l; cbn; [apply stable_ret|by apply stable_bind]. Qed.

Lemma stable_if {A} (b : bool) (m1 m2 : M S A) :
  stable R m1 -> stable R m2 -> stable R (if b then m1 else m2).
Proof. by destruct b. Qed.

Lemma stable_option {A B} (o : option B) (f : B -> M S A) (m : M S A) :
  (forall x, stable R (f x)) -> stable R m ->
  stable R (match o with Some x => f x | None => m end).
Proof. by destruct o. Qed.
End stable_laws.

Lemma stable_zoom {S T A} (R : relation S) get set (m : M T A) :
  (forall s t, R s (set t s)) -> stable R (zoom get set m).
Proof. intros H s. unfold zoom. destruct (m (get s)). apply H. Qed.

#[export] Hint Resolve stable_ret stable_gets stable_throw stable_throw_line stable_ub
  stable_exit stable_int_result stable_int_add stable_int_sub stable_vec_at
  stable_bind stable_for_each stable_if stable_option : cxx.

(** [R s s'] for an observation that the computation leaves alone. *)
Definition same {S A} (f : S -> A) : relation S := fun s s' => f s' = f s.
#[export] Instance same_preorder {S A} (f : S -> A) : PreOrder (same f).
Proof. split; unfold same; repeat intro; congruence. Qed.

(** An integer observation that never decreases. *)
Definition grows {S} (f : S -> Z) : relation S := fun s s' => f s <= f s'.
#[export] Instance grows_preorder {S} (f : S -> Z) : PreOrder (grows f).
Proof. split; unfold grows; [intros s|intros s1 s2 s3]; lia. Qed.

(** ** Integers *)

Lemma in_int_iff z : in_int z = true <-> INT_MIN <= z <= INT_MAX.
Proof. unfold in_int, INT_MIN, INT_MAX. lia. Qed.

Lemma int_result_ok {S} z (s : S) :
  INT_MIN <= z <= INT_MAX -> int_result z s = (Val z, s).
Proof. unfold int_result. intros H. by rewrite (proj2 (in_int_iff z) H). Qed.

Lemma int_add_val {S} a b (s : S) z s' : int_add a b s = (Val z, s') -> z = a + b /\ s' = s.
Proof. unfold int_add, int_result. destruct (in_int (a + b)); [|done]. by intros [= <- <-]. Qed.

(** Steps over [int] arithmetic whose result fits. *)
Ltac int_step :=
  unfold int_add, int_sub;
  match goal with
  | |- context [bind (int_result ?z) ?f ?s] =>
      rewrite (bind_val (int_result z) f s z s)
        by (apply int_result_ok; unfold INT_MIN, INT_MAX in *; lia)
  end.

Lemma u32_id z : 0 <= z < 2 ^ 32 -> u32 z = z.
Proof. apply Z.mod_small. Qed.
Lemma u64_id z : 0 <= z < 2 ^ 64 -> u64 z = z.
Proof. apply Z.mod_small. Qed.
Lemma to_int_id z : INT_MIN <= z <= INT_MAX -> to_int z = z.
Proof. unfold to_int, INT_MIN, INT_MAX. intros. rewrite Z.mod_small; lia. Qed.

Lemma vec_at_ok {S A} (l : list A) i x (s : S) :
  0 <= i -> l !! Z.to_nat i = Some x -> vec_at l i s = (Val x, s).
Proof. intros Hi Hx. unfold vec_at. rewrite Hx. by destruct (Z.ltb_spec i 0); [lia|]. Qed.

(** ** Maps *)

Section map_index.
Context {K V : Type} `{Countable K}.
Implicit Types (m : gmap K V).

Lemma map_touch_some d k m v : m !! k = Some v -> map_touch d k m = m.
Proof. unfold map_touch. by intros ->. Qed.

Lemma lookup_map_touch d k m j :
  map_touch d k m !! j = if decide (j = k) then Some (map_at d k m) else m !! j.
Proof.
  unfold map_touch, map_at. destruct (m !! k) eqn:E; case_decide; simplify_map_eq; done.
Qed.

Lemma map_at_insert d k m j v :
  map_at d j (<[k := v]> m) = if decide (j = k) then v else map_at d j m.
Proof. unfold map_at. case_decide; simplify_map_eq; done. Qed.

(** Checking a property of all entries of a map by evaluation. *)
Lemma map_all_lookup (p : K -> V -> bool) m k v :
  forallb (fun '(k, v) => p k v) (map_to_list m) = true -> m !! k = Some v -> p k v = true.
Proof.
  rewrite forallb_forall. intros Hall Hk. apply (Hall (k, v)), list_elem_of_In. by apply elem_of_map_to_list.
Qed.

Lemma map_at_touch d k m j : map_at d j (map_touch d k m) = map_at d j m.
Proof. unfold map_at. rewrite lookup_map_touch. by case_decide; subst. Qed.
End map_index.

#[export] Hint Rewrite @map_at_insert @map_at_touch : cxx.

(** ** Sequences of integers *)

Lemma seqZ_front l1 l2 n : l1 ++ l2 = seqZ 0 n -> l1 = seqZ 0 (Z.of_nat (length l1)).
Proof.
  intros E. pose proof (f_equal length E) as Hl. rewrite length_app, length_seqZ in Hl.
  destruct (Z.le_gt_cases n 0); [destruct l1; [done|cbn in Hl; lia]|].
  replace n with (Z.of_nat (length l1) + (n - Z.of_nat (length l1))) in E by lia. rewrite seqZ_app in E by lia.
  apply app_inj_1 in E as [E _]; [done|]. rewrite length_seqZ. lia.
Qed.
