(* ===== verification/CxxString.v ===== *)
(** Byte strings and the conversions of the C++ standard library the program
    uses: [substr]-like slices, [std::to_string], [atoi] and [sprintf("%4d")],
    with the lemmas the framing layer and the log files need. *)

From S2P Require Import Prelude.

(** ** Slices *)

Definition slen (s : string) : Z := Z.of_nat (String.length s).

Fixpoint str_take (n : nat) (s : string) : string :=
  match n, s with
  | S n', String c s' => String c (str_take n' s')
  | _, _ => ""
  end.

Fixpoint str_drop (n : nat) (s : string) : string :=
  match n, s with
  | S n', String _ s' => str_drop n' s'
  | _, _ => s
  end.

(** [string(n, 0)] *)
Fixpoint zeros (n : nat) : string :=
  match n with O => "" | S n' => String "000"%char (zeros n') end.

#[local] Arguments String.append !_ _ /.

Section slices.
Implicit Types s t : string.

Lemma str_app_nil_r s : s +:+ "" = s.
Proof. induction s; cbn; f_equal; done. Qed.
Lemma str_app_nil_inv s t : s +:+ t = "" -> s = "" /\ t = "".
Proof. by destruct s. Qed.
Lemma str_app_assoc s t u : (s +:+ t) +:+ u = s +:+ (t +:+ u).
Proof. induction s; cbn; f_equal; done. Qed.
Lemma length_str_app s t : String.length (s +:+ t) = (String.length s + String.length t)%nat.
Proof. induction s; cbn; f_equal; done. Qed.
Lemma slen_nonneg s : 0 <= slen s.
Proof. unfold slen. lia. Qed.
Lemma slen_app s t : slen (s +:+ t) = slen s + slen t.
Proof. unfold slen. rewrite length_str_app. lia. Qed.

Lemma str_take_app s t : str_take (String.length s) (s +:+ t) = s.
Proof. induction s; cbn; [by destruct t|f_equal; done]. Qed.
Lemma str_drop_app s t : str_drop (String.length s) (s +:+ t) = t.
Proof. induction s; cbn; [by destruct t|done]. Qed.
Lemma str_take_drop n s : str_take n s +:+ str_drop n s = s.
Proof. revert s. induction n; intros []; cbn; f_equal; done. Qed.
Lemma str_take_ge n s : (String.length s <= n)%nat -> str_take n s = s.
Proof. revert s. induction n; intros [] ?; cbn in *; f_equal; auto with lia. Qed.
Lemma str_drop_ge n s : (String.length s <= n)%nat -> str_drop n s = "".
Proof. revert s. induction n; intros [] ?; cbn in *; auto with lia. Qed.
Lemma length_str_take n s : String.length (str_take n s) = Nat.min n (String.length s).
Proof. revert s. induction n; intros []; cbn; auto. Qed.
Lemma length_str_drop n s : String.length (str_drop n s) = (String.length s - n)%nat.
Proof. revert s. induction n; intros []; cbn; auto. Qed.
Lemma str_take_app_le n s t :
  (n <= String.length s)%nat -> str_take n (s +:+ t) = str_take n s.
Proof. revert s. induction n; intros [] ?; cbn in *; f_equal; auto with lia. Qed.
Lemma str_drop_app_le n s t :
  (n <= String.length s)%nat -> str_drop n (s +:+ t) = str_drop n s +:+ t.
Proof. revert s. induction n; intros [] ?; cbn in *; auto with lia. Qed.
Lemma str_take_drop_app n s s' t t' :
  s +:+ t = s' +:+ t' -> String.length s' = n -> (n <= String.length s)%nat ->
  str_take n s = s' /\ str_drop n s +:+ t = t'.
Proof.
  intros E <- Hn. rewrite <- (str_take_app_le _ s t), <- str_drop_app_le, E by done.
  split; [apply str_take_app|apply str_drop_app].
Qed.
Lemma str_take_add s t n :
  str_take (String.length s + n) (s +:+ t) = s +:+ str_take n t.
Proof. induction s; cbn; [by destruct n, t|by f_equal]. Qed.
Lemma str_drop_add s t n :
  str_drop (String.length s + n) (s +:+ t) = str_drop n t.
Proof. by induction s. Qed.
Lemma length_zeros n : String.length (zeros n) = n.
Proof. induction n; cbn; auto. Qed.
End slices.

#[export] Hint Rewrite str_app_nil_r str_app_assoc str_take_app str_drop_app slen_app : cxx.

(** ** Numbers *)

(** [std::to_string(int)]: decimal digits with a sign for negative numbers. *)
Definition to_string (z : Z) : string := pretty z.

(** [atoi]: skips white space, reads an optional sign, then digits up to the
    first byte that is none. *)
Fixpoint read_digits (acc : N) (s : string) : N * string :=
  match s with
  | String c s' =>
      match Ascii.is_nat c with
      | Some d => read_digits (10 * acc + N.of_nat d) s'
      | None => (acc, s)
      end
  | EmptyString => (acc, s)
  end.
Definition digits_val (s : string) : N := fst (read_digits 0 s).

Fixpoint skip_spaces (s : string) : string :=
  match s with
  | String c s' => if Ascii.is_space c then skip_spaces s' else s
  | EmptyString => s
  end.

Definition signed_val (s : string) : Z :=
  match s with
  | String "-" s' => - Z.of_N (digits_val s')
  | String "+" s' => Z.of_N (digits_val s')
  | _ => Z.of_N (digits_val s)
  end.

(** The value of a text that [atoi] reads as a number outside [int] is
    undefined. *)
Definition atoi {S} (s : string) : M S Z := int_result (signed_val (skip_spaces s)).

(** A text the digits of a number are not continued by. *)
Definition no_digit_head (s : string) : Prop :=
  match s with String c _ => Ascii.is_nat c = None | EmptyString => True end.

(** [sprintf(buf, "%4d", z)]: padded with blanks on the left to 4 columns. *)
Definition sprintf_4d (z : Z) : string :=
  let t := to_string z in
  match String.length t with
  | 0%nat => "    " +:+ t
  | 1%nat => "   " +:+ t
  | 2%nat => "  " +:+ t
  | 3%nat => " " +:+ t
  | _ => t
  end.

Section numbers.
Lemma is_nat_char x : (x < 10)%N -> Ascii.is_nat (pretty_N_char x) = Some (N.to_nat x).
Proof.
  intros ?. assert (x = 0 \/ x = 1 \/ x = 2 \/ x = 3 \/ x = 4 \/ x = 5 \/ x = 6 \/
    x = 7 \/ x = 8 \/ x = 9)%N by lia. by destruct_or!; subst.
Qed.

Lemma read_digits_no_digit acc s : no_digit_head s -> read_digits acc s = (acc, s).
Proof. destruct s as [|c s]; cbn; [done|by intros ->]. Qed.

Lemma read_digits_go x s : read_digits 0 (pretty_N_go x s) = read_digits x s.
Proof.
  revert s. induction (N.lt_wf_0 x) as [x _ IH]; intros s.
  destruct (decide (x = 0)%N) as [->|]; [by rewrite pretty_N_go_0|].
  assert (x mod 10 < 10)%N by (apply N.mod_lt; lia).
  rewrite pretty_N_go_step, IH by (try apply N.div_lt; lia).
  cbn. rewrite is_nat_char, N2Nat.id by done.
  by rewrite <- N.div_mod by lia.
Qed.

Lemma pretty_N_go_cons x s :
  (0 < x)%N -> exists d s', (d < 10)%N /\ pretty_N_go x s = String (pretty_N_char d) s'.
Proof.
  revert s. induction (N.lt_wf_0 x) as [x _ IH]; intros s ?.
  assert (x mod 10 < 10)%N by (apply N.mod_lt; lia).
  rewrite pretty_N_go_step by done.
  destruct (decide (x / 10 = 0)%N) as [E|].
  - rewrite E, pretty_N_go_0. eauto.
  - apply IH; [apply N.div_lt; lia|by apply N.neq_0_lt_0].
Qed.

Lemma pretty_N_go_app x s t : pretty_N_go x (s +:+ t) = pretty_N_go x s +:+ t.
Proof.
  revert s. induction (N.lt_wf_0 x) as [x _ IH]; intros s.
  destruct (decide (x = 0)%N) as [->|]; [by rewrite !pretty_N_go_0|].
  rewrite !(pretty_N_go_step x) by lia.
  rewrite <- IH by (apply N.div_lt; lia). done.
Qed.

Lemma pretty_N_cons (x : N) : exists d s', (d < 10)%N /\ pretty x = String (pretty_N_char d) s'.
Proof.
  unfold pretty, pretty_N. case_decide; [by exists 0%N, ""|].
  apply pretty_N_go_cons. lia.
Qed.

Lemma read_digits_pretty (x : N) s :
  no_digit_head s -> read_digits 0 (pretty x +:+ s) = (x, s).
Proof.
  intros Hs. unfold pretty, pretty_N. case_decide as E.
  - subst. cbn. by apply read_digits_no_digit.
  - rewrite <- pretty_N_go_app, read_digits_go. by apply read_digits_no_digit.
Qed.

Lemma digits_val_pretty (x : N) s : no_digit_head s -> digits_val (pretty x +:+ s) = x.
Proof. intros Hs. unfold digits_val. by rewrite read_digits_pretty. Qed.

(** A digit is neither a blank nor a sign. *)
Lemma signed_val_digits d s :
  (d < 10)%N -> signed_val (skip_spaces (String (pretty_N_char d) s))
                = Z.of_N (digits_val (String (pretty_N_char d) s)).
Proof.
  intros ?. assert (d = 0 \/ d = 1 \/ d = 2 \/ d = 3 \/ d = 4 \/ d = 5 \/ d = 6 \/
    d = 7 \/ d = 8 \/ d = 9)%N by lia. by destruct_or!; subst.
Qed.

Lemma signed_val_to_string z s :
  no_digit_head s -> signed_val (skip_spaces (to_string z +:+ s)) = z.
Proof.
  intros Hs. unfold to_string, pretty, pretty_Z. destruct z as [|p|p].
  - cbn. unfold digits_val. cbn. by rewrite read_digits_no_digit.
  - destruct (pretty_N_cons (N.pos p)) as (d & s' & ? & E). 
    change (pretty p) with (pretty (N.pos p)).
    rewrite E. change (String ?c ?a +:+ s) with (String c (a +:+ s)).
    rewrite signed_val_digits by done.
    change (String ?c (s' +:+ s)) with (String c s' +:+ s).
    by rewrite <- E, digits_val_pretty.
  - change (("-" +:+ pretty p) +:+ s) with (String "-" (pretty (N.pos p) +:+ s)).
    cbn. by rewrite digits_val_pretty.
Qed.

Lemma skip_spaces_4d z s : 
  skip_spaces (sprintf_4d z +:+ s) = skip_spaces (to_string z +:+ s).
Proof. unfold sprintf_4d. by destruct (String.length (to_string z)) as [|[|[|[|]]]]. Qed.
End numbers.

(** [atoi] reads back what [to_string] and [sprintf("%4d")] print. *)
Lemma atoi_to_string {S} z s (st : S) :
  INT_MIN <= z <= INT_MAX -> no_digit_head s -> atoi (to_string z +:+ s) st = (Val z, st).
Proof. intros Hz Hs. unfold atoi. rewrite signed_val_to_string by done. by apply int_result_ok. Qed.

Lemma atoi_sprintf_4d {S} z (st : S) :
  INT_MIN <= z <= INT_MAX -> atoi (sprintf_4d z) st = (Val z, st).
Proof.
  intros Hz. rewrite <- (str_app_nil_r (sprintf_4d z)). unfold atoi.
  rewrite skip_spaces_4d, signed_val_to_string by done. by apply int_result_ok.
Qed.

(** Lengths from 0 to 9999 fill exactly the 4 columns. *)
Lemma length_sprintf_4d z : 0 <= z <= 9999 -> String.length (sprintf_4d z) = 4%nat.
Proof.
  intros Hz. apply Nat.eqb_eq.
  assert (Hall : forallb (fun z => Nat.eqb (String.length (sprintf_4d z)) 4) (seqZ 0 10000) = true)
    by (vm_compute; reflexivity).
  rewrite forallb_forall in Hall. apply Hall, list_elem_of_In, elem_of_seqZ. lia.
Qed.
