(* ===== verification/Platform.v ===== *)
(** The code the program calls and does not contain: libc and the file system,
    boost::asio's deadline timers, boost::split, boost::archive and the
    generated protobuf classes.  Each is a type class of operations that the
    components take as an argument, beside a class of laws with the documented
    behaviour the program relies on.  The second half of the file has one
    reference instance of each, on which concrete runs are evaluated. *)

From S2P Require Import Prelude CxxString.

(** ** Operations and laws *)

(** [rand()]: the generator's hidden state is an integer. *)
Class Rand := rand : Z -> Z * Z.
Class RandLaws {R : Rand} : Prop :=
  rand_range seed : 0 <= fst (rand seed) <= INT_MAX.

(** Files by path.  A system call can fail or transfer less than asked: the
    instance decides whether [fopen] and [open] succeed and how many bytes a
    [write] or a [read] transfers ([-1] for an error). *)
Abbreviation disk := (gmap string string).
Class Posix := {
  fopen_ok : disk -> string -> bool;
  open_ok : disk -> string -> bool;
  write_count : string -> Z -> string -> Z;
  read_count : string -> Z -> Z -> Z;
}.

(** A healthy file system: opening works, transfers are complete. *)
Class PosixHealthy {P : Posix} : Prop := {
  fopen_exists d p : fopen_ok d p = bool_decide (is_Some (d !! p));
  open_works d p : open_ok d p = true;
  write_complete p pos s : write_count p pos s = slen s;
  read_complete p pos n : read_count p pos n = n;
}.

(** [boost::split(results, str, pred)] *)
Class BoostSplit := boost_split : (ascii -> bool) -> string -> list string.

Fixpoint join (sep : ascii) (l : list string) : string :=
  match l with
  | [] => ""
  | [s] => s
  | s :: l' => s +:+ String sep (join sep l')
  end.
Fixpoint str_forall (p : ascii -> bool) (s : string) : bool :=
  match s with String c s' => p c && str_forall p s' | EmptyString => true end.

Class BoostSplitLaws {B : BoostSplit} : Prop := {
  split_nonempty p s : boost_split p s <> [];
  split_join sep s : join sep (boost_split (fun c => bool_decide (c = sep)) s) = s;
  split_tokens sep s :
    Forall (fun t => str_forall (fun c => negb (bool_decide (c = sep))) t = true)
      (boost_split (fun c => bool_decide (c = sep)) s);
}.

(** [boost::archive::binary_oarchive << v] and [binary_iarchive >> v] for a
    [vector<unsigned int>]; loading can throw. *)
Class BinaryArchive := {
  oarchive : list Z -> string;
  iarchive : string -> option (list Z);
}.
Class BinaryArchiveLaws {A : BinaryArchive} : Prop := {
  iarchive_oarchive l : iarchive (oarchive l) = Some l;
  iarchive_empty : iarchive "" = None;
}.

(** A generated protobuf class: [SerializeToString], and the object that
    [ParseFromString] leaves behind in a fresh message.  The program never
    looks at the success flag of either. *)
Class Codec (A : Type) := {
  SerializeToString : A -> string;
  ParseFromString : string -> A;
}.

(** The messages protobuf transports unchanged: 32-bit fields and text fields. *)
Class Wireable (A : Type) := wireable : A -> bool.

Class CodecLaws (A : Type) {W : Wireable A} {C : Codec A} : Prop :=
  parse_serialize m : wireable m = true -> ParseFromString (SerializeToString m) = m.

(** A proto3 [string] field holds UTF-8 text. *)
Fixpoint utf8_go (n : nat) (s : string) : bool :=
  match s with
  | EmptyString => bool_decide (n = 0%nat)
  | String c s' =>
      let b := Z.of_nat (nat_of_ascii c) in
      match n with
      | S n' => (128 <=? b) && (b <? 192) && utf8_go n' s'
      | O => if b <? 128 then utf8_go 0 s'
             else if (194 <=? b) && (b <? 224) then utf8_go 1 s'
             else if (224 <=? b) && (b <? 240) then utf8_go 2 s'
             else if (240 <=? b) && (b <? 245) then utf8_go 3 s'
             else false
      end
  end.
Definition utf8 (s : string) : bool := utf8_go 0 s.

(** [boost::asio::deadline_timer], with the handlers of type [H] it calls.
    [waits t] are the waits still pending, [expires_at_min t] tells whether
    [expires_at()] is [min_date_time].  Setting the expiry cancels the pending
    waits and returns their number.  [elapse] is the moment the timer expires:
    its waits leave the timer for the queue of the io_context. *)
Class DeadlineTimer (H T : Type) := {
  new_timer : T;
  waits : T -> list H;
  expires_at_min : T -> bool;
  set_expires_at_min : T -> Z * T;
  expires_from_now : Z -> T -> Z * T;
  cancel : T -> Z * T;
  async_wait : H -> T -> T;
  elapse : T -> T;
}.

Class DeadlineTimerLaws (H T : Type) {D : DeadlineTimer H T} : Prop := {
  new_waits : waits new_timer = [];
  new_expiry : expires_at_min new_timer = false;
  set_min_count t : fst (set_expires_at_min t) = Z.of_nat (length (waits t));
  set_min_waits t : waits (snd (set_expires_at_min t)) = [];
  set_min_expiry t : expires_at_min (snd (set_expires_at_min t)) = true;
  from_now_count d t : fst (expires_from_now d t) = Z.of_nat (length (waits t));
  from_now_waits d t : waits (snd (expires_from_now d t)) = [];
  from_now_expiry d t : 0 <= d -> expires_at_min (snd (expires_from_now d t)) = false;
  cancel_count t : fst (cancel t) = Z.of_nat (length (waits t));
  cancel_waits t : waits (snd (cancel t)) = [];
  cancel_expiry t : expires_at_min (snd (cancel t)) = expires_at_min t;
  wait_waits h t : waits (async_wait h t) = waits t ++ [h];
  wait_expiry h t : expires_at_min (async_wait h t) = expires_at_min t;
  elapse_waits t : waits (elapse t) = [];
  elapse_expiry t : expires_at_min (elapse t) = expires_at_min t;
}.

#[export] Hint Rewrite @new_waits @new_expiry @set_min_count @set_min_waits @set_min_expiry
  @from_now_count @from_now_waits @cancel_count @cancel_waits @cancel_expiry
  @wait_waits @wait_expiry @elapse_waits @elapse_expiry using typeclasses eauto : cxx.

(** ** Reference instances *)

Module Reference.
(** A linear congruential generator. *)
#[export] Instance ref_rand : Rand := fun seed =>
  let s := (seed * 1103515245 + 12345) mod 2 ^ 31 in (s, s).
#[export] Instance ref_rand_laws : RandLaws.
Proof.
  intros seed. cbn. pose proof (Z.mod_pos_bound (seed * 1103515245 + 12345) (2 ^ 31)).
  unfold INT_MAX. lia.
Qed.

#[export] Instance ref_posix : Posix := {|
  fopen_ok d p := bool_decide (is_Some (d !! p));
  open_ok d p := true;
  write_count p pos s := slen s;
  read_count p pos n := n;
|}.
#[export] Instance ref_posix_healthy : PosixHealthy.
Proof. done. Qed.

Fixpoint ref_split_go (p : ascii -> bool) (cur : string) (s : string) : list string :=
  match s with
  | EmptyString => [cur]
  | String c s' => if p c then cur :: ref_split_go p "" s'
                   else ref_split_go p (cur +:+ String c "") s'
  end.
#[export] Instance ref_split : BoostSplit := fun p => ref_split_go p "".

Lemma ref_split_go_cons p cur s : exists t l, ref_split_go p cur s = t :: l.
Proof. revert cur. induction s; intros; cbn; [|destruct (p _)]; eauto. Qed.

Lemma join_cons sep t l : l <> [] -> join sep (t :: l) = t +:+ String sep (join sep l).
Proof. by destruct l. Qed.

Lemma str_forall_app p s t : str_forall p (s +:+ t) = str_forall p s && str_forall p t.
Proof.
  induction s as [|c s IH]; [done|]. 
  change (p c && str_forall p (s +:+ t) = (p c && str_forall p s) && str_forall p t).
  rewrite IH. by destruct (p c).
Qed.

#[export] Instance ref_split_laws : BoostSplitLaws.
Proof.
  split; unfold boost_split, ref_split.
  - intros p s. destruct (ref_split_go_cons p "" s) as (? & ? & ->). done.
  - intros sep s. enough (forall cur, join sep (ref_split_go (fun c => bool_decide (c = sep)) cur s)
      = cur +:+ s) as -> by done.
    induction s as [|c s IH]; intros cur; cbn; [by rewrite str_app_nil_r|].
    case_bool_decide as E.
    + destruct (ref_split_go_cons (fun c => bool_decide (c = sep)) "" s) as (? & ? & E').
      rewrite join_cons by (by rewrite E'). rewrite IH. by subst.
    + rewrite IH, str_app_assoc. done.
  - intros sep s. enough (forall cur,
      str_forall (fun c => negb (bool_decide (c = sep))) cur = true ->
      Forall (fun t => str_forall (fun c => negb (bool_decide (c = sep))) t = true)
        (ref_split_go (fun c => bool_decide (c = sep)) cur s)) by auto.
    induction s as [|c s IH]; intros cur Hcur; cbn; [by repeat constructor|].
    case_bool_decide as E; [constructor; auto|].
    apply IH. rewrite str_forall_app, Hcur. cbn. by rewrite bool_decide_false.
Qed.

(** A self-delimiting text format: numbers end in a semicolon, a string is
    preceded by its length, a list by its number of elements. *)
Class Wire (A : Type) := {
  put : A -> string;
  take : string -> option (A * string);
  take_put a rest : take (put a +:+ rest) = Some (a, rest);
}.

Definition take_Z (s : string) : option (Z * string) :=
  let read s := match read_digits 0 s with
                | (n, String ";" rest) => Some (Z.of_N n, rest)
                | _ => None
                end in
  match s with
  | String "-" s' => match read s' with Some (z, rest) => Some (- z, rest) | None => None end
  | _ => read s
  end.

Definition put_Z (z : Z) : string := to_string z +:+ ";".
Lemma take_put_Z z rest : take_Z (put_Z z +:+ rest) = Some (z, rest).
Proof.
  unfold put_Z. rewrite str_app_assoc. change (";" +:+ rest) with (String ";" rest).
  unfold to_string, take_Z, pretty, pretty_Z. destruct z as [|p|p].
  - done.
  - change (pretty p) with (pretty (N.pos p)).
    destruct (pretty_N_cons (N.pos p)) as (d & s' & Hd & E).
    pose proof (read_digits_pretty (N.pos p) (String ";" rest) eq_refl) as HR.
    rewrite E in *. change (String ?c ?a +:+ ?s) with (String c (a +:+ s)) in *.
    assert (d = 0 \/ d = 1 \/ d = 2 \/ d = 3 \/ d = 4 \/ d = 5 \/ d = 6 \/
      d = 7 \/ d = 8 \/ d = 9)%N as Hd' by lia.
    destruct_or! Hd'; subst d; cbn [pretty_N_char] in *; by rewrite HR.
  - change (("-" +:+ pretty p) +:+ ?s) with (String "-" (pretty (N.pos p) +:+ s)).
    cbn -[read_digits]. by rewrite read_digits_pretty.
Qed.
#[export] Instance wire_Z : Wire Z :=
  {| put := put_Z; take := take_Z; take_put := take_put_Z |}.

Definition put_bool (b : bool) : string := if b then "1" else "0".
Definition take_bool (s : string) : option (bool * string) :=
  match s with
  | String "1" r => Some (true, r)
  | String "0" r => Some (false, r)
  | _ => None
  end.
Lemma take_put_bool b rest : take_bool (put_bool b +:+ rest) = Some (b, rest).
Proof. by destruct b. Qed.
#[export] Instance wire_bool : Wire bool :=
  {| put := put_bool; take := take_bool; take_put := take_put_bool |}.

Definition put_string (s : string) : string := put (slen s) +:+ s.
Definition take_string (s : string) : option (string * string) :=
  match take s with
  | Some (n, r) => Some (str_take (Z.to_nat n) r, str_drop (Z.to_nat n) r)
  | None => None
  end.
Lemma take_put_string s rest : take_string (put_string s +:+ rest) = Some (s, rest).
Proof.
  unfold take_string, put_string, slen.
  by rewrite str_app_assoc, take_put, Nat2Z.id, str_take_app, str_drop_app.
Qed.
#[export] Instance wire_string : Wire string :=
  {| put := put_string; take := take_string; take_put := take_put_string |}.

Definition put_pair {A B} `{Wire A, Wire B} (p : A * B) : string := put (fst p) +:+ put (snd p).
Definition take_pair {A B} `{Wire A, Wire B} (s : string) : option (A * B * string) :=
  match take s with
  | Some (a, r) => match take r with Some (b, r') => Some ((a, b), r') | None => None end
  | None => None
  end.
Lemma take_put_pair {A B} `{Wire A, Wire B} (p : A * B) rest :
  take_pair (put_pair p +:+ rest) = Some (p, rest).
Proof.
  destruct p as [a b]. unfold take_pair, put_pair. cbn [fst snd].
  by rewrite str_app_assoc, !take_put.
Qed.
#[export] Instance wire_pair {A B} `{Wire A, Wire B} : Wire (A * B) :=
  {| put := put_pair; take := take_pair; take_put := take_put_pair |}.

Fixpoint put_all {A} `{Wire A} (l : list A) : string :=
  match l with [] => "" | a :: l' => put a +:+ put_all l' end.
Fixpoint take_all {A} `{Wire A} (n : nat) (s : string) : option (list A * string) :=
  match n with
  | O => Some ([], s)
  | S n' => match take s with
            | Some (a, r) => match take_all n' r with Some (l, r') => Some (a :: l, r') | None => None end
            | None => None
            end
  end.
Lemma take_put_all {A} `{Wire A} (l : list A) rest :
  take_all (length l) (put_all l +:+ rest) = Some (l, rest).
Proof. induction l as [|a l IH]; cbn; [done|]. by rewrite str_app_assoc, take_put, IH. Qed.

Definition put_list {A} `{Wire A} (l : list A) : string :=
  put (Z.of_nat (length l)) +:+ put_all l.
Definition take_list {A} `{Wire A} (s : string) : option (list A * string) :=
  match take s with Some (n, r) => take_all (Z.to_nat n) r | None => None end.
Lemma take_put_list {A} `{Wire A} (l : list A) rest :
  take_list (put_list l +:+ rest) = Some (l, rest).
Proof.
  unfold take_list, put_list. by rewrite str_app_assoc, take_put, Nat2Z.id, take_put_all.
Qed.
#[export] Instance wire_list {A} `{Wire A} : Wire (list A) :=
  {| put := put_list; take := take_list; take_put := take_put_list |}.

(** A message class from its tuple of fields; text that is no message leaves
    the fields at their defaults. *)
Definition wire_codec {A B} `{Wire B, Wireable A} (fields : A -> B) (build : B -> A) (dflt : A) : Codec A := {|
  SerializeToString a := put (fields a);
  ParseFromString s := match take s with
                       | Some (b, _) => if wireable (build b) then build b else dflt
                       | None => dflt
                       end;
|}.
Lemma wire_codec_laws {A B} `{Wire B, Wireable A} (fields : A -> B) (build : B -> A) (dflt : A) :
  (forall a, build (fields a) = a) -> CodecLaws A (C := wire_codec fields build dflt).
Proof.
  intros Hof m Hm. cbn. rewrite <- (str_app_nil_r (put (fields m))), take_put. by rewrite Hof, Hm.
Qed.
Lemma wire_codec_parsed {A B} `{Wire B, Wireable A} (fields : A -> B) (build : B -> A) (dflt : A) s :
  wireable dflt = true -> wireable (ParseFromString (Codec := wire_codec fields build dflt) s) = true.
Proof. intros Hd. cbn. destruct (take s) as [[b r]|]; [|done]. by destruct (wireable (build b)) eqn:E. Qed.

#[export] Instance ref_archive : BinaryArchive := {|
  oarchive l := put l;
  iarchive s := match take s with Some (l, _) => Some l | None => None end;
|}.
#[export] Instance ref_archive_laws : BinaryArchiveLaws.
Proof.
  split; [|reflexivity]. intros l. cbn [iarchive oarchive ref_archive].
  by rewrite <- (str_app_nil_r (put l)), take_put.
Qed.

(** A timer as the list of its pending waits and the one fact about its
    expiry the program asks for. *)
Record ref_timer (H : Type) := { rt_waits : list H; rt_min : bool }.
Arguments rt_waits {_} _.
Arguments rt_min {_} _.
#[export] Instance ref_deadline_timer H : DeadlineTimer H (ref_timer H) := {|
  new_timer := {| rt_waits := []; rt_min := false |};
  waits t := rt_waits t;
  expires_at_min t := rt_min t;
  set_expires_at_min t := (Z.of_nat (length (rt_waits t)), {| rt_waits := []; rt_min := true |});
  expires_from_now d t := (Z.of_nat (length (rt_waits t)), {| rt_waits := []; rt_min := d <? 0 |});
  cancel t := (Z.of_nat (length (rt_waits t)), {| rt_waits := []; rt_min := rt_min t |});
  async_wait h t := {| rt_waits := rt_waits t ++ [h]; rt_min := rt_min t |};
  elapse t := {| rt_waits := []; rt_min := rt_min t |};
|}.
#[export] Instance ref_deadline_timer_laws H : DeadlineTimerLaws H (ref_timer H).
Proof. split; cbn; try done. intros d t Hd. lia. Qed.
End Reference.
