(* ===== verification/Timer.v ===== *)
(** The timers of the server (Timer.h, Timer.cpp): a class around a boost deadline
    timer, which its accessor [get_core] gives back as a reference.  The server's
    timers are [Timer] objects, and every operation on one goes through
    [get_core]; that a [Timer] is a deadline timer again is what the server is
    verified against. *)

From S2P Require Import Prelude Platform.

Module Timer.

Record Timer (T : Type) := { timer_ : T }.
Arguments timer_ {_} _.

Section timer.
Context {H T : Type} {DT : DeadlineTimer H T}.
Implicit Types (t : Timer T).

(** [Timer::Timer], and what a call does through the reference of [get_core]. *)
Definition new : Timer T := {| timer_ := new_timer (H := H) |}.
Definition get_core {A} (f : T -> A * T) t : A * Timer T :=
  let '(a, core) := f (timer_ t) in (a, {| timer_ := core |}).
Definition get_core_ (f : T -> T) t : Timer T := snd (get_core (fun core => (tt, f core)) t).

#[export] Instance timer : DeadlineTimer H (Timer T) := {|
  new_timer := new;
  waits t := waits (timer_ t);
  expires_at_min t := expires_at_min (timer_ t);
  set_expires_at_min := get_core set_expires_at_min;
  expires_from_now d := get_core (expires_from_now d);
  cancel := get_core cancel;
  async_wait h := get_core_ (async_wait h);
  elapse := get_core_ elapse;
|}.

Lemma get_core_val {A} (f : T -> A * T) t :
  fst (get_core f t) = fst (f (timer_ t)) /\ timer_ (snd (get_core f t)) = snd (f (timer_ t)).
Proof. unfold get_core. by destruct (f (timer_ t)). Qed.

#[export] Instance timer_laws {DL : DeadlineTimerLaws H T} : DeadlineTimerLaws H (Timer T).
Proof.
  split; intros; cbn -[get_core]; unfold get_core_; rewrite ?(proj1 (get_core_val _ _)), ?(proj2 (get_core_val _ _)); cbn;
    by autorewrite with cxx || by apply from_now_expiry.
Qed.
End timer.
End Timer.
