(* ===== verification/Messages.v ===== *)
(** The messages of rpc.proto and easy_state_machine.proto, the tag of a
    message on the wire (rpc/rpc_type.h) and the codecs of the generated
    protobuf classes.  A field [f] of message [m] is read by [m_f]. *)

From S2P Require Import Prelude CxxString Platform.

(** ** rpc.proto *)

Record rpc_Entry := { en_term : Z; en_index : Z; en_msg : string }.

Record AppendEntryRpc := {
  ae_term : Z; ae_prelog_term : Z; ae_commit_index : Z; ae_lsn : Z;
  ae_ip : string; ae_port : Z; ae_entry : list rpc_Entry; ae_prelog_index : Z;
}.

Record Resp_AppendEntryRpc := {
  rae_ok : bool; rae_term : Z; rae_lsn : Z; rae_ip : string; rae_port : Z;
  rae_is_empty_ae : bool;
}.

Record RequestVoteRpc := {
  rv_term : Z; rv_latest_index : Z; rv_latest_term : Z; rv_lsn : Z;
  rv_ip : string; rv_port : Z;
}.

Record Resp_RequestVoteRpc := {
  rrv_ok : bool; rrv_term : Z; rrv_lsn : Z; rrv_ip : string; rrv_port : Z;
}.

(** ** easy_state_machine.proto *)

Record apply_call := { ac_key : string; ac_v : Z }.
Record query_call := { qc_key : string }.
Record resp_apply := { ra_ok : bool }.
Record resp_query := { rq_ok : bool; rq_v : Z }.

#[export] Instance rpc_Entry_eq_dec : EqDecision rpc_Entry.
Proof. solve_decision. Defined.

(** ** rpc_type.h *)

(** The last constructor is a value of the enumeration's range that no
    enumerator names, as a cast from [int] can give. *)
Inductive RPC_TYPE :=
| REQUEST_VOTE | APPEND_ENTRY | RESP_VOTE | RESP_APPEND | CLIENT_APPLY | CLIENT_QUERY
| RESP_CLIENT_APPLY | RESP_CLIENT_QUERY | ERROR
| RPC_TYPE_other (n : Z).

#[export] Instance RPC_TYPE_eq_dec : EqDecision RPC_TYPE.
Proof. solve_decision. Defined.

Definition rpc_type_to_int (t : RPC_TYPE) : Z :=
  match t with
  | REQUEST_VOTE => 0 | APPEND_ENTRY => 1 | RESP_VOTE => 2 | RESP_APPEND => 3
  | CLIENT_APPLY => 4 | CLIENT_QUERY => 5 | RESP_CLIENT_APPLY => 6 | RESP_CLIENT_QUERY => 7
  | ERROR => 8 | RPC_TYPE_other n => n
  end.

Definition rpc_type_of_int (n : Z) : RPC_TYPE :=
  match n with
  | 0 => REQUEST_VOTE | 1 => APPEND_ENTRY | 2 => RESP_VOTE | 3 => RESP_APPEND
  | 4 => CLIENT_APPLY | 5 => CLIENT_QUERY | 6 => RESP_CLIENT_APPLY | 7 => RESP_CLIENT_QUERY
  | 8 => ERROR | _ => RPC_TYPE_other n
  end.

(** The types the program itself sends. *)
Definition named_type (t : RPC_TYPE) : bool :=
  match t with ERROR | RPC_TYPE_other _ => false | _ => true end.

Lemma rpc_type_of_to_int t : named_type t = true -> rpc_type_of_int (rpc_type_to_int t) = t.
Proof. by destruct t. Qed.

(** A server's address, [std::tuple<string, int>]. *)
Abbreviation server_addr := (string * Z)%type.

(** ** Codecs *)

#[export] Instance wireable_entry : Wireable rpc_Entry := fun e =>
  in_int (en_term e) && in_int (en_index e) && utf8 (en_msg e).
#[export] Instance wireable_ae : Wireable AppendEntryRpc := fun m =>
  in_int (ae_term m) && in_int (ae_prelog_term m) && in_int (ae_commit_index m) &&
  in_int (ae_lsn m) && utf8 (ae_ip m) && in_int (ae_port m) &&
  forallb wireable (ae_entry m) && in_int (ae_prelog_index m).
#[export] Instance wireable_resp_ae : Wireable Resp_AppendEntryRpc := fun m =>
  in_int (rae_term m) && in_int (rae_lsn m) && utf8 (rae_ip m) && in_int (rae_port m).
#[export] Instance wireable_rv : Wireable RequestVoteRpc := fun m =>
  in_int (rv_term m) && in_int (rv_latest_index m) && in_int (rv_latest_term m) &&
  in_int (rv_lsn m) && utf8 (rv_ip m) && in_int (rv_port m).
#[export] Instance wireable_resp_rv : Wireable Resp_RequestVoteRpc := fun m =>
  in_int (rrv_term m) && in_int (rrv_lsn m) && utf8 (rrv_ip m) && in_int (rrv_port m).
#[export] Instance wireable_apply : Wireable apply_call := fun m => utf8 (ac_key m) && in_int (ac_v m).
#[export] Instance wireable_query : Wireable query_call := fun m => utf8 (qc_key m).
#[export] Instance wireable_resp_apply : Wireable resp_apply := fun m => true.
#[export] Instance wireable_resp_query : Wireable resp_query := fun m => in_int (rq_v m).

(** The generated classes of rpc.proto, and those of easy_state_machine.proto. *)
Class RaftCodecs := {
  #[global] codec_entry :: Codec rpc_Entry;
  #[global] codec_ae :: Codec AppendEntryRpc;
  #[global] codec_resp_ae :: Codec Resp_AppendEntryRpc;
  #[global] codec_rv :: Codec RequestVoteRpc;
  #[global] codec_resp_rv :: Codec Resp_RequestVoteRpc;
}.
Class RaftCodecsLaws {C : RaftCodecs} : Prop := {
  #[global] laws_entry :: CodecLaws rpc_Entry;
  #[global] laws_ae :: CodecLaws AppendEntryRpc;
  #[global] laws_resp_ae :: CodecLaws Resp_AppendEntryRpc;
  #[global] laws_rv :: CodecLaws RequestVoteRpc;
  #[global] laws_resp_rv :: CodecLaws Resp_RequestVoteRpc;
}.

(** What the elections need besides: whatever text it was parsed from, the fields
    of a vote request are 32-bit integers; and a refusal is read as a refusal,
    whatever its other fields are, since a flag that is false is not sent. *)
Class VoteCodecLaws {C : RaftCodecs} : Prop := {
  parsed_vote_request s :
    let m : RequestVoteRpc := ParseFromString s in in_int (rv_term m) = true /\ in_int (rv_lsn m) = true;
  refusal_parsed m : rrv_ok m = false -> rrv_ok (ParseFromString (SerializeToString m)) = false;
}.

Class EasyCodecs := {
  #[global] codec_apply :: Codec apply_call;
  #[global] codec_query :: Codec query_call;
  #[global] codec_resp_apply :: Codec resp_apply;
  #[global] codec_resp_query :: Codec resp_query;
}.
Class EasyCodecsLaws {C : EasyCodecs} : Prop := {
  #[global] laws_apply :: CodecLaws apply_call;
  #[global] laws_query :: CodecLaws query_call;
  #[global] laws_resp_apply :: CodecLaws resp_apply;
  #[global] laws_resp_query :: CodecLaws resp_query;
}.

(** ** Reference codecs *)

Module ReferenceCodecs.
Import Reference.

Definition entry_fields (e : rpc_Entry) := (en_term e, (en_index e, en_msg e)).
Definition entry_build '((t, (i, m)) : Z * (Z * string)) : rpc_Entry :=
  {| en_term := t; en_index := i; en_msg := m |}.
Lemma entry_build_fields e : entry_build (entry_fields e) = e.
Proof. by destruct e. Qed.

#[export] Instance ref_raft_codecs : RaftCodecs := {|
  codec_entry := wire_codec entry_fields entry_build (entry_build (0, (0, "")));
  codec_ae := wire_codec
    (fun m => (ae_term m, (ae_prelog_term m, (ae_commit_index m, (ae_lsn m,
      (ae_ip m, (ae_port m, (map entry_fields (ae_entry m), ae_prelog_index m))))))))
    (fun '(t, (pt, (ci, (l, (ip, (p, (es, pi))))))) =>
      {| ae_term := t; ae_prelog_term := pt; ae_commit_index := ci; ae_lsn := l;
         ae_ip := ip; ae_port := p; ae_entry := map entry_build es; ae_prelog_index := pi |})
    {| ae_term := 0; ae_prelog_term := 0; ae_commit_index := 0; ae_lsn := 0;
       ae_ip := ""; ae_port := 0; ae_entry := []; ae_prelog_index := 0 |};
  codec_resp_ae := wire_codec
    (fun m => (rae_ok m, (rae_term m, (rae_lsn m, (rae_ip m, (rae_port m, rae_is_empty_ae m))))))
    (fun '(o, (t, (l, (ip, (p, e))))) =>
      {| rae_ok := o; rae_term := t; rae_lsn := l; rae_ip := ip; rae_port := p; rae_is_empty_ae := e |})
    {| rae_ok := false; rae_term := 0; rae_lsn := 0; rae_ip := ""; rae_port := 0;
       rae_is_empty_ae := false |};
  codec_rv := wire_codec
    (fun m => (rv_term m, (rv_latest_index m, (rv_latest_term m, (rv_lsn m, (rv_ip m, rv_port m))))))
    (fun '(t, (li, (lt, (l, (ip, p))))) =>
      {| rv_term := t; rv_latest_index := li; rv_latest_term := lt; rv_lsn := l; rv_ip := ip; rv_port := p |})
    {| rv_term := 0; rv_latest_index := 0; rv_latest_term := 0; rv_lsn := 0; rv_ip := ""; rv_port := 0 |};
  codec_resp_rv := wire_codec
    (fun m => (rrv_ok m, (rrv_term m, (rrv_lsn m, (rrv_ip m, rrv_port m)))))
    (fun '(o, (t, (l, (ip, p)))) =>
      {| rrv_ok := o; rrv_term := t; rrv_lsn := l; rrv_ip := ip; rrv_port := p |})
    {| rrv_ok := false; rrv_term := 0; rrv_lsn := 0; rrv_ip := ""; rrv_port := 0 |};
|}.

#[export] Instance ref_raft_codecs_laws : RaftCodecsLaws.
Proof.
  split; apply wire_codec_laws; intros []; try done; cbn.
  f_equal. rewrite map_map. erewrite map_ext by apply entry_build_fields. apply map_id.
Qed.

#[export] Instance ref_vote_codec_laws : VoteCodecLaws.
Proof.
  split.
  - intros s m. unfold m. cbn [ParseFromString codec_rv ref_raft_codecs wire_codec].
    destruct (take s) as [[b r]|]; [|by split].
    match goal with |- context [wireable ?m] => destruct (wireable m) eqn:E end; [|by split].
    unfold wireable, wireable_rv in E. rewrite !andb_true_iff in E. tauto.
  - intros m Hm. cbn [ParseFromString SerializeToString codec_resp_rv ref_raft_codecs wire_codec].
    match goal with |- context [put ?x] => rewrite <- (str_app_nil_r (put x)) end.
    rewrite take_put, Hm. by destruct (wireable _).
Qed.

#[export] Instance ref_easy_codecs : EasyCodecs := {|
  codec_apply := wire_codec (fun m => (ac_key m, ac_v m))
    (fun '(k, v) => {| ac_key := k; ac_v := v |}) {| ac_key := ""; ac_v := 0 |};
  codec_query := wire_codec qc_key (fun k => {| qc_key := k |}) {| qc_key := "" |};
  codec_resp_apply := wire_codec ra_ok (fun b => {| ra_ok := b |}) {| ra_ok := false |};
  codec_resp_query := wire_codec (fun m => (rq_ok m, rq_v m))
    (fun '(b, v) => {| rq_ok := b; rq_v := v |}) {| rq_ok := false; rq_v := 0 |};
|}.
#[export] Instance ref_easy_codecs_laws : EasyCodecsLaws.
Proof. split; apply wire_codec_laws; by intros []. Qed.
End ReferenceCodecs.
