(* ===== verification/Util.v ===== *)
(** util.h and util.cpp: the random time-outs, the name of a server, the
    splitting of a configuration line and the test that a file exists.
    [my_exception] and [throw_line] are in Prelude. *)

From S2P Require Import Prelude CxxString Platform Messages.

Definition split_str_boost `{BoostSplit} (str : string) (delim : ascii) : list string :=
  boost_split (fun c => bool_decide (c = delim)) str.

(** [rand() % range + min] with C's truncated remainder; the state is the
    generator's. *)
Definition random_between `{Rand} (max min : Z) : M Z Z := fun seed =>
  let range := max - min + 1 in
  let '(r, seed') := rand seed in
  (Val (Z.rem r range + min), seed').

Definition random_candidate_expire `{Rand} : M Z Z := random_between (300 * 1) (150 * 1).
Definition random_rv_retry_expire `{Rand} : M Z Z := random_between (10 * 1) (5 * 1).
Definition random_ae_retry_expire `{Rand} : M Z Z := random_between (10 * 1) (5 * 1).

Definition smaller (a b : Z) : Z := if a <? b then a else b.

(** [fopen(path, "r")] succeeds. *)
Definition file_exists `{Posix} (d : disk) (path : string) : bool := fopen_ok d path.

Definition server2str (server : server_addr) : string :=
  let ip := fst server in
  let port := snd server in
  ip +:+ ":" +:+ to_string port.

(** ** Properties *)

Lemma random_between_spec `{RandLaws} max min seed :
  min <= max -> total (random_between max min) seed (fun n _ => min <= n <= max).
Proof.
  intros Hle. unfold random_between, total. pose proof (rand_range seed).
  destruct (rand seed) as [r seed'] eqn:E. cbn in *. do 2 eexists. split; [done|].
  rewrite Z.rem_mod_nonneg by lia. pose proof (Z.mod_pos_bound r (max - min + 1)). lia.
Qed.

Lemma smaller_min a b : smaller a b = Z.min a b.
Proof. unfold smaller. destruct (Z.ltb_spec a b); lia. Qed.

(** A printed number consists of digits and perhaps a sign. *)
Lemma str_forall_pretty_N (p : ascii -> bool) (x : N) :
  (forall d, (d < 10)%N -> p (pretty_N_char d) = true) -> str_forall p (pretty x) = true.
Proof.
  intros Hp.
  assert (Hgo : forall x s, str_forall p s = true -> str_forall p (pretty_N_go x s) = true).
  { intros y. induction (N.lt_wf_0 y) as [y _ IH]; intros s Hs.
    destruct (decide (y = 0)%N) as [->|]; [by rewrite pretty_N_go_0|].
    rewrite pretty_N_go_step by lia. apply IH; [apply N.div_lt; lia|].
    cbn. by rewrite Hp by (apply N.mod_lt; lia). }
  unfold pretty, pretty_N. case_decide; [|by apply Hgo]. change (p (pretty_N_char 0%N) && true = true). by rewrite Hp.
Qed.

Lemma str_forall_to_string (p : ascii -> bool) z :
  (forall d, (d < 10)%N -> p (pretty_N_char d) = true) -> p "-"%char = true -> str_forall p (to_string z) = true.
Proof.
  intros Hd Hm. unfold to_string, pretty, pretty_Z.
  destruct z as [|n|n]; [apply (str_forall_pretty_N p 0%N Hd)|apply (str_forall_pretty_N p (N.pos n) Hd)|].
  change (p "-"%char && str_forall p (pretty (N.pos n)) = true). by rewrite Hm, str_forall_pretty_N.
Qed.

(** A case distinction over the ten digits. *)
Ltac by_digit := intros d Hd; assert (d = 0 \/ d = 1 \/ d = 2 \/ d = 3 \/ d = 4 \/ d = 5 \/ d = 6 \/
  d = 7 \/ d = 8 \/ d = 9)%N by lia; by destruct_or!; subst.

(** Texts without the separator are recovered from their concatenation. *)
Lemma no_sep_split sep s1 s2 t1 t2 :
  str_forall (fun c => negb (bool_decide (c = sep))) s1 = true ->
  str_forall (fun c => negb (bool_decide (c = sep))) s2 = true ->
  s1 +:+ String sep t1 = s2 +:+ String sep t2 -> s1 = s2 /\ t1 = t2.
Proof.
  revert s2. induction s1 as [|c s1 IH]; intros [|c' s2] H1 H2 E; cbn in H1, H2.
  - by simplify_eq/=.
  - exfalso. injection E as -> _. by rewrite bool_decide_true in H2.
  - exfalso. injection E as -> _. by rewrite bool_decide_true in H1.
  - injection E as -> E. apply andb_prop in H1 as [_ H1], H2 as [_ H2].
    destruct (IH s2 H1 H2 E) as [-> ->]. done.
Qed.

Lemma no_sep_app sep s t :
  str_forall (fun c => negb (bool_decide (c = sep))) (s +:+ String sep t) = false.
Proof.
  induction s as [|c s IH].
  { change ((negb (bool_decide (sep = sep)) && str_forall (fun c => negb (bool_decide (c = sep))) t)
      = false). by rewrite bool_decide_true. }
  change ((negb (bool_decide (c = sep)) && str_forall (fun c => negb (bool_decide (c = sep)))
    (s +:+ String sep t)) = false). rewrite IH. apply andb_false_r.
Qed.

(** Splitting at a separator that occurs once gives the two parts around it. *)
Lemma split_two `{BoostSplitLaws} sep a b :
  str_forall (fun c => negb (bool_decide (c = sep))) a = true ->
  str_forall (fun c => negb (bool_decide (c = sep))) b = true ->
  split_str_boost (a +:+ String sep b) sep = [a; b].
Proof.
  intros Ha Hb. unfold split_str_boost.
  set (l := boost_split _ _).
  pose proof (split_join sep (a +:+ String sep b)) as Hj.
  pose proof (split_tokens sep (a +:+ String sep b)) as Ht. fold l in Hj, Ht.
  destruct l as [|x [|y [|z l]]]; cbn [join] in Hj.
  - exfalso. by destruct a.
  - apply Forall_cons in Ht as [Ht _]. rewrite Hj in Ht. by rewrite no_sep_app in Ht.
  - apply Forall_cons in Ht as [Hx [Hy _]%Forall_cons].
    by apply no_sep_split in Hj as [-> ->].
  - apply Forall_cons in Ht as [Hx _]. apply no_sep_split in Hj as [_ Hj]; [|done..].
    rewrite <- Hj in Hb. fold (join sep (z :: l)) in Hb. by rewrite no_sep_app in Hb.
Qed.
