(* ===== verification/Interfaces.v ===== *)
(** What the server asks of the components it is built on: a log store, which
    [Entries] implements over two files, a transport, which [RPC] implements
    over sockets, and the abstract class [StateMachine].  The server is verified
    against these interfaces; EntriesStore, Rpc and EasyStateMachine give the instances. *)

From S2P Require Import Prelude CxxString Platform Messages.

(** ** The log store *)

(** The three calls on [Entries], and for the specification the log an object
    stands for, the objects that are well formed and the inserts that fit. *)
Class LogStore (L : Type) := {
  ls_size : M L Z;
  ls_get : Z -> M L rpc_Entry;
  ls_insert : Z -> rpc_Entry -> M L unit;
  ls_view : L -> list rpc_Entry;
  ls_ok : L -> Prop;
  ls_room : Z -> rpc_Entry -> list rpc_Entry -> Prop;
}.

Class LogStoreLaws (L : Type) {LS : LogStore L} : Prop := {
  ls_size_ok s : ls_ok s -> ls_size s = (Val (Z.of_nat (length (ls_view s))), s);
  ls_small s : ls_ok s -> Z.of_nat (length (ls_view s)) < INT_MAX;
  ls_get_ok s i x : ls_ok s -> 0 <= i -> ls_view s !! Z.to_nat i = Some x -> ls_get i s = (Val x, s);
  ls_get_end s i : ls_ok s -> Z.of_nat (length (ls_view s)) <= i -> exists e, ls_get i s = (Exn e, s);
  ls_get_neg s i : ls_ok s -> i < 0 -> exists w, ls_get i s = (Undef w, s);
  ls_insert_ok s i x :
    ls_ok s -> 0 <= i <= Z.of_nat (length (ls_view s)) -> ls_room i x (ls_view s) ->
    exists s', ls_insert i x s = (Val tt, s') /\ ls_ok s' /\
      ls_view s' = firstn (Z.to_nat i) (ls_view s) ++ [x];
  ls_insert_gap s i x :
    ls_ok s -> Z.of_nat (length (ls_view s)) < i -> exists e, ls_insert i x s = (Exn e, s);
}.

(** ** The transport *)

(** [make_rpc_call], and for the specification the calls made so far and the
    messages that can go out: the address can be connected to, the text fits a
    frame. *)
Class Transport (N : Type) := {
  make_rpc_call : RPC_TYPE -> server_addr -> string -> M N unit;
  calls : N -> list (RPC_TYPE * server_addr * string);
  call_fits : server_addr -> string -> Prop;
}.

Class TransportLaws (N : Type) {TR : Transport N} : Prop := {
  call_ok t a m n :
    named_type t = true -> call_fits a m ->
    exists n', make_rpc_call t a m n = (Val tt, n') /\ calls n' = calls n ++ [(t, a, m)];
  call_any t a m n :
    calls (snd (make_rpc_call t a m n)) = calls n \/
    calls (snd (make_rpc_call t a m n)) = calls n ++ [(t, a, m)];
}.

(** ** The state machine *)

(** The virtual functions of state_machine/StateMachine.h; the two [react_]
    functions give the text they print. *)
Class StateMachine (SM : Type) := {
  sm_apply : string -> SM -> string * SM;
  sm_get : string -> SM -> string * SM;
  sm_build_apply_str : string -> Z -> string;
  sm_build_query_str : string -> string;
  sm_react_to_resp_query : string -> res string;
  sm_react_to_resp_apply : string -> res string;
}.

(** What a replicated machine has to be: machines that answer alike are
    [sm_equiv]; applying a call takes such machines to such machines with the same
    reply, and a query tells them not apart and leaves no trace. *)
Class StateMachineLaws (SM : Type) {SMC : StateMachine SM} := {
  sm_equiv : relation SM;
  #[global] sm_equivalence :: Equivalence sm_equiv;
  sm_apply_reply call m1 m2 : sm_equiv m1 m2 -> fst (sm_apply call m1) = fst (sm_apply call m2);
  sm_apply_equiv call m1 m2 : sm_equiv m1 m2 -> sm_equiv (snd (sm_apply call m1)) (snd (sm_apply call m2));
  sm_get_reply query m1 m2 : sm_equiv m1 m2 -> fst (sm_get query m1) = fst (sm_get query m2);
  sm_get_equiv query m : sm_equiv (snd (sm_get query m)) m;
}.

(** ** Reference instances: a list of entries, a list of calls *)

Module ReferenceInterfaces.
#[export] Instance ref_log_store : LogStore (list rpc_Entry) := {|
  ls_size := gets (fun l => Z.of_nat (length l));
  ls_get i l := if Z.of_nat (length l) <=? i then (Exn (std_exception "get"), l) else vec_at l i l;
  ls_insert i x l := if Z.of_nat (length l) <? i then (Exn (std_exception "insert"), l)
                     else (Val tt, firstn (Z.to_nat i) l ++ [x]);
  ls_view l := l;
  ls_ok l := Z.of_nat (length l) < INT_MAX;
  ls_room i x l := i + 1 < INT_MAX;
|}.
#[export] Instance ref_log_store_laws : LogStoreLaws (list rpc_Entry).
Proof.
  split; cbn; try done.
  - intros s i x _ Hi Hx. pose proof (lookup_lt_Some _ _ _ Hx).
    destruct (Z.leb_spec (Z.of_nat (length s)) i); [lia|]. by apply vec_at_ok.
  - intros s i _ Hi. destruct (Z.leb_spec (Z.of_nat (length s)) i); [eauto|lia].
  - intros s i _ Hi. destruct (Z.leb_spec (Z.of_nat (length s)) i); [lia|].
    unfold vec_at. destruct (Z.ltb_spec i 0); [|lia]. unfold ub. eauto.
  - intros s i x _ Hi Hr. destruct (Z.ltb_spec (Z.of_nat (length s)) i); [lia|].
    eexists. split_and!; [done| |done]. rewrite length_app, length_take. cbn [length]. lia.
  - intros s i x _ Hi. destruct (Z.ltb_spec (Z.of_nat (length s)) i); [eauto|lia].
Qed.

#[export] Instance ref_transport : Transport (list (RPC_TYPE * server_addr * string)) := {|
  make_rpc_call t a m := modify (fun n => n ++ [(t, a, m)]);
  calls n := n;
  call_fits a m := True;
|}.
#[export] Instance ref_transport_laws : TransportLaws (list (RPC_TYPE * server_addr * string)).
Proof. split; cbn; eauto. Qed.
End ReferenceInterfaces.
