(* ===== verification/RpcToString.v ===== *)
(** rpc/rpc_to_string.cpp: the text of a message for the log.  [rpc_to_str]
    parses by type and throws for a type that has no message class; it is called
    on every message sent or received, so that exception reaches the transport. *)

From S2P Require Import Prelude CxxString Platform Messages.

Module RpcToString.

Definition nl : string := String "010" "".
Definition tab : string := String "009" "".

(** [ostream << bool] *)
Definition bool_str (b : bool) : string := if b then "1" else "0".
(** One line [name: value] behind a line break. *)
Definition field (name value : string) : string := nl +:+ name +:+ ": " +:+ value.

Definition rpc_ae2str (ae : AppendEntryRpc) : string :=
  "RPC_AE:" +:+
  (if bool_decide (ae_entry ae = []) then "" else "(with msg)") +:+
  field "term" (to_string (ae_term ae)) +:+
  field "prelog_index" (to_string (ae_prelog_index ae)) +:+
  field "prelog_term" (to_string (ae_prelog_term ae)) +:+
  field "commit_index" (to_string (ae_commit_index ae)) +:+
  field "lsn" (to_string (ae_lsn ae)) +:+
  field "ip" (ae_ip ae) +:+
  field "port" (to_string (ae_port ae)) +:+
  nl +:+ "ae.rpc_entry:" +:+
  match ae_entry ae with
  | e :: _ =>
      nl +:+ tab +:+ "term: " +:+ to_string (en_term e) +:+
      nl +:+ tab +:+ "index: " +:+ to_string (en_index e) +:+
      nl +:+ tab +:+ "msg: " +:+ en_msg e
  | [] => "empty"
  end.

Definition rpc_rv2str (rv : RequestVoteRpc) : string :=
  "RPC_RV:" +:+
  field "term" (to_string (rv_term rv)) +:+
  field "latest_index" (to_string (rv_latest_index rv)) +:+
  field "latest_term" (to_string (rv_latest_term rv)) +:+
  field "lsn" (to_string (rv_lsn rv)) +:+
  field "ip" (rv_ip rv) +:+
  field "port" (to_string (rv_port rv)).

Definition resp_ae2str (resp : Resp_AppendEntryRpc) : string :=
  "resp_ae:" +:+
  field "ok" (bool_str (rae_ok resp)) +:+
  field "term" (to_string (rae_term resp)) +:+
  field "lsn" (to_string (rae_lsn resp)) +:+
  field "ip" (rae_ip resp) +:+
  field "port" (to_string (rae_port resp)) +:+
  field "is_empty_ae" (bool_str (rae_is_empty_ae resp)).

Definition resp_rv2str (resp : Resp_RequestVoteRpc) : string :=
  "resp_rv:" +:+
  field "ok" (bool_str (rrv_ok resp)) +:+
  field "term" (to_string (rrv_term resp)) +:+
  field "lsn" (to_string (rrv_lsn resp)) +:+
  field "ip" (rrv_ip resp) +:+
  field "port" (to_string (rrv_port resp)).

Definition apply_call2str (rpc : apply_call) : string :=
  "apply_call:" +:+ field "key" (ac_key rpc) +:+ field "v" (to_string (ac_v rpc)).
Definition resp_apply2str (resp : resp_apply) : string :=
  "resp_apply:" +:+ field "ok" (bool_str (ra_ok resp)).
Definition query_call2str (rpc : query_call) : string :=
  "query_call:" +:+ field "key" (qc_key rpc).
Definition resp_query2str (resp : resp_query) : string :=
  "resp_query:" +:+ field "ok" (bool_str (rq_ok resp)) +:+ field "v" (to_string (rq_v resp)).

Definition entry2str (entry : rpc_Entry) : string :=
  "entry:" +:+
  field "term" (to_string (en_term entry)) +:+
  field "index" (to_string (en_index entry)) +:+
  field "msg" (en_msg entry).

Definition rpc_to_str `{RaftCodecs, EasyCodecs} (type : RPC_TYPE) (rpc_str : string) : res string :=
  match type with
  | REQUEST_VOTE => Val (rpc_rv2str (ParseFromString rpc_str))
  | APPEND_ENTRY => Val (rpc_ae2str (ParseFromString rpc_str))
  | RESP_VOTE => Val (resp_rv2str (ParseFromString rpc_str))
  | RESP_APPEND => Val (resp_ae2str (ParseFromString rpc_str))
  | CLIENT_APPLY => Val (apply_call2str (ParseFromString rpc_str))
  | CLIENT_QUERY => Val (query_call2str (ParseFromString rpc_str))
  | RESP_CLIENT_APPLY => Val (resp_apply2str (ParseFromString rpc_str))
  | RESP_CLIENT_QUERY => Val (resp_query2str (ParseFromString rpc_str))
  | _ => Exn (my_exception "unknown rpc type" "rpc/rpc_to_string.cpp" 172)
  end.

(** It returns exactly for the types the program sends. *)
Lemma rpc_to_str_named `{RaftCodecs, EasyCodecs} type s :
  named_type type = true <-> exists text, rpc_to_str type s = Val text.
Proof. split; [destruct type; intros; simplify_eq/=; eauto|intros [text E]; by destruct type]. Qed.
End RpcToString.
