(* ===== verification/EasyStateMachine.v ===== *)
(** state_machine/EasyStateMachine.h and .cpp: a map from strings to integers
    behind the abstract class [StateMachine].  A query reads with [operator[]],
    which creates the key it asks for; the specification is therefore stated up
    to [obs_eq], the maps that answer every query alike. *)

From S2P Require Import Prelude CxxString Platform Messages Interfaces RpcToString.

Module EasyStateMachine.
Import RpcToString.

(** [mock_state_machine_] *)
Abbreviation EasyStateMachine := (gmap string Z).

Section machine.
Context {RC : RaftCodecs} {EC : EasyCodecs}.
Implicit Types (m : EasyStateMachine).

(** The [try] blocks of both operations guard a map access that only fails for
    want of memory; the reply is always [ok]. *)
Definition get (encoded_get_str : string) m : string * EasyStateMachine :=
  let call : query_call := ParseFromString encoded_get_str in
  let key := qc_key call in
  let v := map_at 0 key m in
  (SerializeToString {| rq_ok := true; rq_v := v |}, map_touch 0 key m).

Definition apply (encoded_apply_str : string) m : string * EasyStateMachine :=
  let call : apply_call := ParseFromString encoded_apply_str in
  let key := ac_key call in
  let v := ac_v call in
  (SerializeToString {| ra_ok := true |}, <[key := v]> m).

Definition build_apply_str (key : string) (v : Z) : string :=
  SerializeToString {| ac_key := key; ac_v := v |}.
Definition build_query_str (key : string) : string :=
  SerializeToString {| qc_key := key |}.

(** What is printed; [rpc_to_str] could throw. *)
Definition print (prefix : string) (text : res string) : res string :=
  match text with Val t => Val (prefix +:+ t) | r => r end.
Definition react_to_resp_query (resp_query : string) : res string :=
  print "client received resp_query: " (rpc_to_str RESP_CLIENT_QUERY resp_query).
Definition react_to_resp_apply (resp_apply : string) : res string :=
  print "client received resp_apply: " (rpc_to_str RESP_CLIENT_APPLY resp_apply).

#[export] Instance easy_state_machine : StateMachine EasyStateMachine := {|
  sm_apply := apply;
  sm_get := get;
  sm_build_apply_str := build_apply_str;
  sm_build_query_str := build_query_str;
  sm_react_to_resp_query := react_to_resp_query;
  sm_react_to_resp_apply := react_to_resp_apply;
|}.
End machine.

(** ** Observational equivalence *)

Definition obs_eq (m1 m2 : EasyStateMachine) : Prop := forall k, map_at 0 k m1 = map_at 0 k m2.
#[export] Instance obs_eq_equivalence : Equivalence obs_eq.
Proof. split; unfold obs_eq; [done|by intros ? ? ?|intros ? ? ? H1 H2 k; by rewrite H1]. Qed.

(** A call of one of the two operations, encoded. *)
Inductive op := Apply (encoded : string) | Query (encoded : string).

Section spec.
Context {RC : RaftCodecs} {EC : EasyCodecs}.

Definition run_op (o : op) (m : EasyStateMachine) : string * EasyStateMachine :=
  match o with Apply e => apply e m | Query e => get e m end.
(** A sequence of calls: the replies and the machine behind them. *)
Fixpoint run_ops (os : list op) (m : EasyStateMachine) : list string * EasyStateMachine :=
  match os with
  | [] => ([], m)
  | o :: os' =>
      let '(reply, m1) := run_op o m in
      let '(replies, m2) := run_ops os' m1 in
      (reply :: replies, m2)
  end.
Definition applies (os : list op) : list string :=
  omap (fun o => match o with Apply e => Some e | Query _ => None end) os.

#[export] Instance reply_proper o : Proper (obs_eq ==> eq) (fun m => fst (run_op o m)).
Proof. intros m1 m2 H. destruct o as [e|e]; cbn; [done|by rewrite H]. Qed.
#[export] Instance machine_proper o : Proper (obs_eq ==> obs_eq) (fun m => snd (run_op o m)).
Proof.
  intros m1 m2 H k. destruct o as [e|e]; cbn [run_op apply get snd].
  - rewrite !map_at_insert. by destruct (decide _).
  - rewrite !map_at_touch. apply H.
Qed.

#[export] Instance easy_state_machine_laws : StateMachineLaws EasyStateMachine := {|
  sm_equiv := obs_eq;
  sm_equivalence := _;
  sm_apply_reply call := reply_proper (Apply call);
  sm_apply_equiv call := machine_proper (Apply call);
  sm_get_reply query := reply_proper (Query query);
  sm_get_equiv query m k := map_at_touch 0 _ m k;
|}.

Lemma run_ops_cons o os m :
  run_ops (o :: os) m = (fst (run_op o m) :: fst (run_ops os (snd (run_op o m))),
                         snd (run_ops os (snd (run_op o m)))).
Proof. cbn. destruct (run_op o m) as [r m1]. cbn. by destruct (run_ops os m1). Qed.

(** Machines that answer alike stay so, and give the same replies. *)
Lemma run_ops_proper os m1 m2 : obs_eq m1 m2 ->
  fst (run_ops os m1) = fst (run_ops os m2) /\ obs_eq (snd (run_ops os m1)) (snd (run_ops os m2)).
Proof.
  revert m1 m2. induction os as [|o os IH]; intros m1 m2 H; [done|]. rewrite !run_ops_cons. cbn [fst snd].
  destruct (IH _ _ (machine_proper o _ _ H)) as [-> ?]. by rewrite (reply_proper o _ _ H).
Qed.

(** The machine after the applied calls alone. *)
Definition apply_all (es : list string) (m : EasyStateMachine) : EasyStateMachine :=
  snd (run_ops (map Apply es) m).

(** Queries leave no observable trace. *)
Lemma run_ops_applies os m : obs_eq (snd (run_ops os m)) (apply_all (applies os) m).
Proof.
  revert m. induction os as [|o os IH]; intros m; [done|]. rewrite run_ops_cons. cbn [snd].
  etrans; [apply IH|]. destruct o as [e|e]; cbn [applies omap list_omap].
  - unfold apply_all at 2. cbn [map]. by rewrite run_ops_cons.
  - apply run_ops_proper. intros k. apply map_at_touch.
Qed.

(** The last value a sequence of encoded calls gives to a key. *)
Fixpoint last_value (k : string) (es : list string) (d : Z) : Z :=
  match es with
  | [] => d
  | e :: es' =>
      let call : apply_call := ParseFromString e in
      last_value k es' (if decide (k = ac_key call) then ac_v call else d)
  end.

Lemma apply_all_last k es m : map_at 0 k (apply_all es m) = last_value k es (map_at 0 k m).
Proof.
  revert m. induction es as [|e es IH]; intros m; [done|]. unfold apply_all. cbn [map].
  rewrite run_ops_cons. cbn [snd]. fold (apply_all es (snd (run_op (Apply e) m))).
  rewrite IH. cbn [last_value run_op EasyStateMachine.apply snd]. by rewrite map_at_insert.
Qed.

(** C19: replicas agree.  Two machines that answer alike and are given the same
    applied calls in the same order answer alike afterwards, whatever queries
    each of them served in between; and a query returns [ok] with the value the
    last applied call gave to its key, or the initial one. *)
Theorem replicas_agree {EL : EasyCodecsLaws} os1 os2 m1 m2 k :
  obs_eq m1 m2 -> applies os1 = applies os2 -> utf8 k = true ->
  let reply m := fst (run_op (Query (build_query_str k)) m) in
  obs_eq (snd (run_ops os1 m1)) (snd (run_ops os2 m2)) /\
  reply (snd (run_ops os1 m1)) = reply (snd (run_ops os2 m2)) /\
  reply (snd (run_ops os1 m1)) =
    SerializeToString {| rq_ok := true; rq_v := last_value k (applies os1) (map_at 0 k m1) |}.
Proof.
  intros Hm Ha Hk reply.
  assert (H : obs_eq (snd (run_ops os1 m1)) (snd (run_ops os2 m2))).
  { rewrite !run_ops_applies, Ha. by apply run_ops_proper. }
  split_and!; [done|by apply (reply_proper (Query _))|].
  unfold reply. rewrite (reply_proper _ _ _ (run_ops_applies os1 m1)). cbn. unfold build_query_str.
  rewrite parse_serialize by done. cbn. by rewrite apply_all_last.
Qed.
End spec.

(** ** Witness *)

Module Witness.
Import ReferenceCodecs.

Definition os1 : list op := [Apply (build_apply_str "x" 1); Query (build_query_str "y"); Apply (build_apply_str "x" 5)].
Definition os2 : list op := [Query (build_query_str "x"); Apply (build_apply_str "x" 1); Apply (build_apply_str "x" 5)].

Lemma replicas_agree_witness :
  fst (run_op (Query (build_query_str "x")) (snd (run_ops os1 ∅))) =
    SerializeToString {| rq_ok := true; rq_v := 5 |} /\
  obs_eq (snd (run_ops os1 ∅)) (snd (run_ops os2 ∅)).
Proof.
  destruct (replicas_agree os1 os2 ∅ ∅ "x" (reflexivity _) eq_refl eq_refl) as (H & _ & E).
  split; [rewrite E; vm_compute; reflexivity|exact H].
Defined.
End Witness.
End EasyStateMachine.
