(* ===== verification/Rpc.v ===== *)
(** rpc/rpc.h, rpc.cpp, connection.h and connection.cpp: the connections of a
    process, the frames on them, and the dispatch of what arrives.  The two
    classes call each other and share the map of connections, so they are one
    module.  A [shared_ptr<connection>] is the number of an object in
    [connections], which is [None] there once its last pointer is gone; what a
    handler does when an asynchronous operation completes is an operation of its
    own. *)

From S2P Require Import Prelude CxxString Platform Messages Util Interfaces RpcToString.

Module Rpc.
Import RpcToString.

Definition rpc_file : string := "rpc/rpc.cpp".
Definition connection_file : string := "rpc/connection.cpp".

(** ** State *)

(** An [async_read] that was issued and has not completed: of the [want] bytes
    for [header_] or [data_], the first [got] are there. *)
Inductive read_kind := Read_header | Read_body.
Record read := { kind : read_kind; want : Z; got : Z }.

(** What the code takes from its surroundings: the addresses that
    [address::from_string] parses, and whether the kernel takes a message whole
    while [async_write] is called, given the messages written before.
    [read_body] issues a read while another is outstanding on the socket, which
    asio's documentation forbids: [overlapping] tells which of them arriving bytes
    go to, or, with [None], that the behaviour is undefined.  No theorem assumes
    anything about it. *)
Class Sockets := {
  address_ok : string -> bool;
  write_at_once : list string -> string -> bool;
  overlapping : list read -> option nat;
}.

(** [local_port_] is not initialised before the connection is made.  [header_]
    and [data_] are the arrays all reads of the connection share; what they hold
    before the first read is never used.  Beside the members of the class: the
    message kept for the moment the connection is made, what was written so far,
    and on the receiving side the bytes that arrived and the reads that are
    outstanding, oldest first. *)
Record connection := {
  remote_addr_ : string;
  remote_port_ : Z;
  remote_peer_ : server_addr;
  local_addr_ : string;
  local_port_ : option Z;
  header_ : string;
  data_ : string;
  connecting : option string;
  written : list string;
  inbox : string;
  reads : list read;
}.

(** [debug_log] is what [make_rpc_call] logs. *)
Record RPC := {
  connection_map_ : gmap server_addr nat;
  connections : list (option connection);
  debug_log : list (RPC_TYPE * server_addr * string);
}.

(** [RPC::RPC]: no connections; the acceptor listens from then on. *)
Definition new : RPC := {| connection_map_ := ∅; connections := []; debug_log := [] |}.

Section setters.
Implicit Types (c : connection) (s : RPC).
Definition set_local (addr : string) (port : Z) c : connection :=
  {| remote_addr_ := remote_addr_ c; remote_port_ := remote_port_ c; remote_peer_ := remote_peer_ c;
     local_addr_ := addr; local_port_ := Some port; header_ := header_ c; data_ := data_ c;
     connecting := connecting c; written := written c; inbox := inbox c; reads := reads c |}.
Definition set_connecting (x : option string) c : connection :=
  {| remote_addr_ := remote_addr_ c; remote_port_ := remote_port_ c; remote_peer_ := remote_peer_ c;
     local_addr_ := local_addr_ c; local_port_ := local_port_ c; header_ := header_ c; data_ := data_ c;
     connecting := x; written := written c; inbox := inbox c; reads := reads c |}.
Definition set_written (x : list string) c : connection :=
  {| remote_addr_ := remote_addr_ c; remote_port_ := remote_port_ c; remote_peer_ := remote_peer_ c;
     local_addr_ := local_addr_ c; local_port_ := local_port_ c; header_ := header_ c; data_ := data_ c;
     connecting := connecting c; written := x; inbox := inbox c; reads := reads c |}.
Definition set_incoming (i : string) (r : list read) c : connection :=
  {| remote_addr_ := remote_addr_ c; remote_port_ := remote_port_ c; remote_peer_ := remote_peer_ c;
     local_addr_ := local_addr_ c; local_port_ := local_port_ c; header_ := header_ c; data_ := data_ c;
     connecting := connecting c; written := written c; inbox := i; reads := r |}.
Definition set_arrays (h d : string) c : connection :=
  {| remote_addr_ := remote_addr_ c; remote_port_ := remote_port_ c; remote_peer_ := remote_peer_ c;
     local_addr_ := local_addr_ c; local_port_ := local_port_ c; header_ := h; data_ := d;
     connecting := connecting c; written := written c; inbox := inbox c; reads := reads c |}.
Definition set_connection_map_ (x : gmap server_addr nat) s : RPC :=
  {| connection_map_ := x; connections := connections s; debug_log := debug_log s |}.
Definition set_connections (x : list (option connection)) s : RPC :=
  {| connection_map_ := connection_map_ s; connections := x; debug_log := debug_log s |}.
Definition set_debug_log (x : list (RPC_TYPE * server_addr * string)) s : RPC :=
  {| connection_map_ := connection_map_ s; connections := connections s; debug_log := x |}.
End setters.

(** ** Pointers *)

(** A connection is in use while the handler of a connect or of a read is
    pending, since these hold a [shared_ptr] to it; the handler of a write holds
    the bare [this]. *)
Definition in_use (c : connection) : bool :=
  match connecting c, reads c with None, [] => false | _, _ => true end.
Definition held (id : nat) (s : RPC) : bool :=
  bool_decide (map_Exists (fun _ i => i = id) (connection_map_ s)) ||
  match connections s !! id with Some (Some c) => in_use c | _ => false end.

(** A pointer goes out of scope: the object is destroyed with its last one. *)
Definition release (id : nat) (s : RPC) : RPC :=
  if held id s then s else set_connections (<[id := None]> (connections s)) s.
Definition with_sp {A} (id : nat) (m : M RPC A) : M RPC A := fun s =>
  let '(r, s') := m s in (r, release id s').

Definition on_connection {A} (id : nat) (m : M connection A) : M RPC A := fun s =>
  match connections s !! id with
  | Some (Some c) => let '(r, c') := m c in (r, set_connections (<[id := Some c']> (connections s)) s)
  | _ => (Undef "a destroyed connection is used", s)
  end.

(** ** Operations *)

Section rpc.
Context {RC : RaftCodecs} {EC : EasyCodecs} {SK : Sockets}.

Definition of_res {S A} (r : res A) : M S A := fun s => (r, s).

(** [sprintf] writes past [header] if the length has more than four digits. *)
Definition msg_encode {S} (msg : string) : M S string :=
  let msg_len := slen msg in
  if 9999 <? msg_len then ub "sprintf writes past header" else ret (sprintf_4d msg_len +:+ msg).

(** [get], [insert] and [remove]; the pointer that the map had is released. *)
Definition get (remote_peer : server_addr) : M RPC (option nat) :=
  gets (fun s => connection_map_ s !! remote_peer).
Definition released (old : option nat) : M RPC unit :=
  match old with Some id => modify (release id) | None => ret tt end.
Definition insert (remote_peer : server_addr) (id : nat) : M RPC unit :=
  let! old := get remote_peer in
  modify (fun s => set_connection_map_ (<[remote_peer := id]> (connection_map_ s)) s) ;;
  released old.
Definition remove (remote_peer : server_addr) : M RPC unit :=
  let! old := get remote_peer in
  modify (fun s => set_connection_map_ (delete remote_peer (connection_map_ s)) s) ;;
  released old.

Definition issue (k : read_kind) (size : Z) : M connection unit :=
  modify (fun c => set_incoming (inbox c) (reads c ++ [{| kind := k; want := size; got := 0 |}]) c).
Definition read_header : M connection unit := issue Read_header 4.

(** The buffer of the write is a string of the caller, which is gone when the
    kernel takes the rest of the message. *)
Definition deliver (msg : string) : M connection unit :=
  let! before := gets written in
  if write_at_once before msg then modify (set_written (before ++ [msg]))
  else ub "the rest of a destroyed message is written".
(** The handler of [deliver]'s write, which goes through [this] on an error. *)
Definition deliver_done (id : nat) (error : bool) : M RPC unit :=
  if error then
    let! remote_peer := on_connection id (gets remote_peer_) in
    remove remote_peer
  else ret tt.

(** The constructor for a connection to make, and [make_shared]. *)
Definition data_size : Z := 1024 * 5.
Definition new_connection (remote_server_addr : server_addr) : connection :=
  {| remote_addr_ := fst remote_server_addr; remote_port_ := snd remote_server_addr;
     remote_peer_ := remote_server_addr; local_addr_ := ""; local_port_ := None;
     header_ := zeros 4; data_ := zeros (Z.to_nat data_size);
     connecting := None; written := []; inbox := ""; reads := [] |}.
Definition make_connection (c : connection) : M RPC nat := fun s =>
  (Val (length (connections s)), set_connections (connections s ++ [Some c]) s).

(** [connect], and the handler of [async_connect]; its [cb] is [RPC::insert]. *)
Definition connect (msg : string) : M connection unit :=
  let! addr := gets remote_addr_ in
  if address_ok addr then modify (set_connecting (Some msg))
  else throw (std_exception "invalid address").
Definition connect_done (id : nat) (error : bool) (local : server_addr) : M RPC unit :=
  with_sp id (
    let! msg := on_connection id (gets connecting) in
    on_connection id (modify (set_connecting None)) ;;
    match msg with
    | None => ret tt
    | Some msg =>
        if error then ret tt
        else
          on_connection id (modify (set_local (fst local) (snd local))) ;;
          on_connection id read_header ;;
          let! remote_peer := on_connection id (gets remote_peer_) in
          insert remote_peer id ;;
          on_connection id (deliver msg)
    end).

Definition make_rpc_call (rpc_type : RPC_TYPE) (server : server_addr) (_rpc_msg : string) : M RPC unit :=
  let! detail := of_res (rpc_to_str rpc_type _rpc_msg) in
  modify (fun s => set_debug_log (debug_log s ++ [(rpc_type, server, _rpc_msg)]) s) ;;
  let rpc_msg := to_string (rpc_type_to_int rpc_type) +:+ _rpc_msg in
  let! sp := get server in
  let! encoded_msg := msg_encode rpc_msg in
  match sp with
  | None =>
      let! sp1 := make_connection (new_connection server) in
      with_sp sp1 (on_connection sp1 (connect encoded_msg))
  | Some sp => with_sp sp (on_connection sp (deliver encoded_msg))
  end.

(** The handler of [async_accept]: the constructor for an accepted socket and
    [start].  If the socket is gone already, its ports are logged without having
    been initialised. *)
Definition start (id : nat) : M RPC unit :=
  let! remote_peer := on_connection id (gets remote_peer_) in
  insert remote_peer id ;; on_connection id read_header.
Definition accept (error : bool) (endpoints : option (server_addr * server_addr)) : M RPC unit :=
  if error then ret tt
  else match endpoints with
       | None => ub "remote_port_ is read uninitialised"
       | Some (remote, local) =>
           let! id := make_connection (set_local (fst local) (snd local) (new_connection remote)) in
           with_sp id (start id)
       end.

(** [char_rpc_type] is an array of one byte, and no string that [atoi] may be
    given unless the byte is the null character.  A length of zero is
    [UINT_MAX] without the type. *)
Definition process_msg {S} (data : string) (remote_peer : server_addr) :
    M S (RPC_TYPE * string * server_addr) :=
  match data with
  | EmptyString => ub "a message of length UINT_MAX"
  | String char_rpc_type msg =>
      if bool_decide (char_rpc_type = "000"%char) then
        let! n := atoi "" in
        let remote_rpc_type := rpc_type_of_int n in
        let! detail := of_res (rpc_to_str remote_rpc_type msg) in
        ret (remote_rpc_type, msg, remote_peer)
      else ub "atoi reads on behind char_rpc_type"
  end.

(** [buffer(data_, msg_len)] is at most the array, also for a negative length. *)
Definition body_size (msg_len : Z) : Z :=
  if msg_len <? 0 then data_size else Z.min msg_len data_size.

(** The completions of the two reads, without and with an error; [i] is the read
    that fails. *)
Definition read_body : M connection unit :=
  let! char_msg_len := gets header_ in
  let! msg_len := atoi char_msg_len in
  issue Read_body (body_size msg_len) ;;
  read_header.
Definition body_callback (bytes_transferred : Z) : M connection (RPC_TYPE * string * server_addr) :=
  let! remote_peer := gets remote_peer_ in
  let! data := gets data_ in
  process_msg (str_take (Z.to_nat bytes_transferred) data) remote_peer.
Definition read_failed (id i : nat) : M RPC unit :=
  with_sp id (
    let! c := on_connection id (gets (fun c => c)) in
    match reads c !! i with
    | None => ret tt
    | Some r =>
        on_connection id (modify (fun c => set_incoming (inbox c) (delete i (reads c)) c)) ;;
        match kind r with
        | Read_header => remove (remote_peer_ c)
        | Read_body => throw_line connection_file 105 "我们这里暂时让程序崩溃"
        end
    end).

(** Bytes go to one read, behind those it has, into the array it shares with the
    other reads of its kind, until it has all it wants and its completion runs, or
    there are no more.  The events are the calls of [cb_], which end
    [process_msg]. *)
Definition overwrite (off : nat) (bytes buffer : string) : string :=
  str_take off buffer +:+ (bytes +:+ str_drop (off + String.length bytes) buffer).
Definition feed (i : nat) (r : read) (c : connection) : read * connection :=
  let n := Z.to_nat (want r - got r) in
  let bytes := str_take n (inbox c) in
  let r' := {| kind := kind r; want := want r; got := got r + slen bytes |} in
  let into := overwrite (Z.to_nat (got r)) bytes in
  let '(h, d) := match kind r with
                 | Read_header => (into (header_ c), data_ c)
                 | Read_body => (header_ c, into (data_ c))
                 end in
  (r', set_arrays h d (set_incoming (str_drop n (inbox c)) (<[i := r']> (reads c)) c)).
Definition next_read (l : list read) : option nat :=
  match l with _ :: _ :: _ => overlapping l | _ => Some 0%nat end.
Fixpoint serve (fuel : nat) : M connection (list (RPC_TYPE * string * server_addr)) :=
  match fuel with
  | O => ub "out of fuel"
  | S fuel' =>
      let! c := gets (fun c => c) in
      match next_read (reads c) with
      | None => ub "a read is issued while another is outstanding"
      | Some i =>
          match reads c !! i with
          | None => ret []
          | Some r =>
              if bool_decide (inbox c = "") && (0 <? want r) then ret []
              else
                let '(r', c') := feed i r c in
                if got r' <? want r' then modify (fun _ => c') ;; serve fuel'
                else
                  modify (fun _ => set_incoming (inbox c') (delete i (reads c')) c') ;;
                  match kind r' with
                  | Read_header => read_body ;; serve fuel'
                  | Read_body =>
                      let! event := body_callback (want r') in
                      let! events := serve fuel' in
                      ret (event :: events)
                  end
          end
      end
  end.

(** Bytes arrive. *)
Definition receive (chunk : string) : M connection (list (RPC_TYPE * string * server_addr)) :=
  modify (fun c => set_incoming (inbox c +:+ chunk) (reads c) c) ;;
  let! c := gets (fun c => c) in
  serve (S (String.length (inbox c))).
Definition arrive (id : nat) (chunk : string) : M RPC (list (RPC_TYPE * string * server_addr)) :=
  with_sp id (on_connection id (receive chunk)).

(** ** Sending *)

Definition frame (t : RPC_TYPE) (m : string) : string :=
  sprintf_4d (slen m + 1) +:+ (to_string (rpc_type_to_int t) +:+ m).

(** The map points to objects that live, each a connection to its address. *)
Definition wf (s : RPC) : Prop :=
  map_Forall (fun a id => exists c, connections s !! id = Some (Some c) /\ remote_peer_ c = a) (connection_map_ s).

Lemma held_mapped s a id : connection_map_ s !! a = Some id -> held id s = true.
Proof. intros E. unfold held. rewrite bool_decide_true; [done|]. by exists a, id. Qed.

Lemma release_held id s : held id s = true -> release id s = s.
Proof. unfold release. by intros ->. Qed.

Lemma release_dead id s : connections s !! id = Some None -> connections (release id s) !! id = Some None.
Proof.
  intros E. unfold release. destruct (held id s); [done|]. apply list_lookup_insert_eq.
  by eapply lookup_lt_Some.
Qed.

Lemma length_type t : named_type t = true -> String.length (to_string (rpc_type_to_int t)) = 1%nat.
Proof. by destruct t. Qed.

Lemma msg_encode_ok {S} t m (s : S) :
  named_type t = true -> slen m + 1 <= 9999 ->
  msg_encode (to_string (rpc_type_to_int t) +:+ m) s = (Val (frame t m), s).
Proof.
  intros Ht Hm. unfold msg_encode, frame.
  assert (E : slen (to_string (rpc_type_to_int t) +:+ m) = slen m + 1).
  { rewrite slen_app. unfold slen at 1. rewrite length_type by done. lia. }
  rewrite E. destruct (Z.ltb_spec 9999 (slen m + 1)); [lia|done].
Qed.

Lemma msg_encode_overrun {S} t m (s : S) :
  named_type t = true -> 9999 < slen m + 1 ->
  msg_encode (to_string (rpc_type_to_int t) +:+ m) s = (Undef "sprintf writes past header", s).
Proof.
  intros Ht Hm. unfold msg_encode. rewrite slen_app. unfold slen at 1. rewrite length_type by done.
  by destruct (Z.ltb_spec 9999 (Z.of_nat 1 + slen m)); [|lia].
Qed.

Lemma on_connection_ok {A} id (f : M connection A) s c :
  connections s !! id = Some (Some c) ->
  on_connection id f s = (fst (f c), set_connections (<[id := Some (snd (f c))]> (connections s)) s).
Proof. intros E. unfold on_connection. rewrite E. by destruct (f c). Qed.

Lemma on_connection_gets {A} id (f : connection -> A) s c :
  connections s !! id = Some (Some c) -> on_connection id (gets f) s = (Val (f c), s).
Proof.
  intros E. rewrite (on_connection_ok _ _ _ _ E). unfold gets. cbn [fst snd].
  rewrite list_insert_id by done. by destruct s.
Qed.

Lemma with_sp_eq {A} id (m : M RPC A) s : with_sp id m s = (fst (m s), release id (snd (m s))).
Proof. unfold with_sp. by destruct (m s). Qed.

Definition logged t a m (s : RPC) : RPC := set_debug_log (debug_log s ++ [(t, a, m)]) s.

(** Where the frame of a call goes: on the open connection, or into a new one
    that connects. *)
Definition sent_to (t : RPC_TYPE) (a : server_addr) (m : string) (s s' : RPC) : Prop :=
  match connection_map_ s !! a with
  | Some id => exists c, connections s !! id = Some (Some c) /\
      s' = set_connections (<[id := Some (set_written (written c ++ [frame t m]) c)]> (connections s)) (logged t a m s)
  | None => s' = set_connections (connections s ++ [Some (set_connecting (Some (frame t m)) (new_connection a))]) (logged t a m s)
  end.

(** The two ways of a call from the point where the frame is there: on the
    connection [id], and on a new one. *)
Lemma call_open a id c f (s : RPC) :
  connection_map_ s !! a = Some id -> connections s !! id = Some (Some c) ->
  with_sp id (on_connection id (deliver f)) s =
    if write_at_once (written c) f then
      (Val tt, set_connections (<[id := Some (set_written (written c ++ [f]) c)]> (connections s)) s)
    else (Undef "the rest of a destroyed message is written", s).
Proof.
  intros Ha Hc. rewrite with_sp_eq, (on_connection_ok _ _ _ _ Hc). cbn [fst snd].
  rewrite release_held by (by apply (held_mapped _ a)).
  unfold deliver, bind, gets. destruct (write_at_once (written c) f); [done|].
  cbn [fst snd ub]. rewrite list_insert_id by done. by destruct s.
Qed.

Lemma call_new a f (s : RPC) :
  wf s ->
  (let! sp1 := make_connection (new_connection a) in with_sp sp1 (on_connection sp1 (connect f))) s =
    if address_ok (fst a) then
      (Val tt, set_connections (connections s ++ [Some (set_connecting (Some f) (new_connection a))]) s)
    else (Exn (std_exception "invalid address"), set_connections (connections s ++ [None]) s).
Proof.
  intros Hwf. set (n := length (connections s)).
  set (s1 := set_connections (connections s ++ [Some (new_connection a)]) s).
  rewrite (bind_val _ _ s n s1) by done.
  assert (Hc : connections s1 !! n = Some (Some (new_connection a))).
  { cbn. by rewrite lookup_app_r, Nat.sub_diag by done. }
  assert (Hins : forall x, <[n := x]> (connections s1) = connections s ++ [x]).
  { intros x. cbn. by rewrite insert_app_r_alt, Nat.sub_diag by done. }
  rewrite with_sp_eq, (on_connection_ok _ _ _ _ Hc), Hins. unfold connect, bind, gets.
  cbn [new_connection remote_addr_]. destruct (address_ok (fst a)); cbn [fst snd modify throw].
  - rewrite release_held; [done|]. unfold held. cbn [connections connection_map_ set_connections].
    rewrite lookup_app_r, Nat.sub_diag by done. apply orb_true_r.
  - f_equal. unfold release, held. cbn [connections connection_map_ set_connections s1].
    rewrite lookup_app_r, Nat.sub_diag by done. rewrite bool_decide_false; cbn [orb lookup list_lookup in_use new_connection connecting reads].
    + unfold set_connections. cbn. f_equal. by rewrite insert_app_r_alt, Nat.sub_diag by done.
    + intros (b & i & Hb & ->). destruct (Hwf _ _ Hb) as (c & Hi & _). apply lookup_lt_Some in Hi. lia.
Qed.

(** A message that can go out: its length has four digits, and the kernel takes
    it whole. *)
Definition writable (m : string) : Prop :=
  slen m + 1 <= 9999 /\ forall before t, named_type t = true -> write_at_once before (frame t m) = true.

Lemma make_rpc_call_ok t a m s :
  wf s -> named_type t = true -> (connection_map_ s !! a = None -> address_ok (fst a) = true) -> writable m ->
  total (make_rpc_call t a m) s (fun _ s' => sent_to t a m s s').
Proof.
  intros Hwf Ht Ha [Hm Hw]. unfold make_rpc_call, sent_to.
  destruct (proj1 (rpc_to_str_named t m) Ht) as [text E].
  apply (total_step _ _ s text s); [by unfold of_res; rewrite E|].
  apply total_modify, total_gets. fold (logged t a m s).
  change (connection_map_ (logged t a m s)) with (connection_map_ s).
  eapply total_step; [by apply msg_encode_ok|]. unfold total.
  destruct (connection_map_ s !! a) as [id|] eqn:Eid.
  - destruct (Hwf a id Eid) as (c & Hc & _). rewrite (call_open a id c _ (logged t a m s)), Hw by done.
    do 2 eexists. split; [done|]. by exists c.
  - rewrite (call_new a _ (logged t a m s)), Ha by done. by do 2 eexists.
Qed.

(** C31: a call, on every branch.  A type the program does not name is an
    exception before anything happened; a text of more than four digits overruns
    the header; over an open connection the frame is written, if the kernel takes
    it whole; otherwise a new connection starts to connect with the frame in
    hand, unless the address is no numeric one, which is an exception that
    destroys it.  The map of connections never changes. *)
Theorem make_rpc_call_spec t a m s :
  wf s ->
  make_rpc_call t a m s =
    if negb (named_type t) then
      (Exn (my_exception "unknown rpc type" "rpc/rpc_to_string.cpp" 172), s)
    else if 9999 <? slen m + 1 then (Undef "sprintf writes past header", logged t a m s)
    else match connection_map_ s !! a with
         | Some id =>
             match connections s !! id with
             | Some (Some c) =>
                 if write_at_once (written c) (frame t m) then
                   (Val tt, set_connections (<[id := Some (set_written (written c ++ [frame t m]) c)]> (connections s)) (logged t a m s))
                 else (Undef "the rest of a destroyed message is written", logged t a m s)
             | _ => (Undef "a destroyed connection is used", s)
             end
         | None =>
             if address_ok (fst a) then
               (Val tt, set_connections (connections s ++ [Some (set_connecting (Some (frame t m)) (new_connection a))]) (logged t a m s))
             else
               (Exn (std_exception "invalid address"),
                set_connections (connections s ++ [None]) (logged t a m s))
         end.
Proof.
  intros Hwf. unfold make_rpc_call. destruct (named_type t) eqn:Ht; cbn [negb].
  2: { by destruct t. }
  destruct (proj1 (rpc_to_str_named t m) Ht) as [text E].
  rewrite (bind_val _ _ s text s) by (unfold of_res; by rewrite E).
  rewrite (bind_val _ _ s tt (logged t a m s)) by done. cbv zeta.
  rewrite (bind_val _ _ (logged t a m s) (connection_map_ s !! a) (logged t a m s)) by done.
  destruct (Z.ltb_spec 9999 (slen m + 1)) as [Hlt|Hle].
  { by rewrite (bind_ub _ _ _ _ _ (msg_encode_overrun t m (logged t a m s) Ht Hlt)). }
  rewrite (bind_val _ _ _ _ _ (msg_encode_ok t m (logged t a m s) Ht Hle)).
  destruct (connection_map_ s !! a) as [id|] eqn:Eid.
  - destruct (Hwf a id Eid) as (c & Hc & _). rewrite Hc.
    exact (call_open a id c _ (logged t a m s) Eid Hc).
  - exact (call_new a _ (logged t a m s) Hwf).
Qed.

(** ** What the operations keep *)

(** A connection stays the one to its peer, whatever runs on it. *)
Abbreviation keeps_peer m := (stable (same remote_peer_) m).

Lemma issue_peer k n : keeps_peer (issue k n).
Proof. by apply stable_modify. Qed.
Lemma deliver_peer msg : keeps_peer (deliver msg).
Proof.
  apply stable_bind; [exact _|apply stable_gets; exact _|intros before].
  destruct (write_at_once _ _); [by apply stable_modify|apply stable_ub; exact _].
Qed.
Lemma connect_peer msg : keeps_peer (connect msg).
Proof.
  apply stable_bind; [exact _|apply stable_gets; exact _|intros addr].
  destruct (address_ok _); [by apply stable_modify|apply stable_throw; exact _].
Qed.
Lemma process_msg_stable {S} (R : relation S) {HR : PreOrder R} data peer : stable R (process_msg data peer).
Proof.
  unfold process_msg. destruct data as [|ch msg]; [apply stable_ub; exact _|].
  destruct (bool_decide _); [|apply stable_ub; exact _].
  apply stable_bind; [exact _|apply stable_int_result; exact _|intros n].
  apply stable_bind; [exact _|intros s; reflexivity|intros detail; apply stable_ret; exact _].
Qed.
Lemma feed_peer i r c : remote_peer_ (snd (feed i r c)) = remote_peer_ c.
Proof. unfold feed. by destruct (kind r). Qed.
Lemma read_body_peer : keeps_peer read_body.
Proof.
  apply stable_bind; [exact _|apply stable_gets; exact _|intros h].
  apply stable_bind; [exact _|apply stable_int_result; exact _|intros n].
  apply stable_bind; [exact _|apply issue_peer|intros; apply issue_peer].
Qed.
Lemma body_callback_peer n : keeps_peer (body_callback n).
Proof.
  apply stable_bind; [exact _|apply stable_gets; exact _|intros p].
  apply stable_bind; [exact _|apply stable_gets; exact _|intros d; apply process_msg_stable; exact _].
Qed.
Lemma serve_peer fuel : keeps_peer (serve fuel).
Proof.
  induction fuel as [|fuel IH]; cbn [serve]; [apply stable_ub; exact _|]. intros c.
  rewrite (bind_val _ _ _ c c) by done.
  destruct (next_read (reads c)) as [i|]; [|reflexivity]. destruct (reads c !! i) as [r|]; [|reflexivity].
  destruct (_ && _); [reflexivity|]. pose proof (feed_peer i r c) as Hp.
  destruct (feed i r c) as [r' c']. cbn [snd] in Hp. destruct (_ <? _).
  - exact (transitivity (R := same remote_peer_) (y := c') Hp (IH c')).
  - refine (transitivity (R := same remote_peer_) (y := c') Hp _). set (c1 := set_incoming (inbox c') (delete i (reads c')) c').
    rewrite (bind_val _ _ c tt c1) by done. change (same remote_peer_ c1 (snd (
      match kind r' with
      | Read_header => read_body ;; serve fuel
      | Read_body => let! event := body_callback (want r') in let! events := serve fuel in ret (event :: events)
      end c1))).
    generalize c1. destruct (kind r').
    + apply stable_bind; [exact _|apply read_body_peer|intros; exact IH].
    + apply stable_bind; [exact _|apply body_callback_peer|intros ev].
      apply stable_bind; [exact _|exact IH|intros evs; apply stable_ret; exact _].
Qed.
Lemma receive_peer chunk : keeps_peer (receive chunk).
Proof.
  apply stable_bind; [exact _|by apply stable_modify|intros _].
  apply stable_bind; [exact _|apply stable_gets; exact _|intros c; apply serve_peer].
Qed.

(** What only touches connections: the map stays and stays well formed. *)
Definition quiet (s s' : RPC) : Prop := connection_map_ s' = connection_map_ s /\ (wf s -> wf s').
#[export] Instance quiet_preorder : PreOrder quiet.
Proof. split; unfold quiet; [by split|]. intros s1 s2 s3 [E1 H1] [E2 H2]. split; [congruence|auto]. Qed.

Lemma quiet_on_connection {A} id (m : M connection A) : keeps_peer m -> stable quiet (on_connection id m).
Proof.
  intros Hm s. unfold on_connection. destruct (connections s !! id) as [[c|]|] eqn:Ec; [|done|done].
  specialize (Hm c). destruct (m c) as [r c']. split; [done|]. intros Hwf a i Hi.
  destruct (Hwf a i Hi) as (c1 & Hc1 & <-). cbn. destruct (decide (i = id)) as [->|Hne].
  - rewrite Ec in Hc1. injection Hc1 as ->. exists c'. rewrite list_lookup_insert_eq by (by eapply lookup_lt_Some).
    by split.
  - exists c1. by rewrite list_lookup_insert_ne.
Qed.
Lemma quiet_gets {A} id (f : connection -> A) : stable quiet (on_connection id (gets f)).
Proof. apply quiet_on_connection, stable_gets. exact _. Qed.
Lemma quiet_modify id f : (forall c, remote_peer_ (f c) = remote_peer_ c) -> stable quiet (on_connection id (modify f)).
Proof. intros H. by apply quiet_on_connection, stable_modify. Qed.

Lemma quiet_release id s : quiet s (release id s).
Proof.
  unfold release. destruct (held id s) eqn:Eh; [done|]. split; [done|]. intros Hwf a i Hi.
  destruct (Hwf a i Hi) as (c & Hc & Hp). exists c. cbn. split; [|done].
  rewrite list_lookup_insert_ne; [done|]. intros ->. by rewrite (held_mapped s a i Hi) in Eh.
Qed.
Lemma quiet_with_sp {A} id (m : M RPC A) : stable quiet m -> stable quiet (with_sp id m).
Proof. intros Hm s. rewrite with_sp_eq. cbn. etrans; [apply Hm|apply quiet_release]. Qed.
Lemma quiet_released old : stable quiet (released old).
Proof. destruct old as [id|]; [apply stable_modify, quiet_release|apply stable_ret; exact _]. Qed.
Lemma quiet_make_connection c : stable quiet (make_connection c).
Proof.
  intros s. split; [done|]. intros Hwf a i Hi. destruct (Hwf a i Hi) as (c1 & Hc1 & Hp). exists c1.
  split; [|done]. cbn. by apply lookup_app_l_Some.
Qed.

Lemma make_rpc_call_quiet t a m : stable quiet (make_rpc_call t a m).
Proof.
  assert (Hres : forall A (r : res A), stable quiet (of_res r)) by (intros A r s; by split).
  unfold make_rpc_call, get, msg_encode. repeat (apply stable_bind; [exact _| |intros ?]); try apply Hres.
  - apply stable_modify. by split.
  - apply stable_gets; exact _.
  - destruct (_ <? _); [apply stable_ub|apply stable_ret]; exact _.
  - destruct a2 as [id|]; [apply quiet_with_sp, quiet_on_connection, deliver_peer|].
    apply stable_bind; [exact _|apply quiet_make_connection|intros id].
    apply quiet_with_sp, quiet_on_connection, connect_peer.
Qed.

Lemma call_logged t a m s :
  debug_log (snd (make_rpc_call t a m s)) = debug_log s \/
  debug_log (snd (make_rpc_call t a m s)) = debug_log s ++ [(t, a, m)].
Proof.
  unfold make_rpc_call, of_res. destruct (rpc_to_str t m) as [text| | |]; [right|by left..].
  rewrite (bind_val _ _ s text s), (bind_val _ _ s tt (logged t a m s)) by done.
  match goal with |- debug_log (snd (?f ?s0)) = _ => assert (Hf : stable (same debug_log) f); [|exact (Hf s0)] end.
  unfold get, msg_encode.
  assert (Hon : forall id (m : M connection unit), stable (same debug_log) (with_sp id (on_connection id m))).
  { intros id m0 s0. rewrite with_sp_eq. unfold same, release, on_connection. cbn [snd].
    destruct (connections s0 !! id) as [[c|]|]; [destruct (m0 c)|..]; by destruct (held _ _). }
  apply stable_bind; [exact _|apply stable_gets; exact _|intros sp].
  apply stable_bind; [exact _|destruct (_ <? _); [apply stable_ub|apply stable_ret]; exact _|intros e].
  destruct sp; [apply Hon|]. apply stable_bind; [exact _|done|intros id; apply Hon].
Qed.

(** ** The table of connections *)

(** What happens to a peer: a connection to it opens, or fails. *)
Inductive event := Opened (peer : server_addr) (id : nat) | Closed (peer : server_addr) | Quiet.
Definition table (m : gmap server_addr nat) (e : event) : gmap server_addr nat :=
  match e with Opened a id => <[a := id]> m | Closed a => delete a m | Quiet => m end.

(** What the process and the library do to the component: a call, and each
    handler whenever it can be pending: of a connect while the connection has a
    message to send when it is made, of a read while the read is outstanding, of
    a write at any time, also behind the end of the object. *)
Inductive rpc_step (s : RPC) : event -> RPC -> Prop :=
| by_call t a m : rpc_step s Quiet (snd (make_rpc_call t a m s))
| by_connected id c msg local :
    connections s !! id = Some (Some c) -> connecting c = Some msg ->
    rpc_step s (Opened (remote_peer_ c) id) (snd (connect_done id false local s))
| by_connect_failed id local : rpc_step s Quiet (snd (connect_done id true local s))
| by_written id : rpc_step s Quiet (snd (deliver_done id false s))
| by_write_failed id c :
    connections s !! id = Some (Some c) -> rpc_step s (Closed (remote_peer_ c)) (snd (deliver_done id true s))
| by_write_failed_late id :
    connections s !! id = Some None -> rpc_step s Quiet (snd (deliver_done id true s))
| by_accepted remote local :
    rpc_step s (Opened remote (length (connections s))) (snd (accept false (Some (remote, local)) s))
| by_accepted_gone : rpc_step s Quiet (snd (accept false None s))
| by_accept_failed endpoints : rpc_step s Quiet (snd (accept true endpoints s))
| by_bytes id chunk : rpc_step s Quiet (snd (arrive id chunk s))
| by_header_failed id c i r :
    connections s !! id = Some (Some c) -> reads c !! i = Some r -> kind r = Read_header ->
    rpc_step s (Closed (remote_peer_ c)) (snd (read_failed id i s))
| by_body_failed id c i r :
    connections s !! id = Some (Some c) -> reads c !! i = Some r -> kind r = Read_body ->
    rpc_step s Quiet (snd (read_failed id i s)).

Inductive rpc_run (s : RPC) : list event -> RPC -> Prop :=
| run_start : rpc_run s [] s
| run_more es s1 e s2 : rpc_run s es s1 -> rpc_step s1 e s2 -> rpc_run s (es ++ [e]) s2.

(** A step that is the event [e] for the table, and keeps it well formed. *)
Definition does (e : event) (s s' : RPC) : Prop :=
  connection_map_ s' = table (connection_map_ s) e /\ (wf s -> wf s').

Lemma does_quiet e s s1 s2 s3 : quiet s s1 -> does e s1 s2 -> quiet s2 s3 -> does e s s3.
Proof. intros [E1 H1] [E2 H2] [E3 H3]. split; [|auto]. by rewrite E3, E2, E1. Qed.

Lemma does_remove a s : does (Closed a) s (snd (remove a s)).
Proof.
  unfold remove, get. rewrite (bind_val _ _ s (connection_map_ s !! a) s) by done.
  set (s1 := set_connection_map_ (delete a (connection_map_ s)) s). rewrite (bind_val _ _ s tt s1) by done.
  apply (does_quiet _ s s s1); [reflexivity| |apply quiet_released].
  split; [done|]. intros H. by apply map_Forall_delete.
Qed.
Lemma insert_val a id s : exists s', insert a id s = (Val tt, s').
Proof. unfold insert, get, bind, gets, modify. destruct (connection_map_ s !! a); eexists; reflexivity. Qed.
Lemma does_insert a id c s :
  connections s !! id = Some (Some c) -> remote_peer_ c = a -> does (Opened a id) s (snd (insert a id s)).
Proof.
  intros Hc Ha. unfold insert, get. rewrite (bind_val _ _ s (connection_map_ s !! a) s) by done.
  set (s1 := set_connection_map_ (<[a := id]> (connection_map_ s)) s). rewrite (bind_val _ _ s tt s1) by done.
  apply (does_quiet _ s s s1); [reflexivity| |apply quiet_released].
  split; [done|]. intros H. apply map_Forall_insert_2; [|done]. by exists c.
Qed.

(** The connection registers itself, and goes on. *)
Lemma does_open {A} id c s (rest : M RPC A) :
  connections s !! id = Some (Some c) -> stable quiet rest ->
  does (Opened (remote_peer_ c) id) s
    (snd ((let! remote_peer := on_connection id (gets remote_peer_) in insert remote_peer id ;; rest) s)).
Proof.
  intros Hc Hrest. rewrite (bind_val _ _ _ _ _ (on_connection_gets id remote_peer_ s c Hc)).
  destruct (insert_val (remote_peer_ c) id s) as [s1 E]. rewrite (bind_val _ _ _ _ _ E).
  apply (does_quiet _ s s s1); [reflexivity| |apply Hrest].
  pose proof (does_insert (remote_peer_ c) id c s Hc eq_refl) as H. by rewrite E in H.
Qed.

Lemma does_start id c s :
  connections s !! id = Some (Some c) -> does (Opened (remote_peer_ c) id) s (snd (start id s)).
Proof. intros Hc. unfold start. apply does_open; [done|]. apply quiet_on_connection, issue_peer. Qed.

Lemma does_accept remote local s :
  does (Opened remote (length (connections s))) s (snd (accept false (Some (remote, local)) s)).
Proof.
  set (c := set_local (fst local) (snd local) (new_connection remote)).
  set (s1 := set_connections (connections s ++ [Some c]) s).
  unfold accept. rewrite (bind_val _ _ s (length (connections s)) s1) by done. rewrite with_sp_eq.
  apply (does_quiet _ s s1 (snd (start (length (connections s)) s1)));
    [apply (quiet_make_connection c s)| |apply quiet_release].
  apply (does_start _ c). cbn. by rewrite lookup_app_r, Nat.sub_diag by done.
Qed.

Lemma does_connected id c msg local s :
  connections s !! id = Some (Some c) -> connecting c = Some msg ->
  does (Opened (remote_peer_ c) id) s (snd (connect_done id false local s)).
Proof.
  intros Hc Hm. unfold connect_done. rewrite with_sp_eq. cbn [snd].
  rewrite (bind_val _ _ _ _ _ (on_connection_gets id connecting s c Hc)), Hm.
  set (c1 := set_connecting None c). set (s1 := set_connections (<[id := Some c1]> (connections s)) s).
  rewrite (bind_val _ _ s tt s1) by (by rewrite (on_connection_ok _ _ _ _ Hc)).
  assert (Hc1 : connections s1 !! id = Some (Some c1)) by (apply list_lookup_insert_eq; by eapply lookup_lt_Some).
  set (c2 := set_local (fst local) (snd local) c1). set (s2 := set_connections (<[id := Some c2]> (connections s1)) s1).
  rewrite (bind_val _ _ s1 tt s2) by (by rewrite (on_connection_ok _ _ _ _ Hc1)).
  assert (Hc2 : connections s2 !! id = Some (Some c2)) by (apply list_lookup_insert_eq; by eapply lookup_lt_Some).
  set (c3 := snd (read_header c2)). set (s3 := set_connections (<[id := Some c3]> (connections s2)) s2).
  rewrite (bind_val _ _ s2 tt s3) by (by rewrite (on_connection_ok _ _ _ _ Hc2)).
  assert (Hc3 : connections s3 !! id = Some (Some c3)) by (apply list_lookup_insert_eq; by eapply lookup_lt_Some).
  apply (does_quiet _ s s3 (snd ((let! remote_peer := on_connection id (gets remote_peer_) in
      insert remote_peer id ;; on_connection id (deliver msg)) s3)));
    [|apply (does_open id c3); [done|apply quiet_on_connection, deliver_peer]|apply quiet_release].
  etrans; [|etrans].
  - pose proof (quiet_modify id (set_connecting None) ltac:(done) s) as H.
    rewrite (on_connection_ok _ _ _ _ Hc) in H. exact H.
  - pose proof (quiet_modify id (set_local (fst local) (snd local)) ltac:(done) s1) as H.
    rewrite (on_connection_ok _ _ _ _ Hc1) in H. exact H.
  - pose proof (quiet_on_connection id _ (issue_peer Read_header 4) s2) as H.
    rewrite (on_connection_ok _ _ _ _ Hc2) in H. exact H.
Qed.

Lemma quiet_connect_failed id local : stable quiet (connect_done id true local).
Proof.
  unfold connect_done. apply quiet_with_sp. apply stable_bind; [exact _|apply quiet_gets|intros msg].
  apply stable_bind; [exact _|by apply quiet_modify|intros _]. destruct msg; apply stable_ret; exact _.
Qed.

Lemma read_failed_eq id c i r s :
  connections s !! id = Some (Some c) -> reads c !! i = Some r ->
  let s1 := set_connections (<[id := Some (set_incoming (inbox c) (delete i (reads c)) c)]> (connections s)) s in
  quiet s s1 /\
  snd (read_failed id i s) =
    release id (match kind r with Read_header => snd (remove (remote_peer_ c) s1) | Read_body => s1 end).
Proof.
  intros Hc Hr s1. split.
  - pose proof (quiet_modify id (fun c => set_incoming (inbox c) (delete i (reads c)) c) ltac:(done) s) as H.
    rewrite (on_connection_ok _ _ _ _ Hc) in H. exact H.
  - unfold read_failed. rewrite with_sp_eq. cbn [snd]. f_equal.
    rewrite (bind_val _ _ _ _ _ (on_connection_gets id (fun c => c) s c Hc)), Hr.
    rewrite (bind_val _ _ s tt s1) by (by rewrite (on_connection_ok _ _ _ _ Hc)). by destruct (kind r).
Qed.

Lemma step_does s e s' : rpc_step s e s' -> does e s s'.
Proof.
  intros [t a m|id c msg local Hc Hm|id local|id|id c Hc|id Hc|remote local| |endpoints|id chunk|id c i r Hc Hr Hk|id c i r Hc Hr Hk];
    try done.
  - apply make_rpc_call_quiet.
  - by apply (does_connected id c msg).
  - apply quiet_connect_failed.
  - unfold deliver_done. rewrite (bind_val _ _ _ _ _ (on_connection_gets id remote_peer_ s c Hc)). apply does_remove.
  - unfold deliver_done, bind, on_connection. by rewrite Hc.
  - apply does_accept.
  - apply quiet_with_sp, quiet_on_connection, receive_peer.
  - destruct (read_failed_eq id c i r s Hc Hr) as [Hq ->]. rewrite Hk.
    eapply does_quiet; [exact Hq|apply does_remove|apply quiet_release].
  - destruct (read_failed_eq id c i r s Hc Hr) as [Hq ->]. rewrite Hk. etrans; [exact Hq|apply quiet_release].
Qed.

(** C40: the table of connections.  Whatever the process calls and the library
    completes, in any order and also when a step throws or is undefined, an
    address is in the map exactly if the last that happened to it is that a
    connection to it opened, accepted or made, and it is the connection that
    opened last; an address whose header read or write failed since is not in the
    map, so that the next call connects anew.  And every connection in the map
    lives and is one to its address: no call is written to a destroyed
    connection, or to another peer. *)
Theorem connection_table s es s' :
  wf s -> rpc_run s es s' ->
  connection_map_ s' = foldl table (connection_map_ s) es /\
  forall a id, connection_map_ s' !! a = Some id ->
    exists c, connections s' !! id = Some (Some c) /\ remote_peer_ c = a.
Proof.
  intros Hwf Hr. assert (H : connection_map_ s' = foldl table (connection_map_ s) es /\ wf s').
  { induction Hr as [|es s1 e s2 _ [E1 H1] Hs]; [done|]. destruct (step_does _ _ _ Hs) as [E2 H2].
    rewrite foldl_app. cbn. rewrite <- E1. auto. }
  split; [apply H|]. intros a id Ha. exact (proj2 H a id Ha).
Qed.

(** C36: the handler of a write outlives its connection.  It holds the bare [this],
    where the handlers of reads hold a [shared_ptr].  When the peer of a registered
    connection goes away, the read of the next header fails, which takes the
    connection from the map and destroys it, as nothing else holds it; the
    handler of a write that fails with it uses the destroyed object. *)
Theorem write_handler_outlives_connection id c r s :
  wf s -> connections s !! id = Some (Some c) -> connection_map_ s !! remote_peer_ c = Some id ->
  reads c = [r] -> kind r = Read_header -> connecting c = None ->
  let s' := snd (read_failed id 0 s) in
  connections s' !! id = Some None /\
  deliver_done id true s' = (Undef "a destroyed connection is used", s').
Proof.
  intros Hwf Hc Ha Hr Hk Hn s'. assert (H : connections s' !! id = Some None).
  { unfold s'. destruct (read_failed_eq id c 0 r s Hc) as [_ ->]; [by rewrite Hr|]. rewrite Hk, Hr. cbn [delete list_delete].
    set (c1 := set_incoming (inbox c) [] c). set (s1 := set_connections _ s).
    unfold remove, get. rewrite (bind_val _ _ s1 (Some id) s1) by (unfold gets; cbn; by rewrite Ha).
    set (s2 := set_connection_map_ (delete (remote_peer_ c) (connection_map_ s1)) s1).
    rewrite (bind_val _ _ s1 tt s2) by done. cbn [released modify snd].
    assert (Hh : held id s2 = false).
    { unfold held. rewrite bool_decide_false; [cbn|].
      - rewrite list_lookup_insert_eq by (by eapply lookup_lt_Some). unfold in_use. cbn. by rewrite Hn.
      - intros (b & i & Hb & ->). cbn in Hb. apply lookup_delete_Some in Hb as [Hb Hi].
        destruct (Hwf b id Hi) as (c2 & Hc2 & E). rewrite Hc in Hc2. by injection Hc2 as <-. }
    assert (Hl : (id < length (<[id := Some c1]> (connections s)))%nat).
    { rewrite length_insert. by eapply lookup_lt_Some. }
    apply release_dead. unfold release. rewrite Hh. by apply list_lookup_insert_eq. }
  split; [done|]. unfold deliver_done, bind, on_connection. by rewrite H.
Qed.

(** ** Receiving *)

(** The reads that can be outstanding: they stay inside their arrays, and only
    an empty body waits for nothing. *)
Definition buffer_size (k : read_kind) : Z :=
  match k with Read_header => 4 | Read_body => data_size end.
Definition in_bounds (r : read) : Prop :=
  0 <= want r <= buffer_size (kind r) /\ 0 <= got r /\
  (got r < want r \/ (kind r = Read_body /\ want r = 0 /\ got r = 0)).
Definition arrays (c : connection) : Prop := slen (header_ c) = 4 /\ slen (data_ c) = data_size.

Definition answers {A} (r : res A) : Prop :=
  match r with Undef w => w <> "out of fuel" | _ => True end.

Lemma new_connection_arrays a : arrays (new_connection a).
Proof. split; cbn [new_connection header_ data_]; unfold slen; by rewrite length_zeros. Qed.

Lemma slen_overwrite off bytes buffer :
  Z.of_nat off + slen bytes <= slen buffer -> slen (overwrite off bytes buffer) = slen buffer.
Proof.
  unfold overwrite. rewrite !slen_app. unfold slen. rewrite length_str_take, length_str_drop. lia.
Qed.

Lemma body_size_bounds n : 0 <= body_size n <= data_size.
Proof. unfold body_size, data_size. destruct (Z.ltb_spec n 0); lia. Qed.

Lemma issue_in_bounds k n c :
  0 <= n <= buffer_size k -> (k = Read_header -> 0 < n) -> Forall in_bounds (reads c) ->
  Forall in_bounds (reads (snd (issue k n c))).
Proof.
  intros Hn Hk Hc. cbn. apply Forall_app. split; [done|]. constructor; [|done].
  split; cbn; [done|]. split; [done|]. destruct k; [left; by apply Hk|].
  destruct (Z.eq_dec n 0); [by right|left; lia].
Qed.

(** What every completion keeps: it answers, leaves the reads in their arrays and
    the arrays as large as they are. *)
Definition handled {A} (c : connection) (o : res A * connection) : Prop :=
  answers (fst o) /\ Forall in_bounds (reads (snd o)) /\ (arrays c -> arrays (snd o)).

Lemma handled_bind {A B} (m : M connection A) (f : A -> M connection B) c :
  handled c (m c) -> (forall a c', m c = (Val a, c') -> handled c' (f a c')) -> handled c (bind m f c).
Proof.
  intros (H1 & H2 & H3) Hf. unfold bind.
  destruct (m c) as [[a|e|x|w] c'] eqn:E; [|by split_and!..].
  destruct (Hf a c' eq_refl) as (G1 & G2 & G3). split_and!; auto.
Qed.

Lemma read_body_handled c :
  Forall in_bounds (reads c) ->
  handled c (read_body c) /\ inbox (snd (read_body c)) = inbox c.
Proof.
  intros Hc. unfold read_body. rewrite (bind_val _ _ c (header_ c) c) by done.
  unfold atoi, int_result. destruct (in_int _); [|by split; [split_and!|]].
  rewrite bind_ret. split; [|done]. split_and!; [done| |by intros []].
  apply (issue_in_bounds Read_header 4); [cbn; lia|lia|].
  apply (issue_in_bounds Read_body); [apply body_size_bounds|done|done].
Qed.

Lemma process_msg_answers {S} data peer (s : S) : answers (fst (process_msg data peer s)).
Proof.
  unfold process_msg. destruct data as [|ch msg]; [done|]. destruct (bool_decide _); [|done].
  unfold atoi, int_result. destruct (in_int _); [|done]. rewrite bind_ret.
  unfold of_res, bind. by destruct (rpc_type_of_int _).
Qed.

Lemma body_callback_eq n c :
  body_callback n c = process_msg (str_take (Z.to_nat n) (data_ c)) (remote_peer_ c) c.
Proof. done. Qed.

Lemma process_msg_state {S} data peer (s : S) : snd (process_msg data peer s) = s.
Proof. symmetry. exact (process_msg_stable eq data peer s). Qed.

Lemma delete_of_insert {A} (i : nat) (x : A) (l : list A) : delete i (<[i := x]> l) = delete i l.
Proof. revert i. induction l as [|y l IH]; intros [|i]; cbn; [done..|]. by f_equal; apply IH. Qed.

(** A read that is fed stays in its array, and takes bytes away unless it is for
    an empty body. *)
Lemma feed_in_bounds i r c r' c' :
  in_bounds r -> feed i r c = (r', c') ->
  (got r' < want r' -> in_bounds r') /\ reads c' = <[i := r']> (reads c) /\ (arrays c -> arrays c') /\
  (bool_decide (inbox c = "") && (0 <? want r) = false ->
   (String.length (inbox c') < String.length (inbox c))%nat \/
   (kind r' = Read_body /\ want r' = 0 /\ inbox c' = inbox c)).
Proof.
  intros (Hw & Hg & Hlt) E. unfold feed in E.
  set (n := Z.to_nat (want r - got r)) in *. set (bytes := str_take n (inbox c)) in *.
  assert (Hb : slen bytes <= want r - got r).
  { unfold bytes, slen. rewrite length_str_take. unfold n. lia. }
  pose proof (slen_nonneg bytes).
  assert (Hin : forall buffer, buffer_size (kind r) <= slen buffer ->
    slen (overwrite (Z.to_nat (got r)) bytes buffer) = slen buffer).
  { intros buffer Hs. apply slen_overwrite. lia. }
  assert (Hc' : r' = {| kind := kind r; want := want r; got := got r + slen bytes |} /\
    inbox c' = str_drop n (inbox c) /\ reads c' = <[i := r']> (reads c) /\ (arrays c -> arrays c')).
  { destruct (kind r) eqn:Hk; injection E as <- <-; (split_and!; [done|done|done|]);
      intros [Hh Hd]; (split; cbn; [try done|try done]); rewrite Hin; cbn; lia. }
  destruct Hc' as (-> & Hi & Hr & Ha). split_and!; [|done|done|].
  - cbn. intros Hl. split; cbn; [done|]. split; [lia|by left].
  - intros Hs. cbn. rewrite Hi. destruct Hlt as [Hlt|(Hk & Hz & Hg0)].
    + left. rewrite length_str_drop. destruct (inbox c) as [|b bs]; [by destruct (Z.ltb_spec 0 (want r)); [done|lia]|].
      cbn [String.length]. unfold n. lia.
    + right. split_and!; [done|done|]. unfold n. by rewrite Hz, Hg0.
Qed.

Lemma serve_handled fuel c :
  Forall in_bounds (reads c) -> (String.length (inbox c) < fuel)%nat -> handled c (serve fuel c).
Proof.
  revert c. induction fuel as [|fuel IH]; intros c Hc Hf; [lia|]. cbn [serve].
  rewrite (bind_val _ _ _ c c) by done.
  destruct (next_read (reads c)) as [i|]; [|by split_and!].
  destruct (reads c !! i) as [r|] eqn:Hr; [|by split_and!].
  pose proof (proj1 (Forall_lookup _ _) Hc _ _ Hr) as Hb.
  destruct (bool_decide (inbox c = "") && (0 <? want r)) eqn:Hstop; [by split_and!|].
  destruct (feed i r c) as [r' c'] eqn:Ef.
  destruct (feed_in_bounds _ _ _ _ _ Hb Ef) as (Hr' & Hrs & Ha & Hdec). specialize (Hdec Hstop).
  destruct (Z.ltb_spec (got r') (want r')) as [Hlt|Hge].
  - rewrite (bind_val _ _ c tt c') by done.
    assert (Hd : (String.length (inbox c') < String.length (inbox c))%nat).
    { destruct Hdec as [?|(_ & Hw & _)]; [done|]. destruct (Hr' Hlt) as (? & ? & _). lia. }
    destruct (IH c') as (G1 & G2 & G3); [rewrite Hrs; apply Forall_insert; auto|lia|]. split_and!; auto.
  - set (c1 := set_incoming (inbox c') (delete i (reads c')) c'). rewrite (bind_val _ _ c tt c1) by done.
    assert (Hc1 : Forall in_bounds (reads c1)).
    { cbn. rewrite Hrs, delete_of_insert. by apply Forall_delete. }
    assert (Ha1 : arrays c -> arrays c1) by (intros H; exact (Ha H)).
    match goal with |- handled c ?o => assert (G : handled c1 o);
      [|destruct G as (G1 & G2 & G3); split_and!; auto] end.
    destruct (kind r') eqn:Hk.
    + destruct Hdec as [Hd|[? _]]; [|congruence].
      destruct (read_body_handled c1 Hc1) as [Hh Hi].
      apply handled_bind; [done|]. intros [] c2 E. rewrite E in Hh, Hi. destruct Hh as (_ & Hb2 & _).
      apply IH; [done|]. cbn [snd] in Hi. rewrite Hi. cbn. lia.
    + apply handled_bind; rewrite body_callback_eq.
      { split_and!; [apply process_msg_answers|by rewrite process_msg_state..]. }
      intros ev c2 E. assert (c2 = c1 /\ want r' <> 0) as [-> Hne].
      { split; [by rewrite <- (process_msg_state (str_take (Z.to_nat (want r')) (data_ c1)) (remote_peer_ c1) c1), E|].
        intros Hz. by rewrite Hz in E. }
      destruct Hdec as [Hd|(_ & ? & _)]; [|done].
      apply handled_bind; [apply IH; [done|cbn; lia]|]. intros evs c3 E3.
      pose proof (IH c1 Hc1 ltac:(cbn; lia)) as (_ & H3 & _). rewrite E3 in H3. by split_and!.
Qed.

(** C25: the receiver stays in its buffers and never hangs.  Whatever bytes
    arrive, hostile ones included, and in whatever order the outstanding reads
    get them, one arrival is handled in finitely many steps, as the fuel
    [receive] gives is enough, every read it leaves outstanding fits
    [header_] or [data_], and no byte was written behind the two arrays; the
    announced length never makes a read run out of its buffer. *)
Theorem receive_in_bounds chunk c :
  Forall in_bounds (reads c) ->
  fst (receive chunk c) <> Undef "out of fuel" /\ Forall in_bounds (reads (snd (receive chunk c))) /\
  (arrays c -> arrays (snd (receive chunk c))).
Proof.
  intros Hc. unfold receive. set (c1 := set_incoming (inbox c +:+ chunk) (reads c) c).
  rewrite (bind_val _ _ _ tt c1), (bind_val _ _ _ c1 c1) by done.
  destruct (serve_handled (S (String.length (inbox c1))) c1) as (Ha & Hb & Hs); [done|lia|].
  split_and!; [|done|exact Hs]. intros E. by rewrite E in Ha.
Qed.

(** *** The stream of frames *)

Definition flat (frames : list string) : string := foldr String.append "" frames.

(** What the receiver means to read from a stream, were its reads served one
    after the other and the type a string: four bytes that announce a body, the
    body, as far as it fits [data_], and in front of it the type.  It stops
    where the stream ends in a message. *)
Fixpoint unframe (fuel : nat) (stream : string) : option (list (RPC_TYPE * string)) :=
  match fuel, stream with
  | _, EmptyString => Some []
  | O, _ => None
  | S fuel', _ =>
      match atoi (str_take 4 stream) tt with
      | (Val msg_len, _) =>
          let n := Z.to_nat (body_size msg_len) in
          let rest := str_drop 4 stream in
          match str_take n rest with
          | String char_rpc_type msg =>
              if (String.length rest <? n)%nat then None
              else match atoi (String char_rpc_type "") tt with
                   | (Val t, _) =>
                       msgs ← unframe fuel' (str_drop n rest); Some ((rpc_type_of_int t, msg) :: msgs)
                   | _ => None
                   end
          | EmptyString => None
          end
      | _ => None
      end
  end.

(** What a receiver can take: types the program names, bodies that fit [data_]. *)
Definition receivable (msgs : list (RPC_TYPE * string)) : Prop :=
  Forall (fun '(t, m) => named_type t = true /\ slen m < data_size) msgs.

Lemma body_size_fits m : slen m < data_size -> body_size (slen m + 1) = slen m + 1.
Proof.
  intros Hm. pose proof (slen_nonneg m). unfold body_size, data_size in *.
  destruct (Z.ltb_spec (slen m + 1) 0); lia.
Qed.

Lemma atoi_length {S} m (s : S) :
  slen m < data_size -> atoi (sprintf_4d (slen m + 1)) s = (Val (slen m + 1), s).
Proof.
  intros Hm. pose proof (slen_nonneg m). unfold data_size in Hm.
  apply atoi_sprintf_4d. unfold INT_MIN, INT_MAX. lia.
Qed.

Lemma frame_parts t m :
  named_type t = true -> slen m < data_size ->
  exists h ch, frame t m = h +:+ String ch m /\ h = sprintf_4d (slen m + 1) /\ String.length h = 4%nat /\
    to_string (rpc_type_to_int t) = String ch "".
Proof.
  intros Ht Hm. pose proof (slen_nonneg m). unfold data_size in Hm.
  assert (E : exists ch, to_string (rpc_type_to_int t) = String ch "") by (destruct t; try done; eexists; reflexivity).
  destruct E as [ch E]. exists (sprintf_4d (slen m + 1)), ch. unfold frame. rewrite E.
  split_and!; try done. apply length_sprintf_4d. lia.
Qed.

Lemma unframe_frame fuel t m stream :
  named_type t = true -> slen m < data_size ->
  unframe (S fuel) (frame t m +:+ stream) = (msgs ← unframe fuel stream; Some ((t, m) :: msgs)).
Proof.
  intros Ht Hm. destruct (frame_parts t m Ht Hm) as (h & ch & -> & Eh & Hl & Ec).
  cbn [unframe]. rewrite str_app_assoc. destruct (h +:+ _) as [|ch0 stream0] eqn:Es.
  { apply (f_equal String.length) in Es. rewrite length_str_app, Hl in Es. done. }
  rewrite <- Es. replace 4%nat with (String.length h). rewrite str_take_app, str_drop_app, Eh, atoi_length by done.
  rewrite body_size_fits by done. pose proof (slen_nonneg m).
  change (String ch m +:+ stream) with ((String ch m) +:+ stream).
  replace (Z.to_nat (slen m + 1)) with (String.length (String ch m)) by (unfold slen; cbn; lia).
  rewrite str_take_app, str_drop_app, length_str_app.
  destruct (Nat.ltb_spec (String.length (String ch m) + String.length stream) (String.length (String ch m))); [lia|].
  assert (Ea : atoi (String ch "") tt = (Val (rpc_type_to_int t), tt)).
  { rewrite <- Ec, <- (str_app_nil_r (to_string _)). apply atoi_to_string; [by destruct t|done]. }
  rewrite Ea, rpc_type_of_to_int by done. done.
Qed.

Lemma unframe_frames msgs :
  receivable msgs -> unframe (length msgs) (flat (map (fun '(t, m) => frame t m) msgs)) = Some msgs.
Proof.
  induction 1 as [|[t m] ms [Ht Hm] Hms IH]; [done|]. cbn [map flat foldr length].
  rewrite unframe_frame by done. unfold flat in IH. by rewrite IH.
Qed.

(** Calls over an open connection. *)
Lemma calls_ok msgs a id s (c : connection) :
  wf s -> connection_map_ s !! a = Some id -> connections s !! id = Some (Some c) ->
  Forall (fun '(t, m) => named_type t = true) msgs -> Forall (fun '(t, m) => writable m) msgs ->
  total (for_each msgs (fun '(t, m) => make_rpc_call t a m)) s (fun _ s' =>
    connections s' !! id = Some (Some (set_written (written c ++ map (fun '(t, m) => frame t m) msgs) c))).
Proof.
  intros Hwf Ha Hc Ht Hw. revert s c Hwf Ha Hc.
  induction msgs as [|[t m] ms IH]; intros s c Hwf Ha Hc; cbn [for_each map].
  { apply total_ret. rewrite Hc, app_nil_r. by destruct c. }
  apply Forall_cons in Ht as [Ht1 Ht]. apply Forall_cons in Hw as [Hw1 Hw].
  pose proof (make_rpc_call_quiet t a m s) as [Em Hq].
  destruct (make_rpc_call_ok t a m s Hwf Ht1 ltac:(by rewrite Ha) Hw1) as ([] & s1 & E & Hs).
  unfold total. cbn [for_each]. rewrite (bind_val _ _ _ _ _ E). rewrite E in Em, Hq. cbn [snd] in Em, Hq.
  unfold sent_to in Hs. rewrite Ha in Hs. destruct Hs as (c1 & Hc1 & ->). rewrite Hc in Hc1. injection Hc1 as <-.
  eapply total_mono; [apply IH|]; try done.
  - by apply Hq.
  - cbn. apply list_lookup_insert_eq. by eapply lookup_lt_Some.
  - intros [] s2 E2. cbn in E2. by rewrite <- app_assoc in E2.
Qed.

(** C24: the stream of frames.  Any sequence of calls to [a] over an open
    connection, with named types, bodies that with their type fit the 5120 bytes
    of [data_], and messages the kernel takes whole, returns and writes one frame
    for each; the stream of these frames can be taken apart again, into exactly
    these messages, in order and with their types; and the handler of a header
    that has a frame's first four bytes in [header_] waits for exactly the
    rest of the frame. *)
Theorem frames_roundtrip (msgs : list (RPC_TYPE * string)) a id s (c : connection) :
  wf s -> connection_map_ s !! a = Some id -> connections s !! id = Some (Some c) ->
  receivable msgs -> Forall (fun '(t, m) => writable m) msgs ->
  total (for_each msgs (fun '(t, m) => make_rpc_call t a m)) s (fun _ s' => exists frames,
    connections s' !! id = Some (Some (set_written (written c ++ frames) c)) /\
    length frames = length msgs /\
    unframe (length msgs) (flat frames) = Some msgs /\
    Forall (fun f => forall c', header_ c' = str_take 4 f ->
      read_body c' = (Val tt, set_incoming (inbox c')
        (reads c' ++ [{| kind := Read_body; want := slen f - 4; got := 0 |};
                      {| kind := Read_header; want := 4; got := 0 |}]) c')) frames).
Proof.
  intros Hwf Ha Hc Hr Hw.
  assert (Ht : Forall (fun '(t, m) => named_type t = true) msgs)
    by (eapply Forall_impl; [exact Hr|]; by intros [t m] [? _]).
  eapply total_mono; [by apply (calls_ok msgs a id s c)|]. intros [] s' E. eexists. split; [exact E|].
  split; [by rewrite length_map|]. split; [by apply unframe_frames|].
  apply Forall_map. eapply Forall_impl; [exact Hr|]. intros [t m] [Ht1 Hm] c' Hh.
  destruct (frame_parts t m Ht1 Hm) as (h & ch & Ef & Eh & Hl & _). cbv beta in *. rewrite Ef in *.
  replace 4%nat with (String.length h) in Hh. rewrite str_take_app in Hh.
  unfold read_body. rewrite (bind_val _ _ c' h c') by (unfold gets; by rewrite Hh).
  rewrite Eh at 1. rewrite (bind_val _ _ _ _ _ (atoi_length m c' Hm)), body_size_fits by done.
  unfold read_header, issue, bind, modify. cbn [fst snd reads inbox set_incoming]. unfold set_incoming at 1.
  cbn. rewrite <- app_assoc. cbn.
  replace (slen (h +:+ String ch m) - 4) with (slen m + 1); [done|].
  rewrite slen_app. unfold slen. rewrite Hl. cbn. lia.
Qed.

(** And the message itself is handed on only by a program whose behaviour is
    undefined: no type is the null character. *)
Lemma process_msg_undefined {S} t m peer (s : S) :
  named_type t = true ->
  process_msg (to_string (rpc_type_to_int t) +:+ m) peer s = (Undef "atoi reads on behind char_rpc_type", s).
Proof. by destruct t. Qed.
End rpc.

(** ** The interface of the server *)

(** [RPC] is a transport: its calls are those its log lists, a call fits if the
    address can be parsed and the length has four digits. *)
Section transport.
Context {RC : RaftCodecs} {EC : EasyCodecs} {SK : Sockets}.

Definition Network : Type := { s : RPC | wf s }.
#[export] Instance rpc_transport : Transport Network := {|
  Interfaces.make_rpc_call t a m := fun n =>
    let r := make_rpc_call t a m (proj1_sig n) in
    (fst r, exist wf (snd r) (proj2 (make_rpc_call_quiet t a m _) (proj2_sig n)));
  calls n := debug_log (proj1_sig n);
  call_fits a m := address_ok (fst a) = true /\ writable m;
|}.

#[export] Instance rpc_transport_laws : TransportLaws Network.
Proof.
  split.
  - intros t a m [s Hwf] Ht [Ha Hm]. destruct (make_rpc_call_ok t a m s Hwf Ht (fun _ => Ha) Hm) as ([] & s' & E & Hs).
    cbn [Interfaces.make_rpc_call rpc_transport proj1_sig proj2_sig calls].
    generalize (proj2 (make_rpc_call_quiet t a m s) Hwf). rewrite E. cbn [fst snd]. intros Hwf'.
    eexists. split; [done|]. cbn. unfold sent_to in Hs.
    destruct (connection_map_ s !! a); [destruct Hs as (c & _ & ->)|subst s']; done.
  - intros t a m [s Hwf]. exact (call_logged t a m s).
Qed.
End transport.

(** ** Witnesses: two calls to an open connection of the process at 7001, and
    what becomes of it *)

Module Witness.
Import Reference ReferenceCodecs.

(** A read that got a part of its bytes is started again behind the others. *)
#[local] Instance asio : Sockets := {|
  address_ok a := bool_decide (a = "127.0.0.1");
  write_at_once before m := slen m <? 65536;
  overlapping l := match l with r :: _ => Some (if got r =? 0 then 0%nat else 1%nat) | [] => None end;
|}.

Definition B : server_addr := ("127.0.0.1", 7002).
Definition header : read := {| kind := Read_header; want := 4; got := 0 |}.
Definition accepted : connection := set_incoming "" [header] (set_local "127.0.0.1" 7001 (new_connection B)).
Definition process : RPC :=
  {| connection_map_ := {[B := 0%nat]}; connections := [Some accepted]; debug_log := [] |}.
Definition vote : string := SerializeToString
  {| rv_term := 3; rv_latest_index := 5; rv_latest_term := 0; rv_lsn := 9; rv_ip := "127.0.0.1"; rv_port := 7001 |}.
Definition refusal : string := SerializeToString
  {| rrv_ok := false; rrv_term := 4; rrv_lsn := 2; rrv_ip := "127.0.0.1"; rrv_port := 7001 |}.
Definition msgs : list (RPC_TYPE * string) := [(REQUEST_VOTE, vote); (RESP_VOTE, refusal)].

Lemma process_wf : wf process.
Proof. intros a id E. cbn in E. apply lookup_singleton_Some in E as [<- <-]. by exists accepted. Qed.
Lemma msgs_receivable : receivable msgs.
Proof. repeat constructor. Qed.
Lemma msgs_writable : Forall (fun '(t, m) => writable m) msgs.
Proof.
  apply Forall_cons_2; [|apply Forall_cons_2; [|apply Forall_nil_2]];
    (split; [vm_compute; congruence|intros before [] Ht; try discriminate Ht; vm_compute; reflexivity]).
Qed.

Lemma frames_roundtrip_witness :
  total (for_each msgs (fun '(t, m) => make_rpc_call t B m)) process (fun _ s' => exists frames,
    connections s' !! 0%nat = Some (Some (set_written frames accepted)) /\ length frames = 2%nat /\
    unframe 2 (flat frames) = Some msgs).
Proof.
  destruct (frames_roundtrip msgs B 0 process accepted process_wf eq_refl eq_refl msgs_receivable msgs_writable)
    as ([] & s' & E & frames & H1 & H2 & H3 & _).
  exists tt, s'. split; [exact E|]. exists frames. split; [exact H1|]. split; [exact H2|exact H3].
Defined.

(** A second connection is accepted and the peer of the first goes away; it is
    called again, and the new connection is made. *)
Definition C : server_addr := ("127.0.0.1", 50001).
Definition L : server_addr := ("127.0.0.1", 7001).
Definition accepted_two : RPC := snd (accept false (Some (C, L)) process).
Definition one_left : RPC := snd (read_failed 0 0 accepted_two).
Definition called_again : RPC := snd (make_rpc_call REQUEST_VOTE B vote one_left).
Definition reconnected : RPC := snd (connect_done 2 false L called_again).
Lemma reconnected_run : rpc_run process [Opened C 1; Closed B; Quiet; Opened B 2] reconnected.
Proof.
  apply (run_more _ [_; _; _] called_again); [apply (run_more _ [_; _] one_left); [apply (run_more _ [_] accepted_two)|]|].
  - apply (run_more _ [] process); [apply run_start|]. exact (by_accepted process C L).
  - exact (by_header_failed accepted_two 0 accepted 0 header eq_refl eq_refl eq_refl).
  - exact (by_call one_left REQUEST_VOTE B vote).
  - exact (by_connected called_again 2 (set_connecting (Some (frame REQUEST_VOTE vote)) (new_connection B))
      (frame REQUEST_VOTE vote) L eq_refl eq_refl).
Qed.
Lemma connection_table_witness :
  connection_map_ reconnected = foldl table (connection_map_ process) [Opened C 1; Closed B; Quiet; Opened B 2] /\
  connections one_left !! 0%nat = Some None /\
  exists c, connections reconnected !! 2%nat = Some (Some c) /\ remote_peer_ c = B.
Proof.
  destruct (connection_table process _ reconnected process_wf reconnected_run) as [E H].
  split; [exact E|]. split; [vm_compute; reflexivity|]. apply H. rewrite E. vm_compute. reflexivity.
Defined.

Lemma write_handler_outlives_connection_witness :
  fst (deliver_done 0 true (snd (read_failed 0 0 process))) = Undef "a destroyed connection is used".
Proof.
  destruct (write_handler_outlives_connection 0 accepted header process process_wf eq_refl eq_refl eq_refl eq_refl eq_refl)
    as [_ E]. rewrite E. reflexivity.
Defined.

(** A process without a connection calls a host by its name. *)
Lemma make_rpc_call_spec_witness :
  fst (make_rpc_call REQUEST_VOTE ("localhost", 7002) vote process) = Exn (std_exception "invalid address").
Proof. rewrite (make_rpc_call_spec REQUEST_VOTE ("localhost", 7002) vote process process_wf). reflexivity. Defined.

(** A frame of a client that announces ten thousand bytes. *)
Definition overlong : string := "9999" +:+ "0hostile".
Lemma overlong_in_bounds : Forall in_bounds (reads accepted).
Proof. repeat constructor; cbn; lia. Qed.
Lemma receive_in_bounds_witness :
  Forall in_bounds (reads (snd (receive overlong accepted))) /\
  map want (reads (snd (receive overlong accepted))) = [5120; 4] /\
  arrays (snd (receive overlong accepted)).
Proof.
  destruct (receive_in_bounds overlong accepted overlong_in_bounds) as (_ & H1 & H2).
  split; [exact H1|]. split; [vm_compute; reflexivity|]. apply H2. exact (new_connection_arrays B).
Defined.
End Witness.
End Rpc.
