(* ===== verification/Client.v ===== *)
(** client/client.h and client.cpp: the interactive client.  It reads commands
    from the standard input, sends the calls its state machine builds to one
    server and prints the replies.  The standard input is the text that is left
    with the state of the stream; the two kinds of reply are printed by the
    state machine.

    The endless loop of [run] is [rounds] for a number of rounds; the io thread's
    part is [react_to_resp]. *)

From S2P Require Import Prelude CxxString Platform Messages Util Interfaces RpcToString EasyStateMachine Rpc.

Module Client.

Definition file : string := "client/client.cpp".

Record client (N : Type) := {
  server_ : server_addr;
  network_ : N;
  cin : string;
  cin_eof : bool;
  cin_fail : bool;
  cout : list string;
}.
#[global] Arguments server_ {N} _.
#[global] Arguments network_ {N} _.
#[global] Arguments cin {N} _.
#[global] Arguments cin_eof {N} _.
#[global] Arguments cin_fail {N} _.
#[global] Arguments cout {N} _.

Section client.
Context {Net SM : Type} {TR : Transport Net} {SMC : StateMachine SM}.
Implicit Types (c : client Net).

Definition set_cin (text : string) (eof fail : bool) c : client Net :=
  {| server_ := server_ c; network_ := network_ c; cin := text; cin_eof := eof; cin_fail := fail; cout := cout c |}.
Definition set_network (n : Net) c : client Net :=
  {| server_ := server_ c; network_ := n; cin := cin c; cin_eof := cin_eof c; cin_fail := cin_fail c; cout := cout c |}.
Definition set_server_ (a : server_addr) c : client Net :=
  {| server_ := a; network_ := network_ c; cin := cin c; cin_eof := cin_eof c; cin_fail := cin_fail c; cout := cout c |}.
Definition print (line : string) : M (client Net) unit := modify (fun c =>
  {| server_ := server_ c; network_ := network_ c; cin := cin c; cin_eof := cin_eof c; cin_fail := cin_fail c;
     cout := cout c ++ [line] |}).

Abbreviation MC := (M (client Net)).

(** *** The standard input *)

Definition good c : bool := negb (cin_eof c) && negb (cin_fail c).

(** [cin >> c]: [None] if the variable keeps the value it had. *)
Definition read_char : MC (option ascii) := fun c =>
  if good c then
    match skip_spaces (cin c) with
    | EmptyString => (Val None, set_cin "" true true c)
    | String ch rest => (Val (Some ch), set_cin rest false false c)
    end
  else (Val None, set_cin (cin c) (cin_eof c) true c).

Definition ignore : MC unit := fun c =>
  if good c then
    match cin c with
    | EmptyString => (Val tt, set_cin "" true false c)
    | String _ rest => (Val tt, set_cin rest false false c)
    end
  else (Val tt, set_cin (cin c) (cin_eof c) true c).

(** The characters before the next newline, what is behind it, and whether there
    was one. *)
Fixpoint split_line (text : string) : string * string * bool :=
  match text with
  | EmptyString => ("", "", false)
  | String "010" rest => ("", rest, true)
  | String ch rest => let '(line, left_over, found) := split_line rest in (String ch line, left_over, found)
  end.
(** [getline(cin, key)] into a new string *)
Definition getline : MC string := fun c =>
  if good c then
    let '(line, rest, found) := split_line (cin c) in
    if found then (Val line, set_cin rest false false c)
    else (Val line, set_cin "" true (bool_decide (line = "")) c)
  else (Val "", set_cin (cin c) (cin_eof c) true c).

(** [cin >> v] for an [int]: a sign and digits; 0 if there is no number, the
    nearest [int] if it is out of range. *)
Fixpoint digits (s : string) : string * string :=
  match s with
  | String ch s' => match Ascii.is_nat ch with
                    | Some _ => let '(d, rest) := digits s' in (String ch d, rest)
                    | None => ("", s)
                    end
  | EmptyString => ("", "")
  end.
Definition signed (s : string) : string * string * string :=
  match s with
  | String "-" s' => let '(d, rest) := digits s' in ("-", d, rest)
  | String "+" s' => let '(d, rest) := digits s' in ("+", d, rest)
  | _ => let '(d, rest) := digits s in ("", d, rest)
  end.
Definition read_int : MC (option Z) := fun c =>
  if good c then
    match skip_spaces (cin c) with
    | EmptyString => (Val None, set_cin "" true true c)
    | text =>
        let '(sign, d, rest) := signed text in
        let eof := bool_decide (rest = "") in
        if bool_decide (d = "") then (Val (Some 0), set_cin rest eof true c)
        else
          let n := Z.of_N (digits_val d) in
          let v := if bool_decide (sign = "-") then - n else n in
          if v <? INT_MIN then (Val (Some INT_MIN), set_cin rest eof true c)
          else if INT_MAX <? v then (Val (Some INT_MAX), set_cin rest eof true c)
          else (Val (Some v), set_cin rest eof false c)
    end
  else (Val None, set_cin (cin c) (cin_eof c) true c).

(** *** The operations *)

Definition new (server : server_addr) (network : Net) (text : string) : client Net :=
  {| server_ := server; network_ := network; cin := text; cin_eof := false; cin_fail := false; cout := [] |}.
Definition set_server (server : server_addr) : MC unit := modify (set_server_ server).

Definition call (t : RPC_TYPE) (msg : string) : MC unit :=
  let! server := gets server_ in
  zoom network_ set_network (make_rpc_call t server msg).

Definition apply_to_server : MC unit :=
  print "input the key(string): " ;;
  let! key := getline in
  print "input the v(int): " ;;
  let! v := read_int in
  match v with
  | None => ub "v is read uninitialised"
  | Some v => call CLIENT_APPLY (sm_build_apply_str key v)
  end.

Definition query_from_server : MC unit :=
  print "input the key(string): " ;;
  let! key := getline in
  call CLIENT_QUERY (sm_build_query_str key).

(** The body of the loop in [run]. *)
Definition round : MC unit :=
  print "input 'a' to apply or 'q' for query" ;;
  let! ch := read_char in
  ignore ;;
  match ch with
  | None => ub "c is read uninitialised"
  | Some ch =>
      if bool_decide (ch = "a"%char) then apply_to_server
      else if bool_decide (ch = "q"%char) then query_from_server
      else ret tt
  end.
Fixpoint rounds (n : nat) : MC unit :=
  match n with O => ret tt | S n' => round ;; rounds n' end.

(** What the state machine prints, or the exception it throws. *)
Definition printed (text : res string) : MC unit :=
  match text with
  | Val line => print line
  | Exn e => throw e
  | Exited code => exit code
  | Undef w => ub w
  end.
Definition react_to_resp_query (resp_query_str : string) : MC unit := printed (sm_react_to_resp_query resp_query_str).
Definition react_to_resp_apply (resp_apply_str : string) : MC unit := printed (sm_react_to_resp_apply resp_apply_str).
Definition react_to_resp (rpc_type : RPC_TYPE) (resp_str : string) (addr : server_addr) : MC unit :=
  match rpc_type with
  | RESP_CLIENT_APPLY => react_to_resp_apply resp_str
  | RESP_CLIENT_QUERY => react_to_resp_query resp_str
  | _ => throw_line file 73 "unknown rpc_type"
  end.

(** ** A session: what a user types *)

Inductive command := Apply (key : string) (v : Z) | Query (key : string).
Definition newline : string := String "010" "".
Definition typed (cmd : command) : string :=
  match cmd with
  | Apply key v => "a" +:+ newline +:+ key +:+ newline +:+ to_string v +:+ newline
  | Query key => "q" +:+ newline +:+ key +:+ newline
  end.
Definition session (cmds : list command) : string := foldr (fun cmd text => typed cmd +:+ text) "" cmds.

(** The call a command makes. *)
Definition call_of (server : server_addr) (cmd : command) : RPC_TYPE * server_addr * string :=
  match cmd with
  | Apply key v => (CLIENT_APPLY, server, sm_build_apply_str key v)
  | Query key => (CLIENT_QUERY, server, sm_build_query_str key)
  end.

(** A key is one line; the value is an [int]; the call can go out. *)
Definition typable (server : server_addr) (cmd : command) : Prop :=
  match cmd with
  | Apply key v => str_forall (fun ch => negb (bool_decide (ch = "010"%char))) key = true /\ INT_MIN <= v <= INT_MAX
  | Query key => str_forall (fun ch => negb (bool_decide (ch = "010"%char))) key = true
  end /\ call_fits server (snd (call_of server cmd)).

Lemma skip_to_digits d s : (d < 10)%N ->
  skip_spaces (String (pretty_N_char d) s) = String (pretty_N_char d) s /\
  signed (String (pretty_N_char d) s) = let '(ds, rest) := digits (String (pretty_N_char d) s) in ("", ds, rest).
Proof. revert d. by_digit. Qed.

Lemma digits_app d rest :
  str_forall (fun ch => bool_decide (is_Some (Ascii.is_nat ch))) d = true -> no_digit_head rest ->
  digits (d +:+ rest) = (d, rest).
Proof.
  intros Hd Hr. induction d as [|ch d IH].
  - change ("" +:+ rest) with rest. destruct rest as [|ch rest]; [done|]. cbn in *. by rewrite Hr.
  - cbn in Hd. apply andb_prop in Hd as [[n Hn]%bool_decide_eq_true Hd].
    change (String ch d +:+ rest) with (String ch (d +:+ rest)). cbn. by rewrite Hn, IH.
Qed.

Lemma digits_pretty (x : N) rest : no_digit_head rest -> digits (pretty x +:+ rest) = (pretty x, rest).
Proof. intros Hr. apply digits_app; [apply str_forall_pretty_N; by_digit|done]. Qed.

Lemma signed_to_string z rest :
  no_digit_head rest -> exists sign d,
    skip_spaces (to_string z +:+ rest) = to_string z +:+ rest /\
    signed (to_string z +:+ rest) = (sign, d, rest) /\ d <> "" /\
    (if bool_decide (sign = "-") then - Z.of_N (digits_val d) else Z.of_N (digits_val d)) = z.
Proof.
  intros Hr.
  assert (Hpos : forall x : N, exists sign d, skip_spaces (pretty x +:+ rest) = pretty x +:+ rest /\
    signed (pretty x +:+ rest) = (sign, d, rest) /\ d <> "" /\
    (if bool_decide (sign = "-") then - Z.of_N (digits_val d) else Z.of_N (digits_val d)) = Z.of_N x).
  { intros x. exists "", (pretty x). pose proof (digits_pretty x rest Hr) as Hd.
    destruct (pretty_N_cons x) as (d & s & Hlt & E). rewrite E in *.
    change (String (pretty_N_char d) s +:+ rest) with (String (pretty_N_char d) (s +:+ rest)) in *.
    destruct (skip_to_digits d (s +:+ rest) Hlt) as [Hs Hsg]. rewrite Hsg, Hd.
    split_and!; try done. rewrite bool_decide_false by done. rewrite <- E, <- (str_app_nil_r (pretty x)).
    by rewrite digits_val_pretty. }
  unfold to_string, pretty, pretty_Z. destruct z as [|n|n].
  - destruct (Hpos 0%N) as (sign & d & ? & ? & ? & ?). by exists sign, d.
  - destruct (Hpos (N.pos n)) as (sign & d & ? & ? & ? & ?). by exists sign, d.
  - exists "-", (pretty (N.pos n)).
    change (("-" +:+ pretty n) +:+ rest) with (String "-" (pretty (N.pos n) +:+ rest)).
    split; [done|]. split; [cbn [signed]; by rewrite digits_pretty|]. split.
    + destruct (pretty_N_cons (N.pos n)) as (? & ? & _ & ->). done.
    + rewrite bool_decide_true by done. rewrite <- (str_app_nil_r (pretty (N.pos n))).
      by rewrite digits_val_pretty.
Qed.

Lemma split_line_ok line rest :
  str_forall (fun ch => negb (bool_decide (ch = "010"%char))) line = true ->
  split_line (line +:+ newline +:+ rest) = (line, rest, true).
Proof.
  induction line as [|ch line IH]; [done|]. intros [Hc Hl]%andb_prop.
  change (String ch line +:+ ?t) with (String ch (line +:+ t)).
  assert (Hne : ch <> "010"%char) by (intros ->; by rewrite bool_decide_true in Hc).
  assert (E : split_line (String ch (line +:+ newline +:+ rest)) =
    let '(l, left_over, found) := split_line (line +:+ newline +:+ rest) in (String ch l, left_over, found)).
  { destruct ch as [[] [] [] [] [] [] [] []]; try reflexivity; by destruct Hne. }
  rewrite E. by rewrite IH.
Qed.

(** *** Steps on a stream that is good *)

Definition at_text (text : string) c : Prop := good c = true /\ cin c = text.

Lemma getline_ok c line rest :
  at_text (line +:+ newline +:+ rest) c ->
  str_forall (fun ch => negb (bool_decide (ch = "010"%char))) line = true ->
  getline c = (Val line, set_cin rest false false c).
Proof. intros [Hg Hi] Hl. unfold getline. by rewrite Hg, Hi, split_line_ok. Qed.

Lemma read_int_ok c v rest :
  at_text (to_string v +:+ newline +:+ rest) c -> INT_MIN <= v <= INT_MAX ->
  read_int c = (Val (Some v), set_cin (newline +:+ rest) false false c).
Proof.
  intros [Hg Hi] Hv. unfold read_int. rewrite Hg, Hi.
  destruct (signed_to_string v (newline +:+ rest) eq_refl) as (sign & d & Hs & Hd & Hne & Hval).
  rewrite Hs. destruct (to_string v +:+ newline +:+ rest) eqn:E; [by destruct (to_string v)|].
  rewrite Hd. rewrite !bool_decide_false by done. cbv zeta. rewrite Hval.
  destruct (Z.ltb_spec v INT_MIN); [lia|]. by destruct (Z.ltb_spec INT_MAX v); [lia|].
Qed.

Context {TL : TransportLaws Net}.

Lemma call_transport t msg c :
  named_type t = true -> call_fits (server_ c) msg ->
  total (call t msg) c (fun _ c' => calls (network_ c') = calls (network_ c) ++ [(t, server_ c, msg)] /\
    c' = set_network (network_ c') c).
Proof.
  intros Ht Hf. unfold call. apply total_gets. unfold total, zoom.
  destruct (call_ok t (server_ c) msg (network_ c) Ht Hf) as (n & -> & Hn). do 2 eexists. split; [done|]. done.
Qed.

(** A command that was typed, perhaps behind the end of the line before it. *)
Lemma round_ok cmd text c :
  (at_text (typed cmd +:+ text) c \/ at_text (newline +:+ typed cmd +:+ text) c) -> typable (server_ c) cmd ->
  total round c (fun _ c' => (at_text text c' \/ at_text (newline +:+ text) c') /\
    calls (network_ c') = calls (network_ c) ++ [call_of (server_ c) cmd] /\ server_ c' = server_ c).
Proof.
  intros Hat [Hty Hfit]. unfold round. eapply total_step; [done|].
  set (rest := match cmd with Apply key v => key +:+ newline +:+ to_string v +:+ newline +:+ text
                            | Query key => key +:+ newline +:+ text end).
  set (ch := match cmd with Apply _ _ => "a"%char | Query _ => "q"%char end).
  match goal with |- total _ ?c1 _ => set (c1' := c1) end.
  assert (Er : read_char c1' = (Val (Some ch), set_cin (newline +:+ rest) false false c1')).
  { unfold read_char. change (good c1') with (good c). change (cin c1') with (cin c).
    assert (Hs : skip_spaces (cin c) = String ch (newline +:+ rest)).
    { unfold ch, rest. destruct Hat as [[_ ->]|[_ ->]]; destruct cmd; cbn [typed]; by rewrite !str_app_assoc. }
    destruct Hat as [[-> _]|[-> _]]; by rewrite Hs. }
  eapply total_step; [exact Er|]. eapply total_step; [done|].
  set (c2 := set_cin rest false false _).
  unfold ch, rest in *. destruct cmd as [key v|key]; cbn [bool_decide].
  - destruct Hty as [Hk Hv]. rewrite bool_decide_true by done. unfold apply_to_server.
    eapply total_step; [done|].
    eapply total_step; [apply (getline_ok _ key (to_string v +:+ newline +:+ text)); [by split|done]|].
    eapply total_step; [done|].
    eapply total_step; [apply (read_int_ok _ v text); [by split|done]|].
    eapply total_mono; [apply call_transport; [done|exact Hfit]|].
    intros [] c' [Hc' ->]. cbn in *. rewrite Hc'. split_and!; [|done|done]. by right.
  - rewrite bool_decide_false, bool_decide_true by done. unfold query_from_server.
    eapply total_step; [done|].
    eapply total_step; [apply (getline_ok _ key text); [by split|done]|].
    eapply total_mono; [apply call_transport; [done|exact Hfit]|].
    intros [] c' [Hc' ->]. cbn in *. rewrite Hc'. split_and!; [|done|done]. by left.
Qed.

Lemma session_ok cmds c :
  (at_text (session cmds) c \/ at_text (newline +:+ session cmds) c) -> Forall (typable (server_ c)) cmds ->
  total (rounds (length cmds)) c (fun _ c' =>
    calls (network_ c') = calls (network_ c) ++ map (call_of (server_ c)) cmds).
Proof.
  intros Hat Hty. revert c Hat Hty. induction cmds as [|cmd cmds IH]; intros c Hat Hty; cbn [length rounds].
  { apply total_ret. by rewrite app_nil_r. }
  apply Forall_cons in Hty as [Hcmd Hty]. eapply total_bind; [by apply (round_ok cmd (session cmds))|].
  intros [] c1 (Hat1 & Hc1 & Hs1). rewrite <- Hs1 in Hty. eapply total_mono; [by apply IH|].
  intros [] c2 H. cbn [map]. by rewrite H, Hc1, Hs1, <- app_assoc.
Qed.

(** C26: what the user types is what is sent.  A client that starts with the text
    of a session on its standard input makes, in one round of its loop for each
    command, exactly the calls the commands ask for, in order and to its server:
    the keys arrive with their blanks, the numbers with their sign, and no
    command is lost to the newlines the formatted input leaves behind. *)
Theorem session_sends server n cmds :
  Forall (typable server) cmds ->
  total (rounds (length cmds)) (new server n (session cmds)) (fun _ c' =>
    calls (network_ c') = calls n ++ map (call_of server) cmds).
Proof. intros Hty. apply (session_ok cmds (new server n (session cmds))); [by left; split|done]. Qed.
End client.

(** ** Witness *)

Module Witness.
Import Reference ReferenceCodecs ReferenceInterfaces.
#[local] Existing Instance EasyStateMachine.easy_state_machine.

Definition server : server_addr := ("127.0.0.1", 7001).
Definition cmds : list command := [Apply " two words" (-42); Query "x"; Apply "" 7].
Lemma cmds_typable : Forall (typable (SM := gmap string Z) server) cmds.
Proof. repeat constructor; vm_compute; congruence. Qed.

Lemma session_sends_witness :
  total (rounds (SM := gmap string Z) 3) (new server ([] : list (RPC_TYPE * server_addr * string)) (session cmds))
    (fun _ c' => map (fun '(t, a, m) => (t, a)) (calls (network_ c'))
       = [(CLIENT_APPLY, server); (CLIENT_QUERY, server); (CLIENT_APPLY, server)]).
Proof.
  eapply total_mono; [exact (session_sends (SM := gmap string Z) server [] cmds cmds_typable)|].
  intros [] c' E. rewrite E. reflexivity.
Defined.

(** At the end of the input the loop compares a character that was never read. *)
Lemma end_of_input :
  fst (rounds (SM := gmap string Z) 1 (new server ([] : list (RPC_TYPE * server_addr * string)) ""))
  = Undef "c is read uninitialised".
Proof. reflexivity. Qed.
End Witness.
End Client.
