(* ===== verification/Data.v ===== *)
(** entry/data.h and entry/data.cpp: the file that holds the serialized
    entries.  A computation of this component runs on the object and the disk. *)

From S2P Require Import Prelude CxxString Platform Util.

(** The descriptor stands for its path; the kernel keeps its position. *)
Record data := { file_fd_ : string; fd_pos : Z }.

Definition set_pos (p : Z) (x : data) : data := {| file_fd_ := file_fd_ x; fd_pos := p |}.

Definition file_content (d : disk) (path : string) : string := default "" (d !! path).

(** The effect of [write] of the bytes [s] at position [pos] and of
    [ftruncate(n)] on a file's content. *)
Definition write_at (pos : nat) (s f : string) : string :=
  str_take pos (f +:+ zeros (pos - String.length f)) +:+ s +:+
  str_drop (pos + String.length s) f.
Definition truncate_to (n : nat) (f : string) : string :=
  str_take n (f +:+ zeros (n - String.length f)).

Section data.
Context {P : Posix}.

Definition lseek (offset : Z) : M (data * disk) unit := modify (fun '(x, d) =>
  if offset <? 0 then (x, d) else (set_pos offset x, d)).

(** Returns [n_write]. *)
Definition sys_write (s : string) : M (data * disk) Z := fun '(x, d) =>
  let n := Z.min (write_count (file_fd_ x) (fd_pos x) s) (slen s) in
  if n <? 0 then (Val n, (x, d))
  else let written := str_take (Z.to_nat n) s in
       (Val n, (set_pos (fd_pos x + n) x,
                <[file_fd_ x := write_at (Z.to_nat (fd_pos x)) written
                                  (file_content d (file_fd_ x))]> d)).

(** A negative length is refused with [EINVAL], which nobody looks at. *)
Definition sys_ftruncate (len : Z) : M (data * disk) unit := modify (fun '(x, d) =>
  if 2 ^ 63 <=? len then (x, d)
  else (x, <[file_fd_ x := truncate_to (Z.to_nat len) (file_content d (file_fd_ x))]> d)).

(** [data::data(const string &path)] *)
Definition data_new (path : string) : M disk data := fun d =>
  if negb (file_exists d path) then
    if negb (open_ok d path) then
      throw_line "entry/data.cpp" 31 "文件不存在，但是创建出错" d
    else (Val {| file_fd_ := path; fd_pos := 0 |}, <[path := ""]> d)
  else
    if negb (open_ok d path) then
      throw_line "entry/data.cpp" 38 "文件存在，打开文件出错" d
    else (Val {| file_fd_ := path; fd_pos := 0 |}, d).

Definition sys_read (len : Z) : M (data * disk) string := fun '(x, d) =>
  let n := Z.min (read_count (file_fd_ x) (fd_pos x) len) len in
  let got := str_take (Z.to_nat n) (str_drop (Z.to_nat (fd_pos x)) (file_content d (file_fd_ x))) in
  (Val got, (set_pos (fd_pos x + slen got) x, d)).

Definition read_from_offset (offset len : Z) : M (data * disk) string :=
  lseek offset ;;
  if len <? 0 then throw (std_exception "std::length_error")
  else
    let! got := sys_read len in
    ret (got +:+ zeros (Z.to_nat len - String.length got)).

(** [write_from_offset], as the sequence of its system calls: a process can die
    between any two of them. *)
Definition write_steps (offset : Z) (s : string) : list (M (data * disk) unit) :=
  [ lseek offset;
    (let! n_write := sys_write s in
     if n_write <? 0 then exit 1 else ret tt);
    sys_ftruncate (u64 (u64 offset + slen s)) ].
Definition write_from_offset (offset : Z) (s : string) : M (data * disk) unit :=
  for_each (write_steps offset s) (fun call => call).
End data.

(** ** Properties on a healthy file system *)

Lemma write_truncate pos s f :
  (pos <= String.length f)%nat ->
  truncate_to (pos + String.length s) (write_at pos s f) = str_take pos f +:+ s.
Proof.
  intros Hpos. unfold truncate_to, write_at.
  replace (pos - String.length f)%nat with 0%nat by lia. cbn [zeros].
  rewrite str_app_nil_r, !str_app_assoc.
  assert (Ht : String.length (str_take pos f) = pos) by (rewrite length_str_take; lia).
  rewrite <- Ht at 1. rewrite str_take_add, str_take_app. done.
Qed.

Section healthy.
Context {P : Posix} {PH : PosixHealthy}.

(** The three calls of [write_from_offset] at an offset inside the file. *)
Lemma write_steps_spec offset s x d f :
  d !! file_fd_ x = Some f -> 0 <= offset <= slen f -> offset + slen s < 2 ^ 63 ->
  let x' := set_pos (offset + slen s) x in
  runs (write_steps offset s) (x, d)
    [ (set_pos offset x, d);
      (x', <[file_fd_ x := write_at (Z.to_nat offset) s f]> d);
      (x', <[file_fd_ x := str_take (Z.to_nat offset) f +:+ s]> d) ].
Proof.
  intros Hf Ho Hs x'. pose proof (slen_nonneg s) as Hs0.
  unfold write_steps, runs, lseek, sys_write, sys_ftruncate, bind, modify, ret, file_content.
  destruct (Z.ltb_spec offset 0); [lia|]. cbn [file_fd_ fd_pos set_pos]. split; [done|].
  rewrite write_complete, Z.min_id. destruct (Z.ltb_spec (slen s) 0); [lia|].
  destruct (Z.ltb_spec (slen s) 0); [lia|]. rewrite Hf. cbn [from_option id].
  rewrite (str_take_ge (Z.to_nat (slen s))) by (unfold slen; lia). split; [done|].
  rewrite !u64_id by (rewrite ?u64_id; lia).
  destruct (Z.leb_spec (2 ^ 63) (offset + slen s)); [lia|]. cbn [x' file_fd_ set_pos].
  rewrite lookup_insert_eq, insert_insert_eq. cbn [from_option id].
  replace (Z.to_nat (offset + slen s)) with (Z.to_nat offset + String.length s)%nat
    by (unfold slen; lia).
  rewrite write_truncate by (unfold slen in Ho; lia). done.
Qed.

(** Writing at an offset inside the file keeps what is before it, stores the
    bytes and drops what was behind. *)
Lemma write_from_offset_spec offset s x d f :
  d !! file_fd_ x = Some f -> 0 <= offset <= slen f -> offset + slen s < 2 ^ 63 ->
  exists x',
    file_fd_ x' = file_fd_ x /\
    write_from_offset offset s (x, d) =
      (Val tt, (x', <[file_fd_ x := str_take (Z.to_nat offset) f +:+ s]> d)).
Proof.
  intros Hf Ho Hs. exists (set_pos (offset + slen s) x). split; [done|].
  exact (runs_all _ _ _ (write_steps_spec offset s x d f Hf Ho Hs)).
Qed.

(** Reading inside the file returns its bytes. *)
Lemma read_from_offset_spec (x : data) (d : disk) pre s post :
  d !! file_fd_ x = Some (pre +:+ s +:+ post) ->
  exists x',
    file_fd_ x' = file_fd_ x /\
    read_from_offset (slen pre) (slen s) (x, d) = (Val s, (x', d)).
Proof.
  intros Hf. pose proof (slen_nonneg s) as Hs. pose proof (slen_nonneg pre).
  exists (set_pos (slen pre + slen s) x). split; [done|].
  unfold read_from_offset, lseek, sys_read, bind, modify, ret, file_content.
  destruct (Z.ltb_spec (slen pre) 0); [lia|]. cbn [file_fd_ fd_pos set_pos].
  destruct (Z.ltb_spec (slen s) 0); [lia|].
  rewrite read_complete, Z.min_id. cbn [file_fd_ set_pos fd_pos]. rewrite Hf. cbn [from_option id].
  unfold slen. rewrite !Nat2Z.id, str_drop_app, str_take_app, Nat.sub_diag. cbn [zeros].
  by rewrite str_app_nil_r.
Qed.

Lemma data_new_spec path (d : disk) :
  exists d', data_new path d = (Val {| file_fd_ := path; fd_pos := 0 |}, d') /\
    d' = (match d !! path with Some _ => d | None => <[path := ""]> d end).
Proof.
  unfold data_new, file_exists. rewrite fopen_exists, !open_works. cbn [negb].
  destruct (d !! path).
  - rewrite bool_decide_true by eauto. cbn. eauto.
  - rewrite bool_decide_false by (by intros [? ?]). cbn. eauto.
Qed.
End healthy.
