(* ===== verification/Entry.v ===== *)
(** entry/entry.h and entry/entry.cpp: the replicated log as the class
    [Entries] keeps it, in memory and in two files.  The file
    [entry_data.raft.<port>] holds the serialized entries one after the other,
    [entry_offset.raft.<port>] the archived vector of their offsets.

    A computation runs on the object and the disk.  The contract is stated with
    [log], the list of entries the object stands for: [insert i] truncates the
    log at [i] and appends, and a restart on the same disk gets the log back.
    [insert] is the sequence of its statements ([insert_steps]), so that a process can
    also be taken to die after any of them ([insert_upto]): [append_crash_safe]. *)

From S2P Require Import Prelude CxxString Platform Messages Util Data.

Module Entries.

(** consts.h *)
Definition base : string := "/Users/ynx/CLionProjects/raft/data".
Definition const_offset_path : string := base +:+ "/entry_offset.raft".
Definition const_data_path : string := base +:+ "/entry_data.raft".

Record Entries := {
  data_ : data;
  entries_ : list rpc_Entry;
  offset_ : list Z;
  size_ : Z;
  path_offset_ : string;
}.

Definition set_data_ x (e : Entries) : Entries := {| data_ := x; entries_ := entries_ e;
  offset_ := offset_ e; size_ := size_ e; path_offset_ := path_offset_ e |}.
Definition set_entries_ x (e : Entries) : Entries := {| data_ := data_ e; entries_ := x;
  offset_ := offset_ e; size_ := size_ e; path_offset_ := path_offset_ e |}.
Definition set_offset_ x (e : Entries) : Entries := {| data_ := data_ e; entries_ := entries_ e;
  offset_ := x; size_ := size_ e; path_offset_ := path_offset_ e |}.
Definition set_size_ x (e : Entries) : Entries := {| data_ := data_ e; entries_ := entries_ e;
  offset_ := offset_ e; size_ := x; path_offset_ := path_offset_ e |}.

Section entries.
Context {P : Posix} {BA : BinaryArchive} {CE : Codec rpc_Entry}.

Abbreviation ME := (M (Entries * disk)).

Definition this {A} (f : Entries -> A) : ME A := gets (fun s => f (fst s)).
Definition update (f : Entries -> Entries) : ME unit := modify (fun '(e, d) => (f e, d)).
Definition on_data {A} (m : M (data * disk) A) : ME A :=
  zoom (fun '(e, d) => (data_ e, d)) (fun '(x, d) '(e, _) => (set_data_ x e, d)) m.

Definition vec_size {A} (l : list A) : Z := Z.of_nat (length l).

Definition size : ME Z := this size_.

Definition get (index : Z) : ME rpc_Entry :=
  let! size_ := this size_ in
  if size_ <=? index then
    throw_line "entry/entry.cpp" 85 ("the etries's size is " +:+ to_string size_ +:+
      ", the get index is " +:+ to_string index +:+ ", which is bigger")
  else
    let! entries_ := this entries_ in
    vec_at entries_ index.

(** [index] is an [int] compared with a [size_t]. *)
Definition get_offset (index : Z) : ME Z :=
  let! offset_ := this offset_ in
  if vec_size offset_ <=? u64 index then
    let! size_ := this size_ in
    throw_line "entry/entry.cpp" 146 ("trying to get the " +:+ to_string index +:+
      "th offset, there are " +:+ to_string size_ +:+ " entries in entries")
  else vec_at offset_ index.

Definition modify_offset_vector_after_insert (index : Z) (entry_str : string) : ME unit :=
  let! offset_ := this offset_ in
  if u64 index =? u64 (vec_size offset_ - 1) then
    let! o := vec_at offset_ index in
    update (set_offset_ (offset_ ++ [u32 (o + slen entry_str)]))
  else if u64 index <? u64 (vec_size offset_ - 1) then
    let! o := vec_at offset_ index in
    update (set_offset_ (firstn (Z.to_nat (index + 2))
               (<[Z.to_nat (index + 1) := u32 (o + slen entry_str)]> offset_)))
  else
    let! size_ := this size_ in
    throw_line "entry/entry.cpp" 137 ("trying to modify offset with index " +:+ to_string index +:+
      " but there are only " +:+ to_string size_ +:+ " offsets").

(** Opening the file truncates it; an archive on a file that did not open throws.
    The bytes reach the file when [os] is destroyed. *)
Definition open_offset_file : ME unit := fun '(e, d) =>
  if open_ok d (path_offset_ e) then (Val tt, (e, <[path_offset_ e := ""]> d))
  else throw (std_exception "output stream error") (e, d).
Definition flush_offset_file : ME unit := fun '(e, d) =>
  (Val tt, (e, <[path_offset_ e := oarchive (offset_ e)]> d)).

(** [entries_[index] = entry] *)
Definition set_entry (index : Z) (entry : rpc_Entry) : ME unit :=
  let! entries_ := this entries_ in
  if index <? vec_size entries_ then update (set_entries_ (<[Z.to_nat index := entry]> entries_))
  else ub "vector index out of range".

(** [index] is [unsigned]; [size_] is converted for the comparisons.  The
    statements of [insert] behind its guard, in their order, those that write a
    file as the sequence of their calls: [write_from_offset], the vector of
    offsets, [write_offset_to_file], the vector of entries and the size. *)
Definition store_entry (index : Z) (entry : rpc_Entry) : ME unit :=
  let! size_ := this size_ in
  if index =? u32 size_ then
    let! entries_ := this entries_ in
    if vec_size entries_ =? index then update (set_entries_ (entries_ ++ [entry]))
    else set_entry index entry
  else if index <? u32 size_ then set_entry index entry
  else throw_line "entry/entry.cpp" 122 ("insert error, size_ is " +:+ to_string size_ +:+
         ", index is " +:+ to_string index).
Definition insert_steps (index offset_insert : Z) (entry : rpc_Entry) : list (ME unit) :=
  let entry_string := SerializeToString entry in
  map on_data (write_steps (to_int offset_insert) entry_string) ++
  [ modify_offset_vector_after_insert (to_int index) entry_string;
    open_offset_file;
    flush_offset_file;
    store_entry index entry;
    update (set_size_ (to_int (u32 (index + 1)))) ].

(** [insert], and the [insert] of a process that dies after [n] of these calls. *)
Definition insert_cut (cut : list (ME unit) -> list (ME unit)) (index : Z) (entry : rpc_Entry) : ME unit :=
  let! size_ := this size_ in
  if u32 size_ <? index then
    throw_line "entry/entry.cpp" 97 ("the etries's size is " +:+ to_string size_ +:+
      ", the insert index is " +:+ to_string index +:+ ", which is bigger")
  else
    let! offset_insert := get_offset (to_int index) in
    for_each (cut (insert_steps index offset_insert entry)) (fun step => step).
Definition insert : Z -> rpc_Entry -> ME unit := insert_cut (fun steps => steps).
Definition insert_upto (n : nat) : Z -> rpc_Entry -> ME unit := insert_cut (firstn n).

(** The loop of the constructor, for the [n] entries from the [i]-th on. *)
Fixpoint load_entries (n : nat) (i : Z) : ME unit :=
  match n with
  | O => ret tt
  | S n' =>
      let! offset_ := this offset_ in
      let! head := vec_at offset_ i in
      let! tail := vec_at offset_ (i + 1) in
      let entry_head := to_int head in
      let entry_tail := to_int tail in
      let! len := int_sub entry_tail entry_head in
      let! data := on_data (read_from_offset entry_head len) in
      let entry := ParseFromString data in
      let! entries_ := this entries_ in
      update (set_entries_ (entries_ ++ [entry])) ;;
      load_entries n' (i + 1)
  end.

Definition data_path (port : Z) : string := const_data_path +:+ "." +:+ to_string port.
Definition offset_path (port : Z) : string := const_offset_path +:+ "." +:+ to_string port.

(** The vector of offsets the constructor starts from. *)
Definition load_offsets (port : Z) : M disk (list Z) := fun d =>
  if negb (file_exists d (offset_path port)) then (Val [0], d)
  else match iarchive (file_content d (offset_path port)) with
       | Some l => (Val l, d)
       | None => throw (std_exception "input stream error") d
       end.

(** [Entries::Entries(int port)]; a negative [size_] is a length error in
    [reserve]. *)
Definition new (port : Z) : M disk Entries :=
  let! data_ := data_new (data_path port) in
  let! offset_ := load_offsets port in
  let size_ := to_int (u64 (vec_size offset_ - 1)) in
  if size_ <? 0 then throw (std_exception "std::length_error")
  else fun d =>
    let e := {| data_ := data_; entries_ := []; offset_ := offset_; size_ := size_;
                path_offset_ := offset_path port |} in
    let '(r, (e', d')) := load_entries (Z.to_nat size_) 0 (e, d) in
    match r with
    | Val _ => (Val e', d')
    | Exn ex => (Exn ex, d')
    | Exited c => (Exited c, d')
    | Undef w => (Undef w, d')
    end.

(** ** The log an object stands for, and the files that store a log *)

Definition log (e : Entries) : list rpc_Entry := firstn (Z.to_nat (size_ e)) (entries_ e).

Fixpoint offsets (b : Z) (l : list rpc_Entry) : list Z :=
  b :: match l with
       | [] => []
       | x :: l' => offsets (b + slen (SerializeToString x)) l'
       end.
Fixpoint bytes (l : list rpc_Entry) : string :=
  match l with [] => "" | x :: l' => SerializeToString x +:+ bytes l' end.

(** The specification of [insert]: truncate and append. *)
Definition log_insert (i : Z) (x : rpc_Entry) (l : list rpc_Entry) : list rpc_Entry :=
  firstn (Z.to_nat i) l ++ [x].

(** The files hold the log: the data file begins with its bytes, the offset
    file has its offsets, or does not exist yet and the log is empty. *)
Record stored (d : disk) (data_file offset_file : string) (l : list rpc_Entry) : Prop := {
  stored_bytes : exists junk, d !! data_file = Some (bytes l +:+ junk);
  stored_offsets : d !! offset_file = Some (oarchive (offsets 0 l)) \/
                   (d !! offset_file = None /\ l = []);
  stored_small : slen (bytes l) <= INT_MAX /\ Z.of_nat (length l) < INT_MAX;
}.

Record wf (s : Entries * disk) : Prop := {
  wf_size : 0 <= size_ (fst s) <= vec_size (entries_ (fst s));
  wf_offset : offset_ (fst s) = offsets 0 (log (fst s));
  wf_stored : stored (snd s) (file_fd_ (data_ (fst s))) (path_offset_ (fst s)) (log (fst s));
  wf_files : file_fd_ (data_ (fst s)) <> path_offset_ (fst s);
}.

(** A run of inserts, and what it does to the log. *)
Definition inserts (ops : list (Z * rpc_Entry)) : ME unit :=
  for_each ops (fun '(i, x) => insert i x).
Definition log_inserts (ops : list (Z * rpc_Entry)) (l : list rpc_Entry) : list rpc_Entry :=
  fold_left (fun l '(i, x) => log_insert i x l) ops l.

(** Each insert is at an index of the log or just behind it, and the log's
    length and bytes stay within [int]. *)
Fixpoint valid_inserts (ops : list (Z * rpc_Entry)) (l : list rpc_Entry) : Prop :=
  match ops with
  | [] => True
  | (i, x) :: ops' =>
      0 <= i <= Z.of_nat (length l) /\ i + 1 < INT_MAX /\
      slen (bytes (log_insert i x l)) <= INT_MAX /\ wireable x = true /\
      valid_inserts ops' (log_insert i x l)
  end.

Definition boot_disk (port : Z) (d : disk) : disk :=
  match d !! data_path port with Some _ => d | None => <[data_path port := ""]> d end.
End entries.


(** ** Offsets and bytes of a log *)

Section offsets.
Context {CE : Codec rpc_Entry}.
Implicit Types (l : list rpc_Entry) (x : rpc_Entry).

Lemma length_offsets b l : length (offsets b l) = S (length l).
Proof. revert b. induction l; intros b; cbn; auto. Qed.

Lemma bytes_app l1 l2 : bytes (l1 ++ l2) = bytes l1 +:+ bytes l2.
Proof. induction l1 as [|x l1 IH]; cbn; [done|]. by rewrite IH, str_app_assoc. Qed.

Lemma lookup_offsets b l i :
  (i <= length l)%nat -> offsets b l !! i = Some (b + slen (bytes (firstn i l))).
Proof.
  revert b i. induction l as [|x l IH]; intros b i Hi.
  - replace i with 0%nat by (cbn in Hi; lia). cbn. f_equal. unfold slen. cbn. lia.
  - destruct i as [|i]; cbn; [f_equal; unfold slen; cbn; lia|].
    cbn in Hi. rewrite IH by lia. rewrite slen_app. f_equal. lia.
Qed.

Lemma firstn_offsets b l i :
  (i <= length l)%nat -> firstn (S i) (offsets b l) = offsets b (firstn i l).
Proof.
  revert b i. induction l as [|x l IH]; intros b i Hi.
  - replace i with 0%nat by (cbn in Hi; lia). done.
  - destruct i as [|i]; [done|]. cbn in Hi. cbn [offsets firstn]. f_equal. apply IH. lia.
Qed.

Lemma offsets_snoc b l x :
  offsets b (l ++ [x]) = offsets b l ++ [b + slen (bytes l) + slen (SerializeToString x)].
Proof.
  revert b. induction l as [|y l IH]; intros b; cbn.
  - do 2 f_equal. unfold slen. cbn. lia.
  - rewrite IH, slen_app. do 3 f_equal. lia.
Qed.

Lemma bytes_snoc l x : bytes (l ++ [x]) = bytes l +:+ SerializeToString x.
Proof. rewrite bytes_app. cbn. by rewrite str_app_nil_r. Qed.

Lemma bytes_take_drop i l : bytes l = bytes (firstn i l) +:+ bytes (skipn i l).
Proof. rewrite <- bytes_app. by rewrite take_drop. Qed.

Lemma slen_bytes_firstn i l : slen (bytes (firstn i l)) <= slen (bytes l).
Proof. rewrite (bytes_take_drop i l), slen_app. pose proof (slen_nonneg (bytes (skipn i l))). lia. Qed.

Lemma offsets_log_insert i x l :
  0 <= i <= Z.of_nat (length l) ->
  offsets 0 (log_insert i x l) =
    firstn (Z.to_nat (i + 1)) (offsets 0 l)
      ++ [slen (bytes (firstn (Z.to_nat i) l)) + slen (SerializeToString x)].
Proof.
  intros Hi. unfold log_insert. rewrite offsets_snoc.
  replace (Z.to_nat (i + 1)) with (S (Z.to_nat i)) by lia.
  by rewrite firstn_offsets by lia.
Qed.

Lemma bytes_log_insert i x l :
  bytes (log_insert i x l) = bytes (firstn (Z.to_nat i) l) +:+ SerializeToString x.
Proof. apply bytes_snoc. Qed.

Lemma length_log_insert i x l :
  0 <= i <= Z.of_nat (length l) -> Z.of_nat (length (log_insert i x l)) = i + 1.
Proof. intros Hi. unfold log_insert. rewrite length_app, length_take. cbn. lia. Qed.
End offsets.

Lemma take_insert_snoc {A} (l : list A) n v :
  (n < length l)%nat -> firstn (S n) (<[n := v]> l) = firstn n l ++ [v].
Proof.
  intros Hn. rewrite (take_S_r _ _ v) by (apply list_lookup_insert_eq; lia).
  by rewrite take_insert_ge by lia.
Qed.

(** ** Steps of the operations *)

Section steps.
Context {P : Posix} {BA : BinaryArchive} {CE : Codec rpc_Entry}.

Lemma this_entries_val {A} (f : Entries -> A) s : this f s = (Val (f (fst s)), s).
Proof. done. Qed.

Lemma get_ok (e : Entries) (d : disk) i x :
  0 <= size_ e <= vec_size (entries_ e) -> 0 <= i -> log e !! Z.to_nat i = Some x ->
  get i (e, d) = (Val x, (e, d)).
Proof.
  intros Hs Hi Hx. unfold get. rewrite (bind_val _ _ _ _ _ (this_entries_val _ _)). cbn [fst].
  apply lookup_take_Some in Hx as [Hx Hlt]. destruct (Z.leb_spec (size_ e) i); [lia|].
  rewrite (bind_val _ _ _ _ _ (this_entries_val _ _)). by apply vec_at_ok.
Qed.

Lemma get_offset_ok (e : Entries) (d : disk) i :
  offset_ e = offsets 0 (log e) -> 0 <= i <= Z.of_nat (length (log e)) -> i <= INT_MAX ->
  get_offset i (e, d) = (Val (slen (bytes (firstn (Z.to_nat i) (log e)))), (e, d)).
Proof.
  intros Ho Hi Hm. unfold get_offset. rewrite (bind_val _ _ _ _ _ (this_entries_val _ _)). cbn [fst].
  unfold INT_MAX in Hm. rewrite u64_id by lia. unfold vec_size. rewrite Ho, length_offsets.
  destruct (Z.leb_spec (Z.of_nat (S (length (log e)))) i); [lia|].
  apply vec_at_ok; [lia|]. by rewrite lookup_offsets by lia.
Qed.

Lemma modify_offset_ok (e : Entries) (d : disk) i x :
  offset_ e = offsets 0 (log e) -> 0 <= i <= Z.of_nat (length (log e)) ->
  Z.of_nat (length (log e)) < INT_MAX ->
  slen (bytes (log_insert i x (log e))) <= INT_MAX ->
  modify_offset_vector_after_insert i (SerializeToString x) (e, d) =
    (Val tt, (set_offset_ (offsets 0 (log_insert i x (log e))) e, d)).
Proof.
  intros Ho Hi Hl Hb. unfold modify_offset_vector_after_insert.
  rewrite (bind_val _ _ _ _ _ (this_entries_val _ _)). cbn [fst].
  set (l := log e) in *. rewrite offsets_log_insert by lia.
  rewrite bytes_log_insert, slen_app in Hb. unfold INT_MAX in *.
  pose proof (slen_nonneg (bytes (firstn (Z.to_nat i) l))).
  pose proof (slen_nonneg (SerializeToString x)).
  assert (Hat : vec_at (offset_ e) i (e, d) = (Val (slen (bytes (firstn (Z.to_nat i) l))), (e, d))).
  { apply vec_at_ok; [lia|]. by rewrite Ho, lookup_offsets by lia. }
  unfold vec_size. rewrite Ho in Hat |- *. rewrite length_offsets, !u64_id by lia.
  destruct (Z.eqb_spec i (Z.of_nat (S (length l)) - 1)) as [Ei|Ni].
  - rewrite (bind_val _ _ _ _ _ Hat). unfold update, modify. rewrite u32_id by lia.
    rewrite (take_ge (offsets 0 l)) by (rewrite length_offsets; lia). done.
  - destruct (Z.ltb_spec i (Z.of_nat (S (length l)) - 1)); [|lia].
    rewrite (bind_val _ _ _ _ _ Hat). unfold update, modify. rewrite u32_id by lia.
    replace (Z.to_nat (i + 2)) with (S (Z.to_nat (i + 1))) by lia.
    rewrite take_insert_snoc by (rewrite length_offsets; lia). done.
Qed.
End steps.

(** ** Correctness of [insert] and of a restart *)

Section correctness.
Context {P : Posix} {PH : PosixHealthy} {BA : BinaryArchive} {BL : BinaryArchiveLaws}
  {CE : Codec rpc_Entry} {CL : CodecLaws rpc_Entry}.

Lemma length_log e : 0 <= size_ e <= vec_size (entries_ e) ->
  Z.of_nat (length (log e)) = size_ e.
Proof. unfold log, vec_size. rewrite length_take. lia. Qed.

Lemma str_take_bytes (l : list rpc_Entry) i junk :
  str_take (Z.to_nat (slen (bytes (firstn i l)))) (bytes l +:+ junk) = bytes (firstn i l).
Proof.
  rewrite (bytes_take_drop i l), str_app_assoc. unfold slen. by rewrite Nat2Z.id, str_take_app.
Qed.

Lemma runs_on_data steps (e : Entries) (d : disk) states :
  runs steps (data_ e, d) states ->
  runs (map on_data steps) (e, d) (map (fun '(x, d') => (set_data_ x e, d')) states).
Proof.
  assert (H : forall steps (x : data) (d : disk) states, runs steps (x, d) states ->
    runs (map on_data steps) (set_data_ x e, d) (map (fun '(x, d') => (set_data_ x e, d')) states)).
  { clear. induction steps as [|m steps IH]; intros x d [|[x' d'] states] Hr; try done.
    destruct Hr as [E Hr]. split; [|by apply IH]. unfold on_data, zoom. cbn [data_ set_data_]. by rewrite E. }
  intros Hr. specialize (H steps (data_ e) d states Hr). by destruct e.
Qed.

(** The vector after the entry at [i] was stored. *)
Lemma store_entry_ok (e : Entries) (d : disk) i x :
  0 <= i <= size_ e -> size_ e < INT_MAX -> size_ e <= vec_size (entries_ e) ->
  exists es, vec_size es = Z.max (i + 1) (vec_size (entries_ e)) /\
    firstn (Z.to_nat (i + 1)) es = log_insert i x (log e) /\
    store_entry i x (e, d) = (Val tt, (set_entries_ es e, d)).
Proof.
  intros Hi Hm Hs. unfold log_insert, log. rewrite take_take, Nat.min_l by lia.
  unfold store_entry. rewrite (bind_val _ _ _ _ _ (this_entries_val _ _)). cbn [fst].
  rewrite u32_id by (unfold INT_MAX in Hm; lia).
  replace (Z.to_nat (i + 1)) with (S (Z.to_nat i)) by lia.
  assert (Hset : i < vec_size (entries_ e) ->
    set_entry i x (e, d) = (Val tt, (set_entries_ (<[Z.to_nat i := x]> (entries_ e)) e, d))).
  { intros Hlt. unfold set_entry. rewrite (bind_val _ _ _ _ _ (this_entries_val _ _)). cbn [fst].
    by destruct (Z.ltb_spec i (vec_size (entries_ e))); [|lia]. }
  destruct (Z.eqb_spec i (vec_size (entries_ e))) as [Ei|Ni].
  - exists (entries_ e ++ [x]). unfold vec_size in *. rewrite length_app. cbn [length].
    split; [lia|]. split; [rewrite !take_ge by (rewrite ?length_app; cbn; lia); done|].
    destruct (Z.eqb_spec i (size_ e)); [|lia].
    rewrite (bind_val _ _ _ _ _ (this_entries_val _ _)). cbn [fst].
    by destruct (Z.eqb_spec (Z.of_nat (length (entries_ e))) i); [|lia].
  - exists (<[Z.to_nat i := x]> (entries_ e)).
    split; [unfold vec_size in *; rewrite length_insert; lia|].
    split; [apply take_insert_snoc; unfold vec_size in *; lia|].
    destruct (Z.eqb_spec i (size_ e)).
    + rewrite (bind_val _ _ _ _ _ (this_entries_val _ _)). cbn [fst].
      destruct (Z.eqb_spec (vec_size (entries_ e)) i); [lia|]. apply Hset. lia.
    + destruct (Z.ltb_spec i (size_ e)); [|lia]. apply Hset. lia.
Qed.

(** The states an insert passes through, call by call. *)
Lemma insert_runs (e : Entries) (d : disk) i x :
  wf (e, d) -> 0 <= i <= size_ e -> i + 1 < INT_MAX ->
  slen (bytes (log_insert i x (log e))) <= INT_MAX ->
  let l' := log_insert i x (log e) in
  let n := slen (bytes (firstn (Z.to_nat i) (log e))) in
  exists e1 e2 es f,
    d !! file_fd_ (data_ e) = Some f /\
    file_fd_ (data_ e2) = file_fd_ (data_ e) /\ path_offset_ e2 = path_offset_ e /\
    firstn (Z.to_nat (i + 1)) es = l' /\ i < vec_size es /\
    let d2 := <[file_fd_ (data_ e) := write_at (Z.to_nat n) (SerializeToString x) f]> d in
    let d3 := <[file_fd_ (data_ e) := bytes l']> d in
    let d6 := <[path_offset_ e := oarchive (offsets 0 l')]> d3 in
    let e4 := set_offset_ (offsets 0 l') e2 in
    runs (insert_steps i n x) (e, d)
      [ (e1, d); (e2, d2); (e2, d3); (e4, d3); (e4, <[path_offset_ e := ""]> d3); (e4, d6);
        (set_entries_ es e4, d6); (set_size_ (i + 1) (set_entries_ es e4), d6) ].
Proof.
  intros Hwf Hi Hm Hb l' n. pose proof Hwf as [Hs Ho [[junk Hf] _ [Hb0 Hl]] Hp]. cbn [fst snd] in *.
  pose proof (length_log e Hs) as Hlen. unfold INT_MAX in *.
  pose proof Hb as Hx. rewrite bytes_log_insert, slen_app in Hx.
  pose proof (slen_bytes_firstn (Z.to_nat i) (log e)).
  pose proof (slen_nonneg (bytes (firstn (Z.to_nat i) (log e)))).
  pose proof (slen_nonneg (SerializeToString x)). pose proof (slen_nonneg junk). fold n in H, H0, Hx.
  pose proof (write_steps_spec n (SerializeToString x) (data_ e) d _ Hf ltac:(rewrite slen_app; lia) ltac:(lia)) as Hw.
  apply (runs_on_data _ e d) in Hw. cbn [map] in Hw.
  assert (Et : str_take (Z.to_nat n) (bytes (log e) +:+ junk) = bytes (firstn (Z.to_nat i) (log e))) by apply str_take_bytes.
  rewrite Et, <- bytes_log_insert in Hw.
  set (e2 := set_data_ (set_pos (n + slen (SerializeToString x)) (data_ e)) e) in *.
  fold l' in Hw. set (d3 := <[file_fd_ (data_ e) := bytes l']> d) in *.
  set (e4 := set_offset_ (offsets 0 l') e2).
  set (d6 := <[path_offset_ e := oarchive (offsets 0 l')]> d3).
  destruct (store_entry_ok e4 d6 i x Hi ltac:(unfold INT_MAX; cbn; lia) ltac:(cbn; lia)) as (es & Hes & Hlog & Est).
  exists (set_data_ (set_pos n (data_ e)) e), e2, es, (bytes (log e) +:+ junk).
  split; [done|]. split; [done|]. split; [done|]. split; [exact Hlog|].
  split; [lia|]. cbv zeta. fold d3 d6.
  unfold insert_steps. rewrite to_int_id by (unfold INT_MIN, INT_MAX; lia).
  apply (runs_app _ _ _ _ _ Hw). cbn [List.last runs].
  rewrite to_int_id by (unfold INT_MIN, INT_MAX; lia).
  split; [exact (modify_offset_ok e2 d3 i x Ho ltac:(change (log e2) with (log e); lia)
    ltac:(change (log e2) with (log e); unfold INT_MAX; lia) Hb)|].
  split; [unfold open_offset_file; by rewrite open_works|].
  split; [unfold flush_offset_file; by rewrite insert_insert_eq|]. split; [exact Est|]. split; [|done].
  unfold update, modify. by rewrite u32_id, to_int_id by (unfold INT_MIN, INT_MAX; lia).
Qed.

Lemma insert_cut_ok cut (e : Entries) (d : disk) i x :
  wf (e, d) -> 0 <= i <= size_ e -> i + 1 < INT_MAX ->
  insert_cut cut i x (e, d) =
    for_each (cut (insert_steps i (slen (bytes (firstn (Z.to_nat i) (log e)))) x)) (fun step => step) (e, d).
Proof.
  intros [Hs Ho [_ _ [_ Hl]] _] Hi Hm. cbn [fst snd] in *. pose proof (length_log e Hs) as Hlen.
  unfold insert_cut, INT_MAX in *.
  rewrite (bind_val _ _ _ _ _ (this_entries_val _ _)). cbn [fst].
  rewrite u32_id, to_int_id by (unfold INT_MIN, INT_MAX; lia).
  destruct (Z.ltb_spec (size_ e) i); [lia|].
  by rewrite (bind_val _ _ _ _ _ (get_offset_ok e d i Ho ltac:(lia) ltac:(unfold INT_MAX; lia))).
Qed.

Lemma insert_ok (e : Entries) (d : disk) i x :
  wf (e, d) -> 0 <= i <= size_ e -> i + 1 < INT_MAX ->
  slen (bytes (log_insert i x (log e))) <= INT_MAX ->
  total (insert i x) (e, d) (fun _ s' =>
    wf s' /\ log (fst s') = log_insert i x (log e) /\
    file_fd_ (data_ (fst s')) = file_fd_ (data_ e) /\
    path_offset_ (fst s') = path_offset_ e).
Proof.
  intros Hwf Hi Hm Hb. pose proof Hwf as [Hs Ho _ Hp]. cbn [fst snd] in *.
  destruct (insert_runs e d i x Hwf Hi Hm Hb) as (e1 & e2 & es & f & Hf & Hfd & Hpath & Hlog & Hes & Hr).
  unfold total, insert. rewrite insert_cut_ok, (runs_all _ _ _ Hr) by done. cbn [List.last].
  set (l' := log_insert i x (log e)) in *. do 2 eexists. split; [done|]. cbn [fst snd].
  assert (Hlog' : log (set_size_ (i + 1) (set_entries_ es (set_offset_ (offsets 0 l') e2))) = l') by done.
  rewrite <- (length_log_insert i x (log e)) in Hm by (rewrite length_log; lia). fold l' in Hm.
  split; [|done]. split; cbn [fst snd]; rewrite ?Hlog'; cbn [set_size_ set_entries_ size_ entries_
    offset_ data_ path_offset_ set_offset_]; rewrite ?Hfd, ?Hpath; [lia|done| |done].
  split.
  - exists "". simplify_map_eq. by rewrite str_app_nil_r.
  - left. by simplify_map_eq.
  - done.
Qed.
(** One round of the constructor's loop reads the entry back. *)
Lemma load_entry_ok (e : Entries) (d : disk) l k x junk :
  offset_ e = offsets 0 l -> d !! file_fd_ (data_ e) = Some (bytes l +:+ junk) ->
  slen (bytes l) <= INT_MAX -> l !! k = Some x ->
  exists xd, file_fd_ xd = file_fd_ (data_ e) /\
    vec_at (offset_ e) (Z.of_nat k) (e, d) = (Val (slen (bytes (firstn k l))), (e, d)) /\
    vec_at (offset_ e) (Z.of_nat k + 1) (e, d) = (Val (slen (bytes (firstn (S k) l))), (e, d)) /\
    on_data (read_from_offset (slen (bytes (firstn k l))) (slen (SerializeToString x))) (e, d)
      = (Val (SerializeToString x), (set_data_ xd e, d)) /\
    slen (bytes (firstn (S k) l)) = slen (bytes (firstn k l)) + slen (SerializeToString x) /\
    slen (bytes (firstn (S k) l)) <= INT_MAX.
Proof.
  intros Ho Hf Hb Hx. pose proof (lookup_lt_Some _ _ _ Hx) as Hk.
  pose proof (slen_bytes_firstn (S k) l).
  assert (Hsplit : bytes l = bytes (firstn k l) +:+ SerializeToString x +:+ bytes (skipn (S k) l)).
  { rewrite <- (take_drop_middle l k x Hx) at 1. by rewrite bytes_app. }
  rewrite Hsplit, !str_app_assoc in Hf.
  destruct (read_from_offset_spec (data_ e) d (bytes (firstn k l)) (SerializeToString x)
    (bytes (skipn (S k) l) +:+ junk)) as (xd & Hfd & E); [by rewrite Hf|].
  exists xd. split; [done|].
  split; [apply vec_at_ok; [lia|]; by rewrite Ho, Nat2Z.id, lookup_offsets by lia|].
  split; [apply vec_at_ok; [lia|]; replace (Z.to_nat (Z.of_nat k + 1)) with (S k) by lia;
    by rewrite Ho, lookup_offsets by lia|].
  split; [unfold on_data, zoom; by rewrite E|].
  split; [|lia]. by rewrite (take_S_r _ _ _ Hx), bytes_snoc, slen_app.
Qed.

Lemma load_entries_ok n (e : Entries) (d : disk) l junk k :
  (k + n = length l)%nat -> offset_ e = offsets 0 l -> entries_ e = firstn k l ->
  d !! file_fd_ (data_ e) = Some (bytes l +:+ junk) -> slen (bytes l) <= INT_MAX ->
  forallb wireable l = true ->
  exists xd, file_fd_ xd = file_fd_ (data_ e) /\
    load_entries n (Z.of_nat k) (e, d) = (Val tt, (set_data_ xd (set_entries_ l e), d)).
Proof.
  revert e k. induction n as [|n IH]; intros e k Hk Ho He Hf Hb Hw.
  - exists (data_ e). split; [done|]. cbn [load_entries]. rewrite firstn_all2 in He by lia.
    unfold ret. by destruct e; cbn in *; subst.
  - destruct (lookup_lt_is_Some_2 l k ltac:(lia)) as [x Hx].
    destruct (load_entry_ok e d l k x junk Ho Hf Hb Hx) as (xd & Hfd & E1 & E2 & E3 & Hs & Hm).
    pose proof (slen_nonneg (bytes (firstn k l))). pose proof (slen_nonneg (SerializeToString x)).
    cbn [load_entries]. rewrite (bind_val _ _ _ _ _ (this_entries_val _ _)). cbn [fst].
    rewrite (bind_val _ _ _ _ _ E1), (bind_val _ _ _ _ _ E2).
    unfold INT_MAX in *. rewrite !to_int_id by (unfold INT_MIN, INT_MAX; lia).
    unfold int_sub. rewrite Hs, Z.add_simpl_l.
    assert (Hr : INT_MIN <= slen (SerializeToString x) <= INT_MAX)
      by (unfold INT_MIN, INT_MAX; lia).
    rewrite (bind_val _ _ _ _ _ (int_result_ok _ _ Hr)).
    rewrite (bind_val _ _ _ _ _ E3), (bind_val _ _ _ _ _ (this_entries_val _ _)).
    unfold update, modify, bind at 1. cbn [fst].
    rewrite parse_serialize by (rewrite forallb_forall in Hw; by apply Hw, list_elem_of_In, list_elem_of_lookup_2 with k).
    replace (Z.of_nat k + 1) with (Z.of_nat (S k)) by lia.
    destruct (IH (set_entries_ (entries_ (set_data_ xd e) ++ [x]) (set_data_ xd e)) (S k))
      as (xd' & Hfd' & E'); [lia|done| |by cbn; rewrite Hfd|done|done|].
    { cbn. by rewrite He, (take_S_r _ _ _ Hx). }
    exists xd'. split; [by rewrite Hfd'|]. exact E'.
Qed.

Lemma paths_differ port : data_path port <> offset_path port.
Proof.
  unfold data_path, offset_path, const_data_path, const_offset_path. rewrite !str_app_assoc.
  intros H%(inj (String.append base)). apply (f_equal (String.get 7)) in H. discriminate.
Qed.

Lemma load_offsets_ok port (d : disk) l :
  stored d (data_path port) (offset_path port) l ->
  load_offsets port d = (Val (offsets 0 l), d).
Proof.
  intros [_ Ho _]. unfold load_offsets, file_exists, file_content. rewrite fopen_exists.
  destruct Ho as [Ho|[Ho ->]]; rewrite Ho.
  - rewrite bool_decide_true by eauto. cbn [negb from_option id]. by rewrite iarchive_oarchive.
  - by rewrite bool_decide_false by (by intros [? ?]).
Qed.

Lemma new_ok port (d : disk) l :
  stored (boot_disk port d) (data_path port) (offset_path port) l ->
  forallb wireable l = true ->
  total (new port) d (fun e d' =>
    wf (e, d') /\ log e = l /\ d' = boot_disk port d /\
    file_fd_ (data_ e) = data_path port /\ path_offset_ e = offset_path port).
Proof.
  intros Hst Hw. pose proof Hst as [[junk Hf] _ [Hb Hl]]. unfold new.
  destruct (data_new_spec (data_path port) d) as (d' & E & ->). fold (boot_disk port d) in E.
  unfold total. rewrite (bind_val _ _ _ _ _ E), (bind_val _ _ _ _ _ (load_offsets_ok _ _ _ Hst)).
  unfold vec_size. rewrite length_offsets.
  unfold INT_MAX in *. rewrite u64_id, to_int_id by (unfold INT_MIN, INT_MAX; lia).
  replace (Z.of_nat (S (length l)) - 1) with (Z.of_nat (length l)) by lia.
  destruct (Z.ltb_spec (Z.of_nat (length l)) 0); [lia|]. rewrite Nat2Z.id.
  set (e0 := Build_Entries _ _ _ _ _).
  destruct (load_entries_ok (length l) e0 (boot_disk port d) l junk 0) as (xd & Hfd & El);
    [done..| |]; [done|].
  change (Z.of_nat 0) with 0 in El. rewrite El. do 2 eexists. split; [done|].
  assert (Hlog : log (set_data_ xd (set_entries_ l e0)) = l).
  { unfold log. cbn. rewrite Nat2Z.id. by rewrite firstn_all. }
  split_and!; [|done..]. split; cbn [fst snd]; rewrite ?Hlog; [cbn; unfold vec_size; lia|done| |].
  - cbn. by rewrite Hfd.
  - cbn. rewrite Hfd. apply paths_differ.
Qed.
Lemma forallb_wireable_insert i x l :
  forallb wireable l = true -> wireable x = true -> forallb wireable (log_insert i x l) = true.
Proof.
  intros Hl Hx. unfold log_insert. rewrite forallb_app. cbn. rewrite Hx, andb_true_r.
  rewrite forallb_forall in *. intros y Hy. apply Hl.
  rewrite <- (take_drop (Z.to_nat i) l). apply in_or_app. by left.
Qed.

Lemma inserts_ok ops (e : Entries) (d : disk) :
  wf (e, d) -> valid_inserts ops (log e) ->
  total (inserts ops) (e, d) (fun _ s' =>
    wf s' /\ log (fst s') = log_inserts ops (log e) /\
    (forallb wireable (log e) = true -> forallb wireable (log (fst s')) = true) /\
    file_fd_ (data_ (fst s')) = file_fd_ (data_ e) /\
    path_offset_ (fst s') = path_offset_ e).
Proof.
  revert e d. induction ops as [|[i x] ops IH]; intros e d Hwf Hv.
  - by apply total_ret.
  - destruct Hv as (Hi & Hm & Hb & Hx & Hv). pose proof (length_log e (wf_size _ Hwf)).
    eapply total_bind; [apply insert_ok; [done|lia|done|done]|].
    intros [] [e' d'] (Hwf' & Hlog & Hfd & Hp). cbn [fst] in *.
    rewrite <- Hlog in Hv. eapply total_mono; [by apply IH|]. cbn beta.
    intros [] s'' (H1 & H2 & H3 & H4 & H5). split_and!; [done| | |congruence..].
    + rewrite H2, Hlog. done.
    + intros Hw. apply H3. rewrite Hlog. by apply forallb_wireable_insert.
Qed.
End correctness.

(** ** Properties *)

Section properties.
Context {P : Posix} {PH : PosixHealthy} {BA : BinaryArchive} {BL : BinaryArchiveLaws}
  {CE : Codec rpc_Entry} {CL : CodecLaws rpc_Entry}.

(** C13: the log store refines a list.  From any well-formed object and any
    run of inserts at indices within the log, the run returns, the object and
    both files stay well formed, and the log is the one that truncating at
    the index and appending gives, insert by insert. *)
Theorem inserts_refine_log ops (e : Entries) (d : disk) :
  wf (e, d) -> valid_inserts ops (log e) ->
  exists e' d', inserts ops (e, d) = (Val tt, (e', d')) /\
    wf (e', d') /\ log e' = log_inserts ops (log e).
Proof.
  intros Hwf Hv. destruct (inserts_ok ops e d Hwf Hv) as ([] & [e' d'] & E & ? & ? & _).
  by exists e', d'.
Qed.

(** C14: durability.  A server that starts on a disk with the log [l], performs
    any run of valid inserts and stops can be restarted on that disk: the
    constructor returns and its object has exactly the log it had. *)
Theorem restart_recovers_log port (d : disk) l ops :
  stored (boot_disk port d) (data_path port) (offset_path port) l ->
  forallb wireable l = true -> valid_inserts ops l ->
  exists e1 d1 e2 d2 e3 d3,
    new port d = (Val e1, d1) /\ log e1 = l /\
    inserts ops (e1, d1) = (Val tt, (e2, d2)) /\
    new port d2 = (Val e3, d3) /\ log e3 = log_inserts ops l /\ wf (e3, d3).
Proof.
  intros Hst Hw Hv. destruct (new_ok port d l Hst Hw) as (e1 & d1 & E1 & Hwf & <- & _ & Hfd & Hp).
  destruct (inserts_ok ops e1 d1 Hwf Hv) as ([] & [e2 d2] & E2 & Hwf2 & Hl2 & Hw2 & Hfd2 & Hp2).
  cbn [fst] in *. rewrite Hfd in Hfd2. rewrite Hp in Hp2.
  pose proof (wf_stored _ Hwf2) as Hst2. cbn [fst snd] in Hst2. rewrite Hfd2, Hp2 in Hst2.
  destruct (new_ok port d2 (log e2)) as (e3 & d3 & E3 & Hwf3 & Hl3 & _); [|by apply Hw2|].
  - unfold boot_disk. destruct Hst2 as [[junk Hf] Hst2]. by rewrite Hf; split; eauto.
  - exists e1, d1, e2, d2, e3, d3. split_and!; try done. by rewrite Hl3.
Qed.

(** A restart on files that store a log, and on an empty file of offsets. *)
Lemma restart_stored port (d : disk) l :
  stored d (data_path port) (offset_path port) l -> forallb wireable l = true ->
  exists e2 d2, new port d = (Val e2, d2) /\ log e2 = l.
Proof.
  intros Hst Hw. destruct (new_ok port d l) as (e2 & d2 & E & _ & Hl & _); [|done|by exists e2, d2].
  unfold boot_disk. by destruct Hst as [[junk Hf] Ho Hs]; rewrite Hf; split; eauto.
Qed.

Lemma restart_emptied port (d : disk) f :
  d !! data_path port = Some f -> d !! offset_path port = Some "" ->
  new port d = (Exn (std_exception "input stream error"), d).
Proof.
  intros Hf Ho. unfold new. destruct (data_new_spec (data_path port) d) as (d' & E & Ed).
  rewrite Hf in Ed. subst d'. rewrite (bind_val _ _ _ _ _ E). apply bind_exn.
  unfold load_offsets, file_exists, file_content. rewrite fopen_exists, Ho.
  rewrite bool_decide_true by eauto. cbn [negb from_option id]. by rewrite iarchive_empty.
Qed.

(** C22: appending, and dying in the middle.  Of the eight calls of [insert] at the
    end of the log, the process runs the first [n]: seek, write and cut of the
    data file, the vector in memory, the opening of the offset file, which
    empties it, its write, and the two changes in memory.  Before the offset file is
    opened a restart finds the log as it was, and after it was written the log
    with the entry; between these two the file is empty, and the constructor
    throws: the server does not start any more. *)
Theorem append_crash_safe port (d : disk) (e : Entries) x n :
  wf (e, d) -> file_fd_ (data_ e) = data_path port -> path_offset_ e = offset_path port ->
  forallb wireable (log e) = true -> wireable x = true ->
  size_ e + 1 < INT_MAX -> slen (bytes (log e ++ [x])) <= INT_MAX ->
  exists s', insert_upto n (size_ e) x (e, d) = (Val tt, s') /\
    ((8 <= n)%nat -> insert (size_ e) x (e, d) = (Val tt, s')) /\
    if (n <? 5)%nat then exists e2 d2, new port (snd s') = (Val e2, d2) /\ log e2 = log e
    else if (n =? 5)%nat then fst (new port (snd s')) = Exn (std_exception "input stream error")
    else exists e2 d2, new port (snd s') = (Val e2, d2) /\ log e2 = log e ++ [x].
Proof.
  intros Hwf Hfd Hp Hw Hx Hm Hb. pose proof Hwf as [Hs _ Hst Hne]. cbn [fst snd] in *.
  pose proof (length_log e Hs) as Hlen.
  assert (Hall : firstn (Z.to_nat (size_ e)) (log e) = log e) by (apply firstn_all2; lia).
  assert (El : log_insert (size_ e) x (log e) = log e ++ [x]) by (unfold log_insert; by rewrite Hall).
  destruct (insert_runs e d (size_ e) x Hwf) as (e1 & e2 & es & f & Hf & _ & _ & _ & _ & Hr); [lia|done|by rewrite El|].
  unfold insert, insert_upto. rewrite !insert_cut_ok by (done || lia).
  rewrite (runs_firstn n _ _ _ Hr), (runs_all _ _ _ Hr). rewrite El, Hall, Hfd, Hp in *.
  destruct Hst as [[junk Hj] Ho [Hb0 Hl0]]. rewrite Hj in Hf. injection Hf as <-.
  assert (Hold : forall g j, g = bytes (log e) +:+ j ->
    exists e2 d2, new port (<[data_path port := g]> d) = (Val e2, d2) /\ log e2 = log e).
  { intros g j ->. apply restart_stored; [|done]. split; [|by rewrite lookup_insert_ne by done|done].
    exists j. by rewrite lookup_insert_eq. }
  assert (Hcut : exists e2 d2, new port (<[data_path port := bytes (log e ++ [x])]> d) = (Val e2, d2) /\ log e2 = log e)
    by (apply (Hold _ (SerializeToString x)), bytes_snoc).
  assert (Hnew : exists e2 d2, new port (<[offset_path port := oarchive (offsets 0 (log e ++ [x]))]>
      (<[data_path port := bytes (log e ++ [x])]> d)) = (Val e2, d2) /\ log e2 = log e ++ [x]).
  { apply restart_stored; [|by rewrite forallb_app, Hw; cbn; rewrite Hx]. split.
    - exists "". rewrite lookup_insert_ne, lookup_insert_eq by done. by rewrite str_app_nil_r.
    - left. by rewrite lookup_insert_eq.
    - split; [done|]. rewrite length_app. cbn. lia. }
  assert (Hsame : exists e2 d2, new port d = (Val e2, d2) /\ log e2 = log e).
  { apply restart_stored; [|done]. split; [by exists junk|done|done]. }
  eexists. split; [reflexivity|]. split.
  { intros Hn. by rewrite (firstn_all2 (n := n)) by (cbn; lia). }
  destruct n as [|[|[|[|[|[|n]]]]]]; cbn [firstn List.last fst snd Nat.ltb Nat.leb Nat.eqb]; try done.
  - apply (Hold _ (SerializeToString x +:+ str_drop (Z.to_nat (slen (bytes (log e))) +
      String.length (SerializeToString x)) (bytes (log e) +:+ junk))).
    unfold write_at, slen. rewrite Nat2Z.id. rewrite length_str_app.
    replace (String.length (bytes (log e)) - (String.length (bytes (log e)) + String.length junk))%nat with 0%nat by lia.
    cbn [zeros]. by rewrite str_app_nil_r, str_take_app.
  - rewrite (restart_emptied port _ (bytes (log e ++ [x]))); [done| |by rewrite lookup_insert_eq].
    by rewrite lookup_insert_ne, lookup_insert_eq by done.
  - by destruct n as [|[|[|n]]].
Qed.

(** [get] on every index: the entry inside the log, the exception at or
    behind its end, and undefined behaviour for a negative index; the object
    and the disk are untouched in each case. *)
Lemma get_cases (e : Entries) (d : disk) i :
  wf (e, d) ->
  get i (e, d) =
    (if i <? 0 then Undef "vector index out of range"
     else match log e !! Z.to_nat i with
          | Some x => Val x
          | None => Exn (my_exception ("the etries's size is " +:+ to_string (size_ e) +:+
              ", the get index is " +:+ to_string i +:+ ", which is bigger") "entry/entry.cpp" 85)
          end, (e, d)).
Proof.
  intros [Hs _ _ _]. cbn [fst] in Hs. destruct (Z.ltb_spec i 0) as [Hn|Hn].
  - unfold get. rewrite (bind_val _ _ _ _ _ (this_entries_val _ _)). cbn [fst].
    destruct (Z.leb_spec (size_ e) i); [lia|]. rewrite (bind_val _ _ _ _ _ (this_entries_val _ _)).
    unfold vec_at. by destruct (Z.ltb_spec i 0); [|lia].
  - destruct (log e !! Z.to_nat i) as [x|] eqn:Hx; [by apply get_ok|].
    apply lookup_ge_None in Hx. pose proof (length_log e Hs).
    unfold get. rewrite (bind_val _ _ _ _ _ (this_entries_val _ _)). cbn [fst].
    by destruct (Z.leb_spec (size_ e) i); [|lia].
Qed.

Lemma insert_gap (e : Entries) (d : disk) i x :
  wf (e, d) -> size_ e < i ->
  insert i x (e, d) =
    (Exn (my_exception ("the etries's size is " +:+ to_string (size_ e) +:+
       ", the insert index is " +:+ to_string i +:+ ", which is bigger") "entry/entry.cpp" 97), (e, d)).
Proof.
  intros [Hs _ [_ _ [_ Hl]] _] Hi. cbn [fst] in *. rewrite length_log in Hl by done.
  unfold insert, insert_cut, INT_MAX in *. rewrite (bind_val _ _ _ _ _ (this_entries_val _ _)). cbn [fst].
  rewrite u32_id by lia. by destruct (Z.ltb_spec (size_ e) i); [|lia].
Qed.

(** An insert behind the end of the log is refused: it throws, and neither
    the object nor a file changes. *)
Lemma insert_gap_refused (e : Entries) (d : disk) i x :
  wf (e, d) -> size_ e < i ->
  insert i x (e, d) =
    (Exn (my_exception ("the etries's size is " +:+ to_string (size_ e) +:+
       ", the insert index is " +:+ to_string i +:+ ", which is bigger") "entry/entry.cpp" 97), (e, d)).
Proof. apply insert_gap. Qed.
End properties.

(** ** Witnesses on the reference platform *)

Module Witness.
Import Reference ReferenceCodecs.

Definition entry_a : rpc_Entry := {| en_term := 1; en_index := 0; en_msg := "a" |}.
Definition entry_b : rpc_Entry := {| en_term := 2; en_index := 1; en_msg := "bb" |}.
Definition entry_c : rpc_Entry := {| en_term := 3; en_index := 1; en_msg := "c" |}.
Definition ops : list (Z * rpc_Entry) := [(0, entry_a); (1, entry_b); (1, entry_c)].

Definition booted : Entries * disk :=
  match new 7777 ∅ with (Val e, d) => (e, d) | _ => ({| data_ := {| file_fd_ := ""; fd_pos := 0 |};
    entries_ := []; offset_ := []; size_ := 0; path_offset_ := "" |}, ∅) end.

Lemma stored_empty : stored (boot_disk 7777 ∅) (data_path 7777) (offset_path 7777) [].
Proof. split; [by exists ""|by right|]. split; vm_compute; congruence. Qed.

Lemma wf_booted : wf booted.
Proof.
  destruct (new_ok 7777 ∅ [] stored_empty eq_refl) as (e & d & E & Hwf & _).
  unfold booted. by rewrite E.
Qed.

Lemma ops_valid : valid_inserts ops [].
Proof. cbn -[INT_MAX]. unfold INT_MAX. split_and!; try (vm_compute; congruence); done. Qed.

Lemma inserts_refine_log_witness :
  exists e' d', inserts ops booted = (Val tt, (e', d')) /\ log e' = [entry_a; entry_c].
Proof.
  destruct (inserts_refine_log ops (fst booted) (snd booted) wf_booted ops_valid)
    as (e' & d' & E & _ & Hl).
  exists e', d'. split; [exact E|exact Hl].
Defined.

Lemma restart_recovers_log_witness :
  exists d2 e3 d3, new 7777 d2 = (Val e3, d3) /\ log e3 = [entry_a; entry_c].
Proof.
  destruct (restart_recovers_log 7777 ∅ [] ops stored_empty eq_refl ops_valid)
    as (e1 & d1 & e2 & d2 & e3 & d3 & _ & _ & _ & E & Hl & _).
  exists d2, e3, d3. split; [exact E|exact Hl].
Defined.

Lemma append_crash_safe_witness :
  (exists s' e2 d2, insert_upto 4 0 entry_a booted = (Val tt, s') /\ new 7777 (snd s') = (Val e2, d2) /\ log e2 = []) /\
  (exists s', insert_upto 5 0 entry_a booted = (Val tt, s') /\
     fst (new 7777 (snd s')) = Exn (std_exception "input stream error")) /\
  exists s' e2 d2, insert 0 entry_a booted = (Val tt, s') /\ new 7777 (snd s') = (Val e2, d2) /\ log e2 = [entry_a].
Proof.
  pose proof (fun n => append_crash_safe 7777 (snd booted) (fst booted) entry_a n wf_booted
    eq_refl eq_refl eq_refl eq_refl eq_refl ltac:(vm_compute; congruence)) as H. split_and!.
  - destruct (H 4%nat) as (s' & E & _ & e2 & d2 & En & Hl). exists s', e2, d2. split; [exact E|]. split; [exact En|exact Hl].
  - destruct (H 5%nat) as (s' & E & _ & En). exists s'. split; [exact E|exact En].
  - destruct (H 8%nat) as (s' & _ & E & e2 & d2 & En & Hl). exists s', e2, d2.
    split; [exact (E (le_n 8))|]. split; [exact En|exact Hl].
Defined.

Example get_behind_example : fst (get 0 (fst booted, snd booted)) =
  Exn (my_exception "the etries's size is 0, the get index is 0, which is bigger" "entry/entry.cpp" 85).
Proof. rewrite (get_cases (fst booted) (snd booted) 0 wf_booted). reflexivity. Defined.

Example insert_gap_refused_example : snd (insert 1 entry_b (fst booted, snd booted)) = (fst booted, snd booted).
Proof. rewrite (insert_gap_refused (fst booted) (snd booted) 1 entry_b wf_booted eq_refl). reflexivity. Defined.
End Witness.

End Entries.
