(* ===== verification/ThreadPool.v ===== *)
(** state_machine/ThreadPool.h: a queue of tasks and the worker threads that
    empty it.  A worker waits on the condition variable, takes the task at the
    head of the queue under the lock, runs it outside the lock, and returns when
    the pool is stopped and the queue is empty.  The threads interleave freely:
    a run is a sequence of labelled steps. *)

From S2P Require Import Prelude CxxString.

Module ThreadPool.

Inductive worker (T : Type) :=
| Waiting              (** in [condition.wait] *)
| Running (t : T)      (** in [task()] *)
| Returned.            (** the thread's function has returned *)
Arguments Waiting {_}.
Arguments Running {_} _.
Arguments Returned {_}.

Record ThreadPool (T : Type) := {
  workers : list (worker T);
  tasks : list T;
  stop : bool;
}.
Arguments workers {_} _.
Arguments tasks {_} _.
Arguments stop {_} _.

Section pool.
Context {T : Type}.
Implicit Types (p : ThreadPool T) (t : T).

(** The constructor launches [threads] workers. *)
Definition new (threads : nat) : ThreadPool T :=
  {| workers := repeat Waiting threads; tasks := []; stop := false |}.

Definition enqueue (t : T) : M (ThreadPool T) unit := fun p =>
  if stop p then throw_line "state_machine/ThreadPool.h" 76 "enqueue on stopped ThreadPool" p
  else (Val tt, {| workers := workers p; tasks := tasks p ++ [t]; stop := stop p |}).

Definition set_worker (i : nat) (w : worker T) (ts : list T) p : ThreadPool T :=
  {| workers := <[i := w]> (workers p); tasks := ts; stop := stop p |}.

(** One round of worker [i]'s loop: the predicate of [wait] holds and it goes
    on to take a task, or it holds with an empty queue and the worker returns. *)
Definition wake (i : nat) p : option (ThreadPool T) :=
  match workers p !! i with
  | Some Waiting =>
      if stop p || negb (bool_decide (tasks p = [] )) then
        match tasks p with
        | [] => Some (set_worker i Returned [] p)
        | t :: ts => Some (set_worker i (Running t) ts p)
        end
      else None
  | _ => None
  end.

(** [task()] ends: the task it ran, and the worker back at the head of the loop. *)
Definition finish (i : nat) p : option (T * ThreadPool T) :=
  match workers p !! i with
  | Some (Running t) => Some (t, set_worker i Waiting (tasks p) p)
  | _ => None
  end.

(** The destructor's first half; it then joins every worker. *)
Definition stop_all p : ThreadPool T :=
  {| workers := workers p; tasks := tasks p; stop := true |}.
Definition joined p : bool :=
  forallb (fun w => match w with Returned => true | _ => false end) (workers p).
End pool.

(** ** Runs *)

Inductive label (T : Type) :=
| Enqueue (t : T)
| Wake (i : nat)
| Finish (i : nat) (t : T)
| Stop.
Arguments Enqueue {_} _.
Arguments Wake {_} _.
Arguments Finish {_} _ _.
Arguments Stop {_}.

Section runs.
Context {T : Type} `{EqDecision T}.
Implicit Types (p : ThreadPool T) (t : T).

Inductive step : ThreadPool T -> label T -> ThreadPool T -> Prop :=
| step_enqueue p t p' : enqueue t p = (Val tt, p') -> step p (Enqueue t) p'
| step_wake p i p' : wake i p = Some p' -> step p (Wake i) p'
| step_finish p i t p' : finish i p = Some (t, p') -> step p (Finish i t) p'
| step_stop p : step p Stop (stop_all p).

Inductive run : ThreadPool T -> list (label T) -> ThreadPool T -> Prop :=
| run_nil p : run p [] p
| run_snoc p ls p' l p'' : run p ls p' -> step p' l p'' -> run p (ls ++ [l]) p''.

Definition enqueued (ls : list (label T)) : list T :=
  omap (fun l => match l with Enqueue t => Some t | _ => None end) ls.
Definition finished (ls : list (label T)) : list T :=
  omap (fun l => match l with Finish _ t => Some t | _ => None end) ls.

Definition running p : list T :=
  omap (fun w => match w with Running t => Some t | _ => None end) (workers p).
End runs.

(** ** Lemmas *)

Section lemmas.
Context {T : Type}.
Implicit Types (p : ThreadPool T) (t : T).

Lemma wake_inv i p p' : wake i p = Some p' ->
  workers p !! i = Some Waiting /\
  ((exists t ts, tasks p = t :: ts /\ p' = set_worker i (Running t) ts p) \/
   (stop p = true /\ tasks p = [] /\ p' = set_worker i Returned [] p)).
Proof.
  unfold wake. destruct (workers p !! i) as [[|t|]|]; try discriminate.
  destruct (tasks p) as [|t ts]; [|rewrite bool_decide_false by done; rewrite orb_true_r;
    intros [= <-]; split; [done|]; left; by exists t, ts].
  rewrite bool_decide_true by done. destruct (stop p); [|discriminate].
  intros [= <-]. auto.
Qed.

Lemma finish_inv i p t p' : finish i p = Some (t, p') ->
  workers p !! i = Some (Running t) /\ p' = set_worker i Waiting (tasks p) p.
Proof. unfold finish. destruct (workers p !! i) as [[]|]; intros; by simplify_eq. Qed.

Lemma enqueue_inv t p p' : enqueue t p = (Val tt, p') ->
  stop p = false /\ p' = {| workers := workers p; tasks := tasks p ++ [t]; stop := stop p |}.
Proof. unfold enqueue. destruct (stop p); [done|]. intros [= <-]. done. Qed.

Lemma running_split (ws : list (worker T)) i w w' :
  ws !! i = Some w ->
  exists l1 l2 : list T,
    omap (fun w => match w with Running t => Some t | _ => None end) ws
      = l1 ++ match w with Running t => [t] | _ => [] end ++ l2 /\
    omap (fun w => match w with Running t => Some t | _ => None end) (<[i := w']> ws)
      = l1 ++ match w' with Running t => [t] | _ => [] end ++ l2.
Proof.
  intros Hw. pose proof (lookup_lt_Some _ _ _ Hw).
  rewrite insert_take_drop by done.
  set (f := fun w : worker T => match w with Running t => Some t | _ => None end).
  replace (omap f ws) with (omap f (take i ws ++ w :: drop (S i) ws)) by (by rewrite take_drop_middle).
  rewrite !omap_app. eexists _, _. split; [by destruct w|by destruct w'].
Qed.

(** No task is lost or invented, whatever the number of workers. *)
Lemma run_conserves p0 ls p n :
  run p0 ls p -> p0 = new n ->
  enqueued ls ≡ₚ finished ls ++ running p ++ tasks p.
Proof.
  induction 1 as [p|p ls p' l p'' Hr IH Hs]; intros ->.
  - unfold running, new. cbn. induction n; done.
  - specialize (IH eq_refl). unfold enqueued, finished in *. rewrite !omap_app.
    inversion Hs as [? t ? He|? i ? Hw|? i t ? Hf|]; subst; cbn; rewrite ?app_nil_r.
    + apply enqueue_inv in He as [_ ->]. unfold running. cbn. rewrite IH. unfold running.
      by rewrite !app_assoc.
    + apply wake_inv in Hw as [Hi [(t & ts & Ht & ->)|(_ & Ht & ->)]]; rewrite IH, Ht;
        unfold running, set_worker; cbn.
      * destruct (running_split (workers p') i Waiting (Running t) Hi) as (l1 & l2 & -> & ->).
        cbn. solve_Permutation.
      * destruct (running_split (workers p') i Waiting Returned Hi) as (l1 & l2 & -> & ->). done.
    + apply finish_inv in Hf as [Hi ->]. rewrite IH. unfold running, set_worker. cbn.
      destruct (running_split (workers p') i (Running t) Waiting Hi) as (l1 & l2 & -> & ->).
      cbn. solve_Permutation.
    + by rewrite IH.
Qed.

Lemma run_workers p0 ls p : run p0 ls p -> length (workers p) = length (workers p0).
Proof.
  induction 1 as [|p ls p' l p'' Hr IH Hs]; [done|]. rewrite <- IH.
  inversion Hs as [? t ? He|? i ? Hw|? i t ? Hf|]; subst; [|..|done].
  - by apply enqueue_inv in He as [_ ->].
  - apply wake_inv in Hw as [_ [(t & ts & _ & ->)|(_ & _ & ->)]]; apply length_insert.
  - apply finish_inv in Hf as [_ ->]. apply length_insert.
Qed.

(** A worker returns only from a stopped pool with an empty queue, and both
    stay so. *)
Lemma run_returned p0 ls p n :
  run p0 ls p -> p0 = new n -> Returned ∈ workers p -> stop p = true /\ tasks p = [].
Proof.
  induction 1 as [p|p ls p' l p'' Hr IH Hs]; intros -> Hin.
  - exfalso. apply list_elem_of_lookup in Hin as [i Hi]. cbn in Hi.
    apply list_elem_of_lookup_2, list_elem_of_In, repeat_spec in Hi. done.
  - specialize (IH eq_refl).
    inversion Hs as [? t ? He|? i ? Hw|? i t ? Hf|]; subst; cbn in *.
    + apply enqueue_inv in He as [Hst ->]. cbn in *. apply IH in Hin as [? ?]. congruence.
    + apply wake_inv in Hw as [_ [(t & ts & Ht & ->)|(Hst & Ht & ->)]]; cbn in *; [|done].
      apply list_elem_of_lookup in Hin as [j Hj].
      destruct (decide (i = j)) as [<-|]; [|rewrite list_lookup_insert_ne in Hj by done].
      * by apply list_lookup_insert_Some in Hj as [(_ & ? & _)|[? _]].
      * apply list_elem_of_lookup_2, IH in Hj as [_ Hts]. congruence.
    + apply finish_inv in Hf as [_ ->]. cbn in *.
      apply list_elem_of_lookup in Hin as [j Hj].
      apply list_lookup_insert_Some in Hj as [(_ & ? & _)|[_ Hj]]; [done|].
      by apply list_elem_of_lookup_2, IH in Hj.
    + by apply IH in Hin as [_ ?].
Qed.

Lemma not_joined p :
  joined p = false -> exists i w, workers p !! i = Some w /\ w <> Returned.
Proof.
  unfold joined. induction (workers p) as [|w ws IH]; [done|]. cbn.
  destruct w; cbn; intros Hj; [by exists 0%nat, Waiting|by exists 0%nat, (Running t)|].
  destruct (IH Hj) as (i & w & ? & ?). by exists (S i), w.
Qed.

Lemma single_worker ls p :
  run (new 1) ls p -> exists w, workers p = [w].
Proof.
  intros Hr. apply run_workers in Hr. cbn in Hr. destruct (workers p) as [|w [|]]; naive_solver.
Qed.
(** With one worker, what runs and waits is a queue. *)
Lemma wake_fifo p w i p' :
  workers p = [w] -> wake i p = Some p' ->
  running p' ++ tasks p' = running p ++ tasks p /\ exists w', workers p' = [w'].
Proof.
  intros Hw [Hi Hc]%wake_inv. rewrite Hw in Hi. destruct i; [|done]. cbn in Hi. simplify_eq.
  unfold running. rewrite Hw.
  destruct Hc as [(t & ts & Ht & ->)|(_ & Ht & ->)]; rewrite Ht; unfold set_worker; cbn; rewrite Hw;
    split; try done; cbn; eauto.
Qed.

Lemma finish_fifo p w i t p' :
  workers p = [w] -> finish i p = Some (t, p') ->
  running p ++ tasks p = t :: running p' ++ tasks p' /\ exists w', workers p' = [w'].
Proof.
  intros Hw [Hi ->]%finish_inv. rewrite Hw in Hi. destruct i; [|done]. cbn in Hi. simplify_eq.
  unfold running, set_worker. cbn. rewrite Hw. cbn. eauto.
Qed.
End lemmas.

(** ** Properties *)

Section properties.
Context {T : Type}.
Implicit Types (p : ThreadPool T) (t : T).

(** C20: the pool with one worker, the one that applies entries to the state
    machine, is a queue: in every run the tasks that ended, then the one that
    runs, then the ones that wait are exactly the tasks enqueued, in order. *)
Theorem one_worker_is_fifo ls p :
  run (new 1) ls p -> enqueued (T := T) ls = finished ls ++ running p ++ tasks p.
Proof.
  intros Hr. remember (new 1) as p0 eqn:Hp0. induction Hr as [p|p ls p' l p'' Hr IH Hs]; subst; [done|].
  specialize (IH eq_refl). destruct (single_worker _ _ Hr) as [w Hw].
  unfold enqueued, finished in *. rewrite !omap_app.
  inversion Hs as [? t ? He|? i ? Hwk|? i t ? Hf|]; subst; cbn; rewrite ?app_nil_r, IH.
  - apply enqueue_inv in He as [_ ->]. unfold running. cbn. by rewrite !app_assoc.
  - apply (wake_fifo _ w) in Hwk as [-> _]; done.
  - apply (finish_fifo _ w) in Hf as [-> _]; [|done]. by rewrite <- app_assoc.
  - done.
Qed.

(** C21: the destructor drains the queue.  When every worker of a stopped pool
    has returned, each task that was ever enqueued has been run, once. *)
Theorem destructor_drains n ls p :
  run (new n) ls p -> joined p = true -> (0 < n)%nat ->
  enqueued (T := T) ls ≡ₚ finished ls.
Proof.
  intros Hr Hj Hn. rewrite (run_conserves _ _ _ n Hr eq_refl).
  assert (Hall : Forall (fun w => w = Returned) (workers p)).
  { apply Forall_forall. intros w Hw%list_elem_of_In. unfold joined in Hj.
    rewrite forallb_forall in Hj. specialize (Hj w Hw). by destruct w. }
  destruct (run_returned _ _ _ n Hr eq_refl) as [_ ->].
  { pose proof (run_workers _ _ _ Hr) as Hl. cbn in Hl. rewrite repeat_length in Hl.
    destruct (workers p) as [|w ws]; [cbn in Hl; lia|]. apply Forall_cons in Hall as [-> _].
    apply list_elem_of_here. }
  assert (running p = []) as ->; [|by rewrite !app_nil_r].
  unfold running. induction Hall as [|w ws -> _ IH]; done.
Qed.

(** No deadlock: as long as a worker of a stopped pool has not returned,
    some worker can take its next step; and a stopped pool takes no new task. *)
Lemma stopped_pool_progress p t :
  stop p = true -> joined p = false ->
  (exists i p', wake i p = Some p' \/ exists t', finish i p = Some (t', p')) /\
  fst (enqueue t p) =
    Exn (my_exception "enqueue on stopped ThreadPool" "state_machine/ThreadPool.h" 76).
Proof.
  intros Hs Hj. split; [|unfold enqueue; by rewrite Hs].
  destruct (not_joined _ Hj) as (i & w & Hi & Hw).
  exists i. destruct w as [|t'|]; [| |done].
  - unfold wake. rewrite Hi, Hs. cbn. destruct (tasks p); eauto.
  - unfold finish. rewrite Hi. eauto.
Qed.
End properties.

(** ** Witnesses *)

Module Witness.
Definition ls : list (label nat) :=
  [Enqueue 4%nat; Enqueue 5%nat; Wake 0; Stop; Finish 0 4%nat; Wake 0; Finish 0 5%nat; Wake 0].
Definition last : ThreadPool nat := {| workers := [Returned]; tasks := []; stop := true |}.

Lemma run_ls : run (new 1) ls last.
Proof.
  change ls with (((((((([] ++ [Enqueue 4%nat]) ++ [Enqueue 5%nat]) ++ [Wake 0]) ++ [Stop])
    ++ [Finish 0 4%nat]) ++ [Wake 0]) ++ [Finish 0 5%nat]) ++ [Wake (T := nat) 0]).
  let rec go := first [apply run_nil | eapply run_snoc; [go|]] in go.
  all: econstructor; reflexivity.
Qed.

Lemma one_worker_is_fifo_witness : enqueued ls = finished ls ++ running last ++ tasks last.
Proof. exact (one_worker_is_fifo ls last run_ls). Defined.

Lemma destructor_drains_witness : enqueued ls ≡ₚ finished ls.
Proof. exact (destructor_drains 1 ls last run_ls eq_refl (le_n 1)). Defined.

Example stopped_pool_progress_example :
  exists i p', wake i (stop_all (new (T := nat) 2)) = Some p' \/
    exists t', finish i (stop_all (new (T := nat) 2)) = Some (t', p').
Proof. exact (proj1 (stopped_pool_progress (stop_all (new (T := nat) 2)) 0%nat eq_refl eq_refl)). Defined.
End Witness.

End ThreadPool.
