(* ===== verification/StateMachineControler.v ===== *)
(** state_machine/StateMachineControler.h and .cpp: the component that hands
    committed entries to the state machine.  It runs in the io thread on the
    server's log; the state machine runs in the thread pools, so applying an
    entry means enqueueing a task, in the order of the log. *)

From S2P Require Import Prelude CxxString Platform Messages Interfaces ThreadPool.

Module StateMachineControler.
Import ThreadPool.

(** What the closures capture: the encoded call and the entry's index, or the
    encoded query and the client's address. *)
Definition apply_task : Type := string * Z.
Definition query_task : Type := string * server_addr.

Record StateMachineControler := {
  applied_index_ : Z;
  commit_index_ : Z;
  write_thread_pool_ : ThreadPool apply_task;
  read_thread_pool : ThreadPool query_task;
}.

Definition set_applied_index_ x (c : StateMachineControler) : StateMachineControler :=
  {| applied_index_ := x; commit_index_ := commit_index_ c;
     write_thread_pool_ := write_thread_pool_ c; read_thread_pool := read_thread_pool c |}.
Definition set_commit_index_ x (c : StateMachineControler) : StateMachineControler :=
  {| applied_index_ := applied_index_ c; commit_index_ := x;
     write_thread_pool_ := write_thread_pool_ c; read_thread_pool := read_thread_pool c |}.
Definition set_write_thread_pool_ x (c : StateMachineControler) : StateMachineControler :=
  {| applied_index_ := applied_index_ c; commit_index_ := commit_index_ c;
     write_thread_pool_ := x; read_thread_pool := read_thread_pool c |}.
Definition set_read_thread_pool x (c : StateMachineControler) : StateMachineControler :=
  {| applied_index_ := applied_index_ c; commit_index_ := commit_index_ c;
     write_thread_pool_ := write_thread_pool_ c; read_thread_pool := x |}.

(** The constructor; the default arguments are 5 readers and 1 writer. *)
Definition new (read_thread_num write_thread_num : nat) : res StateMachineControler :=
  let c := {| applied_index_ := -1; commit_index_ := -1;
              write_thread_pool_ := ThreadPool.new write_thread_num;
              read_thread_pool := ThreadPool.new read_thread_num |} in
  if negb (Z.of_nat write_thread_num =? 1) then
    Exn (my_exception "for now, the state machine doesn't support multithread apply, so the write thread pool num can only be 1"
           "state_machine/StateMachineControler.cpp" 19)
  else Val c.

Section controler.
Context {L : Type} {LS : LogStore L}.

Abbreviation MC := (M (StateMachineControler * L)).

Definition this {A} (f : StateMachineControler -> A) : MC A := gets (fun s => f (fst s)).
Definition update (f : StateMachineControler -> StateMachineControler) : MC unit :=
  modify (fun '(c, l) => (f c, l)).
(** [entries_] points to the server's log. *)
Definition entries_get (i : Z) : MC rpc_Entry :=
  zoom snd (fun l '(c, _) => (c, l)) (ls_get i).
Definition enqueue_write (t : apply_task) : MC unit :=
  zoom (fun s => write_thread_pool_ (fst s))
    (fun p '(c, l) => (set_write_thread_pool_ p c, l)) (enqueue t).
Definition enqueue_read (t : query_task) : MC unit :=
  zoom (fun s => read_thread_pool (fst s))
    (fun p '(c, l) => (set_read_thread_pool p c, l)) (enqueue t).

Definition apply_to_state_machine (index_to_apply : Z) : MC unit :=
  let! entry := entries_get index_to_apply in
  let encoded_apply_str := en_msg entry in
  enqueue_write (encoded_apply_str, index_to_apply) ;;
  update (set_applied_index_ index_to_apply).

(** [while (applied_index_ < commit_index_) apply_to_state_machine(applied_index_ + 1);] *)
Fixpoint apply_loop (fuel : nat) : MC unit :=
  let! applied := this applied_index_ in
  let! commit := this commit_index_ in
  if applied <? commit then
    match fuel with
    | O => ub "out of fuel"
    | S fuel' =>
        let! next := int_add applied 1 in
        apply_to_state_machine next ;;
        apply_loop fuel'
    end
  else ret tt.

Definition update_commit_index_and_apply (new_index : Z) : MC unit :=
  update (set_commit_index_ new_index) ;;
  let! applied := this applied_index_ in
  apply_loop (Z.to_nat (new_index - applied)).

Definition get_from_state_machine (encoded_query_str : string) (client_addr : server_addr) : MC unit :=
  enqueue_read (encoded_query_str, client_addr).
End controler.

(** ** The tasks, as the worker threads run them *)

Section tasks.
Context {SM : Type} {SMC : StateMachine SM}.

(** What a task posts back to the io thread. *)
Inductive posted :=
| Post_write_resp_apply_call (entry_index : Z) (res_str : string)
| Post_write_resp_query_call (addr : server_addr) (res_str : string).

Definition run_apply_task (t : apply_task) (sm : SM) : posted * SM :=
  let '(encoded_apply_str, index_to_apply) := t in
  let '(sm_apply_res_str, sm') := sm_apply encoded_apply_str sm in
  (Post_write_resp_apply_call index_to_apply sm_apply_res_str, sm').

Definition run_query_task (t : query_task) (sm : SM) : posted * SM :=
  let '(encoded_query_str, client_addr) := t in
  let '(sm_query_res_str, sm') := sm_get encoded_query_str sm in
  (Post_write_resp_query_call client_addr sm_query_res_str, sm').
End tasks.

(** The tasks for the entries [from], [from + 1], ... of a log. *)
Fixpoint tasks_of (from : Z) (l : list rpc_Entry) : list apply_task :=
  match l with
  | [] => []
  | e :: l' => (en_msg e, from) :: tasks_of (from + 1) l'
  end.

(** ** Lemmas *)

Section lemmas.
Context {L : Type} {LS : LogStore L} {LL : LogStoreLaws L}.
Implicit Types (c : StateMachineControler) (l : L).

Lemma this_smc_val {A} (f : StateMachineControler -> A) s : this (L := L) f s = (Val (f (fst s)), s).
Proof. done. Qed.

(** The controler after the entries [from ..] of [es] were handed over. *)
Definition handed_over (es : list rpc_Entry) c : StateMachineControler :=
  set_applied_index_ (applied_index_ c + Z.of_nat (length es))
    (set_write_thread_pool_
       {| workers := workers (write_thread_pool_ c);
          tasks := tasks (write_thread_pool_ c) ++ tasks_of (applied_index_ c + 1) es;
          stop := stop (write_thread_pool_ c) |} c).

Lemma handed_over_nil c : handed_over [] c = c.
Proof.
  unfold handed_over. cbn. rewrite Z.add_0_r, app_nil_r. by destruct c as [? ? [] ?].
Qed.

Lemma apply_one_ok c l e :
  ls_ok l -> stop (write_thread_pool_ c) = false -> -1 <= applied_index_ c ->
  ls_view l !! Z.to_nat (applied_index_ c + 1) = Some e ->
  apply_to_state_machine (applied_index_ c + 1) (c, l) = (Val tt, (handed_over [e] c, l)).
Proof.
  intros Hok Hs Ha He. unfold apply_to_state_machine, entries_get, enqueue_write, zoom, bind. cbn.
  rewrite (ls_get_ok l _ e) by (done || lia). cbn. unfold enqueue, handed_over. by rewrite Hs.
Qed.

Lemma apply_loop_ok n c l :
  ls_ok l -> stop (write_thread_pool_ c) = false -> -1 <= applied_index_ c ->
  n = Z.to_nat (commit_index_ c - applied_index_ c) ->
  commit_index_ c < Z.of_nat (length (ls_view l)) ->
  apply_loop n (c, l) =
    (Val tt, (handed_over (firstn n (skipn (Z.to_nat (applied_index_ c + 1)) (ls_view l))) c, l)).
Proof.
  intros Hok. revert c. induction n as [|n IH]; intros c Hs Ha Hn Hc; cbn [apply_loop];
    rewrite !(bind_val _ _ _ _ _ (this_smc_val _ _)); cbn [fst].
  - destruct (Z.ltb_spec (applied_index_ c) (commit_index_ c)); [lia|].
    by rewrite firstn_O, handed_over_nil.
  - destruct (Z.ltb_spec (applied_index_ c) (commit_index_ c)); [|lia].
    pose proof (ls_small l Hok) as Hsm. unfold int_add.
    assert (Hr : INT_MIN <= applied_index_ c + 1 <= INT_MAX) by (unfold INT_MIN, INT_MAX in *; lia).
    rewrite (bind_val _ _ _ _ _ (int_result_ok _ _ Hr)).
    destruct (lookup_lt_is_Some_2 (ls_view l) (Z.to_nat (applied_index_ c + 1)) ltac:(lia)) as [e He].
    rewrite (bind_val _ _ _ _ _ (apply_one_ok c l e Hok Hs Ha He)).
    rewrite IH; cbn; [|done|lia|lia|done]. do 2 f_equal.
    rewrite (drop_S (ls_view l) e (Z.to_nat (applied_index_ c + 1)) He).
    unfold handed_over. cbn [applied_index_ write_thread_pool_ set_applied_index_
      set_write_thread_pool_ commit_index_ read_thread_pool workers tasks stop tasks_of firstn length].
    rewrite <- app_assoc. cbn [app].
    replace (applied_index_ c + Z.of_nat 1) with (applied_index_ c + 1) by lia.
    replace (Z.to_nat (applied_index_ c + 1 + 1)) with (S (Z.to_nat (applied_index_ c + 1))) by lia.
    set (k := length (firstn n _)). replace (applied_index_ c + Z.of_nat (S k))
      with (applied_index_ c + 1 + Z.of_nat k) by lia.
    done.
Qed.

(** Raising the commit index hands over the entries up to it, and nothing when
    they are all applied. *)
Lemma update_commit_ok i c l :
  ls_ok l -> stop (write_thread_pool_ c) = false -> -1 <= applied_index_ c ->
  i < Z.of_nat (length (ls_view l)) ->
  update_commit_index_and_apply i (c, l) =
    (Val tt, (handed_over (firstn (Z.to_nat (i - applied_index_ c))
                (skipn (Z.to_nat (applied_index_ c + 1)) (ls_view l))) (set_commit_index_ i c), l)).
Proof.
  intros Hok Hs Ha Hi. unfold update_commit_index_and_apply, update, bind at 1. cbn [modify].
  unfold modify. rewrite (bind_val _ _ _ _ _ (this_smc_val _ _)). by rewrite apply_loop_ok.
Qed.
End lemmas.
(** ** In order, without gaps *)

Section in_order.
Context {L : Type} {LS : LogStore L}.

(** The task applies the message of the entry that [get] gave for its index. *)
Definition gotten (t : apply_task) : Prop :=
  exists (l : L) entry l', ls_get (snd t) l = (Val entry, l') /\ fst t = en_msg entry.

(** From [c] to [c'] the entries behind [applied_index_], one by one and in
    order, became tasks of the writer's pool, each with the entry's message. *)
Definition hands_over (c c' : StateMachineControler) : Prop :=
  exists ts,
    write_thread_pool_ c' =
      {| workers := workers (write_thread_pool_ c); tasks := tasks (write_thread_pool_ c) ++ ts;
         stop := stop (write_thread_pool_ c) |} /\
    map snd ts = seqZ (applied_index_ c + 1) (applied_index_ c' - applied_index_ c) /\
    Forall gotten ts /\
    applied_index_ c <= applied_index_ c'.

#[global] Instance hands_over_preorder : PreOrder hands_over.
Proof.
  split.
  - intros c. exists []. rewrite app_nil_r, Z.sub_diag. destruct (write_thread_pool_ c). done.
  - intros c1 c2 c3 (ts & E & Hs & Hg & Hle) (ts' & E' & Hs' & Hg' & Hle'). exists (ts ++ ts').
    rewrite E', E. cbn [workers tasks stop]. rewrite app_assoc. split_and!; [done| |by apply Forall_app_2|lia].
    assert (map snd (ts ++ ts') = map snd ts ++ map snd ts') as -> by apply map_app.
    rewrite Hs, Hs'.
    replace (applied_index_ c3 - applied_index_ c1)
      with ((applied_index_ c2 - applied_index_ c1) + (applied_index_ c3 - applied_index_ c2)) by lia.
    rewrite seqZ_app by lia. do 2 f_equal. lia.
Qed.

Lemma hands_over_nothing c c' :
  write_thread_pool_ c' = write_thread_pool_ c -> applied_index_ c' = applied_index_ c -> hands_over c c'.
Proof.
  intros E Ea. exists []. rewrite E, Ea, app_nil_r, Z.sub_diag. by destruct (write_thread_pool_ c).
Qed.

Lemma apply_hands_over s :
  hands_over (fst s) (fst (snd (apply_to_state_machine (L := L) (applied_index_ (fst s) + 1) s))).
Proof.
  destruct s as [c l]. unfold apply_to_state_machine, entries_get, zoom, bind. cbn [fst snd].
  destruct (ls_get (applied_index_ c + 1) l) as [[e| | |] l'] eqn:Eg; try reflexivity.
  unfold enqueue_write, zoom, enqueue. cbn [fst].
  destruct (stop (write_thread_pool_ c)) eqn:Hs; cbn.
  - by apply hands_over_nothing.
  - exists [(en_msg e, applied_index_ c + 1)]. cbn. rewrite Hs. split_and!; [done| | |lia].
    + by replace (applied_index_ c + 1 - applied_index_ c) with 1 by lia.
    + constructor; [by exists l, e, l'|done].
Qed.

Lemma apply_loop_hands_over fuel s :
  hands_over (fst s) (fst (snd (apply_loop (L := L) fuel s))).
Proof.
  revert s. induction fuel as [|fuel IH]; intros s; cbn [apply_loop];
    rewrite !(bind_val _ _ _ _ _ (this_smc_val _ _)); destruct (_ <? _); try reflexivity.
  unfold int_add, int_result. destruct (in_int _); [|reflexivity]. rewrite bind_ret.
  pose proof (apply_hands_over s) as H1. unfold bind.
  destruct (apply_to_state_machine _ s) as [[] s1]; try done. etrans; [exact H1|apply IH].
Qed.

Lemma update_hands_over i s :
  hands_over (fst s) (fst (snd (update_commit_index_and_apply (L := L) i s))).
Proof.
  destruct s as [c l]. unfold update_commit_index_and_apply, update, this, bind at 1 2. cbn -[apply_loop].
  etrans; [|apply apply_loop_hands_over]. by apply hands_over_nothing.
Qed.

(** The entries up to the commit index and no others; all of them, if it returns. *)
Definition reached (i : Z) (a : Z) (r : res unit) (c' : StateMachineControler) : Prop :=
  applied_index_ c' <= Z.max i a /\ (r = Val tt -> i <= applied_index_ c').

Lemma apply_one_index i s :
  let '(r, s') := apply_to_state_machine (L := L) i s in
  commit_index_ (fst s') = commit_index_ (fst s) /\
  applied_index_ (fst s') = match r with Val _ => i | _ => applied_index_ (fst s) end.
Proof.
  destruct s as [c l]. unfold apply_to_state_machine, entries_get, zoom, bind. cbn [fst snd].
  destruct (ls_get i l) as [[e| | |] l']; try done.
  unfold enqueue_write, zoom. cbn [fst]. by destruct (enqueue _ _) as [[] ?].
Qed.

Lemma apply_loop_reached fuel s :
  let '(r, s') := apply_loop (L := L) fuel s in
  reached (commit_index_ (fst s)) (applied_index_ (fst s)) r (fst s').
Proof.
  revert s. induction fuel as [|fuel IH]; intros s; cbn [apply_loop];
    rewrite !(bind_val _ _ _ _ _ (this_smc_val _ _)); destruct (Z.ltb_spec (applied_index_ (fst s)) (commit_index_ (fst s)));
    try (by split; [lia|]).
  unfold int_add, int_result. destruct (in_int _); [|by split; [cbn; lia|]]. rewrite bind_ret.
  pose proof (apply_one_index (applied_index_ (fst s) + 1) s) as H1. unfold bind.
  destruct (apply_to_state_machine _ s) as [[[]| | |] s1]; destruct H1 as [H1 H2]; [|by split; [lia|]..].
  specialize (IH s1). destruct (apply_loop fuel s1) as [r s2]. destruct IH as [H3 H4]. split; [lia|]. rewrite <- H1. exact H4.
Qed.

Lemma update_reached i s :
  let '(r, s') := update_commit_index_and_apply (L := L) i s in reached i (applied_index_ (fst s)) r (fst s').
Proof.
  destruct s as [c l]. unfold update_commit_index_and_apply, update, this, bind at 1 2. cbn -[apply_loop].
  exact (apply_loop_reached _ (set_commit_index_ i c, l)).
Qed.
End in_order.

(** ** The log is only read *)

Section reads.
Context {L : Type} {LS : LogStore L} (R : relation L) {HR : PreOrder R} (Hget : forall i, stable R (ls_get i)).

Definition log_related (s s' : StateMachineControler * L) : Prop := R (snd s) (snd s').
#[local] Instance log_related_preorder : PreOrder log_related.
Proof. split; unfold log_related; [intros s|intros s1 s2 s3 H1 H2]; [reflexivity|by etrans]. Qed.

Lemma apply_loop_reads fuel : stable log_related (apply_loop fuel).
Proof.
  assert (Hu : forall f, stable log_related (update f)) by (intros f [c l]; unfold log_related; cbn; reflexivity).
  induction fuel as [|fuel IH]; cbn [apply_loop]; unfold this;
    (apply stable_bind; [exact _|by apply stable_gets; exact _|intros applied]);
    (apply stable_bind; [exact _|by apply stable_gets; exact _|intros commit]); apply stable_if;
    try (apply stable_ret; exact _); [apply stable_ub; exact _|].
  apply stable_bind; [exact _|apply stable_int_add; exact _|intros next].
  apply stable_bind; [exact _| |intros _; exact IH]. unfold apply_to_state_machine.
  apply stable_bind; [exact _| |intros e; apply stable_bind; [exact _| |intros _; apply Hu]].
  - intros [c l]. unfold log_related, entries_get, zoom. specialize (Hget next l). cbn. by destruct (ls_get next l).
  - intros [c l]. unfold log_related, enqueue_write, zoom. cbn. by destruct (enqueue _ _).
Qed.

Lemma update_reads i : stable log_related (update_commit_index_and_apply i).
Proof.
  unfold update_commit_index_and_apply, update, this. apply stable_bind; [exact _| |intros _].
  { intros [c l]. unfold log_related. cbn. reflexivity. }
  apply stable_bind; [exact _|apply stable_gets; exact _|intros applied; apply apply_loop_reads].
Qed.
End reads.
End StateMachineControler.
