(* ===== verification/RaftServer.v ===== *)
(** RaftServer.h and RaftServer.cpp: one replica.  Every member function is a
    computation on the record of the data members; the bodies follow the source
    line by line, calls and throws included.

    The log [L], the transport [N] and the timers [T] are used through the
    interfaces of Interfaces and Platform.  A handler passed to [async_wait] is
    a value of [handler]; [run_handler] is its body. *)

From stdpp Require Import sorting.
From S2P Require Import Prelude CxxString Platform Messages Util Interfaces ThreadPool StateMachineControler.

Module RaftServer.
Import StateMachineControler (StateMachineControler).

Inductive State := follower | candidate | primary.
#[export] Instance State_eq_dec : EqDecision State.
Proof. solve_decision. Defined.

(** The closures the server hands to [async_wait], and the error code they are
    called with. *)
Inductive handler :=
| H_run
| H_trans2F
| H_trans2C
| H_AE (server : server_addr)
| H_RV (server : server_addr).
#[export] Instance handler_eq_dec : EqDecision handler.
Proof. solve_decision. Defined.

Inductive error_code := no_error | operation_aborted | other_error (message : string).

Record RaftServer (L N T : Type) := {
  winned_votes_ : Z;
  already_voted_ : bool;
  known_primary_ : server_addr;
  config_path_ : string;
  term_ : Z;
  state_ : State;
  configuration_ : list server_addr;
  majority_ : Z;
  N_ : Z;
  ip_ : string;
  port_ : Z;
  server_ : server_addr;
  network_ : N;
  current_rpc_lsn_ : gmap server_addr Z;
  follower_rpc_lsn_ : gmap server_addr Z;
  candidate_timer_ : T;
  retry_timers_ : gmap server_addr T;
  commit_index_ : Z;
  entries_ : L;
  nextIndex_ : gmap server_addr Z;
  Follower_saved_index : gmap server_addr Z;
  smc_ : StateMachineControler;
  entryIndex_to_socketAddr_map_ : gmap Z server_addr;
  rand_seed : Z;
}.
Arguments winned_votes_ {_ _ _} _.
Arguments already_voted_ {_ _ _} _.
Arguments known_primary_ {_ _ _} _.
Arguments config_path_ {_ _ _} _.
Arguments term_ {_ _ _} _.
Arguments state_ {_ _ _} _.
Arguments configuration_ {_ _ _} _.
Arguments majority_ {_ _ _} _.
Arguments N_ {_ _ _} _.
Arguments ip_ {_ _ _} _.
Arguments port_ {_ _ _} _.
Arguments server_ {_ _ _} _.
Arguments network_ {_ _ _} _.
Arguments current_rpc_lsn_ {_ _ _} _.
Arguments follower_rpc_lsn_ {_ _ _} _.
Arguments candidate_timer_ {_ _ _} _.
Arguments retry_timers_ {_ _ _} _.
Arguments commit_index_ {_ _ _} _.
Arguments entries_ {_ _ _} _.
Arguments nextIndex_ {_ _ _} _.
Arguments Follower_saved_index {_ _ _} _.
Arguments smc_ {_ _ _} _.
Arguments entryIndex_to_socketAddr_map_ {_ _ _} _.
Arguments rand_seed {_ _ _} _.

Section setters.
Context {L N T : Type}.
Implicit Types (s : RaftServer L N T).
Definition set_winned_votes_ (x : Z) s : RaftServer L N T := {|
  winned_votes_ := x; already_voted_ := already_voted_ s; known_primary_ := known_primary_ s;
  config_path_ := config_path_ s; term_ := term_ s; state_ := state_ s; configuration_ :=
  configuration_ s; majority_ := majority_ s; N_ := N_ s; ip_ := ip_ s; port_ := port_ s;
  server_ := server_ s; network_ := network_ s; current_rpc_lsn_ := current_rpc_lsn_ s;
  follower_rpc_lsn_ := follower_rpc_lsn_ s; candidate_timer_ := candidate_timer_ s;
  retry_timers_ := retry_timers_ s; commit_index_ := commit_index_ s; entries_ := entries_ s;
  nextIndex_ := nextIndex_ s; Follower_saved_index := Follower_saved_index s; smc_ := smc_ s;
  entryIndex_to_socketAddr_map_ := entryIndex_to_socketAddr_map_ s; rand_seed := rand_seed s |}.
Definition set_already_voted_ (x : bool) s : RaftServer L N T := {|
  winned_votes_ := winned_votes_ s; already_voted_ := x; known_primary_ := known_primary_ s;
  config_path_ := config_path_ s; term_ := term_ s; state_ := state_ s; configuration_ :=
  configuration_ s; majority_ := majority_ s; N_ := N_ s; ip_ := ip_ s; port_ := port_ s;
  server_ := server_ s; network_ := network_ s; current_rpc_lsn_ := current_rpc_lsn_ s;
  follower_rpc_lsn_ := follower_rpc_lsn_ s; candidate_timer_ := candidate_timer_ s;
  retry_timers_ := retry_timers_ s; commit_index_ := commit_index_ s; entries_ := entries_ s;
  nextIndex_ := nextIndex_ s; Follower_saved_index := Follower_saved_index s; smc_ := smc_ s;
  entryIndex_to_socketAddr_map_ := entryIndex_to_socketAddr_map_ s; rand_seed := rand_seed s |}.
Definition set_term_ (x : Z) s : RaftServer L N T := {|
  winned_votes_ := winned_votes_ s; already_voted_ := already_voted_ s; known_primary_ :=
  known_primary_ s; config_path_ := config_path_ s; term_ := x; state_ := state_ s;
  configuration_ := configuration_ s; majority_ := majority_ s; N_ := N_ s; ip_ := ip_ s;
  port_ := port_ s; server_ := server_ s; network_ := network_ s; current_rpc_lsn_ :=
  current_rpc_lsn_ s; follower_rpc_lsn_ := follower_rpc_lsn_ s; candidate_timer_ :=
  candidate_timer_ s; retry_timers_ := retry_timers_ s; commit_index_ := commit_index_ s;
  entries_ := entries_ s; nextIndex_ := nextIndex_ s; Follower_saved_index :=
  Follower_saved_index s; smc_ := smc_ s; entryIndex_to_socketAddr_map_ :=
  entryIndex_to_socketAddr_map_ s; rand_seed := rand_seed s |}.
Definition set_state_ (x : State) s : RaftServer L N T := {|
  winned_votes_ := winned_votes_ s; already_voted_ := already_voted_ s; known_primary_ :=
  known_primary_ s; config_path_ := config_path_ s; term_ := term_ s; state_ := x;
  configuration_ := configuration_ s; majority_ := majority_ s; N_ := N_ s; ip_ := ip_ s;
  port_ := port_ s; server_ := server_ s; network_ := network_ s; current_rpc_lsn_ :=
  current_rpc_lsn_ s; follower_rpc_lsn_ := follower_rpc_lsn_ s; candidate_timer_ :=
  candidate_timer_ s; retry_timers_ := retry_timers_ s; commit_index_ := commit_index_ s;
  entries_ := entries_ s; nextIndex_ := nextIndex_ s; Follower_saved_index :=
  Follower_saved_index s; smc_ := smc_ s; entryIndex_to_socketAddr_map_ :=
  entryIndex_to_socketAddr_map_ s; rand_seed := rand_seed s |}.
Definition set_configuration_ (x : list server_addr) s : RaftServer L N T := {|
  winned_votes_ := winned_votes_ s; already_voted_ := already_voted_ s; known_primary_ :=
  known_primary_ s; config_path_ := config_path_ s; term_ := term_ s; state_ := state_ s;
  configuration_ := x; majority_ := majority_ s; N_ := N_ s; ip_ := ip_ s; port_ := port_ s;
  server_ := server_ s; network_ := network_ s; current_rpc_lsn_ := current_rpc_lsn_ s;
  follower_rpc_lsn_ := follower_rpc_lsn_ s; candidate_timer_ := candidate_timer_ s;
  retry_timers_ := retry_timers_ s; commit_index_ := commit_index_ s; entries_ := entries_ s;
  nextIndex_ := nextIndex_ s; Follower_saved_index := Follower_saved_index s; smc_ := smc_ s;
  entryIndex_to_socketAddr_map_ := entryIndex_to_socketAddr_map_ s; rand_seed := rand_seed s |}.
Definition set_majority_ (x : Z) s : RaftServer L N T := {|
  winned_votes_ := winned_votes_ s; already_voted_ := already_voted_ s; known_primary_ :=
  known_primary_ s; config_path_ := config_path_ s; term_ := term_ s; state_ := state_ s;
  configuration_ := configuration_ s; majority_ := x; N_ := N_ s; ip_ := ip_ s; port_ := port_
  s; server_ := server_ s; network_ := network_ s; current_rpc_lsn_ := current_rpc_lsn_ s;
  follower_rpc_lsn_ := follower_rpc_lsn_ s; candidate_timer_ := candidate_timer_ s;
  retry_timers_ := retry_timers_ s; commit_index_ := commit_index_ s; entries_ := entries_ s;
  nextIndex_ := nextIndex_ s; Follower_saved_index := Follower_saved_index s; smc_ := smc_ s;
  entryIndex_to_socketAddr_map_ := entryIndex_to_socketAddr_map_ s; rand_seed := rand_seed s |}.
Definition set_N_ (x : Z) s : RaftServer L N T := {|
  winned_votes_ := winned_votes_ s; already_voted_ := already_voted_ s; known_primary_ :=
  known_primary_ s; config_path_ := config_path_ s; term_ := term_ s; state_ := state_ s;
  configuration_ := configuration_ s; majority_ := majority_ s; N_ := x; ip_ := ip_ s; port_
  := port_ s; server_ := server_ s; network_ := network_ s; current_rpc_lsn_ :=
  current_rpc_lsn_ s; follower_rpc_lsn_ := follower_rpc_lsn_ s; candidate_timer_ :=
  candidate_timer_ s; retry_timers_ := retry_timers_ s; commit_index_ := commit_index_ s;
  entries_ := entries_ s; nextIndex_ := nextIndex_ s; Follower_saved_index :=
  Follower_saved_index s; smc_ := smc_ s; entryIndex_to_socketAddr_map_ :=
  entryIndex_to_socketAddr_map_ s; rand_seed := rand_seed s |}.
Definition set_network_ (x : N) s : RaftServer L N T := {|
  winned_votes_ := winned_votes_ s; already_voted_ := already_voted_ s; known_primary_ :=
  known_primary_ s; config_path_ := config_path_ s; term_ := term_ s; state_ := state_ s;
  configuration_ := configuration_ s; majority_ := majority_ s; N_ := N_ s; ip_ := ip_ s;
  port_ := port_ s; server_ := server_ s; network_ := x; current_rpc_lsn_ := current_rpc_lsn_
  s; follower_rpc_lsn_ := follower_rpc_lsn_ s; candidate_timer_ := candidate_timer_ s;
  retry_timers_ := retry_timers_ s; commit_index_ := commit_index_ s; entries_ := entries_ s;
  nextIndex_ := nextIndex_ s; Follower_saved_index := Follower_saved_index s; smc_ := smc_ s;
  entryIndex_to_socketAddr_map_ := entryIndex_to_socketAddr_map_ s; rand_seed := rand_seed s |}.
Definition set_current_rpc_lsn_ (x : gmap server_addr Z) s : RaftServer L N T := {|
  winned_votes_ := winned_votes_ s; already_voted_ := already_voted_ s; known_primary_ :=
  known_primary_ s; config_path_ := config_path_ s; term_ := term_ s; state_ := state_ s;
  configuration_ := configuration_ s; majority_ := majority_ s; N_ := N_ s; ip_ := ip_ s;
  port_ := port_ s; server_ := server_ s; network_ := network_ s; current_rpc_lsn_ := x;
  follower_rpc_lsn_ := follower_rpc_lsn_ s; candidate_timer_ := candidate_timer_ s;
  retry_timers_ := retry_timers_ s; commit_index_ := commit_index_ s; entries_ := entries_ s;
  nextIndex_ := nextIndex_ s; Follower_saved_index := Follower_saved_index s; smc_ := smc_ s;
  entryIndex_to_socketAddr_map_ := entryIndex_to_socketAddr_map_ s; rand_seed := rand_seed s |}.
Definition set_follower_rpc_lsn_ (x : gmap server_addr Z) s : RaftServer L N T := {|
  winned_votes_ := winned_votes_ s; already_voted_ := already_voted_ s; known_primary_ :=
  known_primary_ s; config_path_ := config_path_ s; term_ := term_ s; state_ := state_ s;
  configuration_ := configuration_ s; majority_ := majority_ s; N_ := N_ s; ip_ := ip_ s;
  port_ := port_ s; server_ := server_ s; network_ := network_ s; current_rpc_lsn_ :=
  current_rpc_lsn_ s; follower_rpc_lsn_ := x; candidate_timer_ := candidate_timer_ s;
  retry_timers_ := retry_timers_ s; commit_index_ := commit_index_ s; entries_ := entries_ s;
  nextIndex_ := nextIndex_ s; Follower_saved_index := Follower_saved_index s; smc_ := smc_ s;
  entryIndex_to_socketAddr_map_ := entryIndex_to_socketAddr_map_ s; rand_seed := rand_seed s |}.
Definition set_candidate_timer_ (x : T) s : RaftServer L N T := {|
  winned_votes_ := winned_votes_ s; already_voted_ := already_voted_ s; known_primary_ :=
  known_primary_ s; config_path_ := config_path_ s; term_ := term_ s; state_ := state_ s;
  configuration_ := configuration_ s; majority_ := majority_ s; N_ := N_ s; ip_ := ip_ s;
  port_ := port_ s; server_ := server_ s; network_ := network_ s; current_rpc_lsn_ :=
  current_rpc_lsn_ s; follower_rpc_lsn_ := follower_rpc_lsn_ s; candidate_timer_ := x;
  retry_timers_ := retry_timers_ s; commit_index_ := commit_index_ s; entries_ := entries_ s;
  nextIndex_ := nextIndex_ s; Follower_saved_index := Follower_saved_index s; smc_ := smc_ s;
  entryIndex_to_socketAddr_map_ := entryIndex_to_socketAddr_map_ s; rand_seed := rand_seed s |}.
Definition set_retry_timers_ (x : gmap server_addr T) s : RaftServer L N T := {|
  winned_votes_ := winned_votes_ s; already_voted_ := already_voted_ s; known_primary_ :=
  known_primary_ s; config_path_ := config_path_ s; term_ := term_ s; state_ := state_ s;
  configuration_ := configuration_ s; majority_ := majority_ s; N_ := N_ s; ip_ := ip_ s;
  port_ := port_ s; server_ := server_ s; network_ := network_ s; current_rpc_lsn_ :=
  current_rpc_lsn_ s; follower_rpc_lsn_ := follower_rpc_lsn_ s; candidate_timer_ :=
  candidate_timer_ s; retry_timers_ := x; commit_index_ := commit_index_ s; entries_ :=
  entries_ s; nextIndex_ := nextIndex_ s; Follower_saved_index := Follower_saved_index s; smc_
  := smc_ s; entryIndex_to_socketAddr_map_ := entryIndex_to_socketAddr_map_ s; rand_seed :=
  rand_seed s |}.
Definition set_commit_index_ (x : Z) s : RaftServer L N T := {|
  winned_votes_ := winned_votes_ s; already_voted_ := already_voted_ s; known_primary_ :=
  known_primary_ s; config_path_ := config_path_ s; term_ := term_ s; state_ := state_ s;
  configuration_ := configuration_ s; majority_ := majority_ s; N_ := N_ s; ip_ := ip_ s;
  port_ := port_ s; server_ := server_ s; network_ := network_ s; current_rpc_lsn_ :=
  current_rpc_lsn_ s; follower_rpc_lsn_ := follower_rpc_lsn_ s; candidate_timer_ :=
  candidate_timer_ s; retry_timers_ := retry_timers_ s; commit_index_ := x; entries_ :=
  entries_ s; nextIndex_ := nextIndex_ s; Follower_saved_index := Follower_saved_index s; smc_
  := smc_ s; entryIndex_to_socketAddr_map_ := entryIndex_to_socketAddr_map_ s; rand_seed :=
  rand_seed s |}.
Definition set_entries_ (x : L) s : RaftServer L N T := {|
  winned_votes_ := winned_votes_ s; already_voted_ := already_voted_ s; known_primary_ :=
  known_primary_ s; config_path_ := config_path_ s; term_ := term_ s; state_ := state_ s;
  configuration_ := configuration_ s; majority_ := majority_ s; N_ := N_ s; ip_ := ip_ s;
  port_ := port_ s; server_ := server_ s; network_ := network_ s; current_rpc_lsn_ :=
  current_rpc_lsn_ s; follower_rpc_lsn_ := follower_rpc_lsn_ s; candidate_timer_ :=
  candidate_timer_ s; retry_timers_ := retry_timers_ s; commit_index_ := commit_index_ s;
  entries_ := x; nextIndex_ := nextIndex_ s; Follower_saved_index := Follower_saved_index s;
  smc_ := smc_ s; entryIndex_to_socketAddr_map_ := entryIndex_to_socketAddr_map_ s; rand_seed
  := rand_seed s |}.
Definition set_nextIndex_ (x : gmap server_addr Z) s : RaftServer L N T := {|
  winned_votes_ := winned_votes_ s; already_voted_ := already_voted_ s; known_primary_ :=
  known_primary_ s; config_path_ := config_path_ s; term_ := term_ s; state_ := state_ s;
  configuration_ := configuration_ s; majority_ := majority_ s; N_ := N_ s; ip_ := ip_ s;
  port_ := port_ s; server_ := server_ s; network_ := network_ s; current_rpc_lsn_ :=
  current_rpc_lsn_ s; follower_rpc_lsn_ := follower_rpc_lsn_ s; candidate_timer_ :=
  candidate_timer_ s; retry_timers_ := retry_timers_ s; commit_index_ := commit_index_ s;
  entries_ := entries_ s; nextIndex_ := x; Follower_saved_index := Follower_saved_index s;
  smc_ := smc_ s; entryIndex_to_socketAddr_map_ := entryIndex_to_socketAddr_map_ s; rand_seed
  := rand_seed s |}.
Definition set_Follower_saved_index (x : gmap server_addr Z) s : RaftServer L N T := {|
  winned_votes_ := winned_votes_ s; already_voted_ := already_voted_ s; known_primary_ :=
  known_primary_ s; config_path_ := config_path_ s; term_ := term_ s; state_ := state_ s;
  configuration_ := configuration_ s; majority_ := majority_ s; N_ := N_ s; ip_ := ip_ s;
  port_ := port_ s; server_ := server_ s; network_ := network_ s; current_rpc_lsn_ :=
  current_rpc_lsn_ s; follower_rpc_lsn_ := follower_rpc_lsn_ s; candidate_timer_ :=
  candidate_timer_ s; retry_timers_ := retry_timers_ s; commit_index_ := commit_index_ s;
  entries_ := entries_ s; nextIndex_ := nextIndex_ s; Follower_saved_index := x; smc_ := smc_
  s; entryIndex_to_socketAddr_map_ := entryIndex_to_socketAddr_map_ s; rand_seed := rand_seed
  s |}.
Definition set_smc_ (x : StateMachineControler) s : RaftServer L N T := {|
  winned_votes_ := winned_votes_ s; already_voted_ := already_voted_ s; known_primary_ :=
  known_primary_ s; config_path_ := config_path_ s; term_ := term_ s; state_ := state_ s;
  configuration_ := configuration_ s; majority_ := majority_ s; N_ := N_ s; ip_ := ip_ s;
  port_ := port_ s; server_ := server_ s; network_ := network_ s; current_rpc_lsn_ :=
  current_rpc_lsn_ s; follower_rpc_lsn_ := follower_rpc_lsn_ s; candidate_timer_ :=
  candidate_timer_ s; retry_timers_ := retry_timers_ s; commit_index_ := commit_index_ s;
  entries_ := entries_ s; nextIndex_ := nextIndex_ s; Follower_saved_index :=
  Follower_saved_index s; smc_ := x; entryIndex_to_socketAddr_map_ :=
  entryIndex_to_socketAddr_map_ s; rand_seed := rand_seed s |}.
Definition set_entryIndex_to_socketAddr_map_ (x : gmap Z server_addr) s : RaftServer L N T := {|
  winned_votes_ := winned_votes_ s; already_voted_ := already_voted_ s; known_primary_ :=
  known_primary_ s; config_path_ := config_path_ s; term_ := term_ s; state_ := state_ s;
  configuration_ := configuration_ s; majority_ := majority_ s; N_ := N_ s; ip_ := ip_ s;
  port_ := port_ s; server_ := server_ s; network_ := network_ s; current_rpc_lsn_ :=
  current_rpc_lsn_ s; follower_rpc_lsn_ := follower_rpc_lsn_ s; candidate_timer_ :=
  candidate_timer_ s; retry_timers_ := retry_timers_ s; commit_index_ := commit_index_ s;
  entries_ := entries_ s; nextIndex_ := nextIndex_ s; Follower_saved_index :=
  Follower_saved_index s; smc_ := smc_ s; entryIndex_to_socketAddr_map_ := x; rand_seed :=
  rand_seed s |}.
Definition set_rand_seed (x : Z) s : RaftServer L N T := {|
  winned_votes_ := winned_votes_ s; already_voted_ := already_voted_ s; known_primary_ :=
  known_primary_ s; config_path_ := config_path_ s; term_ := term_ s; state_ := state_ s;
  configuration_ := configuration_ s; majority_ := majority_ s; N_ := N_ s; ip_ := ip_ s;
  port_ := port_ s; server_ := server_ s; network_ := network_ s; current_rpc_lsn_ :=
  current_rpc_lsn_ s; follower_rpc_lsn_ := follower_rpc_lsn_ s; candidate_timer_ :=
  candidate_timer_ s; retry_timers_ := retry_timers_ s; commit_index_ := commit_index_ s;
  entries_ := entries_ s; nextIndex_ := nextIndex_ s; Follower_saved_index :=
  Follower_saved_index s; smc_ := smc_ s; entryIndex_to_socketAddr_map_ :=
  entryIndex_to_socketAddr_map_ s; rand_seed := x |}.
End setters.

Definition file : string := "RaftServer.cpp".

Section server.
Context {L N T : Type} {LS : LogStore L} {TR : Transport N} {DT : DeadlineTimer handler T}
  {RD : Rand} {RC : RaftCodecs} {BS : BoostSplit}.

Abbreviation MS := (M (RaftServer L N T)).

(** ** Access to members *)

Definition on_entries {A} (m : M L A) : MS A := zoom entries_ set_entries_ m.
Definition on_network {A} (m : M N A) : MS A := zoom network_ set_network_ m.
Definition on_rand {A} (m : M Z A) : MS A := zoom rand_seed set_rand_seed m.
Definition on_smc {A} (m : M (StateMachineControler * L) A) : MS A :=
  zoom (fun s => (smc_ s, entries_ s)) (fun '(c, l) s => set_smc_ c (set_entries_ l s)) m.

Definition on_candidate_timer {A} (f : T -> A * T) : MS A := fun s =>
  let '(a, t) := f (candidate_timer_ s) in (Val a, set_candidate_timer_ t s).
(** [retry_timers_[server]->get_core()]; a server without timer has a null
    pointer. *)
Definition on_retry_timer {A} (server : server_addr) (f : T -> A * T) : MS A := fun s =>
  match retry_timers_ s !! server with
  | Some t0 => let '(a, t) := f t0 in
               (Val a, set_retry_timers_ (<[server := t]> (retry_timers_ s)) s)
  | None => (Undef "null pointer dereference", s)
  end.

(** Reading [m[server]] for the maps to [int] of the server. *)
Definition current_rpc_lsn_at (server : server_addr) : MS Z := fun s =>
  (Val (map_at 0 server (current_rpc_lsn_ s)),
   set_current_rpc_lsn_ (map_touch 0 server (current_rpc_lsn_ s)) s).
Definition follower_rpc_lsn_at (server : server_addr) : MS Z := fun s =>
  (Val (map_at 0 server (follower_rpc_lsn_ s)),
   set_follower_rpc_lsn_ (map_touch 0 server (follower_rpc_lsn_ s)) s).
Definition nextIndex_at (server : server_addr) : MS Z := fun s =>
  (Val (map_at 0 server (nextIndex_ s)),
   set_nextIndex_ (map_touch 0 server (nextIndex_ s)) s).

(** [m[server] = v] *)
Definition put_current_rpc_lsn (server : server_addr) (v : Z) : MS unit :=
  modify (fun s => set_current_rpc_lsn_ (<[server := v]> (current_rpc_lsn_ s)) s).
Definition put_follower_rpc_lsn (server : server_addr) (v : Z) : MS unit :=
  modify (fun s => set_follower_rpc_lsn_ (<[server := v]> (follower_rpc_lsn_ s)) s).
Definition put_nextIndex (server : server_addr) (v : Z) : MS unit :=
  modify (fun s => set_nextIndex_ (<[server := v]> (nextIndex_ s)) s).
Definition put_saved_index (server : server_addr) (v : Z) : MS unit :=
  modify (fun s => set_Follower_saved_index (<[server := v]> (Follower_saved_index s)) s).

(** ** Start *)

(** [in.getline(str, 255)] on the rest of the file: the text read, what is
    left, and whether [in] is still good to read from. *)
Fixpoint getline (n : nat) (text : string) : string * string * bool :=
  match text with
  | EmptyString => ("", "", true)
  | String "010" rest => ("", rest, true)
  | String c rest =>
      match n with
      | O => ("", text, false)
      | S n' => let '(line, left_over, good) := getline n' rest in (String c line, left_over, good)
      end
  end.
(** Nothing could be extracted at the end of the file: the stream fails. *)
Definition getline_255 (text : string) : string * string * bool :=
  match text with EmptyString => ("", "", false) | _ => getline 254 text end.

(** [string(str)] ends at the first NUL. *)
Fixpoint c_str (s : string) : string :=
  match s with
  | EmptyString => ""
  | String "000" _ => ""
  | String c s' => String c (c_str s')
  end.

(** The loop over the lines; [fuel] bounds their number. *)
Fixpoint read_config (fuel : nat) (good : bool) (text : string) : MS unit :=
  match fuel with
  | O => ub "out of fuel"
  | S fuel' =>
      if negb good then ret tt
      else
        let '(line, text', good') := getline_255 text in
        let str := c_str line in
        if slen str =? 0 then ret tt
        else
          let vec := split_str_boost str ":"%char in
          match vec with
          | [v0; v1] =>
              let! port := atoi v1 in
              let server := (v0, port) in
              modify (fun s => set_configuration_ (configuration_ s ++ [server]) s) ;;
              read_config fuel' good' text'
          | _ => throw_line file 87 ("failed to read the config file line: " +:+ str)
          end
  end.

(** [content] is the file's text, if it can be opened. *)
Definition load_config_from_file (content : option string) : MS unit :=
  match content with
  | None => throw_line file 76 "read config file failed"
  | Some text =>
      read_config (S (String.length text)) true text ;;
      modify (fun s => let n := Z.of_nat (length (configuration_ s)) in
                       set_majority_ (n / 2 + 1) (set_N_ n s))
  end.

(** The members before the body of the constructor runs; [entries] and
    [network] are built by their own constructors from the port. *)
Definition initial_members (_ip : string) (_port : Z) (config_path : string)
    (entries : L) (network : N) (smc : StateMachineControler) (seed : Z) : RaftServer L N T := {|
  winned_votes_ := 0; already_voted_ := false; known_primary_ := ("", 0);
  config_path_ := config_path; term_ := 0; state_ := follower; configuration_ := [];
  majority_ := 0; N_ := 0; ip_ := _ip; port_ := _port; server_ := (_ip, _port);
  network_ := network; current_rpc_lsn_ := ∅; follower_rpc_lsn_ := ∅;
  candidate_timer_ := new_timer; retry_timers_ := ∅; commit_index_ := -1; entries_ := entries;
  nextIndex_ := ∅; Follower_saved_index := ∅; smc_ := smc;
  entryIndex_to_socketAddr_map_ := ∅; rand_seed := seed |}.

(** The body of the constructor.  [insert] does not replace a timer. *)
Definition constructor_body (content : option string) : MS unit :=
  load_config_from_file content ;;
  let! configuration := gets configuration_ in
  for_each configuration (fun server_tuple =>
    put_nextIndex server_tuple 0 ;;
    put_saved_index server_tuple (-1) ;;
    put_current_rpc_lsn server_tuple 0 ;;
    put_follower_rpc_lsn server_tuple (-1) ;;
    modify (fun s => set_retry_timers_ (map_touch new_timer server_tuple (retry_timers_ s)) s)).

(** ** Roles *)

Definition cancel_all_timers : MS unit := modify (fun s =>
  set_retry_timers_ ((fun t => snd (set_expires_at_min t)) <$> retry_timers_ s)
    (set_candidate_timer_ (snd (set_expires_at_min (candidate_timer_ s))) s)).

Definition reset_both_rpc_lsn : MS unit :=
  let! configuration := gets configuration_ in
  for_each configuration (fun server_tuple =>
    put_current_rpc_lsn server_tuple 0 ;;
    put_follower_rpc_lsn server_tuple (-1)).

Definition update_term (term : Z) : MS unit :=
  let! term_ := gets term_ in
  if term_ <? term then
    reset_both_rpc_lsn ;;
    modify (set_term_ term)
  else if term_ =? term then ret tt
  else throw_line file 200 "term_ can't never decreases".

(** [candidate_timer_.expires_from_now(...)] *)
Definition candidate_expires_from_now : MS Z :=
  let! ms := on_rand random_candidate_expire in
  on_candidate_timer (expires_from_now ms).

Definition trans2F (term : Z) : MS unit :=
  cancel_all_timers ;;
  modify (set_winned_votes_ 0) ;;
  update_term term ;;
  modify (set_already_voted_ false) ;;
  modify (set_state_ follower) ;;
  let! waiting_count := candidate_expires_from_now in
  (if negb (waiting_count =? 0) then
     throw_line file 140 "trans2F在一开始已经执行了cancel_all_timers函数，所以这里不应该有waiting_count=0"
   else ret tt) ;;
  on_candidate_timer (fun t => (tt, async_wait H_trans2F t)).

Definition build_rpc_ae_string (server : server_addr) : MS string :=
  let! server_current_rpc_lsn := current_rpc_lsn_at server in
  let! next_lsn := int_add server_current_rpc_lsn 1 in
  put_current_rpc_lsn server next_lsn ;;
  let! term := gets term_ in
  let! commit_index := gets commit_index_ in
  let! ip := gets ip_ in
  let! port := gets port_ in
  let! index_to_send := nextIndex_at server in
  let! prelog_index := int_sub index_to_send 1 in
  let! prelog_term :=
    (if 0 <? index_to_send then
       let! prev_entry := on_entries (ls_get prelog_index) in
       ret (en_term prev_entry)
     else ret (-1)) in
  let! size := on_entries ls_size in
  let! entry_to_send :=
    (if index_to_send =? size then ret []
     else
       let! entry := on_entries (ls_get index_to_send) in
       ret [{| en_term := en_term entry; en_index := en_index entry; en_msg := en_msg entry |}]) in
  ret (SerializeToString {|
    ae_term := term; ae_prelog_term := prelog_term; ae_commit_index := commit_index;
    ae_lsn := server_current_rpc_lsn; ae_ip := ip; ae_port := port;
    ae_entry := entry_to_send; ae_prelog_index := prelog_index |}).

Definition AE (server : server_addr) : MS unit :=
  let! ae_rpc_str := build_rpc_ae_string server in
  on_network (make_rpc_call APPEND_ENTRY server ae_rpc_str) ;;
  let! ms := on_rand random_ae_retry_expire in
  let! waiting_counts := on_retry_timer server (expires_from_now ms) in
  if negb (waiting_counts =? 0) then
    throw_line file 316 "should be zero, a timer can't be interrupt by network, but when AE is called, there should be no hooks on the timer"
  else on_retry_timer server (fun t => (tt, async_wait (H_AE server) t)).

Definition trans2P : MS unit :=
  cancel_all_timers ;;
  modify (set_state_ primary) ;;
  let! entry_size := on_entries ls_size in
  let! configuration := gets configuration_ in
  for_each configuration (fun server =>
    put_nextIndex server entry_size ;;
    put_saved_index server (-1)) ;;
  let! server_ := gets server_ in
  let! last := int_sub entry_size 1 in
  put_saved_index server_ last ;;
  for_each configuration (fun server =>
    let port := snd server in
    let! port_ := gets port_ in
    if negb (port =? port_) then AE server else ret tt).

Definition build_rpc_rv_string (server : server_addr) : MS string :=
  let! server_current_rpc_lsn := current_rpc_lsn_at server in
  let! next_lsn := int_add server_current_rpc_lsn 1 in
  put_current_rpc_lsn server next_lsn ;;
  let! term := gets term_ in
  let! size := on_entries ls_size in
  let! latest_index := int_sub size 1 in
  let! ip := gets ip_ in
  let! port := gets port_ in
  ret (SerializeToString {|
    rv_term := term; rv_latest_index := latest_index; rv_latest_term := 0;
    rv_lsn := server_current_rpc_lsn; rv_ip := ip; rv_port := port |}).

Definition RV (server : server_addr) : MS unit :=
  let! rv_rpc_str := build_rpc_rv_string server in
  on_network (make_rpc_call REQUEST_VOTE server rv_rpc_str) ;;
  let! ms := on_rand random_rv_retry_expire in
  let! waiting_counts := on_retry_timer server (expires_from_now ms) in
  if negb (waiting_counts =? 0) then ret tt
  else on_retry_timer server (fun t => (tt, async_wait (H_RV server) t)).

Definition trans2C : MS unit :=
  cancel_all_timers ;;
  let! term := gets term_ in
  let! next_term := int_add term 1 in
  update_term next_term ;;
  modify (set_state_ candidate) ;;
  modify (set_winned_votes_ 1) ;;
  let! waiting_count := candidate_expires_from_now in
  (if waiting_count =? 0 then ret tt
   else throw_line file 230 "trans2C只能是timer_candidate_expire自然到期触发，所以不可能有waiting_count不为0的情况，否则就是未考虑的情况") ;;
  on_candidate_timer (fun t => (tt, async_wait H_trans2C t)) ;;
  let! configuration := gets configuration_ in
  for_each configuration (fun server =>
    let port := snd server in
    let! port_ := gets port_ in
    if negb (port =? port_) then RV server else ret tt).

(** [run()] up to [ioContext.run()], without [startAccept]. *)
Definition run : MS unit :=
  let! waiting_counts := candidate_expires_from_now in
  if negb (waiting_counts =? 0) then throw_line file 39 "when server starts this can't be 0"
  else on_candidate_timer (fun t => (tt, async_wait H_run t)).

(** ** Replies *)

Definition make_resp_rv (vote : bool) (context_log : string) (server : server_addr) (lsn : Z) : MS unit :=
  let! term := gets term_ in
  let! ip := gets ip_ in
  let! port := gets port_ in
  let msg := SerializeToString {|
    rrv_ok := vote; rrv_term := term; rrv_lsn := lsn; rrv_ip := ip; rrv_port := port |} in
  on_network (make_rpc_call RESP_VOTE server msg).

Definition make_resp_ae (ok : bool) (context_log : string) (server : server_addr) (lsn : Z)
    (is_empty_ae : bool) : MS unit :=
  let! term := gets term_ in
  let! ip := gets ip_ in
  let! port := gets port_ in
  let msg := SerializeToString {|
    rae_ok := ok; rae_term := term; rae_lsn := lsn; rae_ip := ip; rae_port := port;
    rae_is_empty_ae := is_empty_ae |} in
  on_network (make_rpc_call RESP_APPEND server msg).

(** ** Commit *)

Definition apply_to_state_machine (new_commit_index : Z) : MS unit :=
  on_smc (StateMachineControler.update_commit_index_and_apply new_commit_index).

(** [temp_sort]: the values of the map at the front of a zeroed vector as long
    as the configuration, in descending order. *)
Definition sorted_saved (values : list Z) (n : nat) : list Z :=
  merge_sort Z.ge (values ++ replicate (n - length values) 0).

(** The statement that logs the vector reads its first three elements. *)
Definition primary_update_commit_index (server : server_addr) (index : Z) : MS unit :=
  put_saved_index server index ;;
  let! configuration := gets configuration_ in
  let! values := gets (fun s => (map_to_list (Follower_saved_index s)).*2) in
  (if (length configuration <? length values)%nat then ub "vector index out of range" else ret tt) ;;
  let temp_sort := sorted_saved values (length configuration) in
  vec_at temp_sort 0 ;; vec_at temp_sort 1 ;; vec_at temp_sort 2 ;;
  let! majority := gets majority_ in
  let! commit_index := vec_at temp_sort (majority - 1) in
  modify (set_commit_index_ commit_index) ;;
  apply_to_state_machine commit_index.

Definition follower_update_commit_index (remote_commit_index : Z) : MS unit :=
  let! prev_commit_index := gets commit_index_ in
  let! size := on_entries ls_size in
  let! latest_index := int_sub size 1 in
  (if latest_index <? remote_commit_index then modify (set_commit_index_ latest_index)
   else modify (set_commit_index_ remote_commit_index)) ;;
  let! commit_index := gets commit_index_ in
  if commit_index <? prev_commit_index then
    throw_line file 808 "commit index can only grow, never decrease"
  else if prev_commit_index <? commit_index then apply_to_state_machine commit_index
  else ret tt.

(** ** Requests *)

Definition should_ignore_remote_rpc (remote : server_addr) (new_lsn : Z) : MS bool :=
  let! prev := follower_rpc_lsn_at remote in
  if new_lsn <=? prev then ret true
  else put_follower_rpc_lsn remote new_lsn ;; ret false.

(** The part of [react2ae] behind the checks: lines 518 to 540. *)
Definition accept_ae (server : server_addr) (rpc_ae : AppendEntryRpc) : MS unit :=
  let rpc_lsn := ae_lsn rpc_ae in
  let rpc_commit_index := ae_commit_index rpc_ae in
  let prelog_index := ae_prelog_index rpc_ae in
  match ae_entry rpc_ae with
  | [] =>
      let! size := on_entries ls_size in
      if size <? rpc_commit_index then
        throw_line file 524 "local commit_index should >= rpc_commit_index in this scene, see comment for explanation"
      else
        follower_update_commit_index rpc_commit_index ;;
        make_resp_ae true "empty rpc" server rpc_lsn true
  | entry :: _ =>
      let! index := int_add prelog_index 1 in
      if negb (en_index entry =? index) then
        throw_line file 533 "entry's index should == prelog_index + 1"
      else
        on_entries (ls_insert (u32 index) entry) ;;
        follower_update_commit_index rpc_commit_index ;;
        make_resp_ae true "entries modified" server rpc_lsn false
  end.

Definition react2ae (rpc_ae : AppendEntryRpc) : MS unit :=
  let remote_term := ae_term rpc_ae in
  let prelog_term := ae_prelog_term rpc_ae in
  let prelog_index := ae_prelog_index rpc_ae in
  let rpc_lsn := ae_lsn rpc_ae in
  let entry_size := Z.of_nat (length (ae_entry rpc_ae)) in
  let is_empty_ae := entry_size =? 0 in
  let server := (ae_ip rpc_ae, ae_port rpc_ae) in
  if 1 <? entry_size then throw_line file 465 "entry_size 不能大于1"
  else
  let! term := gets term_ in
  if remote_term <? term then
    make_resp_ae false "react2ae, term_ > term" server rpc_lsn is_empty_ae
  else
    let! state := gets state_ in
    if bool_decide (state = primary) && (term =? remote_term) then
      throw_line file 474 "error, one term has two primaries"
    else
      trans2F remote_term ;;
      let! ignore := should_ignore_remote_rpc server rpc_lsn in
      if ignore : bool then ret tt
      else if prelog_index =? -1 then
        if negb (prelog_term =? -1) then
          throw_line file 496 "prelog_index为-1，那么prelog_term也应该是-1"
        else accept_ae server rpc_ae
      else
        let! size := on_entries ls_size in
        if size <=? prelog_index then
          make_resp_ae false ("react2ae, term is ok, but follower's entry size is " +:+ to_string size +:+
            ", but prelog_index is " +:+ to_string prelog_index) server rpc_lsn is_empty_ae
        else
          let! prev_entry := on_entries (ls_get prelog_index) in
          let local_term := en_term prev_entry in
          if negb (prelog_term =? local_term) then
            make_resp_ae false ("react2ae, term is ok, but follower's entry of index(prelog_index) " +:+
              to_string prelog_index +:+ " whose term " +:+ to_string local_term +:+
              "!= than rpc's prelog_term" +:+ to_string prelog_term) server rpc_lsn is_empty_ae
          else accept_ae server rpc_ae.

Definition react2rv (rpc_rv : RequestVoteRpc) : MS unit :=
  let remote_term := rv_term rpc_rv in
  let rpc_lsn := rv_lsn rpc_rv in
  let remote_latest_index := rv_latest_index rpc_rv in
  let server := (rv_ip rpc_rv, rv_port rpc_rv) in
  let! term := gets term_ in
  if remote_term <? term then
    make_resp_rv false "react2rv: term_ > remote,  write back false" server rpc_lsn
  else
    (if term <? remote_term then trans2F remote_term else ret tt) ;;
    let! ignore := should_ignore_remote_rpc server rpc_lsn in
    if ignore : bool then ret tt
    else
    let! state := gets state_ in
    if bool_decide (state = candidate) || bool_decide (state = primary) then
      make_resp_rv false "react2rv: term_ = remote,  write back false" server rpc_lsn
    else
      let! already_voted := gets already_voted_ in
      if negb already_voted then
        let! size := on_entries ls_size in
        let! should_vote :=
          (if size =? 0 then ret true
           else
             let! last := int_sub size 1 in
             let! lastEntry := on_entries (ls_get last) in
             if remote_term <? en_term lastEntry then ret false
             else if en_term lastEntry <? remote_term then ret true
             else if remote_latest_index <? en_index lastEntry then ret false
             else ret true) in
        if should_vote : bool then
          make_resp_rv true "react2rv: A vote is send" server rpc_lsn ;;
          modify (set_already_voted_ true)
        else
          make_resp_rv false "react2rv: A_vote is denied for primary doesn't have newer log" server rpc_lsn
      else make_resp_rv false "react2rv: No votes left this term" server rpc_lsn.

(** ** Replies received *)

Definition primary_deal_resp_ae_with_same_term (server : server_addr)
    (resp_ae : Resp_AppendEntryRpc) : MS unit :=
  let resp_lsn := rae_lsn resp_ae in
  let! current_rpc_lsn := current_rpc_lsn_at server in
  let! expected := int_add resp_lsn 1 in
  if negb (current_rpc_lsn =? expected) then ret tt
  else
    let ok := rae_ok resp_ae in
    let! last_send_index := nextIndex_at server in
    if ok then
      let! size := on_entries ls_size in
      if size <? last_send_index then throw_line file 689 "last_send_index 不可能大于entry_size"
      else if last_send_index =? size then
        let! saved := int_sub last_send_index 1 in
        primary_update_commit_index server saved
      else
        (if rae_is_empty_ae resp_ae then
           let! saved := int_sub last_send_index 1 in
           primary_update_commit_index server saved
         else
           let! next := int_add last_send_index 1 in
           put_nextIndex server next ;;
           primary_update_commit_index server last_send_index) ;;
        on_retry_timer server set_expires_at_min ;;
        AE server
    else
      if last_send_index =? 0 then
        throw_line file 729 "P sends F a AE with index 0 (maybe with index 0 or emtry), F returns not ok, impossible"
      else
        let! next := int_sub last_send_index 1 in
        put_nextIndex server next ;;
        on_retry_timer server cancel ;;
        AE server.

Definition candidate_deal_resp_rv_with_same_term (server : server_addr)
    (resp_rv : Resp_RequestVoteRpc) : MS unit :=
  let resp_lsn := rrv_lsn resp_rv in
  let! current_rpc_lsn := current_rpc_lsn_at server in
  let! expected := int_add resp_lsn 1 in
  if negb (current_rpc_lsn =? expected) then ret tt
  else if rrv_ok resp_rv then
    let! votes := gets winned_votes_ in
    let! votes' := int_add votes 1 in
    modify (set_winned_votes_ votes') ;;
    let! majority := gets majority_ in
    if majority <=? votes' then trans2P
    else on_retry_timer server set_expires_at_min ;; ret tt
  else ret tt.

Definition react2resp_ae (resp_ae : Resp_AppendEntryRpc) : MS unit :=
  let remote_term := rae_term resp_ae in
  let server := (rae_ip resp_ae, rae_port resp_ae) in
  let! term := gets term_ in
  if term <? remote_term then trans2F remote_term
  else if remote_term <? term then ret tt
  else
    let! state := gets state_ in
    if bool_decide (state = primary) then primary_deal_resp_ae_with_same_term server resp_ae
    else throw_line file 623 "不可能的情况，主ae，收到resp_ae的remote_term与term_相等，但是state不为主，说明一个term出现了两个主，错误".

Definition react2resp_rv (resp_rv : Resp_RequestVoteRpc) : MS unit :=
  let server := (rrv_ip resp_rv, rrv_port resp_rv) in
  let remote_term := rrv_term resp_rv in
  let! term := gets term_ in
  if term <? remote_term then trans2F remote_term
  else if remote_term <? term then ret tt
  else
    let! state := gets state_ in
    if bool_decide (state = candidate) then candidate_deal_resp_rv_with_same_term server resp_rv
    else ret tt.

(** ** Clients *)

Definition get_from_state_machine (client_addr : server_addr) (client_query_str : string) : MS unit :=
  on_smc (StateMachineControler.get_from_state_machine client_query_str client_addr).

Definition append_client_apply_to_entries (client_addr : server_addr) (apply_str : string) : MS unit :=
  let! index := on_entries ls_size in
  modify (fun s => set_entryIndex_to_socketAddr_map_
    (<[index := client_addr]> (entryIndex_to_socketAddr_map_ s)) s) ;;
  let! term := gets term_ in
  let entry := {| en_term := term; en_index := index; en_msg := apply_str |} in
  on_entries (ls_insert (u32 index) entry) ;;
  let! server_ := gets server_ in
  put_saved_index server_ index.

Definition write_resp_apply_call (entry_index : Z) (res_str : string) : MS unit :=
  let! state := gets state_ in
  if bool_decide (state = primary) then
    let! found := gets (fun s => entryIndex_to_socketAddr_map_ s !! entry_index) in
    match found with
    | Some addr => on_network (make_rpc_call RESP_CLIENT_APPLY addr res_str)
    | None => ret tt
    end
  else ret tt.

Definition write_resp_query_call (addr : server_addr) (res_str : string) : MS unit :=
  on_network (make_rpc_call RESP_CLIENT_QUERY addr res_str).

(** ** Dispatch *)

Definition reactToIncomingMsg (_rpc_type : RPC_TYPE) (msg : string) (peer_addr : server_addr) : MS unit :=
  match _rpc_type with
  | REQUEST_VOTE => react2rv (ParseFromString msg)
  | APPEND_ENTRY => react2ae (ParseFromString msg)
  | RESP_VOTE => react2resp_rv (ParseFromString msg)
  | RESP_APPEND => react2resp_ae (ParseFromString msg)
  | CLIENT_APPLY => append_client_apply_to_entries peer_addr msg
  | CLIENT_QUERY => get_from_state_machine peer_addr msg
  | _ => ret tt
  end.

Definition timer_error (line : Z) (where_ message : string) : MS unit :=
  throw_line file line (where_ +:+ ", error: " +:+ message).
Definition impossible : string :=
  "逻辑错误，这里是不可能出现的，因为这个情景（trans2C未能即使取消h1，（然后RV->hook h2）h1运行)被waiting_counts != 0 完全覆盖了，如果抛出这个异常，说明出现了新的bug".

(** [timer->expires_at() == min_date_time] *)
Definition candidate_expired_at_min : MS bool := gets (fun s => expires_at_min (candidate_timer_ s)).
Definition retry_expired_at_min (server : server_addr) : MS bool :=
  on_retry_timer server (fun t => (expires_at_min t, t)).

(** The bodies of the handlers of the timers. *)
Definition run_handler (h : handler) (error : error_code) : MS unit :=
  match h, error with
  | _, operation_aborted => ret tt
  | H_run, other_error m => timer_error 54 "handler in run's candidate_timer" m
  | H_run, no_error =>
      let! canceled := candidate_expired_at_min in
      if canceled : bool then ret tt else trans2C
  | H_trans2F, other_error m => timer_error 155 "handler in trans2F's candidate_timers" m
  | H_trans2F, no_error =>
      let! canceled := candidate_expired_at_min in
      if canceled : bool then throw_line file 160 impossible else trans2C
  | H_trans2C, other_error m => timer_error 245 "handler in trans2C's candidate_timers" m
  | H_trans2C, no_error =>
      let! canceled := candidate_expired_at_min in
      if canceled : bool then throw_line file 250 impossible else trans2C
  | H_AE server, other_error m =>
      timer_error 331 ("handler in AE's retry timer to " +:+ server2str server) m
  | H_AE server, no_error =>
      let! canceled := retry_expired_at_min server in
      if canceled : bool then ret tt else AE server
  | H_RV server, other_error m =>
      timer_error 394 ("handler in RV's retry timer to " +:+ server2str server) m
  | H_RV server, no_error =>
      let! canceled := retry_expired_at_min server in
      if canceled : bool then throw_line file 399 impossible else RV server
  end.
End server.

End RaftServer.
