(* ===== verification/ServerFacts.v ===== *)
(** Lemmas on the computations of RaftServer that the property files share:
    how the accessors step, what [update_term], the timers and the role changes
    do, and which calls leave which members alone. *)

From stdpp Require Import sorting.
From S2P Require Import Prelude CxxString Platform Messages Util Interfaces ThreadPool StateMachineControler RaftServer.

Module ServerFacts.
Import StateMachineControler (StateMachineControler).
Export RaftServer.

(** ** Observations that calls keep *)

(** The members nothing but the constructor writes. *)
Definition constants {L N T} (s : RaftServer L N T) :=
  (configuration_ s, majority_ s, N_ s, (ip_ s, port_ s, server_ s)).

Create HintDb frame discriminated.

(** Relations that elementary calls respect, in three steps.  A relation is
    [Calm] if it is respected by writes of the members that say nothing of terms,
    roles, votes and commits, by calls that are no answers to vote requests and no
    AppendEntries, and by calls on the log and queries. *)
Class Calm {L N T} {LS : LogStore L} {TR : Transport N} (R : relation (RaftServer L N T)) : Prop := {
  #[global] frame_preorder :: PreOrder R;
  frame_current_lsn x s : R s (set_current_rpc_lsn_ x s);
  frame_follower_lsn x s : R s (set_follower_rpc_lsn_ x s);
  frame_candidate_timer x s : R s (set_candidate_timer_ x s);
  frame_retry_timers x s : R s (set_retry_timers_ x s);
  frame_nextIndex x s : R s (set_nextIndex_ x s);
  frame_saved_index x s : R s (set_Follower_saved_index x s);
  frame_clients x s : R s (set_entryIndex_to_socketAddr_map_ x s);
  frame_rand x s : R s (set_rand_seed x s);
  frame_log_size : stable R (on_entries ls_size);
  frame_log_get i : stable R (on_entries (ls_get i));
  frame_log_insert i x : stable R (on_entries (ls_insert i x));
  frame_call t a m : t <> RESP_VOTE -> t <> APPEND_ENTRY -> stable R (on_network (make_rpc_call t a m));
  frame_query q a : stable R (on_smc (StateMachineControler.get_from_state_machine q a));
}.

(** ... also by a change of term, of role and of the count of votes won, ... *)
Class Roles {L N T} {LS : LogStore L} {TR : Transport N} (R : relation (RaftServer L N T)) : Prop := {
  #[global] frame_calm :: Calm R;
  frame_winned_votes x s : R s (set_winned_votes_ x s);
  frame_state x s : R s (set_state_ x s);
  frame_term t : stable R (update_term t);
}.

(** ... and by the vote itself: then every member function respects it. *)
Class Frame {L N T} {LS : LogStore L} {TR : Transport N} (R : relation (RaftServer L N T)) : Prop := {
  #[global] frame_roles :: Roles R;
  frame_already_voted x s : R s (set_already_voted_ x s);
  frame_vote_call a m : stable R (on_network (make_rpc_call RESP_VOTE a m));
}.

(** Two classes apart: relations that committing respects, which is what a server
    does on an AppendEntry and its reply only, and that sending an AppendEntry
    respects. *)
Class Commits {L N T} {LS : LogStore L} (R : relation (RaftServer L N T)) : Prop := {
  frame_commit_index x s : R s (set_commit_index_ x s);
  frame_apply i : stable R (apply_to_state_machine i);
}.
Class Appends {L N T} {LS : LogStore L} {TR : Transport N} (R : relation (RaftServer L N T)) : Prop := {
  frame_append_call a m : stable R (on_network (make_rpc_call APPEND_ENTRY a m));
}.
#[export] Hint Resolve frame_log_size frame_log_get frame_log_insert frame_call frame_vote_call frame_append_call frame_apply frame_query frame_term : frame.
#[export] Hint Extern 1 (_ <> RESP_VOTE) => discriminate : frame.
#[export] Hint Extern 1 (_ <> APPEND_ENTRY) => discriminate : frame.
#[export] Hint Extern 1 (Calm _) => exact _ : frame.
#[export] Hint Extern 1 (Commits _) => exact _ : frame.
#[export] Hint Extern 1 (Appends _) => exact _ : frame.
#[export] Hint Extern 1 (Roles _) => exact _ : frame.

(** Sequences, branches and loops, down to elementary calls. *)
Ltac unfold_access :=
  unfold on_rand, on_candidate_timer, on_retry_timer, current_rpc_lsn_at,
    follower_rpc_lsn_at, nextIndex_at, put_current_rpc_lsn, put_follower_rpc_lsn, put_nextIndex,
    put_saved_index, zoom, modify, gets in *.
Ltac frame_leaf :=
  let s := fresh "s" in
  intros s; unfold_access;
  repeat (match goal with |- context [match ?x with _ => _ end] => destruct x end);
  cbn [snd];
  first [ reflexivity | apply frame_winned_votes | apply frame_state | apply frame_already_voted
        | apply frame_current_lsn | apply frame_follower_lsn | apply frame_candidate_timer
        | apply frame_retry_timers | apply frame_commit_index | apply frame_nextIndex
        | apply frame_saved_index | apply frame_clients | apply frame_rand ].
Ltac solve_frame :=
  repeat first
    [ solve [eauto with frame nocore]
    | apply stable_bind; [exact _| |intros ?]
    | apply stable_for_each; [exact _|intros ?]
    | match goal with
      | |- stable _ (if ?b then _ else _) => destruct b
      | |- stable _ (match ?x with _ => _ end) => destruct x
      | |- stable _ (let _ := _ in _) => cbv zeta
      end
    | apply stable_ret; exact _
    | apply stable_gets; exact _
    | apply stable_throw_line; exact _
    | apply stable_ub; exact _
    | apply stable_int_add; exact _
    | apply stable_int_sub; exact _
    | apply stable_vec_at; exact _
    | frame_leaf ].

Section calm.
Context {L N T : Type} {LS : LogStore L} {TR : Transport N} {DT : DeadlineTimer handler T}
  {RD : Rand} {RC : RaftCodecs} {BS : BoostSplit}.
Context (R : relation (RaftServer L N T)) {CR : Calm R}.

Lemma frame_cancel_all_timers : stable R cancel_all_timers.
Proof. intros s. cbn. etrans; [apply frame_candidate_timer|apply frame_retry_timers]. Qed.
Lemma frame_candidate_expires : stable R candidate_expires_from_now.
Proof. unfold candidate_expires_from_now. solve_frame. Qed.
Lemma frame_RV server : stable R (RV server).
Proof. unfold RV, build_rpc_rv_string. solve_frame. Qed.
Lemma frame_make_resp_ae ok c a l e : stable R (make_resp_ae ok c a l e).
Proof. unfold make_resp_ae. solve_frame. Qed.
Lemma frame_should_ignore a l : stable R (should_ignore_remote_rpc a l).
Proof. unfold should_ignore_remote_rpc. solve_frame. Qed.
Lemma frame_append_client a m : stable R (append_client_apply_to_entries a m).
Proof. unfold append_client_apply_to_entries. solve_frame. Qed.
Lemma frame_resp_apply i r : stable R (write_resp_apply_call i r).
Proof. unfold write_resp_apply_call. solve_frame. Qed.
Lemma frame_resp_query a r : stable R (write_resp_query_call a r).
Proof. unfold write_resp_query_call. solve_frame. Qed.
Lemma frame_build_ae a : stable R (build_rpc_ae_string a).
Proof. unfold build_rpc_ae_string. solve_frame. Qed.

Lemma frame_AE {AP : Appends R} server : stable R (AE server).
Proof. unfold AE, build_rpc_ae_string. solve_frame. Qed.

Context {CM : Commits R}.
Lemma frame_primary_update a i : stable R (primary_update_commit_index a i).
Proof. unfold primary_update_commit_index. solve_frame. Qed.
Lemma frame_follower_update i : stable R (follower_update_commit_index i).
Proof. unfold follower_update_commit_index. solve_frame. Qed.
Hint Resolve frame_AE frame_make_resp_ae frame_primary_update frame_follower_update : frame.
Lemma frame_accept_ae a m : stable R (accept_ae a m).
Proof. unfold accept_ae. solve_frame. Qed.
Lemma frame_deal_resp_ae {AP : Appends R} a m : stable R (primary_deal_resp_ae_with_same_term a m).
Proof. unfold primary_deal_resp_ae_with_same_term. solve_frame. Qed.
End calm.
#[export] Hint Resolve frame_cancel_all_timers frame_candidate_expires frame_AE frame_RV frame_make_resp_ae
  frame_should_ignore frame_accept_ae frame_deal_resp_ae frame_append_client : frame.

Section roles.
Context {L N T : Type} {LS : LogStore L} {TR : Transport N} {DT : DeadlineTimer handler T}
  {RD : Rand} {RC : RaftCodecs} {BS : BoostSplit}.
Context (R : relation (RaftServer L N T)) {RR : Roles R}.

Lemma frame_trans2C : stable R trans2C.
Proof. unfold trans2C. solve_frame. Qed.

Context {AP : Appends R}.
Lemma frame_trans2P : stable R trans2P.
Proof. unfold trans2P. solve_frame. Qed.
Hint Resolve frame_trans2P frame_trans2C : frame.
Lemma frame_deal_resp_rv a m : stable R (candidate_deal_resp_rv_with_same_term a m).
Proof. unfold candidate_deal_resp_rv_with_same_term. solve_frame. Qed.
Lemma frame_handler h e : stable R (run_handler h e).
Proof.
  unfold run_handler, candidate_expired_at_min, retry_expired_at_min, timer_error. solve_frame.
Qed.
End roles.
#[export] Hint Resolve frame_trans2P frame_trans2C frame_deal_resp_rv : frame.

Section frame.
Context {L N T : Type} {LS : LogStore L} {TR : Transport N} {DT : DeadlineTimer handler T}
  {RD : Rand} {RC : RaftCodecs} {BS : BoostSplit}.
Context (R : relation (RaftServer L N T)) {FR : Frame R}.

Lemma frame_trans2F term : stable R (trans2F term).
Proof. unfold trans2F. solve_frame. Qed.
Lemma frame_make_resp_rv v c a l : stable R (make_resp_rv v c a l).
Proof. unfold make_resp_rv. solve_frame. Qed.
Hint Resolve frame_trans2F frame_make_resp_rv : frame.
Lemma frame_react2rv m : stable R (react2rv m).
Proof. unfold react2rv. solve_frame. Qed.
Lemma frame_react2ae {CM : Commits R} m : stable R (react2ae m).
Proof. unfold react2ae. solve_frame. Qed.
Hint Resolve frame_react2rv frame_react2ae : frame.

(** Messages that are no replies. *)
Lemma frame_request {CM : Commits R} t m a :
  t <> RESP_VOTE -> t <> RESP_APPEND -> stable R (reactToIncomingMsg t m a).
Proof. intros H1 H2. unfold reactToIncomingMsg, get_from_state_machine. destruct t; try done; solve_frame. Qed.

Context {AP : Appends R}.
Lemma frame_react2resp_rv m : stable R (react2resp_rv m).
Proof. unfold react2resp_rv. solve_frame. Qed.

Context {CM : Commits R}.
Lemma frame_react2resp_ae m : stable R (react2resp_ae m).
Proof. unfold react2resp_ae. solve_frame. Qed.
Hint Resolve frame_react2ae frame_react2rv frame_react2resp_ae frame_react2resp_rv : frame.

(** The frame rule for messages; [frame_handler], [frame_resp_apply] and
    [frame_resp_query] are those for timers and posted completions. *)
Lemma frame_message t m a : stable R (reactToIncomingMsg t m a).
Proof. unfold reactToIncomingMsg, get_from_state_machine. solve_frame. Qed.
End frame.

(** ** Instances of the frame rule *)

(** A call on the transport or the controler leaves every other member alone,
    and [update_term] writes the term and the two maps of lsns. *)
Section instances.
Context {L N T : Type} {LS : LogStore L} {TR : Transport N} {DT : DeadlineTimer handler T}.

Lemma reset_both_stable (R : relation (RaftServer L N T)) {HR : PreOrder R} :
  (forall x s, R s (set_current_rpc_lsn_ x s)) -> (forall x s, R s (set_follower_rpc_lsn_ x s)) ->
  stable R reset_both_rpc_lsn.
Proof.
  intros H1 H2. unfold reset_both_rpc_lsn. apply stable_bind; [exact _|by apply stable_gets|].
  intros conf. apply stable_for_each; [exact _|]. intros x.
  apply stable_bind; [exact _| |intros []]; apply stable_modify; auto.
Qed.

Lemma update_term_stable (R : relation (RaftServer L N T)) {HR : PreOrder R} term :
  (forall x s, R s (set_current_rpc_lsn_ x s)) -> (forall x s, R s (set_follower_rpc_lsn_ x s)) ->
  (forall x s, R s (set_term_ x s)) -> stable R (update_term term).
Proof.
  intros H1 H2 H3. unfold update_term. apply stable_bind; [exact _|by apply stable_gets|].
  intros t. destruct (t <? term).
  - apply stable_bind; [exact _|by apply reset_both_stable|intros []; by apply stable_modify].
  - destruct (t =? term); [by apply stable_ret|by apply stable_throw_line].
Qed.

#[export] Instance appends_term_grows : Appends (L := L) (N := N) (T := T) (grows term_).
Proof. split. intros a m. apply stable_zoom. unfold grows. intros. cbn. lia. Qed.
#[export] Instance commits_term_grows : Commits (L := L) (N := N) (T := T) (grows term_).
Proof.
  split; [intros; unfold grows; cbn; lia|]. intros i. apply stable_zoom. unfold grows. intros ? []. cbn. lia.
Qed.
#[export] Instance frame_term_grows : Frame (L := L) (N := N) (T := T) (grows term_).
Proof.
  split; [split; [split|..]|..]; try exact _; try (intros; unfold grows; cbn; lia);
    try (intros; apply stable_zoom; unfold grows; intros ? []; cbn; lia);
    try (intros; apply stable_zoom; unfold grows; intros; cbn; lia).
  intros term s. unfold update_term, bind, gets. destruct (Z.ltb_spec (term_ s) term).
  - pose proof (reset_both_stable (same term_) (fun _ _ => eq_refl) (fun _ _ => eq_refl) s) as Hr.
    destruct (reset_both_rpc_lsn s) as [[] s']; unfold same, grows in *; cbn in *; lia.
  - destruct (term_ s =? term); unfold grows; cbn; lia.
Qed.

#[export] Instance appends_constants : Appends (L := L) (N := N) (T := T) (same constants).
Proof. split. intros a m. by apply stable_zoom. Qed.
#[export] Instance commits_constants : Commits (L := L) (N := N) (T := T) (same constants).
Proof. split; [done|]. intros i. apply stable_zoom. by intros ? []. Qed.
#[export] Instance frame_constants : Frame (L := L) (N := N) (T := T) (same constants).
Proof.
  split; [split; [split|..]|..]; try exact _; try done; try (intros; apply stable_zoom; by intros ? []);
    try (intros; apply stable_zoom; done).
  intros; apply update_term_stable; try exact _; done.
Qed.
End instances.
End ServerFacts.
