(* ===== verification/ServerSpecs.v ===== *)
(** What the building blocks of RaftServer compute on a well-behaved state:
    the change of term, the role changes, sending an AppendEntry or a
    RequestVote.  Each call is shown to return, with its effect on every
    member. *)

From S2P Require Import Prelude CxxString Platform Messages Util Interfaces ThreadPool StateMachineControler RaftServer ServerFacts.

Module ServerSpecs.
Import StateMachineControler (StateMachineControler).
Export ServerFacts.

(** ** Maps filled by a loop over the configuration *)

Definition fill {K V} `{Countable K} (l : list K) (v : V) (m : gmap K V) : gmap K V :=
  foldl (fun m k => <[k := v]> m) m l.

Lemma lookup_fill {K V} `{Countable K} (l : list K) (v : V) (m : gmap K V) k :
  fill l v m !! k = if decide (k ∈ l) then Some v else m !! k.
Proof.
  unfold fill. revert m. induction l as [|x l IH]; intros m; cbn; [done|].
  rewrite IH. destruct (decide (k ∈ l)) as [Hk|Hk].
  - by rewrite decide_True by (by right).
  - destruct (decide (k = x)) as [->|Hne].
    + rewrite lookup_insert_eq. by rewrite decide_True by (by left).
    + rewrite lookup_insert_ne by done. rewrite decide_False; [done|].
      by intros [?|?]%elem_of_cons.
Qed.

Lemma insert_map_touch {K V} `{Countable K} d (k : K) (v : V) (m : gmap K V) :
  <[k := v]> (map_touch d k m) = <[k := v]> m.
Proof. unfold map_touch. destruct (m !! k); [done|]. by rewrite insert_insert_eq. Qed.

(** ** Messages as functions of the state *)

Section messages.
Context {L N T : Type} {LS : LogStore L}.
Implicit Types (s : RaftServer L N T).

Definition log_of s : list rpc_Entry := ls_view (entries_ s).
Definition log_size s : Z := Z.of_nat (length (log_of s)).
Definition term_at s (i : Z) : Z :=
  if i <? 0 then -1 else match log_of s !! Z.to_nat i with Some e => en_term e | None => -1 end.

(** The AppendEntry the server would send now. *)
Definition ae_message (server : server_addr) s : AppendEntryRpc :=
  let n := map_at 0 server (nextIndex_ s) in
  {| ae_term := term_ s; ae_prelog_term := term_at s (n - 1); ae_commit_index := commit_index_ s;
     ae_lsn := map_at 0 server (current_rpc_lsn_ s); ae_ip := ip_ s; ae_port := port_ s;
     ae_entry := match log_of s !! Z.to_nat n with Some e => [e] | None => [] end;
     ae_prelog_index := n - 1 |}.

Definition rv_message (server : server_addr) s : RequestVoteRpc :=
  {| rv_term := term_ s; rv_latest_index := log_size s - 1; rv_latest_term := 0;
     rv_lsn := map_at 0 server (current_rpc_lsn_ s); rv_ip := ip_ s; rv_port := port_ s |}.

Definition resp_rv_message (vote : bool) (lsn : Z) s : Resp_RequestVoteRpc :=
  {| rrv_ok := vote; rrv_term := term_ s; rrv_lsn := lsn; rrv_ip := ip_ s; rrv_port := port_ s |}.
Definition resp_ae_message (ok : bool) (lsn : Z) (empty : bool) s : Resp_AppendEntryRpc :=
  {| rae_ok := ok; rae_term := term_ s; rae_lsn := lsn; rae_ip := ip_ s; rae_port := port_ s;
     rae_is_empty_ae := empty |}.
End messages.

(** ** Steps *)

Section steps.
Context {L N T : Type} {LS : LogStore L} {LL : LogStoreLaws L} {TR : Transport N}
  {TL : TransportLaws N} {DT : DeadlineTimer handler T} {DL : DeadlineTimerLaws handler T}
  {RD : Rand} {RL : RandLaws} {RC : RaftCodecs}.
Implicit Types (s : RaftServer L N T).

Lemma gets_val {A} (f : RaftServer L N T -> A) s : gets f s = (Val (f s), s).
Proof. done. Qed.
Lemma modify_val (f : RaftServer L N T -> RaftServer L N T) s : modify f s = (Val tt, f s).
Proof. done. Qed.

(** A call on the log that leaves it as it is. *)
Lemma on_entries_same {A} (m : M L A) s r :
  m (entries_ s) = (r, entries_ s) -> on_entries m s = (r, s).
Proof. intros E. unfold on_entries, zoom. rewrite E. by destruct s. Qed.

Lemma size_ok s : ls_ok (entries_ s) -> on_entries ls_size s = (Val (log_size s), s).
Proof. intros Hok. apply on_entries_same. by rewrite ls_size_ok. Qed.

Lemma log_get_ok s i e :
  ls_ok (entries_ s) -> 0 <= i -> log_of s !! Z.to_nat i = Some e ->
  on_entries (ls_get i) s = (Val e, s).
Proof. intros. apply on_entries_same. by apply ls_get_ok. Qed.

Lemma call_val t a m s :
  named_type t = true -> call_fits a m ->
  exists n, on_network (make_rpc_call t a m) s = (Val tt, set_network_ n s) /\
    calls n = calls (network_ s) ++ [(t, a, m)].
Proof.
  intros Ht Hm. destruct (call_ok t a m (network_ s) Ht Hm) as (n & E & Hc).
  exists n. unfold on_network, zoom. by rewrite E.
Qed.

(** *** The term *)

Definition with_term (term : Z) s : RaftServer L N T :=
  if term_ s <? term then
    set_term_ term
      (set_follower_rpc_lsn_ (fill (configuration_ s) (-1) (follower_rpc_lsn_ s))
        (set_current_rpc_lsn_ (fill (configuration_ s) 0 (current_rpc_lsn_ s)) s))
  else s.

Lemma reset_both_ok s :
  reset_both_rpc_lsn s =
    (Val tt, set_follower_rpc_lsn_ (fill (configuration_ s) (-1) (follower_rpc_lsn_ s))
      (set_current_rpc_lsn_ (fill (configuration_ s) 0 (current_rpc_lsn_ s)) s)).
Proof.
  unfold reset_both_rpc_lsn. rewrite (bind_val _ _ _ _ _ (gets_val _ _)).
  generalize (configuration_ s). intros conf. revert s.
  induction conf as [|x conf IH]; intros s; [by destruct s|]. cbn [for_each].
  unfold bind at 1. unfold put_current_rpc_lsn at 1, put_follower_rpc_lsn at 1, bind, modify.
  rewrite IH. done.
Qed.

Lemma update_term_ok term s :
  term_ s <= term -> update_term term s = (Val tt, with_term term s).
Proof.
  intros Hle. unfold update_term, with_term. rewrite (bind_val _ _ _ _ _ (gets_val _ _)).
  destruct (Z.ltb_spec (term_ s) term).
  - by rewrite (bind_val _ _ _ _ _ (reset_both_ok s)).
  - by destruct (Z.eqb_spec (term_ s) term); [|lia].
Qed.

Lemma term_with_term term s : term_ s <= term -> term_ (with_term term s) = term.
Proof. intros. unfold with_term. destruct (Z.ltb_spec (term_ s) term); cbn; lia. Qed.

(** *** Timers *)

Lemma candidate_expires_ok s :
  exists r t, candidate_expires_from_now s =
      (Val (Z.of_nat (length (waits (candidate_timer_ s)))), set_candidate_timer_ t (set_rand_seed r s)) /\
    waits t = [] /\ expires_at_min t = false.
Proof.
  unfold candidate_expires_from_now, on_rand, on_candidate_timer, bind, zoom, random_candidate_expire.
  destruct (random_between_spec (300 * 1) (150 * 1) (rand_seed s)) as (ms & r & E & Hms); [lia|].
  rewrite E. cbn. destruct (expires_from_now ms (candidate_timer_ s)) as [c t] eqn:Et.
  exists r, t. pose proof (from_now_count ms (candidate_timer_ s)) as Hc.
  pose proof (from_now_waits ms (candidate_timer_ s)) as Hw.
  pose proof (from_now_expiry ms (candidate_timer_ s)) as Hx. rewrite Et in *. cbn in *.
  subst c. auto with lia.
Qed.

(** [expires_from_now] on the retry timer of [server], [d] being random. *)
Lemma retry_expires_ok server d s t0 :
  retry_timers_ s !! server = Some t0 -> 0 <= d ->
  exists t, on_retry_timer server (expires_from_now d) s =
      (Val (Z.of_nat (length (waits t0))), set_retry_timers_ (<[server := t]> (retry_timers_ s)) s) /\
    waits t = [] /\ expires_at_min t = false.
Proof.
  intros Ht Hd. unfold on_retry_timer. rewrite Ht.
  pose proof (from_now_count d t0) as Hc. pose proof (from_now_waits d t0) as Hw.
  pose proof (from_now_expiry d t0 Hd) as Hx.
  destruct (expires_from_now d t0) as [c t]. cbn in *. subst c. eauto.
Qed.

Definition canceled (m : gmap server_addr T) : gmap server_addr T :=
  (fun t => snd (set_expires_at_min t)) <$> m.

Lemma lookup_canceled (m : gmap server_addr T) a t :
  canceled m !! a = Some t -> waits t = [] /\ expires_at_min t = true.
Proof.
  unfold canceled. rewrite lookup_fmap, fmap_Some. intros (t0 & _ & ->).
  split; [apply set_min_waits|apply set_min_expiry].
Qed.

(** *** Applying *)

(** The controler of [s] after the entries up to [i] were handed to it. *)
Definition smc_commit (i : Z) s : StateMachineControler :=
  let applied := StateMachineControler.applied_index_ (smc_ s) in
  StateMachineControler.handed_over
    (firstn (Z.to_nat (i - applied)) (skipn (Z.to_nat (applied + 1)) (log_of s)))
    (StateMachineControler.set_commit_index_ i (smc_ s)).

Lemma smc_commit_keeps i s :
  ThreadPool.stop (StateMachineControler.write_thread_pool_ (smc_commit i s)) =
    ThreadPool.stop (StateMachineControler.write_thread_pool_ (smc_ s)) /\
  StateMachineControler.applied_index_ (smc_ s) <= StateMachineControler.applied_index_ (smc_commit i s).
Proof.
  split; [done|]. unfold smc_commit, StateMachineControler.handed_over.
  cbn [StateMachineControler.applied_index_ StateMachineControler.set_applied_index_
    StateMachineControler.set_commit_index_]. lia.
Qed.

Record can_apply s : Prop := {
  ca_log : ls_ok (entries_ s);
  ca_running : ThreadPool.stop (StateMachineControler.write_thread_pool_ (smc_ s)) = false;
  ca_applied : -1 <= StateMachineControler.applied_index_ (smc_ s);
}.

Lemma apply_ok i s :
  can_apply s -> i < log_size s ->
  apply_to_state_machine i s = (Val tt, set_smc_ (smc_commit i s) s).
Proof.
  intros [Hok Hrun Ha] Hi. unfold apply_to_state_machine, on_smc, zoom.
  rewrite StateMachineControler.update_commit_ok by done. by destruct s.
Qed.

(** *** Becoming a follower *)

(** The members a role change has no business with. *)
Definition core s := (constants s, network_ s, entries_ s, commit_index_ s,
  (nextIndex_ s, Follower_saved_index s, smc_ s, entryIndex_to_socketAddr_map_ s)).

Record trans2F_post (term : Z) s s' : Prop := {
  t2f_core : core s' = core s;
  t2f_term : term_ s' = term;
  t2f_state : state_ s' = follower;
  t2f_voted : already_voted_ s' = false;
  t2f_votes : winned_votes_ s' = 0;
  t2f_current : current_rpc_lsn_ s' = current_rpc_lsn_ (with_term term s);
  t2f_follower : follower_rpc_lsn_ s' = follower_rpc_lsn_ (with_term term s);
  t2f_waits : waits (candidate_timer_ s') = [H_trans2F];
  t2f_expiry : expires_at_min (candidate_timer_ s') = false;
  t2f_retry : retry_timers_ s' = canceled (retry_timers_ s);
}.

Lemma trans2F_ok term s :
  term_ s <= term -> total (trans2F term) s (fun _ s' => trans2F_post term s s').
Proof.
  intros Hle. unfold trans2F, total, cancel_all_timers.
  rewrite !(bind_val _ _ _ _ _ (modify_val _ _)).
  set (s1 := set_winned_votes_ 0 _).
  rewrite (bind_val _ _ _ _ _ (update_term_ok term s1 Hle)).
  rewrite !(bind_val _ _ _ _ _ (modify_val _ _)).
  set (s2 := set_state_ follower _).
  destruct (candidate_expires_ok s2) as (r & t & E & Hw & Hx). rewrite (bind_val _ _ _ _ _ E).
  assert (Hc : waits (candidate_timer_ s2) = []).
  { unfold s2, with_term. destruct (term_ s1 <? term); cbn; apply set_min_waits. }
  rewrite Hc. cbn. unfold bind at 1. cbn. do 2 eexists. split; [done|].
  split; unfold s2, s1, with_term; cbn; destruct (term_ s <? term) eqn:Elt; cbn; try done;
    try (apply Z.ltb_ge in Elt; lia).
  all: rewrite ?wait_waits, ?wait_expiry, ?Hw, ?Hx; done.
Qed.

(** *** Sending an AppendEntry *)

(** The server can send to [server]: its timer is idle, its next index is in
    the log or just behind, the lsn can be counted up, the message fits. *)
Record can_send_ae (server : server_addr) s : Prop := {
  csa_log : ls_ok (entries_ s);
  csa_timer : exists t, retry_timers_ s !! server = Some t /\ waits t = [];
  csa_next : 0 <= map_at 0 server (nextIndex_ s) <= log_size s;
  csa_lsn : INT_MIN <= map_at 0 server (current_rpc_lsn_ s) < INT_MAX;
  csa_fits : call_fits server (SerializeToString (ae_message server s));
}.

Lemma build_ae_ok server s :
  ls_ok (entries_ s) -> 0 <= map_at 0 server (nextIndex_ s) <= log_size s ->
  INT_MIN <= map_at 0 server (current_rpc_lsn_ s) < INT_MAX ->
  build_rpc_ae_string server s =
    (Val (SerializeToString (ae_message server s)),
     set_nextIndex_ (map_touch 0 server (nextIndex_ s))
       (set_current_rpc_lsn_
          (<[server := map_at 0 server (current_rpc_lsn_ s) + 1]> (current_rpc_lsn_ s)) s)).
Proof.
  intros Hok Hn Hlsn. pose proof (ls_small _ Hok) as Hsm. fold (log_of s) in Hsm. fold (log_size s) in Hsm.
  unfold build_rpc_ae_string, current_rpc_lsn_at, put_current_rpc_lsn, nextIndex_at.
  unfold bind at 1. int_step.
  rewrite (bind_val _ _ _ _ _ (modify_val _ _)). cbn [current_rpc_lsn_ set_current_rpc_lsn_].
  rewrite insert_map_touch. rewrite !(bind_val _ _ _ _ _ (gets_val _ _)).
  unfold bind at 1. set (n := map_at 0 server (nextIndex_ s)) in *.
  set (s1 := set_nextIndex_ _ _). change (map_at 0 server (nextIndex_ _)) with n.
  int_step.
  assert (Hprev : (if 0 <? n then let! prev_entry := on_entries (ls_get (n - 1)) in ret (en_term prev_entry)
                   else ret (-1)) s1 = (Val (term_at s (n - 1)), s1)).
  { unfold term_at. destruct (Z.ltb_spec 0 n), (Z.ltb_spec (n - 1) 0); try lia; [|done].
    destruct (lookup_lt_is_Some_2 (log_of s) (Z.to_nat (n - 1))) as [e He]; [unfold log_size in *; lia|].
    rewrite He. by rewrite (bind_val _ _ _ _ _ (log_get_ok s1 (n - 1) e Hok ltac:(lia) He)). }
  rewrite (bind_val _ _ _ _ _ Hprev), (bind_val _ _ _ _ _ (size_ok s1 Hok)).
  change (log_size s1) with (log_size s).
  unfold ae_message. fold n. destruct (Z.eqb_spec n (log_size s)) as [En|Nn].
  - rewrite lookup_ge_None_2 by (unfold log_size in *; lia). done.
  - destruct (lookup_lt_is_Some_2 (log_of s) (Z.to_nat n)) as [e He]; [unfold log_size in *; lia|].
    rewrite He. rewrite bind_bind, (bind_val _ _ _ _ _ (log_get_ok s1 n e Hok ltac:(lia) He)).
    by destruct e.
Qed.

(** The effect of sending one call of type [ty] with body [m] to [server] and
    arming its retry timer with [h]. *)
Record send_post (ty : RPC_TYPE) (h : handler) (m : string) (server : server_addr) s s' : Prop := {
  sp_constants : constants s' = constants s;
  sp_entries : entries_ s' = entries_ s;
  sp_same : (commit_index_ s', term_ s', state_ s', already_voted_ s', winned_votes_ s') =
            (commit_index_ s, term_ s, state_ s, already_voted_ s, winned_votes_ s);
  sp_same' : (Follower_saved_index s', smc_ s', entryIndex_to_socketAddr_map_ s',
              follower_rpc_lsn_ s', candidate_timer_ s') =
             (Follower_saved_index s, smc_ s, entryIndex_to_socketAddr_map_ s,
              follower_rpc_lsn_ s, candidate_timer_ s);
  sp_calls : calls (network_ s') = calls (network_ s) ++ [(ty, server, m)];
  sp_next : nextIndex_ s' = nextIndex_ s \/ nextIndex_ s' = map_touch 0 server (nextIndex_ s);
  sp_lsn : current_rpc_lsn_ s' =
             <[server := map_at 0 server (current_rpc_lsn_ s) + 1]> (current_rpc_lsn_ s);
  sp_timer : exists t, retry_timers_ s' = <[server := t]> (retry_timers_ s) /\
               waits t = [h] /\ expires_at_min t = false;
}.

Lemma send_next ty h m server s s' b :
  send_post ty h m server s s' -> map_at 0 b (nextIndex_ s') = map_at 0 b (nextIndex_ s).
Proof. intros [_ _ _ _ _ [->| ->] _ _]; [done|apply map_at_touch]. Qed.
Lemma send_lsn_ne ty h m server s s' b :
  send_post ty h m server s s' -> b <> server ->
  map_at 0 b (current_rpc_lsn_ s') = map_at 0 b (current_rpc_lsn_ s).
Proof. intros H Hb. rewrite (sp_lsn _ _ _ _ _ _ H), map_at_insert. by rewrite decide_False. Qed.
Lemma send_timer_ne ty h m server s s' b :
  send_post ty h m server s s' -> b <> server -> retry_timers_ s' !! b = retry_timers_ s !! b.
Proof. intros [_ _ _ _ _ _ _ (t & -> & _)] Hb. by rewrite lookup_insert_ne. Qed.

Lemma AE_ok server s :
  can_send_ae server s -> total (AE server) s (fun _ s' =>
    send_post APPEND_ENTRY (H_AE server) (SerializeToString (ae_message server s)) server s s').
Proof.
  intros [Hok (t0 & Ht0 & Hw0) Hn Hlsn Hfit]. unfold AE, total.
  rewrite (bind_val _ _ _ _ _ (build_ae_ok server s Hok Hn Hlsn)). set (s1 := set_nextIndex_ _ _).
  destruct (call_val APPEND_ENTRY server _ s1 eq_refl Hfit) as (n & E & Hc).
  rewrite (bind_val _ _ _ _ _ E). unfold on_rand, zoom, random_ae_retry_expire. unfold bind at 1.
  destruct (random_between_spec (10 * 1) (5 * 1) (rand_seed (set_network_ n s1))) as (ms & r & Er & Hms); [lia|].
  rewrite Er. set (s2 := set_rand_seed r _).
  destruct (retry_expires_ok server ms s2 t0 Ht0 ltac:(lia)) as (t & Et & Hw & Hx).
  rewrite (bind_val _ _ _ _ _ Et), Hw0.
  change (negb (Z.of_nat (length []) =? 0)) with false. cbv iota beta.
  unfold on_retry_timer. cbn [retry_timers_ set_retry_timers_]. rewrite lookup_insert_eq.
  do 2 eexists. split; [done|].
  split; cbn; try done; [by right|].
  exists (async_wait (H_AE server) t). rewrite insert_insert_eq, wait_waits, wait_expiry, Hw, Hx. done.
Qed.
(** *** Sending a RequestVote *)

Record can_send_rv (server : server_addr) s : Prop := {
  csr_log : ls_ok (entries_ s);
  csr_timer : exists t, retry_timers_ s !! server = Some t /\ waits t = [];
  csr_lsn : INT_MIN <= map_at 0 server (current_rpc_lsn_ s) < INT_MAX;
  csr_fits : call_fits server (SerializeToString (rv_message server s));
}.

Lemma build_rv_ok server s :
  ls_ok (entries_ s) -> INT_MIN <= map_at 0 server (current_rpc_lsn_ s) < INT_MAX ->
  build_rpc_rv_string server s =
    (Val (SerializeToString (rv_message server s)),
     set_current_rpc_lsn_
       (<[server := map_at 0 server (current_rpc_lsn_ s) + 1]> (current_rpc_lsn_ s)) s).
Proof.
  intros Hok Hlsn. pose proof (ls_small _ Hok) as Hsm. fold (log_of s) in Hsm. fold (log_size s) in Hsm.
  assert (0 <= log_size s) by (unfold log_size; lia).
  unfold build_rpc_rv_string, current_rpc_lsn_at, put_current_rpc_lsn.
  unfold bind at 1. int_step.
  rewrite (bind_val _ _ _ _ _ (modify_val _ _)). cbn [current_rpc_lsn_ set_current_rpc_lsn_].
  rewrite insert_map_touch. rewrite (bind_val _ _ _ _ _ (gets_val _ _)).
  set (s1 := set_current_rpc_lsn_ _ _). rewrite (bind_val _ _ _ _ _ (size_ok s1 Hok)).
  change (log_size s1) with (log_size s). int_step. done.
Qed.

Lemma RV_ok server s :
  can_send_rv server s -> total (RV server) s (fun _ s' =>
    send_post REQUEST_VOTE (H_RV server) (SerializeToString (rv_message server s)) server s s').
Proof.
  intros [Hok (t0 & Ht0 & Hw0) Hlsn Hfit]. unfold RV, total.
  rewrite (bind_val _ _ _ _ _ (build_rv_ok server s Hok Hlsn)). set (s1 := set_current_rpc_lsn_ _ _).
  destruct (call_val REQUEST_VOTE server _ s1 eq_refl Hfit) as (n & E & Hc).
  rewrite (bind_val _ _ _ _ _ E). unfold on_rand, zoom, random_rv_retry_expire. unfold bind at 1.
  destruct (random_between_spec (10 * 1) (5 * 1) (rand_seed (set_network_ n s1))) as (ms & r & Er & Hms); [lia|].
  rewrite Er. set (s2 := set_rand_seed r _).
  destruct (retry_expires_ok server ms s2 t0 Ht0 ltac:(lia)) as (t & Et & Hw & Hx).
  rewrite (bind_val _ _ _ _ _ Et), Hw0.
  change (negb (Z.of_nat (length []) =? 0)) with false. cbv iota beta.
  unfold on_retry_timer. cbn [retry_timers_ set_retry_timers_]. rewrite lookup_insert_eq.
  do 2 eexists. split; [done|].
  split; cbn; try done; [by left|].
  exists (async_wait (H_RV server) t). rewrite insert_insert_eq, wait_waits, wait_expiry, Hw, Hx. done.
Qed.
End steps.
(** ** Sending to every other server *)

Section broadcast.
Context {L N T : Type} {LS : LogStore L} {TR : Transport N} {DT : DeadlineTimer handler T}.
Implicit Types (s : RaftServer L N T).

Context (ty : RPC_TYPE) (h : server_addr -> handler) (msg : server_addr -> RaftServer L N T -> string)
  (send : server_addr -> M (RaftServer L N T) unit) (can : server_addr -> RaftServer L N T -> Prop).
Hypothesis send_ok : forall a s, can a s ->
  total (send a) s (fun _ s' => send_post ty (h a) (msg a s) a s s').
Hypothesis send_other : forall a b m s s', send_post ty (h b) m b s s' -> a <> b ->
  (can a s -> can a s') /\ msg a s' = msg a s.

(** The servers a loop over [l] sends to. *)
Definition others s (l : list server_addr) : list server_addr :=
  filter (fun a => snd a <> port_ s) l.

Record broadcast_post (l : list server_addr) s s' : Prop := {
  bp_constants : constants s' = constants s;
  bp_entries : entries_ s' = entries_ s;
  bp_same : (commit_index_ s', term_ s', state_ s', already_voted_ s', winned_votes_ s') =
            (commit_index_ s, term_ s, state_ s, already_voted_ s, winned_votes_ s);
  bp_same' : (Follower_saved_index s', smc_ s', entryIndex_to_socketAddr_map_ s',
              follower_rpc_lsn_ s', candidate_timer_ s') =
             (Follower_saved_index s, smc_ s, entryIndex_to_socketAddr_map_ s,
              follower_rpc_lsn_ s, candidate_timer_ s);
  bp_calls : calls (network_ s') =
    calls (network_ s) ++ map (fun a => (ty, a, msg a s)) (others s l);
  bp_next : forall b, map_at 0 b (nextIndex_ s') = map_at 0 b (nextIndex_ s);
  bp_lsn : forall b, map_at 0 b (current_rpc_lsn_ s') =
    map_at 0 b (current_rpc_lsn_ s) + (if decide (b ∈ others s l) then 1 else 0);
  bp_timer : forall b, if decide (b ∈ others s l)
    then exists t, retry_timers_ s' !! b = Some t /\ waits t = [h b] /\ expires_at_min t = false
    else retry_timers_ s' !! b = retry_timers_ s !! b;
}.

Lemma others_port s s' l : constants s' = constants s -> others s' l = others s l.
Proof.
  unfold constants, others. intros E. assert (port_ s' = port_ s) as -> by congruence. done.
Qed.

Lemma broadcast_ok l s :
  NoDup l -> (forall a, a ∈ others s l -> can a s) ->
  total (for_each l (fun server =>
    let port := snd server in
    let! port_ := gets port_ in
    if negb (port =? port_) then send server else ret tt)) s
    (fun _ s' => broadcast_post l s s').
Proof.
  revert s. induction l as [|a l IH]; intros s Hnd Hcan.
  { apply total_ret. split; try done.
    - by rewrite app_nil_r.
    - intros b. rewrite decide_False; [lia|]. apply not_elem_of_nil. }
  apply NoDup_cons in Hnd as [Ha Hnd]. cbn [for_each].
  destruct (decide (snd a = port_ s)) as [Hp|Hp].
  - assert (Ho : others s (a :: l) = others s l) by (unfold others; by rewrite filter_cons_False by auto).
    rewrite Ho in Hcan. eapply (total_bind _ _ _ _ (fun _ s1 => s1 = s)).
    + apply total_gets. destruct (Z.eqb_spec (snd a) (port_ s)); [|done]. by apply total_ret.
    + intros [] s1 ->. eapply total_mono; [by apply IH|]. intros [] s' []. split; rewrite ?Ho; done.
  - assert (Ho : others s (a :: l) = a :: others s l) by (unfold others; by rewrite filter_cons_True by auto).
    rewrite Ho in Hcan. 
    eapply (total_bind _ _ _ _ (fun _ s1 => send_post ty (h a) (msg a s) a s s1)).
    + apply total_gets. destruct (Z.eqb_spec (snd a) (port_ s)); [done|]. apply send_ok, Hcan.
      by left.
    + intros [] s1 Hs1. pose proof (others_port _ _ l (sp_constants _ _ _ _ _ _ Hs1)) as Hol.
      assert (Hne : forall b, b ∈ others s l -> b <> a).
      { intros b Hb ->. apply list_elem_of_filter in Hb as [_ Hb]. done. }
      eapply total_mono; [apply IH; [done|]|].
      * intros b Hb. rewrite Hol in Hb. apply (send_other b a _ _ _ Hs1 (Hne _ Hb)), Hcan.
        by right.
      * intros [] s' [H1 H2 H3 H4 H5 H6 H7 H8]. rewrite Hol in *. destruct Hs1 as [G1 G2 G3 G4 G5 G6 G7 G8] eqn:EHs.
        split; rewrite ?Ho; try congruence.
        -- rewrite H5, G5, <- app_assoc. cbn. do 2 f_equal. apply map_ext_in.
           intros b Hb%list_elem_of_In. f_equal. by apply (send_other b a _ _ _ Hs1 (Hne _ Hb)).
        -- intros b. rewrite H6. by eapply send_next.
        -- intros b. rewrite H7. destruct (decide (b = a)) as [->|Hba].
           ++ rewrite G7, map_at_insert. rewrite decide_True by done.
              rewrite (decide_True (P := a ∈ a :: _)) by (by left).
              rewrite decide_False; [lia|]. intros Hin. by apply (Hne _ Hin).
           ++ rewrite (send_lsn_ne _ _ _ _ _ _ b Hs1 Hba). f_equal.
              apply decide_ext. rewrite elem_of_cons.
              split; [by right|by intros [?|?]].
        -- intros b. specialize (H8 b). destruct (decide (b = a)) as [->|Hba].
           ++ rewrite (decide_True (P := a ∈ a :: _)) by (by left).
              rewrite decide_False in H8 by (intros Hin; by apply (Hne _ Hin)).
              destruct G8 as (t & Ht & Hw & Hx). exists t. rewrite H8, Ht. by rewrite lookup_insert_eq.
           ++ destruct (decide (b ∈ others s l)) as [Hin|Hin].
              ** rewrite decide_True by (by right). done.
              ** rewrite decide_False by (intros [?|?]%elem_of_cons; done).
                 rewrite H8. by apply (send_timer_ne _ _ _ _ _ _ b Hs1).
Qed.
End broadcast.
(** ** Elections *)

Section elections.
Context {L N T : Type} {LS : LogStore L} {LL : LogStoreLaws L} {TR : Transport N}
  {TL : TransportLaws N} {DT : DeadlineTimer handler T} {DL : DeadlineTimerLaws handler T}
  {RD : Rand} {RL : RandLaws} {RC : RaftCodecs}.
Implicit Types (s : RaftServer L N T).

Lemma constants_eq s s' : constants s' = constants s ->
  configuration_ s' = configuration_ s /\ ip_ s' = ip_ s /\ port_ s' = port_ s /\
  server_ s' = server_ s /\ majority_ s' = majority_ s.
Proof. unfold constants. intros E. repeat split; congruence. Qed.

Lemma can_rv_other a b ty h m s s' : send_post ty h m b s s' -> a <> b ->
  (can_send_rv a s -> can_send_rv a s') /\
  SerializeToString (rv_message a s') = SerializeToString (rv_message a s).
Proof.
  intros Hs Hab. pose proof Hs as [Hc He Hsm _ _ _ _ _].
  apply constants_eq in Hc as (_ & Hip & Hport & _ & _).
  injection Hsm as Hci Htm Hst Hav Hwv.
  assert (Hm : rv_message a s' = rv_message a s).
  { unfold rv_message, log_size, log_of. rewrite Hip, Hport, He, (send_lsn_ne _ _ _ _ _ _ _ Hs Hab).
    congruence. }
  rewrite Hm. split; [|done]. intros [H1 H2 H3 H4]. split; [by rewrite He| | |by rewrite Hm].
  - by rewrite (send_timer_ne _ _ _ _ _ _ _ Hs Hab).
  - by rewrite (send_lsn_ne _ _ _ _ _ _ _ Hs Hab).
Qed.

Lemma can_ae_other a b ty h m s s' : send_post ty h m b s s' -> a <> b ->
  (can_send_ae a s -> can_send_ae a s') /\
  SerializeToString (ae_message a s') = SerializeToString (ae_message a s).
Proof.
  intros Hs Hab. pose proof Hs as [Hc He Hsm _ _ _ _ _].
  apply constants_eq in Hc as (_ & Hip & Hport & _ & _).
  injection Hsm as Hci Htm Hst Hav Hwv.
  assert (Hm : ae_message a s' = ae_message a s).
  { unfold ae_message, term_at, log_of.
    rewrite Hip, Hport, He, (send_lsn_ne _ _ _ _ _ _ _ Hs Hab), (send_next _ _ _ _ _ _ _ Hs).
    congruence. }
  rewrite Hm. split; [|done]. intros [H1 H2 H3 H4 H5]. split; [by rewrite He| | | |by rewrite Hm].
  - by rewrite (send_timer_ne _ _ _ _ _ _ _ Hs Hab).
  - unfold log_size, log_of in *. by rewrite He, (send_next _ _ _ _ _ _ _ Hs).
  - by rewrite (send_lsn_ne _ _ _ _ _ _ _ Hs Hab).
Qed.

(** *** Becoming a candidate *)

Definition election_message s : RequestVoteRpc :=
  {| rv_term := term_ s + 1; rv_latest_index := log_size s - 1; rv_latest_term := 0;
     rv_lsn := 0; rv_ip := ip_ s; rv_port := port_ s |}.

Record can_elect s : Prop := {
  ce_log : ls_ok (entries_ s);
  ce_nodup : NoDup (configuration_ s);
  ce_term : 0 <= term_ s < INT_MAX;
  ce_timers : forall a, a ∈ configuration_ s -> is_Some (retry_timers_ s !! a);
  ce_fits : forall a, a ∈ others s (configuration_ s) -> call_fits a (SerializeToString (election_message s));
}.

Record trans2C_post s s' : Prop := {
  t2c_constants : constants s' = constants s;
  t2c_entries : entries_ s' = entries_ s;
  t2c_same : (commit_index_ s', already_voted_ s', Follower_saved_index s', smc_ s',
              entryIndex_to_socketAddr_map_ s') =
             (commit_index_ s, already_voted_ s, Follower_saved_index s, smc_ s,
              entryIndex_to_socketAddr_map_ s);
  t2c_term : term_ s' = term_ s + 1;
  t2c_state : state_ s' = candidate;
  t2c_votes : winned_votes_ s' = 1;
  t2c_waits : waits (candidate_timer_ s') = [H_trans2C];
  t2c_expiry : expires_at_min (candidate_timer_ s') = false;
  t2c_calls : calls (network_ s') = calls (network_ s) ++
    map (fun a => (REQUEST_VOTE, a, SerializeToString (election_message s)))
      (others s (configuration_ s));
  t2c_lsn : forall a, a ∈ configuration_ s -> map_at 0 a (current_rpc_lsn_ s') =
    (if decide (a ∈ others s (configuration_ s)) then 1 else 0);
  t2c_retry : forall a, a ∈ others s (configuration_ s) ->
    exists t, retry_timers_ s' !! a = Some t /\ waits t = [H_RV a] /\ expires_at_min t = false;
}.

Lemma map_at_with_term term s a :
  term_ s < term -> a ∈ configuration_ s -> map_at 0 a (current_rpc_lsn_ (with_term term s)) = 0.
Proof.
  intros Hlt Ha. unfold with_term. destruct (Z.ltb_spec (term_ s) term); [|lia]. cbn.
  unfold map_at. rewrite lookup_fill. by rewrite decide_True.
Qed.

Lemma trans2C_ok s : can_elect s -> total trans2C s (fun _ s' => trans2C_post s s').
Proof.
  intros [Hok Hnd Ht Htm Hfit]. unfold trans2C, cancel_all_timers. apply total_modify, total_gets.
  set (s1 := set_retry_timers_ _ _). change (term_ s1) with (term_ s).
  unfold int_add. eapply total_step; [apply int_result_ok; unfold INT_MIN, INT_MAX in *; lia|].
  eapply total_step; [apply update_term_ok; cbn; lia|]. do 2 apply total_modify.
  set (s2 := set_winned_votes_ 1 _).
  destruct (candidate_expires_ok s2) as (r & t & E & Hw & Hx). eapply total_step; [exact E|].
  assert (Hc : waits (candidate_timer_ s2) = []).
  { unfold s2, with_term. destruct (term_ s1 <? _); cbn; apply set_min_waits. }
  rewrite Hc. cbn [length Z.of_nat Z.eqb]. eapply total_step; [done|]. eapply total_step; [done|].
  apply total_gets. set (s3 := set_candidate_timer_ _ _).
  assert (Hlt : (term_ s1 <? term_ s + 1) = true) by (cbn; lia).
  assert (Hconf : configuration_ s3 = configuration_ s).
  { unfold s3, s2, with_term. by rewrite Hlt. }
  assert (Hlsn : forall a, a ∈ configuration_ s -> map_at 0 a (current_rpc_lsn_ s3) = 0).
  { intros a Ha. change (map_at 0 a (current_rpc_lsn_ (with_term (term_ s + 1) s1)) = 0).
    apply map_at_with_term; [cbn; lia|done]. }
  assert (Hmsg : forall a, a ∈ configuration_ s -> rv_message a s3 = election_message s).
  { intros a Ha. unfold rv_message. rewrite (Hlsn a Ha). unfold s3, s2, with_term. by rewrite Hlt. }
  assert (Hoth : others s3 (configuration_ s) = others s (configuration_ s)).
  { apply others_port. unfold s3, s2, with_term. by rewrite Hlt. }
  rewrite Hconf. eapply total_mono.
  - eapply (broadcast_ok REQUEST_VOTE H_RV (fun a s => SerializeToString (rv_message a s)) RV can_send_rv);
      [apply RV_ok|intros *; apply can_rv_other|done|].
    intros a Ha. rewrite Hoth in Ha. pose proof (Hfit a Ha). apply list_elem_of_filter in Ha as [_ Ha]. split.
    + unfold s3, s2, with_term. rewrite Hlt. done.
    + destruct (Htm a Ha) as [t0 Ht0]. exists (snd (set_expires_at_min t0)).
      split; [|apply set_min_waits]. unfold s3, s2, with_term. rewrite Hlt. cbn.
      by rewrite lookup_fmap, Ht0.
    + rewrite (Hlsn a Ha). done.
    + by rewrite Hmsg.
  - intros [] s' [H1 H2 H3 H4 H5 H6 H7 H8]. rewrite Hoth in *.
    assert (Hin : forall a, a ∈ others s (configuration_ s) -> a ∈ configuration_ s)
      by (intros a Ha; apply list_elem_of_filter in Ha; tauto).
    assert (Hw3 : waits (candidate_timer_ s3) = [H_trans2C] /\ expires_at_min (candidate_timer_ s3) = false).
    { unfold s3. cbn. rewrite wait_waits, wait_expiry, Hw. done. }
    assert (Hsame : constants s3 = constants s /\ entries_ s3 = entries_ s /\
      (commit_index_ s3, already_voted_ s3, Follower_saved_index s3, smc_ s3, entryIndex_to_socketAddr_map_ s3) =
      (commit_index_ s, already_voted_ s, Follower_saved_index s, smc_ s, entryIndex_to_socketAddr_map_ s) /\
      network_ s3 = network_ s /\ (term_ s3, state_ s3, winned_votes_ s3) = (term_ s + 1, candidate, 1)).
    { unfold s3, s2, with_term. rewrite Hlt. done. }
    destruct Hsame as (G1 & G2 & G3 & G4 & G5). split; try congruence.
    + destruct Hw3 as [? _]. congruence.
    + destruct Hw3 as [_ ?]. congruence.
    + rewrite H5, G4. f_equal. apply map_ext_in. intros a Ha%list_elem_of_In. by rewrite Hmsg by auto.
    + intros a Ha. by rewrite H7, (Hlsn a Ha).
    + intros a Ha. specialize (H8 a). by rewrite decide_True in H8.
Qed.
(** *** Becoming the primary *)

(** The heartbeat the new primary sends to [server]. *)
Definition heartbeat_message (server : server_addr) s : AppendEntryRpc :=
  {| ae_term := term_ s; ae_prelog_term := term_at s (log_size s - 1); ae_commit_index := commit_index_ s;
     ae_lsn := map_at 0 server (current_rpc_lsn_ s); ae_ip := ip_ s; ae_port := port_ s;
     ae_entry := []; ae_prelog_index := log_size s - 1 |}.

Record can_lead s : Prop := {
  cl_log : ls_ok (entries_ s);
  cl_nodup : NoDup (configuration_ s);
  cl_timers : forall a, a ∈ others s (configuration_ s) -> is_Some (retry_timers_ s !! a);
  cl_lsn : forall a, a ∈ others s (configuration_ s) -> INT_MIN <= map_at 0 a (current_rpc_lsn_ s) < INT_MAX;
  cl_fits : forall a, a ∈ others s (configuration_ s) -> call_fits a (SerializeToString (heartbeat_message a s));
}.

Record trans2P_post s s' : Prop := {
  t2p_constants : constants s' = constants s;
  t2p_entries : entries_ s' = entries_ s;
  t2p_same : (commit_index_ s', term_ s', already_voted_ s', winned_votes_ s') =
             (commit_index_ s, term_ s, already_voted_ s, winned_votes_ s);
  t2p_same' : (smc_ s', entryIndex_to_socketAddr_map_ s', follower_rpc_lsn_ s') =
              (smc_ s, entryIndex_to_socketAddr_map_ s, follower_rpc_lsn_ s);
  t2p_state : state_ s' = primary;
  t2p_waits : waits (candidate_timer_ s') = [];
  t2p_expiry : expires_at_min (candidate_timer_ s') = true;
  t2p_saved : Follower_saved_index s' =
    <[server_ s := log_size s - 1]> (fill (configuration_ s) (-1) (Follower_saved_index s));
  t2p_next : forall a, a ∈ configuration_ s -> map_at 0 a (nextIndex_ s') = log_size s;
  t2p_calls : calls (network_ s') = calls (network_ s) ++
    map (fun a => (APPEND_ENTRY, a, SerializeToString (heartbeat_message a s)))
      (others s (configuration_ s));
  t2p_lsn : forall a, map_at 0 a (current_rpc_lsn_ s') = map_at 0 a (current_rpc_lsn_ s) +
    (if decide (a ∈ others s (configuration_ s)) then 1 else 0);
  t2p_retry : forall a, a ∈ others s (configuration_ s) ->
    exists t, retry_timers_ s' !! a = Some t /\ waits t = [H_AE a] /\ expires_at_min t = false;
}.

Lemma reset_next_ok l n s :
  for_each l (fun server => put_nextIndex server n ;; put_saved_index server (-1)) s =
    (Val tt, set_Follower_saved_index (fill l (-1) (Follower_saved_index s))
      (set_nextIndex_ (fill l n (nextIndex_ s)) s)).
Proof.
  revert s. induction l as [|x l IH]; intros s; [by destruct s|]. cbn [for_each].
  unfold bind at 1. unfold put_nextIndex at 1, put_saved_index at 1, bind, modify.
  rewrite IH. done.
Qed.

Lemma trans2P_ok s : can_lead s -> total trans2P s (fun _ s' => trans2P_post s s').
Proof.
  intros [Hok Hnd Htm Hlsn Hfit]. pose proof (ls_small _ Hok) as Hsm.
  fold (log_of s) in Hsm. fold (log_size s) in Hsm.
  assert (0 <= log_size s) by (unfold log_size; lia).
  unfold trans2P, cancel_all_timers. apply total_modify, total_modify.
  set (s1 := set_state_ primary _).
  eapply total_step; [apply (size_ok s1), Hok|]. change (log_size s1) with (log_size s).
  apply total_gets. change (configuration_ s1) with (configuration_ s).
  eapply total_step; [apply reset_next_ok|]. apply total_gets. unfold int_sub.
  eapply total_step; [apply int_result_ok; unfold INT_MIN, INT_MAX in *; lia|].
  apply total_modify. cbn [server_ set_Follower_saved_index set_nextIndex_].
  set (s2 := set_Follower_saved_index _ _).
  assert (Hoth : others s2 (configuration_ s) = others s (configuration_ s)) by done.
  assert (Hin : forall a, a ∈ others s (configuration_ s) -> a ∈ configuration_ s)
    by (intros a Ha; apply list_elem_of_filter in Ha; tauto).
  assert (Hnext : forall a, a ∈ configuration_ s -> map_at 0 a (nextIndex_ s2) = log_size s).
  { intros a Ha. unfold s2, map_at. cbn. rewrite lookup_fill. by rewrite decide_True. }
  assert (Hmsg : forall a, a ∈ configuration_ s -> ae_message a s2 = heartbeat_message a s).
  { intros a Ha. unfold ae_message. rewrite (Hnext a Ha).
    rewrite lookup_ge_None_2 by (unfold log_size, log_of; cbn; lia). done. }
  eapply total_mono.
  - eapply (broadcast_ok APPEND_ENTRY H_AE (fun a s => SerializeToString (ae_message a s)) AE can_send_ae);
      [apply AE_ok|intros *; apply can_ae_other|done|].
    intros a Ha. rewrite Hoth in Ha. pose proof (Hin a Ha) as Ha'. split.
    + done.
    + destruct (Htm a Ha) as [t0 Ht0]. exists (snd (set_expires_at_min t0)).
      split; [|apply set_min_waits]. cbn. by rewrite lookup_fmap, Ht0.
    + rewrite (Hnext a Ha'). unfold log_size, log_of. cbn. lia.
    + by apply Hlsn.
    + rewrite Hmsg by done. by apply Hfit.
  - intros [] s' [H1 H2 H3 H4 H5 H6 H7 H8]. rewrite Hoth in *. unfold s2 in *. cbn in *.
    split; try congruence.
    + exact H1.
    + injection H4 as _ _ _ _ Hct. rewrite Hct. apply set_min_waits.
    + injection H4 as _ _ _ _ Hct. rewrite Hct. apply set_min_expiry.
    + intros a Ha. rewrite H6. by apply Hnext.
    + rewrite H5. f_equal. apply map_ext_in. intros a Ha%list_elem_of_In. by rewrite <- Hmsg by auto.
    + exact H7.
    + intros a Ha. specialize (H8 a). by rewrite decide_True in H8.
Qed.
End elections.
End ServerSpecs.
