(* ===== verification/Node.v ===== *)
(** One server process: the io thread that runs [RaftServer], the queue of the
    io_context, the timers that expire and the worker threads of the two pools,
    as one transition system.  [perform] is one step of it, executable; a step
    that ends in an exception ends the process, since main lets it pass.

    A timer's waits move to the queue when it expires, before their handlers
    run; cancelling a timer does not take them out of the queue again.  The
    handlers of cancelled waits get [operation_aborted] and return at once
    ([run_aborted]), so they are not queued.  A task runs in one step, which
    also posts its completion. *)

From S2P Require Import Prelude CxxString Platform Messages Util Interfaces ThreadPool StateMachineControler RaftServer ServerFacts ServerSpecs.

Module Node.
Import StateMachineControler (StateMachineControler, posted(..), apply_task, query_task, run_apply_task, run_query_task, write_thread_pool_, read_thread_pool, set_write_thread_pool_, set_read_thread_pool).
Export ServerSpecs.

(** What the queue of the io_context holds. *)
Inductive completion :=
| Handler (h : handler)
| Posted (p : posted).

Inductive label :=
| Deliver (t : RPC_TYPE) (m : string) (peer : server_addr)
| Run
| Elapse_candidate
| Elapse_retry (server : server_addr)
| Write_wake (i : nat)
| Write_finish (i : nat)
| Read_wake (i : nat)
| Read_finish (i : nat).

Record Node (L N T SM : Type) := {
  server : RaftServer L N T;
  machine : SM;
  ready : list completion;
}.
Arguments server {_ _ _ _} _.
Arguments machine {_ _ _ _} _.
Arguments ready {_ _ _ _} _.

Section node.
Context {L N T SM : Type} {LS : LogStore L} {TR : Transport N} {DT : DeadlineTimer handler T}
  {RD : Rand} {RC : RaftCodecs} {BS : BoostSplit} {SMC : StateMachine SM}.
Implicit Types (n : Node L N T SM).

Definition with_server (s : RaftServer L N T) n : Node L N T SM :=
  {| server := s; machine := machine n; ready := ready n |}.
Definition with_machine (sm : SM) n : Node L N T SM :=
  {| server := server n; machine := sm; ready := ready n |}.
Definition with_ready (r : list completion) n : Node L N T SM :=
  {| server := server n; machine := machine n; ready := r |}.

(** [io_service_.post], and a timer's waits when it expires. *)
Definition post (cs : list completion) n : Node L N T SM := with_ready (ready n ++ cs) n.

Definition run_posted (p : posted) : M (RaftServer L N T) unit :=
  match p with
  | Post_write_resp_apply_call entry_index res_str => write_resp_apply_call entry_index res_str
  | Post_write_resp_query_call addr res_str => write_resp_query_call addr res_str
  end.

Definition run_completion (c : completion) : M (RaftServer L N T) unit :=
  match c with
  | Handler h => run_handler h no_error
  | Posted p => run_posted p
  end.

Definition on_server (m : M (RaftServer L N T) unit) n : option (res unit * Node L N T SM) :=
  let '(r, s) := m (server n) in Some (r, with_server s n).

Definition with_write_pool (p : ThreadPool.ThreadPool apply_task) n : Node L N T SM :=
  let s := server n in with_server (set_smc_ (set_write_thread_pool_ p (smc_ s)) s) n.
Definition with_read_pool (p : ThreadPool.ThreadPool query_task) n : Node L N T SM :=
  let s := server n in with_server (set_smc_ (set_read_thread_pool p (smc_ s)) s) n.

Definition perform (l : label) n : option (res unit * Node L N T SM) :=
  let s := server n in
  match l with
  | Deliver t m peer => on_server (reactToIncomingMsg t m peer) n
  | Run =>
      match ready n with
      | [] => None
      | c :: rest => on_server (run_completion c) (with_ready rest n)
      end
  | Elapse_candidate =>
      match waits (candidate_timer_ s) with
      | [] => None
      | ws => Some (Val tt, post (map Handler ws)
                (with_server (set_candidate_timer_ (elapse (candidate_timer_ s)) s) n))
      end
  | Elapse_retry a =>
      match retry_timers_ s !! a with
      | None => None
      | Some t =>
          match waits t with
          | [] => None
          | ws => Some (Val tt, post (map Handler ws)
                    (with_server (set_retry_timers_ (<[a := elapse t]> (retry_timers_ s)) s) n))
          end
      end
  | Write_wake i =>
      match ThreadPool.wake i (write_thread_pool_ (smc_ s)) with
      | None => None
      | Some p => Some (Val tt, with_write_pool p n)
      end
  | Write_finish i =>
      match ThreadPool.finish i (write_thread_pool_ (smc_ s)) with
      | None => None
      | Some (t, p) =>
          let '(reply, sm) := run_apply_task t (machine n) in
          Some (Val tt, post [Posted reply] (with_machine sm (with_write_pool p n)))
      end
  | Read_wake i =>
      match ThreadPool.wake i (read_thread_pool (smc_ s)) with
      | None => None
      | Some p => Some (Val tt, with_read_pool p n)
      end
  | Read_finish i =>
      match ThreadPool.finish i (read_thread_pool (smc_ s)) with
      | None => None
      | Some (q, p) =>
          let '(reply, sm) := run_query_task q (machine n) in
          Some (Val tt, post [Posted reply] (with_machine sm (with_read_pool p n)))
      end
  end.

(** A run performs its labels one after the other; each but the last returns. *)
Fixpoint perform_all (ls : list label) n : option (res unit * Node L N T SM) :=
  match ls with
  | [] => Some (Val tt, n)
  | l :: ls' =>
      match perform l n with
      | Some (Val _, n') => perform_all ls' n'
      | Some (r, n') => match ls' with [] => Some (r, n') | _ => None end
      | None => None
      end
  end.

Definition runs n (ls : list label) n' : Prop := perform_all ls n = Some (Val tt, n').
Definition throws n (ls : list label) (e : exn) : Prop :=
  exists n', perform_all ls n = Some (Exn e, n').

(** The task the state machine runs at a step, if it does, and those it ran
    along a run, in order. *)
Definition task_of_step (l : label) n : list apply_task :=
  match l with
  | Write_finish i =>
      match ThreadPool.finish i (write_thread_pool_ (smc_ (server n))) with
      | Some (t, _) => [t]
      | None => []
      end
  | _ => []
  end.
Fixpoint applied_tasks (ls : list label) n : list apply_task :=
  match ls with
  | [] => []
  | l :: ls' =>
      match perform l n with
      | Some (Val _, n') => task_of_step l n ++ applied_tasks ls' n'
      | _ => []
      end
  end.

(** The process at the moment its io_context starts to run: constructor, then
    [run].  [content] is the configuration file. *)
Definition start (ip : string) (port : Z) (config_path : string) (content : option string)
    (entries : L) (network : N) (sm : SM) (seed : Z) : option (res unit * Node L N T SM) :=
  match StateMachineControler.new 5 1 with
  | Val smc =>
      let '(r, s) := (constructor_body content ;; run)
        (initial_members ip port config_path entries network smc seed) in
      Some (r, {| server := s; machine := sm; ready := [] |})
  | _ => None
  end.
End node.

(** ** Lemmas on runs *)

Section runs.
Context {L N T SM : Type} {LS : LogStore L} {TR : Transport N} {DT : DeadlineTimer handler T}
  {RD : Rand} {RC : RaftCodecs} {BS : BoostSplit} {SMC : StateMachine SM}.
Implicit Types (n : Node L N T SM).

(** A handler whose wait was cancelled does nothing. *)
Lemma run_aborted h (s : RaftServer L N T) : run_handler h operation_aborted s = (Val tt, s).
Proof. by destruct h. Qed.

(** What a step does to the server: a computation of the io thread, a timer
    that expires, or a step of a pool. *)
Inductive server_step : RaftServer L N T -> RaftServer L N T -> Prop :=
| by_message t m a s : server_step s (snd (reactToIncomingMsg t m a s))
| by_handler h s : server_step s (snd (run_handler h no_error s))
| by_posted p s : server_step s (snd (run_posted p s))
| by_candidate_timer x s : server_step s (set_candidate_timer_ x s)
| by_retry_timers x s : server_step s (set_retry_timers_ x s)
| by_write_pool p s : server_step s (set_smc_ (set_write_thread_pool_ p (smc_ s)) s)
| by_read_pool p s : server_step s (set_smc_ (set_read_thread_pool p (smc_ s)) s).

Lemma perform_server_step l n r n' :
  perform l n = Some (r, n') -> server_step (server n) (server n').
Proof.
  intros E. destruct l; cbn in E; unfold on_server in E;
    repeat (match type of E with
            | context [match ?x with _ => _ end] => destruct x eqn:?
            end); simplify_eq/=;
    match goal with
    | H : ?m = (_, ?s) |- server_step _ ?s => replace s with (snd m) by (by rewrite H)
    | _ => idtac
    end; try constructor.
  destruct c; cbn; constructor.
Qed.

Lemma perform_all_ind (P : Node L N T SM -> Prop) ls n r n' :
  (forall l n r n', P n -> perform l n = Some (r, n') -> P n') ->
  P n -> perform_all ls n = Some (r, n') -> P n'.
Proof.
  intros Hstep. revert n. induction ls as [|l ls IH]; intros n Hn E; cbn in E; [by simplify_eq|].
  destruct (perform l n) as [[r1 n1]|] eqn:E1; [|done].
  pose proof (Hstep _ _ _ _ Hn E1) as Hn1. destruct r1; [by eapply IH|..]; destruct ls; by simplify_eq.
Qed.

Lemma frame_posted (R : relation (RaftServer L N T)) {FR : Frame R} p : stable R (run_posted p).
Proof. destruct p; [exact (frame_resp_apply R _ _)|exact (frame_resp_query R _ _)]. Qed.
Lemma frame_completion (R : relation (RaftServer L N T)) {FR : Frame R} {AP : Appends R} c : stable R (run_completion c).
Proof. destruct c; [exact (frame_handler R _ _)|exact (frame_posted R _)]. Qed.

(** The frame rule for whole runs, those that throw included. *)
Lemma frame_runs (R : relation (RaftServer L N T)) {FR : Frame R} {CM : Commits R} {AP : Appends R} ls n r n' :
  (forall c s, R s (set_smc_ c s)) -> perform_all ls n = Some (r, n') -> R (server n) (server n').
Proof.
  intros Hsmc. apply (perform_all_ind (fun n' => R (server n) (server n'))); [|reflexivity].
  clear ls r n'. intros l n1 r n2 H1 E. etrans; [exact H1|].
  apply perform_server_step in E. destruct E.
  - by apply frame_message.
  - exact (frame_handler R _ _ _).
  - by apply frame_posted.
  - apply frame_candidate_timer.
  - apply frame_retry_timers.
  - apply Hsmc.
  - apply Hsmc.
Qed.

(** One step of a relation that knows nothing of votes: only what a message does
    is left to show. *)
Lemma roles_perform (R : relation (RaftServer L N T)) {RR : Roles R} {AP : Appends R} l n r n' :
  (forall c s, R s (set_smc_ c s)) ->
  (forall t m a, l = Deliver t m a -> R (server n) (snd (reactToIncomingMsg t m a (server n)))) ->
  perform l n = Some (r, n') -> R (server n) (server n').
Proof.
  intros Hsmc Hm E. destruct l as [t m a| | |a|i|i|i|i]; cbn in E; unfold on_server in E.
  - specialize (Hm t m a eq_refl). destruct (reactToIncomingMsg t m a (server n)). by simplify_eq/=.
  - destruct (ready n) as [|c cs]; [done|]. cbn in E.
    assert (Hc : R (server n) (snd (run_completion c (server n)))).
    { destruct c as [h|[]]; [exact (frame_handler R _ _ _)|exact (frame_resp_apply R _ _ _)|exact (frame_resp_query R _ _ _)]. }
    destruct (run_completion c (server n)). by simplify_eq/=.
  - destruct (waits _); simplify_eq/=. apply frame_candidate_timer.
  - destruct (retry_timers_ _ !! _) as [t|]; [|done]. destruct (waits t); simplify_eq/=. apply frame_retry_timers.
  - destruct (ThreadPool.wake _ _); simplify_eq/=. apply Hsmc.
  - destruct (ThreadPool.finish _ _) as [[]|]; [|done]. destruct (run_apply_task _ _). simplify_eq/=. apply Hsmc.
  - destruct (ThreadPool.wake _ _); simplify_eq/=. apply Hsmc.
  - destruct (ThreadPool.finish _ _) as [[]|]; [|done]. destruct (run_query_task _ _). simplify_eq/=. apply Hsmc.
Qed.

(** Reading the configuration writes the configuration. *)
Lemma load_config_stable (R : relation (RaftServer L N T)) {HR : PreOrder R} content :
  (forall x s, R s (set_configuration_ x s)) -> (forall x y s, R s (set_majority_ x (set_N_ y s))) ->
  stable R (load_config_from_file content).
Proof.
  intros Hc Hm. destruct content as [text|]; [|by apply stable_throw_line].
  apply stable_bind; [exact _| |intros _; by apply stable_modify].
  generalize (S (String.length text)) true. intros fuel. revert text.
  induction fuel as [|fuel IH]; intros text good; cbn [read_config]; [by apply stable_ub|].
  destruct (negb good); [by apply stable_ret|].
  destruct (getline_255 text) as [[line text'] good']. destruct (_ =? 0); [by apply stable_ret|].
  cbv zeta. destruct (split_str_boost _ _) as [|v0 [|v1 [|]]]; try by apply stable_throw_line.
  apply stable_bind; [exact _|by apply stable_int_result|intros port].
  apply stable_bind; [exact _|by apply stable_modify|intros _; apply IH].
Qed.

(** The constructor and [run] leave alone what they do not write. *)
Lemma construct_stable (R : relation (RaftServer L N T)) {HR : PreOrder R} content :
  (forall x s, R s (set_configuration_ x s)) -> (forall x y s, R s (set_majority_ x (set_N_ y s))) ->
  (forall x s, R s (set_nextIndex_ x s)) -> (forall x s, R s (set_Follower_saved_index x s)) ->
  (forall x s, R s (set_current_rpc_lsn_ x s)) -> (forall x s, R s (set_follower_rpc_lsn_ x s)) ->
  (forall x s, R s (set_retry_timers_ x s)) -> (forall x y s, R s (set_candidate_timer_ x (set_rand_seed y s))) ->
  (forall y s, R s (set_rand_seed y s)) -> stable R (constructor_body content ;; run).
Proof.
  intros Hc Hm Hn Hsv Hcl Hfl Ht Hct Hr. apply stable_bind; [exact _| |intros _].
  - apply stable_bind; [exact _|by apply load_config_stable|intros _].
    apply stable_bind; [exact _|by apply stable_gets|intros conf]. apply stable_for_each; [exact _|intros a].
    repeat (apply stable_bind; [exact _| |intros _]); apply stable_modify; auto.
  - unfold run, candidate_expires_from_now. intros s. unfold on_rand, on_candidate_timer, zoom, bind.
    destruct (random_candidate_expire _) as [[] ?]; try apply Hr.
    destruct (expires_from_now _ _) as [c t]. destruct (negb _); [apply Hct|]. exact (Hct _ _ s).
Qed.

Lemma start_smc ip port path content entries network sm seed r n :
  start ip port path content entries network sm seed = Some (r, n) ->
  StateMachineControler.new 5 1 = Val (smc_ (server n)) /\ network_ (server n) = network /\
  ip_ (server n) = ip /\ port_ (server n) = port /\ state_ (server n) = follower.
Proof.
  unfold start. destruct (StateMachineControler.new 5 1) as [c| | |] eqn:E; try done.
  assert (Hs : stable (same (fun s : RaftServer L N T => (smc_ s, network_ s, (ip_ s, port_ s, state_ s)))) (constructor_body content ;; run))
    by (apply construct_stable; [exact _|intros; reflexivity..]).
  specialize (Hs (initial_members ip port path entries network c seed)).
  destruct ((constructor_body content ;; run) _) as [r' s]. intros [= <- <-]. cbn in *. unfold same in Hs. cbn in Hs.
  injection Hs as Hs Hn Hi Hp Hst. repeat split; congruence.
Qed.

Lemma start_entries ip port path content entries network sm seed r n :
  start ip port path content entries network sm seed = Some (r, n) -> entries_ (server n) = entries.
Proof.
  unfold start. destruct (StateMachineControler.new 5 1) as [c| | |]; try done.
  assert (Hs : stable (same (@entries_ L N T)) (constructor_body content ;; run))
    by (apply construct_stable; [exact _|intros; reflexivity..]).
  specialize (Hs (initial_members ip port path entries network c seed)).
  destruct ((constructor_body content ;; run) _) as [r' s]. by intros [= <- <-].
Qed.
End runs.
End Node.
