(* ===== verification/Config.v ===== *)
(** The configuration file: what [load_config_from_file] makes of any text, line by
    line ([lines_of], [line_is], [config_result]), and that it reads back a printed
    list of servers. *)

From S2P Require Import Prelude CxxString Platform Messages Util Interfaces ThreadPool StateMachineControler RaftServer ServerFacts.

Module Config.
Export RaftServer.

Definition newline : ascii := "010"%char.
Definition nul : ascii := "000"%char.

(** A server's line, and the file of a list of servers. *)
Definition config_line (server : server_addr) : string := fst server +:+ String ":" (to_string (snd server)).
Definition config_file (servers : list server_addr) : string :=
  foldr (fun server text => config_line server +:+ String newline text) "" servers.

Definition lacks (c : ascii) (s : string) : Prop := str_forall (fun d => negb (bool_decide (d = c))) s = true.

(** What a line can hold: no byte with a meaning in the file, at most 254
    characters, an [int]. *)
Definition printable (server : server_addr) : Prop :=
  lacks ":" (fst server) /\ lacks newline (fst server) /\ lacks nul (fst server) /\
  slen (config_line server) <= 254 /\ INT_MIN <= snd server <= INT_MAX.

(** ** Lines *)

Lemma lacks_cons c d s : lacks c (String d s) -> d <> c /\ lacks c s.
Proof.
  unfold lacks. cbn. intros [Hd Hs]%andb_prop. split; [|done]. intros ->. by rewrite bool_decide_true in Hd.
Qed.

Lemma lacks_app c s t : lacks c s -> lacks c t -> lacks c (s +:+ t).
Proof. unfold lacks. rewrite Reference.str_forall_app. by intros -> ->. Qed.

(** The digits and the sign of a number have no meaning in the file. *)
Lemma lacks_to_string c z :
  (forall d, (d < 10)%N -> negb (bool_decide (pretty_N_char d = c)) = true) -> c <> "-"%char -> lacks c (to_string z).
Proof. intros Hc Hm. apply str_forall_to_string; [done|]. by rewrite bool_decide_false. Qed.

Lemma config_line_plain server :
  printable server -> lacks newline (config_line server) /\ lacks nul (config_line server).
Proof.
  intros (_ & Hn & H0 & _). unfold config_line.
  split; (apply lacks_app; [done|]);
    (match goal with |- lacks ?c (String ?d ?s) => change (String d s) with (String d "" +:+ s) end);
    (apply lacks_app; [done|]); (apply lacks_to_string; [by_digit|done]).
Qed.

Lemma getline_cons n c text :
  c <> newline -> getline n (String c text) =
    match n with
    | O => ("", String c text, false)
    | S n' => let '(line, left_over, good) := getline n' text in (String c line, left_over, good)
    end.
Proof. intros Hc. destruct n; destruct c as [[] [] [] [] [] [] [] []]; try reflexivity; by destruct Hc. Qed.

Lemma getline_line n line rest :
  lacks newline line -> (String.length line <= n)%nat ->
  getline n (line +:+ String newline rest) = (line, rest, true).
Proof.
  revert n. induction line as [|c line IH]; intros n Hl Hn; [by destruct n|].
  apply lacks_cons in Hl as [Hc Hl]. cbn in Hn. destruct n as [|n]; [lia|].
  change (String c line +:+ ?t) with (String c (line +:+ t)). rewrite getline_cons, IH by (done || lia). done.
Qed.

Lemma getline_shrinks n text line rest good :
  getline n text = (line, rest, good) ->
  (String.length rest + String.length line <= String.length text)%nat.
Proof.
  revert n line rest good. induction text as [|c text IH]; intros n line rest good E.
  - destruct n; injection E as <- <- <-; done.
  - destruct (decide (c = newline)) as [->|Hc]; [destruct n; injection E as <- <- <-; cbn; lia|].
    rewrite getline_cons in E by done. destruct n as [|n]; [injection E as <- <- <-; cbn; lia|].
    destruct (getline n text) as [[l r] g] eqn:En. injection E as <- <- <-.
    specialize (IH _ _ _ _ En). cbn. lia.
Qed.

Lemma getline_255_shrinks text line rest good :
  getline_255 text = (line, rest, good) -> line <> "" -> (String.length rest < String.length text)%nat.
Proof.
  unfold getline_255. generalize 254%nat. intros n E Hl.
  destruct text as [|c text]; [by injection E as <- _ _|].
  apply getline_shrinks in E. destruct line; [done|]. cbn [String.length] in *. lia.
Qed.

Lemma c_str_cons c s : c <> nul -> c_str (String c s) = String c (c_str s).
Proof. intros Hc. destruct c as [[] [] [] [] [] [] [] []]; try reflexivity; by destruct Hc. Qed.

Lemma c_str_id s : lacks nul s -> c_str s = s.
Proof. induction s as [|c s IH]; [done|]. intros [Hc Hs]%lacks_cons. rewrite c_str_cons, IH by done. done. Qed.

Section config.
Context {L N T : Type} {LS : LogStore L} {TR : Transport N} {DT : DeadlineTimer handler T}
  {RD : Rand} {RC : RaftCodecs} {BS : BoostSplit}.
Implicit Types (s : RaftServer L N T).

(** The lines the loop reads: up to an empty one, or to where [getline] failed.  The
    line on which it fails, the last of the file or one of over 254 characters, is still
    read, as far as it got. *)
Inductive lines_of : bool -> string -> list string -> Prop :=
| Lines_failed text : lines_of false text []
| Lines_empty text line rest good :
    getline_255 text = (line, rest, good) -> c_str line = "" -> lines_of true text []
| Lines_cons text line rest good lines :
    getline_255 text = (line, rest, good) -> c_str line <> "" -> lines_of good rest lines ->
    lines_of true text (c_str line :: lines).

(** What [atoi] reads a text as. *)
Definition number (text : string) : Z := signed_val (skip_spaces text).

(** A line of two fields, the second of which is a port in [int]. *)
Definition line_is (line : string) (server : server_addr) : Prop :=
  exists port, split_str_boost line ":" = [fst server; port] /\ number port = snd server /\
    INT_MIN <= snd server <= INT_MAX.

(** How reading lines ends: all of them are servers, and [finish] is done; or the first
    that is none has not two fields, or has a port outside [int].  The servers before it
    are in [configuration_] then. *)
Definition config_result (lines : list string) (finish : RaftServer L N T -> RaftServer L N T) s
    (end_ : res unit * RaftServer L N T) : Prop :=
  exists servers, let s1 := set_configuration_ (configuration_ s ++ servers) s in
  (Forall2 line_is lines servers /\ end_ = (Val tt, finish s1)) \/
  exists before line after, lines = before ++ line :: after /\ Forall2 line_is before servers /\
    ((length (split_str_boost line ":") <> 2%nat /\
      end_ = (Exn (my_exception ("failed to read the config file line: " +:+ line) file 87), s1)) \/
     exists v0 v1, split_str_boost line ":" = [v0; v1] /\ ~ INT_MIN <= number v1 <= INT_MAX /\
      end_ = (Undef "signed integer overflow", s1)).

Lemma config_result_stop line lines finish s r :
  (length (split_str_boost line ":") <> 2%nat /\
    r = Exn (my_exception ("failed to read the config file line: " +:+ line) file 87)) \/
  (exists v0 v1, split_str_boost line ":" = [v0; v1] /\ ~ INT_MIN <= number v1 <= INT_MAX /\
    r = Undef "signed integer overflow") ->
  config_result (line :: lines) finish s (r, s).
Proof.
  intros H. exists []. rewrite app_nil_r. replace (set_configuration_ (configuration_ s) s) with s by (by destruct s).
  right. exists [], line, lines. split; [done|]. split; [constructor|].
  destruct H as [[? ->]|(v0 & v1 & ? & ? & ->)]; [by left|right; by exists v0, v1].
Qed.

Lemma config_result_cons line server lines finish s end_ :
  line_is line server ->
  config_result lines finish (set_configuration_ (configuration_ s ++ [server]) s) end_ ->
  config_result (line :: lines) finish s end_.
Proof.
  intros Hl (servers & H). exists (server :: servers).
  assert (E : set_configuration_ (configuration_ (set_configuration_ (configuration_ s ++ [server]) s) ++ servers)
      (set_configuration_ (configuration_ s ++ [server]) s) =
    set_configuration_ (configuration_ s ++ server :: servers) s) by (cbn; by rewrite <- app_assoc).
  cbv zeta in H |- *. rewrite E in H. destruct H as [[H ->]|(before & bad & after & -> & H & Hend)].
  - left. by split; [constructor|].
  - right. exists (line :: before), bad, after. split; [done|]. split; [by constructor|done].
Qed.

Lemma read_config_ends fuel good text s :
  (String.length text < fuel)%nat ->
  exists lines, lines_of good text lines /\ config_result lines (fun s1 => s1) s (read_config fuel good text s).
Proof.
  assert (Hnil : forall s, config_result [] (fun s1 => s1) s (Val tt, s)).
  { intros s0. exists []. left. split; [constructor|]. rewrite app_nil_r. by destruct s0. }
  revert good text s. induction fuel as [|fuel IH]; intros good text s Hf; [lia|]. cbn [read_config].
  destruct good; [cbn [negb]|exists []; split; [constructor|apply Hnil]].
  destruct (getline_255 text) as [[line text'] good'] eqn:El.
  destruct (Z.eqb_spec (slen (c_str line)) 0) as [Hz|Hne].
  { exists []. split; [|apply Hnil]. eapply Lines_empty; [exact El|]. by destruct (c_str line). }
  assert (Hline : c_str line <> "") by (by intros E; rewrite E in Hne).
  assert (Hlt : (String.length text' < fuel)%nat).
  { assert (line <> "") by (by intros ->). pose proof (getline_255_shrinks _ _ _ _ El ltac:(done)). lia. }
  destruct (split_str_boost (c_str line) ":") as [|v0 [|v1 [|]]] eqn:Es;
    try (destruct (IH good' text' s Hlt) as (lines & Hlines & _); exists (c_str line :: lines);
         split; [by eapply Lines_cons|apply config_result_stop; left; by rewrite Es]).
  unfold atoi, int_result. fold (number v1). destruct (in_int (number v1)) eqn:Hi.
  - destruct (IH good' text' (set_configuration_ (configuration_ s ++ [(v0, number v1)]) s) Hlt)
      as (lines & Hlines & Hend).
    exists (c_str line :: lines). split; [by eapply Lines_cons|]. rewrite bind_ret. cbv zeta. unfold bind, modify.
    apply (config_result_cons _ (v0, number v1)); [|exact Hend]. exists v1. by apply in_int_iff in Hi.
  - destruct (IH good' text' s Hlt) as (lines & Hlines & _). exists (c_str line :: lines).
    split; [by eapply Lines_cons|]. apply config_result_stop. right. exists v0, v1.
    split; [done|]. split; [|done]. intros H%in_int_iff. congruence.
Qed.

Lemma config_result_then lines (f : RaftServer L N T -> RaftServer L N T) (m : M (RaftServer L N T) unit) s :
  config_result lines (fun s1 => s1) s (m s) -> config_result lines f s ((m ;; modify f) s).
Proof.
  intros (servers & H). exists servers. cbv zeta in *. unfold bind. destruct H as [[H E]|(before & line & after & H & Hl & Hend)].
  - left. by rewrite E.
  - right. exists before, line, after. split; [done|]. split; [done|].
    destruct Hend as [[Hn E]|(v0 & v1 & Hs & Hi & E)]; rewrite E; [by left|right; by exists v0, v1].
Qed.

(** One printed line is read. *)
Lemma read_line_ok {BSL : BoostSplitLaws} fuel server rest s :
  printable server ->
  read_config (S fuel) true (config_line server +:+ String newline rest) s =
    read_config fuel true rest (set_configuration_ (configuration_ s ++ [server]) s).
Proof.
  intros Hp. destruct (config_line_plain server Hp) as [Hn H0]. destruct Hp as (Hc & _ & _ & Hl & Hi).
  cbn [read_config negb].
  assert (Eg : getline_255 (config_line server +:+ String newline rest) = (config_line server, rest, true)).
  { unfold getline_255. rewrite getline_line; [|done|unfold slen in Hl; lia].
    by destruct (config_line server +:+ String newline rest) eqn:E; [destruct (config_line server)|]. }
  rewrite Eg, c_str_id by done.
  assert (Hpos : 0 < slen (config_line server)).
  { unfold config_line, slen. rewrite length_str_app. cbn [String.length]. lia. }
  destruct (Z.eqb_spec (slen (config_line server)) 0); [lia|].
  unfold config_line. rewrite split_two; [|done|by apply lacks_to_string; [by_digit|]].
  rewrite <- (str_app_nil_r (to_string (snd server))).
  rewrite (bind_val _ _ _ _ _ (atoi_to_string (snd server) "" s Hi I)). by destruct server.
Qed.

Lemma read_config_file_ok {BSL : BoostSplitLaws} servers fuel s :
  Forall printable servers -> (length servers < fuel)%nat ->
  read_config fuel true (config_file servers) s =
    (Val tt, set_configuration_ (configuration_ s ++ servers) s).
Proof.
  intros Hp. revert fuel s. induction Hp as [|server servers Hs Hp IH]; intros fuel s Hf.
  - destruct fuel; [cbn in Hf; lia|]. rewrite app_nil_r. by destruct s.
  - destruct fuel; [cbn in Hf; lia|]. cbn [config_file foldr]. rewrite read_line_ok by done.
    cbn in Hf. unfold config_file in IH. rewrite IH by lia. cbn. by rewrite <- app_assoc.
Qed.

(** A line has at least a character. *)
Lemma length_config_file servers : (length servers <= String.length (config_file servers))%nat.
Proof.
  unfold config_file. induction servers as [|server servers IH]; [done|]. cbn [foldr length].
  rewrite length_str_app. cbn. lia.
Qed.

(** C29: reading a configuration ends, in exactly one of these ways.  A file that cannot be
    opened is the exception of line 76.  Whatever a file holds, binary garbage and
    over-long lines included, the loop ends, and with [lines] the lines it reads: if each
    has two fields and a port in [int], the server gets these servers, in their order,
    their number and a majority of it; else the first line that has not exactly two
    fields is the exception of line 87, and the first whose port is outside [int] is
    undefined behaviour of [atoi], with the servers of the lines before it appended. *)
Theorem load_config_ends (content : option string) s :
  match content with
  | None => load_config_from_file content s = (Exn (my_exception "read config file failed" file 76), s)
  | Some text => exists lines, lines_of true text lines /\
      config_result lines (fun s1 => let n := Z.of_nat (length (configuration_ s1)) in
        set_majority_ (n / 2 + 1) (set_N_ n s1)) s (load_config_from_file content s)
  end.
Proof.
  destruct content as [text|]; [|done].
  destruct (read_config_ends (S (String.length text)) true text s ltac:(lia)) as (lines & Hl & H).
  exists lines. split; [done|]. by apply config_result_then.
Qed.

Lemma load_config_ok {BSL : BoostSplitLaws} servers s :
  Forall printable servers -> configuration_ s = [] ->
  exists s', load_config_from_file (Some (config_file servers)) s = (Val tt, s') /\
    configuration_ s' = servers /\ N_ s' = Z.of_nat (length servers) /\
    N_ s' < 2 * majority_ s' <= N_ s' + 2 /\
    s' = set_majority_ (majority_ s') (set_N_ (N_ s') (set_configuration_ servers s)).
Proof.
  intros Hp Hc. unfold load_config_from_file. pose proof (length_config_file servers).
  rewrite (bind_val _ _ _ _ _ (read_config_file_ok servers (S (String.length (config_file servers))) s Hp ltac:(lia))), Hc.
  eexists. split; [done|]. cbn -[Z.mul Z.div]. set (n := Z.of_nat (length servers)).
  pose proof (Z.div_mod n 2 ltac:(done)). pose proof (Z.mod_pos_bound n 2 ltac:(done)).
  split_and!; [done|done|lia|lia|done].
Qed.

(** C28: a printed configuration is read back.  From the file of a list of
    servers the server gets exactly that list, its length, and as majority the
    least number more than half of it, so two majorities have a server in
    common; nothing else changes. *)
Theorem config_roundtrip {BSL : BoostSplitLaws} servers s :
  Forall printable servers -> configuration_ s = [] ->
  exists s', load_config_from_file (Some (config_file servers)) s = (Val tt, s') /\
    configuration_ s' = servers /\ N_ s' = Z.of_nat (length servers) /\
    N_ s' < 2 * majority_ s' <= N_ s' + 2 /\
    s' = set_majority_ (majority_ s') (set_N_ (N_ s') (set_configuration_ servers s)).
Proof. apply load_config_ok. Qed.
End config.

(** ** Witness: the three servers of a cluster on one machine *)

Module Witness.
Import Reference ReferenceCodecs ReferenceInterfaces.

Definition cluster : list server_addr := [("127.0.0.1", 7001); ("127.0.0.1", 7002); ("localhost", 7003)].
Lemma cluster_printable : Forall printable cluster.
Proof. repeat constructor; try done; vm_compute; congruence. Qed.
Definition fresh : RaftServer (list rpc_Entry) (list (RPC_TYPE * server_addr * string)) (ref_timer handler) :=
  initial_members "127.0.0.1" 7001 "config" [] [] (match StateMachineControler.new 5 1 with
    | Val smc => smc
    | _ => {| StateMachineControler.applied_index_ := -1; StateMachineControler.commit_index_ := -1;
              StateMachineControler.write_thread_pool_ := ThreadPool.new 0;
              StateMachineControler.read_thread_pool := ThreadPool.new 0 |} end) 7001.

Lemma config_roundtrip_witness : exists s',
  load_config_from_file (Some (config_file cluster)) fresh = (Val tt, s') /\
  configuration_ s' = cluster /\ majority_ s' = 2.
Proof.
  destruct (config_roundtrip cluster fresh cluster_printable eq_refl) as (s' & E & Hc & HN & Hm & _).
  exists s'. split; [exact E|]. split; [exact Hc|]. rewrite HN in Hm. cbn in Hm. lia.
Defined.

(** A line with three fields, a port that is no [int], a line that is cut at
    254 characters. *)
Example three_fields :
  fst (load_config_from_file (Some "::1:7001") fresh)
  = Exn (my_exception "failed to read the config file line: ::1:7001" file 87).
Proof. vm_compute. reflexivity. Qed.
Example port_outside_int :
  exists w, fst (load_config_from_file (Some "127.0.0.1:99999999999") fresh) = Undef w.
Proof. eexists. vm_compute. reflexivity. Qed.
End Witness.
End Config.
