(* ===== verification/ThreeServers.v ===== *)
(** A concrete cluster for examples, witnesses and counterexamples: three
    servers on one machine, on the reference platform, running the easy state
    machine. *)

From S2P Require Import Prelude CxxString Platform Timer Messages Util Interfaces RpcToString EasyStateMachine ThreadPool StateMachineControler RaftServer ServerFacts ServerSpecs Node.

Module ThreeServers.
Export Node.
Export Reference ReferenceCodecs ReferenceInterfaces.
#[export] Existing Instances Timer.timer Timer.timer_laws.
#[export] Existing Instance EasyStateMachine.easy_state_machine.
#[export] Existing Instance EasyStateMachine.easy_state_machine_laws.

Abbreviation log_t := (list rpc_Entry).
Abbreviation net_t := (list (RPC_TYPE * server_addr * string)).
Abbreviation timer_t := (Timer.Timer (ref_timer handler)).
Abbreviation Server := (RaftServer log_t net_t timer_t).
Abbreviation Process := (Node log_t net_t timer_t (gmap string Z)).

Definition localhost : string := "127.0.0.1".
Definition A : server_addr := (localhost, 7001).
Definition B : server_addr := (localhost, 7002).
Definition C : server_addr := (localhost, 7003).
Definition client_addr : server_addr := (localhost, 50000).

Definition newline : string := String "010" "".
Definition config_text : string :=
  localhost +:+ ":7001" +:+ newline +:+ localhost +:+ ":7002" +:+ newline +:+
  localhost +:+ ":7003" +:+ newline.

(** The process of one server as it starts, with the log [entries]. *)
Abbreviation booting who entries :=
  (start (fst who) (snd who) "config" (Some config_text) (entries : log_t) ([] : net_t)
     (∅ : gmap string Z) (snd who)).

Definition no_server : Server :=
  initial_members "" 0 "" [] [] {|
    StateMachineControler.StateMachineControler.applied_index_ := -1;
    StateMachineControler.StateMachineControler.commit_index_ := -1;
    StateMachineControler.StateMachineControler.write_thread_pool_ := ThreadPool.ThreadPool.new 0;
    StateMachineControler.StateMachineControler.read_thread_pool := ThreadPool.ThreadPool.new 0 |} 0.
Definition boot (who : server_addr) (entries : log_t) : Process :=
  match booting who entries with
  | Some (_, n) => n
  | None => {| server := no_server; machine := ∅; ready := [] |}
  end.

Definition after (ls : list label) (n : Process) : Process :=
  match perform_all ls n with Some (_, n') => n' | None => n end.

(** Messages as they arrive. *)
Definition vote_request (from : server_addr) (term index lsn : Z) : label :=
  Deliver REQUEST_VOTE (SerializeToString {| rv_term := term; rv_latest_index := index;
    rv_latest_term := 0; rv_lsn := lsn; rv_ip := fst from; rv_port := snd from |}) from.
Definition vote_reply (from : server_addr) (ok : bool) (term lsn : Z) : label :=
  Deliver RESP_VOTE (SerializeToString {| rrv_ok := ok; rrv_term := term; rrv_lsn := lsn;
    rrv_ip := fst from; rrv_port := snd from |}) from.
Definition append_request (from : server_addr) (term prelog_index prelog_term commit lsn : Z)
    (es : list rpc_Entry) : label :=
  Deliver APPEND_ENTRY (SerializeToString {| ae_term := term; ae_prelog_term := prelog_term;
    ae_commit_index := commit; ae_lsn := lsn; ae_ip := fst from; ae_port := snd from;
    ae_entry := es; ae_prelog_index := prelog_index |}) from.
Definition append_reply (from : server_addr) (ok : bool) (term lsn : Z) (empty : bool) : label :=
  Deliver RESP_APPEND (SerializeToString {| rae_ok := ok; rae_term := term; rae_lsn := lsn;
    rae_ip := fst from; rae_port := snd from; rae_is_empty_ae := empty |}) from.
Definition client_apply (key : string) (v : Z) : label :=
  Deliver CLIENT_APPLY (EasyStateMachine.build_apply_str key v) client_addr.

(** The election timer expires and its handler runs; then B's vote arrives. *)
Definition win_election : list label :=
  [Elapse_candidate; Run; vote_reply B true 1 0].
(** A client's call is appended; B answers the heartbeat, is sent the entry and
    stores it, which commits it. *)
Definition commit_one : list label :=
  [client_apply "x" 7; append_reply B true 1 1 true; append_reply B true 1 2 false].
(** The writer applies it and the client gets its reply. *)
Definition apply_one : list label := [Write_wake 0; Write_finish 0; Run].

(** Runs are evaluated, so that they end is checked by computation. *)
Definition returns (o : option (res unit * Process)) : bool :=
  match o with Some (Val _, _) => true | _ => false end.
Lemma booting_boot who entries :
  returns (booting who entries) = true -> booting who entries = Some (Val tt, boot who entries).
Proof. unfold boot. by destruct (start _ _ _ _ _ _ _ _) as [[[[]| | |] n]|]. Qed.
Lemma run_after ls n :
  returns (perform_all ls n) = true -> perform_all ls n = Some (Val tt, after ls n).
Proof. unfold after. by destruct (perform_all ls n) as [[[[]| | |] n']|]. Qed.
End ThreeServers.
