(* ===== verification/Commit.v ===== *)
(** Client calls, commit and apply: how a call enters the log, how the index of
    the last committed entry is computed, how the entries up to it reach the state
    machine in order, and how the reply goes back to the client. *)

From stdpp Require Import sorting.
From S2P Require Import Prelude CxxString Platform Messages Util Interfaces ThreadPool StateMachineControler RaftServer ServerFacts ServerSpecs Node ThreeServers.

Module Commit.
Import StateMachineControler (StateMachineControler, applied_index_, write_thread_pool_, hands_over, apply_task).
Export Node.

(** ** Entries reach the state machine in order *)

Section in_order.
Context {L N T SM : Type} {LS : LogStore L} {TR : Transport N} {DT : DeadlineTimer handler T}
  {RD : Rand} {RC : RaftCodecs} {BS : BoostSplit} {SMC : StateMachine SM}.
Implicit Types (s : RaftServer L N T) (n : Node L N T SM).

Definition server_hands_over s s' : Prop := hands_over (L := L) (smc_ s) (smc_ s').

#[export] Instance server_hands_over_preorder : PreOrder server_hands_over.
Proof.
  split; unfold server_hands_over; [intros s|intros s1 s2 s3 H1 H2]; [reflexivity|by etrans].
Qed.

#[export] Instance appends_hands_over : Appends (L := L) (N := N) (T := T) server_hands_over.
Proof. split. intros a m. apply stable_zoom. intros s n. unfold server_hands_over. cbn. reflexivity. Qed.
#[export] Instance commits_hands_over : Commits (L := L) (N := N) (T := T) server_hands_over.
Proof.
  split; [intros; unfold server_hands_over; cbn; reflexivity|]. intros i s. unfold apply_to_state_machine, on_smc, zoom.
  pose proof (StateMachineControler.update_hands_over i (smc_ s, entries_ s)) as H.
  destruct (StateMachineControler.update_commit_index_and_apply i _) as [r [c l]]. exact H.
Qed.
#[export] Instance frame_hands_over : Frame (L := L) (N := N) (T := T) server_hands_over.
Proof.
  split; [split; [split|..]|..]; try exact _; unfold server_hands_over; try (intros; cbn; reflexivity);
    try (intros; apply stable_zoom; intros ? ?; cbn; reflexivity).
  - intros q a s. unfold on_smc, zoom, StateMachineControler.get_from_state_machine,
      StateMachineControler.enqueue_read, zoom, ThreadPool.enqueue. cbn.
    by destruct (ThreadPool.stop _); apply StateMachineControler.hands_over_nothing.
  - intros t. apply update_term_stable; [exact _|intros; cbn; reflexivity..].
Qed.

(** The tasks that were run, the one that runs and those that wait are the
    entries 0, 1, ... up to the applied index, with their messages. *)
Definition in_order (ran : list apply_task) s : Prop :=
  let p := write_thread_pool_ (smc_ s) in
  (exists w, ThreadPool.workers p = [w]) /\
  map snd (ran ++ ThreadPool.running p ++ ThreadPool.tasks p) = seqZ 0 (applied_index_ (smc_ s) + 1) /\
  Forall (StateMachineControler.gotten (L := L)) (ran ++ ThreadPool.running p ++ ThreadPool.tasks p) /\
  -1 <= applied_index_ (smc_ s).

Lemma in_order_hands_over ran s s' :
  in_order ran s -> server_hands_over s s' -> in_order ran s'.
Proof.
  intros ([w Hw] & Hr & Hg & Ha) (ts & E & Hs & Hgs & Hle). unfold in_order. rewrite E. cbn.
  unfold ThreadPool.running in *. cbn. rewrite !app_assoc in *.
  split_and!; [eauto| |by apply Forall_app_2|lia].
  assert (forall l1 l2 : list apply_task, map snd (l1 ++ l2) = map snd l1 ++ map snd l2) as Hmap
    by (intros; apply map_app).
  rewrite Hmap, Hr, Hs.
  set (a := applied_index_ (smc_ s)) in *. set (a' := applied_index_ (smc_ s')) in *.
  replace (a' + 1) with ((a + 1) + (a' - a)) by lia.
  rewrite (seqZ_app 0 (a + 1) (a' - a)) by lia. done.
Qed.

Lemma in_order_step ran l n r n' :
  in_order ran (server n) -> perform l n = Some (r, n') ->
  in_order (ran ++ task_of_step l n) (server n').
Proof.
  intros Hin E.
  assert (Hsame : forall s, server_hands_over (server n) s -> in_order (ran ++ []) s).
  { intros s Hs. rewrite app_nil_r. by eapply in_order_hands_over. }
  destruct l as [t m a| | |a|i|i|i|i]; cbn in E; unfold on_server in E; cbn [task_of_step].
  - destruct (reactToIncomingMsg _ _ _ _) as [r1 s1] eqn:E1. simplify_eq/=. apply Hsame.
    pose proof (frame_message server_hands_over t m a (server n)) as H. by rewrite E1 in H.
  - destruct (ready n) as [|c cs]; [done|]. cbn in E.
    destruct (run_completion c (server n)) as [r1 s1] eqn:E1. simplify_eq/=. apply Hsame.
    pose proof (frame_completion server_hands_over c (server n)) as H. by rewrite E1 in H.
  - destruct (waits _); simplify_eq/=; apply Hsame, frame_candidate_timer.
  - destruct (retry_timers_ _ !! _) as [t|]; [|done].
    destruct (waits t); simplify_eq/=; apply Hsame, frame_retry_timers.
  - destruct (ThreadPool.wake i _) as [p|] eqn:Hwk; simplify_eq/=. rewrite app_nil_r.
    destruct Hin as ([w Hw] & Hr & Hg & Ha). destruct (ThreadPool.wake_fifo _ _ _ _ Hw Hwk) as [Hq Hw'].
    unfold in_order. cbn. by rewrite Hq.
  - destruct (ThreadPool.finish i _) as [[t p]|] eqn:Hf; [|done].
    destruct (StateMachineControler.run_apply_task t (machine n)) as [reply sm]. simplify_eq/=.
    destruct Hin as ([w Hw] & Hr & Hg & Ha). destruct (ThreadPool.finish_fifo _ _ _ _ _ Hw Hf) as [Hq Hw'].
    unfold in_order. cbn. rewrite Hq in Hr, Hg. by rewrite <- app_assoc.
  - destruct (ThreadPool.wake i _) as [p|]; simplify_eq/=. rewrite app_nil_r. done.
  - destruct (ThreadPool.finish i _) as [[t p]|]; [|done].
    destruct (StateMachineControler.run_query_task t (machine n)) as [reply sm]. simplify_eq/=.
    rewrite app_nil_r. done.
Qed.

Lemma in_order_run ls n ran r n' :
  in_order ran (server n) -> perform_all ls n = Some (r, n') ->
  in_order (ran ++ applied_tasks ls n) (server n').
Proof.
  revert n ran. induction ls as [|l ls IH]; intros n ran Hin E; cbn in E |- *.
  { rewrite app_nil_r. by simplify_eq. }
  destruct (perform l n) as [[r1 n1]|] eqn:E1; [|done].
  pose proof (in_order_step _ _ _ _ _ Hin E1) as H1.
  assert (Hlast : forall x, r1 <> Val x -> task_of_step l n = []).
  { intros x Hx. destruct l; try done. cbn in *. destruct (ThreadPool.finish _ _) as [[t p]|]; [|done].
    destruct (StateMachineControler.run_apply_task _ _). by destruct x; simplify_eq. }
  destruct r1; [rewrite app_assoc; by eapply IH|..]; destruct ls; try done; simplify_eq;
    rewrite (Hlast tt) in H1 by done; done.
Qed.

Lemma start_in_order ip port path content entries network sm seed r n :
  start ip port path content entries network sm seed = Some (r, n) -> in_order [] (server n).
Proof.
  intros (E & _)%start_smc. unfold StateMachineControler.new in E. cbn in E. injection E as E.
  unfold in_order. rewrite <- E.
  split_and!; [by eexists|done|by apply Forall_nil_2|done].
Qed.

(** The tasks a process ran, from its start. *)
Lemma applied_in_order ip port path content entries network sm seed ls n0 r n :
  start ip port path content entries network sm seed = Some (Val tt, n0) ->
  perform_all ls n0 = Some (r, n) ->
  (forall i t, applied_tasks ls n0 !! i = Some t -> snd t = Z.of_nat i) /\
  Z.of_nat (length (applied_tasks ls n0)) <= applied_index_ (smc_ (server n)) + 1 /\
  Forall (StateMachineControler.gotten (L := L)) (applied_tasks ls n0).
Proof.
  intros E0%start_in_order E. destruct (in_order_run _ _ _ _ _ E0 E) as (_ & Hr & Hg & Ha).
  cbn [app] in Hr, Hg. split_and!.
  - intros i t Hi.
    assert (Hl : map snd (applied_tasks ls n0 ++ ThreadPool.running (write_thread_pool_ (smc_ (server n))) ++
      ThreadPool.tasks (write_thread_pool_ (smc_ (server n)))) !! i = Some (snd t)).
    { apply list_lookup_fmap_Some. exists t. split; [done|]. by apply lookup_app_l_Some. }
    rewrite Hr in Hl. apply lookup_seqZ in Hl. lia.
  - apply (f_equal length) in Hr. rewrite length_seqZ, length_map, !length_app in Hr. lia.
  - by apply Forall_app in Hg as [Hg _].
Qed.
End in_order.

(** ** The commit index of the primary *)

(** How many of the values are at least [c]. *)
Definition at_least (c : Z) (vs : list Z) : Z := Z.of_nat (length (filter (fun v => c <= v) vs)).

#[export] Instance ge_transitive : Transitive Z.ge.
Proof. intros x y z. lia. Qed.
#[export] Instance ge_total : Total Z.ge.
Proof. intros x y. lia. Qed.

#[export] Instance at_least_proper c : Proper ((≡ₚ) ==> eq) (at_least c).
Proof. intros l1 l2 H. unfold at_least. by rewrite H. Qed.

Lemma at_least_app c l1 l2 : at_least c (l1 ++ l2) = at_least c l1 + at_least c l2.
Proof. unfold at_least. rewrite filter_app, length_app. lia. Qed.

Lemma at_least_length c l : 0 <= at_least c l <= Z.of_nat (length l).
Proof. unfold at_least. pose proof (length_filter (fun v => c <= v) l). lia. Qed.

Lemma at_least_all c l : Forall (fun v => c <= v) l -> at_least c l = Z.of_nat (length l).
Proof.
  intros H. unfold at_least. induction H as [|v l Hv Hl IH]; [done|].
  rewrite filter_cons_True by done. cbn [length]. lia.
Qed.

Lemma at_least_none c l : Forall (fun v => v < c) l -> at_least c l = 0.
Proof.
  intros H. unfold at_least. induction H as [|v l Hv Hl IH]; [done|].
  rewrite filter_cons_False by lia. done.
Qed.

(** The [k]-th largest value is the largest that [k + 1] of them reach. *)
Lemma kth_largest (l : list Z) k v :
  StronglySorted Z.ge l -> l !! k = Some v ->
  Z.of_nat k + 1 <= at_least v l /\ forall c, Z.of_nat k + 1 <= at_least c l -> c <= v.
Proof.
  intros Hs Hk. pose proof (take_drop_middle l k v Hk) as Hl. pose proof (lookup_lt_Some _ _ _ Hk).
  rewrite <- Hl in Hs. apply StronglySorted_app in Hs as (Hcross & _ & Hd).
  apply StronglySorted_cons in Hd as [Hd _].
  assert (Hlen : Z.of_nat (length (take k l)) = Z.of_nat k) by (rewrite length_take; lia).
  rewrite <- Hl. split.
  - rewrite at_least_app, at_least_all, Hlen.
    + unfold at_least. rewrite filter_cons_True by lia. cbn [length]. lia.
    + apply Forall_forall. intros x Hx. specialize (Hcross x v Hx (list_elem_of_here _ _)). lia.
  - intros c Hc. destruct (Z.le_gt_cases c v) as [|Hlt]; [done|]. exfalso.
    rewrite at_least_app, (at_least_none c (v :: _)) in Hc.
    + pose proof (at_least_length c (take k l)). lia.
    + constructor; [lia|]. eapply Forall_impl; [exact Hd|]. intros x Hx. cbn in Hx. lia.
Qed.

Section primary.
Context {L N T : Type} {LS : LogStore L} {LL : LogStoreLaws L} {TR : Transport N}
  {DT : DeadlineTimer handler T}.
Implicit Types (s : RaftServer L N T).

(** How many servers are known to store the entry [c]. *)
Definition stored_by (c : Z) (saved : gmap server_addr Z) : Z := at_least c (map_to_list saved).*2.

(** The primary records for every server of the configuration, at least three,
    the last entry it stores, which is in its own log. *)
Record can_commit s : Prop := {
  cc_apply : can_apply s;
  cc_servers : size (Follower_saved_index s) = length (configuration_ s);
  cc_three : (3 <= length (configuration_ s))%nat;
  cc_majority : majority_ s = Z.of_nat (length (configuration_ s)) / 2 + 1;
  cc_saved : forall a i, Follower_saved_index s !! a = Some i -> i < log_size s;
}.

Lemma sorted_saved_perm values : sorted_saved values (length values) ≡ₚ values.
Proof. unfold sorted_saved. by rewrite merge_sort_Permutation, Nat.sub_diag, app_nil_r. Qed.

(** The commit index the primary computes, from the values of the map. *)
Lemma primary_commit_ok a i s :
  can_commit (set_Follower_saved_index (<[a := i]> (Follower_saved_index s)) s) ->
  exists c k,
    let saved := <[a := i]> (Follower_saved_index s) in
    let s1 := set_commit_index_ c (set_Follower_saved_index saved s) in
    primary_update_commit_index a i s = (Val tt, set_smc_ (smc_commit c s1) s1) /\
    majority_ s = Z.of_nat k + 1 /\ sorted_saved (map_to_list saved).*2 (length (map_to_list saved).*2) !! k = Some c.
Proof.
  intros [Hap Hsz H3 Hmaj Hsv]. cbn in Hsz, H3, Hmaj, Hsv. set (saved := <[a := i]> (Follower_saved_index s)) in *.
  set (vs := (map_to_list saved).*2).
  assert (Hlen : length vs = length (configuration_ s)).
  { unfold vs. by rewrite length_fmap, length_map_to_list. }
  assert (Hsort : length (sorted_saved vs (length vs)) = length (configuration_ s)).
  { by rewrite sorted_saved_perm. }
  assert (Hat : forall j, (j < 3)%nat -> exists x, sorted_saved vs (length vs) !! j = Some x).
  { intros j Hj. apply lookup_lt_is_Some_2. lia. }
  set (k := (length (configuration_ s) / 2)%nat).
  assert (Hk : majority_ s = Z.of_nat k + 1) by (rewrite Hmaj; unfold k; rewrite Nat2Z.inj_div; lia).
  destruct (lookup_lt_is_Some_2 (sorted_saved vs (length vs)) k) as [c Hc].
  { rewrite Hsort. apply Nat.div_lt; lia. }
  exists c, k. cbv zeta. split_and!; [|done|done].
  destruct (Hat 0%nat ltac:(lia)) as [x0 E0], (Hat 1%nat ltac:(lia)) as [x1 E1], (Hat 2%nat ltac:(lia)) as [x2 E2].
  unfold primary_update_commit_index, put_saved_index. rewrite (bind_val _ _ _ _ _ (modify_val _ _)).
  set (s1 := set_Follower_saved_index _ s). rewrite !(bind_val _ _ _ _ _ (gets_val _ _)).
  change (configuration_ s1) with (configuration_ s). change (map_to_list (Follower_saved_index s1)).*2 with vs.
  rewrite <- Hlen, Nat.ltb_irrefl. rewrite bind_ret. cbv zeta.
  rewrite (bind_val _ _ _ _ _ (vec_at_ok _ 0 x0 s1 ltac:(lia) E0)),
    (bind_val _ _ _ _ _ (vec_at_ok _ 1 x1 s1 ltac:(lia) E1)),
    (bind_val _ _ _ _ _ (vec_at_ok _ 2 x2 s1 ltac:(lia) E2)), (bind_val _ _ _ _ _ (gets_val _ _)).
  change (majority_ s1) with (majority_ s).
  assert (Hm : Z.to_nat (majority_ s - 1) = k) by lia. rewrite <- Hm in Hc.
  rewrite (bind_val _ _ _ _ _ (vec_at_ok _ (majority_ s - 1) c s1 ltac:(lia) Hc)),
    (bind_val _ _ _ _ _ (modify_val _ _)).
  apply apply_ok; [by destruct Hap|]. change (log_size _) with (log_size s).
  assert (Hin : c ∈ vs). { rewrite <- sorted_saved_perm. by eapply list_elem_of_lookup_2. }
  apply list_elem_of_fmap in Hin as ([b x] & -> & Hb%elem_of_map_to_list). by eapply Hsv.
Qed.

(** The follower's commit index becomes the smaller of the index the primary
    sent and the last index of the log.  If that is smaller than before the call
    throws, with the smaller index already stored. *)
Lemma follower_commit_ok r s :
  can_apply s ->
  let c := Z.min r (log_size s - 1) in
  let s1 := set_commit_index_ c s in
  follower_update_commit_index r s =
    if c <? commit_index_ s then
      (Exn (my_exception "commit index can only grow, never decrease" "RaftServer.cpp" 808), s1)
    else if commit_index_ s <? c then (Val tt, set_smc_ (smc_commit c s1) s1)
    else (Val tt, s).
Proof.
  intros Hap c s1. pose proof Hap as [Hok _ _]. pose proof (ls_small _ Hok) as Hsm.
  fold (log_of s) in Hsm. fold (log_size s) in Hsm. assert (0 <= log_size s) by (unfold log_size; lia).
  unfold follower_update_commit_index. rewrite (bind_val _ _ _ _ _ (gets_val _ _)).
  rewrite (bind_val _ _ _ _ _ (size_ok s Hok)). int_step.
  assert (Hset : (if log_size s - 1 <? r then modify (set_commit_index_ (log_size s - 1))
                  else modify (set_commit_index_ r)) s = (Val tt, s1)).
  { unfold s1, c. destruct (Z.ltb_spec (log_size s - 1) r); unfold modify; do 3 f_equal; lia. }
  rewrite (bind_val _ _ _ _ _ Hset), (bind_val _ _ _ _ _ (gets_val _ _)). change (commit_index_ s1) with c.
  destruct (Z.ltb_spec c (commit_index_ s)); [done|].
  destruct (Z.ltb_spec (commit_index_ s) c).
  - apply apply_ok; [by destruct Hap|]. change (log_size s1) with (log_size s). lia.
  - unfold s1. replace c with (commit_index_ s) by lia. by destruct s.
Qed.

(** The state with the commit index recomputed after [a] stored up to [i]. *)
Definition committed (c : Z) (a : server_addr) (i : Z) s : RaftServer L N T :=
  let s1 := set_commit_index_ c (set_Follower_saved_index (<[a := i]> (Follower_saved_index s)) s) in
  set_smc_ (smc_commit c s1) s1.

(** [c] is the largest index that a majority stores. *)
Definition majority_index (saved : gmap server_addr Z) s (c : Z) : Prop :=
  majority_ s <= stored_by c saved /\ forall c', majority_ s <= stored_by c' saved -> c' <= c.

Lemma commit_ok a i s :
  can_commit (set_Follower_saved_index (<[a := i]> (Follower_saved_index s)) s) ->
  exists c, primary_update_commit_index a i s = (Val tt, committed c a i s) /\
    majority_index (<[a := i]> (Follower_saved_index s)) s c.
Proof.
  intros Hc. destruct (primary_commit_ok a i s Hc) as (c & k & E & Hk & Hl). exists c.
  split; [exact E|]. set (vs := (map_to_list (<[a := i]> (Follower_saved_index s))).*2) in *.
  assert (Hs : StronglySorted Z.ge (sorted_saved vs (length vs))) by (apply StronglySorted_merge_sort; exact _).
  destruct (kth_largest _ _ _ Hs Hl) as [H1 H2]. unfold majority_index, stored_by. fold vs. rewrite Hk.
  split; [|intros c' Hc'; apply H2].
  - by rewrite <- (sorted_saved_perm vs) at 1.
  - by rewrite sorted_saved_perm.
Qed.

Lemma majority_index_stored saved s c :
  0 < majority_ s -> majority_index saved s c -> exists a v, saved !! a = Some v /\ c <= v.
Proof.
  intros Hpos [Hm _]. unfold stored_by, at_least in Hm.
  destruct (filter (fun v => c <= v) (map_to_list saved).*2) as [|v l] eqn:E; [cbn in Hm; lia|].
  assert (Hv : v ∈ filter (fun v => c <= v) (map_to_list saved).*2) by (rewrite E; left).
  apply list_elem_of_filter in Hv as [Hle ([a v'] & -> & Hav%elem_of_map_to_list)%list_elem_of_fmap].
  by exists a, v'.
Qed.

(** C30: the commit rule is majority replication.  What the code computes by
    sorting the saved indices and taking the one at [majority_ - 1] is the
    largest index that a majority of the servers store, the abstract rule; it
    becomes the commit index of the server and of the controler, the entries
    of the log behind the applied index, up to it, are handed to the state machine
    in log order, each as a task with its message and its index, and the log, the
    term and the role stay as they are. *)
Theorem commits_majority_index a i s :
  can_commit (set_Follower_saved_index (<[a := i]> (Follower_saved_index s)) s) ->
  exists c s', primary_update_commit_index a i s = (Val tt, s') /\
    majority_index (<[a := i]> (Follower_saved_index s)) s c /\
    commit_index_ s' = c /\ StateMachineControler.commit_index_ (smc_ s') = c /\
    smc_ s' = StateMachineControler.handed_over
      (take (Z.to_nat (c - applied_index_ (smc_ s))) (drop (Z.to_nat (applied_index_ (smc_ s) + 1)) (log_of s)))
      (StateMachineControler.set_commit_index_ c (smc_ s)) /\
    applied_index_ (smc_ s') = Z.max c (applied_index_ (smc_ s)) /\
    (entries_ s', term_ s', state_ s') = (entries_ s, term_ s, state_ s).
Proof.
  intros Hc. destruct (commit_ok a i s Hc) as (c & E & Hm). exists c, (committed c a i s).
  split; [done|]. split; [done|]. split; [done|]. split; [done|].
  pose proof Hc as [[Hok Hrun Ha] Hsz H3 Hmaj Hsv]. cbn in Hok, Hrun, Ha, Hmaj, Hsv.
  assert (Hlt : c < log_size s).
  { destruct (majority_index_stored (<[a := i]> (Follower_saved_index s)) s c) as (b & v & Hb & Hle); [rewrite Hmaj; pose proof (Z.div_pos (Z.of_nat (length (configuration_ s))) 2); lia|exact Hm|].
    specialize (Hsv b v Hb). change (log_size _) with (log_size s) in Hsv. lia. }
  unfold log_size, log_of in Hlt.
  split; [done|]. split; [|done].
  cbn. rewrite length_take, length_drop. unfold log_of. cbn. lia.
Qed.

(** The entry a client call becomes. *)
Definition call_entry (call : string) s : rpc_Entry :=
  {| en_term := term_ s; en_index := log_size s; en_msg := call |}.

Lemma append_call_ok a call s :
  ls_ok (entries_ s) -> ls_room (log_size s) (call_entry call s) (log_of s) ->
  exists l, append_client_apply_to_entries a call s =
    (Val tt, set_Follower_saved_index (<[server_ s := log_size s]> (Follower_saved_index s))
       (set_entries_ l (set_entryIndex_to_socketAddr_map_ (<[log_size s := a]> (entryIndex_to_socketAddr_map_ s)) s))) /\
    ls_ok l /\ ls_view l = log_of s ++ [call_entry call s].
Proof.
  intros Hok Hroom. pose proof (ls_small _ Hok) as Hsm. fold (log_of s) in Hsm. fold (log_size s) in Hsm.
  assert (0 <= log_size s) by (unfold log_size; lia).
  assert (Hi : 0 <= log_size s <= Z.of_nat (length (ls_view (entries_ s)))) by (by split).
  destruct (ls_insert_ok (entries_ s) (log_size s) (call_entry call s) Hok Hi Hroom) as (l & E & Hl & Hv).
  exists l. split; [|split; [done|]].
  2: { rewrite Hv. f_equal. apply take_ge. unfold log_size, log_of. lia. }
  unfold append_client_apply_to_entries. rewrite (bind_val _ _ _ _ _ (size_ok s Hok)).
  rewrite (bind_val _ _ _ _ _ (modify_val _ _)). set (s1 := set_entryIndex_to_socketAddr_map_ _ s).
  rewrite (bind_val _ _ _ _ _ (gets_val _ _)). change (term_ s1) with (term_ s). fold (call_entry call s).
  unfold INT_MAX in Hsm. rewrite u32_id by lia.
  assert (Ei : on_entries (ls_insert (log_size s) (call_entry call s)) s1 = (Val tt, set_entries_ l s1)).
  { unfold on_entries, zoom. change (entries_ s1) with (entries_ s). by rewrite E. }
  by rewrite (bind_val _ _ _ _ _ Ei).
Qed.

Lemma reply_ok {TL : TransportLaws N} i a reply s :
  state_ s = primary -> entryIndex_to_socketAddr_map_ s !! i = Some a -> call_fits a reply ->
  exists n, write_resp_apply_call i reply s = (Val tt, set_network_ n s) /\
    calls n = calls (network_ s) ++ [(RESP_CLIENT_APPLY, a, reply)].
Proof.
  intros Hp Hmap Hfit. unfold write_resp_apply_call. rewrite (bind_val _ _ _ _ _ (gets_val _ _)), Hp. cbn [negb bool_decide].
  rewrite bool_decide_true, (bind_val _ _ _ _ _ (gets_val _ _)), Hmap by done. by apply call_val.
Qed.

(** A client's call is answered to that client.  A call is appended as the
    next entry of the log with the term of the server, is counted as stored by
    the server itself, and nothing is sent; and whatever happens in between, when
    the state machine has applied that entry, a primary that still knows the
    caller of the index sends it the state machine's reply, and nothing else. *)
Lemma client_call_answered {TL : TransportLaws N} a call s :
  ls_ok (entries_ s) -> ls_room (log_size s) (call_entry call s) (log_of s) ->
  total (append_client_apply_to_entries a call) s (fun _ s1 =>
    log_of s1 = log_of s ++ [call_entry call s] /\ ls_ok (entries_ s1) /\
    Follower_saved_index s1 !! server_ s = Some (log_size s) /\ network_ s1 = network_ s /\
    forall s2 reply, state_ s2 = primary -> call_fits a reply ->
      entryIndex_to_socketAddr_map_ s2 !! log_size s = entryIndex_to_socketAddr_map_ s1 !! log_size s ->
      total (write_resp_apply_call (log_size s) reply) s2 (fun _ s3 =>
        calls (network_ s3) = calls (network_ s2) ++ [(RESP_CLIENT_APPLY, a, reply)] /\
        s3 = set_network_ (network_ s3) s2)).
Proof.
  intros Hok Hroom. destruct (append_call_ok a call s Hok Hroom) as (l & E & Hl & Hv).
  do 2 eexists. split; [exact E|]. split_and!; [exact Hv|exact Hl|apply lookup_insert_eq|done|].
  intros s2 reply Hp Hfit Hmap. cbn in Hmap. rewrite lookup_insert_eq in Hmap.
  destruct (reply_ok (log_size s) a reply s2 Hp Hmap Hfit) as (n & En & Hn).
  do 2 eexists. split; [exact En|]. by split.
Qed.
End primary.

(** ** Witnesses *)

Module Witness.
Import ThreeServers.

(** The primary of the election, with one entry of its own, hears that B stores it. *)
Definition leader : Server := server (after (win_election ++ [client_apply "x" 7]) (boot A [])).

Lemma leader_can_commit : can_commit (set_Follower_saved_index (<[B := 0]> (Follower_saved_index leader)) leader).
Proof.
  split; [split; vm_compute; try done; congruence|vm_compute; reflexivity|vm_compute; lia|vm_compute; reflexivity|].
  intros a i Hi. apply Z.ltb_lt. revert Hi. apply (map_all_lookup (fun _ i => i <? log_size _)).
  vm_compute. reflexivity.
Qed.

Lemma commits_majority_index_witness :
  exists s', primary_update_commit_index B 0 leader = (Val tt, s') /\ commit_index_ s' = 0 /\
    applied_index_ (smc_ s') = 0.
Proof.
  destruct (commits_majority_index B 0 leader leader_can_commit) as (c & s' & E & [_ Hmax] & Hc & _ & _ & Ha & _).
  assert (Hc0 : commit_index_ (snd (primary_update_commit_index B 0 leader)) = 0) by (vm_compute; reflexivity).
  rewrite E in Hc0. cbn [snd] in Hc0.
  exists s'. split; [exact E|]. split; [exact Hc0|]. rewrite Ha, <- Hc, Hc0. vm_compute. reflexivity.
Defined.

Definition elected : Server := server (after win_election (boot A [])).
Definition put_x : string := EasyStateMachine.EasyStateMachine.build_apply_str "x" 7.
Lemma elected_ok : ls_ok (entries_ elected) /\ ls_room (log_size elected) (call_entry put_x elected) (log_of elected).
Proof. split; vm_compute; reflexivity. Qed.
Example client_call_answered_example :
  total (append_client_apply_to_entries client_addr put_x) elected (fun _ s1 =>
    log_size s1 = 1 /\ total (write_resp_apply_call 0 "done") (set_state_ primary s1) (fun _ s3 =>
      calls (network_ s3) = calls (network_ s1) ++ [(RESP_CLIENT_APPLY, client_addr, "done")])).
Proof.
  eapply total_mono; [exact (client_call_answered client_addr put_x elected (proj1 elected_ok) (proj2 elected_ok))|].
  intros u s1 (Hl & _ & _ & _ & Hr). split.
  - unfold log_size. rewrite Hl. vm_compute. reflexivity.
  - eapply total_mono; [exact (Hr (set_state_ primary s1) "done" eq_refl I eq_refl)|]. intros u' s3 [H _]. exact H.
Defined.

Definition ls : list label := win_election ++ commit_one ++ apply_one.

Lemma boots : booting A [] = Some (Val tt, boot A []).
Proof. apply booting_boot. vm_compute. reflexivity. Qed.
Lemma runs_ls : perform_all ls (boot A []) = Some (Val tt, after ls (boot A [])).
Proof. apply run_after. vm_compute. reflexivity. Qed.


End Witness.
End Commit.
