(* ===== verification/Replication.v ===== *)
(** Log replication: what a follower does with an AppendEntry, what the primary
    does with the reply, and that the logs agree afterwards.  [ae_verdict] is the
    decision about a message and [ae_acceptance] what becomes of one that matches
    the log, both as functions of the message and the state. *)

From S2P Require Import Prelude CxxString Platform Messages Util Interfaces ThreadPool StateMachineControler RaftServer ServerFacts ServerSpecs Node Commit ThreeServers.

Module Replication.
Import StateMachineControler (StateMachineControler).
Export Commit.

(** ** Receiving an AppendEntry *)

Section receive.
Context {L N T : Type} {LS : LogStore L} {LL : LogStoreLaws L} {TR : Transport N}
  {TL : TransportLaws N} {DT : DeadlineTimer handler T} {DL : DeadlineTimerLaws handler T}
  {RD : Rand} {RL : RandLaws} {RC : RaftCodecs}.
Implicit Types (s : RaftServer L N T) (m : AppendEntryRpc).

Definition ae_sender m : server_addr := (ae_ip m, ae_port m).
Definition is_heartbeat m : bool := bool_decide (ae_entry m = []).

(** The state once the message counts: term, role and lsn. *)
Definition heard (a : server_addr) (lsn : Z) s : RaftServer L N T :=
  set_follower_rpc_lsn_ (<[a := lsn]> (follower_rpc_lsn_ s)) s.

Lemma ignore_ok a lsn s :
  should_ignore_remote_rpc a lsn s =
    if lsn <=? map_at 0 a (follower_rpc_lsn_ s)
    then (Val true, set_follower_rpc_lsn_ (map_touch 0 a (follower_rpc_lsn_ s)) s)
    else (Val false, heard a lsn s).
Proof.
  unfold should_ignore_remote_rpc, follower_rpc_lsn_at, bind at 1.
  destruct (lsn <=? _); [done|].
  unfold put_follower_rpc_lsn, bind, modify, ret, heard. cbn. by rewrite insert_map_touch.
Qed.

Lemma reply_ae_ok ok text a lsn empty s :
  call_fits a (SerializeToString (resp_ae_message ok lsn empty s)) ->
  exists n, make_resp_ae ok text a lsn empty s = (Val tt, set_network_ n s) /\
    calls n = calls (network_ s) ++ [(RESP_APPEND, a, SerializeToString (resp_ae_message ok lsn empty s))].
Proof.
  intros Hfit. unfold make_resp_ae. rewrite !(bind_val _ _ _ _ _ (gets_val _ _)).
  by apply (call_val RESP_APPEND a _ s).
Qed.

(** The server can answer [a]: its log is well formed, its controler runs, its
    replies fit a frame. *)
Record can_reply (a : server_addr) s : Prop := {
  cr_apply : can_apply s;
  cr_fits : forall ok lsn term empty, call_fits a (SerializeToString
    {| rae_ok := ok; rae_term := term; rae_lsn := lsn; rae_ip := ip_ s; rae_port := port_ s;
       rae_is_empty_ae := empty |});
}.

Definition accepted_log m s : list rpc_Entry :=
  match ae_entry m with
  | [] => log_of s
  | e :: _ => firstn (Z.to_nat (ae_prelog_index m + 1)) (log_of s) ++ [e]
  end.
Definition accepted_commit m s : Z :=
  Z.min (ae_commit_index m) (Z.of_nat (length (accepted_log m s)) - 1).

(** A message that matches the log can be carried out: its entry is the next
    one and fits the log, and the commit index would not decrease. *)
Record can_accept m s : Prop := {
  cx_reply : can_reply (ae_sender m) s;
  cx_prelog : -1 <= ae_prelog_index m < log_size s;
  cx_entry : match ae_entry m with
             | [] => ae_commit_index m <= log_size s
             | e :: _ => en_index e = ae_prelog_index m + 1 /\ ls_room (ae_prelog_index m + 1) e (log_of s)
             end;
  cx_commit : commit_index_ s <= accepted_commit m s;
}.

Record accept_post m s s' : Prop := {
  ap_log : log_of s' = accepted_log m s;
  ap_ok : ls_ok (entries_ s');
  ap_commit : commit_index_ s' = accepted_commit m s;
  ap_smc : smc_ s' = if commit_index_ s <? accepted_commit m s
                     then smc_commit (accepted_commit m s) (set_entries_ (entries_ s') s) else smc_ s;
  ap_calls : calls (network_ s') = calls (network_ s) ++
    [(RESP_APPEND, ae_sender m,
      SerializeToString (resp_ae_message true (ae_lsn m) (is_heartbeat m) s))];
  ap_same : (constants s', term_ s', state_ s', already_voted_ s', winned_votes_ s',
             entryIndex_to_socketAddr_map_ s') =
            (constants s, term_ s, state_ s, already_voted_ s, winned_votes_ s,
             entryIndex_to_socketAddr_map_ s);
  ap_same' : (nextIndex_ s', Follower_saved_index s', current_rpc_lsn_ s', follower_rpc_lsn_ s',
              candidate_timer_ s', retry_timers_ s') =
             (nextIndex_ s, Follower_saved_index s, current_rpc_lsn_ s, follower_rpc_lsn_ s,
              candidate_timer_ s, retry_timers_ s);
}.

(** Commit and reply, once the log [l] is the accepted one. *)
Lemma accept_tail_ok m text s l :
  can_accept m s -> ls_ok l -> ls_view l = accepted_log m s ->
  total (follower_update_commit_index (ae_commit_index m) ;;
         make_resp_ae true text (ae_sender m) (ae_lsn m) (is_heartbeat m)) (set_entries_ l s)
    (fun _ s' => accept_post m s s').
Proof.
  intros [[[Hok Hrun Ha] Hfit] Hpre He Hc] Hok1 Hlog. set (s1 := set_entries_ l s).
  assert (Hap1 : can_apply s1) by (split; done).
  assert (Hc1 : Z.min (ae_commit_index m) (log_size s1 - 1) = accepted_commit m s).
  { unfold accepted_commit, log_size, log_of. cbn. by rewrite Hlog. }
  pose proof (follower_commit_ok (ae_commit_index m) s1 Hap1) as E. cbv zeta in E. rewrite Hc1 in E.
  change (commit_index_ s1) with (commit_index_ s) in E.
  destruct (Z.ltb_spec (accepted_commit m s) (commit_index_ s)); [lia|].
  destruct (Z.ltb_spec (commit_index_ s) (accepted_commit m s)) as [Hlt|Hge];
    (eapply total_step; [exact E|]);
    (match goal with |- total _ ?s2 _ =>
       destruct (reply_ae_ok true text (ae_sender m) (ae_lsn m) (is_heartbeat m) s2) as (n & En & Hn);
       [apply Hfit|] end);
    (do 2 eexists; split; [exact En|]).
  - split; cbn; try done. destruct (Z.ltb_spec (commit_index_ s) (accepted_commit m s)); [done|lia].
  - split; cbn; try done; [lia|].
    destruct (Z.ltb_spec (commit_index_ s) (accepted_commit m s)); [lia|done].
Qed.

Lemma accept_ok m s :
  can_accept m s -> (length (ae_entry m) <= 1)%nat ->
  total (accept_ae (ae_sender m) m) s (fun _ s' => accept_post m s s').
Proof.
  intros Hcan Hlen. pose proof Hcan as [[[Hok _ _] _] Hpre He _].
  pose proof (ls_small _ Hok) as Hsm. fold (log_of s) in Hsm. fold (log_size s) in Hsm.
  unfold accept_ae. destruct (ae_entry m) as [|e [|]] eqn:Ent; [| |cbn in Hlen; lia].
  - eapply total_step; [apply size_ok, Hok|]. destruct (Z.ltb_spec (log_size s) (ae_commit_index m)); [lia|].
    pose proof (accept_tail_ok m "empty rpc" s (entries_ s) Hcan Hok) as Ht.
    unfold is_heartbeat, accepted_log in Ht. rewrite Ent in Ht.
    replace (set_entries_ (entries_ s) s) with s in Ht by (by destruct s). by apply Ht.
  - destruct He as [Hidx Hroom]. unfold int_add.
    eapply total_step; [apply int_result_ok; unfold INT_MIN, INT_MAX in *; lia|].
    rewrite Hidx, Z.eqb_refl. cbn [negb].
    rewrite u32_id by (unfold INT_MAX in *; lia).
    destruct (ls_insert_ok (entries_ s) (ae_prelog_index m + 1) e Hok) as (l & E & Hl & Hv);
      [fold (log_of s); unfold log_size in *; lia|done|].
    assert (Eins : on_entries (ls_insert (ae_prelog_index m + 1) e) s = (Val tt, set_entries_ l s)).
    { unfold on_entries, zoom. by rewrite E. }
    eapply total_step; [exact Eins|].
    pose proof (accept_tail_ok m "entries modified" s l Hcan Hl) as Ht.
    unfold is_heartbeat, accepted_log in Ht. rewrite Ent in Ht. apply Ht. exact Hv.
Qed.

(** *** The decision *)

Inductive verdict :=
| Oversized       (** more than one entry *)
| Stale           (** from an older term *)
| Two_primaries   (** at a primary, from its own term *)
| Duplicate       (** an lsn of this term that was seen *)
| Bad_prelog      (** no previous entry, but a term for it *)
| Gap             (** the previous entry is missing *)
| Conflict        (** the previous entry is of another term *)
| Matching.

#[export] Instance verdict_eq_dec : EqDecision verdict.
Proof. solve_decision. Defined.

Definition ae_verdict m s : verdict :=
  if (1 <? length (ae_entry m))%nat then Oversized
  else if ae_term m <? term_ s then Stale
  else if bool_decide (state_ s = primary) && (term_ s =? ae_term m) then Two_primaries
  else if ae_lsn m <=? map_at 0 (ae_sender m) (follower_rpc_lsn_ (with_term (ae_term m) s)) then Duplicate
  else if ae_prelog_index m =? -1 then if ae_prelog_term m =? -1 then Matching else Bad_prelog
  else if log_size s <=? ae_prelog_index m then Gap
  else if ae_prelog_term m =? term_at s (ae_prelog_index m) then Matching
  else Conflict.

(** The answer no: nothing but a call changed. *)
Definition refused m s s' : Prop :=
  exists n, s' = set_network_ n s /\
    calls n = calls (network_ s) ++ [(RESP_APPEND, ae_sender m,
      SerializeToString (resp_ae_message false (ae_lsn m) (is_heartbeat m) s))].

Lemma refuse_ok m text s :
  can_reply (ae_sender m) s ->
  total (make_resp_ae false text (ae_sender m) (ae_lsn m) (Z.of_nat (length (ae_entry m)) =? 0)) s
    (fun _ s' => refused m s s').
Proof.
  intros [_ Hfit].
  assert (Hh : (Z.of_nat (length (ae_entry m)) =? 0) = is_heartbeat m).
  { unfold is_heartbeat. by destruct (ae_entry m). }
  rewrite Hh. destruct (reply_ae_ok false text (ae_sender m) (ae_lsn m) (is_heartbeat m) s) as (n & E & Hn);
    [apply Hfit|]. exists tt, (set_network_ n s). split; [exact E|]. by exists n.
Qed.

Lemma core_eq s s' : core s' = core s ->
  constants s' = constants s /\ network_ s' = network_ s /\ entries_ s' = entries_ s /\
  commit_index_ s' = commit_index_ s /\ nextIndex_ s' = nextIndex_ s /\
  Follower_saved_index s' = Follower_saved_index s /\ smc_ s' = smc_ s /\
  entryIndex_to_socketAddr_map_ s' = entryIndex_to_socketAddr_map_ s.
Proof. unfold core. intros E. repeat split; congruence. Qed.

Lemma can_apply_eq s s' : entries_ s' = entries_ s -> smc_ s' = smc_ s -> can_apply s -> can_apply s'.
Proof. intros E1 E2 [? ? ?]. split; by rewrite ?E1, ?E2. Qed.

Lemma can_reply_eq a s s' : core s' = core s -> can_reply a s -> can_reply a s'.
Proof.
  intros E [Ha Hf]. apply core_eq in E as (Hc & _ & He & _ & _ & _ & Hs & _).
  apply constants_eq in Hc as (_ & Hip & Hport & _). split; [by eapply can_apply_eq|].
  intros. rewrite Hip, Hport. apply Hf.
Qed.

Definition throws_at (line : Z) (arg : string) s : res unit * RaftServer L N T :=
  (Exn (my_exception arg file line), s).

(** The function follows the decision.  From an acceptable message on, the
    server first becomes a follower of the message's term.  A [prelog_index] below -1
    passes the comparison with the size, and is looked up. *)
Lemma react2ae_every m s :
  can_reply (ae_sender m) s ->
  match ae_verdict m s with
  | Oversized => react2ae m s = throws_at 465 "entry_size 不能大于1" s
  | Two_primaries => react2ae m s = throws_at 474 "error, one term has two primaries" s
  | Stale => total (react2ae m) s (fun _ s' => refused m s s')
  | Duplicate => total (react2ae m) s (fun _ s' => exists s1, trans2F_post (ae_term m) s s1 /\
      s' = set_follower_rpc_lsn_ (map_touch 0 (ae_sender m) (follower_rpc_lsn_ s1)) s1)
  | Bad_prelog => exists s1, trans2F_post (ae_term m) s s1 /\
      react2ae m s = throws_at 496 "prelog_index为-1，那么prelog_term也应该是-1" (heard (ae_sender m) (ae_lsn m) s1)
  | v => exists s1, trans2F_post (ae_term m) s s1 /\ let s2 := heard (ae_sender m) (ae_lsn m) s1 in
      if ae_prelog_index m <? -1 then exists w, react2ae m s = (Undef w, s2)
      else if bool_decide (v = Matching) then react2ae m s = accept_ae (ae_sender m) m s2
      else total (react2ae m) s (fun _ s' => refused m s2 s')
  end.
Proof.
  intros Hcan. unfold ae_verdict, react2ae. cbv zeta.
  destruct (Nat.ltb_spec 1 (length (ae_entry m))) as [Hlen|Hlen].
  { by destruct (Z.ltb_spec 1 (Z.of_nat (length (ae_entry m)))); [|lia]. }
  destruct (Z.ltb_spec 1 (Z.of_nat (length (ae_entry m)))); [lia|].
  unfold total. rewrite !(bind_val _ _ _ _ _ (gets_val _ _)).
  destruct (Z.ltb_spec (ae_term m) (term_ s)) as [Hst|Hst]; [by apply refuse_ok|].
  rewrite !(bind_val _ _ _ _ _ (gets_val _ _)).
  destruct (_ && _); [done|].
  destruct (trans2F_ok (ae_term m) s Hst) as ([] & s1 & E1 & Hs1). rewrite !(bind_val _ _ _ _ _ E1).
  pose proof (t2f_core _ _ _ Hs1) as Hcore. pose proof (can_reply_eq _ _ _ Hcore Hcan) as Hcan1.
  apply core_eq in Hcore as (Hc & Hn & He & _ & _ & _ & Hsm & _).
  fold (ae_sender m). pose proof (ignore_ok (ae_sender m) (ae_lsn m) s1) as Eig.
  rewrite (t2f_follower _ _ _ Hs1) in Eig.
  destruct (_ <=? map_at 0 _ _).
  { rewrite (bind_val _ _ _ _ _ Eig). do 2 eexists. split; [done|]. exists s1.
    by rewrite (t2f_follower _ _ _ Hs1). }
  rewrite !(bind_val _ _ _ _ _ Eig). set (s2 := heard _ _ s1).
  assert (Hcan2 : can_reply (ae_sender m) s2) by (destruct Hcan1 as [[] ?]; split; done).
  destruct (Z.eqb_spec (ae_prelog_index m) (-1)) as [Hm1|Hm1].
  { destruct (Z.eqb_spec (ae_prelog_term m) (-1)); cbn [negb]; exists s1; (split; [done|]); [|done].
    fold s2. cbv zeta. rewrite Hm1. by rewrite bool_decide_true. }
  assert (Hok2 : ls_ok (entries_ s2)) by apply Hcan2.
  rewrite !(bind_val _ _ _ _ _ (size_ok s2 Hok2)).
  assert (Hlog : log_of s2 = log_of s) by (unfold log_of; cbn; by rewrite He).
  assert (Hsz : log_size s2 = log_size s) by (unfold log_size; by rewrite Hlog). rewrite Hsz.
  destruct (Z.leb_spec (log_size s) (ae_prelog_index m)) as [Hgap|Hgap].
  { exists s1. split; [done|]. fold s2. cbv zeta. rewrite (proj2 (Z.ltb_ge _ _)) by (unfold log_size in Hgap; lia).
    rewrite bool_decide_false by done. by apply refuse_ok. }
  destruct (Z.ltb_spec (ae_prelog_index m) (-1)) as [Hneg|Hpos].
  { assert (Hu : exists w, on_entries (ls_get (ae_prelog_index m)) s2 = (Undef w, s2)).
    { destruct (ls_get_neg (entries_ s2) (ae_prelog_index m) Hok2 ltac:(lia)) as [w E]. exists w.
      by apply on_entries_same. }
    destruct Hu as [w Eu]. rewrite !(bind_ub _ _ _ _ _ Eu).
    destruct (_ =? term_at s _); exists s1; (split; [done|]); by exists w. }
  destruct (lookup_lt_is_Some_2 (log_of s) (Z.to_nat (ae_prelog_index m))) as [e Hlk]; [unfold log_size in *; lia|].
  assert (Hta : term_at s (ae_prelog_index m) = en_term e).
  { unfold term_at. destruct (Z.ltb_spec (ae_prelog_index m) 0); [lia|]. by rewrite Hlk. }
  rewrite <- Hlog in Hlk. rewrite !(bind_val _ _ _ _ _ (log_get_ok s2 (ae_prelog_index m) e Hok2 ltac:(lia) Hlk)). rewrite Hta.
  destruct (_ =? en_term e); cbn [negb]; exists s1; (split; [done|]); fold s2; cbv zeta.
  - by rewrite bool_decide_true.
  - rewrite bool_decide_false by done. by apply refuse_ok.
Qed.

Lemma react2ae_cases m s :
  can_reply (ae_sender m) s -> -1 <= ae_prelog_index m ->
  match ae_verdict m s with
  | Duplicate => total (react2ae m) s (fun _ s' => exists s1, trans2F_post (ae_term m) s s1 /\
      s' = set_follower_rpc_lsn_ (map_touch 0 (ae_sender m) (follower_rpc_lsn_ s1)) s1)
  | Gap | Conflict => total (react2ae m) s (fun _ s' => exists s1, trans2F_post (ae_term m) s s1 /\
      refused m (heard (ae_sender m) (ae_lsn m) s1) s')
  | Matching => exists s1, trans2F_post (ae_term m) s s1 /\
      react2ae m s = accept_ae (ae_sender m) m (heard (ae_sender m) (ae_lsn m) s1)
  | _ => True
  end.
Proof.
  intros Hcan Hpre%Z.ltb_ge. pose proof (react2ae_every m s Hcan) as H. destruct (ae_verdict m s);
    first [exact H|exact I|destruct H as (s1 & Hs1 & H); cbv zeta in H; rewrite Hpre in H; cbn [bool_decide decide] in H];
    [..|by exists s1]; (eapply total_mono; [exact H|]); intros ? s' Hr; by exists s1.
Qed.

(** *** Acceptance *)

(** What becomes of a message that matches the log. *)
Inductive acceptance :=
| Commit_ahead    (** no entry, and more is committed than the log has *)
| Misplaced       (** the entry has another index than the next *)
| Commit_back     (** the commit index would decrease *)
| Accepted.

Definition ae_acceptance m s : acceptance :=
  let done := if accepted_commit m s <? commit_index_ s then Commit_back else Accepted in
  match ae_entry m with
  | [] => if log_size s <? ae_commit_index m then Commit_ahead else done
  | e :: _ => if negb (en_index e =? ae_prelog_index m + 1) then Misplaced else done
  end.

Definition room_for m s : Prop :=
  match ae_entry m with [] => True | e :: _ => ls_room (ae_prelog_index m + 1) e (log_of s) end.

(** The commit index that would decrease is stored before the exception. *)
Lemma commit_back_throws {A} m s l (rest : M (RaftServer L N T) A) :
  can_apply s -> ls_ok l -> ls_view l = accepted_log m s -> accepted_commit m s < commit_index_ s ->
  (follower_update_commit_index (ae_commit_index m) ;; rest) (set_entries_ l s) =
    (Exn (my_exception "commit index can only grow, never decrease" file 808),
     set_commit_index_ (accepted_commit m s) (set_entries_ l s)).
Proof.
  intros [_ Hrun Ha] Hl Hv Hlt. apply bind_exn. set (s1 := set_entries_ l s).
  assert (Hap1 : can_apply s1) by (split; done).
  assert (Hc1 : Z.min (ae_commit_index m) (log_size s1 - 1) = accepted_commit m s).
  { unfold accepted_commit, log_size, log_of. cbn. by rewrite Hv. }
  pose proof (follower_commit_ok (ae_commit_index m) s1 Hap1) as E. cbv zeta in E. rewrite Hc1 in E.
  change (commit_index_ s1) with (commit_index_ s) in E. rewrite E.
  by destruct (Z.ltb_spec (accepted_commit m s) (commit_index_ s)); [|lia].
Qed.

Lemma accept_cases m s :
  can_reply (ae_sender m) s -> -1 <= ae_prelog_index m < log_size s -> (length (ae_entry m) <= 1)%nat ->
  match ae_acceptance m s with
  | Commit_ahead => accept_ae (ae_sender m) m s =
      throws_at 524 "local commit_index should >= rpc_commit_index in this scene, see comment for explanation" s
  | Misplaced => accept_ae (ae_sender m) m s = throws_at 533 "entry's index should == prelog_index + 1" s
  | Commit_back => room_for m s -> exists l, ls_ok l /\ ls_view l = accepted_log m s /\
      accept_ae (ae_sender m) m s = throws_at 808 "commit index can only grow, never decrease"
        (set_commit_index_ (accepted_commit m s) (set_entries_ l s))
  | Accepted => room_for m s -> total (accept_ae (ae_sender m) m) s (fun _ s' => accept_post m s s')
  end.
Proof.
  intros Hcan Hpre Hlen. pose proof Hcan as [Hap _]. pose proof (ca_log _ Hap) as Hok.
  pose proof (ls_small _ Hok) as Hsm. fold (log_of s) in Hsm. fold (log_size s) in Hsm.
  assert (Hadd : INT_MIN <= ae_prelog_index m + 1 <= INT_MAX) by (unfold INT_MIN, INT_MAX in *; lia).
  assert (Hacc : ae_acceptance m s = Accepted -> room_for m s -> can_accept m s).
  { unfold ae_acceptance, room_for. intros Ha Hroom.
    destruct (ae_entry m) as [|e es] eqn:Ent; [destruct (Z.ltb_spec (log_size s) (ae_commit_index m)); [done|]|
      destruct (Z.eqb_spec (en_index e) (ae_prelog_index m + 1)); [|done]; cbn [negb] in Ha];
      destruct (Z.ltb_spec (accepted_commit m s) (commit_index_ s)); try done; split; try done; by rewrite Ent. }
  destruct (ae_acceptance m s) eqn:Ea; [| | |intros Hroom; apply accept_ok; auto]; clear Hacc;
    unfold ae_acceptance in Ea; unfold room_for, accept_ae; destruct (ae_entry m) as [|e [|]] eqn:Ent;
    try (cbn in Hlen; lia).
  - rewrite (bind_val _ _ _ _ _ (size_ok s Hok)).
    destruct (log_size s <? ae_commit_index m); [done|]. by destruct (_ <? _).
  - destruct (en_index e =? ae_prelog_index m + 1); [|done]. cbn [negb] in Ea. by destruct (_ <? _).
  - destruct (log_size s <? ae_commit_index m); [done|]. by destruct (_ <? _).
  - unfold int_add. rewrite (bind_val _ _ _ _ _ (int_result_ok _ _ Hadd)).
    destruct (en_index e =? ae_prelog_index m + 1); cbn [negb] in *; [by destruct (_ <? _)|done].
  - intros _. rewrite (bind_val _ _ _ _ _ (size_ok s Hok)). destruct (log_size s <? ae_commit_index m); [done|].
    destruct (Z.ltb_spec (accepted_commit m s) (commit_index_ s)) as [Hlt|]; [|done]. exists (entries_ s).
    assert (Hv : ls_view (entries_ s) = accepted_log m s) by (unfold accepted_log; by rewrite Ent).
    split; [done|]. split; [done|].
    pose proof (commit_back_throws m s (entries_ s) (make_resp_ae true "empty rpc" (ae_sender m) (ae_lsn m) true) Hap Hok Hv Hlt) as E.
    replace (set_entries_ (entries_ s) s) with s in E |- * by (by destruct s). exact E.
  - intros Hroom. unfold int_add. rewrite (bind_val _ _ _ _ _ (int_result_ok _ _ Hadd)).
    destruct (Z.eqb_spec (en_index e) (ae_prelog_index m + 1)) as [Hidx|]; cbn [negb] in *; [|done].
    destruct (Z.ltb_spec (accepted_commit m s) (commit_index_ s)) as [Hlt|]; [|done].
    rewrite u32_id by (unfold INT_MAX in *; lia).
    destruct (ls_insert_ok (entries_ s) (ae_prelog_index m + 1) e Hok) as (l & E & Hl & Hv);
      [fold (log_of s); unfold log_size in *; lia|done|].
    assert (Eins : on_entries (ls_insert (ae_prelog_index m + 1) e) s = (Val tt, set_entries_ l s)).
    { unfold on_entries, zoom. by rewrite E. }
    rewrite (bind_val _ _ _ _ _ Eins). exists l.
    assert (Hv' : ls_view l = accepted_log m s) by (unfold accepted_log; by rewrite Ent).
    split; [done|]. split; [done|]. by apply commit_back_throws.
Qed.
End receive.

(** ** Receiving the reply *)

Section replies.
Context {L N T : Type} {LS : LogStore L} {LL : LogStoreLaws L} {TR : Transport N}
  {TL : TransportLaws N} {DT : DeadlineTimer handler T} {DL : DeadlineTimerLaws handler T}
  {RD : Rand} {RL : RandLaws} {RC : RaftCodecs}.
Implicit Types (s : RaftServer L N T) (r : Resp_AppendEntryRpc).

(** The primary keeps what it needs for the server [a], and what it would send
    to it fits. *)
Record peer_ok (a : server_addr) s : Prop := {
  po_log : ls_ok (entries_ s);
  po_timer : is_Some (retry_timers_ s !! a);
  po_next : exists n, nextIndex_ s !! a = Some n /\ 0 <= n <= log_size s;
  po_lsn : exists l, current_rpc_lsn_ s !! a = Some l /\ INT_MIN <= l < INT_MAX;
  po_fits : forall n l c, 0 <= n <= log_size s -> call_fits a (SerializeToString
    (ae_message a (set_nextIndex_ (<[a := n]> (nextIndex_ s))
      (set_current_rpc_lsn_ (<[a := l]> (current_rpc_lsn_ s)) (set_commit_index_ c s)))));
}.

(** An AppendEntry to [a] went out: what it was, and what stayed. *)
Record ae_sent (a : server_addr) s s' : Prop := {
  as_constants : constants s' = constants s;
  as_entries : entries_ s' = entries_ s;
  as_same : (commit_index_ s', term_ s', state_ s', already_voted_ s', winned_votes_ s') =
            (commit_index_ s, term_ s, state_ s, already_voted_ s, winned_votes_ s);
  as_same' : (Follower_saved_index s', smc_ s', entryIndex_to_socketAddr_map_ s',
              follower_rpc_lsn_ s', candidate_timer_ s') =
             (Follower_saved_index s, smc_ s, entryIndex_to_socketAddr_map_ s,
              follower_rpc_lsn_ s, candidate_timer_ s);
  as_calls : calls (network_ s') =
    calls (network_ s) ++ [(APPEND_ENTRY, a, SerializeToString (ae_message a s))];
  as_next : nextIndex_ s' = nextIndex_ s;
  as_lsn : current_rpc_lsn_ s' = <[a := map_at 0 a (current_rpc_lsn_ s) + 1]> (current_rpc_lsn_ s);
  as_timer : exists t, retry_timers_ s' = <[a := t]> (retry_timers_ s) /\
               waits t = [H_AE a] /\ expires_at_min t = false;
}.

(** With nothing waiting for the timer [AE] sends. *)
Lemma AE_sent a s t :
  peer_ok a s -> retry_timers_ s !! a = Some t -> waits t = [] -> total (AE a) s (fun _ s' => ae_sent a s s').
Proof.
  intros [Hok _ (n & Hn & Hnr) (l & Hl & Hlr) Hfit] Ht Hw.
  assert (Hna : map_at 0 a (nextIndex_ s) = n) by (unfold map_at; by rewrite Hn).
  assert (Hla : map_at 0 a (current_rpc_lsn_ s) = l) by (unfold map_at; by rewrite Hl).
  eapply total_mono; [apply (AE_ok a s)|].
  - split; [done|by exists t|by rewrite Hna|by rewrite Hla|].
    specialize (Hfit n l (commit_index_ s) Hnr). unfold ae_message, term_at, log_of in *. cbn in *.
    by rewrite !(insert_id _ _ _ Hn), !(insert_id _ _ _ Hl) in Hfit.
  - intros [] s' [H1 H2 H3 H4 H5 H6 H7 H8]. split; try done.
    rewrite (map_touch_some 0 a (nextIndex_ s) n Hn) in H6. by destruct H6 as [-> | ->].
Qed.

Lemma peer_ok_timer a t s : peer_ok a s -> peer_ok a (set_retry_timers_ (<[a := t]> (retry_timers_ s)) s).
Proof. intros [H1 _ H3 H4 H5]. split; try done. cbn. rewrite lookup_insert_eq. eauto. Qed.

Lemma ae_sent_timer a t s s' : ae_sent a (set_retry_timers_ (<[a := t]> (retry_timers_ s)) s) s' -> ae_sent a s s'.
Proof.
  intros [H1 H2 H3 H4 H5 H6 H7 (t' & H8 & Hw)]. split; try done. exists t'. rewrite H8. cbn. by rewrite insert_insert_eq.
Qed.

(** Whatever the timer waits for, cancelling it lets [AE] through. *)
Lemma resend_ok (f : T -> Z * T) a s :
  (forall t, waits (snd (f t)) = []) -> peer_ok a s ->
  total (on_retry_timer a f ;; AE a) s (fun _ s' => ae_sent a s s').
Proof.
  intros Hf Hpeer. destruct (po_timer _ _ Hpeer) as [t0 Ht].
  assert (E : exists x, on_retry_timer a f s =
    (Val x, set_retry_timers_ (<[a := snd (f t0)]> (retry_timers_ s)) s)).
  { unfold on_retry_timer. rewrite Ht. destruct (f t0) as [x t1]. by exists x. }
  destruct E as [x E]. eapply total_step; [exact E|]. eapply total_mono; [apply (AE_sent a _ (snd (f t0)))|].
  - by apply peer_ok_timer.
  - cbn. by rewrite lookup_insert_eq.
  - done.
  - intros [] s'. apply ae_sent_timer.
Qed.

Lemma lsn_at_ok a l s :
  current_rpc_lsn_ s !! a = Some l -> current_rpc_lsn_at a s = (Val l, s).
Proof.
  intros Hl. unfold current_rpc_lsn_at, map_at. rewrite (map_touch_some 0 a _ l Hl), Hl. by destruct s.
Qed.
Lemma next_at_ok a n s : nextIndex_ s !! a = Some n -> nextIndex_at a s = (Val n, s).
Proof.
  intros Hn. unfold nextIndex_at, map_at. rewrite (map_touch_some 0 a _ n Hn), Hn. by destruct s.
Qed.

Lemma peer_ok_next a n s :
  peer_ok a s -> 0 <= n <= log_size s -> peer_ok a (set_nextIndex_ (<[a := n]> (nextIndex_ s)) s).
Proof.
  intros [H1 H2 _ H4 H5] Hn. split; try done.
  - exists n. cbn. by rewrite lookup_insert_eq.
  - intros n' l c Hn'. specialize (H5 n' l c Hn'). cbn. by rewrite insert_insert_eq.
Qed.

Lemma peer_ok_committed a c i s : peer_ok a s -> peer_ok a (committed c a i s).
Proof. intros []. split; done. Qed.

(** A reply of the current term, by lsn, answer and position. *)
Lemma deal_stale a r s l :
  current_rpc_lsn_ s !! a = Some l -> INT_MIN <= rae_lsn r < INT_MAX -> l <> rae_lsn r + 1 ->
  primary_deal_resp_ae_with_same_term a r s = (Val tt, s).
Proof.
  intros Hl Hr Hne. unfold primary_deal_resp_ae_with_same_term.
  rewrite (bind_val _ _ _ _ _ (lsn_at_ok _ _ _ Hl)). int_step.
  by destruct (Z.eqb_spec l (rae_lsn r + 1)).
Qed.

Section expected.
Context (a : server_addr) (r : Resp_AppendEntryRpc) (s : RaftServer L N T) (n : Z).
Hypothesis Hpeer : peer_ok a s.
Hypothesis Hlsn : current_rpc_lsn_ s !! a = Some (rae_lsn r + 1).
Hypothesis Hnext : nextIndex_ s !! a = Some n.

Lemma deal_expected :
  primary_deal_resp_ae_with_same_term a r s =
    (if rae_ok r then
       let! size := on_entries ls_size in
       if size <? n then throw_line file 689 "last_send_index 不可能大于entry_size"
       else if n =? size then
         let! saved := int_sub n 1 in
         primary_update_commit_index a saved
       else
         (if rae_is_empty_ae r then
            let! saved := int_sub n 1 in
            primary_update_commit_index a saved
          else
            let! next := int_add n 1 in
            put_nextIndex a next ;;
            primary_update_commit_index a n) ;;
         on_retry_timer a set_expires_at_min ;;
         AE a
     else
       if n =? 0 then
         throw_line file 729 "P sends F a AE with index 0 (maybe with index 0 or emtry), F returns not ok, impossible"
       else
         let! next := int_sub n 1 in
         put_nextIndex a next ;;
         on_retry_timer a cancel ;;
         AE a) s.
Proof.
  destruct Hpeer as [_ _ _ (l & Hl & Hlr) _]. rewrite Hlsn in Hl. simplify_eq.
  unfold primary_deal_resp_ae_with_same_term at 1.
  rewrite (bind_val _ _ _ _ _ (lsn_at_ok _ _ _ Hlsn)). unfold int_add at 1.
  rewrite (bind_val _ _ _ _ _ (int_result_ok (rae_lsn r + 1) _ ltac:(lia))). rewrite Z.eqb_refl. cbn [negb].
  by rewrite (bind_val _ _ _ _ _ (next_at_ok _ _ _ Hnext)).
Qed.

Lemma next_range : 0 <= n <= log_size s /\ log_size s < INT_MAX.
Proof.
  destruct Hpeer as [Hok _ (n' & Hn & Hr) _ _]. rewrite Hnext in Hn. simplify_eq.
  pose proof (ls_small _ Hok). done.
Qed.

(** All of the log is sent: only the commit index moves. *)
Lemma deal_synced :
  rae_ok r = true -> n = log_size s ->
  can_commit (set_Follower_saved_index (<[a := n - 1]> (Follower_saved_index s)) s) ->
  exists c, majority_index (<[a := n - 1]> (Follower_saved_index s)) s c /\
    primary_deal_resp_ae_with_same_term a r s = (Val tt, committed c a (n - 1) s).
Proof.
  intros Hok Hn Hcc. pose proof next_range as [Hr Hm]. destruct (commit_ok a (n - 1) s Hcc) as (c & E & Hc).
  exists c. split; [done|]. rewrite deal_expected, Hok.
  rewrite (bind_val _ _ _ _ _ (size_ok s (po_log _ _ Hpeer))).
  destruct (Z.ltb_spec (log_size s) n); [lia|]. destruct (Z.eqb_spec n (log_size s)); [|done]. int_step. done.
Qed.

(** There is more to send: the follower's position moves behind an entry it
    stored, and the next AppendEntry goes out at once. *)
Lemma deal_more :
  let i := if rae_is_empty_ae r then n - 1 else n in
  let s0 := set_nextIndex_ (<[a := i + 1]> (nextIndex_ s)) s in
  rae_ok r = true -> n < log_size s ->
  can_commit (set_Follower_saved_index (<[a := i]> (Follower_saved_index s)) s) ->
  exists c, majority_index (<[a := i]> (Follower_saved_index s)) s c /\
    total (primary_deal_resp_ae_with_same_term a r) s (fun _ s' => ae_sent a (committed c a i s0) s').
Proof.
  intros i s0 Hok Hn Hcc. pose proof next_range as [Hr Hm].
  assert (Hs0 : can_commit (set_Follower_saved_index (<[a := i]> (Follower_saved_index s0)) s0)).
  { destruct Hcc as [[]]. split; done. }
  destruct (commit_ok a i s0 Hs0) as (c & E & Hc). exists c. split; [done|].
  unfold total. rewrite deal_expected, Hok.
  rewrite (bind_val _ _ _ _ _ (size_ok s (po_log _ _ Hpeer))).
  destruct (Z.ltb_spec (log_size s) n); [lia|]. destruct (Z.eqb_spec n (log_size s)); [lia|].
  assert (Hstep : (if rae_is_empty_ae r then
            let! saved := int_sub n 1 in primary_update_commit_index a saved
          else let! next := int_add n 1 in put_nextIndex a next ;; primary_update_commit_index a n) s
          = (Val tt, committed c a i s0)).
  { unfold i in *. destruct (rae_is_empty_ae r).
    - int_step. rewrite <- E. f_equal. unfold s0. replace (n - 1 + 1) with n by lia.
      rewrite insert_id by done. by destruct s.
    - int_step. unfold put_nextIndex. rewrite (bind_val _ _ _ _ _ (modify_val _ _)). exact E. }
  rewrite (bind_val _ _ _ _ _ Hstep).
  apply (resend_ok set_expires_at_min); [intros t; apply set_min_waits|].
  apply peer_ok_committed, peer_ok_next; [done|]. unfold i. destruct (rae_is_empty_ae r); lia.
Qed.

(** The follower refused: one entry further back. *)
Lemma deal_refused :
  rae_ok r = false -> 0 < n ->
  total (primary_deal_resp_ae_with_same_term a r) s
    (fun _ s' => ae_sent a (set_nextIndex_ (<[a := n - 1]> (nextIndex_ s)) s) s').
Proof.
  intros Hok Hn. pose proof next_range as [Hr Hm]. unfold total. rewrite deal_expected, Hok.
  destruct (Z.eqb_spec n 0); [lia|]. int_step. unfold put_nextIndex. rewrite (bind_val _ _ _ _ _ (modify_val _ _)).
  apply (resend_ok cancel); [intros t; apply cancel_waits|]. apply peer_ok_next; [done|lia].
Qed.
End expected.
End replies.

(** ** Logs that agree *)

(** The Log Matching property of two logs: entries of the same index and term
    have the same history. *)
Definition log_matching (l1 l2 : list rpc_Entry) : Prop :=
  forall i e1 e2, l1 !! i = Some e1 -> l2 !! i = Some e2 -> en_term e1 = en_term e2 ->
    take (S i) l1 = take (S i) l2.

Lemma log_matching_sym l1 l2 : log_matching l1 l2 -> log_matching l2 l1.
Proof. intros H i e1 e2 H1 H2 He. symmetry. by eapply H. Qed.

Lemma log_matching_prefix l n : log_matching l (take n l).
Proof.
  intros i e1 e2 H1 H2 _. apply lookup_take_Some in H2 as [_ Hi].
  by rewrite take_take, Nat.min_l by lia.
Qed.

Section matching.
Context {L N T : Type} {LS : LogStore L} {LL : LogStoreLaws L} {TR : Transport N}
  {TL : TransportLaws N} {DT : DeadlineTimer handler T} {DL : DeadlineTimerLaws handler T}
  {RD : Rand} {RL : RandLaws} {RC : RaftCodecs}.
Implicit Types (s p f : RaftServer L N T).

Lemma term_at_lookup s i : 0 <= i < log_size s ->
  exists e, log_of s !! Z.to_nat i = Some e /\ term_at s i = en_term e.
Proof.
  intros Hi. destruct (lookup_lt_is_Some_2 (log_of s) (Z.to_nat i)) as [e He]; [unfold log_size in *; lia|].
  exists e. unfold term_at. destruct (Z.ltb_spec i 0); [lia|]. by rewrite He.
Qed.

(** The previous entries agree on their terms, so the logs agree up to there. *)
Lemma prelog_agrees p f n :
  log_matching (log_of p) (log_of f) -> 0 <= n <= log_size p ->
  (n = 0 \/ (n - 1 < log_size f /\ term_at p (n - 1) = term_at f (n - 1))) ->
  take (Z.to_nat n) (log_of f) = take (Z.to_nat n) (log_of p).
Proof.
  intros Hm Hn [->|[Hf Ht]]; [done|]. destruct (decide (n = 0)) as [->|Hn0]; [done|].
  destruct (term_at_lookup p (n - 1)) as (e1 & H1 & E1); [lia|].
  destruct (term_at_lookup f (n - 1)) as (e2 & H2 & E2); [lia|].
  replace (Z.to_nat n) with (S (Z.to_nat (n - 1))) by lia. symmetry.
  eapply Hm; [exact H1|exact H2|congruence].
Qed.

(** What a matching message says about the receiver's log. *)
Lemma matching_prelog m s :
  ae_verdict m s = Matching ->
  (ae_prelog_index m = -1) \/
  (ae_prelog_index m < log_size s /\ ae_prelog_term m = term_at s (ae_prelog_index m)).
Proof.
  unfold ae_verdict. destruct (_ <? _)%nat; [done|]. destruct (ae_term m <? _); [done|].
  destruct (_ && _); [done|]. destruct (ae_lsn m <=? _); [done|].
  destruct (Z.eqb_spec (ae_prelog_index m) (-1)); [by left|].
  destruct (Z.leb_spec (log_size s) (ae_prelog_index m)); [done|].
  destruct (Z.eqb_spec (ae_prelog_term m) (term_at s (ae_prelog_index m))); [|done]. by right.
Qed.

(** An accepted message brings the receiver's log in step with the sender's. *)
Lemma accepted_agrees a p f :
  let n := map_at 0 a (nextIndex_ p) in
  log_matching (log_of p) (log_of f) -> 0 <= n <= log_size p ->
  ae_verdict (ae_message a p) f = Matching ->
  take (Z.to_nat (n + 1)) (accepted_log (ae_message a p) f) = take (Z.to_nat (n + 1)) (log_of p) \/
  (n = log_size p /\ accepted_log (ae_message a p) f = log_of f /\
   take (Z.to_nat n) (log_of f) = log_of p).
Proof.
  intros n Hm Hn Hv.
  assert (Hpre : take (Z.to_nat n) (log_of f) = take (Z.to_nat n) (log_of p)).
  { apply prelog_agrees; [done..|]. apply matching_prelog in Hv. cbn in Hv. fold n in Hv.
    destruct Hv as [Hv|[Hv Ht]]; [left; lia|right; done]. }
  unfold accepted_log. cbn. fold n. destruct (log_of p !! Z.to_nat n) as [e|] eqn:He; cbn.
  - left. pose proof (lookup_lt_Some _ _ _ He). replace (n - 1 + 1) with n by lia.
    replace (Z.to_nat (n + 1)) with (S (Z.to_nat n)) by lia.
    rewrite (take_S_r _ _ _ He), Hpre. apply take_ge. rewrite length_app, length_take. cbn. lia.
  - right. apply lookup_ge_None in He. split_and!; [unfold log_size in *; lia|done|].
    rewrite Hpre. apply take_ge. done.
Qed.

Lemma accepted_matching a p f :
  let n := map_at 0 a (nextIndex_ p) in
  log_matching (log_of p) (log_of f) -> 0 <= n <= log_size p ->
  ae_verdict (ae_message a p) f = Matching ->
  log_matching (log_of p) (accepted_log (ae_message a p) f).
Proof.
  intros n Hm Hn Hv. pose proof (accepted_agrees a p f Hm Hn Hv) as [Ha|(_ & -> & _)]; [|done].
  unfold accepted_log in *. cbn in *. fold n in Ha |- *.
  destruct (log_of p !! Z.to_nat n) as [e|] eqn:He; cbn in *; [|done].
  pose proof (lookup_lt_Some _ _ _ He) as Hlt.
  replace (take (Z.to_nat (n - 1 + 1)) (log_of f) ++ [e]) with (take (Z.to_nat (n + 1)) (log_of p));
    [apply log_matching_prefix|].
  rewrite <- Ha. apply take_ge. rewrite length_app, length_take. cbn. lia.
Qed.

(** Acceptance depends on the log, the commit index and the controler alone. *)
Lemma can_accept_eq m s s' :
  core s' = core s -> can_accept m s -> can_accept m (heard (ae_sender m) (ae_lsn m) s').
Proof.
  intros E [Hr Hp He Hc]. pose proof (can_reply_eq _ _ _ E Hr) as [Ha Hf].
  apply core_eq in E as (_ & _ & Een & Eci & _).
  unfold accepted_commit, accepted_log, log_size, log_of in *.
  split; unfold accepted_commit, accepted_log, log_size, log_of; cbn; rewrite ?Een, ?Eci; try done.
  split; [|done]. by destruct Ha.
Qed.

Lemma accepted_log_eq m s s' : core s' = core s ->
  accepted_log m (heard (ae_sender m) (ae_lsn m) s') = accepted_log m s.
Proof.
  intros E. apply core_eq in E as (_ & _ & Een & _). unfold accepted_log, log_of. cbn. by rewrite Een.
Qed.

Lemma verdict_length m s : ae_verdict m s = Matching -> (length (ae_entry m) <= 1)%nat.
Proof. unfold ae_verdict. by destruct (Nat.ltb_spec 1 (length (ae_entry m))). Qed.

Lemma react2ae_matching m s :
  ae_verdict m s = Matching -> can_accept m s ->
  total (react2ae m) s (fun _ s' => exists s1, trans2F_post (ae_term m) s s1 /\
    accept_post m (heard (ae_sender m) (ae_lsn m) s1) s').
Proof.
  intros Hv Hc. pose proof (react2ae_cases m s (cx_reply _ _ Hc) (proj1 (cx_prelog _ _ Hc))) as H.
  rewrite Hv in H. destruct H as (s1 & Hs1 & E). pose proof (can_accept_eq m _ _ (t2f_core _ _ _ Hs1) Hc) as Hc1.
  destruct (accept_ok m _ Hc1 (verdict_length _ _ Hv)) as ([] & s' & Ea & Hp).
  exists tt, s'. rewrite E. split; [exact Ea|]. by exists s1.
Qed.

Lemma accepted_keeps m s s0 s1 :
  trans2F_post (ae_term m) s s0 -> accept_post m (heard (ae_sender m) (ae_lsn m) s0) s1 -> can_accept m s ->
  constants s1 = constants s /\ term_ s1 = ae_term m /\ state_ s1 = follower /\
  follower_rpc_lsn_ s1 = <[ae_sender m := ae_lsn m]> (follower_rpc_lsn_ s0) /\ can_reply (ae_sender m) s1.
Proof.
  intros H0 H1 Hc. pose proof (ap_same _ _ _ H1) as Hsame. pose proof (ap_same' _ _ _ H1) as Hsame'.
  pose proof (t2f_term _ _ _ H0) as Ht0. pose proof (t2f_state _ _ _ H0) as Hs0. cbn in Hsame, Hsame'.
  pose proof (core_eq _ _ (t2f_core _ _ _ H0)) as (Hc0 & _).
  assert (Hcs : constants s1 = constants s) by (unfold constants in *; cbn in *; congruence).
  split_and!; [done|congruence..|].
  destruct (cx_reply _ _ Hc) as [_ Hf]. apply constants_eq in Hcs as (_ & Hip & Hport & _).
  split; [|intros; rewrite Hip, Hport; apply Hf].
  pose proof (can_accept_eq m _ _ (t2f_core _ _ _ H0) Hc) as [[[Hok Hrun Hap] _] Hpl _ _].
  assert (-1 <= StateMachineControler.applied_index_ (smc_ (heard (ae_sender m) (ae_lsn m) s0))) by done.
  split; [by apply (ap_ok _ _ _ H1)|..]; rewrite (ap_smc _ _ _ H1); destruct (_ <? _); try done.
  etrans; [done|]. apply (smc_commit_keeps _ (set_entries_ (entries_ s1) (heard (ae_sender m) (ae_lsn m) s0))).
Qed.

Lemma ae_acceptance_eq m s s' : core s' = core s ->
  ae_acceptance m (heard (ae_sender m) (ae_lsn m) s') = ae_acceptance m s /\
  room_for m (heard (ae_sender m) (ae_lsn m) s') = room_for m s /\
  accepted_commit m (heard (ae_sender m) (ae_lsn m) s') = accepted_commit m s.
Proof.
  intros E. apply core_eq in E as (_ & _ & Een & Eci & _).
  unfold ae_acceptance, room_for, accepted_commit, accepted_log, log_size, log_of. cbn. by rewrite Een, Eci.
Qed.

(** C15: the reaction to an AppendEntry, on every branch, with the exception and the
    state of each.  A message of several entries, or one of the own term at a
    primary, is an exception before anything changed; an older term is refused
    with the own term; of the others the server becomes a follower of the
    message's term, and ignores it without a reply if its lsn was seen in this
    term.  Then: a previous index -1 with a term is an exception, one below -1 is
    undefined, and a previous entry that is missing or of another term is
    refused.  What matches is an exception if it has no entry and commits more than the
    log has, if its entry has not the next index, or if the commit index would
    decrease, which happens with the entry stored and the smaller index in
    [commit_index_]; in all other cases the entry is stored, the commit index
    moves, and the answer is yes ([accept_post]).  The log has room for the
    entry, where one is stored. *)
Theorem react2ae_spec m s :
  can_reply (ae_sender m) s ->
  let hears (P : RaftServer L N T -> Prop) := exists s1, trans2F_post (ae_term m) s s1 /\ P (heard (ae_sender m) (ae_lsn m) s1) in
  match ae_verdict m s with
  | Oversized => react2ae m s = throws_at 465 "entry_size 不能大于1" s
  | Two_primaries => react2ae m s = throws_at 474 "error, one term has two primaries" s
  | Stale => total (react2ae m) s (fun _ s' => refused m s s')
  | Duplicate => total (react2ae m) s (fun _ s' => exists s1, trans2F_post (ae_term m) s s1 /\
      s' = set_follower_rpc_lsn_ (map_touch 0 (ae_sender m) (follower_rpc_lsn_ s1)) s1)
  | Bad_prelog => hears (fun s2 => react2ae m s = throws_at 496 "prelog_index为-1，那么prelog_term也应该是-1" s2)
  | v => if ae_prelog_index m <? -1 then hears (fun s2 => exists w, react2ae m s = (Undef w, s2))
    else if negb (bool_decide (v = Matching)) then
      hears (fun s2 => total (react2ae m) s (fun _ s' => refused m s2 s'))
    else match ae_acceptance m s with
    | Commit_ahead => hears (fun s2 => react2ae m s =
        throws_at 524 "local commit_index should >= rpc_commit_index in this scene, see comment for explanation" s2)
    | Misplaced => hears (fun s2 => react2ae m s = throws_at 533 "entry's index should == prelog_index + 1" s2)
    | Commit_back => room_for m s -> hears (fun s2 => exists l, ls_ok l /\ ls_view l = accepted_log m s /\
        react2ae m s = throws_at 808 "commit index can only grow, never decrease"
          (set_commit_index_ (accepted_commit m s) (set_entries_ l s2)))
    | Accepted => room_for m s -> hears (fun s2 => total (react2ae m) s (fun _ s' => accept_post m s2 s'))
    end
  end.
Proof.
  intros Hr hears. pose proof (react2ae_every m s Hr) as H. destruct (ae_verdict m s) eqn:Hv; try exact H;
    destruct H as (s1 & Hs1 & H); cbv zeta in H; destruct (Z.ltb_spec (ae_prelog_index m) (-1)) as [|Hp];
    try (by exists s1).
  cbn in H |- *. pose proof (t2f_core _ _ _ Hs1) as Hcore.
  destruct (ae_acceptance_eq m s s1 Hcore) as (Ea & Eroom & Ec). pose proof (accepted_log_eq m s s1 Hcore) as El.
  set (s2 := heard (ae_sender m) (ae_lsn m) s1) in *.
  assert (Hr2 : can_reply (ae_sender m) s2).
  { destruct (can_reply_eq _ _ _ Hcore Hr) as [[] ?]. by repeat split. }
  assert (Hsz : log_size s2 = log_size s).
  { apply core_eq in Hcore as (_ & _ & Een & _). unfold log_size, log_of. cbn. by rewrite Een. }
  pose proof (accept_cases m s2 Hr2) as Hacc. rewrite Hsz, Ea, Ec, El, Eroom in Hacc.
  assert (Hlt : ae_prelog_index m < log_size s).
  { pose proof (matching_prelog m s Hv) as [->|[]]; [unfold log_size; lia|done]. }
  specialize (Hacc (conj Hp Hlt) (verdict_length m s Hv)).
  destruct (ae_acceptance m s).
  - exists s1. split; [done|]. by rewrite H.
  - exists s1. split; [done|]. by rewrite H.
  - intros Hroom. destruct (Hacc Hroom) as (l & Hl & Hlv & E). exists s1. split; [done|]. exists l. by rewrite H.
  - intros Hroom. exists s1. split; [done|]. unfold total. rewrite H. exact (Hacc Hroom).
Qed.

(** An AppendEntry delivered twice counts once: the second time the server
    keeps its log, its commit index and everything else of its [core], and sends
    nothing. *)
Theorem redelivery_ignored m s :
  ae_verdict m s = Matching -> can_accept m s ->
  total (react2ae m) s (fun _ s1 => total (react2ae m) s1 (fun _ s2 => core s2 = core s1)).
Proof.
  intros Hv Hc. eapply total_mono; [by apply react2ae_matching|].
  intros _ s1 (s0 & H0 & H1). destruct (accepted_keeps _ _ _ _ H0 H1 Hc) as (_ & Htm & Hst & Hfl & Hr1).
  assert (Hdup : ae_verdict m s1 = Duplicate).
  { unfold ae_verdict. rewrite Htm, Hst, Z.ltb_irrefl. cbn [bool_decide].
    destruct (Nat.ltb_spec 1 (length (ae_entry m))) as [Hl|_]; [apply verdict_length in Hv; lia|].
    rewrite bool_decide_false by done. cbn [andb]. unfold with_term. rewrite Htm, Z.ltb_irrefl, Hfl.
    unfold map_at. rewrite lookup_insert_eq. cbn. by rewrite Z.leb_refl. }
  pose proof (react2ae_cases m s1 Hr1 (proj1 (cx_prelog _ _ Hc))) as H. rewrite Hdup in H.
  eapply total_mono; [exact H|]. intros _ s2 (s3 & [] & ->). done.
Qed.

(** C9: one step of replication.  The AppendEntry the primary [p] sends to [a]
    arrives as the bytes of its last call; a follower [f] whose log matches the
    primary's and whose previous entry agrees takes it, says yes, holds the
    primary's log up to and with the entry sent, its log still matches the
    primary's, and it commits nothing the primary has not. *)
Theorem replication_step {RCL : RaftCodecsLaws} a p f peer :
  let n := map_at 0 a (nextIndex_ p) in
  let upto := Z.to_nat (Z.min (n + 1) (log_size p)) in
  can_send_ae a p -> wireable (ae_message a p) = true ->
  log_matching (log_of p) (log_of f) ->
  ae_verdict (ae_message a p) f = Matching -> can_accept (ae_message a p) f ->
  total (AE a) p (fun _ p' => exists bytes,
    calls (network_ p') = calls (network_ p) ++ [(APPEND_ENTRY, a, bytes)] /\ log_of p' = log_of p /\
    total (reactToIncomingMsg APPEND_ENTRY bytes peer) f (fun _ f' =>
      take upto (log_of f') = take upto (log_of p) /\
      log_matching (log_of p) (log_of f') /\
      commit_index_ f' <= commit_index_ p /\
      exists reply, calls (network_ f') = calls (network_ f) ++
        [(RESP_APPEND, (ip_ p, port_ p), SerializeToString reply)] /\
        rae_ok reply = true /\ rae_lsn reply = map_at 0 a (current_rpc_lsn_ p))).
Proof.
  intros n upto Hs Hw Hm Hv Hc. pose proof (csa_next _ _ Hs) as Hn. fold n in Hn.
  eapply total_mono; [by apply AE_ok|]. intros [] p' Hp'. cbn beta in Hp'.
  exists (SerializeToString (ae_message a p)). split; [apply (sp_calls _ _ _ _ _ _ Hp')|].
  split; [unfold log_of; by rewrite (sp_entries _ _ _ _ _ _ Hp')|].
  unfold reactToIncomingMsg. rewrite parse_serialize by done.
  eapply total_mono; [by apply react2ae_matching|]. intros _ f' (s1 & H1 & H2).
  pose proof (t2f_core _ _ _ H1) as Hcore. rewrite (ap_log _ _ _ H2), (accepted_log_eq _ f s1 Hcore).
  split_and!.
  - destruct (accepted_agrees a p f Hm Hn Hv) as [Ha|(Hsz & Ha & Hb)];
      [fold n in Ha|fold n in Hsz, Hb].
    + apply (f_equal (take upto)) in Ha. rewrite !take_take in Ha. unfold upto in *.
      by rewrite Nat.min_l in Ha by lia.
    + rewrite Ha. unfold upto. rewrite Hsz, Z.min_r by lia. rewrite <- Hsz, Hb.
      symmetry. apply take_ge. unfold log_size in *. lia.
  - by apply accepted_matching.
  - rewrite (ap_commit _ _ _ H2). unfold accepted_commit. cbn. lia.
  - eexists. split; [|split].
    + rewrite (ap_calls _ _ _ H2). cbn. apply core_eq in Hcore as (_ & -> & _). done.
    + done.
    + done.
Qed.
End matching.

(** ** Witnesses *)

Module Witness.
Import ThreeServers.

(** The primary A with an entry B does not have, its timer for B expired, and B. *)
Definition p : Server :=
  server (after (win_election ++ [client_apply "x" 7; Elapse_retry B]) (boot A [])).
Definition f : Server := server (boot B []).
Definition m : AppendEntryRpc := ae_message B p.

Lemma f_can_reply : can_reply (ae_sender m) f.
Proof. split; [split; vm_compute; try done; congruence|done]. Qed.
Lemma m_matches : ae_verdict m f = Matching.
Proof. vm_compute. reflexivity. Qed.
Lemma m_acceptable : can_accept m f.
Proof. split; [exact f_can_reply|..]; vm_compute; repeat split; congruence. Qed.
Lemma p_can_send : can_send_ae B p.
Proof.
  split; [vm_compute; done| |vm_compute; split; congruence|vm_compute; split; congruence|done].
  eexists. split; vm_compute; reflexivity.
Qed.

(** The same message, with the index of its entry off by one. *)
Definition misplaced : AppendEntryRpc :=
  {| ae_term := ae_term m; ae_prelog_term := ae_prelog_term m; ae_commit_index := ae_commit_index m;
     ae_lsn := ae_lsn m; ae_ip := ae_ip m; ae_port := ae_port m;
     ae_entry := [{| en_term := 1; en_index := 1; en_msg := "x" |}]; ae_prelog_index := ae_prelog_index m |}.
Lemma misplaced_throws : ae_verdict misplaced f = Matching /\ ae_acceptance misplaced f = Misplaced /\
  ae_prelog_index misplaced = -1.
Proof. by vm_compute. Qed.
Lemma m_accepted : ae_acceptance m f = Accepted /\ ae_prelog_index m = -1 /\ room_for m f.
Proof. by vm_compute. Qed.

Lemma react2ae_spec_witness :
  (exists s1, trans2F_post (ae_term m) f s1 /\
     total (react2ae m) f (fun _ s' => accept_post m (heard (ae_sender m) (ae_lsn m) s1) s')) /\
  exists s1, trans2F_post (ae_term misplaced) f s1 /\
    react2ae misplaced f = throws_at 533 "entry's index should == prelog_index + 1"
      (heard (ae_sender misplaced) (ae_lsn misplaced) s1).
Proof.
  destruct m_accepted as (Ha & Hp & Hroom), misplaced_throws as (Hv' & Ha' & Hp').
  pose proof (react2ae_spec m f f_can_reply) as H. cbv zeta in H.
  rewrite m_matches, Ha, Hp, bool_decide_true in H by done.
  pose proof (react2ae_spec misplaced f f_can_reply) as H'. cbv zeta in H'.
  rewrite Hv', Ha', Hp', bool_decide_true in H' by done.
  split; [exact (H Hroom)|exact H'].
Defined.

Lemma redelivery_ignored_witness :
  total (react2ae m) f (fun _ s1 => total (react2ae m) s1 (fun _ s2 => core s2 = core s1)).
Proof. exact (redelivery_ignored m f m_matches m_acceptable). Defined.

Lemma replication_step_witness :
  exists (p' : Server) bytes, calls (network_ p') = calls (network_ p) ++ [(APPEND_ENTRY, B, bytes)] /\
    total (reactToIncomingMsg APPEND_ENTRY bytes A) f (fun _ f' => firstn 1 (log_of f') = firstn 1 (log_of p)).
Proof.
  destruct (replication_step B p f A p_can_send ltac:(vm_compute; reflexivity)
    (fun i e1 e2 _ H => ltac:(vm_compute in H; destruct i; discriminate)) m_matches m_acceptable)
    as ([] & p' & _ & bytes & Hc & _ & Ht).
  exists p', bytes. split; [exact Hc|]. eapply total_mono; [exact Ht|]. intros _ f' [H _].
  assert (Hu : Z.to_nat (Z.min (map_at 0 B (nextIndex_ p) + 1) (log_size p)) = 1%nat) by (vm_compute; reflexivity).
  rewrite Hu in H. exact H.
Defined.
End Witness.
End Replication.
