(* ===== verification/EntriesStore.v ===== *)
(** The log on disk as the log store of the server: [Entries] with its two files
    implements the interface [LogStore], so what is proved of a server holds of
    one that keeps its log in files; and what such a server acknowledged
    survives a restart. *)

From S2P Require Import Prelude CxxString Platform Messages Util Interfaces Data Entry ThreadPool StateMachineControler RaftServer ServerFacts ServerSpecs Node Commit Replication ThreeServers.

Module EntriesStore.
Export Replication.
Import Entry.

(** The object and the files of the server at [port]. *)
Abbreviation store := (Entries.Entries * disk)%type.

Section store.
Context {RC : RaftCodecs} {RCL : RaftCodecsLaws} {PX : Posix} {PH : PosixHealthy} {BA : BinaryArchive} {BAL : BinaryArchiveLaws}.

Record store_ok (port : Z) (s : store) : Prop := {
  so_wf : Entries.wf s;
  so_data : file_fd_ (Entries.data_ (fst s)) = Entries.data_path port;
  so_offset : Entries.path_offset_ (fst s) = Entries.offset_path port;
  so_wireable : forallb wireable (Entries.log (fst s)) = true;
}.

#[export] Instance entries_store : LogStore store := {|
  ls_size := Entries.size;
  ls_get := Entries.get;
  ls_insert := Entries.insert;
  ls_view s := Entries.log (fst s);
  ls_ok s := exists port, store_ok port s;
  ls_room i x l := i + 1 < INT_MAX /\ slen (Entries.bytes (Entries.log_insert i x l)) <= INT_MAX /\
    wireable x = true;
|}.

Lemma store_length port s : store_ok port s ->
  Z.of_nat (length (Entries.log (fst s))) = Entries.size_ (fst s).
Proof. intros Hs. apply Entries.length_log, (Entries.wf_size _ (so_wf _ _ Hs)). Qed.

#[export] Instance entries_store_laws : LogStoreLaws store.
Proof.
  split; cbn [ls_size ls_get ls_insert ls_view ls_ok ls_room entries_store].
  - intros s [port Hs]. unfold Entries.size. by rewrite Entries.this_entries_val, (store_length _ _ Hs).
  - intros s [port Hs]. apply (Entries.stored_small _ _ _ _ (Entries.wf_stored _ (so_wf _ _ Hs))).
  - intros [e d] i x [port Hs] Hi Hx. cbn [fst] in Hx. rewrite (Entries.get_cases e d i (so_wf _ _ Hs)), Hx.
    by destruct (Z.ltb_spec i 0); [lia|].
  - intros [e d] i [port Hs] Hi. cbn [fst] in Hi. rewrite (Entries.get_cases e d i (so_wf _ _ Hs)).
    destruct (Z.ltb_spec i 0); [lia|]. rewrite lookup_ge_None_2 by lia. eauto.
  - intros [e d] i [port Hs] Hi. rewrite (Entries.get_cases e d i (so_wf _ _ Hs)).
    destruct (Z.ltb_spec i 0); [eauto|lia].
  - intros s i x [port Hs] Hi (Hr & Hb & Hx). pose proof (store_length _ _ Hs) as Hl. destruct s as [e d].
    destruct Hs as [Hwf Hd Ho Hw]. cbn [fst] in *.
    destruct (Entries.insert_ok e d i x Hwf ltac:(lia) Hr Hb) as ([] & s' & E & Hwf' & Hlog & Hd' & Ho').
    exists s'. split; [exact E|]. split; [|exact Hlog]. exists port. split; [done|congruence..|].
    rewrite Hlog. by apply Entries.forallb_wireable_insert.
  - intros s i x [port Hs] Hi. pose proof (store_length _ _ Hs) as Hl. destruct s as [e d]. cbn [fst] in *.
    rewrite (Entries.insert_gap e d i x (so_wf _ _ Hs)) by lia. eauto.
Qed.

(** A restart on the disk of a store gets its log back. *)
Lemma store_restarts port s :
  store_ok port s ->
  exists e d, Entries.new port (snd s) = (Val e, d) /\ Entries.log e = Entries.log (fst s) /\
    store_ok port (e, d).
Proof.
  intros [Hwf Hd Ho Hw]. pose proof (Entries.wf_stored _ Hwf) as Hst. rewrite Hd, Ho in Hst.
  assert (Hb : Entries.boot_disk port (snd s) = snd s).
  { unfold Entries.boot_disk. destruct Hst as [[junk Hj] _ _]. by rewrite Hj. }
  destruct (Entries.new_ok port (snd s) (Entries.log (fst s))) as (e & d & E & Hwf' & Hl & _ & Hd' & Ho');
    [by rewrite Hb|done|].
  exists e, d. split_and!; [done..|]. by split; cbn; rewrite ?Hl.
Qed.

(** ** The files an object writes are its own *)

Definition files (s : store) : string * string := (file_fd_ (Entries.data_ (fst s)), Entries.path_offset_ (fst s)).

Lemma store_ok_files port port' s s' : files s' = files s -> store_ok port s -> store_ok port' s' -> store_ok port s'.
Proof. intros [= Hd Ho] [] []. split; congruence. Qed.

(** Sequences and branches, down to what writes a member or a file. *)
Ltac solve_stable :=
  cbv zeta;
  repeat first
    [ assumption
    | solve [first [apply stable_ret | apply stable_gets | apply stable_throw_line | apply stable_ub
                   | apply stable_exit | apply stable_vec_at]; exact _]
    | apply stable_bind; [exact _| |intros ?]
    | apply stable_if ].

Lemma update_keeps f : (forall e d, files (f e, d) = files (e, d)) -> stable (same files) (Entries.update f).
Proof. intros H [e d]. apply H. Qed.

(** The calls on the data file keep its descriptor. *)
Lemma write_keeps_files offset x m :
  m ∈ map Entries.on_data (write_steps offset x) -> stable (same files) m.
Proof.
  assert (H : forall m, m ∈ write_steps offset x -> stable (same (fun s : data * disk => file_fd_ (fst s))) m).
  { unfold write_steps. intros m'. rewrite !elem_of_cons, elem_of_nil. intros [->|[->|[->|[]]]]; solve_stable; intros [y d].
    - unfold lseek, modify. by destruct (offset <? 0).
    - unfold sys_write. by destruct (_ <? 0).
    - unfold sys_ftruncate, modify. by destruct (2 ^ 63 <=? _). }
  intros (m' & -> & Hm)%list_elem_of_fmap. specialize (H m' Hm). intros [e d]. specialize (H (Entries.data_ e, d)).
  unfold Entries.on_data, zoom. destruct (m' _) as [r [y d']]. unfold same, files in *. cbn in *. by rewrite H.
Qed.

Lemma insert_keeps_files i x : stable (same files) (Entries.insert i x).
Proof.
  assert (Hset : stable (same files) (Entries.set_entry i x)).
  { unfold Entries.set_entry, Entries.this. solve_stable. by apply update_keeps. }
  assert (Hsteps : forall o m, m ∈ Entries.insert_steps i o x -> stable (same files) m).
  { intros o m. unfold Entries.insert_steps. rewrite elem_of_app, !elem_of_cons, elem_of_nil.
    intros [Hm|[->|[->|[->|[->|[->|[]]]]]]]; [by apply (write_keeps_files _ _ _ Hm)|..].
    - unfold Entries.modify_offset_vector_after_insert, Entries.this. solve_stable; by apply update_keeps.
    - intros [e d]. unfold Entries.open_offset_file. by destruct (open_ok d _).
    - by intros [e d].
    - unfold Entries.store_entry, Entries.this. solve_stable; by apply update_keeps.
    - by apply update_keeps. }
  unfold Entries.insert, Entries.insert_cut, Entries.get_offset, Entries.this.
  apply stable_bind; [exact _|apply stable_gets; exact _|intros n].
  destruct (_ <? _); [apply stable_throw_line; exact _|].
  apply stable_bind; [exact _|solve_stable|intros o]. specialize (Hsteps o). cbv beta.
  induction (Entries.insert_steps i o x) as [|m l IH]; cbn [for_each]; [apply stable_ret; exact _|].
  apply stable_bind; [exact _|apply Hsteps; by left|]. intros _. apply IH. intros m' Hm'. apply Hsteps. by right.
Qed.

Lemma get_state i s : snd (Entries.get i s) = s.
Proof.
  unfold Entries.get, Entries.this, bind, gets. destruct (_ <=? _); [done|].
  unfold vec_at. destruct (i <? 0); [done|]. by destruct (_ !! _).
Qed.
End store.

Section durability.
Context {RC : RaftCodecs} {RCL : RaftCodecsLaws} {PX : Posix} {PH : PosixHealthy} {BA : BinaryArchive} {BAL : BinaryArchiveLaws}
  {N T : Type} {TR : Transport N} {TL : TransportLaws N} {DT : DeadlineTimer handler T}
  {DL : DeadlineTimerLaws handler T} {RD : Rand} {RL : RandLaws}.
Implicit Types (s : RaftServer store N T) (m : AppendEntryRpc).

Lemma on_entries_keeps {A} (m : M store A) :
  stable (same files) m -> stable (same (fun s => files (entries_ s))) (on_entries (N := N) (T := T) m).
Proof. intros H s. specialize (H (entries_ s)). unfold on_entries, zoom. by destruct (m (entries_ s)). Qed.

(** Whatever a server does, its log stays in the same two files. *)
#[export] Instance appends_files : Appends (L := store) (N := N) (T := T) (same (fun s => files (entries_ s))).
Proof. split. intros a m. by apply stable_zoom. Qed.
#[export] Instance commits_files : Commits (L := store) (N := N) (T := T) (same (fun s => files (entries_ s))).
Proof.
  split; [done|]. intros i s. unfold apply_to_state_machine, on_smc, zoom.
  pose proof (StateMachineControler.update_reads eq (fun i l => eq_sym (get_state i l)) i (smc_ s, entries_ s)) as H.
  destruct (StateMachineControler.update_commit_index_and_apply i _) as [r [c l]].
  unfold StateMachineControler.log_related in H. cbn in *. by subst.
Qed.
#[export] Instance frame_files : Frame (L := store) (N := N) (T := T) (same (fun s => files (entries_ s))).
Proof.
  split; [split; [split|..]|..]; try exact _; try done; try (intros; apply stable_zoom; done).
  - intros i. apply on_entries_keeps. intros st. exact (f_equal files (get_state i st)).
  - intros i x. apply on_entries_keeps, insert_keeps_files.
  - intros q a s. unfold on_smc, zoom, StateMachineControler.get_from_state_machine, StateMachineControler.enqueue_read, zoom.
    cbn. by destruct (ThreadPool.enqueue _ _).
  - intros t. by apply update_term_stable; try exact _.
Qed.

(** A server whose files are those of [port], with a log that is well formed. *)
Lemma restart_gives_log port s s' :
  files (entries_ s') = files (entries_ s) -> store_ok port (entries_ s) -> ls_ok (entries_ s') ->
  exists e d, Entries.new port (snd (entries_ s')) = (Val e, d) /\ Entries.log e = log_of s'.
Proof.
  intros Hf Hs [port' Hs']. destruct (store_restarts port _ (store_ok_files _ _ _ _ Hf Hs Hs')) as (e & d & E & Hl & _).
  by exists e, d.
Qed.

(** C23: durability end to end.  When a server that keeps its log in files has
    answered an AppendEntry with yes, a process that starts on its disk, whatever
    happens to the old one's memory, has the log the answer spoke of: the primary's
    entry is on the disk before the reply is sent. *)
Theorem acknowledged_survives_restart port m s :
  store_ok port (entries_ s) -> ae_verdict m s = Matching -> can_accept m s ->
  total (react2ae m) s (fun _ s' =>
    calls (network_ s') = calls (network_ s) ++
      [(RESP_APPEND, ae_sender m, SerializeToString {| rae_ok := true; rae_term := ae_term m;
         rae_lsn := ae_lsn m; rae_ip := ip_ s; rae_port := port_ s;
         rae_is_empty_ae := is_heartbeat m |})] /\
    exists e d, Entries.new port (snd (entries_ s')) = (Val e, d) /\
      Entries.log e = accepted_log m s).
Proof.
  intros Hs Hv Hc. destruct (react2ae_matching m s Hv Hc) as ([] & s' & E & s1 & H1 & H2).
  exists tt, s'. split; [exact E|]. pose proof (accepted_log_eq m s s1 (t2f_core _ _ _ H1)) as Hacc.
  pose proof (core_eq _ _ (t2f_core _ _ _ H1)) as (Hcon & Hnet & _).
  unfold constants in Hcon. apply pair_equal_spec in Hcon as [_ Hcon]. injection Hcon as Hip Hport _.
  split.
  - rewrite (ap_calls _ _ _ H2). unfold resp_ae_message. cbn.
    by rewrite Hnet, Hip, Hport, (t2f_term _ _ _ H1).
  - pose proof (frame_react2ae (same (fun s => files (entries_ s))) m s) as Hf. rewrite E in Hf.
    destruct (restart_gives_log port s s' Hf Hs (ap_ok _ _ _ H2)) as (e & d & En & Hl).
    exists e, d. split; [done|]. by rewrite Hl, <- Hacc, <- (ap_log _ _ _ H2).
Qed.
End durability.

(** ** Witness: a server with an empty disk is sent its first entry *)

Module Witness.
Import ThreeServers.

(** The log of a server whose disk is empty. *)
Definition empty_store (port : Z) : store :=
  match Entries.new port ∅ with
  | (Val e, d) => (e, d)
  | (_, d) => ({| Entries.data_ := {| file_fd_ := ""; fd_pos := 0 |}; Entries.entries_ := [];
                  Entries.offset_ := []; Entries.size_ := 0; Entries.path_offset_ := "" |}, d)
  end.
Definition log_of_B : store := empty_store 7002.
Definition f : RaftServer store net_t timer_t :=
  match start (SM := gmap string Z) localhost 7002 "config" (Some config_text) log_of_B [] ∅ 7002 with
  | Some (_, n) => server n
  | None => initial_members "" 0 "" log_of_B [] (smc_ no_server) 0
  end.
Definition m : AppendEntryRpc := Replication.Witness.m.

Lemma empty_store_ok port :
  Entries.stored (Entries.boot_disk port ∅) (Entries.data_path port) (Entries.offset_path port) [] ->
  store_ok port (empty_store port).
Proof.
  intros Hst. destruct (Entries.new_ok port ∅ [] Hst) as (e & d & E & Hwf & Hl & _ & Hd & Ho); [done|].
  unfold empty_store. rewrite E. by split; cbn; rewrite ?Hl.
Qed.
Lemma log_of_B_ok : store_ok 7002 log_of_B.
Proof. apply empty_store_ok. split; [by exists ""|by right|]. split; vm_compute; congruence. Qed.
Lemma f_entries : entries_ f = log_of_B.
Proof. vm_compute. reflexivity. Qed.
Lemma f_stored : store_ok 7002 (entries_ f).
Proof. rewrite f_entries. exact log_of_B_ok. Qed.
Lemma disk_matches : ae_verdict m f = Matching.
Proof. vm_compute. reflexivity. Qed.
Lemma disk_can_reply : can_reply (ae_sender m) f.
Proof.
  split; [split|done]; [rewrite f_entries; exists 7002; apply log_of_B_ok|vm_compute; done|vm_compute; congruence].
Qed.
Lemma disk_acceptable : can_accept m f.
Proof. split; [exact disk_can_reply|..]; vm_compute; repeat split; congruence. Qed.

Lemma acknowledged_survives_restart_witness :
  total (react2ae m) f (fun _ f' =>
    exists e d, Entries.new 7002 (snd (entries_ f')) = (Val e, d) /\ length (Entries.log e) = 1%nat).
Proof.
  eapply total_mono; [exact (acknowledged_survives_restart 7002 m f f_stored disk_matches disk_acceptable)|].
  intros _ f' (_ & e & d & E & Hl). exists e, d. split; [exact E|]. rewrite Hl. vm_compute. reflexivity.
Defined.
End Witness.
End EntriesStore.
