(* ===== verification/CatchUp.v ===== *)
(** A follower whose log is behind the primary's, or has diverged from it,
    catches up.  [exchange] lets the two react to each other's messages until
    the primary has nothing more to send; the theorem is that it gets there, in a
    number of rounds linear in the length of the log, and that the follower then
    holds the primary's log. *)

From S2P Require Import Prelude CxxString Platform Messages Util Interfaces EasyStateMachine ThreadPool StateMachineControler RaftServer ServerFacts ServerSpecs Node Commit Replication ThreeServers.

Module CatchUp.
Export Replication.

Section catch_up.
Context {L N T : Type} {LS : LogStore L} {LL : LogStoreLaws L} {TR : Transport N}
  {TL : TransportLaws N} {DT : DeadlineTimer handler T} {DL : DeadlineTimerLaws handler T}
  {RD : Rand} {RL : RandLaws} {RC : RaftCodecs} {RCL : RaftCodecsLaws}.
Implicit Types (s p f : RaftServer L N T) (m : AppendEntryRpc) (r : Resp_AppendEntryRpc).

(** The calls of [s'] behind those of [s]. *)
Definition new_calls s s' : list (RPC_TYPE * server_addr * string) :=
  drop (length (calls (network_ s))) (calls (network_ s')).

(** The message [bytes] of [p] is delivered to [f], its reply to [p], and so on
    as long as [p] sends; other servers hear nothing. *)
Fixpoint exchange (fuel : nat) (a : server_addr) p f (bytes : string) :
    option (RaftServer L N T * RaftServer L N T) :=
  match fuel with
  | O => None
  | S fuel' =>
      let '(r1, f') := reactToIncomingMsg APPEND_ENTRY bytes (server_ p) f in
      match r1, new_calls f f' with
      | Val _, [(RESP_APPEND, _, reply)] =>
          let '(r2, p') := reactToIncomingMsg RESP_APPEND reply a p in
          match r2, new_calls p p' with
          | Val _, [] => Some (p', f')
          | Val _, [(APPEND_ENTRY, b, bytes')] =>
              if decide (b = a) then exchange fuel' a p' f' bytes' else None
          | _, _ => None
          end
      | _, _ => None
      end
  end.

Lemma new_calls_app s s' l : calls (network_ s') = calls (network_ s) ++ l -> new_calls s s' = l.
Proof. intros E. unfold new_calls. by rewrite E, drop_app_length. Qed.

(** What does not change while the two exchange messages. *)
Record setting (a : server_addr) p f : Prop := {
  se_addr : a = (ip_ f, port_ f);
  se_majority : majority_ p = 2;
  se_self : server_ p <> a;
  se_term : in_int (term_ p) = true;
  se_wire_p : utf8 (ip_ p) = true /\ in_int (port_ p) = true;
  se_wire_f : utf8 (ip_ f) = true /\ in_int (port_ f) = true;
  se_wire_log : forallb wireable (log_of p) = true;
  se_index : forall i e, log_of p !! i = Some e -> en_index e = Z.of_nat i;
  se_room : forall i e l, log_of p !! i = Some e -> take i l = take i (log_of p) ->
    ls_room (Z.of_nat i) e l;
}.

(** The primary's side: it can send to [a], it can commit, and the entries it
    believes stored are entries of its log. *)
Record sender (a : server_addr) p : Prop := {
  sn_primary : state_ p = primary;
  sn_peer : peer_ok a p;
  sn_commit : can_commit p;
  sn_known : is_Some (Follower_saved_index p !! a);
  sn_self : Follower_saved_index p !! server_ p = Some (log_size p - 1);
  sn_saved : forall b i, Follower_saved_index p !! b = Some i -> -1 <= i;
  sn_index : -1 <= commit_index_ p < log_size p;
}.

(** The follower's side: nothing of the term is ahead of the message, the logs
    match, and what it committed the primary has, below the position [n]. *)
Record receiver p f (lsn n : Z) : Prop := {
  rc_reply : can_reply (ip_ p, port_ p) f;
  rc_term : term_ f <= term_ p /\ (term_ f = term_ p -> state_ f <> primary);
  rc_seen : map_at 0 (ip_ p, port_ p) (follower_rpc_lsn_ (with_term (term_ p) f)) < lsn;
  rc_matching : log_matching (log_of p) (log_of f);
  rc_commit : -1 <= commit_index_ f <= commit_index_ p /\ commit_index_ f < n /\
    commit_index_ f < log_size f;
  rc_agree : take (Z.to_nat (commit_index_ f + 1)) (log_of f) = take (Z.to_nat (commit_index_ f + 1)) (log_of p);
}.

(** The message in flight. *)
Definition in_flight (a : server_addr) (lsn : Z) p : AppendEntryRpc :=
  ae_message a (set_current_rpc_lsn_ (<[a := lsn]> (current_rpc_lsn_ p)) p).

Record exchanging (a : server_addr) p f (lsn n : Z) : Prop := {
  ex_setting : setting a p f;
  ex_sender : sender a p;
  ex_receiver : receiver p f lsn n;
  ex_lsn : current_rpc_lsn_ p !! a = Some (lsn + 1) /\ INT_MIN <= lsn;
  ex_next : nextIndex_ p !! a = Some n;
}.

Lemma in_flight_eq a lsn n p :
  nextIndex_ p !! a = Some n ->
  in_flight a lsn p =
    {| ae_term := term_ p; ae_prelog_term := term_at p (n - 1); ae_commit_index := commit_index_ p;
       ae_lsn := lsn; ae_ip := ip_ p; ae_port := port_ p;
       ae_entry := match log_of p !! Z.to_nat n with Some e => [e] | None => [] end;
       ae_prelog_index := n - 1 |}.
Proof.
  intros Hn. unfold in_flight, ae_message, map_at. cbn. rewrite Hn, lookup_insert_eq. done.
Qed.

Lemma wireable_term_at p i : forallb wireable (log_of p) = true -> in_int (term_at p i) = true.
Proof.
  intros Hw. unfold term_at. destruct (i <? 0); [done|]. destruct (log_of p !! _) as [e|] eqn:He; [|done].
  rewrite forallb_forall in Hw. specialize (Hw e). rewrite <- list_elem_of_In in Hw.
  specialize (Hw (list_elem_of_lookup_2 _ _ _ He)). unfold wireable, wireable_entry in Hw.
  apply andb_prop in Hw as [[Ht _]%andb_prop _]. done.
Qed.

Lemma exchanging_next a p f lsn n :
  exchanging a p f lsn n -> 0 <= n <= log_size p /\ log_size p < INT_MAX.
Proof.
  intros [_ [_ [Hok _ (n' & Hn & Hr) _ _] _ _ _ _ _] _ _ Hn']. rewrite Hn' in Hn. simplify_eq.
  pose proof (ls_small _ Hok). done.
Qed.

Lemma exchanging_lsn a p f lsn n : exchanging a p f lsn n -> INT_MIN <= lsn /\ lsn + 1 < INT_MAX.
Proof.
  intros [_ [_ [_ _ _ (l & Hl & Hr) _] _ _ _ _ _] _ [Hlsn Hm] _]. rewrite Hlsn in Hl. simplify_eq. lia.
Qed.

Lemma in_flight_wireable a p f lsn n :
  exchanging a p f lsn n -> wireable (in_flight a lsn p) = true.
Proof.
  intros Hex. pose proof (exchanging_next _ _ _ _ _ Hex) as [Hn Hsz]. pose proof (exchanging_lsn _ _ _ _ _ Hex).
  destruct Hex as [Hse Hsn _ _ Hnext]. rewrite (in_flight_eq _ _ _ _ Hnext).
  pose proof (sn_index _ _ Hsn) as Hci. destruct Hse as [_ _ _ Ht [Hip Hport] _ Hlog _ _].
  unfold wireable, wireable_ae. cbn [ae_term ae_prelog_term ae_commit_index ae_lsn ae_ip ae_port ae_entry ae_prelog_index].
  rewrite Ht, Hip, Hport, (wireable_term_at p _ Hlog).
  rewrite !(proj2 (in_int_iff _)) by (unfold INT_MIN, INT_MAX in *; lia). cbn [andb].
  destruct (log_of p !! Z.to_nat n) as [e|] eqn:He; [|done]. cbn.
  rewrite forallb_forall in Hlog. rewrite (Hlog e); [done|]. apply list_elem_of_In. by eapply list_elem_of_lookup_2.
Qed.

(** *** The follower's turn *)

(** The follower's log reaches the position [n] with the right term. *)
Definition connects p f (n : Z) : Prop :=
  n = 0 \/ (n - 1 < log_size f /\ term_at p (n - 1) = term_at f (n - 1)).

Lemma verdict_in_flight a p f lsn n :
  exchanging a p f lsn n ->
  (connects p f n /\ ae_verdict (in_flight a lsn p) f = Matching) \/
  (~ connects p f n /\ 0 < n /\
   (ae_verdict (in_flight a lsn p) f = Gap \/ ae_verdict (in_flight a lsn p) f = Conflict)).
Proof.
  intros Hex. pose proof (exchanging_next _ _ _ _ _ Hex) as [Hn Hsz].
  destruct Hex as [_ _ [_ [Ht Hp] Hseen _ _ _] _ Hnext].
  rewrite (in_flight_eq _ _ _ _ Hnext). unfold ae_verdict, connects, ae_sender.
  cbn [ae_term ae_prelog_term ae_commit_index ae_lsn ae_ip ae_port ae_entry ae_prelog_index].
  replace (1 <? length match log_of p !! Z.to_nat n with Some e => [e] | None => [] end)%nat with false
    by (by destruct (log_of p !! _)).
  destruct (Z.ltb_spec (term_ p) (term_ f)); [lia|].
  replace (bool_decide (state_ f = primary) && (term_ f =? term_ p)) with false.
  2:{ symmetry. apply andb_false_iff. destruct (Z.eqb_spec (term_ f) (term_ p)); [|by right].
      left. apply bool_decide_eq_false. auto. }
  destruct (Z.leb_spec lsn (map_at 0 (ip_ p, port_ p) (follower_rpc_lsn_ (with_term (term_ p) f)))); [lia|].
  destruct (Z.eqb_spec (n - 1) (-1)) as [Hn0|Hn0].
  { left. split; [left; lia|]. unfold term_at. by destruct (Z.ltb_spec (n - 1) 0); [|lia]. }
  destruct (Z.leb_spec (log_size f) (n - 1)); [right; split_and!; [lia|lia|by left]|].
  destruct (Z.eqb_spec (term_at p (n - 1)) (term_at f (n - 1))); [left; split; [right; lia|done]|].
  right. split_and!; [lia|lia|by right].
Qed.

Lemma connects_prefix a p f lsn n :
  exchanging a p f lsn n -> connects p f n ->
  take (Z.to_nat n) (log_of f) = take (Z.to_nat n) (log_of p).
Proof.
  intros Hex Hc. pose proof (exchanging_next _ _ _ _ _ Hex) as [Hn _].
  by apply prelog_agrees; [apply (rc_matching _ _ _ _ (ex_receiver _ _ _ _ _ Hex))|..].
Qed.

Lemma connects_size p f n : connects p f n -> n <= log_size f.
Proof. unfold connects, log_size. lia. Qed.

Lemma in_flight_acceptable a p f lsn n :
  exchanging a p f lsn n -> connects p f n -> can_accept (in_flight a lsn p) f.
Proof.
  intros Hex Hc. pose proof (exchanging_next _ _ _ _ _ Hex) as [Hn Hsz].
  pose proof (connects_prefix _ _ _ _ _ Hex Hc) as Hpre. pose proof (connects_size _ _ _ Hc) as Hfs.
  destruct Hex as [Hse Hsn [Hr _ _ _ Hci _] _ Hnext]. pose proof (sn_index _ _ Hsn) as Hpi.
  rewrite (in_flight_eq _ _ _ _ Hnext). split; cbn; [done|lia| |].
  - destruct (log_of p !! Z.to_nat n) as [e|] eqn:He; [|apply lookup_ge_None in He; unfold log_size in *; lia].
    replace (n - 1 + 1) with (Z.of_nat (Z.to_nat n)) by lia. split; [by apply (se_index _ _ _ Hse)|].
    by apply (se_room _ _ _ Hse).
  - unfold accepted_commit, accepted_log. cbn. destruct (log_of p !! Z.to_nat n) as [e|] eqn:He.
    + rewrite length_app, length_take. cbn. unfold log_size in Hfs. lia.
    + apply lookup_ge_None in He. unfold log_size in *. lia.
Qed.

Definition reply_of (ok : bool) (a : server_addr) (lsn : Z) p : Resp_AppendEntryRpc :=
  {| rae_ok := ok; rae_term := term_ p; rae_lsn := lsn; rae_ip := fst a; rae_port := snd a;
     rae_is_empty_ae := is_heartbeat (in_flight a lsn p) |}.

Record turn_post (a : server_addr) (ok : bool) (lsn : Z) p f f1 : Prop := {
  tp_calls : new_calls f f1 = [(RESP_APPEND, (ip_ p, port_ p), SerializeToString (reply_of ok a lsn p))];
  tp_constants : constants f1 = constants f;
  tp_term : term_ f1 = term_ p;
  tp_state : state_ f1 = follower;
  tp_seen : map_at 0 (ip_ p, port_ p) (follower_rpc_lsn_ f1) = lsn;
  tp_reply : can_reply (ip_ p, port_ p) f1;
}.

Lemma follower_turn a p f lsn n peer :
  exchanging a p f lsn n ->
  let m := in_flight a lsn p in
  exists f1 ok,
    reactToIncomingMsg APPEND_ENTRY (SerializeToString m) peer f = (Val tt, f1) /\
    turn_post a ok lsn p f f1 /\
    ((ok = true /\ connects p f n /\ log_of f1 = accepted_log m f /\ commit_index_ f1 = accepted_commit m f) \/
     (ok = false /\ ~ connects p f n /\ 0 < n /\ log_of f1 = log_of f /\ commit_index_ f1 = commit_index_ f)).
Proof.
  intros Hex m. unfold reactToIncomingMsg. rewrite parse_serialize by (by eapply in_flight_wireable).
  fold m. pose proof (ex_setting _ _ _ _ _ Hex) as Hse. pose proof (se_addr _ _ _ Hse) as Ha.
  pose proof (in_flight_eq _ lsn _ _ (ex_next _ _ _ _ _ Hex)) as Em. fold m in Em.
  assert (Hsend : ae_sender m = (ip_ p, port_ p)) by (by rewrite Em).
  assert (Hlsn : ae_lsn m = lsn) by (by rewrite Em). assert (Htm : ae_term m = term_ p) by (by rewrite Em).
  assert (Hmsg : forall ok s1, trans2F_post (ae_term m) f s1 ->
    resp_ae_message ok (ae_lsn m) (is_heartbeat m) (heard (ae_sender m) (ae_lsn m) s1) = reply_of ok a lsn p).
  { intros ok s1 H1. pose proof (core_eq _ _ (t2f_core _ _ _ H1)) as (Hc1 & _).
    apply constants_eq in Hc1 as (_ & Hip & Hport & _). unfold resp_ae_message, reply_of, heard. rewrite Hlsn.
    f_equal; [etrans; [exact (t2f_term _ _ _ H1)|exact Htm]|by rewrite Ha|by rewrite Ha]. }
  destruct (verdict_in_flight _ _ _ _ _ Hex) as [[Hc Hv]|(Hc & Hn & Hv)]; fold m in Hv.
  - pose proof (in_flight_acceptable _ _ _ _ _ Hex Hc) as Hacc. fold m in Hacc.
    destruct (react2ae_matching m f Hv Hacc) as ([] & f1 & E & s1 & H1 & H2).
    destruct (accepted_keeps _ _ _ _ H1 H2 Hacc) as (Hcst & Ht & Hst & Hfl & Hr).
    pose proof (t2f_core _ _ _ H1) as Hcore. exists f1, true. split; [exact E|]. split; [split|].
    + apply new_calls_app. rewrite (ap_calls _ _ _ H2), (Hmsg _ _ H1), Hsend. cbn.
      by pose proof (core_eq _ _ Hcore) as (_ & -> & _).
    + done.
    + congruence.
    + done.
    + rewrite Hfl, Hsend, map_at_insert, decide_True by done. done.
    + done.
    + left. split_and!; [done|done|..].
      * rewrite (ap_log _ _ _ H2). by apply accepted_log_eq.
      * rewrite (ap_commit _ _ _ H2). unfold accepted_commit. by rewrite (accepted_log_eq m f s1 Hcore).
  - assert (Href : total (react2ae m) f (fun _ s' => exists s1, trans2F_post (ae_term m) f s1 /\
      refused m (heard (ae_sender m) (ae_lsn m) s1) s')).
    { pose proof (react2ae_cases m f (rc_reply _ _ _ _ (ex_receiver _ _ _ _ _ Hex))) as H.
      assert (Hpl : -1 <= ae_prelog_index m) by (rewrite Em; cbn; lia). specialize (H Hpl).
      by destruct Hv as [Hv|Hv]; rewrite Hv in H. }
    destruct Href as ([] & f1 & E & s1 & H1 & nw & -> & Hcalls).
    pose proof (t2f_core _ _ _ H1) as Hcore. pose proof (core_eq _ _ Hcore) as (Hc1 & Hnet & Hent & Hci & _).
    exists (set_network_ nw (heard (ae_sender m) (ae_lsn m) s1)), false. split; [exact E|]. split; [split|].
    + apply new_calls_app. cbn. rewrite Hcalls, (Hmsg _ _ H1), Hsend. cbn. by rewrite Hnet.
    + done.
    + cbn. rewrite (t2f_term _ _ _ H1). done.
    + apply H1.
    + cbn. rewrite Hsend, map_at_insert, decide_True by done. done.
    + pose proof (can_reply_eq _ _ _ Hcore (rc_reply _ _ _ _ (ex_receiver _ _ _ _ _ Hex))) as [[] ?]. split; done.
    + right. split_and!; [done|done|done| |done]. unfold log_of. cbn. by rewrite Hent.
Qed.

(** *** Counting stored entries *)

Lemma stored_by_two (c : Z) (saved : gmap server_addr Z) x y i j :
  saved !! x = Some i -> saved !! y = Some j -> x <> y -> c <= i -> c <= j -> 2 <= stored_by c saved.
Proof.
  intros Hx Hy Hne Hi Hj. unfold stored_by.
  rewrite <- (insert_delete_id _ _ _ Hx), map_to_list_insert by apply lookup_delete_eq.
  assert (Hy' : delete x saved !! y = Some j) by (by rewrite lookup_delete_ne).
  rewrite <- (insert_delete_id _ _ _ Hy'), map_to_list_insert by apply lookup_delete_eq.
  unfold at_least. cbn [fmap list_fmap snd]. rewrite !filter_cons_True by lia. cbn [length]. lia.
Qed.

Lemma stored_by_some (c : Z) (saved : gmap server_addr Z) :
  1 <= stored_by c saved -> exists b i, saved !! b = Some i /\ c <= i.
Proof.
  unfold stored_by, at_least. intros H.
  destruct (filter (fun v => c <= v) (map_to_list saved).*2) as [|v l] eqn:E; [cbn in H; lia|].
  assert (Hv : v ∈ filter (fun v => c <= v) (map_to_list saved).*2) by (rewrite E; left).
  apply list_elem_of_filter in Hv as [Hc Hv]. apply list_elem_of_fmap in Hv as ([b i] & -> & Hb).
  exists b, i. split; [by apply elem_of_map_to_list|done].
Qed.

Lemma can_commit_insert a i s :
  can_commit s -> is_Some (Follower_saved_index s !! a) -> i < log_size s ->
  can_commit (set_Follower_saved_index (<[a := i]> (Follower_saved_index s)) s).
Proof.
  intros [[Hok Hrun Ha] Hsz H3 Hm Hs] [j Hj] Hi. split; cbn; [split; done| |done|done|].
  - by rewrite map_size_insert_Some by eauto.
  - intros b v. destruct (decide (b = a)) as [->|Hne].
    + rewrite lookup_insert_eq. intros [= <-]. done.
    + rewrite lookup_insert_ne by done. apply Hs.
Qed.

(** *** The primary's turn *)

Lemma ae_message_eq a s s' :
  constants s' = constants s -> entries_ s' = entries_ s -> term_ s' = term_ s ->
  commit_index_ s' = commit_index_ s -> map_at 0 a (nextIndex_ s') = map_at 0 a (nextIndex_ s) ->
  map_at 0 a (current_rpc_lsn_ s') = map_at 0 a (current_rpc_lsn_ s) ->
  ae_message a s' = ae_message a s.
Proof.
  intros Hc He Ht Hi Hn Hl. apply constants_eq in Hc as (_ & Hip & Hport & _).
  unfold ae_message, term_at, log_of. by rewrite He, Ht, Hi, Hn, Hl, Hip, Hport.
Qed.

Lemma ae_sent_in_flight a s s' l :
  ae_sent a s s' -> map_at 0 a (current_rpc_lsn_ s) = l -> in_flight a l s' = ae_message a s.
Proof.
  intros [Hc He Hs _ _ Hn _ _] Hl. injection Hs as Hci Ht _ _ _. unfold in_flight.
  apply ae_message_eq; cbn; try done; [by rewrite Hn|]. unfold map_at at 1. by rewrite lookup_insert_eq.
Qed.

Lemma peer_ok_sent a s s' :
  ae_sent a s s' -> peer_ok a s -> map_at 0 a (current_rpc_lsn_ s) + 1 < INT_MAX -> peer_ok a s'.
Proof.
  intros [Hc He Hs _ _ Hn Hl (t & Ht & _)] [H1 H2 H3 (l & Hl' & Hr) H5] Hm.
  injection Hs as Hci Htm _ _ _. unfold map_at in Hm, Hl. rewrite Hl' in Hm, Hl. cbn in Hm, Hl. split.
  - by rewrite He.
  - rewrite Ht, lookup_insert_eq. eauto.
  - rewrite Hn. unfold log_size, log_of in *. by rewrite He.
  - exists (l + 1). rewrite Hl, lookup_insert_eq. split; [done|lia].
  - intros n l' c Hn'. unfold log_size, log_of in *. rewrite He in Hn'. specialize (H5 n l' c Hn').
    erewrite (ae_message_eq a); [exact H5|..]; cbn; try done.
    + by rewrite Hn.
    + unfold map_at. by rewrite !lookup_insert_eq.
Qed.

Lemma setting_eq a p f p' f' :
  constants p' = constants p -> constants f' = constants f -> term_ p' = term_ p ->
  log_of p' = log_of p -> setting a p f -> setting a p' f'.
Proof.
  intros Hp Hf Ht Hl [H1 H2 H3 H4 H5 H6 H7 H8 H9].
  apply constants_eq in Hp as (_ & Hip & Hport & Hself & Hmaj).
  apply constants_eq in Hf as (_ & Hipf & Hportf & _).
  split; rewrite ?Hip, ?Hport, ?Hself, ?Hmaj, ?Hipf, ?Hportf, ?Ht, ?Hl; done.
Qed.

Lemma wireable_reply a p f lsn n ok :
  exchanging a p f lsn n -> wireable (reply_of ok a lsn p) = true.
Proof.
  intros Hex. pose proof (exchanging_lsn _ _ _ _ _ Hex). destruct Hex as [[Ha _ _ Ht _ [Hip Hport] _ _ _] _ _ _ _].
  unfold wireable, wireable_resp_ae, reply_of. cbn [rae_term rae_lsn rae_ip rae_port]. subst a. cbn [fst snd].
  rewrite Ht, Hip, Hport. rewrite (proj2 (in_int_iff lsn)) by (unfold INT_MIN, INT_MAX in *; lia). done.
Qed.

(** The reply reaches the code for the current term. *)
Lemma reply_dispatch a p f lsn n ok peer :
  exchanging a p f lsn n ->
  reactToIncomingMsg RESP_APPEND (SerializeToString (reply_of ok a lsn p)) peer p =
    primary_deal_resp_ae_with_same_term a (reply_of ok a lsn p) p.
Proof.
  intros Hex. unfold reactToIncomingMsg. rewrite parse_serialize by (by eapply wireable_reply).
  unfold react2resp_ae. rewrite !(bind_val _ _ _ _ _ (gets_val _ _)). cbn [reply_of rae_term rae_ip rae_port].
  rewrite Z.ltb_irrefl, !(bind_val _ _ _ _ _ (gets_val _ _)).
  rewrite (sn_primary _ _ (ex_sender _ _ _ _ _ Hex)), bool_decide_true by done. by destruct a.
Qed.

(** What the primary still knows after it took note of a position of [a]. *)
Lemma sender_committed a p c i :
  sender a p -> server_ p <> a -> majority_ p = 2 -> -1 <= i < log_size p ->
  majority_index (<[a := i]> (Follower_saved_index p)) p c ->
  i <= c /\ sender a (committed c a i p).
Proof.
  intros [Hp Hpe Hcc Hk Hself Hlow Hci] Hne Hmaj Hi [Hc Hmax].
  assert (Hic : i <= c).
  { apply Hmax. rewrite Hmaj. eapply (stored_by_two i _ a (server_ p)); [by rewrite lookup_insert_eq| |done|lia|].
    - by rewrite lookup_insert_ne.
    - cbn. lia. }
  assert (Hins : forall b j, <[a := i]> (Follower_saved_index p) !! b = Some j -> -1 <= j < log_size p).
  { intros b j. destruct (decide (b = a)) as [->|Hb].
    - rewrite lookup_insert_eq. intros [= <-]. lia.
    - rewrite lookup_insert_ne by done. intros Hj. split; [by eapply Hlow|by eapply (cc_saved _ Hcc)]. }
  assert (Hcs : c < log_size p).
  { destruct (stored_by_some c (<[a := i]> (Follower_saved_index p))) as (b & j & Hb & Hj); [lia|].
    apply Hins in Hb. lia. }
  split; [done|]. pose proof (can_commit_insert a i p Hcc Hk ltac:(lia)) as [[Hok Hrun Ha] Hsz H3 Hm Hs].
  split; try done.
  - by apply peer_ok_committed.
  - split; try done. split; try done. etrans; [exact Ha|].
    apply (smc_commit_keeps c (set_commit_index_ c (set_Follower_saved_index (<[a := i]> (Follower_saved_index p)) p))).
  - cbn. rewrite lookup_insert_eq. eauto.
  - cbn. by rewrite lookup_insert_ne.
  - intros b j Hj. apply Hins in Hj. lia.
  - cbn. unfold log_size, log_of in *. cbn. lia.
Qed.

Lemma sender_sent a p p' :
  ae_sent a p p' -> sender a p -> map_at 0 a (current_rpc_lsn_ p) + 1 < INT_MAX -> sender a p'.
Proof.
  intros Hs [Hp Hpe Hcc Hk Hself Hlow Hci] Hlsn. pose proof Hs as [Hc He Hsm Hsm' _ _ _ _].
  injection Hsm as Hcm Ht Hst Hav Hwv. injection Hsm' as Hsv Hsmc Hcl Hfl Hct.
  assert (Hsz : log_size p' = log_size p) by (unfold log_size, log_of; by rewrite He).
  pose proof (constants_eq _ _ Hc) as (Hconf & _ & _ & Hsrv & Hmaj).
  split.
  - congruence.
  - by eapply peer_ok_sent.
  - destruct Hcc as [Hap H1 H2 H3 H4]. split.
    + by eapply (can_apply_eq p).
    + by rewrite Hsv, Hconf.
    + by rewrite Hconf.
    + by rewrite Hmaj, Hconf.
    + intros b i. rewrite Hsv, Hsz. apply H4.
  - by rewrite Hsv.
  - by rewrite Hsv, Hsrv, Hsz.
  - intros b i. rewrite Hsv. apply Hlow.
  - by rewrite Hcm, Hsz.
Qed.

(** *** What the state machine is given *)

Abbreviation writer s := (StateMachineControler.write_thread_pool_ (smc_ s)).
Abbreviation applied s := (StateMachineControler.applied_index_ (smc_ s)).

(** From [p] to [p'] the next entries [es] of the log became tasks of the
    writer's pool; the log, the role and the callers to answer stayed. *)
Record forwards p p' : Prop := {
  fw_log : log_of p' = log_of p;
  fw_state : state_ p' = state_ p;
  fw_clients : entryIndex_to_socketAddr_map_ p' = entryIndex_to_socketAddr_map_ p;
  fw_tasks : exists es, es `prefix_of` drop (Z.to_nat (applied p + 1)) (log_of p) /\
    applied p' = applied p + Z.of_nat (length es) /\
    writer p' = {| ThreadPool.workers := ThreadPool.workers (writer p);
      ThreadPool.tasks := ThreadPool.tasks (writer p) ++ StateMachineControler.tasks_of (applied p + 1) es;
      ThreadPool.stop := ThreadPool.stop (writer p) |};
}.

Lemma tasks_of_app i l1 l2 :
  StateMachineControler.tasks_of i (l1 ++ l2) =
    StateMachineControler.tasks_of i l1 ++ StateMachineControler.tasks_of (i + Z.of_nat (length l1)) l2.
Proof.
  revert i. induction l1 as [|e l1 IH]; intros i; cbn; [by rewrite Z.add_0_r|]. rewrite IH.
  do 3 f_equal. lia.
Qed.

Lemma forwards_refl p : forwards p p.
Proof.
  split; try done. exists []. split; [apply prefix_nil|]. cbn. rewrite Z.add_0_r, app_nil_r. by destruct (writer p).
Qed.

Lemma forwards_trans p1 p2 p3 : -1 <= applied p1 -> forwards p1 p2 -> forwards p2 p3 -> forwards p1 p3.
Proof.
  intros Ha [Hl Hs Hc (es & [k Hk] & Ea & Ew)] [Hl' Hs' Hc' (es' & Hp & Ea' & Ew')].
  split; [congruence..|]. exists (es ++ es'). split_and!.
  - rewrite Hk. apply prefix_app. rewrite Hl, Ea in Hp.
    replace (Z.to_nat (applied p1 + Z.of_nat (length es) + 1)) with (Z.to_nat (applied p1 + 1) + length es)%nat in Hp by lia.
    by rewrite <- drop_drop, Hk, drop_app_length in Hp.
  - rewrite Ea', Ea, length_app. lia.
  - rewrite Ew', Ew, tasks_of_app, Ea. cbn [ThreadPool.workers ThreadPool.tasks ThreadPool.stop]. rewrite <- app_assoc.
    by replace (applied p1 + 1 + Z.of_nat (length es)) with (applied p1 + Z.of_nat (length es) + 1) by lia.
Qed.

Lemma forwards_committed a c i p : forwards p (committed c a i p).
Proof.
  split; try done. eexists. split; [apply prefix_take|]. by split.
Qed.

Lemma forwards_sent a p p' : ae_sent a p p' -> forwards p p'.
Proof.
  intros [_ He Hs Hs' _ _ _ _]. injection Hs as _ _ Hst _ _. injection Hs' as _ Hsmc Hcl _ _.
  destruct (forwards_refl p) as [_ _ _ Ht]. split; [unfold log_of; by rewrite He|done|done|by rewrite Hsmc].
Qed.

Lemma forwards_next x p p' : forwards (set_nextIndex_ x p) p' -> forwards p p'.
Proof. by intros []. Qed.

(** *** One round *)

Lemma seen_of_turn a ok lsn p p' f f1 :
  turn_post a ok lsn p f f1 -> constants p' = constants p -> term_ p' = term_ p ->
  can_reply (ip_ p', port_ p') f1 /\
  map_at 0 (ip_ p', port_ p') (follower_rpc_lsn_ (with_term (term_ p') f1)) < lsn + 1 /\
  (term_ f1 <= term_ p' /\ (term_ f1 = term_ p' -> state_ f1 <> primary)).
Proof.
  intros [_ _ Ht Hst Hseen Hr] Hc Htp. apply constants_eq in Hc as (_ & -> & -> & _). rewrite Htp, Ht.
  unfold with_term. rewrite Ht, Z.ltb_irrefl, Hseen. split; [done|]. split; [lia|]. split; [lia|]. by rewrite Hst.
Qed.

(** The follower refused: the next message goes one entry further back. *)
Lemma round_refused a p f lsn n f1 peer :
  exchanging a p f lsn n -> lsn + 3 < INT_MAX ->
  turn_post a false lsn p f f1 -> ~ connects p f n -> 0 < n ->
  log_of f1 = log_of f -> commit_index_ f1 = commit_index_ f ->
  exists p1, reactToIncomingMsg RESP_APPEND (SerializeToString (reply_of false a lsn p)) peer p = (Val tt, p1) /\
    new_calls p p1 = [(APPEND_ENTRY, a, SerializeToString (in_flight a (lsn + 1) p1))] /\
    forwards p p1 /\ exchanging a p1 f1 (lsn + 1) (n - 1).
Proof.
  intros Hex Hroom Htp Hc Hn Hlog Hcommit. pose proof (exchanging_next _ _ _ _ _ Hex) as [Hnr Hsz].
  rewrite (reply_dispatch _ _ _ _ _ _ _ Hex). pose proof Hex as [Hse Hsn [_ _ _ Hmat Hci Hag] [Hlsn Hlow] Hnext].
  destruct (deal_refused a (reply_of false a lsn p) p n (sn_peer _ _ Hsn) Hlsn Hnext eq_refl Hn)
    as ([] & p1 & E & Hs).
  set (s0 := set_nextIndex_ (<[a := n - 1]> (nextIndex_ p)) p) in *.
  assert (Hl0 : map_at 0 a (current_rpc_lsn_ s0) = lsn + 1) by (unfold map_at; cbn; by rewrite Hlsn).
  assert (Hsn0 : sender a s0).
  { destruct Hsn as [? ? [[]]]. split; try done. apply peer_ok_next; [done|lia]. }
  pose proof Hs as [Hcst He Hsm _ Hcalls Hnx Hls _]. injection Hsm as Hcm Ht _ _ _.
  assert (Hlogp : log_of p1 = log_of p) by (unfold log_of; by rewrite He).
  exists p1. split; [exact E|]. split_and!; [|by eapply forwards_next, forwards_sent|].
  { apply new_calls_app. rewrite (ae_sent_in_flight _ _ _ _ Hs Hl0). exact Hcalls. }
  destruct (seen_of_turn _ _ _ _ p1 _ _ Htp Hcst Ht) as (Hrp & Hseen & Hterm).
  split.
  - apply (setting_eq a p f); [exact Hcst|exact (tp_constants _ _ _ _ _ _ Htp)|exact Ht|exact Hlogp|done].
  - eapply sender_sent; [exact Hs|done|]. rewrite Hl0. lia.
  - split; [exact Hrp|exact Hterm|exact Hseen|by rewrite Hlogp, Hlog| |by rewrite Hcommit, Hlog, Hlogp].
    rewrite Hcommit, Hcm. unfold log_size in *. rewrite Hlog. split_and!; [lia|change (commit_index_ s0) with (commit_index_ p); lia| |lia].
    destruct (Z.lt_ge_cases (commit_index_ f) (n - 1)) as [|Hge]; [done|]. exfalso. apply Hc. right.
    assert (En : commit_index_ f = n - 1) by lia. rewrite En in Hag. replace (n - 1 + 1) with n in Hag by lia.
    split; [unfold log_size; lia|]. unfold term_at. destruct (Z.ltb_spec (n - 1) 0); [done|].
    apply (f_equal (lookup (Z.to_nat (n - 1)))) in Hag. rewrite !lookup_take_lt in Hag by lia. by rewrite Hag.
  - rewrite Hls, lookup_insert_eq, Hl0. split; [done|lia].
  - rewrite Hnx. cbn. by rewrite lookup_insert_eq.
Qed.

(** The follower stored the entry: the next message carries the next one. *)
Lemma round_stored a p f lsn n f1 peer :
  exchanging a p f lsn n -> lsn + 3 < INT_MAX ->
  turn_post a true lsn p f f1 -> connects p f n -> n < log_size p ->
  log_of f1 = accepted_log (in_flight a lsn p) f -> commit_index_ f1 = accepted_commit (in_flight a lsn p) f ->
  exists p1, reactToIncomingMsg RESP_APPEND (SerializeToString (reply_of true a lsn p)) peer p = (Val tt, p1) /\
    new_calls p p1 = [(APPEND_ENTRY, a, SerializeToString (in_flight a (lsn + 1) p1))] /\
    forwards p p1 /\ exchanging a p1 f1 (lsn + 1) (n + 1) /\ connects p1 f1 (n + 1).
Proof.
  intros Hex Hroom Htp Hc Hn Hlog Hcommit. pose proof (exchanging_next _ _ _ _ _ Hex) as [Hnr Hsz].
  pose proof (connects_prefix _ _ _ _ _ Hex Hc) as Hpre.
  rewrite (reply_dispatch _ _ _ _ _ _ _ Hex). pose proof Hex as [Hse Hsn [_ _ _ Hmat Hci Hag] [Hlsn Hlow] Hnext].
  destruct (lookup_lt_is_Some_2 (log_of p) (Z.to_nat n)) as [e He]; [unfold log_size in *; lia|].
  pose proof (in_flight_eq a lsn n p Hnext) as Em. rewrite He in Em.
  assert (Hlog1 : log_of f1 = take (S (Z.to_nat n)) (log_of p)).
  { rewrite Hlog, Em. unfold accepted_log. cbn. replace (n - 1 + 1) with n by lia.
    by rewrite Hpre, (take_S_r _ _ _ He). }
  assert (Hcom1 : commit_index_ f1 = Z.min (commit_index_ p) n).
  { rewrite Hcommit. unfold accepted_commit. rewrite <- Hlog, Hlog1, Em. cbn. rewrite length_take.
    unfold log_size in *. lia. }
  assert (Hhb : rae_is_empty_ae (reply_of true a lsn p) = false) by (cbn; by rewrite Em).
  destruct (deal_more a (reply_of true a lsn p) p n (sn_peer _ _ Hsn) Hlsn Hnext eq_refl Hn) as (c & Hmaj & Ht);
    rewrite Hhb in *.
  { apply can_commit_insert; [apply Hsn|apply Hsn|lia]. }
  destruct Ht as ([] & p1 & E & Hs). set (s0 := set_nextIndex_ (<[a := n + 1]> (nextIndex_ p)) p) in *.
  assert (Hsn0 : sender a s0).
  { destruct Hsn as [? ? [[]]]. split; try done. apply peer_ok_next; [done|lia]. }
  destruct (sender_committed a s0 c n Hsn0) as [Hnc Hsn1]; [apply Hse|apply Hse|change (log_size s0) with (log_size p); lia|done|].
  assert (Hl0 : map_at 0 a (current_rpc_lsn_ (committed c a n s0)) = lsn + 1) by (unfold map_at; cbn; by rewrite Hlsn).
  pose proof Hs as [Hcst Hen Hsm _ Hcalls Hnx Hls _]. injection Hsm as Hcm Htm _ _ _.
  assert (Hlogp : log_of p1 = log_of p) by (unfold log_of; by rewrite Hen).
  assert (Hfw : forwards p p1).
  { apply (forwards_trans p (committed c a n s0)); [by destruct Hsn as [? ? [[]]]|by eapply forwards_next, forwards_committed|].
    by eapply forwards_sent. }
  exists p1. split; [exact E|]. split_and!; [|done| |].
  { apply new_calls_app. rewrite (ae_sent_in_flight _ _ _ _ Hs Hl0). exact Hcalls. }
  - destruct (seen_of_turn _ _ _ _ p1 _ _ Htp Hcst Htm) as (Hrp & Hseen & Hterm). split.
    + apply (setting_eq a p f); [exact Hcst|exact (tp_constants _ _ _ _ _ _ Htp)|exact Htm|exact Hlogp|done].
    + eapply sender_sent; [exact Hs|done|]. rewrite Hl0. lia.
    + split; [exact Hrp|exact Hterm|exact Hseen| | |].
      * rewrite Hlogp, Hlog1. apply log_matching_prefix.
      * rewrite Hcom1, Hcm. unfold log_size in *. rewrite Hlog1, length_take.
        pose proof (sn_index _ _ Hsn). unfold log_size in *. change (commit_index_ (committed c a n s0)) with c. lia.
      * rewrite Hcom1, Hlogp, Hlog1, take_take. f_equal. lia.
    + rewrite Hls, lookup_insert_eq, Hl0. split; [done|lia].
    + rewrite Hnx. cbn. by rewrite lookup_insert_eq.
  - right. replace (n + 1 - 1) with n by lia. unfold log_size in *. rewrite Hlog1, length_take. split; [lia|].
    unfold term_at. rewrite Hlogp, Hlog1. destruct (Z.ltb_spec n 0); [done|].
    by rewrite lookup_take_lt by lia.
Qed.

(** The follower answered the heartbeat: nothing is left to send. *)
Lemma round_done a p f lsn n peer :
  exchanging a p f lsn n -> n = log_size p ->
  exists p1, reactToIncomingMsg RESP_APPEND (SerializeToString (reply_of true a lsn p)) peer p = (Val tt, p1) /\
    new_calls p p1 = [] /\ forwards p p1 /\ commit_index_ p1 = log_size p - 1 /\ log_size p - 1 <= applied p1 /\
    ls_ok (entries_ p1).
Proof.
  intros Hex Hn. rewrite (reply_dispatch _ _ _ _ _ _ _ Hex). destruct Hex as [Hse Hsn _ [Hlsn Hlow] Hnext].
  destruct (deal_synced a (reply_of true a lsn p) p n (sn_peer _ _ Hsn) Hlsn Hnext eq_refl Hn) as (c & Hmaj & E).
  { apply can_commit_insert; [apply Hsn|apply Hsn|lia]. }
  destruct (sender_committed a p c (n - 1) Hsn) as [Hnc Hsn1]; [apply Hse|apply Hse|unfold log_size in *; lia|done|].
  pose proof (sn_index _ _ Hsn1) as [_ Hc]. change (commit_index_ (committed _ _ _ _)) with c in Hc.
  change (log_size (committed _ _ _ _)) with (log_size p) in Hc.
  assert (Ha : -1 <= applied p) by (by destruct Hsn as [? ? [[]]]).
  exists (committed c a (n - 1) p). split_and!; [done| |by apply forwards_committed|cbn; lia| |exact (po_log _ _ (sn_peer _ _ Hsn))].
  - apply new_calls_app. by rewrite app_nil_r.
  - unfold committed, smc_commit, StateMachineControler.handed_over. cbn -[take drop].
    rewrite length_take, length_drop. unfold log_size, log_of in *. cbn in *. lia.
Qed.

(** *** The exchange *)

(** Rounds that are enough: back to where the logs connect, then forward. *)
Definition rounds p f (n : Z) (k : nat) : Prop :=
  (connects p f n /\ log_size p - n + 1 <= Z.of_nat k) \/ n + log_size p + 1 <= Z.of_nat k.

(** Where the exchange ends: the follower has the log, the primary has committed
    it and given all of it to its state machine. *)
Definition caught_up p p' f' : Prop :=
  take (length (log_of p)) (log_of f') = log_of p /\
  forwards p p' /\ commit_index_ p' = log_size p - 1 /\ log_size p - 1 <= applied p' /\
  ls_ok (entries_ p') /\ ls_ok (entries_ f').

Lemma exchange_more a p p1 f lsn n (o : option (RaftServer L N T * RaftServer L N T)) :
  exchanging a p f lsn n -> forwards p p1 ->
  (exists p' f', o = Some (p', f') /\ caught_up p1 p' f') -> exists p' f', o = Some (p', f') /\ caught_up p p' f'.
Proof.
  intros [_ [_ _ [[_ _ Ha]] _ _ _ _] _ _ _] Hfw (p' & f' & E & Hlog & Hfw' & Hci & Hap & Hokp & Hokf).
  exists p', f'. unfold caught_up, log_size in *. rewrite (fw_log _ _ Hfw) in *. split_and!; try done.
  by eapply forwards_trans.
Qed.

(** What every message respects an exchange respects, on both sides. *)
Lemma exchange_frame (R : relation (RaftServer L N T)) {FR : Frame R} {CM : Commits R} {AP : Appends R} k a p f bytes p' f' :
  exchange k a p f bytes = Some (p', f') -> R p p' /\ R f f'.
Proof.
  revert p f bytes. induction k as [|k IH]; intros p f bytes E; cbn [exchange] in E; [done|].
  pose proof (frame_message R APPEND_ENTRY bytes (server_ p) f) as Hf.
  destruct (reactToIncomingMsg APPEND_ENTRY bytes (server_ p) f) as [r1 f1]. cbn in Hf.
  destruct r1; try done. destruct (new_calls f f1) as [|[[[] ?] reply] []]; try done.
  pose proof (frame_message R RESP_APPEND reply a p) as Hp.
  destruct (reactToIncomingMsg RESP_APPEND reply a p) as [r2 p1]. cbn in Hp.
  destruct r2; try done. destruct (new_calls p p1) as [|[[[] b] bytes'] []]; simplify_eq; try done.
  destruct (decide (b = a)); [|done]. destruct (IH _ _ _ E) as [IHp IHf]. split; by etrans.
Qed.

Lemma exchange_ok k a p f lsn n :
  exchanging a p f lsn n -> rounds p f n k -> lsn + Z.of_nat k + 3 < INT_MAX ->
  exists p' f', exchange k a p f (SerializeToString (in_flight a lsn p)) = Some (p', f') /\ caught_up p p' f'.
Proof.
  revert p f lsn n. induction k as [|k IH]; intros p f lsn n Hex Hk Hroom;
    pose proof (exchanging_next _ _ _ _ _ Hex) as [Hn Hsz].
  { exfalso. unfold rounds in Hk. lia. }
  destruct (follower_turn a p f lsn n (server_ p) Hex) as (f1 & ok & E1 & Htp & Hcase).
  cbn [exchange]. rewrite E1, (tp_calls _ _ _ _ _ _ Htp).
  destruct Hcase as [(-> & Hc & Hlog & Hcom)|(-> & Hc & Hn0 & Hlog & Hcom)].
  - destruct (decide (n = log_size p)) as [Hend|Hmore].
    + destruct (round_done a p f lsn n a Hex Hend) as (p1 & E2 & Hnew & Hfw & Hci & Ha & Hok1). rewrite E2, Hnew.
      exists p1, f1. split; [done|]. split_and!; [|done..|apply (tp_reply _ _ _ _ _ _ Htp)]. rewrite Hlog, (in_flight_eq _ _ _ _ (ex_next _ _ _ _ _ Hex)).
      unfold accepted_log. cbn. rewrite lookup_ge_None_2 by (unfold log_size in *; lia).
      pose proof (connects_prefix _ _ _ _ _ Hex Hc) as Hpre. unfold log_size in Hend. rewrite Hend, Nat2Z.id in Hpre.
      rewrite Hpre. by apply take_ge.
    + destruct (round_stored a p f lsn n f1 a Hex ltac:(lia) Htp Hc ltac:(lia) Hlog Hcom)
        as (p1 & E2 & Hnew & Hfw & Hex' & Hc').
      rewrite E2, Hnew, decide_True by done. eapply exchange_more; [exact Hex|exact Hfw|].
      apply (IH p1 f1 (lsn + 1) (n + 1)); [done| |lia].
      left. split; [done|]. unfold rounds, log_size in *. rewrite (fw_log _ _ Hfw). destruct Hk as [[_ Hk]|Hk]; lia.
  - destruct (round_refused a p f lsn n f1 a Hex ltac:(lia) Htp Hc Hn0 Hlog Hcom) as (p1 & E2 & Hnew & Hfw & Hex').
    rewrite E2, Hnew, decide_True by done. eapply exchange_more; [exact Hex|exact Hfw|].
    apply (IH p1 f1 (lsn + 1) (n - 1)); [done| |lia].
    right. unfold rounds, log_size in *. rewrite (fw_log _ _ Hfw). destruct Hk as [[? _]|Hk]; [done|lia].
Qed.

(** C10: a follower catches up.  In a cluster of three, let the primary [p] have
    sent an AppendEntry to [a] and nothing else interfere.  Whatever the
    follower's log is, as long as it matches the primary's in the sense of
    [log_matching] and the primary has what the follower committed, the two
    reach, within twice the length of the log plus one rounds, the point where
    the primary has nothing more to send, without an exception; then the follower
    holds the primary's log, and the primary's log is unchanged and committed. *)
Theorem follower_catches_up a p f lsn n :
  exchanging a p f lsn n -> lsn + 2 * log_size p + 4 < INT_MAX ->
  exists p' f',
    exchange (Z.to_nat (2 * log_size p + 1)) a p f (SerializeToString (in_flight a lsn p)) = Some (p', f') /\
    log_of p' = log_of p /\ take (length (log_of p)) (log_of f') = log_of p /\ commit_index_ p' = log_size p - 1.
Proof.
  intros Hex Hroom. pose proof (exchanging_next _ _ _ _ _ Hex) as [Hn _].
  destruct (exchange_ok (Z.to_nat (2 * log_size p + 1)) a p f lsn n Hex) as (p' & f' & E & Hlog & Hfw & Hci & _);
    [right; lia|lia|].
  exists p', f'. split_and!; [done|apply Hfw|done..].
Qed.
End catch_up.

(** ** Witnesses *)

Module Witness.
Import ThreeServers.

(** A leads term 2 with a log whose second entry B has of another term; the
    AppendEntry in flight carries A's third entry. *)
Definition old_entry (term index : Z) (msg : string) : rpc_Entry :=
  {| en_term := term; en_index := index; en_msg := msg |}.
Definition p : Server := server (after
  [Elapse_candidate; Run; Elapse_candidate; Run; vote_reply B true 2 0;
   client_apply "x" 7; Elapse_retry B; Run] (boot A [old_entry 0 0 "a"; old_entry 0 1 "b"])).
Definition f : Server := server (boot B [old_entry 0 0 "a"; old_entry 1 1 "c"; old_entry 1 2 "d"]).

Lemma log_p : log_of p =
  [old_entry 0 0 "a"; old_entry 0 1 "b"; old_entry 2 2 (EasyStateMachine.build_apply_str "x" 7)].
Proof. vm_compute. reflexivity. Qed.
Lemma log_f : log_of f = [old_entry 0 0 "a"; old_entry 1 1 "c"; old_entry 1 2 "d"].
Proof. vm_compute. reflexivity. Qed.

Lemma setting_pf : setting B p f.
Proof.
  split; [vm_compute; reflexivity|vm_compute; reflexivity|vm_compute; congruence|vm_compute; reflexivity|
    split; vm_compute; reflexivity|split; vm_compute; reflexivity|vm_compute; reflexivity| |].
  - intros i e. rewrite log_p. intros He. destruct i as [|[|[|i]]]; cbn in He; by simplify_eq.
  - intros i e l He _. apply lookup_lt_Some in He. rewrite log_p in He. cbn in He. unfold ls_room. cbn. unfold INT_MAX. lia.
Qed.

Lemma sender_p : sender B p.
Proof.
  split; [vm_compute; reflexivity| | |vm_compute; eauto|vm_compute; reflexivity| |vm_compute; split; congruence].
  - split; [vm_compute; done|vm_compute; eauto|exists 2|exists 3|done]; (split; [vm_compute; reflexivity|]);
      vm_compute; split; congruence.
  - split; [split; vm_compute; try done; congruence|vm_compute; reflexivity|vm_compute; lia|vm_compute; reflexivity|].
    intros a i Hi. apply Z.ltb_lt. revert Hi. apply (map_all_lookup (fun _ i => i <? log_size p)).
    vm_compute. reflexivity.
  - intros a i Hi. apply Z.leb_le. revert Hi. apply (map_all_lookup (fun _ i => -1 <=? i)).
    vm_compute. reflexivity.
Qed.

Lemma receiver_pf : receiver p f 2 2.
Proof.
  split.
  - split; [split; vm_compute; try done; congruence|done].
  - vm_compute. split; congruence.
  - vm_compute. reflexivity.
  - rewrite log_p, log_f. intros i e1 e2 H1 H2. destruct i as [|[|[|i]]]; cbn in H1, H2; simplify_eq; done.
  - vm_compute. repeat split; congruence.
  - rewrite log_p, log_f. reflexivity.
Qed.

Lemma exchanging_pf : exchanging B p f 2 2.
Proof.
  split; [exact setting_pf|exact sender_p|exact receiver_pf|split; vm_compute; [done|congruence]|vm_compute; done].
Qed.

Lemma room : 2 + 2 * log_size p + 4 < INT_MAX.
Proof. vm_compute. reflexivity. Qed.

Lemma follower_catches_up_witness :
  exists p' f',
    exchange (Z.to_nat (2 * log_size p + 1)) B p f (SerializeToString (in_flight B 2 p)) = Some (p', f') /\
    log_of p' = log_of p /\ firstn (length (log_of p)) (log_of f') = log_of p /\
    commit_index_ p' = log_size p - 1.
Proof. exact (follower_catches_up B p f 2 2 exchanging_pf room). Defined.
End Witness.
End CatchUp.
