(* ===== verification/Election.v ===== *)
(** Elections: the answer to a vote request, that a server gives one vote a term
    unless the primary of the term spoke in between, that a primary was voted for
    by a majority, and that an undisturbed election succeeds. *)

From S2P Require Import Prelude CxxString Platform Messages Util Interfaces ThreadPool StateMachineControler RaftServer ServerFacts ServerSpecs Node Commit Replication ThreeServers.

Module Election.
Import StateMachineControler (StateMachineControler).
Export Replication.

(** ** The vote *)

Section vote.
Context {L N T : Type} {LS : LogStore L} {LL : LogStoreLaws L} {TR : Transport N}
  {TL : TransportLaws N} {DT : DeadlineTimer handler T} {DL : DeadlineTimerLaws handler T}
  {RD : Rand} {RL : RandLaws} {RC : RaftCodecs}.
Implicit Types (s : RaftServer L N T) (m : RequestVoteRpc).

Definition rv_sender m : server_addr := (rv_ip m, rv_port m).

(** The candidate's log is not behind: the code compares the term of the last
    entry with the term of the candidate itself, and only if they are equal the
    indexes. *)
Definition fresh_log m s : bool :=
  match last (log_of s) with
  | None => true
  | Some e => (en_term e <? rv_term m) ||
              ((en_term e =? rv_term m) && (en_index e <=? rv_latest_index m))
  end.

Inductive ballot :=
| Past_term        (** the candidate's term is over *)
| Known_lsn        (** the request was seen *)
| Not_follower     (** a candidate or primary of the same term *)
| Vote_spent       (** the vote of this term is given *)
| Log_behind
| Granted.

Definition rv_ballot m s : ballot :=
  let grown := term_ s <? rv_term m in
  if rv_term m <? term_ s then Past_term
  else if rv_lsn m <=? map_at 0 (rv_sender m) (follower_rpc_lsn_ (with_term (rv_term m) s)) then Known_lsn
  else if negb grown && negb (bool_decide (state_ s = follower)) then Not_follower
  else if negb grown && already_voted_ s then Vote_spent
  else if fresh_log m s then Granted
  else Log_behind.

(** The state in which the request is decided: a later term makes a follower. *)
Definition entered m s s1 : Prop :=
  if term_ s <? rv_term m then trans2F_post (rv_term m) s s1 else s1 = s.

(** The answer [vote] went out, and nothing else changed. *)
Definition answered (vote : bool) m s s' : Prop :=
  exists nw, s' = set_network_ nw s /\
    calls nw = calls (network_ s) ++
      [(RESP_VOTE, rv_sender m, SerializeToString (resp_rv_message vote (rv_lsn m) s))].

(** The server can answer [a]: its log is well formed, its answers fit a frame. *)
Record can_answer (a : server_addr) s : Prop := {
  cv_log : ls_ok (entries_ s);
  cv_fits : forall vote lsn term, call_fits a (SerializeToString
    {| rrv_ok := vote; rrv_term := term; rrv_lsn := lsn; rrv_ip := ip_ s; rrv_port := port_ s |});
}.

Lemma answer_ok vote text m s :
  can_answer (rv_sender m) s ->
  total (make_resp_rv vote text (rv_sender m) (rv_lsn m)) s (fun _ s' => answered vote m s s').
Proof.
  intros [_ Hfit]. unfold make_resp_rv. do 3 apply total_gets.
  destruct (call_val RESP_VOTE (rv_sender m) (SerializeToString (resp_rv_message vote (rv_lsn m) s)) s eq_refl)
    as (nw & E & Hn); [apply Hfit|].
  exists tt, (set_network_ nw s). split; [exact E|]. by exists nw.
Qed.

(** The comparison of the logs as the code makes it. *)
Lemma should_vote_ok m s :
  ls_ok (entries_ s) ->
  (let! size := on_entries ls_size in
   if size =? 0 then ret true
   else
     let! last := int_sub size 1 in
     let! lastEntry := on_entries (ls_get last) in
     if rv_term m <? en_term lastEntry then ret false
     else if en_term lastEntry <? rv_term m then ret true
     else if rv_latest_index m <? en_index lastEntry then ret false
     else ret true) s = (Val (fresh_log m s), s).
Proof.
  intros Hok. pose proof (ls_small _ Hok) as Hsm. fold (log_of s) in Hsm.
  rewrite (bind_val _ _ _ _ _ (size_ok s Hok)). unfold fresh_log. rewrite last_lookup.
  destruct (Z.eqb_spec (log_size s) 0) as [Hz|Hz]; unfold log_size in *.
  { rewrite lookup_ge_None_2 by lia. done. }
  destruct (lookup_lt_is_Some_2 (log_of s) (pred (length (log_of s)))) as [e He]; [lia|]. rewrite He.
  int_step. replace (pred (length (log_of s))) with (Z.to_nat (Z.of_nat (length (log_of s)) - 1)) in He by lia.
  assert (Hge : 0 <= Z.of_nat (length (log_of s)) - 1) by lia.
  rewrite (bind_val _ _ _ _ _ (log_get_ok s _ e Hok Hge He)).
  destruct (Z.ltb_spec (rv_term m) (en_term e)), (Z.ltb_spec (en_term e) (rv_term m)),
    (Z.eqb_spec (en_term e) (rv_term m)); try lia; try done. cbn.
  destruct (Z.ltb_spec (rv_latest_index m) (en_index e)), (Z.leb_spec (en_index e) (rv_latest_index m)); try lia; done.
Qed.

(** The function follows the decision. *)
Lemma react2rv_cases m s :
  can_answer (rv_sender m) s ->
  match rv_ballot m s with
  | Past_term => total (react2rv m) s (fun _ s' => answered false m s s')
  | Known_lsn => total (react2rv m) s (fun _ s' => exists s1, entered m s s1 /\
      s' = set_follower_rpc_lsn_ (map_touch 0 (rv_sender m) (follower_rpc_lsn_ s1)) s1)
  | Not_follower | Vote_spent | Log_behind => total (react2rv m) s (fun _ s' => exists s1, entered m s s1 /\
      answered false m (heard (rv_sender m) (rv_lsn m) s1) s')
  | Granted => total (react2rv m) s (fun _ s' => exists s1 s2, entered m s s1 /\
      answered true m (heard (rv_sender m) (rv_lsn m) s1) s2 /\ s' = set_already_voted_ true s2)
  end.
Proof.
  intros Hcan. unfold rv_ballot, react2rv. cbv zeta. fold (rv_sender m).
  assert (Hent : term_ s <= rv_term m ->
    total (if term_ s <? rv_term m then trans2F (rv_term m) else ret tt) s (fun _ s1 => entered m s s1)).
  { intros Hle. unfold entered. destruct (term_ s <? rv_term m); [by apply trans2F_ok|by apply total_ret]. }
  unfold total. rewrite !(bind_val _ _ _ _ _ (gets_val _ _)).
  destruct (Z.ltb_spec (rv_term m) (term_ s)) as [Hlt|Hle]; [by apply answer_ok|].
  destruct (Hent Hle) as ([] & s1 & E1 & H1). rewrite !(bind_val _ _ _ _ _ E1).
  pose proof (ignore_ok (rv_sender m) (rv_lsn m) s1) as Eig.
  assert (Hfl : follower_rpc_lsn_ s1 = follower_rpc_lsn_ (with_term (rv_term m) s)).
  { unfold entered in H1. destruct (Z.ltb_spec (term_ s) (rv_term m)) as [Hg|Hg].
    - apply (t2f_follower _ _ _ H1).
    - subst s1. unfold with_term. destruct (Z.ltb_spec (term_ s) (rv_term m)); [lia|done]. }
  rewrite <- Hfl. destruct (_ <=? _).
  { rewrite (bind_val _ _ _ _ _ Eig). do 2 eexists. split; [done|]. by exists s1. }
  rewrite !(bind_val _ _ _ _ _ Eig). set (s2 := heard _ _ s1).
  assert (Hlog : entries_ s2 = entries_ s /\ constants s2 = constants s).
  { unfold entered in H1. destruct (term_ s <? rv_term m); [|by subst s1].
    pose proof (core_eq _ _ (t2f_core _ _ _ H1)) as (Hc & _ & He & _). by split. }
  destruct Hlog as [He Hc].
  assert (Hcan2 : can_answer (rv_sender m) s2).
  { destruct Hcan as [Hok Hf]. apply constants_eq in Hc as (_ & Hip & Hport & _).
    split; [by rewrite He|]. intros. rewrite Hip, Hport. apply Hf. }
  assert (Hrole : (bool_decide (state_ s2 = candidate) || bool_decide (state_ s2 = primary)) =
    negb (term_ s <? rv_term m) && negb (bool_decide (state_ s = follower)) /\
    already_voted_ s2 = negb (term_ s <? rv_term m) && already_voted_ s).
  { unfold s2, entered in *. cbn. destruct (term_ s <? rv_term m).
    - rewrite (t2f_state _ _ _ H1), (t2f_voted _ _ _ H1). done.
    - subst s1. split; [|done]. by destruct (state_ s). }
  destruct Hrole as [Hst Hav]. rewrite !(bind_val _ _ _ _ _ (gets_val _ _)), Hst.
  assert (Hanswer : forall vote text, total (make_resp_rv vote text (rv_sender m) (rv_lsn m)) s2
    (fun _ s' => answered vote m s2 s')) by (intros; by apply answer_ok).
  assert (Hno : forall text, exists a s', make_resp_rv false text (rv_sender m) (rv_lsn m) s2 = (Val a, s') /\
    exists s0, entered m s s0 /\ answered false m (heard (rv_sender m) (rv_lsn m) s0) s').
  { intros text. destruct (Hanswer false text) as (a & s' & E & Ha). exists a, s'. split; [done|]. by exists s1. }
  destruct (negb _ && negb _); [apply Hno|].
  rewrite !(bind_val _ _ _ _ _ (gets_val _ _)), Hav. destruct (_ && already_voted_ s); cbn [negb]; [apply Hno|].
  rewrite <- bind_bind, (bind_val _ _ _ _ _ (should_vote_ok m s2 (cv_log _ _ Hcan2))).
  assert (Hf : fresh_log m s2 = fresh_log m s) by (unfold fresh_log, log_of; by rewrite He).
  rewrite Hf. destruct (fresh_log m s); [|apply Hno].
  destruct (Hanswer true "react2rv: A vote is send") as ([] & s3 & E & Ha).
  rewrite (bind_val _ _ _ _ _ E). do 2 eexists. split; [done|]. by exists s1, s3.
Qed.

Lemma ballot_entered m s : rv_ballot m s = Known_lsn -> term_ s <= rv_term m.
Proof. unfold rv_ballot. destruct (Z.ltb_spec (rv_term m) (term_ s)); [done|lia]. Qed.

Lemma granted_role m s s1 :
  rv_ballot m s = Granted -> entered m s s1 -> state_ s1 = follower /\ term_ s1 = rv_term m /\ already_voted_ s1 = false.
Proof.
  unfold rv_ballot, entered. destruct (Z.ltb_spec (rv_term m) (term_ s)); [done|].
  destruct (_ <=? _); [done|]. destruct (Z.ltb_spec (term_ s) (rv_term m)) as [Hlt|Hge].
  - intros _ []. done.
  - cbn. case_bool_decide; [|done]. destruct (already_voted_ s) eqn:Ea; [done|]. intros _ ->. split_and!; [done|lia|done].
Qed.

(** C16: the answer to a vote request, on every branch: which requests are granted,
    refused or ignored, that exactly one answer goes out unless the request was
    seen before, that a later term makes the server a follower first, and that
    granting marks the vote as given. *)
Theorem react2rv_spec m s :
  can_answer (rv_sender m) s ->
  match rv_ballot m s with
  | Past_term => total (react2rv m) s (fun _ s' => answered false m s s')
  | Known_lsn => total (react2rv m) s (fun _ s' =>
      core s' = core s /\ term_ s' = rv_term m)
  | Not_follower | Vote_spent | Log_behind => total (react2rv m) s (fun _ s' => exists s1, entered m s s1 /\
      answered false m (heard (rv_sender m) (rv_lsn m) s1) s')
  | Granted => total (react2rv m) s (fun _ s' => exists s1, entered m s s1 /\
      answered true m (heard (rv_sender m) (rv_lsn m) s1) (set_already_voted_ (already_voted_ s1) s') /\
      already_voted_ s' = true /\ state_ s' = follower /\ term_ s' = rv_term m)
  end.
Proof.
  intros Hcan. pose proof (react2rv_cases m s Hcan) as H. destruct (rv_ballot m s) eqn:Hb; try done.
  all: eapply total_mono; [exact H|]; intros [] s'; cbn beta.
  - intros (s1 & H1 & ->). unfold entered in H1. apply ballot_entered in Hb as Hle.
    destruct (Z.ltb_spec (term_ s) (rv_term m)) as [Hlt|Hge].
    + split; [exact (t2f_core _ _ _ H1)|exact (t2f_term _ _ _ H1)].
    + subst s1. split; [done|]. cbn. lia.
  - intros (s1 & s2 & H1 & (nw & -> & Hc) & ->). exists s1. split; [exact H1|]. split; [|split; [done|]].
    + exists nw. split; [by destruct s1|exact Hc].
    + cbn. destruct (granted_role m s s1 Hb H1) as (? & ? & _). done.
Qed.
End vote.

(** ** One vote a term *)

Section ballots.
Context {L N T : Type} {LS : LogStore L} {TR : Transport N} {TL : TransportLaws N}
  {DT : DeadlineTimer handler T} {DL : DeadlineTimerLaws handler T} {RD : Rand} {RL : RandLaws}
  {RC : RaftCodecs} {RCL : RaftCodecsLaws} {VCL : VoteCodecLaws}.
Implicit Types (s : RaftServer L N T).

(** The calls that grant a vote for the term [t], as their receiver reads them. *)
Definition is_vote (t : Z) (c : RPC_TYPE * server_addr * string) : bool :=
  match c with
  | (RESP_VOTE, _, bytes) =>
      let reply : Resp_RequestVoteRpc := ParseFromString bytes in rrv_ok reply && (rrv_term reply =? t)
  | _ => false
  end.
Definition votes_for (t : Z) s : list (RPC_TYPE * server_addr * string) :=
  filter (fun c => is_vote t c = true) (calls (network_ s)).

(** A step that gives no vote, and gives none back within a term. *)
Definition quiet s s' : Prop :=
  constants s' = constants s /\ (forall t, votes_for t s' = votes_for t s) /\
  (term_ s < term_ s' \/ (term_ s' = term_ s /\ already_voted_ s' = already_voted_ s)).

Lemma quiet_same s s' :
  constants s' = constants s -> network_ s' = network_ s ->
  (term_ s', already_voted_ s') = (term_ s, already_voted_ s) -> quiet s s'.
Proof.
  intros Hc Hn [= Ht Hv]. split_and!; [done| |by right]. intros t. unfold votes_for. by rewrite Hn.
Qed.

#[export] Instance quiet_preorder : PreOrder quiet.
Proof.
  split; unfold quiet.
  - intros s. split_and!; [done|done|by right].
  - intros s1 s2 s3 (C1 & V1 & T1) (C2 & V2 & T2). split_and!; [congruence|intros t; by rewrite V2|].
    destruct T1 as [?|[? ?]], T2 as [?|[? ?]]; [left; lia..|right; split; congruence].
Qed.

Lemma quiet_call t a m s :
  (forall t', is_vote t' (t, a, m) = false) -> quiet s (snd (on_network (make_rpc_call t a m) s)).
Proof.
  intros Hv. unfold on_network, zoom.
  pose proof (call_any t a m (network_ s)) as Hc. destruct (make_rpc_call t a m (network_ s)) as [r nw].
  split_and!; [done| |by right]. intros t'. unfold votes_for. cbn in *. destruct Hc as [-> | ->]; [done|].
  rewrite filter_app, (filter_cons_False _ (t, a, m) []) by (specialize (Hv t'); cbn in *; congruence).
  by rewrite app_nil_r.
Qed.

#[export] Instance appends_quiet : Appends quiet.
Proof. split. intros a m s. by apply quiet_call. Qed.
#[export] Instance commits_quiet : Commits quiet.
Proof. split; [intros; by apply quiet_same|]. intros i. apply stable_zoom. intros s []. by apply quiet_same. Qed.
#[export] Instance roles_quiet : Roles quiet.
Proof.
  split; [split|..]; try exact _; try (intros; by apply quiet_same);
    try (intros; apply stable_zoom; intros ? ?; by apply quiet_same).
  - intros t a m Ht _ s. apply quiet_call. by destruct t.
  - intros q a. apply stable_zoom. intros s []. by apply quiet_same.
  - intros t s. destruct (Z.le_gt_cases (term_ s) t) as [Hle|Hgt].
    + rewrite update_term_ok by done. unfold with_term. cbn [snd]. destruct (Z.ltb_spec (term_ s) t); [|reflexivity].
      split_and!; [done|done|by left].
    + unfold update_term, bind, gets. destruct (Z.ltb_spec (term_ s) t); [lia|].
      destruct (Z.eqb_spec (term_ s) t); [lia|reflexivity].
Qed.

Lemma quiet_trans2F t s : term_ s < t -> quiet s (snd (trans2F t s)).
Proof.
  intros Ht. destruct (trans2F_ok t s) as ([] & s' & E & H); [lia|]. rewrite E. cbn.
  pose proof (core_eq _ _ (t2f_core _ _ _ H)) as (Hc & Hn & _). pose proof (t2f_term _ _ _ H).
  split_and!; [done| |left; lia]. intros t'. unfold votes_for. by rewrite Hn.
Qed.

Lemma quiet_refusal text a lsn : stable quiet (make_resp_rv false text a lsn).
Proof.
  unfold make_resp_rv. repeat (apply stable_bind; [exact _|apply stable_gets; exact _|intros ?]).
  intros s. apply quiet_call. intros t'. cbn. by rewrite refusal_parsed.
Qed.

(** A vote for the term [tm] can be given, and was perhaps given. *)
Definition eligible (tm : Z) s : Prop :=
  term_ s < tm \/ (term_ s = tm /\ state_ s = follower /\ already_voted_ s = false).
Record cast {A} (tm : Z) s (o : res A * RaftServer L N T) : Prop := {
  cast_constants : constants (snd o) = constants s;
  cast_others t : t <> tm -> votes_for t (snd o) = votes_for t s;
  cast_once : (length (votes_for tm (snd o)) <= S (length (votes_for tm s)))%nat;
  cast_term : term_ (snd o) = tm;
  cast_role : state_ (snd o) = follower;
  cast_marked a : fst o = Val a -> already_voted_ (snd o) = true;
}.
Definition decides {A} (tm : Z) (m : M (RaftServer L N T) A) s : Prop :=
  quiet s (snd (m s)) \/ (eligible tm s /\ cast tm s (m s)).

Lemma decides_quiet {A} tm (m : M (RaftServer L N T) A) s : quiet s (snd (m s)) -> decides tm m s.
Proof. by left. Qed.

Lemma decides_bind {A B} tm (m : M (RaftServer L N T) A) (f : A -> M (RaftServer L N T) B) s :
  quiet s (snd (m s)) ->
  (forall a s', m s = (Val a, s') -> decides tm (f a) s' /\ (eligible tm s' -> eligible tm s)) ->
  decides tm (bind m f) s.
Proof.
  intros Hq Hf. unfold decides, bind in *. destruct (m s) as [[a| | |] s']; [|by left..].
  destruct (Hf a s' eq_refl) as [[Hq'|[He Hc]] Hel]; [left; cbn in Hq; by etrans|right].
  split; [by apply Hel|]. destruct Hq as (Hcon & Hv & _), Hc as [H1 H2 H3 H4 H5 H6]. cbn [snd] in *.
  split; try done; [congruence|intros t Ht; by rewrite H2, Hv|by rewrite <- Hv].
Qed.

(** The one call that votes. *)
Lemma decides_grant text a lsn s :
  utf8 (ip_ s) = true -> in_int (port_ s) = true -> in_int (term_ s) = true -> in_int lsn = true ->
  state_ s = follower -> already_voted_ s = false ->
  decides (term_ s) (make_resp_rv true text a lsn ;; modify (set_already_voted_ true)) s.
Proof.
  intros Hip Hport Ht Hlsn Hst Hv. right. split; [by right|].
  set (bytes := SerializeToString (resp_rv_message true lsn s)).
  assert (Hone : forall t, is_vote t (RESP_VOTE, a, bytes) = (term_ s =? t)).
  { intros t. unfold is_vote, bytes. rewrite parse_serialize; [done|].
    unfold wireable, wireable_resp_rv. cbn [resp_rv_message rrv_term rrv_lsn rrv_ip rrv_port]. by rewrite Ht, Hlsn, Hip, Hport. }
  pose proof (call_any RESP_VOTE a bytes (network_ s)) as Hc.
  assert (Hs : forall s', network_ s' = snd (make_rpc_call RESP_VOTE a bytes (network_ s)) ->
    (forall t, t <> term_ s -> votes_for t s' = votes_for t s) /\
    (length (votes_for (term_ s) s') <= S (length (votes_for (term_ s) s)))%nat).
  { intros s' Hn. unfold votes_for in *. rewrite Hn. destruct Hc as [-> | ->]; [split; [done|lia]|]. split.
    - intros t Hne. rewrite filter_app, (filter_cons_False _ (RESP_VOTE, a, bytes) []); [by rewrite app_nil_r|].
      rewrite Hone. destruct (Z.eqb_spec (term_ s) t); congruence.
    - rewrite filter_app, length_app. pose proof (length_filter (fun c => is_vote (term_ s) c = true) [(RESP_VOTE, a, bytes)]).
      cbn [length] in *. lia. }
  unfold make_resp_rv, bind, gets, on_network, zoom, modify. fold (resp_rv_message true lsn s). fold bytes.
  destruct (make_rpc_call RESP_VOTE a bytes (network_ s)) as [[u| | |] nw]; cbn [snd] in *;
    match goal with |- cast _ _ (_, ?s') => destruct (Hs s' eq_refl) as [H1 H2]; by split end.
Qed.

(** A call that leaves alone what a vote is about. *)
Abbreviation voteless := (same (fun s : RaftServer L N T => (constants s, network_ s, term_ s, (already_voted_ s, state_ s)))).

Lemma voteless_fields s s' : voteless s s' ->
  constants s' = constants s /\ network_ s' = network_ s /\ term_ s' = term_ s /\
  already_voted_ s' = already_voted_ s /\ state_ s' = state_ s.
Proof.
  intros Hm. destruct (proj1 (pair_equal_spec _ _ _ _) Hm) as [[[Hc Hn]%pair_equal_spec Ht]%pair_equal_spec [Hv Hs]%pair_equal_spec].
  done.
Qed.

Lemma decides_voteless {A B} tm (m : M (RaftServer L N T) A) (f : A -> M (RaftServer L N T) B) s :
  stable voteless m -> (forall a s', voteless s s' -> decides tm (f a) s') -> decides tm (bind m f) s.
Proof.
  intros Hm Hf. apply decides_bind.
  - destruct (voteless_fields _ _ (Hm s)) as (Hc & Hn & Ht & Hv & Hs). apply quiet_same; congruence.
  - intros a s' E. pose proof (Hm s) as Hs. rewrite E in Hs. cbn in Hs. split; [by apply Hf|].
    apply voteless_fields in Hs as (_ & _ & Ht & Hv & Hst). unfold eligible. by rewrite Ht, Hv, Hst.
Qed.

Lemma decides_react2rv m s :
  utf8 (ip_ s) = true -> in_int (port_ s) = true -> in_int (rv_term m) = true -> in_int (rv_lsn m) = true ->
  decides (rv_term m) (react2rv m) s.
Proof.
  intros Hip Hport Hterm Hlsn. unfold react2rv. cbv zeta.
  apply decides_bind; [reflexivity|]. intros t0 s0 [= <- <-]. split; [|done].
  destruct (Z.ltb_spec (rv_term m) (term_ s)) as [Hp|Hp]; [apply decides_quiet, quiet_refusal|].
  assert (Henter : quiet s (snd ((if term_ s <? rv_term m then trans2F (rv_term m) else ret tt) s)) /\
    partial (if term_ s <? rv_term m then trans2F (rv_term m) else ret tt) s (fun _ s1 => term_ s1 = rv_term m /\
      constants s1 = constants s /\ (eligible (rv_term m) s1 -> eligible (rv_term m) s))).
  { destruct (Z.ltb_spec (term_ s) (rv_term m)) as [Hlt|Hge].
    - split; [by apply quiet_trans2F|]. apply total_partial. eapply total_mono; [apply trans2F_ok; lia|].
      intros [] s1 H1. pose proof (core_eq _ _ (t2f_core _ _ _ H1)) as (Hc & _).
      split_and!; [apply H1|done|intros _; by left].
    - split; [reflexivity|]. apply partial_ret. split_and!; [lia|done..]. }
  destruct Henter as [Hq1 Ht1]. apply decides_bind; [done|]. intros [] s1 E1.
  apply Ht1 in E1 as (E1 & Hc1 & Hel1). split; [|done]. clear Hq1 Ht1 Hel1.
  apply constants_eq in Hc1 as (_ & Hip1 & Hport1 & _).
  apply decides_voteless; [intros s2; rewrite ignore_ok; by destruct (_ <=? _)|]. intros ign s2 H2.
  destruct ign; [by apply decides_quiet|].
  apply decides_bind; [reflexivity|]. intros ? ? [= <- <-]. split; [|done].
  destruct (bool_decide (state_ s2 = candidate) || bool_decide (state_ s2 = primary)) eqn:Hr;
    [apply decides_quiet, quiet_refusal|].
  assert (Hfol : state_ s2 = follower) by (destruct (state_ s2); done). clear Hr.
  apply decides_bind; [reflexivity|]. intros ? ? [= <- <-]. split; [|done].
  destruct (already_voted_ s2) eqn:Hv; cbn [negb]; [apply decides_quiet, quiet_refusal|].
  apply decides_voteless; [by apply stable_zoom|]. intros n s3 H3.
  apply decides_voteless.
  { destruct (n =? 0); [apply stable_ret; exact _|].
    apply stable_bind; [exact _|apply stable_int_sub; exact _|intros i].
    apply stable_bind; [exact _|by apply stable_zoom|intros e].
    repeat (apply stable_if; [apply stable_ret; exact _|]). apply stable_ret; exact _. }
  intros b s4 H4. destruct b; [|apply decides_quiet, quiet_refusal].
  assert (H : voteless s1 s4) by (unfold same in *; congruence).
  apply voteless_fields in H as (Hc4 & _ & Ht4 & _). apply constants_eq in Hc4 as (_ & Hip4 & Hport4 & _).
  assert (H' : voteless s2 s4) by (unfold same in *; congruence).
  apply voteless_fields in H' as (_ & _ & _ & Hv4 & Hs4).
  rewrite <- E1, <- Ht4. apply decides_grant; [congruence..|].
  congruence.
Qed.

(** *** Every other message, and the timers *)

Lemma quiet_react2ae m s : ae_term m <> term_ s -> quiet s (snd (react2ae m s)).
Proof.
  intros Hne. unfold react2ae. cbv zeta. destruct (1 <? _); [reflexivity|].
  rewrite (bind_val _ _ _ _ _ (gets_val _ _)).
  destruct (Z.ltb_spec (ae_term m) (term_ s)); [apply frame_make_resp_ae; exact _|].
  rewrite (bind_val _ _ _ _ _ (gets_val _ _)). destruct (_ && _); [reflexivity|].
  apply after_bind; [exact _|apply quiet_trans2F; lia|]. intros []. solve_frame.
Qed.

Lemma quiet_react2resp_ae m s : quiet s (snd (react2resp_ae m s)).
Proof.
  unfold react2resp_ae. cbv zeta. rewrite (bind_val _ _ _ _ _ (gets_val _ _)).
  destruct (Z.ltb_spec (term_ s) (rae_term m)); [by apply quiet_trans2F|].
  destruct (_ <? _); [reflexivity|].
  match goal with |- quiet s (snd (?f s)) => assert (Hf : stable quiet f) by solve_frame; apply Hf end.
Qed.

Lemma quiet_react2resp_rv m s : quiet s (snd (react2resp_rv m s)).
Proof.
  unfold react2resp_rv. cbv zeta. rewrite (bind_val _ _ _ _ _ (gets_val _ _)).
  destruct (Z.ltb_spec (term_ s) (rrv_term m)); [by apply quiet_trans2F|].
  destruct (_ <? _); [reflexivity|].
  match goal with |- quiet s (snd (?f s)) => assert (Hf : stable quiet f) by solve_frame; apply Hf end.
Qed.

(** Also an AppendEntry of the own term gives no vote, but it gives one back. *)
Definition lenient s s' : Prop :=
  constants s' = constants s /\ (forall t, votes_for t s' = votes_for t s) /\ term_ s <= term_ s'.

#[export] Instance lenient_preorder : PreOrder lenient.
Proof.
  split; unfold lenient; [done|]. intros s1 s2 s3 (C1 & V1 & T1) (C2 & V2 & T2).
  split_and!; [congruence|intros t; by rewrite V2|lia].
Qed.
Lemma quiet_lenient s s' : quiet s s' -> lenient s s'.
Proof. intros (Hc & Hv & Ht). split_and!; [done|done|]. destruct Ht as [?|[? _]]; lia. Qed.

Lemma lenient_react2ae m s : lenient s (snd (react2ae m s)).
Proof.
  destruct (decide (ae_term m = term_ s)) as [E|]; [|by apply quiet_lenient, quiet_react2ae].
  unfold react2ae. cbv zeta. destruct (1 <? _); [reflexivity|].
  rewrite (bind_val _ _ _ _ _ (gets_val _ _)).
  destruct (Z.ltb_spec (ae_term m) (term_ s)); [lia|].
  rewrite (bind_val _ _ _ _ _ (gets_val _ _)). destruct (_ && _); [reflexivity|].
  destruct (trans2F_ok (ae_term m) s) as ([] & s1 & E1 & H1); [lia|]. rewrite (bind_val _ _ _ _ _ E1).
  assert (Hl : lenient s s1).
  { pose proof (core_eq _ _ (t2f_core _ _ _ H1)) as (Hc & Hn & _). pose proof (t2f_term _ _ _ H1).
    split_and!; [done| |lia]. intros t'. unfold votes_for. by rewrite Hn. }
  etrans; [exact Hl|]. apply quiet_lenient.
  match goal with |- quiet s1 (snd (?f s1)) => assert (Hf : stable quiet f) by solve_frame; apply Hf end.
Qed.

Lemma quiet_message ty bytes peer s :
  ty <> REQUEST_VOTE -> (ty = APPEND_ENTRY -> ae_term (ParseFromString bytes) <> term_ s) ->
  quiet s (snd (reactToIncomingMsg ty bytes peer s)).
Proof.
  intros Hrv Hae. unfold reactToIncomingMsg. destruct ty; try done.
  - by apply quiet_react2ae, Hae.
  - apply quiet_react2resp_rv.
  - apply quiet_react2resp_ae.
  - apply frame_append_client; exact _.
  - apply frame_query; exact _.
Qed.

(** *** The invariant *)

(** At most one vote in every term. *)
Definition single s : Prop := forall t, (length (votes_for t s) <= 1)%nat.
(** Besides, none in a later term, and none in this term unless it is marked or
    given back; [led] are the terms whose primary was heard. *)
Record one_vote (led : list Z) s : Prop := {
  ov_addr : utf8 (ip_ s) = true /\ in_int (port_ s) = true;
  ov_single : single s;
  ov_later : forall t, term_ s < t -> votes_for t s = [];
  ov_marked : already_voted_ s = false -> term_ s ∉ led -> votes_for (term_ s) s = [];
}.

Lemma one_vote_quiet led s s' : quiet s s' -> one_vote led s -> one_vote led s'.
Proof.
  intros (Hc & Hv & Ht) [Ha He Hl Hm]. apply constants_eq in Hc as (_ & Hip & Hport & _).
  split; [by rewrite Hip, Hport|..].
  - intros t. rewrite Hv. apply He.
  - intros t Hlt. rewrite Hv. apply Hl. destruct Ht as [?|[? _]]; lia.
  - intros Hf Hn. rewrite Hv. destruct Ht as [Hlt|[E1 E2]]; [by apply Hl|]. rewrite E1 in *. apply Hm; congruence.
Qed.

Lemma one_vote_lenient led s s' :
  lenient s s' -> one_vote led s -> one_vote (term_ s :: led) s'.
Proof.
  intros (Hc & Hv & Ht) [Ha He Hl Hm]. apply constants_eq in Hc as (_ & Hip & Hport & _).
  split; [by rewrite Hip, Hport|..].
  - intros t. rewrite Hv. apply He.
  - intros t Hlt. rewrite Hv. apply Hl. lia.
  - intros Hf [Hne _]%not_elem_of_cons. rewrite Hv. apply Hl. lia.
Qed.

Lemma one_vote_mono led led' s : led ⊆ led' -> one_vote led s -> one_vote led' s.
Proof. intros Hs []. split; auto. Qed.

Lemma one_vote_cast {A} led tm s (o : res A * RaftServer L N T) :
  one_vote led s -> eligible tm s -> tm ∉ led -> cast tm s o ->
  single (snd o) /\ (forall a, fst o = Val a -> one_vote led (snd o)).
Proof.
  intros [Ha He Hl Hm] Hel Hled [Hc Ho H1 Ht Hst Hmark].
  assert (H0 : votes_for tm s = []).
  { destruct Hel as [Hlt|(<- & _ & Hv)]; [by apply Hl|by apply Hm]. }
  rewrite H0 in H1. cbn in H1.
  assert (Hs : single (snd o)).
  { intros t. destruct (decide (t = tm)) as [->|Hne]; [done|]. rewrite Ho by done. apply He. }
  split; [done|]. intros a Hval. apply constants_eq in Hc as (_ & Hip & Hport & _).
  split; [by rewrite Hip, Hport|done| |].
  - intros t Hlt. rewrite Ho by lia. apply Hl. destruct Hel as [?|[? _]]; lia.
  - intros Hf. specialize (Hmark a Hval). congruence.
Qed.
End ballots.

(** ** Runs *)

Section runs.
Context {L N T SM : Type} {LS : LogStore L} {TR : Transport N} {TL : TransportLaws N}
  {DT : DeadlineTimer handler T} {DL : DeadlineTimerLaws handler T} {RD : Rand} {RL : RandLaws}
  {RC : RaftCodecs} {RCL : RaftCodecsLaws} {VCL : VoteCodecLaws} {BS : BoostSplit} {SMC : StateMachine SM}.
Implicit Types (s : RaftServer L N T) (n : Node L N T SM).

(** C18: along every run, whatever arrives and expires and also if the run throws,
    the term never decreases and the identity and the configuration of the server
    stay as they are. *)
Theorem terms_only_grow ls n r n' :
  perform_all ls n = Some (r, n') ->
  term_ (server n) <= term_ (server n') /\ constants (server n') = constants (server n).
Proof.
  intros E. split; [exact (frame_runs (grows term_) _ _ _ _ (fun _ _ => Z.le_refl _) E)|].
  exact (frame_runs (same constants) _ _ _ _ (fun _ _ => eq_refl) E).
Qed.

(** The terms whose primary was heard along a run, and that no vote request for
    one of them comes afterwards. *)
Definition hears (l : label) (led : list Z) : list Z :=
  match l with
  | Deliver APPEND_ENTRY bytes _ => ae_term (ParseFromString bytes) :: led
  | _ => led
  end.
Definition in_time (led : list Z) (l : label) : bool :=
  match l with
  | Deliver REQUEST_VOTE bytes _ => negb (bool_decide (rv_term (ParseFromString bytes) ∈ led))
  | _ => true
  end.
Definition led_after (ls : list label) (led : list Z) : list Z := fold_left (fun led l => hears l led) ls led.
Fixpoint timely (led : list Z) (ls : list label) : bool :=
  match ls with
  | [] => true
  | l :: ls' => in_time led l && timely (hears l led) ls'
  end.

(** What a step does to the votes: nothing, or it decides a request, or it hears
    the primary of the term. *)
Lemma step_votes l n r n' :
  utf8 (ip_ (server n)) = true -> in_int (port_ (server n)) = true -> perform l n = Some (r, n') ->
  quiet (server n) (server n') \/
  (exists bytes peer, let tm := rv_term (ParseFromString bytes) in l = Deliver REQUEST_VOTE bytes peer /\
     eligible tm (server n) /\ cast tm (server n) (r, server n')) \/
  (exists bytes peer, l = Deliver APPEND_ENTRY bytes peer /\ ae_term (ParseFromString bytes) = term_ (server n) /\
     lenient (server n) (server n')).
Proof.
  intros Hip Hport E.
  assert (Hl : (exists t m a, l = Deliver t m a) \/ ~ (exists t m a, l = Deliver t m a))
    by (destruct l; [left; eauto|right; intros (? & ? & ? & ?); discriminate..]).
  destruct Hl as [(t & m & a & ->)|Hno].
  2: { left. apply (roles_perform quiet l n r n'); [intros; by apply quiet_same| |done].
       intros t m a ->. exfalso. eauto. }
  cbn in E. unfold on_server in E.
  destruct (decide (t = REQUEST_VOTE)) as [->|Hrv].
  - destruct (parsed_vote_request m) as [Ht Hlsn].
    pose proof (decides_react2rv (ParseFromString m) (server n) Hip Hport Ht Hlsn) as [Hq|[He Hc]];
      unfold reactToIncomingMsg in E; destruct (react2rv _ (server n)) as [r1 s1]; simplify_eq/=; [by left|].
    right; left. by exists m, a.
  - destruct (decide (t = APPEND_ENTRY /\ ae_term (ParseFromString m) = term_ (server n))) as [[-> Ht]|Hno].
    + right; right. exists m, a. split_and!; [done|done|].
      pose proof (lenient_react2ae (ParseFromString m) (server n)) as H.
      unfold reactToIncomingMsg in E. destruct (react2ae _ (server n)) as [r1 s1]. by simplify_eq/=.
    + left. pose proof (quiet_message t m a (server n) Hrv) as H.
      destruct (reactToIncomingMsg t m a (server n)) as [r1 s1]. simplify_eq/=. apply H. intros -> Ht. by apply Hno.
Qed.

Lemma hears_subseteq l led : led ⊆ hears l led.
Proof. destruct l as [[]| | | | | | |]; set_solver. Qed.

Lemma one_vote_step led l n r n' :
  one_vote led (server n) -> in_time led l = true -> perform l n = Some (r, n') ->
  single (server n') /\ (forall u, r = Val u -> one_vote (hears l led) (server n')).
Proof.
  intros Ho Hin E. destruct (step_votes l n r n' (proj1 (ov_addr _ _ Ho)) (proj2 (ov_addr _ _ Ho)) E)
    as [Hq|[(bytes & peer & -> & He & Hc)|(bytes & peer & -> & Ht & Hl)]].
  - pose proof (one_vote_quiet _ _ _ Hq Ho) as H. split; [apply H|]. intros u _.
    eapply one_vote_mono; [apply hears_subseteq|done].
  - cbn in Hin. apply negb_true_iff, bool_decide_eq_false in Hin.
    exact (one_vote_cast led _ (server n) (r, server n') Ho He Hin Hc).
  - pose proof (one_vote_lenient _ _ _ Hl Ho) as H. split; [apply H|]. intros u _. cbn [hears]. by rewrite Ht.
Qed.

Lemma one_vote_run led ls n r n' :
  one_vote led (server n) -> timely led ls = true -> perform_all ls n = Some (r, n') -> single (server n').
Proof.
  revert led n. induction ls as [|l ls IH]; intros led n Ho Hin E; cbn in *; [simplify_eq; apply Ho|].
  apply andb_prop in Hin as [Hl Hls].
  destruct (perform l n) as [[r1 n1]|] eqn:E1; [|done].
  destruct (one_vote_step _ _ _ _ _ Ho Hl E1) as [H1 H2].
  destruct r1; [exact (IH _ n1 (H2 _ eq_refl) Hls E)|..]; destruct ls; by simplify_eq.
Qed.

Lemma one_vote_start ip port path content entries network sm seed n :
  start ip port path content entries network sm seed = Some (Val tt, n) ->
  calls network = [] -> utf8 ip = true -> in_int port = true -> one_vote [] (server n).
Proof.
  intros (_ & Hn & Hip & Hport & _)%start_smc Hc Hu Hp.
  assert (Hv : forall t, votes_for t (server n) = []) by (intros; unfold votes_for; by rewrite Hn, Hc).
  split.
  - by rewrite Hip, Hport.
  - intros t'. rewrite Hv. cbn. lia.
  - intros t' _. apply Hv.
  - intros _ _. apply Hv.
Qed.

(** C8: a server gives at most one vote a term.  From the start of the process,
    along every run, also one that throws, in which no vote request of a term
    arrives after an AppendEntry of that term, the calls of the server grant at
    most one vote for every term. *)
Theorem one_vote_per_term ip port path content entries network sm seed n ls r n' t :
  start ip port path content entries network sm seed = Some (Val tt, n) ->
  calls network = [] -> utf8 ip = true -> in_int port = true ->
  timely [] ls = true -> perform_all ls n = Some (r, n') ->
  (length (votes_for t (server n')) <= 1)%nat.
Proof.
  intros Es Hc Hu Hp Hin E. by eapply one_vote_run; [eapply one_vote_start|..].
Qed.

(** *** Majorities *)

(** A vote for the term [t] arrives. *)
Definition vote_arrives (t : Z) (l : label) : bool :=
  match l with
  | Deliver RESP_VOTE bytes _ =>
      let reply : Resp_RequestVoteRpc := ParseFromString bytes in rrv_ok reply && (rrv_term reply =? t)
  | _ => false
  end.
Definition votes_arrived (t : Z) (ls : list label) : Z :=
  Z.of_nat (length (filter (fun l => vote_arrives t l = true) ls)).

Definition role_of s := (state_ s, (term_ s, majority_ s), winned_votes_ s).

#[export] Instance appends_role : Appends (same role_of).
Proof. split. intros a m. by apply stable_zoom. Qed.
#[export] Instance commits_role : Commits (same role_of).
Proof. split; [done|]. intros i. apply stable_zoom. by intros ? []. Qed.
#[export] Instance calm_role : Calm (same role_of).
Proof.
  split; try exact _; try done; try (intros; apply stable_zoom; by intros ? []); intros; by apply stable_zoom.
Qed.

Lemma partial_calm {A} (m : M (RaftServer L N T) A) s :
  stable (same role_of) m -> partial m s (fun _ s' => role_of s' = role_of s).
Proof. intros Hm a s' E. specialize (Hm s). by rewrite E in Hm. Qed.

(** What a step may do to the role, but for a vote that arrives: nothing, or a
    step down, with a later term or because the primary of this one was heard, or
    a new candidacy in a later term, with one vote. *)
Definition role_step (heard_primary : Prop) s s' : Prop :=
  role_of s' = role_of s \/
  (state_ s' = follower /\ (term_ s < term_ s' \/ heard_primary)) \/
  (state_ s' = candidate /\ winned_votes_ s' = 1 /\ term_ s < term_ s').

Lemma role_step_calm h s s' s'' : role_step h s s' -> role_of s'' = role_of s' -> role_step h s s''.
Proof.
  unfold role_step. intros H E. rewrite E. injection E as E1 E2 _ E4. by rewrite E1, E2, E4.
Qed.

Lemma trans2F_role t s :
  term_ s <= t -> partial (trans2F t) s (fun _ s' => state_ s' = follower /\ term_ s' = t).
Proof. intros Ht. apply total_partial. eapply total_mono; [by apply trans2F_ok|]. intros [] s' []. done. Qed.

Lemma trans2C_role s : partial trans2C s (fun _ s' => state_ s' = candidate /\ winned_votes_ s' = 1 /\ term_ s < term_ s').
Proof.
  unfold trans2C, cancel_all_timers. do 2 (apply partial_bind; intros ? ? [= <- <-]).
  apply partial_bind. intros next s1 [-> ->]%int_add_val. set (s2 := set_retry_timers_ _ _).
  apply partial_bind. intros [] s3 E3. rewrite update_term_ok in E3 by (change (term_ s2) with (term_ s); lia). injection E3 as <-.
  do 2 (apply partial_bind; intros ? ? [= <- <-]).
  eapply partial_mono; [apply partial_calm; solve_frame|]. cbn. intros [] s9 [= E1 E2 _ E4].
  split_and!; [done|done|]. rewrite E2. unfold with_term. change (term_ s2) with (term_ s).
  destruct (Z.ltb_spec (term_ s) (term_ s + 1)); cbn; lia.
Qed.

Lemma trans2P_role s :
  partial trans2P s (fun _ s' => state_ s' = primary /\ term_ s' = term_ s /\ majority_ s' = majority_ s).
Proof.
  unfold trans2P. do 2 (apply partial_bind; intros ? ? [= <- <-]).
  eapply partial_mono; [apply partial_calm; solve_frame|]. cbn. intros _ s9 [= E1 E2 E3 _]. by split_and!.
Qed.

Lemma handler_role h e s : partial (run_handler h e) s (fun _ s' => role_step False s s').
Proof.
  assert (Hret : forall s, partial (ret tt) s (fun _ s' => role_step False s s')) by (intros; apply partial_ret; by left).
  assert (Hthrow : forall f l w s (Q : unit -> RaftServer L N T -> Prop), partial (throw_line f l w) s Q) by done.
  assert (HC : forall s, partial trans2C s (fun _ s' => role_step False s s')).
  { intros s0. eapply partial_mono; [apply trans2C_role|]. intros [] s' H. by right; right. }
  assert (Hcalm : forall (m : M (RaftServer L N T) unit) s, stable (same role_of) m -> partial m s (fun _ s' => role_step False s s')).
  { intros m s0 Hm. eapply partial_mono; [by apply partial_calm|]. intros [] s' H. by left. }
  unfold run_handler, candidate_expired_at_min, retry_expired_at_min, timer_error.
  destruct h, e; try apply Hret; try apply Hthrow;
    first [ apply partial_bind; intros c s1 [= <- <-]; destruct (expires_at_min _);
            first [apply Hret|apply Hthrow|apply HC]
          | apply Hcalm; solve_frame ].
Qed.

Lemma partial_throw_line {A} f l w s (Q : A -> RaftServer L N T -> Prop) : partial (throw_line f l w) s Q.
Proof. done. Qed.

(** A call that starts by becoming a follower, then calm. *)
Lemma follow_role {A} h t (f : unit -> M (RaftServer L N T) A) s :
  term_ s <= t -> (term_ s < t \/ h) -> (forall u, stable (same role_of) (f u)) ->
  partial (bind (trans2F t) f) s (fun _ s' => role_step h s s').
Proof.
  intros Ht Hh Hf. apply partial_bind. eapply partial_mono; [by apply trans2F_role|]. intros u s1 [H1 H2].
  eapply partial_mono; [by apply partial_calm|]. intros a s2 [= E1 E2 _ _]. right; left.
  split; [congruence|]. rewrite E2, H2. done.
Qed.

Lemma calm_step {A} h (m : M (RaftServer L N T) A) s :
  stable (same role_of) m -> partial m s (fun _ s' => role_step h s s').
Proof. intros Hm. eapply partial_mono; [by apply partial_calm|]. intros a s' H. by left. Qed.

Lemma react2ae_role m s : partial (react2ae m) s (fun _ s' => role_step (ae_term m = term_ s) s s').
Proof.
  unfold react2ae. cbv zeta. destruct (1 <? _); [apply partial_throw_line|].
  apply partial_bind. intros t s1 [= <- <-].
  destruct (Z.ltb_spec (ae_term m) (term_ s)); [apply calm_step; solve_frame|].
  apply partial_bind. intros st s1 [= <- <-]. destruct (_ && _); [apply partial_throw_line|].
  apply follow_role; [lia|lia|]. intros u. solve_frame.
Qed.

Lemma react2rv_role m s : partial (react2rv m) s (fun _ s' => role_step False s s').
Proof.
  unfold react2rv. cbv zeta. apply partial_bind. intros t s1 [= <- <-].
  assert (Hresp : forall v c a l, stable (same role_of) (make_resp_rv (L := L) (N := N) (T := T) v c a l)).
  { intros. unfold make_resp_rv. repeat (apply stable_bind; [exact _|apply stable_gets; exact _|intros ?]).
    by apply stable_zoom. }
  destruct (Z.ltb_spec (rv_term m) (term_ s)); [by apply calm_step|].
  match goal with |- partial (bind _ ?f) _ _ => assert (Hf : forall u, stable (same role_of) (f u)) end.
  { intros u. repeat first [apply Hresp | progress solve_frame]. }
  destruct (Z.ltb_spec (term_ s) (rv_term m)); [by apply follow_role; [lia|left; lia|]|].
  apply calm_step. apply stable_bind; [exact _|apply stable_ret; exact _|exact Hf].
Qed.

Lemma react2resp_ae_role m s : partial (react2resp_ae m) s (fun _ s' => role_step False s s').
Proof.
  unfold react2resp_ae. cbv zeta. apply partial_bind. intros t s1 [= <- <-].
  destruct (Z.ltb_spec (term_ s) (rae_term m)).
  - eapply partial_mono; [apply trans2F_role; lia|]. intros u s' [H1 H2]. right; left. split; [done|lia].
  - apply calm_step. solve_frame.
Qed.

(** A reply to a vote request, besides: a vote of this term counts. *)
Definition vote_step (m : Resp_RequestVoteRpc) s s' : Prop :=
  role_step False s s' \/
  (rrv_ok m && (rrv_term m =? term_ s) = true /\ state_ s = candidate /\ term_ s' = term_ s /\
   ((state_ s' = candidate /\ winned_votes_ s' = winned_votes_ s + 1) \/
    (state_ s' = primary /\ majority_ s' = majority_ s /\ majority_ s <= winned_votes_ s + 1))).

Lemma react2resp_rv_role m s : partial (react2resp_rv m) s (fun _ s' => vote_step m s s').
Proof.
  unfold react2resp_rv. cbv zeta. apply partial_bind. intros t s1 [= <- <-].
  assert (Hsame : forall s' : RaftServer L N T, role_of s' = role_of s -> vote_step m s s') by (intros; by left; left).
  destruct (Z.ltb_spec (term_ s) (rrv_term m)).
  { eapply partial_mono; [apply trans2F_role; lia|]. intros u s' [H1 H2]. left; right; left. split; [done|lia]. }
  destruct (Z.ltb_spec (rrv_term m) (term_ s)); [apply partial_ret; by apply Hsame|].
  apply partial_bind. intros st s1 [= <- <-]. case_bool_decide as Hc; [|apply partial_ret; by apply Hsame].
  unfold candidate_deal_resp_rv_with_same_term. apply partial_bind.
  eapply partial_mono; [apply (partial_calm (current_rpc_lsn_at _)); solve_frame|]. intros l s2 E2.
  apply partial_bind. eapply partial_mono; [apply partial_calm, stable_int_add; exact _|]. intros x s3 E3.
  assert (E : role_of s3 = role_of s) by congruence. clear E2 E3 s2.
  destruct (negb _); [apply partial_ret; by apply Hsame|].
  destruct (rrv_ok m) eqn:Hok; [|apply partial_ret; by apply Hsame].
  apply partial_bind. intros v ? [= <- <-]. apply partial_bind. intros v' s4 Ev.
  apply int_add_val in Ev as [-> ->].
  apply partial_bind. intros ? ? [= <- <-]. apply partial_bind. intros mj s5 [= <- <-].
  injection E as E1 E2 E3 E4. cbn [majority_ set_winned_votes_].
  assert (Hterm : true && (rrv_term m =? term_ s) = true) by (apply andb_true_iff; split; [done|lia]).
  destruct (Z.leb_spec (majority_ s3) (winned_votes_ s3 + 1)).
  - eapply partial_mono; [apply trans2P_role|]. cbn. intros u s' (G1 & G2 & G3). right. rewrite Hok.
    split_and!; [done|done|congruence|]. right. split_and!; [done|congruence|]. rewrite <- E3, <- E4. done.
  - eapply partial_mono; [apply partial_calm; solve_frame|]. cbn. intros u s' [= G1 G2 G3 G4]. right. rewrite Hok.
    split_and!; [done|done|congruence|]. left. split; [congruence|]. rewrite <- E4. exact G4.
Qed.

(** The votes of a candidate, and those that made a primary, have arrived. *)
Definition tally (ls : list label) s : Prop :=
  (state_ s = candidate -> winned_votes_ s <= 1 + votes_arrived (term_ s) ls) /\
  (state_ s = primary -> majority_ s <= 1 + votes_arrived (term_ s) ls).

Lemma votes_arrived_snoc t ls l :
  votes_arrived t (ls ++ [l]) = votes_arrived t ls + (if vote_arrives t l then 1 else 0).
Proof.
  unfold votes_arrived. rewrite filter_app, length_app, filter_cons.
  destruct (decide _), (vote_arrives t l); try congruence; cbn; lia.
Qed.

Lemma tally_role h ls l s s' : tally ls s -> role_step h s s' -> tally (ls ++ [l]) s'.
Proof.
  unfold tally. rewrite !votes_arrived_snoc. assert (0 <= votes_arrived (term_ s') ls) by (unfold votes_arrived; lia).
  assert (0 <= if vote_arrives (term_ s') l then 1 else 0) by (destruct (vote_arrives _ _); lia).
  intros [Hc Hp] [[= E1 E2 E3 E4]|[[E1 _]|(E1 & E2 & _)]]; rewrite E1 in *; split; intros Hs; try done.
  - rewrite E4, E2. specialize (Hc Hs). rewrite E2 in *. lia.
  - rewrite E3, E2. specialize (Hp Hs). rewrite E2 in *. lia.
  - lia.
Qed.

Lemma tally_vote ls bytes peer s s' :
  tally ls s -> vote_step (ParseFromString bytes) s s' -> tally (ls ++ [Deliver RESP_VOTE bytes peer]) s'.
Proof.
  intros Ht [Hr|(Hv & Hs & Et & Hcase)]; [by eapply tally_role|].
  unfold tally. rewrite votes_arrived_snoc, Et. cbn [vote_arrives]. rewrite Hv.
  destruct Ht as [Hc _]. specialize (Hc Hs).
  destruct Hcase as [[E1 E2]|(E1 & E2 & Hm)]; rewrite E1; split; intros; try done; lia.
Qed.

(** What a step that returns does to the role. *)
Lemma step_role l n n' :
  perform l n = Some (Val tt, n') ->
  role_step (exists bytes peer, l = Deliver APPEND_ENTRY bytes peer /\ ae_term (ParseFromString bytes) = term_ (server n))
    (server n) (server n') \/
  exists bytes peer, l = Deliver RESP_VOTE bytes peer /\ vote_step (ParseFromString bytes) (server n) (server n').
Proof.
  intros E. set (h := exists bytes peer, _).
  assert (Hmono : forall h' : Prop, (h' -> h) -> role_step h' (server n) (server n') -> role_step h (server n) (server n')).
  { intros h' Hi [?|[[? [?|?]]|?]]; [by left|right; left; split; [done|by left]|right; left; split; [done|right; by apply Hi]|by right; right]. }
  destruct l as [t m a| | |a|i|i|i|i]; cbn in E; unfold on_server in E.
  - destruct (reactToIncomingMsg t m a (server n)) as [r s'] eqn:Em. simplify_eq/=.
    unfold reactToIncomingMsg, get_from_state_machine in Em.
    destruct t; [left; apply react2rv_role in Em|left; apply react2ae_role in Em|right; exists m, a; split; [done|by apply react2resp_rv_role in Em]|
      left; apply react2resp_ae_role in Em|left..].
    1, 3: by apply (Hmono False).
    1: apply (Hmono (ae_term (ParseFromString m) = term_ (server n))); [intros Ht; by exists m, a|done].
    all: refine (calm_step h _ _ _ _ _ Em); solve_frame.
  - destruct (ready n) as [|c cs]; [done|]. cbn in E. destruct (run_completion c (server n)) as [r s'] eqn:Em.
    simplify_eq/=. left. destruct c as [hd|p]; [apply (Hmono False); [done|exact (handler_role _ _ _ _ _ Em)]|].
    apply (calm_step h (run_posted p) (server n)) in Em; [exact Em|].
    destruct p; [exact (frame_resp_apply _ _ _)|exact (frame_resp_query _ _ _)].
  - destruct (waits _); simplify_eq/=; by left; left.
  - destruct (retry_timers_ _ !! _) as [t|]; [|done]. destruct (waits t); simplify_eq/=; by left; left.
  - destruct (ThreadPool.wake _ _); simplify_eq/=; by left; left.
  - destruct (ThreadPool.finish _ _) as [[]|]; [|done]. destruct (StateMachineControler.run_apply_task _ _). simplify_eq/=; by left; left.
  - destruct (ThreadPool.wake _ _); simplify_eq/=; by left; left.
  - destruct (ThreadPool.finish _ _) as [[]|]; [|done]. destruct (StateMachineControler.run_query_task _ _). simplify_eq/=; by left; left.
Qed.

Lemma tally_step ls l n n' :
  tally ls (server n) -> perform l n = Some (Val tt, n') -> tally (ls ++ [l]) (server n').
Proof.
  intros Ht E. destruct (step_role l n n' E) as [Hr|(bytes & peer & -> & Hv)]; [by eapply tally_role|by eapply tally_vote].
Qed.

Lemma tally_run pre ls n n' :
  tally pre (server n) -> perform_all ls n = Some (Val tt, n') -> tally (pre ++ ls) (server n').
Proof.
  revert pre n. induction ls as [|l ls IH]; intros pre n Ht E; cbn in E; [simplify_eq; by rewrite app_nil_r|].
  destruct (perform l n) as [[r1 n1]|] eqn:E1; [|done].
  rewrite cons_middle, app_assoc. destruct r1 as [[]| | |]; [|destruct ls; done..].
  apply (IH _ n1); [|exact E]. by eapply tally_step.
Qed.

(** C12: who is primary was voted for.  From the start of the process, along every
    run that returns, a server that is primary has received, for the term it is
    in, positive answers to vote requests that make a majority together with its
    own vote. *)
Theorem primary_has_majority ip port path content entries network sm seed n ls n' :
  start ip port path content entries network sm seed = Some (Val tt, n) ->
  perform_all ls n = Some (Val tt, n') -> state_ (server n') = primary ->
  majority_ (server n') <= 1 + votes_arrived (term_ (server n')) ls.
Proof.
  intros Es E Hp. apply (tally_run [] ls n n'); [|done|done].
  apply start_smc in Es as (_ & _ & _ & _ & Es). unfold tally. rewrite Es. done.
Qed.
End runs.

(** ** An undisturbed election *)

Section success.
Context {L N T : Type} {LS : LogStore L} {LL : LogStoreLaws L} {TR : Transport N}
  {TL : TransportLaws N} {DT : DeadlineTimer handler T} {DL : DeadlineTimerLaws handler T}
  {RD : Rand} {RL : RandLaws} {RC : RaftCodecs} {RCL : RaftCodecsLaws}.
Implicit Types (s f : RaftServer L N T).

(** The waits on the election timer. *)
Definition elects (h : handler) : bool :=
  match h with H_run | H_trans2F | H_trans2C => true | _ => false end.

Lemma timeout_ok h s :
  elects h = true -> expires_at_min (candidate_timer_ s) = false -> can_elect s ->
  total (run_handler h no_error) s (fun _ s' => trans2C_post s s').
Proof.
  intros Hh Hx Hc. unfold run_handler, candidate_expired_at_min.
  destruct h; try done; apply total_gets; rewrite Hx; by apply trans2C_ok.
Qed.

(** The heartbeat of the primary that [s] is about to become. *)
Definition first_heartbeat s : AppendEntryRpc :=
  {| ae_term := term_ s + 1; ae_prelog_term := term_at s (log_size s - 1); ae_commit_index := commit_index_ s;
     ae_lsn := 1; ae_ip := ip_ s; ae_port := port_ s; ae_entry := []; ae_prelog_index := log_size s - 1 |}.

(** [f] can vote for [s], should [s] stand for election. *)
Record can_vote_for s f : Prop := {
  vf_answer : can_answer (ip_ s, port_ s) f;
  vf_term : term_ f <= term_ s;
  vf_known : (ip_ s, port_ s) ∈ configuration_ f;
  vf_fresh : fresh_log (election_message s) f = true;
  vf_wire : utf8 (ip_ f) = true /\ in_int (port_ f) = true;
}.

Lemma vote_ok s f peer :
  can_vote_for s f -> wireable (election_message s) = true -> term_ s < INT_MAX ->
  total (reactToIncomingMsg REQUEST_VOTE (SerializeToString (election_message s)) peer) f (fun _ f1 =>
    calls (network_ f1) = calls (network_ f) ++ [(RESP_VOTE, (ip_ s, port_ s), SerializeToString
      {| rrv_ok := true; rrv_term := term_ s + 1; rrv_lsn := 0; rrv_ip := ip_ f; rrv_port := port_ f |})] /\
    term_ f1 = term_ s + 1 /\ state_ f1 = follower /\ already_voted_ f1 = true).
Proof.
  intros [Hans Ht Hk Hf _] Hw Hmax. unfold reactToIncomingMsg. rewrite parse_serialize by done.
  set (m := election_message s) in *. assert (Htm : rv_term m = term_ s + 1) by done.
  assert (Hgrown : (term_ f <? rv_term m) = true) by lia.
  assert (Hb : rv_ballot m f = Granted).
  { unfold rv_ballot. rewrite Hgrown, Hf. cbn [negb andb].
    destruct (Z.ltb_spec (rv_term m) (term_ f)); [lia|]. unfold with_term. rewrite Hgrown. cbn.
    unfold map_at. rewrite lookup_fill, decide_True by done. done. }
  pose proof (react2rv_cases m f Hans) as H. rewrite Hb in H. eapply total_mono; [exact H|].
  intros [] f' (s1 & s2 & H1 & (nw & -> & Hc) & ->). destruct (granted_role m f s1 Hb H1) as (Hst & Ht1 & _).
  unfold entered in H1. rewrite Hgrown in H1. pose proof (core_eq _ _ (t2f_core _ _ _ H1)) as (Hcst & Hn & _).
  apply constants_eq in Hcst as (_ & Hip & Hport & _). split_and!; [|cbn; lia|done|done].
  cbn. rewrite Hc. unfold resp_rv_message, heard. cbn. by rewrite Hn, Hip, Hport, Ht1.
Qed.

Lemma win_ok s s1 a peer :
  can_elect s -> trans2C_post s s1 -> majority_ s = 2 -> a ∈ others s (configuration_ s) ->
  utf8 (fst a) = true -> in_int (snd a) = true ->
  (forall b, b ∈ others s (configuration_ s) -> call_fits b (SerializeToString (first_heartbeat s))) ->
  total (reactToIncomingMsg RESP_VOTE (SerializeToString
    {| rrv_ok := true; rrv_term := term_ s + 1; rrv_lsn := 0; rrv_ip := fst a; rrv_port := snd a |}) peer) s1
    (fun _ s2 => state_ s2 = primary /\ term_ s2 = term_ s + 1 /\ entries_ s2 = entries_ s /\
      calls (network_ s2) = calls (network_ s1) ++
        map (fun b => (APPEND_ENTRY, b, SerializeToString (first_heartbeat s))) (others s (configuration_ s))).
Proof.
  intros [Hok Hnd Ht Htm _] [Hc He Hsame H1 H2 H3 _ _ _ Hlsn Hretry] Hmaj Ha Hu Hp Hfit.
  apply constants_eq in Hc as Hcst. destruct Hcst as (Hconf & Hip & Hport & _ & Hmj).
  assert (Hoth : others s1 (configuration_ s1) = others s (configuration_ s)) by (rewrite Hconf; by apply others_port).
  unfold reactToIncomingMsg. rewrite parse_serialize.
  2:{ unfold wireable, wireable_resp_rv. cbn [rrv_term rrv_lsn rrv_ip rrv_port]. rewrite Hu, Hp.
      rewrite (proj2 (in_int_iff _)) by (unfold INT_MIN, INT_MAX in *; lia). done. }
  unfold react2resp_rv. cbv zeta. cbn [rrv_term rrv_lsn rrv_ip rrv_port]. apply total_gets. rewrite H1, !Z.ltb_irrefl.
  apply total_gets. rewrite H2. cbn [bool_decide]. rewrite bool_decide_true by done.
  unfold candidate_deal_resp_rv_with_same_term. cbn [rrv_ok rrv_lsn]. destruct a as [ip port]. cbn [fst snd] in *.
  assert (Hain : (ip, port) ∈ configuration_ s) by (apply list_elem_of_filter in Ha; tauto).
  eapply total_step; [done|]. rewrite (Hlsn _ Hain), decide_True by done.
  eapply total_step; [apply int_result_ok; unfold INT_MIN, INT_MAX; lia|]. cbn [negb Z.eqb Z.add Pos.eqb].
  apply total_gets. eapply total_step; [apply int_result_ok; cbn; rewrite H3; unfold INT_MIN, INT_MAX; lia|].
  apply total_modify, total_gets. cbn [winned_votes_ majority_ set_winned_votes_ set_current_rpc_lsn_].
  rewrite Hmj, Hmaj, H3. change (2 <=? 1 + 1) with true. cbv iota beta. set (s3 := set_winned_votes_ _ _).
  assert (Hl3 : forall b, map_at 0 b (current_rpc_lsn_ s3) = map_at 0 b (current_rpc_lsn_ s1)) by (intros; apply map_at_touch).
  assert (Hh3 : forall b, b ∈ others s (configuration_ s) -> heartbeat_message b s3 = first_heartbeat s).
  { intros b Hb. unfold heartbeat_message, first_heartbeat. rewrite Hl3, Hlsn, decide_True by (done || (apply list_elem_of_filter in Hb; tauto)).
    injection Hsame as Hci _ _ _ _. unfold term_at, log_size, log_of. cbn. by rewrite He, H1, Hip, Hport, Hci. }
  eapply total_mono; [apply trans2P_ok; split|].
  - by cbn; rewrite He.
  - cbn. by rewrite Hconf.
  - intros b Hb. change (others s3 (configuration_ s3)) with (others s1 (configuration_ s1)) in Hb. rewrite Hoth in Hb.
    destruct (Hretry b Hb) as (t & Et & _). cbn. eauto.
  - intros b Hb. change (others s3 (configuration_ s3)) with (others s1 (configuration_ s1)) in Hb. rewrite Hoth in Hb.
    rewrite Hl3, Hlsn, decide_True by (done || (apply list_elem_of_filter in Hb; tauto)). unfold INT_MIN, INT_MAX. lia.
  - intros b Hb. change (others s3 (configuration_ s3)) with (others s1 (configuration_ s1)) in Hb. rewrite Hoth in Hb.
    rewrite Hh3 by done. by apply Hfit.
  - intros [] s2 [G1 G2 G3 G4 G5 _ _ _ _ G6 _ _]. injection G3 as _ G3 _ _.
    split_and!; [done|by rewrite G3|by rewrite G2|].
    rewrite G6. change (others s3 (configuration_ s3)) with (others s1 (configuration_ s1)). rewrite Hoth.
    cbn. f_equal. apply map_ext_in. intros b Hb%list_elem_of_In. by rewrite Hh3.
Qed.

(** C17: an undisturbed election succeeds.  In a cluster of three, let the election
    timer of [s] expire, and let another configured server [f] be of no later term,
    with a log the code takes as no fresher.  Then the request that [s] sends to
    [f], among others, is answered with a vote, [f] follows [s] into the new term,
    and the answer makes [s] the primary of that term, its log unchanged, which
    sends a heartbeat to every other server.  No step throws. *)
Theorem election_succeeds h s f peer peer' :
  elects h = true -> expires_at_min (candidate_timer_ s) = false -> can_elect s -> majority_ s = 2 ->
  wireable (election_message s) = true ->
  (forall b, b ∈ others s (configuration_ s) -> call_fits b (SerializeToString (first_heartbeat s))) ->
  (ip_ f, port_ f) ∈ others s (configuration_ s) -> can_vote_for s f ->
  total (run_handler h no_error) s (fun _ s1 =>
    calls (network_ s1) = calls (network_ s) ++
      map (fun a => (REQUEST_VOTE, a, SerializeToString (election_message s))) (others s (configuration_ s)) /\
    total (reactToIncomingMsg REQUEST_VOTE (SerializeToString (election_message s)) peer) f (fun _ f1 =>
      term_ f1 = term_ s + 1 /\ state_ f1 = follower /\ exists reply,
        calls (network_ f1) = calls (network_ f) ++ [(RESP_VOTE, (ip_ s, port_ s), reply)] /\
        total (reactToIncomingMsg RESP_VOTE reply peer') s1 (fun _ s2 =>
          state_ s2 = primary /\ term_ s2 = term_ s + 1 /\ entries_ s2 = entries_ s /\
          calls (network_ s2) = calls (network_ s1) ++
            map (fun b => (APPEND_ENTRY, b, SerializeToString (first_heartbeat s)))
              (others s (configuration_ s))))).
Proof.
  intros Hh Hx Hce Hmaj Hw Hfit Hin Hv. eapply total_mono; [by apply timeout_ok|]. intros [] s1 Hs1.
  split; [apply Hs1|]. eapply total_mono; [apply vote_ok; [done|done|apply (ce_term _ Hce)]|].
  intros [] f1 (Hc & Ht & Hst & _). split; [done|]. split; [done|]. eexists. split; [exact Hc|].
  destruct (vf_wire _ _ Hv). exact (win_ok s s1 (ip_ f, port_ f) peer' Hce Hs1 Hmaj Hin ltac:(done) ltac:(done) Hfit).
Qed.
End success.

(** ** Witnesses, and what the renewal of a vote allows *)

Module Witness.
Import ThreeServers.

Definition request : RequestVoteRpc :=
  {| rv_term := 1; rv_latest_index := -1; rv_latest_term := 0; rv_lsn := 0; rv_ip := fst B; rv_port := snd B |}.
Definition voter : Server := server (boot A []).
Lemma voter_can_answer : can_answer (rv_sender request) voter.
Proof. split; [vm_compute; reflexivity|done]. Qed.
Lemma request_granted : rv_ballot request voter = Granted.
Proof. vm_compute. reflexivity. Qed.

Lemma react2rv_spec_witness :
  rv_ballot request voter = Granted /\
  total (react2rv request) voter (fun _ s' => already_voted_ s' = true /\ term_ s' = 1).
Proof.
  pose proof (react2rv_spec request voter voter_can_answer) as H. rewrite request_granted in H.
  split; [exact request_granted|]. eapply total_mono; [exact H|]. intros [] s' (s1 & _ & _ & H1 & _ & H2). by split.
Defined.

Definition ls_vote : list label :=
  [vote_request B 1 (-1) 0; vote_request C 1 (-1) 0; append_request B 1 (-1) (-1) (-1) 1 []; vote_request C 2 (-1) 0].
Lemma boots_A : booting A [] = Some (Val tt, boot A []).
Proof. apply booting_boot. vm_compute. reflexivity. Qed.
Lemma runs_vote : perform_all ls_vote (boot A []) = Some (Val tt, after ls_vote (boot A [])).
Proof. apply run_after. vm_compute. reflexivity. Qed.
Lemma runs_win : perform_all win_election (boot A []) = Some (Val tt, after win_election (boot A [])).
Proof. apply run_after. vm_compute. reflexivity. Qed.

Lemma terms_only_grow_witness : term_ (server (boot A [])) <= term_ (server (after ls_vote (boot A []))).
Proof. exact (proj1 (terms_only_grow _ _ _ _ runs_vote)). Defined.

Lemma ls_vote_timely : timely [] ls_vote = true.
Proof. vm_compute. reflexivity. Qed.
Lemma one_vote_per_term_witness :
  votes_for 1 (server (after ls_vote (boot A []))) <> [] /\
  (length (votes_for 1 (server (after ls_vote (boot A [])))) <= 1)%nat.
Proof.
  split; [vm_compute; congruence|].
  exact (one_vote_per_term _ _ _ _ _ _ _ _ _ _ _ _ 1 boots_A eq_refl eq_refl eq_refl ls_vote_timely runs_vote).
Defined.

Lemma won : state_ (server (after win_election (boot A []))) = primary.
Proof. vm_compute. reflexivity. Qed.
Lemma primary_has_majority_witness :
  state_ (server (after win_election (boot A []))) = primary /\
  majority_ (server (after win_election (boot A []))) <=
    1 + votes_arrived (term_ (server (after win_election (boot A [])))) win_election.
Proof. split; [exact won|]. exact (primary_has_majority _ _ _ _ _ _ _ _ _ _ _ boots_A runs_win won). Defined.

Definition stander : Server := server (boot A []).
Definition peer_B : Server := server (boot B []).
Lemma stander_can_elect : can_elect stander.
Proof.
  split; [vm_compute; reflexivity| |vm_compute; split; congruence| |done].
  - refine (bool_decide_eq_true_1 _ _). vm_compute. reflexivity.
  - apply Forall_forall. refine (bool_decide_eq_true_1 _ _). vm_compute. reflexivity.
Qed.
Lemma B_can_vote : can_vote_for stander peer_B.
Proof.
  split; [split; [vm_compute; reflexivity|done]|vm_compute; congruence| |vm_compute; reflexivity|split; vm_compute; reflexivity].
  refine (bool_decide_eq_true_1 _ _). vm_compute. reflexivity.
Qed.
Lemma B_other : (ip_ peer_B, port_ peer_B) ∈ others stander (configuration_ stander).
Proof. refine (bool_decide_eq_true_1 _ _). vm_compute. reflexivity. Qed.

Lemma stander_expired : expires_at_min (candidate_timer_ stander) = false.
Proof. vm_compute. reflexivity. Qed.
Lemma stander_majority : majority_ stander = 2.
Proof. vm_compute. reflexivity. Qed.
Lemma stander_wireable : wireable (election_message stander) = true.
Proof. vm_compute. reflexivity. Qed.

Lemma election_succeeds_witness :
  total (run_handler H_run no_error) stander (fun _ s1 =>
    calls (network_ s1) = calls (network_ stander) ++
      map (fun a => (REQUEST_VOTE, a, SerializeToString (election_message stander))) [B; C]).
Proof.
  assert (Ho : others stander (configuration_ stander) = [B; C]) by (vm_compute; reflexivity).
  rewrite <- Ho. eapply total_mono.
  - exact (election_succeeds H_run stander peer_B A B eq_refl stander_expired stander_can_elect
      stander_majority stander_wireable (fun _ _ => I) B_other B_can_vote).
  - intros u s1 [H _]. exact H.
Defined.
End Witness.

(** ** One term, two votes, two primaries *)

(** The AppendEntry of the term's primary renews the vote: B votes for A, hears A's
    heartbeat, and votes for C, in one term.  So A and C are both primary of term 1;
    what is delivered to each server was sent by another. *)
Section two_primaries.
Import ThreeServers.

Definition heartbeat_A : label := append_request A 1 (-1) (-1) (-1) 1 [].
Definition ls_B : list label := [vote_request A 1 (-1) 0; heartbeat_A; vote_request C 1 (-1) 0].
Definition sent (who : Process) (to : server_addr) (l : label) : bool :=
  match l with
  | Deliver t bytes _ => bool_decide ((t, to, bytes) ∈ calls (network_ (server who)))
  | _ => false
  end.

Example two_primaries_in_one_term :
  let a := after win_election (boot A []) in
  let b := after ls_B (boot B []) in
  let c := after win_election (boot C []) in
  (forallb (sent a B) [vote_request A 1 (-1) 0; heartbeat_A] && sent c B (vote_request C 1 (-1) 0) &&
   sent b A (vote_reply B true 1 0) && sent b C (vote_reply B true 1 0)) = true /\
  timely [] ls_B = false /\
  (state_ (server a), term_ (server a)) = (primary, 1) /\
  (state_ (server c), term_ (server c)) = (primary, 1) /\
  length (votes_for 1 (server b)) = 2%nat.
Proof. vm_compute. repeat split. Qed.
End two_primaries.
End Election.
