(* ===== verification/Wire.v ===== *)
(** What a server puts on the wire, and what its steps do to its log.  A server
    is [regular] if its log is well formed, its texts are UTF-8 and its numbers fit
    an [int]; a message is [intact] if it was serialized from one that survives
    the wire, and an AppendEntry besides tells of an entry of the sender's log and
    of the entry before it.

    [step_effect]: every step of a regular server that hears intact messages leaves
    it regular, sends intact messages, and leaves the log alone, appends a client's
    call, or puts the entry of an AppendEntry behind the entry it names; the tasks
    the writer's pool is given on the way are entries of these logs ([fed]).  With
    the order of the tasks (Commit) this says what the machine runs:
    [applies_in_order]. *)

From stdpp Require Import sorting.
From S2P Require Import Prelude CxxString Platform Messages Util Interfaces ThreadPool StateMachineControler RaftServer ServerFacts ServerSpecs Node ThreeServers Commit.

Module Wire.
Import StateMachineControler (StateMachineControler, write_thread_pool_, set_write_thread_pool_, apply_task).
Export Node.

(** ** Triples for every outcome *)

(** Started where [I] holds, the call leaves [I], however it ends, and a value it
    returns satisfies [Q]. *)
Definition safe {S A} (I : S -> Prop) (m : M S A) (Q : A -> Prop) : Prop :=
  forall s, I s -> I (snd (m s)) /\ forall a s', m s = (Val a, s') -> Q a.

Section safe.
Context {S : Type} (I : S -> Prop).

Lemma safe_ret {A} (a : A) (Q : A -> Prop) : Q a -> safe I (ret a) Q.
Proof. intros H s Hs. split; [done|]. intros ? ? [= <- <-]. done. Qed.
Lemma safe_gets {A} (f : S -> A) (Q : A -> Prop) : (forall s, I s -> Q (f s)) -> safe I (gets f) Q.
Proof. intros H s Hs. split; [done|]. intros ? ? [= <- <-]. auto. Qed.
Lemma safe_modify f (Q : unit -> Prop) : (forall s, I s -> I (f s)) -> Q tt -> safe I (modify f) Q.
Proof. intros H HQ s Hs. split; [by apply H|]. by intros [] ? _. Qed.
Lemma safe_throw_line {A} f l w (Q : A -> Prop) : safe I (throw_line f l w) Q.
Proof. intros s Hs. split; [done|]. by intros ? ? [=]. Qed.
Lemma safe_ub {A} w (Q : A -> Prop) : safe I (ub w) Q.
Proof. intros s Hs. split; [done|]. by intros ? ? [=]. Qed.
Lemma safe_int_result z (Q : Z -> Prop) : (in_int z = true -> Q z) -> safe I (int_result z) Q.
Proof. intros H. unfold int_result. destruct (in_int z); [by apply safe_ret, H|apply safe_ub]. Qed.
Lemma safe_vec_at {A} (l : list A) i (Q : A -> Prop) : (forall x, x ∈ l -> Q x) -> safe I (vec_at l i) Q.
Proof.
  intros H. unfold vec_at. destruct (i <? 0); [apply safe_ub|].
  destruct (l !! _) eqn:E; [|apply safe_ub]. apply safe_ret, H. by eapply list_elem_of_lookup_2.
Qed.
Lemma safe_bind {A B} (m : M S A) (f : A -> M S B) P Q :
  safe I m P -> (forall a, P a -> safe I (f a) Q) -> safe I (bind m f) Q.
Proof.
  intros Hm Hf s Hs. destruct (Hm s Hs) as [H1 H2]. unfold bind.
  destruct (m s) as [[a| | |] s']; [|split; [done|by intros ? ? [=]]..].
  apply (Hf a); [by eapply H2|done].
Qed.
Lemma safe_mono {A} (m : M S A) (P Q : A -> Prop) : safe I m P -> (forall a, P a -> Q a) -> safe I m Q.
Proof. intros Hm H s Hs. destruct (Hm s Hs) as [? ?]. eauto. Qed.
Lemma safe_for_each {A} (l : list A) f : (forall x, safe I (f x) (fun _ => True)) -> safe I (for_each l f) (fun _ => True).
Proof.
  intros H. induction l; cbn; [by apply safe_ret|]. eapply safe_bind; [apply H|]. intros _ _. done.
Qed.
End safe.

(** ** Regular servers, intact messages *)

Create HintDb safe discriminated.

Section wire.
Context {L N T : Type} {LS : LogStore L} {LL : LogStoreLaws L} {TR : Transport N} {TL : TransportLaws N}
  {DT : DeadlineTimer handler T} {RD : Rand} {RC : RaftCodecs} {BS : BoostSplit}.
Implicit Types (s : RaftServer L N T).

(** An AppendEntry tells of the entry at the position [n] of the log [l], of none
    at its end, and of the term of the one before. *)
Definition tells (l : list rpc_Entry) (m : AppendEntryRpc) : Prop :=
  exists n : nat, ae_prelog_index m = Z.of_nat n - 1 /\ (n <= length l)%nat /\ ae_entry m = take 1 (drop n l) /\
    forall k, n = S k -> exists y, l !! k = Some y /\ en_term y = ae_prelog_term m.

Lemma take_1_drop {A} (l : list A) n : take 1 (drop n l) = match l !! n with Some x => [x] | None => [] end.
Proof.
  destruct (l !! n) as [x|] eqn:E; [by rewrite (drop_S _ _ _ E)|]. apply lookup_ge_None in E. by rewrite drop_ge.
Qed.
Lemma tells_entry l m x :
  tells l m -> ae_entry m = [x] -> exists n : nat, ae_prelog_index m = Z.of_nat n - 1 /\ l !! n = Some x /\
    forall k, n = S k -> exists y, l !! k = Some y /\ en_term y = ae_prelog_term m.
Proof.
  intros (n & Hn & _ & He & Hp) Hx. exists n. rewrite take_1_drop, Hx in He. destruct (l !! n); by simplify_eq.
Qed.

Definition survives {A} `{Wireable A} `{Codec A} (P : A -> Prop) (bytes : string) : Prop :=
  exists m : A, bytes = SerializeToString m /\ wireable m = true /\ P m.

Definition intact (l : list rpc_Entry) (p : RPC_TYPE * server_addr * string) : Prop :=
  let '(t, _, bytes) := p in
  match t with
  | REQUEST_VOTE => survives (fun _ : RequestVoteRpc => True) bytes
  | APPEND_ENTRY => survives (tells l) bytes
  | RESP_VOTE => survives (fun _ : Resp_RequestVoteRpc => True) bytes
  | RESP_APPEND => survives (fun _ : Resp_AppendEntryRpc => True) bytes
  | CLIENT_APPLY | CLIENT_QUERY => False
  | _ => True
  end.

(** The entry a task applies, and tasks that were queued since. *)
Definition from_log (l : list rpc_Entry) (t : apply_task) : Prop :=
  exists x, l !! Z.to_nat (snd t) = Some x /\ en_msg x = fst t.
Definition fed (P : apply_task -> Prop) (c c' : StateMachineControler) : Prop :=
  exists ts, write_thread_pool_ c' =
    {| ThreadPool.workers := ThreadPool.workers (write_thread_pool_ c);
       ThreadPool.tasks := ThreadPool.tasks (write_thread_pool_ c) ++ ts;
       ThreadPool.stop := ThreadPool.stop (write_thread_pool_ c) |} /\ Forall P ts.

Lemma fed_pool P c c' : write_thread_pool_ c' = write_thread_pool_ c -> fed P c c'.
Proof. intros E. exists []. rewrite E, app_nil_r. by destruct (write_thread_pool_ c). Qed.
#[export] Instance fed_preorder P : PreOrder (fed P).
Proof.
  split; [intros c; by apply fed_pool|]. intros c1 c2 c3 (ts & E & H) (ts' & E' & H'). exists (ts ++ ts').
  rewrite E', E. cbn. rewrite app_assoc. split; [done|]. by apply Forall_app_2.
Qed.
Lemma fed_mono (P Q : apply_task -> Prop) c c' : (forall t, P t -> Q t) -> fed P c c' -> fed Q c c'.
Proof. intros H (ts & E & Hts). exists ts. split; [done|]. by eapply Forall_impl. Qed.

Definition ints (m : gmap server_addr Z) : Prop := map_Forall (fun _ v => in_int v = true) m.

Record regular s : Prop := {
  rg_ok : ls_ok (entries_ s);
  rg_log : Forall (fun x => wireable x = true) (log_of s);
  rg_term : in_int (term_ s) = true;
  rg_commit : in_int (commit_index_ s) = true;
  rg_addr : utf8 (ip_ s) = true /\ in_int (port_ s) = true;
  rg_lsn : ints (current_rpc_lsn_ s);
  rg_next : ints (nextIndex_ s);
  rg_saved : ints (Follower_saved_index s);
}.

(** From [s0] on the server stayed regular, kept its log, sent intact messages and
    gave the state machine entries of its log. *)
Record tame s0 s : Prop := {
  tm_regular : regular s;
  tm_log : log_of s = log_of s0;
  tm_calls : exists new, calls (network_ s) = calls (network_ s0) ++ new /\ Forall (intact (log_of s0)) new;
  tm_tasks : fed (from_log (log_of s0)) (smc_ s0) (smc_ s);
}.

Lemma tame_refl s : regular s -> tame s s.
Proof. intros H. split; [done|done| |reflexivity]. exists []. by rewrite app_nil_r. Qed.

(** The members that regularity, the log and the messages are about. *)
Definition watched s :=
  (entries_ s, network_ s, (term_ s, commit_index_ s, (ip_ s, port_ s)),
   (current_rpc_lsn_ s, nextIndex_ s, Follower_saved_index s), write_thread_pool_ (smc_ s)).

Lemma regular_watched s s' : watched s' = watched s -> regular s -> regular s'.
Proof.
  intros [= E1 E2 E3 E4 E5 E6 E7 E8 E9 _] []. unfold log_of in *.
  split; unfold log_of; rewrite ?E1, ?E3, ?E4, ?E5, ?E6, ?E7, ?E8, ?E9; done.
Qed.
Lemma regular_network nw s : regular s -> regular (set_network_ nw s).
Proof. intros []. by split. Qed.
Lemma tame_watched s0 s s' : watched s' = watched s -> tame s0 s -> tame s0 s'.
Proof.
  intros E [Hr Hl Hc Ht]. pose proof (regular_watched _ _ E Hr). injection E as E1 E2 _ _ _ _ _ _ _ E10.
  split; [done|unfold log_of; by rewrite E1|by rewrite E2|]. etrans; [exact Ht|by apply fed_pool].
Qed.

Lemma ints_insert a v m : in_int v = true -> ints m -> ints (<[a := v]> m).
Proof. intros. by apply map_Forall_insert_2. Qed.
Lemma ints_touch a m : ints m -> ints (map_touch 0 a m).
Proof. intros H. unfold map_touch. destruct (m !! a); [done|]. by apply ints_insert. Qed.
Lemma ints_at a m : ints m -> in_int (map_at 0 a m) = true.
Proof. intros H. unfold map_at. destruct (m !! a) as [v|] eqn:E; [|done]. by apply (H a v). Qed.

#[export] Instance frame_commit : Frame (L := L) (N := N) (T := T) (same commit_index_).
Proof.
  split; [split; [split|..]|..]; try exact _; try done; try (intros; apply stable_zoom; by intros ? []); try (intros; by apply stable_zoom).
  intros. by apply update_term_stable; try exact _.
Qed.

Section steps.
Context (s0 : RaftServer L N T).
Abbreviation I := (tame s0).
Abbreviation any := (fun _ => True).

Lemma safe_watched {A} (m : M (RaftServer L N T) A) : stable (same watched) m -> safe I m any.
Proof. intros H s Hs. split; [|done]. by eapply tame_watched; [apply H|]. Qed.

(** A write of the members that are watched. *)
Lemma tame_set s s' :
  (log_of s', network_ s', smc_ s') = (log_of s, network_ s, smc_ s) -> (regular s -> regular s') -> I s -> I s'.
Proof. intros [= E1 E2 E3] H [Hr Hl Hc Ht]. split; [by apply H|congruence|by rewrite E2|by rewrite E3]. Qed.

Lemma safe_access {A} (f : RaftServer L N T -> A) (g : RaftServer L N T -> RaftServer L N T) (Q : A -> Prop) :
  (forall s, (log_of (g s), network_ (g s), smc_ (g s)) = (log_of s, network_ s, smc_ s)) ->
  (forall s, regular s -> regular (g s) /\ Q (f s)) ->
  safe I (fun s => (Val (f s), g s)) Q.
Proof.
  intros H1 H2 s Hs. split; [eapply tame_set; [apply H1|apply H2|done]|].
  intros ? ? [= <- <-]. apply H2, Hs.
Qed.

Lemma safe_current_lsn a : safe I (current_rpc_lsn_at a) (fun v => in_int v = true).
Proof. apply safe_access; [done|]. intros s []. split; [split; try done; by apply ints_touch|by apply ints_at]. Qed.
Lemma safe_nextIndex a : safe I (nextIndex_at a) (fun v => in_int v = true).
Proof. apply safe_access; [done|]. intros s []. split; [split; try done; by apply ints_touch|by apply ints_at]. Qed.
Lemma safe_put_current_lsn a v : in_int v = true -> safe I (put_current_rpc_lsn a v) any.
Proof. intros Hv. apply safe_access; [done|]. intros s []. split; [split; try done; by apply ints_insert|done]. Qed.
Lemma safe_put_nextIndex a v : in_int v = true -> safe I (put_nextIndex a v) any.
Proof. intros Hv. apply safe_access; [done|]. intros s []. split; [split; try done; by apply ints_insert|done]. Qed.
Lemma safe_put_saved a v : in_int v = true -> safe I (put_saved_index a v) any.
Proof. intros Hv. apply safe_access; [done|]. intros s []. split; [split; try done; by apply ints_insert|done]. Qed.
Lemma safe_set_commit v : in_int v = true -> safe I (modify (set_commit_index_ v)) any.
Proof. intros Hv. apply safe_access; [done|]. intros s []. by split; [split|]. Qed.
Lemma safe_set_term v : in_int v = true -> safe I (modify (set_term_ v)) any.
Proof. intros Hv. apply safe_access; [done|]. intros s []. by split; [split|]. Qed.

Lemma safe_gets_any {A} (f : RaftServer L N T -> A) : safe I (gets f) any.
Proof. by apply safe_gets. Qed.
Lemma safe_gets_term : safe I (gets term_) (fun v => in_int v = true).
Proof. apply safe_gets. intros s Hs. apply Hs. Qed.
Lemma safe_gets_commit : safe I (gets commit_index_) (fun v => in_int v = true).
Proof. apply safe_gets. intros s Hs. apply Hs. Qed.
Lemma safe_gets_ip : safe I (gets ip_) (fun v => utf8 v = true).
Proof. apply safe_gets. intros s Hs. apply Hs. Qed.
Lemma safe_gets_port : safe I (gets port_) (fun v => in_int v = true).
Proof. apply safe_gets. intros s Hs. apply Hs. Qed.
Lemma safe_gets_saved :
  safe I (gets (fun s => (map_to_list (Follower_saved_index s)).*2)) (Forall (fun v => in_int v = true)).
Proof.
  apply safe_gets. intros s Hs. apply Forall_fmap, Forall_forall. intros [a v] Hv%elem_of_map_to_list.
  by apply (rg_saved _ (tm_regular _ _ Hs) a v).
Qed.

(** The log is read, never written, by these. *)
Lemma size_in_int s : regular s -> in_int (log_size s) = true.
Proof.
  intros H. pose proof (ls_small _ (rg_ok _ H)). unfold log_size, log_of, in_int, INT_MIN, INT_MAX in *.
  apply andb_true_intro. split; lia.
Qed.
Lemma safe_size : safe I (on_entries ls_size) (fun v => v = log_size s0 /\ in_int v = true).
Proof.
  intros s Hs. rewrite size_ok by apply Hs. split; [done|]. intros ? ? [= <- <-].
  split; [unfold log_size; by rewrite (tm_log _ _ Hs)|apply size_in_int, Hs].
Qed.

Lemma get_result l i :
  ls_ok l -> snd (ls_get i l) = l /\
    forall x l', ls_get i l = (Val x, l') -> 0 <= i /\ ls_view l !! Z.to_nat i = Some x.
Proof.
  intros Hok. destruct (Z.lt_ge_cases i 0) as [Hi|Hi].
  { destruct (ls_get_neg l i Hok Hi) as [w ->]. split; [done|]. by intros ? ? [=]. }
  destruct (ls_view l !! Z.to_nat i) as [y|] eqn:E.
  - rewrite (ls_get_ok l i y Hok Hi E). split; [done|]. by intros ? ? [= <- <-].
  - apply lookup_ge_None in E. destruct (ls_get_end l i Hok) as [e ->]; [lia|]. split; [done|]. by intros ? ? [=].
Qed.
Lemma safe_get i :
  safe I (on_entries (ls_get i)) (fun x => 0 <= i /\ log_of s0 !! Z.to_nat i = Some x /\ wireable x = true).
Proof.
  intros s Hs. destruct (get_result (entries_ s) i (rg_ok _ (tm_regular _ _ Hs))) as [E H].
  destruct (ls_get i (entries_ s)) as [r l] eqn:Eg. cbn in E. subst l.
  rewrite (on_entries_same _ _ _ Eg). split; [done|]. intros x s' [= -> <-]. destruct (H x _ eq_refl) as [Hi Hx].
  change (log_of s !! Z.to_nat i = Some x) in Hx. rewrite <- (tm_log _ _ Hs). split_and!; [done|done|].
  exact (Forall_lookup_1 _ _ _ _ (rg_log _ (tm_regular _ _ Hs)) Hx).
Qed.

(** Applying entries reads the log and queues what it reads. *)
Definition feeds (cl cl' : StateMachineControler * L) : Prop :=
  ls_ok (snd cl) -> snd cl' = snd cl /\ fed (from_log (ls_view (snd cl))) (fst cl) (fst cl').
#[local] Instance feeds_preorder : PreOrder feeds.
Proof.
  split; [by intros cl _|]. intros cl1 cl2 cl3 H1 H2 Hok. destruct (H1 Hok) as [E1 F1].
  unfold feeds in H2. rewrite E1 in H2. destruct (H2 Hok) as [E2 F2]. split; [done|by etrans].
Qed.
Lemma apply_one_feeds i : stable feeds (StateMachineControler.apply_to_state_machine i).
Proof.
  intros [c l] Hok. cbn [snd fst] in *. destruct (get_result l i Hok) as [E H].
  unfold StateMachineControler.apply_to_state_machine, StateMachineControler.entries_get, zoom, bind. cbn [snd].
  destruct (ls_get i l) as [[x| | |] l']; cbn [snd] in E; subst l'; try (by split; [|reflexivity]).
  destruct (H x l eq_refl) as [_ Hx].
  unfold StateMachineControler.enqueue_write, zoom, ThreadPool.enqueue. cbn [fst].
  destruct (ThreadPool.stop _) eqn:Hs; cbn; (split; [done|]).
  - by apply fed_pool.
  - exists [(en_msg x, i)]. cbn. rewrite Hs. split; [done|]. constructor; [by exists x|done].
Qed.
Lemma apply_loop_feeds fuel : stable feeds (StateMachineControler.apply_loop fuel).
Proof.
  induction fuel as [|fuel IH]; cbn [StateMachineControler.apply_loop]; unfold StateMachineControler.this;
    repeat (apply stable_bind; [exact _|apply stable_gets; exact _|intros ?]);
    (match goal with |- stable _ (if ?b then _ else _) => destruct b end; [|apply stable_ret; exact _]); [apply stable_ub; exact _|].
  apply stable_bind; [exact _|apply stable_int_add; exact _|intros i].
  apply stable_bind; [exact _|apply apply_one_feeds|intros _; exact IH].
Qed.
Lemma update_feeds i : stable feeds (StateMachineControler.update_commit_index_and_apply i).
Proof.
  unfold StateMachineControler.update_commit_index_and_apply, StateMachineControler.update, StateMachineControler.this.
  apply stable_bind; [exact _| |intros _].
  - apply stable_modify. intros [c l] _. cbn. split; [done|]. by apply fed_pool.
  - apply stable_bind; [exact _|apply stable_gets; exact _|intros a]. apply apply_loop_feeds.
Qed.
Lemma safe_apply i : safe I (apply_to_state_machine i) any.
Proof.
  intros s [Hr Hl Hc Ht]. split; [|done]. unfold apply_to_state_machine, on_smc, zoom. cbv beta.
  pose proof (update_feeds i (smc_ s, entries_ s) (rg_ok _ Hr)) as H.
  destruct (StateMachineControler.update_commit_index_and_apply i _) as [r [c l]]. cbn in H. destruct H as [-> Hf].
  split; [by destruct Hr; split|done|done|]. etrans; [exact Ht|]. cbn. rewrite <- Hl. exact Hf.
Qed.

Lemma safe_call t a m : intact (log_of s0) (t, a, m) -> safe I (on_network (make_rpc_call t a m)) any.
Proof.
  intros Hm s [Hr Hl (new & Hc & Hi) Ht]. split; [|done]. unfold on_network, zoom.
  pose proof (call_any t a m (network_ s)) as Ha. destruct (make_rpc_call t a m (network_ s)) as [r nw].
  split; [by apply regular_network|done| |exact Ht].
  cbn in *. destruct Ha as [-> | ->]; [eauto|]. exists (new ++ [(t, a, m)]). rewrite Hc, app_assoc.
  split; [done|]. by apply Forall_app_2; [|constructor].
Qed.

Lemma safe_reset : safe I reset_both_rpc_lsn any.
Proof.
  unfold reset_both_rpc_lsn. eapply safe_bind; [apply safe_gets_any|intros conf _]. apply safe_for_each. intros x.
  eapply safe_bind; [by apply safe_put_current_lsn|intros _ _]. by apply safe_watched.
Qed.
Lemma safe_update_term t : in_int t = true -> safe I (update_term t) any.
Proof.
  intros Ht. unfold update_term. eapply safe_bind; [apply safe_gets_any|intros t0 _].
  destruct (t0 <? t); [|destruct (t0 =? t); [by apply safe_ret|apply safe_throw_line]].
  eapply safe_bind; [apply safe_reset|intros _ _]. by apply safe_set_term.
Qed.
Lemma safe_int_add a b : safe I (int_add a b) (fun v => v = a + b /\ in_int v = true).
Proof. by apply safe_int_result. Qed.
Lemma safe_int_sub a b : safe I (int_sub a b) (fun v => v = a - b /\ in_int v = true).
Proof. by apply safe_int_result. Qed.
Lemma safe_ret_any {A} (a : A) : safe I (ret a) any.
Proof. by apply safe_ret. Qed.
Lemma safe_timer {A} (f : T -> A * T) : safe I (on_candidate_timer f) any.
Proof. apply safe_watched. intros s. unfold on_candidate_timer. by destruct (f _). Qed.
Lemma safe_retry {A} a (f : T -> A * T) : safe I (on_retry_timer a f) any.
Proof. apply safe_watched. intros s. unfold on_retry_timer. destruct (_ !! _); [by destruct (f _)|done]. Qed.
Lemma safe_rand {A} (m : M Z A) : safe I (on_rand m) any.
Proof. apply safe_watched. by apply stable_zoom. Qed.
Lemma safe_quietly f : (forall s, watched (f s) = watched s) -> safe I (modify f) any.
Proof. intros H. apply safe_watched. by apply stable_modify. Qed.
Lemma safe_ignore a l : safe I (should_ignore_remote_rpc a l) any.
Proof. apply safe_watched. intros s. unfold should_ignore_remote_rpc, follower_rpc_lsn_at, bind. by destruct (_ <=? _). Qed.
End steps.
End wire.

(** One step of a sequence: what it leaves true of its value is kept. *)
Ltac safe_leaf :=
  first
    [ eassumption
    | apply safe_current_lsn | apply safe_nextIndex
    | apply safe_put_current_lsn | apply safe_put_nextIndex | apply safe_put_saved
    | apply safe_set_commit | apply safe_update_term | apply safe_apply | apply safe_ignore
    | apply safe_size | apply safe_get
    | apply safe_timer | apply safe_retry | apply safe_rand
    | apply safe_gets_term | apply safe_gets_commit | apply safe_gets_ip | apply safe_gets_port
    | apply safe_gets_saved | apply safe_gets_any
    | apply safe_int_add | apply safe_int_sub
    | apply safe_throw_line | apply safe_ub | apply safe_ret_any
    | apply safe_quietly; reflexivity ].
Tactic Notation "safe_step" simple_intropattern(x) simple_intropattern(H) :=
  eapply safe_bind; [safe_leaf; try done|intros x H].

(** ** The member functions *)

Section functions.
Context {L N T : Type} {LS : LogStore L} {LL : LogStoreLaws L} {TR : Transport N} {TL : TransportLaws N}
  {DT : DeadlineTimer handler T} {RD : Rand} {RC : RaftCodecs} {BS : BoostSplit}.
Implicit Types (s : RaftServer L N T).
Context (s0 : RaftServer L N T).
Abbreviation I := (tame s0).
Abbreviation any := (fun _ => True).

(** While nothing is committed, besides. *)
Lemma safe_commit {A} c (m : M (RaftServer L N T) A) P :
  safe I m P -> stable (same commit_index_) m -> safe (fun s => tame s0 s /\ commit_index_ s = c) m P.
Proof.
  intros Hm Hc s [Hs E]. destruct (Hm s Hs) as [H1 H2]. split; [|done]. split; [done|]. rewrite <- E. apply Hc.
Qed.
#[local] Tactic Notation "also_step" simple_intropattern(x) simple_intropattern(H) :=
  eapply safe_bind; [apply safe_commit; [safe_leaf; try done|solve_frame]|intros x H].

Lemma safe_build_ae c a :
  safe (fun s => tame s0 s /\ commit_index_ s = c) (build_rpc_ae_string a)
    (survives (fun m => tells (log_of s0) m /\ ae_commit_index m = c)).
Proof.
  unfold build_rpc_ae_string.
  also_step lsn Hlsn. also_step next [_ Hnext]. also_step [] _. also_step term Hterm.
  eapply safe_bind; [apply (safe_gets _ _ (fun v => v = c /\ in_int v = true)); intros s [Hs <-]; by split; [|apply Hs]|intros commit [Hc Hcommit]].
  also_step ip Hip. also_step port Hport. also_step n Hn. also_step pi [-> Hpi].
  eapply (safe_bind _ _ _ (fun pt => in_int pt = true /\ forall k : nat, n = Z.of_nat (S k) ->
    exists y, log_of s0 !! k = Some y /\ en_term y = pt)).
  { destruct (Z.ltb_spec 0 n); [|apply safe_ret; split; [done|lia]].
    also_step y (Hy & Hl & Hw). apply safe_ret. split.
    - unfold wireable, wireable_entry in Hw. rewrite !andb_true_iff in Hw. tauto.
    - intros k ->. exists y. split; [|done]. by replace k with (Z.to_nat (Z.of_nat (S k) - 1)) by lia. }
  intros pt [Hpt Hprev]. also_step size [Hsize _].
  eapply (safe_bind _ _ _ (fun es => exists k : nat, n = Z.of_nat k /\ (k <= length (log_of s0))%nat /\
    es = take 1 (drop k (log_of s0)) /\ Forall (fun x => wireable x = true) es)).
  { destruct (Z.eqb_spec n size) as [En|].
    - apply safe_ret. exists (length (log_of s0)). unfold log_size in Hsize. rewrite drop_ge by done. split_and!; [lia|done..].
    - also_step x (Hx & Hl & Hw). apply safe_ret. exists (Z.to_nat n). pose proof (lookup_lt_Some _ _ _ Hl).
      rewrite take_1_drop, Hl. split_and!; [lia|lia|by destruct x|]. constructor; [by destruct x|done]. }
  intros es Hes. apply safe_ret. eexists. split; [reflexivity|]. split.
  - unfold wireable at 1, wireable_ae. cbn -[utf8 in_int wireable]. rewrite Hterm, Hpt, Hcommit, Hlsn, Hip, Hport, Hpi.
    destruct Hes as (k & _ & _ & _ & Hw). cbn [andb]. rewrite andb_true_r. by apply forallb_forall, List.Forall_forall.
  - split; [|done]. destruct Hes as (k & -> & Hk & -> & _). exists k. split_and!; [done|done|done|].
    intros k' ->. cbn. by apply Hprev.
Qed.
Lemma safe_build_tells a : safe I (build_rpc_ae_string a) (survives (tells (log_of s0))).
Proof.
  intros s Hs. destruct (safe_build_ae (commit_index_ s) a s (conj Hs eq_refl)) as [[H1 _] H2]. split; [done|].
  intros bytes s' E. destruct (H2 bytes s' E) as (m & Em & Hw & Ht & _). by exists m.
Qed.

Lemma safe_AE a : safe I (AE a) any.
Proof.
  unfold AE. eapply safe_bind; [apply safe_build_tells|intros bytes Hb].
  eapply safe_bind; [by apply safe_call|intros _ _]. safe_step ms _. safe_step w _.
  destruct (negb _); [apply safe_throw_line|apply safe_retry].
Qed.

Lemma safe_build_rv a : safe I (build_rpc_rv_string a) (survives (fun _ : RequestVoteRpc => True)).
Proof.
  unfold build_rpc_rv_string.
  safe_step lsn Hlsn. safe_step next [_ Hnext]. safe_step [] _. safe_step term Hterm. safe_step size _.
  safe_step last [_ Hlast]. safe_step ip Hip. safe_step port Hport. apply safe_ret. eexists. split; [reflexivity|].
  split; [|done]. unfold wireable, wireable_rv. cbn -[utf8 in_int]. by rewrite Hterm, Hlsn, Hlast, Hip, Hport.
Qed.
Lemma safe_RV a : safe I (RV a) any.
Proof.
  unfold RV. eapply safe_bind; [apply safe_build_rv|intros bytes Hb].
  eapply safe_bind; [by apply safe_call|intros _ _]. safe_step ms _. safe_step w _.
  destruct (negb _); [by apply safe_ret|apply safe_retry].
Qed.

Lemma safe_cancel : safe I cancel_all_timers any.
Proof. by apply safe_quietly. Qed.
Lemma safe_candidate_expires : safe I candidate_expires_from_now any.
Proof. unfold candidate_expires_from_now. safe_step ms _. apply safe_timer. Qed.

Lemma safe_trans2F t : in_int t = true -> safe I (trans2F t) any.
Proof.
  intros Ht. unfold trans2F. eapply safe_bind; [apply safe_cancel|intros _ _].
  safe_step [] _. safe_step [] _. safe_step [] _. safe_step [] _.
  eapply safe_bind; [apply safe_candidate_expires|intros w _].
  eapply safe_bind; [destruct (negb _); [apply safe_throw_line|apply safe_ret_any]|intros _ _]. apply safe_timer.
Qed.

Lemma safe_trans2C : safe I trans2C any.
Proof.
  unfold trans2C. eapply safe_bind; [apply safe_cancel|intros _ _].
  safe_step term _. safe_step next [_ Hnext]. safe_step [] _. safe_step [] _. safe_step [] _.
  eapply safe_bind; [apply safe_candidate_expires|intros w _].
  eapply safe_bind; [destruct (w =? 0); [apply safe_ret_any|apply safe_throw_line]|intros _ _].
  safe_step [] _. safe_step conf _. apply safe_for_each. intros a. cbv zeta. safe_step port _.
  destruct (negb _); [apply safe_RV|by apply safe_ret].
Qed.

Lemma safe_trans2P : safe I trans2P any.
Proof.
  unfold trans2P. eapply safe_bind; [apply safe_cancel|intros _ _]. safe_step [] _.
  safe_step size [_ Hsize]. safe_step conf _.
  eapply safe_bind; [apply safe_for_each; intros a; safe_step [] _; by apply safe_put_saved|intros _ _].
  safe_step self _. safe_step last [_ Hlast]. safe_step [] _.
  apply safe_for_each. intros a. cbv zeta. safe_step port _. destruct (negb _); [apply safe_AE|by apply safe_ret].
Qed.

Lemma safe_resp_rv v c a lsn : in_int lsn = true -> safe I (make_resp_rv v c a lsn) any.
Proof.
  intros Hlsn. unfold make_resp_rv. safe_step term Hterm. safe_step ip Hip. safe_step port Hport.
  apply safe_call. eexists. split; [reflexivity|]. split; [|done].
  unfold wireable, wireable_resp_rv. cbn -[utf8 in_int]. by rewrite Hterm, Hlsn, Hip, Hport.
Qed.
Lemma safe_resp_ae ok c a lsn e : in_int lsn = true -> safe I (make_resp_ae ok c a lsn e) any.
Proof.
  intros Hlsn. unfold make_resp_ae. safe_step term Hterm. safe_step ip Hip. safe_step port Hport.
  apply safe_call. eexists. split; [reflexivity|]. split; [|done].
  unfold wireable, wireable_resp_ae. cbn -[utf8 in_int]. by rewrite Hterm, Hlsn, Hip, Hport.
Qed.

Lemma sorted_in_int vs n : Forall (fun v => in_int v = true) vs -> forall v, v ∈ sorted_saved vs n -> in_int v = true.
Proof.
  intros Hv v. unfold sorted_saved. rewrite merge_sort_Permutation. intros [H|[-> _]%elem_of_replicate]%elem_of_app; [|done].
  by apply (proj1 (Forall_forall _ _) Hv).
Qed.
Lemma safe_primary_update a i : in_int i = true -> safe I (primary_update_commit_index a i) any.
Proof.
  intros Hi. unfold primary_update_commit_index. safe_step [] _. safe_step conf _. safe_step vs Hvs.
  eapply safe_bind; [destruct (_ <? _)%nat; [apply safe_ub|apply safe_ret_any]|intros _ _]. cbv zeta.
  pose proof (sorted_in_int vs (length conf) Hvs) as Hs.
  do 3 (eapply safe_bind; [by apply (safe_vec_at _ _ _ any)|intros _ _]). safe_step maj _.
  eapply safe_bind; [apply safe_vec_at, Hs|intros c Hc]. safe_step [] _. apply safe_apply.
Qed.

Lemma safe_follower_update i : in_int i = true -> safe I (follower_update_commit_index i) any.
Proof.
  intros Hi. unfold follower_update_commit_index. safe_step prev _. safe_step size _. safe_step last [_ Hlast].
  eapply (safe_bind _ _ _ any); [destruct (_ <? _); by apply safe_set_commit|intros _ _].
  safe_step c _. destruct (_ <? _); [apply safe_throw_line|]. destruct (_ <? _); [apply safe_apply|by apply safe_ret].
Qed.

Lemma safe_deal_resp_ae a m : safe I (primary_deal_resp_ae_with_same_term a m) any.
Proof.
  unfold primary_deal_resp_ae_with_same_term. cbv zeta. safe_step cur _. safe_step exp _.
  destruct (negb _); [by apply safe_ret|]. safe_step n Hn. destruct (rae_ok m).
  - safe_step size [_ Hsize]. destruct (_ <? _); [apply safe_throw_line|]. destruct (_ =? _).
    + safe_step saved [_ Hsaved]. by apply safe_primary_update.
    + eapply (safe_bind _ _ _ any); [|intros _ _; safe_step w _; apply safe_AE].
      destruct (rae_is_empty_ae m); [safe_step saved [_ Hsaved]; by apply safe_primary_update|].
      safe_step next [_ Hnext]. safe_step [] _. by apply safe_primary_update.
  - destruct (_ =? _); [apply safe_throw_line|]. safe_step next [_ Hnext]. safe_step [] _. safe_step w _. apply safe_AE.
Qed.

Lemma safe_deal_resp_rv a m : safe I (candidate_deal_resp_rv_with_same_term a m) any.
Proof.
  unfold candidate_deal_resp_rv_with_same_term. cbv zeta. safe_step cur _. safe_step exp _.
  destruct (negb _); [by apply safe_ret|]. destruct (rrv_ok m); [|by apply safe_ret].
  safe_step votes _. safe_step votes' _. safe_step [] _. safe_step maj _.
  destruct (_ <=? _); [apply safe_trans2P|]. safe_step w _. by apply safe_ret.
Qed.

Lemma safe_react2resp_ae m : wireable m = true -> safe I (react2resp_ae m) any.
Proof.
  unfold wireable, wireable_resp_ae. rewrite !andb_true_iff. intros [[[Ht _] _] _].
  unfold react2resp_ae. cbv zeta. safe_step t _. destruct (t <? _); [by apply safe_trans2F|].
  destruct (_ <? _); [by apply safe_ret|]. safe_step st _.
  destruct (bool_decide _); [apply safe_deal_resp_ae|apply safe_throw_line].
Qed.
Lemma safe_react2resp_rv m : wireable m = true -> safe I (react2resp_rv m) any.
Proof.
  unfold wireable, wireable_resp_rv. rewrite !andb_true_iff. intros [[[Ht _] _] _].
  unfold react2resp_rv. cbv zeta. safe_step t _. destruct (t <? _); [by apply safe_trans2F|].
  destruct (_ <? _); [by apply safe_ret|]. safe_step st _.
  destruct (bool_decide _); [apply safe_deal_resp_rv|by apply safe_ret].
Qed.

Lemma safe_react2rv m : wireable m = true -> safe I (react2rv m) any.
Proof.
  unfold wireable, wireable_rv. rewrite !andb_true_iff. intros [[[[[Ht _] _] Hlsn] _] _].
  unfold react2rv. cbv zeta. safe_step t _. destruct (_ <? t); [by apply safe_resp_rv|].
  eapply (safe_bind _ _ _ any); [destruct (t <? _); [by apply safe_trans2F|by apply safe_ret]|intros _ _].
  safe_step ign _. destruct ign; [by apply safe_ret|]. safe_step st _. destruct (_ || _); [by apply safe_resp_rv|].
  safe_step voted _. destruct (negb _); [|by apply safe_resp_rv]. safe_step size _.
  eapply (safe_bind _ _ _ any).
  { destruct (size =? 0); [by apply safe_ret|]. safe_step last _. safe_step e _.
    repeat (destruct (_ <? _); [by apply safe_ret|]). by apply safe_ret. }
  intros grant _. destruct grant; [|by apply safe_resp_rv].
  eapply safe_bind; [by apply safe_resp_rv|intros _ _]. by apply safe_quietly.
Qed.

Lemma safe_handler h e : safe I (run_handler h e) any.
Proof.
  unfold run_handler, candidate_expired_at_min, retry_expired_at_min, timer_error.
  destruct h, e; first [apply safe_ret_any|apply safe_throw_line|safe_step c _; destruct c];
    first [apply safe_ret_any|apply safe_throw_line|apply safe_trans2C|apply safe_AE|apply safe_RV].
Qed.
Lemma safe_posted p : safe I (run_posted p) any.
Proof.
  destruct p; cbn [run_posted].
  - unfold write_resp_apply_call. safe_step st _. destruct (bool_decide _); [|by apply safe_ret].
    safe_step found _. destruct found; [by apply safe_call|by apply safe_ret].
  - by apply safe_call.
Qed.
Lemma safe_query a q : safe I (get_from_state_machine a q) any.
Proof.
  apply safe_watched. intros s. unfold get_from_state_machine, on_smc, zoom.
  unfold StateMachineControler.get_from_state_machine, StateMachineControler.enqueue_read, zoom.
  cbn. by destruct (ThreadPool.enqueue _ _).
Qed.

(** *** AppendEntry *)

(** The entry [x] of the AppendEntry [m] was put behind the entry that [m] names. *)
Record placed (m : AppendEntryRpc) (x : rpc_Entry) s s' : Prop := {
  pl_regular : regular s';
  pl_log : exists n : nat, ae_prelog_index m = Z.of_nat n - 1 /\ (n <= length (log_of s))%nat /\
    (forall k, n = S k -> exists y, log_of s !! k = Some y /\ en_term y = ae_prelog_term m) /\
    log_of s' = take n (log_of s) ++ [x];
  pl_calls : exists new, calls (network_ s') = calls (network_ s) ++ new /\
    Forall (fun p => intact (log_of s) p \/ intact (log_of s') p) new;
  pl_tasks : fed (fun t => from_log (log_of s) t \/ from_log (log_of s') t) (smc_ s) (smc_ s');
}.

(** From [I] the call gets to [G], however it ends. *)
Definition reaches {A} (m : M (RaftServer L N T) A) (G : RaftServer L N T -> Prop) : Prop :=
  forall s, I s -> G (snd (m s)).
Lemma reaches_safe {A} (m : M (RaftServer L N T) A) P G : safe I m P -> (forall s, I s -> G s) -> reaches m G.
Proof. intros Hm HG s Hs. apply HG, Hm, Hs. Qed.
Lemma reaches_bind {A B} (m : M (RaftServer L N T) A) (f : A -> M (RaftServer L N T) B) P G :
  safe I m P -> (forall s, I s -> G s) -> (forall a, P a -> reaches (f a) G) -> reaches (bind m f) G.
Proof.
  intros Hm HG Hf s Hs. destruct (Hm s Hs) as [H1 H2]. unfold bind. destruct (m s) as [[a| | |] s']; [|by apply HG..].
  apply (Hf a); [by eapply H2|done].
Qed.
End functions.

Tactic Notation "reach_step" simple_intropattern(x) simple_intropattern(H) :=
  eapply reaches_bind; [safe_leaf; try done|by left|intros x H].

Section append.
Context {L N T : Type} {LS : LogStore L} {LL : LogStoreLaws L} {TR : Transport N} {TL : TransportLaws N}
  {DT : DeadlineTimer handler T} {RD : Rand} {RC : RaftCodecs} {BS : BoostSplit}.
Implicit Types (s : RaftServer L N T).

Abbreviation kept_or_placed m x s0 := (fun s' => tame s0 s' \/ placed m x s0 s').

Lemma insert_regular s i x :
  regular s -> 0 <= i <= log_size s -> ls_room i x (log_of s) -> wireable x = true ->
  exists s', on_entries (ls_insert (u32 i) x) s = (Val tt, s') /\ regular s' /\ network_ s' = network_ s /\ smc_ s' = smc_ s /\
    log_of s' = take (Z.to_nat i) (log_of s) ++ [x].
Proof.
  intros Hr Hi Hroom Hx. pose proof (ls_small _ (rg_ok _ Hr)) as Hs. unfold log_size, log_of, INT_MAX in *.
  rewrite u32_id by lia. destruct (ls_insert_ok (entries_ s) i x (rg_ok _ Hr) Hi Hroom) as (l & E & Hl & Hv).
  exists (set_entries_ l s). unfold on_entries, zoom. rewrite E. split_and!; [done| |done|done|exact Hv].
  destruct Hr. split; try done. unfold log_of in *. cbn. rewrite Hv. by apply Forall_app_2; [apply Forall_take|constructor].
Qed.

Lemma accept_places m x n a s0 :
  wireable m = true -> ae_entry m = [x] -> ls_room (Z.of_nat n) x (log_of s0) ->
  ae_prelog_index m = Z.of_nat n - 1 -> (n <= length (log_of s0))%nat ->
  (forall k, n = S k -> exists y, log_of s0 !! k = Some y /\ en_term y = ae_prelog_term m) ->
  reaches s0 (accept_ae a m) (kept_or_placed m x s0).
Proof.
  intros Hm Hx Hroom Hn Hle Hprev. unfold wireable, wireable_ae in Hm. rewrite Hx in Hm. cbn [forallb] in Hm. rewrite !andb_true_iff in Hm.
  destruct Hm as [[[[[[[_ _] Hc] Hlsn] _] _] [Hw _]] _].
  unfold accept_ae. rewrite Hx. cbv zeta. reach_step i [-> _].
  destruct (negb _); [eapply reaches_safe; [by apply (safe_throw_line _ _ _ _ (fun _ => True))|by left]|].
  intros s [Hr Hl (new & Hcalls & Hnew) Ht]. rewrite Hn. replace (Z.of_nat n - 1 + 1) with (Z.of_nat n) by lia.
  rewrite <- Hl in Hroom. destruct (insert_regular s (Z.of_nat n) x Hr) as (s1 & E & Hr1 & En & Es & El); [|done|done|].
  { unfold log_size. rewrite Hl. lia. }
  rewrite (bind_val _ _ _ _ _ E). right. rewrite Nat2Z.id, Hl in El.
  assert (Hs : safe (tame s1) (follower_update_commit_index (ae_commit_index m) ;;
    make_resp_ae true "entries modified" a (ae_lsn m) false) (fun _ => True)).
  { eapply safe_bind; [by apply safe_follower_update|intros _ _]. by apply safe_resp_ae. }
  destruct (Hs s1 (tame_refl _ Hr1)) as [[Hr2 Hl2 (new2 & Hc2 & Hn2) Ht2] _].
  split; [done|exists n; by rewrite Hl2| |].
  - exists (new ++ new2). rewrite Hc2, En, Hcalls, app_assoc. split; [done|].
    apply Forall_app_2; (eapply Forall_impl; [eassumption|]); [by left|right; by rewrite Hl2].
  - etrans; [eapply fed_mono, Ht; by left|]. rewrite <- Es. eapply fed_mono, Ht2. right. by rewrite Hl2.
Qed.

Lemma react2ae_places m x s :
  regular s -> wireable m = true -> ae_entry m = [x] -> ls_room (ae_prelog_index m + 1) x (log_of s) ->
  kept_or_placed m x s (snd (react2ae m s)).
Proof.
  intros Hr Hm Hx Hroom. pose proof Hm as Hw. unfold wireable, wireable_ae in Hw. rewrite !andb_true_iff in Hw.
  destruct Hw as [[[[[[[Ht _] _] Hlsn] _] _] _] _].
  enough (H : reaches s (react2ae m) (kept_or_placed m x s)) by (apply H; by apply tame_refl).
  assert (Hthrow : forall f l w, reaches s (throw_line f l w : M _ unit) (kept_or_placed m x s)).
  { intros. eapply reaches_safe; [by apply (safe_throw_line _ _ _ _ (fun _ => True))|by left]. }
  assert (Hresp : forall ok c a e, reaches s (make_resp_ae ok c a (ae_lsn m) e) (kept_or_placed m x s)).
  { intros. eapply reaches_safe; [by apply safe_resp_ae|by left]. }
  unfold react2ae. rewrite Hx. cbv zeta. destruct (1 <? _); [done|]. reach_step t _. destruct (_ <? t); [done|].
  reach_step st _. destruct (_ && _); [done|].
  eapply reaches_bind; [by apply safe_trans2F|by left|intros _ _]. reach_step ign _.
  destruct ign; [eapply reaches_safe; [by apply safe_ret_any|by left]|].
  destruct (Z.eqb_spec (ae_prelog_index m) (-1)) as [E|E].
  - destruct (negb _); [done|]. apply (accept_places m x 0); try done; [by rewrite E in Hroom|cbn;lia].
  - reach_step size [-> _]. destruct (Z.leb_spec (log_size s) (ae_prelog_index m)) as [|Hlt]; [done|].
    reach_step y (Hp & Hy & _). destruct (Z.eqb_spec (ae_prelog_term m) (en_term y)) as [Ey|]; cbn [negb]; [|apply Hresp].
    unfold log_size in Hlt. apply (accept_places m x (S (Z.to_nat (ae_prelog_index m)))); try done; [|lia|lia|].
    + by replace (Z.of_nat (S (Z.to_nat (ae_prelog_index m)))) with (ae_prelog_index m + 1) by lia.
    + intros k [= <-]. eauto.
Qed.

(** Without an entry the log stays. *)
Lemma react2ae_tame m s0 : wireable m = true -> ae_entry m = [] -> safe (tame s0) (react2ae m) (fun _ => True).
Proof.
  intros Hm Hx. pose proof Hm as Hw. unfold wireable, wireable_ae in Hw. rewrite !andb_true_iff in Hw.
  destruct Hw as [[[[[[[Ht _] Hc] Hlsn] _] _] _] _].
  assert (Ha : forall a, safe (tame s0) (accept_ae a m) (fun _ => True)).
  { intros a. unfold accept_ae. rewrite Hx. cbv zeta. safe_step size _. destruct (_ <? _); [apply safe_throw_line|].
    eapply safe_bind; [by apply safe_follower_update|intros _ _]. by apply safe_resp_ae. }
  unfold react2ae. rewrite Hx. cbv zeta. cbn [length]. destruct (1 <? _); [apply safe_throw_line|].
  safe_step t _. destruct (_ <? t); [by apply safe_resp_ae|]. safe_step st _. destruct (_ && _); [apply safe_throw_line|].
  eapply safe_bind; [by apply safe_trans2F|intros _ _]. safe_step ign _. destruct ign; [by apply safe_ret|].
  destruct (_ =? -1).
  - destruct (negb _); [apply safe_throw_line|done].
  - safe_step size _. destruct (_ <=? _); [by apply safe_resp_ae|]. safe_step y _.
    destruct (negb _); [by apply safe_resp_ae|done].
Qed.
End append.
(** ** One step of a process *)

Section effect.
Context {L N T SM : Type} {LS : LogStore L} {LL : LogStoreLaws L} {TR : Transport N} {TL : TransportLaws N}
  {DT : DeadlineTimer handler T} {RD : Rand} {RC : RaftCodecs} {RCL : RaftCodecsLaws} {BS : BoostSplit}
  {SMC : StateMachine SM}.
Implicit Types (s : RaftServer L N T) (n : Node L N T SM).

(** What arrives is a call of a client, as text, or an intact message. *)
Definition arrives_intact (l : label) : Prop :=
  match l with
  | Deliver CLIENT_APPLY call _ => utf8 call = true
  | Deliver CLIENT_QUERY _ _ => True
  | Deliver t bytes peer => exists g, intact g (t, peer, bytes)
  | _ => True
  end.

(** There is room in the log for the entry that arrives. *)
Definition roomy (l : label) s : Prop :=
  match l with
  | Deliver CLIENT_APPLY call _ => ls_room (log_size s) (Commit.call_entry call s) (log_of s)
  | Deliver APPEND_ENTRY bytes _ =>
      let m : AppendEntryRpc := ParseFromString bytes in
      match ae_entry m with
      | [x] => ls_room (ae_prelog_index m + 1) x (log_of s)
      | _ => True
      end
  | _ => True
  end.

Inductive step_effect (l : label) s s' : Prop :=
| Kept : tame s s' -> step_effect l s s'
| Appended call peer :
    l = Deliver CLIENT_APPLY call peer -> regular s' ->
    log_of s' = log_of s ++ [Commit.call_entry call s] ->
    (network_ s', smc_ s', state_ s', term_ s') = (network_ s, smc_ s, state_ s, term_ s) -> step_effect l s s'
| Placed m x peer :
    l = Deliver APPEND_ENTRY (SerializeToString m) peer -> wireable m = true -> ae_entry m = [x] ->
    placed m x s s' -> step_effect l s s'
| Pooled i p :
    l = Write_wake i \/ l = Write_finish i -> regular s' -> s' = set_smc_ (set_write_thread_pool_ p (smc_ s)) s ->
    step_effect l s s'.

Lemma safe_tame {A} (m : M (RaftServer L N T) A) s :
  regular s -> safe (tame s) m (fun _ => True) -> tame s (snd (m s)).
Proof. intros Hr H. by apply H, tame_refl. Qed.

Lemma append_effect call peer s :
  regular s -> utf8 call = true -> roomy (Deliver CLIENT_APPLY call peer) s ->
  step_effect (Deliver CLIENT_APPLY call peer) s (snd (append_client_apply_to_entries peer call s)).
Proof.
  intros Hr Hu Hroom. destruct (Commit.append_call_ok peer call s (rg_ok _ Hr) Hroom) as (l & E & Hl & Hv).
  pose proof (size_in_int _ Hr) as Hsize. rewrite E. destruct Hr.
  eapply (Appended _ _ _ call peer); [done| |exact Hv|done]. split; try done.
  - unfold log_of. cbn. rewrite Hv. apply Forall_app_2; [done|]. constructor; [|done].
    unfold wireable, wireable_entry. cbn -[utf8 in_int]. by rewrite Hu, Hsize, rg_term0.
  - by apply ints_insert.
Qed.

Lemma message_effect t bytes peer s :
  regular s -> arrives_intact (Deliver t bytes peer) -> roomy (Deliver t bytes peer) s ->
  step_effect (Deliver t bytes peer) s (snd (reactToIncomingMsg t bytes peer s)).
Proof.
  intros Hr Ha Hroom. destruct t; cbn in Ha; unfold reactToIncomingMsg;
    try (apply Kept, safe_tame; [done|by apply safe_ret]).
  - destruct Ha as (_ & m & -> & Hm & _). rewrite parse_serialize by done. apply Kept, safe_tame, safe_react2rv; done.
  - destruct Ha as (g & m & -> & Hm & Ht). unfold roomy in Hroom. rewrite parse_serialize in Hroom |- * by done.
    assert (He : ae_entry m = [] \/ exists x, ae_entry m = [x]).
    { destruct Ht as (n & _ & _ & -> & _). rewrite take_1_drop. destruct (g !! n); eauto. }
    destruct He as [Ex|[x Ex]]; rewrite Ex in Hroom.
    + apply Kept, safe_tame, react2ae_tame; done.
    + destruct (react2ae_places m x s Hr Hm Ex Hroom) as [H|H]; [by apply Kept|by eapply Placed].
  - destruct Ha as (_ & m & -> & Hm & _). rewrite parse_serialize by done. apply Kept, safe_tame, safe_react2resp_rv; done.
  - destruct Ha as (_ & m & -> & Hm & _). rewrite parse_serialize by done. apply Kept, safe_tame, safe_react2resp_ae; done.
  - by apply append_effect.
  - apply Kept, safe_tame, safe_query; done.
Qed.

Lemma perform_effect l n r n' :
  regular (server n) -> arrives_intact l -> roomy l (server n) -> perform l n = Some (r, n') ->
  step_effect l (server n) (server n').
Proof.
  intros Hr Ha Hroom E. destruct l as [t bytes peer| | |a|i|i|i|i]; cbn in E; unfold on_server in E.
  { pose proof (message_effect t bytes peer (server n) Hr Ha Hroom) as H.
    destruct (reactToIncomingMsg t bytes peer (server n)). by simplify_eq/=. }
  all: repeat (match type of E with context [match ?x with _ => _ end] => destruct x eqn:? end); simplify_eq/=;
    try (apply Kept; by eapply tame_watched; [|apply tame_refl]);
    try (eapply (Pooled _ _ _ i); [first [by left|by right]|destruct Hr; by split|reflexivity]).
  apply Kept.
  match goal with H : run_completion ?c ?s = (_, ?s') |- _ => replace s' with (snd (run_completion c s)) by (by rewrite H) end.
  apply safe_tame; [done|]. destruct c; [apply safe_handler|apply safe_posted].
Qed.

(** A server that starts with a log of texts is regular. *)
Lemma regular_start ip port path content entries network sm seed r n :
  start ip port path content entries network sm seed = Some (r, n) ->
  ls_ok entries -> Forall (fun x => wireable x = true) (ls_view entries) -> utf8 ip = true -> in_int port = true ->
  regular (server n) /\ log_of (server n) = ls_view entries.
Proof.
  unfold start. destruct (StateMachineControler.new 5 1) as [c| | |]; try done. intros E Hok Hv Hip Hport.
  set (s := initial_members ip port path entries network c seed) in *.
  assert (Hr : regular s) by (by split).
  assert (Hs : safe (tame s) (constructor_body content ;; run) (fun _ => True)).
  { eapply safe_bind.
    - unfold constructor_body. eapply safe_bind; [apply safe_watched, (load_config_stable (same watched)); intros; reflexivity|intros _ _].
      safe_step conf _. apply safe_for_each. intros a.
      safe_step [] _. safe_step [] _. safe_step [] _. eapply safe_bind; [by apply safe_watched, stable_modify|intros _ _].
      by apply safe_quietly.
    - intros _ _. unfold run. eapply safe_bind; [apply safe_candidate_expires|intros w _].
      destruct (negb _); [apply safe_throw_line|apply safe_timer]. }
  apply safe_tame in Hs as [Hr' Hl _]; [|done].
  destruct ((constructor_body content ;; run) s) as [r' s']. simplify_eq/=. done.
Qed.

(** ** The tasks of a process and the log they are from *)

(** What the writer's pool has not run yet. *)
Definition queue (p : ThreadPool.ThreadPool apply_task) : list apply_task := ThreadPool.running p ++ ThreadPool.tasks p.

(** What the pool holds after a step: what it held, without the task that ran,
    and tasks for entries of the log. *)
Lemma effect_tasks l s s' :
  step_effect l s s' -> (forall i, l <> Write_wake i /\ l <> Write_finish i) ->
  fed (fun t => from_log (log_of s) t \/ from_log (log_of s') t) (smc_ s) (smc_ s').
Proof.
  intros [[_ _ _ Ht]|call peer _ _ _ [= _ Es _ _]|a x peer _ _ _ [_ _ _ Ht]|i p Hl _ _] Hno.
  - eapply fed_mono, Ht. by left.
  - apply fed_pool. by rewrite Es.
  - exact Ht.
  - destruct (Hno i). by destruct Hl.
Qed.

Lemma step_queue l n r n' :
  perform l n = Some (r, n') -> step_effect l (server n) (server n') ->
  (exists w, ThreadPool.workers (write_thread_pool_ (smc_ (server n))) = [w]) ->
  exists ts,
    task_of_step l n ++ queue (write_thread_pool_ (smc_ (server n'))) = queue (write_thread_pool_ (smc_ (server n))) ++ ts /\
    Forall (fun t => from_log (log_of (server n)) t \/ from_log (log_of (server n')) t) ts.
Proof.
  intros E He [w Hw].
  assert (Hfed : (forall i, l <> Write_wake i /\ l <> Write_finish i) -> exists ts,
    task_of_step l n ++ queue (write_thread_pool_ (smc_ (server n'))) = queue (write_thread_pool_ (smc_ (server n))) ++ ts /\
    Forall (fun t => from_log (log_of (server n)) t \/ from_log (log_of (server n')) t) ts).
  { intros Hno. destruct (effect_tasks l _ _ He Hno) as (ts & Ep & Hts). exists ts. split; [|done].
    assert (task_of_step l n = []) as -> by (destruct l; try done; by destruct (Hno i)).
    rewrite Ep. unfold queue, ThreadPool.running. cbn. by rewrite app_assoc. }
  destruct l as [| | | |i|i| |]; try (by apply Hfed); cbn in E |- *; exists []; rewrite app_nil_r; (split; [|done]).
  - destruct (ThreadPool.wake i _) as [p|] eqn:Hwk; [|done]. simplify_eq/=.
    exact (proj1 (ThreadPool.wake_fifo _ _ _ _ Hw Hwk)).
  - destruct (ThreadPool.finish i _) as [[t p]|] eqn:Hf; [|done].
    destruct (StateMachineControler.run_apply_task _ _). simplify_eq/=.
    symmetry. exact (proj1 (ThreadPool.finish_fifo _ _ _ _ _ Hw Hf)).
Qed.

(** A server stays regular. *)
Lemma effect_regular l s s' : step_effect l s s' -> regular s'.
Proof. by intros [[]| |m x peer _ _ _ []|]. Qed.

(** Along the run only texts and intact messages arrive, and there is room for
    their entries. *)
Fixpoint hears_intact (ls : list label) n : Prop :=
  match ls with
  | [] => True
  | l :: ls' => arrives_intact l /\ roomy l (server n) /\
      match perform l n with Some (_, n') => hears_intact ls' n' | None => True end
  end.

(** The logs of the moments of a run. *)
Definition had (ls : list label) n (g : list rpc_Entry) : Prop :=
  exists k r n', perform_all (firstn k ls) n = Some (r, n') /\ log_of (server n') = g.

Lemma had_start ls n : had ls n (log_of (server n)).
Proof. by exists 0%nat, (Val tt), n. Qed.
Lemma had_later l ls n n' g : perform l n = Some (Val tt, n') -> had ls n' g -> had (l :: ls) n g.
Proof. intros E (k & r & n2 & E2 & Hg). exists (S k), r, n2. cbn. by rewrite E. Qed.
Lemma had_next l ls n r n' : perform l n = Some (r, n') -> had (l :: ls) n (log_of (server n')).
Proof. intros E. exists 1%nat, r, n'. cbn. rewrite E. by destruct r as [[]| | |]; destruct ls. Qed.

(** The tasks that are run were queued, or are from a log of the run. *)
Lemma tasks_from_logs (K : list rpc_Entry -> Prop) ran ls n r n' :
  regular (server n) -> hears_intact ls n -> Commit.in_order ran (server n) ->
  (forall g, had ls n g -> K g) ->
  Forall (fun t => exists g, K g /\ from_log g t) (queue (write_thread_pool_ (smc_ (server n)))) ->
  perform_all ls n = Some (r, n') ->
  Forall (fun t => exists g, K g /\ from_log g t) (applied_tasks ls n).
Proof.
  revert ran n. induction ls as [|l ls IH]; intros ran n Hr Hh Hin HK Hq E; [done|]. destruct Hh as (Ha & Hroom & Hh). cbn in E |- *.
  destruct (perform l n) as [[r1 n1]|] eqn:E1; [|done].
  pose proof (perform_effect l n r1 n1 Hr Ha Hroom E1) as He.
  destruct (step_queue l n r1 n1 E1 He (proj1 Hin)) as (ts & Eq & Hts).
  assert (Hall : Forall (fun t => exists g, K g /\ from_log g t)
    (task_of_step l n ++ queue (write_thread_pool_ (smc_ (server n1))))).
  { rewrite Eq. apply Forall_app_2; [done|]. eapply Forall_impl; [exact Hts|].
    intros t [Ht|Ht]; eexists; (split; [|exact Ht]); apply HK; [apply had_start|by eapply had_next]. }
  apply Forall_app in Hall as [H1 H2]. destruct r1 as [[]| | |]; [|done..]. apply Forall_app_2; [done|].
  apply (IH (ran ++ task_of_step l n) n1); try done.
  - by eapply effect_regular.
  - exact (Commit.in_order_step ran l n _ n1 Hin E1).
  - intros g Hg. apply HK. by eapply had_later.
Qed.

(** C11: whatever messages arrive, timers expire and threads interleave, the
    state machine runs the entries of the log in the order of their indices,
    each once and none left out: in every run of a server process the i-th task it
    runs is the one of entry i, with the message of the entry that [get i]
    returned, and they are at most the entries up to [applied_index_].  If besides the
    process starts with a well-formed log of texts, hears texts and intact
    messages and has room in its log for their entries, each task it ran has the
    message of the entry that was at its index in the log at some moment of the
    run. *)
Theorem applies_in_order ip port path content entries network sm seed ls n0 r n :
  start ip port path content entries network sm seed = Some (Val tt, n0) ->
  perform_all ls n0 = Some (r, n) ->
  (forall i t, applied_tasks ls n0 !! i = Some t ->
     snd t = Z.of_nat i /\
     exists (l : L) x l', ls_get (Z.of_nat i) l = (Val x, l') /\ fst t = en_msg x) /\
  Z.of_nat (length (applied_tasks ls n0)) <= StateMachineControler.applied_index_ (smc_ (server n)) + 1 /\
  (ls_ok entries -> Forall (fun x => wireable x = true) (ls_view entries) -> utf8 ip = true -> in_int port = true ->
   hears_intact ls n0 ->
   forall i t, applied_tasks ls n0 !! i = Some t ->
     exists g x, had ls n0 g /\ g !! i = Some x /\ fst t = en_msg x).
Proof.
  intros E0 E. destruct (Commit.applied_in_order _ _ _ _ _ _ _ _ _ _ _ _ E0 E) as (Hi & Hl & Hg).
  split; [|split; [done|]].
  - intros i t Ht. pose proof (Hi i t Ht) as Hs. split; [done|]. rewrite <- Hs. exact (Forall_lookup_1 _ _ _ _ Hg Ht).
  - intros Hok Hv Hip Hport Hh i t Ht. destruct (regular_start _ _ _ _ _ _ _ _ _ _ E0 Hok Hv Hip Hport) as [Hr _].
    pose proof (Commit.start_in_order _ _ _ _ _ _ _ _ _ _ E0) as Hin.
    assert (Hq : queue (write_thread_pool_ (smc_ (server n0))) = []).
    { destruct (start_smc _ _ _ _ _ _ _ _ _ _ E0) as (Es & _). unfold StateMachineControler.new in Es. by injection Es as <-. }
    pose proof (tasks_from_logs (had ls n0) [] ls n0 r n Hr Hh Hin (fun _ H => H) ltac:(by rewrite Hq) E) as Hall.
    destruct (Forall_lookup_1 _ _ _ _ Hall Ht) as (g & Hhad & x & Hx & Hm). rewrite (Hi i t Ht), Nat2Z.id in Hx.
    by exists g, x.
Qed.
End effect.

(** ** Witness: the primary of three applies a call *)

Module Witness.
Import ThreeServers.
Import Commit.Witness.

Definition roomy_b (l : label) (s : Server) : bool :=
  match l with
  | Deliver CLIENT_APPLY _ _ => log_size s + 1 <? INT_MAX
  | Deliver APPEND_ENTRY bytes _ =>
      let m : AppendEntryRpc := ParseFromString bytes in ae_prelog_index m + 1 + 1 <? INT_MAX
  | _ => true
  end.
Fixpoint roomy_run (ls : list label) (n : Process) : bool :=
  match ls with
  | [] => true
  | l :: ls' => roomy_b l (server n) && match perform l n with Some (_, n') => roomy_run ls' n' | None => true end
  end.
Lemma roomy_run_hears ls n : Forall arrives_intact ls -> roomy_run ls n = true -> hears_intact ls n.
Proof.
  intros H. revert n. induction H as [|l ls Hl _ IH]; intros n; [done|]. cbn [roomy_run hears_intact].
  intros [Hb Hr]%andb_prop. split; [done|]. split.
  - destruct l as [[] bytes peer| | | | | | |]; try done; cbn [roomy roomy_b] in *.
    + destruct (ae_entry _) as [|x [|]]; [done| |done]. by apply Z.ltb_lt.
    + by apply Z.ltb_lt.
  - destruct (perform l n) as [[r n']|]; [by apply IH|done].
Qed.
Lemma ls_intact : Forall arrives_intact ls.
Proof.
  repeat (apply Forall_cons_2; [first [exact I|reflexivity|exists []; eexists; split; [reflexivity|by split]]|]).
  apply Forall_nil_2.
Qed.
Lemma ls_heard : hears_intact ls (boot A []).
Proof. apply roomy_run_hears; [apply ls_intact|vm_compute; reflexivity]. Qed.
Lemma put_x_applied : applied_tasks ls (boot A []) = [(put_x, 0)].
Proof. vm_compute. reflexivity. Qed.

Lemma applies_in_order_witness :
  applied_tasks ls (boot A []) !! 0%nat = Some (put_x, 0) /\
  Z.of_nat (length (applied_tasks ls (boot A []))) <=
    StateMachineControler.applied_index_ (smc_ (server (after ls (boot A [])))) + 1 /\
  exists g x, had ls (boot A []) g /\ g !! 0%nat = Some x /\ put_x = en_msg x.
Proof.
  destruct (applies_in_order _ _ _ _ _ _ _ _ ls (boot A []) _ _ boots runs_ls) as (_ & Hl & H).
  split; [vm_compute; reflexivity|]. split; [exact Hl|].
  exact (H eq_refl (Forall_nil_2 _) eq_refl eq_refl ls_heard 0%nat (put_x, 0) ltac:(rewrite put_x_applied; reflexivity)).
Defined.
End Witness.
End Wire.
