(* ===== verification/Progress.v ===== *)
(** How far a server commits, and what it says of it.  A step raises the applied
    index of the machine only if the server is primary and stays so, or if it takes
    over an AppendEntry, sending none, and then not beyond the commit index that the message names and
    the end of the log that it makes ([takes_over]); an AppendEntry that is sent
    names a commit index up to which the sender has applied ([covered]).
    [perform_progresses] is this account of one step of a process. *)

From S2P Require Import Prelude CxxString Platform Messages Util Interfaces ThreadPool StateMachineControler RaftServer ServerFacts ServerSpecs Node Commit Wire.

Module Progress.
Import StateMachineControler (StateMachineControler, applied_index_, write_thread_pool_, apply_task).
Export Wire.

#[local] Abbreviation packet := (RPC_TYPE * server_addr * string)%type.

(** ** What an AppendEntry says of commits *)

Section says.
Context {L N T : Type} {LS : LogStore L} {LL : LogStoreLaws L} {TR : Transport N} {TL : TransportLaws N}
  {DT : DeadlineTimer handler T} {RD : Rand} {RC : RaftCodecs} {RCL : RaftCodecsLaws} {BS : BoostSplit}.
Implicit Types (s : RaftServer L N T).

(** How far the server has committed and applied. *)
Definition progress s := (commit_index_ s, applied_index_ (smc_ s), write_thread_pool_ (smc_ s)).

Lemma progress_query q a : stable (same progress) (on_smc (StateMachineControler.get_from_state_machine q a)).
Proof.
  intros s. unfold on_smc, zoom, StateMachineControler.get_from_state_machine, StateMachineControler.enqueue_read, zoom.
  cbn. by destruct (ThreadPool.enqueue _ _).
Qed.
#[export] Instance frame_progress : Frame (L := L) (N := N) (T := T) (same progress).
Proof.
  split; [split; [split|..]|..]; try exact _; try done; try (intros; by apply stable_zoom); [apply progress_query|].
  intros. by apply update_term_stable; try exact _.
Qed.
#[export] Instance appends_progress : Appends (L := L) (N := N) (T := T) (same progress).
Proof. split. intros. by apply stable_zoom. Qed.

Definition says (c : Z) (p : packet) : Prop :=
  let '(t, _, bytes) := p in t = APPEND_ENTRY -> ae_commit_index (ParseFromString bytes) = c.

(** Nothing was committed, and every AppendEntry sent says so. *)
Definition speaks s s' : Prop :=
  progress s' = progress s /\
  exists new, calls (network_ s') = calls (network_ s) ++ new /\ Forall (says (commit_index_ s)) new.

#[export] Instance speaks_preorder : PreOrder speaks.
Proof.
  split; [intros s; split; [done|]; exists []; by rewrite app_nil_r|].
  intros s1 s2 s3 [E1 (n1 & C1 & H1)] [E2 (n2 & C2 & H2)]. split; [by etrans|]. exists (n1 ++ n2).
  rewrite C2, C1, app_assoc. split; [done|]. apply Forall_app_2; [done|]. by injection E1 as <- _ _.
Qed.
Lemma speaks_same s s' : (progress s', network_ s') = (progress s, network_ s) -> speaks s s'.
Proof. intros [= E1 E2 E3 En]. split; [unfold progress; congruence|]. exists []. by rewrite En, app_nil_r. Qed.
Lemma speaks_call t a m s : says (commit_index_ s) (t, a, m) -> speaks s (snd (on_network (make_rpc_call t a m) s)).
Proof.
  intros H. unfold on_network, zoom. pose proof (call_any t a m (network_ s)) as Hc.
  destruct (make_rpc_call t a m (network_ s)) as [r nw]. cbn in *. split; [done|].
  change (network_ (set_network_ nw s)) with nw.
  destruct Hc as [-> | ->]; [exists []; by rewrite app_nil_r|]. exists [(t, a, m)]. split; [done|]. by constructor.
Qed.
#[export] Instance frame_speaks : Frame (L := L) (N := N) (T := T) speaks.
Proof.
  split; [split; [split|..]|..]; try exact _; try (intros; by apply speaks_same);
    try (intros; apply stable_zoom; intros; by apply speaks_same).
  - intros t a m _ Ht s. apply speaks_call. by intros ->.
  - intros q a s. apply speaks_same. unfold on_smc, zoom, StateMachineControler.get_from_state_machine,
      StateMachineControler.enqueue_read, zoom. cbn. by destruct (ThreadPool.enqueue _ _).
  - intros t. apply update_term_stable; [exact _|intros; by apply speaks_same..].
  - intros a m s. by apply speaks_call.
Qed.

Lemma spoken_commit s0 s : speaks s0 s -> commit_index_ s = commit_index_ s0.
Proof. by intros [[= E _ _] _]. Qed.

(** ** Nothing is told committed that is not applied *)

Definition applied_to s : Z := applied_index_ (smc_ s).

(** What the AppendEntries sent since [s0] say committed is applied. *)
Definition covered s0 s : Prop :=
  applied_to s0 <= applied_to s /\
  exists new, calls (network_ s) = calls (network_ s0) ++ new /\
    Forall (fun p => exists c, says c p /\ c <= applied_to s) new.

Lemma covered_speaks s0 s s' :
  covered s0 s -> commit_index_ s <= applied_to s -> speaks s s' ->
  covered s0 s' /\ commit_index_ s' <= applied_to s'.
Proof.
  intros [Ha (n1 & C1 & H1)] Hc [[= E1 E2 _] (n2 & C2 & H2)]. unfold covered, applied_to in *. rewrite E1, E2. split; [|done]. split; [done|].
  exists (n1 ++ n2). rewrite C2, C1, app_assoc. split; [done|]. apply Forall_app_2; [done|].
  eapply Forall_impl; [exact H2|]. eauto.
Qed.

Section covers.
Context (s0 : RaftServer L N T).
Abbreviation any := (fun _ => True).

(** Started where all that is committed is applied, the call stays covered, and
    if it returns then all that is committed is applied again. *)
Definition told {A} (m : M (RaftServer L N T) A) (Q : A -> Prop) : Prop :=
  forall s, tame s0 s -> covered s0 s -> commit_index_ s <= applied_to s ->
    tame s0 (snd (m s)) /\ covered s0 (snd (m s)) /\
    forall a s', m s = (Val a, s') -> commit_index_ s' <= applied_to s' /\ Q a.

Lemma told_leaf {A} (m : M (RaftServer L N T) A) Q :
  safe (tame s0) m Q -> (forall s, tame s0 s -> speaks s (snd (m s))) -> told m Q.
Proof.
  intros Hm Hs s Ht Hc Hle. destruct (Hm s Ht) as [H1 H2]. destruct (covered_speaks s0 s _ Hc Hle (Hs s Ht)) as [H3 H4].
  split; [done|]. split; [done|]. intros a s' E. rewrite E in H4. split; [done|]. by eapply H2.
Qed.
Lemma told_still {A} (m : M (RaftServer L N T) A) Q : safe (tame s0) m Q -> stable speaks m -> told m Q.
Proof. intros Hm Hs. by apply told_leaf. Qed.
Lemma told_bind {A B} (m : M (RaftServer L N T) A) (f : A -> M (RaftServer L N T) B) P Q :
  told m P -> (forall a, P a -> told (f a) Q) -> told (bind m f) Q.
Proof.
  intros Hm Hf s Ht Hc Hle. destruct (Hm s Ht Hc Hle) as (H1 & H2 & H3). unfold bind.
  destruct (m s) as [[a| | |] s']; [|split; [done|split; [done|by intros ? ? [=]]]..].
  destruct (H3 a s' eq_refl) as [H4 H5]. by apply (Hf a).
Qed.
Lemma told_for_each {A} (l : list A) f : (forall x, told (f x) any) -> told (for_each l f) any.
Proof.
  intros H. induction l; cbn; [apply told_still; [by apply safe_ret|by apply stable_ret; exact _]|].
  eapply told_bind; [apply H|]. intros _ _. done.
Qed.
End covers.
End says.

Tactic Notation "told_step" simple_intropattern(x) simple_intropattern(H) :=
  eapply told_bind; [apply told_still; [safe_leaf; try done|solve_frame]|intros x H].
Ltac told_leaf := apply told_still; [safe_leaf; try done|solve_frame].

Section functions.
Context {L N T : Type} {LS : LogStore L} {LL : LogStoreLaws L} {TR : Transport N} {TL : TransportLaws N}
  {DT : DeadlineTimer handler T} {RD : Rand} {RC : RaftCodecs} {RCL : RaftCodecsLaws} {BS : BoostSplit}.
Implicit Types (s : RaftServer L N T).
Context (s0 : RaftServer L N T).
Abbreviation any := (fun _ => True).
Abbreviation told := (told s0).

(** An AppendEntry says what its sender committed. *)
Lemma AE_speaks a s : tame s0 s -> speaks s (snd (AE a s)).
Proof.
  intros Hs. unfold AE, bind at 1.
  destruct (safe_build_ae s0 (commit_index_ s) a s (conj Hs eq_refl)) as [_ H].
  pose proof (frame_build_ae speaks a s) as Hb. destruct (build_rpc_ae_string a s) as [[bytes| | |] s1]; try exact Hb.
  destruct (H bytes s1 eq_refl) as (m & -> & Hw & _ & Hc). etrans; [exact Hb|]. cbn in Hb. unfold bind at 1.
  assert (Hcall : speaks s1 (snd (on_network (make_rpc_call APPEND_ENTRY a (SerializeToString m)) s1))).
  { apply speaks_call. intros _. rewrite parse_serialize by done. by rewrite (spoken_commit _ _ Hb). }
  destruct (on_network _ s1) as [[u| | |] s2]; [etrans; [exact Hcall|]|exact Hcall..].
  match goal with |- speaks _ (snd (?m _)) => assert (Hs' : stable speaks m) by solve_frame; apply Hs' end.
Qed.
Lemma told_AE a : told (AE a) any.
Proof. apply told_leaf; [apply safe_AE|intros s; apply AE_speaks]. Qed.

Lemma told_trans2P : told trans2P any.
Proof.
  unfold trans2P. eapply told_bind; [apply told_still; [apply safe_cancel|solve_frame]|intros _ _]. told_step [] _.
  told_step size [_ Hsize]. told_step conf _.
  eapply told_bind; [apply told_for_each; intros a; told_step [] _; told_leaf|intros _ _].
  told_step self _. told_step last [_ Hlast]. told_step [] _.
  apply told_for_each. intros a. cbv zeta. told_step port _. destruct (negb _); [apply told_AE|told_leaf].
Qed.

Lemma told_deal_resp_rv a m : told (candidate_deal_resp_rv_with_same_term a m) any.
Proof.
  unfold candidate_deal_resp_rv_with_same_term. cbv zeta. told_step cur _. told_step exp _.
  destruct (negb _); [told_leaf|]. destruct (rrv_ok m); [|told_leaf].
  told_step votes _. told_step votes' _. told_step [] _. told_step maj _.
  destruct (_ <=? _); [apply told_trans2P|]. told_step w _. told_leaf.
Qed.
Lemma told_react2resp_rv m : wireable m = true -> told (react2resp_rv m) any.
Proof.
  intros Hm. pose proof Hm as Hm'. unfold wireable, wireable_resp_rv in Hm'. rewrite !andb_true_iff in Hm'.
  destruct Hm' as [[[Ht _] _] _].
  unfold react2resp_rv. cbv zeta. told_step t _. destruct (t <? _); [apply told_still; [by apply safe_trans2F|apply (frame_trans2F speaks)]|].
  destruct (_ <? _); [told_leaf|]. told_step st _. destruct (bool_decide _); [apply told_deal_resp_rv|told_leaf].
Qed.

(** Committing applies what is committed, and nothing else. *)
Lemma apply_reaches c s :
  let '(r, s') := apply_to_state_machine c s in
  (commit_index_ s', network_ s') = (commit_index_ s, network_ s) /\
  applied_to s <= applied_to s' <= Z.max c (applied_to s) /\ (r = Val tt -> c <= applied_to s').
Proof.
  unfold apply_to_state_machine, on_smc, zoom. pose proof (StateMachineControler.update_reached c (smc_ s, entries_ s)) as H.
  destruct (StateMachineControler.update_hands_over c (smc_ s, entries_ s)) as (_ & _ & _ & _ & Hle).
  destruct (StateMachineControler.update_commit_index_and_apply c _) as [r [k l]]. cbn in *.
  destruct H as [H1 H2]. auto.
Qed.
Lemma told_commit c : in_int c = true -> told (modify (set_commit_index_ c) ;; apply_to_state_machine c) any.
Proof.
  intros Hc s Ht [Ha (new & Hn & Hnew)] Hle.
  assert (Hs : safe (tame s0) (modify (set_commit_index_ c) ;; apply_to_state_machine c) any).
  { eapply safe_bind; [by apply safe_set_commit|intros _ _; apply safe_apply]. }
  split; [by apply Hs|]. pose proof (apply_reaches c (set_commit_index_ c s)) as H.
  rewrite (bind_val _ _ _ _ _ (modify_val _ _)). destruct (apply_to_state_machine c _) as [r s'].
  change (applied_to (set_commit_index_ c s)) with (applied_to s) in H. cbn in H |- *.
  destruct H as ([= E1 E2] & [H1 H2] & H3). split.
  - split; [lia|]. exists new. rewrite E2. split; [exact Hn|]. eapply Forall_impl; [exact Hnew|]. intros p (k & Hk & ?). exists k. split; [done|lia].
  - intros [] s'' [= -> <-]. split; [|done]. rewrite E1. by apply H3.
Qed.
Lemma told_primary_update a i : in_int i = true -> told (primary_update_commit_index a i) any.
Proof.
  intros Hi. unfold primary_update_commit_index. told_step [] _. told_step conf _. told_step vs Hvs.
  eapply told_bind; [apply told_still; [destruct (_ <? _)%nat; [apply safe_ub|apply safe_ret_any]|solve_frame]|intros _ _]. cbv zeta.
  pose proof (sorted_in_int vs (length conf) Hvs) as Hs.
  do 3 (eapply told_bind; [apply told_still; [by apply (safe_vec_at _ _ _ any)|solve_frame]|intros _ _]). told_step maj _.
  eapply told_bind; [apply told_still; [apply safe_vec_at, Hs|solve_frame]|intros c Hc]. by apply told_commit, Hc.
Qed.

Lemma told_deal_resp_ae a m : told (primary_deal_resp_ae_with_same_term a m) any.
Proof.
  unfold primary_deal_resp_ae_with_same_term. cbv zeta. told_step cur _. told_step exp _.
  destruct (negb _); [told_leaf|]. told_step n Hn. destruct (rae_ok m).
  - told_step size [_ Hsize]. destruct (_ <? _); [told_leaf|]. destruct (_ =? _).
    + told_step saved [_ Hsaved]. by apply told_primary_update.
    + eapply (told_bind _ _ _ any); [|intros _ _; told_step w _; apply told_AE].
      destruct (rae_is_empty_ae m); [told_step saved [_ Hsaved]; by apply told_primary_update|].
      told_step next [_ Hnext]. told_step [] _. by apply told_primary_update.
  - destruct (_ =? _); [told_leaf|]. told_step next [_ Hnext]. told_step [] _. told_step w _. apply told_AE.
Qed.
Lemma told_react2resp_ae m : wireable m = true -> told (react2resp_ae m) any.
Proof.
  unfold wireable, wireable_resp_ae. rewrite !andb_true_iff. intros [[[Ht _] _] _].
  unfold react2resp_ae. cbv zeta. told_step t _.
  destruct (t <? _); [apply told_still; [by apply safe_trans2F|apply (frame_trans2F speaks)]|].
  destruct (_ <? _); [told_leaf|]. told_step st _. destruct (bool_decide _); [apply told_deal_resp_ae|told_leaf].
Qed.

Lemma told_handler h : told (run_handler h no_error) any.
Proof.
  unfold run_handler, candidate_expired_at_min, retry_expired_at_min. destruct h; told_step c _; destruct c;
    first [told_leaf|apply told_still; [apply safe_trans2C|apply (frame_trans2C speaks)]
      |apply told_AE|apply told_still; [apply safe_RV|apply (frame_RV speaks)]].
Qed.
Lemma told_posted p : told (run_posted p) any.
Proof. apply told_still; [apply safe_posted|apply (frame_posted speaks)]. Qed.

(** Every message but an AppendEntry and a client's call. *)
Lemma told_message t bytes peer :
  t <> APPEND_ENTRY -> t <> CLIENT_APPLY -> arrives_intact (Deliver t bytes peer) ->
  told (reactToIncomingMsg t bytes peer) any.
Proof.
  intros H1 H2 Ha. destruct t; cbn in Ha; unfold reactToIncomingMsg; try done; try told_leaf.
  - destruct Ha as (_ & m & -> & Hm & _). rewrite parse_serialize by done.
    apply told_still; [by apply safe_react2rv|apply (frame_react2rv speaks)].
  - destruct Ha as (_ & m & -> & Hm & _). rewrite parse_serialize by done. by apply told_react2resp_rv.
  - destruct Ha as (_ & m & -> & Hm & _). rewrite parse_serialize by done. by apply told_react2resp_ae.
  - apply told_still; [by apply safe_query|]. unfold get_from_state_machine. solve_frame.
Qed.

(** ** What an AppendEntry has applied *)

Lemma follower_update_reaches rc s :
  regular s ->
  let '(r, s') := follower_update_commit_index rc s in
  applied_to s <= applied_to s' <= Z.max (applied_to s) (Z.min rc (log_size s - 1)) /\
  (r = Val tt -> commit_index_ s <= applied_to s -> commit_index_ s' <= applied_to s').
Proof.
  intros Hr. unfold follower_update_commit_index. rewrite (bind_val _ _ _ _ _ (gets_val _ _)).
  rewrite (bind_val _ _ _ _ _ (size_ok s (rg_ok _ Hr))). unfold int_sub, int_result.
  destruct (in_int _); [rewrite bind_ret|by split; [lia|]].
  set (c := Z.min rc (log_size s - 1)).
  assert (Hset : (if log_size s - 1 <? rc then modify (set_commit_index_ (log_size s - 1))
                  else modify (set_commit_index_ rc)) s = (Val tt, set_commit_index_ c s)).
  { unfold c. destruct (Z.ltb_spec (log_size s - 1) rc); unfold modify; do 3 f_equal; lia. }
  rewrite (bind_val _ _ _ _ _ Hset), (bind_val _ _ _ _ _ (gets_val _ _)).
  change (commit_index_ (set_commit_index_ c s)) with c.
  destruct (Z.ltb_spec c (commit_index_ s)); [split; [unfold applied_to; cbn; lia|done]|].
  destruct (Z.ltb_spec (commit_index_ s) c).
  - pose proof (apply_reaches c (set_commit_index_ c s)) as Ha. destruct (apply_to_state_machine c _) as [r s'].
    change (applied_to (set_commit_index_ c s)) with (applied_to s) in Ha. cbn in Ha.
    destruct Ha as ([= E _] & Ha & Hv). split; [lia|]. intros H1 _. rewrite E. by apply Hv.
  - cbn. split; [unfold applied_to; cbn; lia|]. intros _. unfold applied_to. cbn. lia.
Qed.

(** A follower that takes the AppendEntry [m] over has checked the entry before,
    and applies what is known committed, up to the end of its log. *)
Record takes_over (m : AppendEntryRpc) s s' : Prop := {
  to_match : exists n : nat, ae_prelog_index m = Z.of_nat n - 1 /\ (n <= length (log_of s))%nat /\
    (forall k, n = S k -> exists y, log_of s !! k = Some y /\ en_term y = ae_prelog_term m) /\
    log_of s' = match ae_entry m with [] => log_of s | x :: _ => take n (log_of s) ++ [x] end;
  to_tasks : fed (from_log (log_of s')) (smc_ s) (smc_ s');
  to_applied : applied_to s <= applied_to s' <= Z.max (applied_to s) (Z.min (ae_commit_index m) (log_size s' - 1));
}.

Definition answers (m : AppendEntryRpc) (o : res unit * RaftServer L N T) : Prop :=
  (progress (snd o) = progress s0 /\ log_of (snd o) = log_of s0 \/ takes_over m s0 (snd o)) /\
  (fst o = Val tt -> commit_index_ s0 <= applied_to s0 -> commit_index_ (snd o) <= applied_to (snd o)).

Abbreviation still := (fun s => tame s0 s /\ same progress s0 s).
Lemma still_answers m r s : still s -> answers m (r, s).
Proof. intros [Ht Hp]. split; [left; by split; [|apply Ht]|]. injection Hp as E1 E2 _. intros _. unfold applied_to. cbn. lia. Qed.
Lemma still_answered {A} (m : M (RaftServer L N T) A) P : safe (tame s0) m P -> stable (same progress) m -> safe still m P.
Proof. intros Hm Hs s [Ht Hp]. destruct (Hm s Ht) as [H1 H2]. split; [|done]. split; [done|]. etrans; [exact Hp|apply Hs]. Qed.

Definition lands m (f : M (RaftServer L N T) unit) : Prop := forall s, still s -> answers m (f s).
Lemma lands_still m f P : safe (tame s0) f P -> stable (same progress) f -> lands m f.
Proof.
  intros Hf Hp s Hs. pose proof (still_answered f P Hf Hp s Hs) as [H _]. destruct (f s) as [r s']. by apply still_answers.
Qed.
Lemma lands_bind {A} m (f : M (RaftServer L N T) A) g P :
  safe (tame s0) f P -> stable (same progress) f -> (forall a, P a -> lands m (g a)) -> lands m (bind f g).
Proof.
  intros Hf Hp Hg s Hs. destruct (still_answered f P Hf Hp s Hs) as [H1 H2]. unfold bind.
  destruct (f s) as [[a| | |] s']; [|by apply still_answers..].
  apply (Hg a); [by eapply H2|done].
Qed.

Lemma tail_answers m n ok text a e s :
  regular s -> progress s = progress s0 -> wireable m = true ->
  ae_prelog_index m = Z.of_nat n - 1 -> (n <= length (log_of s0))%nat ->
  (forall k, n = S k -> exists y, log_of s0 !! k = Some y /\ en_term y = ae_prelog_term m) ->
  log_of s = match ae_entry m with [] => log_of s0 | x :: _ => take n (log_of s0) ++ [x] end ->
  answers m ((follower_update_commit_index (ae_commit_index m) ;; make_resp_ae ok text a (ae_lsn m) e) s).
Proof.
  intros Hr Hp Hm Hn Hle Hprev Hlog. set (f := (follower_update_commit_index _ ;; _)).
  unfold wireable, wireable_ae in Hm. rewrite !andb_true_iff in Hm. destruct Hm as [[[[[[[_ _] Hc] Hlsn] _] _] _] _].
  assert (Hs : tame s (snd (f s))).
  { apply safe_tame; [done|]. eapply safe_bind; [by apply safe_follower_update|intros _ _]. by apply safe_resp_ae. }
  assert (Ha : applied_to s <= applied_to (snd (f s)) <= Z.max (applied_to s) (Z.min (ae_commit_index m) (log_size s - 1)) /\
    (fst (f s) = Val tt -> commit_index_ s <= applied_to s -> commit_index_ (snd (f s)) <= applied_to (snd (f s)))).
  { pose proof (follower_update_reaches (ae_commit_index m) s Hr) as H. unfold f, bind.
    destruct (follower_update_commit_index _ s) as [[[]| | |] s1]; destruct H as [H1 H2]; [|by split; [|]..].
    pose proof (frame_make_resp_ae (same progress) ok text a (ae_lsn m) e s1) as [= E1 E2 _].
    unfold applied_to in *. rewrite E1, E2. split; [done|]. intros _. by apply H2. }
  destruct (f s) as [r s']. cbn in Hs, Ha. destruct Hs as [_ El _ Hf], Ha as [Ha Hv]. injection Hp as E1 E2 E3.
  unfold answers, applied_to, log_size in *. rewrite E1, E2 in *. cbn. split; [right|done].
  split; unfold applied_to, log_size; rewrite El; [exists n; by rewrite Hlog|etrans; [by apply fed_pool|done]|done].
Qed.

Lemma accept_lands m n a :
  regular s0 -> wireable m = true -> (forall x, ae_entry m = [x] -> ls_room (Z.of_nat n) x (log_of s0)) ->
  (length (ae_entry m) <= 1)%nat ->
  ae_prelog_index m = Z.of_nat n - 1 -> (n <= length (log_of s0))%nat ->
  (forall k, n = S k -> exists y, log_of s0 !! k = Some y /\ en_term y = ae_prelog_term m) ->
  lands m (accept_ae a m).
Proof.
  intros Hr0 Hm Hroom Hone Hn Hle Hprev. unfold accept_ae.
  destruct (ae_entry m) as [|x [|]] eqn:Ex; [| |cbn in Hone; lia]; cbv zeta.
  - eapply lands_bind; [safe_leaf|solve_frame|intros size _].
    destruct (_ <? _); [eapply lands_still; [apply (safe_throw_line _ _ _ _ any)|solve_frame]|].
    intros s [Ht Hp]. apply (tail_answers m n); try done; [apply Ht|]. rewrite Ex. apply Ht.
  - eapply lands_bind; [safe_leaf|solve_frame|intros i [-> _]].
    destruct (negb _); [eapply lands_still; [apply (safe_throw_line _ _ _ _ any)|solve_frame]|].
    intros s [Ht Hp]. replace (ae_prelog_index m + 1) with (Z.of_nat n) by lia.
    assert (Hw : wireable x = true).
    { unfold wireable at 1, wireable_ae in Hm. rewrite Ex in Hm. cbn [forallb] in Hm. rewrite !andb_true_iff in Hm. tauto. }
    destruct (insert_regular s (Z.of_nat n) x (tm_regular _ _ Ht)) as (s1 & E & Hr1 & En & Es & El); [|by rewrite (tm_log _ _ Ht); apply Hroom|done|].
    { unfold log_size. rewrite (tm_log _ _ Ht). lia. }
    rewrite (bind_val _ _ _ _ _ E). apply (tail_answers m n); try done.
    + pose proof (frame_log_insert (R := same progress) (u32 (Z.of_nat n)) x s) as Hi. rewrite E in Hi. by rewrite <- Hp.
    + by rewrite Ex, El, Nat2Z.id, (tm_log _ _ Ht).
Qed.

Lemma react2ae_answers m :
  regular s0 -> wireable m = true -> (length (ae_entry m) <= 1)%nat ->
  (forall x, ae_entry m = [x] -> ls_room (ae_prelog_index m + 1) x (log_of s0)) ->
  answers m (react2ae m s0).
Proof.
  intros Hr Hm Hone Hroom. pose proof Hm as Hw. unfold wireable, wireable_ae in Hw. rewrite !andb_true_iff in Hw.
  destruct Hw as [[[[[[[Ht _] _] Hlsn] _] _] _] _].
  enough (H : lands m (react2ae m)) by (apply H; split; [by apply tame_refl|done]).
  assert (Hthrow : forall f l w, lands m (throw_line f l w)).
  { intros. eapply lands_still; [apply (safe_throw_line _ _ _ _ any)|solve_frame]. }
  assert (Hresp : forall ok c a e, lands m (make_resp_ae ok c a (ae_lsn m) e)).
  { intros. eapply lands_still; [by apply safe_resp_ae|solve_frame]. }
  unfold react2ae. cbv zeta. destruct (1 <? _); [done|].
  eapply lands_bind; [safe_leaf|solve_frame|intros t _]. destruct (_ <? t); [done|].
  eapply lands_bind; [safe_leaf|solve_frame|intros st _]. destruct (_ && _); [done|].
  eapply lands_bind; [by apply safe_trans2F|apply (frame_trans2F (same progress))|intros _ _].
  eapply lands_bind; [safe_leaf|solve_frame|intros ign _].
  destruct ign; [eapply lands_still; [by apply safe_ret_any|solve_frame]|].
  destruct (Z.eqb_spec (ae_prelog_index m) (-1)) as [E|E].
  - destruct (negb _); [done|]. apply (accept_lands m 0); try done; [|cbn; lia].
    intros x Hx. specialize (Hroom x Hx). by rewrite E in Hroom.
  - eapply lands_bind; [safe_leaf|solve_frame|intros size [-> _]].
    destruct (Z.leb_spec (log_size s0) (ae_prelog_index m)) as [|Hlt]; [done|].
    eapply lands_bind; [safe_leaf|solve_frame|intros y (Hp & Hy & _)].
    destruct (Z.eqb_spec (ae_prelog_term m) (en_term y)) as [Ey|]; cbn [negb]; [|done].
    unfold log_size in Hlt. apply (accept_lands m (S (Z.to_nat (ae_prelog_index m)))); try done; [|lia|lia|].
    + by replace (Z.of_nat (S (Z.to_nat (ae_prelog_index m)))) with (ae_prelog_index m + 1) by lia.
    + intros k [= <-]. eauto.
Qed.
End functions.

(** ** One step of a process *)

Section step.
Context {L N T SM : Type} {LS : LogStore L} {LL : LogStoreLaws L} {TR : Transport N} {TL : TransportLaws N}
  {DT : DeadlineTimer handler T} {RD : Rand} {RC : RaftCodecs} {RCL : RaftCodecsLaws} {BS : BoostSplit}
  {SMC : StateMachine SM}.
Implicit Types (s : RaftServer L N T) (n : Node L N T SM).

(** An AppendEntry that was sent when the log was [log_of s]. *)
Definition told_from s s' (p : packet) : Prop :=
  p.1.1 = APPEND_ENTRY ->
  log_of s' = log_of s /\ intact (log_of s) p /\ exists c, says c p /\ c <= applied_to s'.

(** Taking an entry over sends no AppendEntry. *)
Definition mute s s' : Prop :=
  exists new, calls (network_ s') = calls (network_ s) ++ new /\ Forall (fun p : packet => p.1.1 <> APPEND_ENTRY) new.

Record progresses (l : label) s (r : res unit) s' : Prop := {
  pg_applies : applied_to s' = applied_to s \/
    (state_ s = primary /\ state_ s' = primary /\ log_of s' = log_of s) \/
    exists m peer, l = Deliver APPEND_ENTRY (SerializeToString m) peer /\ wireable m = true /\ takes_over m s s' /\ mute s s';
  pg_sends : exists new, calls (network_ s') = calls (network_ s) ++ new /\ Forall (told_from s s') new;
  pg_commit : r = Val tt -> commit_index_ s' <= applied_to s';
}.

#[local] Instance mute_preorder : PreOrder mute.
Proof.
  split; [intros s; exists []; by rewrite app_nil_r|]. intros s1 s2 s3 (n1 & C1 & H1) (n2 & C2 & H2).
  exists (n1 ++ n2). rewrite C2, C1, app_assoc. split; [done|by apply Forall_app_2].
Qed.
Lemma mute_same s s' : network_ s' = network_ s -> mute s s'.
Proof. intros E. exists []. by rewrite E, app_nil_r. Qed.
Lemma mute_call t a m s : t <> APPEND_ENTRY -> mute s (snd (on_network (make_rpc_call t a m) s)).
Proof.
  intros H. unfold on_network, zoom. pose proof (call_any t a m (network_ s)) as Hc.
  destruct (make_rpc_call t a m (network_ s)) as [r nw]. unfold mute. cbn in *.
  destruct Hc as [-> | ->]; [exists []; by rewrite app_nil_r|]. exists [(t, a, m)]. split; [done|]. by constructor.
Qed.
#[local] Instance frame_mute : Frame (L := L) (N := N) (T := T) mute.
Proof.
  split; [split; [split|..]|..]; try exact _; try (intros; by apply mute_same);
    try (intros; apply stable_zoom; intros; by apply mute_same).
  - intros t a m _ Ht s. by apply mute_call.
  - intros q a. apply stable_zoom. intros s []. by apply mute_same.
  - intros t. apply update_term_stable; [exact _|intros; by apply mute_same..].
  - intros a m s. by apply mute_call.
Qed.
#[local] Instance commits_mute : Commits (L := L) (N := N) (T := T) mute.
Proof. split; [intros; by apply mute_same|]. intros i. apply stable_zoom. intros s []. by apply mute_same. Qed.

Lemma progresses_silent l s r s' :
  network_ s' = network_ s -> commit_index_ s' = commit_index_ s -> applied_to s' = applied_to s ->
  commit_index_ s <= applied_to s -> progresses l s r s'.
Proof.
  intros En Ec Ea Hle. split; [by left|exists []; by rewrite En, app_nil_r|intros _; lia].
Qed.

Lemma told_progresses l s (m : M (RaftServer L N T) unit) :
  regular s -> commit_index_ s <= applied_to s -> told s m (fun _ => True) ->
  (applied_to (snd (m s)) = applied_to s \/ (state_ s = primary /\ state_ (snd (m s)) = primary)) ->
  progresses l s (fst (m s)) (snd (m s)).
Proof.
  intros Hr Hle Hm Ha.
  destruct (Hm s (tame_refl _ Hr)) as (Ht & (_ & new & Hn & Hnew) & Hv); [|done|].
  { split; [done|]. exists []. by rewrite app_nil_r. }
  destruct Ht as [_ Hl (new' & Hn' & Hi) _]. split.
  - destruct Ha as [Ha|Ha]; [by left|right; left; by destruct Ha].
  - exists new. split; [done|]. rewrite Hn in Hn'. apply app_inv_head in Hn' as <-.
    apply Forall_forall. intros p Hp _. rewrite Forall_forall in Hnew, Hi. auto.
  - intros E. destruct (m s) as [r s']. cbn in *. subst r. by apply (Hv tt).
Qed.

(** Committing keeps the role. *)
#[local] Instance calm_state : Calm (L := L) (N := N) (T := T) (same state_).
Proof.
  split; try exact _; try done; try (intros; by apply stable_zoom).
  intros q a. apply stable_zoom. by intros s [].
Qed.
#[local] Instance commits_state : Commits (L := L) (N := N) (T := T) (same state_).
Proof. split; [done|]. intros i. apply stable_zoom. by intros s []. Qed.
#[local] Instance appends_state : Appends (L := L) (N := N) (T := T) (same state_).
Proof. split. intros. by apply stable_zoom. Qed.

Lemma resp_ae_applies m s :
  (state_ s = primary /\ state_ (snd (react2resp_ae m s)) = primary) \/ progress (snd (react2resp_ae m s)) = progress s.
Proof.
  unfold react2resp_ae. cbv zeta. rewrite (bind_val _ _ _ _ _ (gets_val _ _)).
  destruct (_ <? rae_term m); [right; apply (frame_trans2F (same progress))|].
  destruct (_ <? _); [by right|]. rewrite (bind_val _ _ _ _ _ (gets_val _ _)).
  destruct (decide (state_ s = primary)) as [Hp|]; [left|right; by rewrite bool_decide_false].
  rewrite bool_decide_true by done. split; [done|]. rewrite <- Hp. apply (frame_deal_resp_ae (same state_)).
Qed.
Lemma other_applies t bytes peer :
  t <> APPEND_ENTRY -> t <> RESP_APPEND -> t <> CLIENT_APPLY ->
  stable (same progress) (reactToIncomingMsg (L := L) (N := N) (T := T) t bytes peer).
Proof.
  intros H1 H2 H3. unfold reactToIncomingMsg, get_from_state_machine.
  destruct t; try done; try (apply stable_ret; exact _);
    [apply (frame_react2rv (same progress))|apply (frame_react2resp_rv (same progress))|apply progress_query].
Qed.

Lemma message_progresses t bytes peer s :
  regular s -> arrives_intact (Deliver t bytes peer) -> roomy (Deliver t bytes peer) s -> commit_index_ s <= applied_to s ->
  progresses (Deliver t bytes peer) s (fst (reactToIncomingMsg t bytes peer s)) (snd (reactToIncomingMsg t bytes peer s)).
Proof.
  intros Hr Ha Hroom Hle. destruct (decide (t = APPEND_ENTRY)) as [->|Hae].
  { destruct Ha as (g & m & -> & Hm & Ht). unfold roomy in Hroom. unfold reactToIncomingMsg. rewrite parse_serialize in Hroom |- * by done.
    assert (Hone : (length (ae_entry m) <= 1)%nat).
    { destruct Ht as (k & _ & _ & -> & _). rewrite length_take. lia. }
    destruct (react2ae_answers s m Hr Hm Hone) as [H Hv]; [intros x Hx; by rewrite Hx in Hroom|]. split.
    - destruct H as [[[= _ H _] _]|H]; [by left|right; right]. exists m, peer. split_and!; [done..|].
      apply (frame_react2ae mute).
    - destruct (frame_react2ae mute m s) as (new & Hn & Hnew). exists new. split; [done|].
      eapply Forall_impl; [exact Hnew|]. by intros p Hp ?.
    - intros E. by apply Hv. }
  destruct (decide (t = CLIENT_APPLY)) as [->|Hca].
  { unfold reactToIncomingMsg.
    destruct (Commit.append_call_ok peer bytes s (rg_ok _ Hr) Hroom) as (l & E & _). rewrite E. by apply progresses_silent. }
  apply told_progresses; [done|done|by apply told_message|].
  destruct (decide (t = RESP_APPEND)) as [->|Hra].
  - unfold reactToIncomingMsg. destruct (resp_ae_applies (ParseFromString bytes) s) as [|[= _ H _]]; [by right|by left].
  - left. pose proof (other_applies t bytes peer Hae Hra Hca s) as [= _ H _]. done.
Qed.

Lemma perform_progresses l n r n' :
  regular (server n) -> arrives_intact l -> roomy l (server n) -> commit_index_ (server n) <= applied_to (server n) ->
  perform l n = Some (r, n') -> progresses l (server n) r (server n').
Proof.
  intros Hr Ha Hroom Hle E. destruct l as [t bytes peer| | |a|i|i|i|i]; cbn in E; unfold on_server in E.
  { pose proof (message_progresses t bytes peer (server n) Hr Ha Hroom Hle) as H.
    destruct (reactToIncomingMsg t bytes peer (server n)). by simplify_eq/=. }
  all: repeat (match type of E with context [match ?x with _ => _ end] => destruct x eqn:? end); simplify_eq/=;
    try by apply progresses_silent.
  match goal with H : run_completion ?c ?s = (?r, ?s') |- _ =>
    replace s' with (snd (run_completion c s)) by (by rewrite H); replace r with (fst (run_completion c s)) by (by rewrite H) end.
  apply told_progresses; [done|done|destruct c; [apply told_handler|apply told_posted]|].
  left. pose proof (frame_completion (same progress) c (server n)) as [= _ H _]. done.
Qed.

(** Nothing is committed at the start. *)
Lemma start_progress ip port path content entries network sm seed r n :
  start ip port path content entries network sm seed = Some (r, n) ->
  commit_index_ (server n) <= applied_to (server n).
Proof.
  unfold start. destruct (StateMachineControler.new 5 1) as [k| | |] eqn:Ek; try done.
  assert (Hs : stable (same progress) (constructor_body content ;; run : M (RaftServer L N T) unit))
    by (apply construct_stable; [exact _|intros; reflexivity..]).
  specialize (Hs (initial_members ip port path entries network k seed)).
  destruct ((constructor_body content ;; run) _) as [r' s']. intros [= _ <-]. injection Hs as E1 E2 _. cbn in *.
  unfold applied_to. rewrite E1, E2. unfold StateMachineControler.new in Ek. by injection Ek as <-.
Qed.
End step.
End Progress.
