(* ===== verification/Cluster.v ===== *)
(** A cluster: several server processes and the messages between them.  A call
    of one process is a message in flight until it is delivered to the process it
    is addressed to, once, or lost; messages overtake each other.  A process whose
    step throws has ended, and what it had sent stays in flight.

    The theorem is Election Safety, which the code gives as long as no vote
    request of a term reaches a server after an AppendEntry of that term. *)

From S2P Require Import Prelude CxxString Platform Messages Util Interfaces ThreadPool StateMachineControler RaftServer ServerFacts ServerSpecs Node Commit Replication Election ThreeServers.

Module Cluster.
Export Election.

(** What one process sends, another receives. *)
Abbreviation packet := (RPC_TYPE * server_addr * string)%type.

Inductive event :=
| Internal (i : nat) (l : label)
| Receive (i k : nat) (peer : server_addr)
| Client (i : nat) (t : RPC_TYPE) (bytes : string) (peer : server_addr)
| Lose (k : nat).

(** [history] are the labels the process has performed; [up] says it has not
    ended. *)
Record member (L N T SM : Type) := {
  node : Node L N T SM;
  history : list label;
  up : bool;
}.
Arguments node {_ _ _ _} _.
Arguments history {_ _ _ _} _.
Arguments up {_ _ _ _} _.

Record cluster (L N T SM : Type) := {
  members : list (member L N T SM);
  flight : list packet;
}.
Arguments members {_ _ _ _} _.
Arguments flight {_ _ _ _} _.

Section cluster.
Context {L N T SM : Type} {LS : LogStore L} {TR : Transport N} {DT : DeadlineTimer handler T}
  {RD : Rand} {RC : RaftCodecs} {BS : BoostSplit} {SMC : StateMachine SM}.
Implicit Types (c : cluster L N T SM) (m : member L N T SM).

Definition server_of m : RaftServer L N T := server (node m).
Definition sent_by m : list packet := calls (network_ (server_of m)).
Definition address_of m : server_addr := (ip_ (server_of m), port_ (server_of m)).

(** A member performs a label; [rest] is what stays in flight beside its calls. *)
Definition after_label (l : label) (o : res unit * Node L N T SM) m : member L N T SM :=
  {| node := snd o; history := history m ++ [l]; up := match fst o with Val _ => true | _ => false end |}.
Definition act (i : nat) (l : label) (rest : list packet) c : option (cluster L N T SM) :=
  match members c !! i with
  | Some m =>
      if up m then
        match perform l (node m) with
        | Some o =>
            let m' := after_label l o m in
            Some {| members := <[i := m']> (members c);
                    flight := rest ++ skipn (length (sent_by m)) (sent_by m') |}
        | None => None
        end
      else None
  | None => None
  end.

Definition internal (l : label) : bool := match l with Deliver _ _ _ => false | _ => true end.
Definition from_client (t : RPC_TYPE) : bool :=
  match t with CLIENT_APPLY | CLIENT_QUERY => true | _ => false end.

Definition step (e : event) c : option (cluster L N T SM) :=
  match e with
  | Internal i l => if internal l then act i l (flight c) c else None
  | Client i t bytes peer => if from_client t then act i (Deliver t bytes peer) (flight c) c else None
  | Receive i k peer =>
      match flight c !! k, members c !! i with
      | Some (t, a, bytes), Some m =>
          if bool_decide (a = address_of m) then act i (Deliver t bytes peer) (delete k (flight c)) c else None
      | _, _ => None
      end
  | Lose k => Some {| members := members c; flight := delete k (flight c) |}
  end.
Fixpoint steps (es : list event) c : option (cluster L N T SM) :=
  match es with
  | [] => Some c
  | e :: es' => match step e c with Some c' => steps es' c' | None => None end
  end.

(** Every process has just been started, with nothing in flight. *)
Definition started m : Prop :=
  history m = [] /\ up m = true /\
  exists ip port path content entries network sm seed,
    start ip port path content entries network sm seed = Some (Val tt, node m) /\
    calls network = [] /\ utf8 ip = true /\ in_int port = true.
Definition booted c : Prop := Forall started (members c) /\ flight c = [].

(** No vote request of a term came after an AppendEntry of that term. *)
Definition timely_so_far c : Prop := Forall (fun m => timely [] (history m) = true) (members c).

Definition leads (t : Z) m : Prop := up m = true /\ state_ (server_of m) = primary /\ term_ (server_of m) = t.
End cluster.
(** ** One member *)

Section member.
Context {L N T SM : Type} {LS : LogStore L} {TR : Transport N} {TL : TransportLaws N}
  {DT : DeadlineTimer handler T} {DL : DeadlineTimerLaws handler T} {RD : Rand} {RL : RandLaws}
  {RC : RaftCodecs} {RCL : RaftCodecsLaws} {VCL : VoteCodecLaws} {BS : BoostSplit} {SMC : StateMachine SM}.
Implicit Types (s : RaftServer L N T) (n : Node L N T SM) (m : member L N T SM).

Lemma timely_snoc led ls l : timely led (ls ++ [l]) = timely led ls && in_time (led_after ls led) l.
Proof.
  revert led. induction ls as [|l0 ls IH]; intros led; cbn; [by rewrite andb_true_r|].
  by rewrite IH, andb_assoc.
Qed.

Lemma led_after_snoc led ls l : led_after (ls ++ [l]) led = hears l (led_after ls led).
Proof. unfold led_after. by rewrite fold_left_app. Qed.

(** What was sent stays sent. *)
Definition sends s s' : Prop := calls (network_ s) `prefix_of` calls (network_ s').
#[export] Instance sends_preorder : PreOrder sends.
Proof. split; unfold sends; [intros s; reflexivity|intros s1 s2 s3 ? ?; by etrans]. Qed.

Lemma sends_call t a b s : sends s (snd (on_network (make_rpc_call t a b) s)).
Proof.
  unfold on_network, zoom. pose proof (call_any t a b (network_ s)) as Hc.
  destruct (make_rpc_call t a b (network_ s)) as [r nw]. unfold sends. cbn in *.
  destruct Hc as [-> | ->]; [done|]. by eexists.
Qed.

#[export] Instance appends_sends : Appends (L := L) (N := N) (T := T) sends.
Proof. split. intros a m s. apply sends_call. Qed.
#[export] Instance commits_sends : Commits (L := L) (N := N) (T := T) sends.
Proof. split; [intros; unfold sends; reflexivity|]. intros i. apply stable_zoom. intros s []. unfold sends. reflexivity. Qed.
#[export] Instance frame_sends : Frame (L := L) (N := N) (T := T) sends.
Proof.
  split; [split; [split|..]|..]; try exact _; try (intros; unfold sends; cbn; reflexivity);
    try (intros; apply stable_zoom; intros ? ?; unfold sends; reflexivity).
  - intros t a b _ _ s. apply sends_call.
  - intros q a. apply stable_zoom. intros s []. unfold sends. reflexivity.
  - intros t. apply update_term_stable; [exact _|..]; intros; unfold sends; reflexivity.
  - intros a b s. apply sends_call.
Qed.

Lemma perform_frame (R : relation (RaftServer L N T)) {FR : Frame R} {CM : Commits R} {AP : Appends R} l n r n' :
  (forall x s, R s (set_smc_ x s)) -> perform l n = Some (r, n') -> R (server n) (server n').
Proof. intros Hs E. apply (frame_runs R [l] n r n' Hs). cbn. rewrite E. by destruct r as [[]| | |]. Qed.

(** A server that stood for the term [t], or led it, gives no vote for it any
    more. *)
Definition past (led : list Z) (t : Z) s : Prop :=
  t < term_ s \/ (term_ s = t /\ (state_ s <> follower \/ t ∈ led)).

Lemma past_step led t l n r n' :
  one_vote led (server n) -> in_time led l = true -> perform l n = Some (r, n') -> past led t (server n) ->
  votes_for t (server n') = votes_for t (server n) /\
  (r = Val tt -> past (hears l led) t (server n')).
Proof.
  intros Ho Hin E Hp. pose proof (perform_frame (grows term_) l n r n' (fun _ _ => Z.le_refl _) E) as Hg.
  unfold grows in Hg. destruct (step_votes l n r n' (proj1 (ov_addr _ _ Ho)) (proj2 (ov_addr _ _ Ho)) E)
    as [(_ & Hv & _)|[(bytes & peer & -> & He & Hc)|(bytes & peer & -> & Ht & _ & Hv & _)]].
  - split; [apply Hv|]. intros ->. destruct Hp as [Hlt|[<- Hp]]; [left; lia|].
    destruct (Z.eq_dec (term_ (server n')) (term_ (server n))) as [Et|]; [|left; lia].
    right. split; [done|]. destruct Hp as [Hst|Hled]; [|right; by apply hears_subseteq].
    assert (Hrole : forall h : Prop, (h -> term_ (server n) ∈ hears l led) -> role_step h (server n) (server n') ->
      state_ (server n') <> follower \/ term_ (server n) ∈ hears l led).
    { intros h Hh [[= G1 _ _ _]|[[_ [?|Hh']]|(G & _)]]; [left; congruence|lia|right; by apply Hh|left; congruence]. }
    destruct (step_role l n n' E) as [Hr|(bytes & peer & -> & [Hr|(_ & _ & _ & Hc)])].
    + apply (Hrole _) in Hr; [done|]. intros (bytes & peer & -> & Hae). cbn [hears]. rewrite Hae. left.
    + by apply (Hrole False).
    + left. destruct Hc as [[-> _]|[-> _]]; done.
  - cbn in Hin. apply negb_true_iff, bool_decide_eq_false in Hin. destruct Hc as [_ Hoth _ Hterm _ _]. cbn [snd] in *.
    assert (Hne : t < rv_term (ParseFromString bytes)).
    { destruct He as [He|(He & Hf & _)], Hp as [Hp|[Hp Hst]]; try lia.
      destruct Hst as [Hst|Hst]; [done|]. rewrite <- He, Hp in Hin. done. }
    split; [apply Hoth; lia|]. intros _. left. lia.
  - split; [apply Hv|]. intros _. destruct Hp as [Hp|[Hp _]]; [left; lia|].
    destruct (Z.eq_dec (term_ (server n')) t) as [Et|]; [|left; lia].
    right. split; [done|]. right. cbn [hears]. rewrite Ht, Hp. left.
Qed.

(** Who is no follower gave no vote in its term. *)
Definition unspent s : Prop := state_ s <> follower -> votes_for (term_ s) s = [].

Lemma unspent_step led l n n' :
  one_vote led (server n) -> unspent (server n) -> in_time led l = true -> perform l n = Some (Val tt, n') ->
  unspent (server n').
Proof.
  intros Ho Hu Hin E Hst.
  assert (Hsame : term_ (server n') = term_ (server n) -> state_ (server n) <> follower -> votes_for (term_ (server n')) (server n') = []).
  { intros -> Hs. destruct (past_step led (term_ (server n)) l n _ _ Ho Hin E) as [-> _]; [by right; split; [|left]|by apply Hu]. }
  assert (Hrole : forall h, role_step h (server n) (server n') -> votes_for (term_ (server n')) (server n') = []).
  { intros h [[= G1 G2 _ _]|[[G _]|(G & _ & Hlt)]]; [apply Hsame; congruence|done|].
    destruct (step_votes l n _ n' (proj1 (ov_addr _ _ Ho)) (proj2 (ov_addr _ _ Ho)) E)
      as [(_ & Hv & _)|[(bytes & peer & -> & He & Hc)|(bytes & peer & -> & Ht & _ & Hv & _)]].
    - rewrite Hv. by apply (ov_later _ _ Ho).
    - pose proof (cast_role _ _ _ Hc). done.
    - rewrite Hv. by apply (ov_later _ _ Ho). }
  destruct (step_role l n n' E) as [Hr|(bytes & peer & -> & [Hr|(_ & Hc & Et & _)])]; [by eapply Hrole..|].
  apply Hsame; [done|]. by rewrite Hc.
Qed.

(** The invariant of a member, and of one that has ended. *)
Record sound m : Prop := {
  sd_single : single (server_of m);
  sd_vote : up m = true -> one_vote (led_after (history m) []) (server_of m);
  sd_unspent : up m = true -> unspent (server_of m);
  sd_tally : up m = true -> tally (history m) (server_of m);
}.

Lemma sound_started m : started m -> sound m.
Proof.
  intros (Hh & Hup & ip & port & path & content & entries & network & sm & seed & E & Hc & Hu & Hp).
  pose proof (one_vote_start _ _ _ _ _ _ _ _ _ E Hc Hu Hp) as Ho.
  apply start_smc in E as (_ & _ & _ & _ & Es). unfold server_of.
  split; rewrite ?Hh; [apply Ho|done|intros _; unfold unspent, server_of; by rewrite Es|].
  intros _. unfold tally, server_of. by rewrite Es.
Qed.

Lemma sound_step l o m :
  sound m -> up m = true -> perform l (node m) = Some o -> timely [] (history m ++ [l]) = true ->
  sound (after_label l o m).
Proof.
  intros [_ Hv Hu Ht] Hup E Hin. rewrite timely_snoc in Hin. apply andb_prop in Hin as [_ Hin].
  specialize (Hv Hup). specialize (Hu Hup). specialize (Ht Hup). destruct o as [r n'].
  destruct (one_vote_step _ l (node m) r n' Hv Hin E) as [Hs Hv'].
  split; unfold server_of, after_label; cbn [node history up fst snd]; [exact Hs|..];
    intros Hr; destruct r as [[]| | |]; try discriminate.
  - rewrite led_after_snoc. by apply (Hv' tt).
  - by eapply unspent_step.
  - by eapply tally_step.
Qed.

(** The term a member once led is past for it, and what it needed has arrived. *)
Record has_led (t : Z) m : Prop := {
  hl_past : up m = true -> past (led_after (history m) []) t (server_of m);
  hl_none : votes_for t (server_of m) = [];
  hl_majority : majority_ (server_of m) <= 1 + votes_arrived t (history m);
}.

Lemma leads_has_led t m : sound m -> leads t m -> has_led t m.
Proof.
  intros [_ _ Hu Ht] (Hup & Hp & <-). specialize (Hu Hup). specialize (Ht Hup). split.
  - intros _. right. split; [done|]. left. by rewrite Hp.
  - apply Hu. by rewrite Hp.
  - by apply Ht.
Qed.

Lemma has_led_step t l o m :
  sound m -> up m = true -> perform l (node m) = Some o -> timely [] (history m ++ [l]) = true ->
  has_led t m -> has_led t (after_label l o m).
Proof.
  intros [_ Hv _ _] Hup E Hin [Hp Hn Hm]. rewrite timely_snoc in Hin. apply andb_prop in Hin as [_ Hin].
  destruct o as [r n']. destruct (past_step _ t l (node m) r n' (Hv Hup) Hin E (Hp Hup)) as [Hn' Hp'].
  split; unfold server_of, after_label; cbn [node history up fst snd].
  - intros Hr. rewrite led_after_snoc. apply Hp'. by destruct r as [[]| | |].
  - by rewrite Hn'.
  - pose proof (perform_frame (same constants) l (node m) r n' (fun _ _ => eq_refl) E) as Hc.
    apply constants_eq in Hc as (_ & _ & _ & _ & Hmaj). unfold server_of in Hm.
    rewrite votes_arrived_snoc. destruct (vote_arrives t l); lia.
Qed.
End member.
(** ** Counting over the members *)

Section sums.
Context {A : Type} (f : A -> nat).

Lemma sum_perm l1 l2 : l1 ≡ₚ l2 -> sum_list_with f l1 = sum_list_with f l2.
Proof. induction 1; cbn; lia. Qed.

Lemma sum_insert l i x y :
  l !! i = Some x -> (sum_list_with f (<[i := y]> l) + f x = sum_list_with f l + f y)%nat.
Proof.
  revert i. induction l as [|z l IH]; intros [|i] Hi; try done.
  - cbn in Hi. simplify_eq. change (f y + sum_list_with f l + f x = f x + sum_list_with f l + f y)%nat. lia.
  - specialize (IH i Hi). change (f z + sum_list_with f (<[i := y]> l) + f x = f z + sum_list_with f l + f y)%nat. lia.
Qed.

Lemma two_members (l : list A) i j x y :
  l !! i = Some x -> l !! j = Some y -> i <> j -> exists k, l ≡ₚ x :: y :: k.
Proof.
  intros Hi Hj Hij. pose proof (delete_Permutation l i x Hi) as Hp.
  assert (Hy : y ∈ delete i l).
  { apply list_elem_of_lookup. destruct (decide (j < i)%nat).
    - exists j. by rewrite list_lookup_delete_lt.
    - exists (pred j). rewrite list_lookup_delete_ge by lia. by replace (S (pred j)) with j by lia. }
  apply elem_of_Permutation in Hy as [k Hk]. exists k. by rewrite Hp, Hk.
Qed.

Lemma sum_two l i j x y :
  l !! i = Some x -> l !! j = Some y -> i <> j -> (f x + f y <= sum_list_with f l)%nat.
Proof. intros Hi Hj Hij. destruct (two_members l i j x y Hi Hj Hij) as [k ->%sum_perm]. cbn. lia. Qed.

(** At most one each, and two have none. *)
Lemma sum_bound l i j x y :
  Forall (fun z => (f z <= 1)%nat) l -> l !! i = Some x -> l !! j = Some y -> i <> j -> f x = 0%nat -> f y = 0%nat ->
  (sum_list_with f l + 2 <= length l)%nat.
Proof.
  intros Hf Hi Hj Hij Hx Hy. destruct (two_members l i j x y Hi Hj Hij) as [k Hk].
  rewrite (sum_perm _ _ Hk). rewrite Hk in Hf |- *. cbn. rewrite Hx, Hy.
  apply Forall_cons in Hf as [_ [_ Hf]%Forall_cons].
  enough (sum_list_with f k <= length k)%nat by lia. clear Hk. induction Hf; cbn; lia.
Qed.
End sums.

(** ** The cluster *)

Section safety.
Context {L N T SM : Type} {LS : LogStore L} {TR : Transport N} {TL : TransportLaws N}
  {DT : DeadlineTimer handler T} {DL : DeadlineTimerLaws handler T} {RD : Rand} {RL : RandLaws}
  {RC : RaftCodecs} {RCL : RaftCodecsLaws} {VCL : VoteCodecLaws} {BS : BoostSplit} {SMC : StateMachine SM}.
Implicit Types (c : cluster L N T SM) (m : member L N T SM).

Definition count (t : Z) (ps : list packet) : nat := length (filter (fun p => is_vote t p = true) ps).
Definition arrivals (t : Z) m : nat := length (filter (fun l => vote_arrives t l = true) (history m)).
Definition votes_cast (t : Z) m : nat := length (votes_for t (server_of m)).

(** Every vote that arrived or is in flight was cast. *)
Record consistent c : Prop := {
  cs_members : Forall sound (members c);
  cs_votes t : (sum_list_with (arrivals t) (members c) + count t (flight c) <= sum_list_with (votes_cast t) (members c))%nat;
}.

Lemma count_app t ps1 ps2 : count t (ps1 ++ ps2) = (count t ps1 + count t ps2)%nat.
Proof. unfold count. by rewrite filter_app, length_app. Qed.

Lemma count_delete t ps k p :
  ps !! k = Some p -> count t ps = ((if is_vote t p then 1 else 0) + count t (delete k ps))%nat.
Proof.
  intros Hk. unfold count. rewrite (delete_Permutation _ _ _ Hk) at 1. rewrite filter_cons.
  by destruct (decide _), (is_vote t p).
Qed.

(** What [act] does, and what it keeps. *)
Lemma act_inv i l rest c c' :
  act i l rest c = Some c' -> exists m o,
    members c !! i = Some m /\ up m = true /\ perform l (node m) = Some o /\
    members c' = <[i := after_label l o m]> (members c) /\
    flight c' = rest ++ skipn (length (sent_by m)) (sent_by (after_label l o m)).
Proof.
  unfold act. destruct (members c !! i) as [m|] eqn:Em; [|done]. destruct (up m) eqn:Eu; [|done].
  destruct (perform l (node m)) as [o|] eqn:Eo; [|done]. intros [= <-]. by exists m, o.
Qed.

Lemma act_timely i l rest c c' m :
  act i l rest c = Some c' -> timely_so_far c' -> members c !! i = Some m -> timely [] (history m ++ [l]) = true.
Proof.
  intros (m' & o & Hm & _ & _ & E & _)%act_inv Ht Hi. simplify_eq. unfold timely_so_far in Ht. rewrite E in Ht.
  apply (Forall_lookup_1 _ _ i (after_label l o m') Ht). apply list_lookup_insert_eq. by eapply lookup_lt_Some.
Qed.

Lemma sent_after l o m : perform l (node m) = Some o ->
  exists new, sent_by (after_label l o m) = sent_by m ++ new /\
    skipn (length (sent_by m)) (sent_by (after_label l o m)) = new.
Proof.
  intros E. destruct o as [r n']. destruct (perform_frame sends l (node m) r n' (fun _ s => reflexivity _) E) as [new Hn].
  exists new. unfold sent_by, server_of, after_label in *. cbn in *. rewrite Hn. split; [done|]. by rewrite drop_app_length.
Qed.

Lemma act_consistent i l rest c c' :
  Forall sound (members c) -> act i l rest c = Some c' -> timely_so_far c' ->
  (forall t, (sum_list_with (arrivals t) (members c) + (if vote_arrives t l then 1 else 0) + count t rest
     <= sum_list_with (votes_cast t) (members c))%nat) ->
  consistent c'.
Proof.
  intros Hs E Ht Hcount. pose proof (fun m => act_timely _ _ _ _ _ m E Ht) as Htm.
  apply act_inv in E as (m & o & Hm & Hup & Eo & Em & Ef).
  destruct (sent_after l o m Eo) as (new & Hsent & Hnew). rewrite Hnew in Ef. split; rewrite ?Em, ?Ef.
  - apply Forall_insert; [done|]. apply sound_step; auto. by apply (Forall_lookup_1 _ _ _ _ Hs Hm).
  - intros t. specialize (Hcount t). rewrite count_app.
    pose proof (sum_insert (arrivals t) (members c) i m (after_label l o m) Hm) as H1.
    pose proof (sum_insert (votes_cast t) (members c) i m (after_label l o m) Hm) as H2.
    assert (Ha : arrivals t (after_label l o m) = (arrivals t m + (if vote_arrives t l then 1 else 0))%nat).
    { unfold arrivals. cbn. rewrite filter_app, length_app, filter_cons. by destruct (decide _), (vote_arrives t l). }
    assert (Hv : votes_cast t (after_label l o m) = (votes_cast t m + count t new)%nat).
    { unfold votes_cast, votes_for. fold (sent_by (after_label l o m)). rewrite Hsent. unfold sent_by.
      by rewrite filter_app, length_app. }
    lia.
Qed.

(** Every event is [act], for a label of its kind, or a loss. *)
Lemma step_inv e c c' :
  step e c = Some c' ->
  (exists i l rest, act i l rest c = Some c' /\
     forall t, ((if vote_arrives t l then 1 else 0) + count t rest <= count t (flight c))%nat) \/
  (members c' = members c /\ forall t, (count t (flight c') <= count t (flight c))%nat).
Proof.
  destruct e as [i l|i k peer|i t bytes peer|k]; cbn [step].
  - destruct (internal l) eqn:Hl; [|done]. intros E. left. exists i, l, (flight c). split; [done|].
    intros t. by destruct l.
  - destruct (flight c !! k) as [[[t a] bytes]|] eqn:Hk; [|done]. destruct (members c !! i); [|done].
    destruct (bool_decide _); [|done]. intros E. left. eexists i, _, _. split; [exact E|].
    intros t'. rewrite (count_delete t' _ _ _ Hk). by destruct t.
  - destruct (from_client t) eqn:Ht; [|done]. intros E. left. eexists i, _, _. split; [exact E|].
    intros t'. by destruct t.
  - intros [= <-]. right. split; [done|]. intros t. cbn [flight].
    destruct (flight c !! k) as [p|] eqn:Hk; [rewrite (count_delete t _ _ _ Hk); lia|].
    assert (Hd : delete k (flight c) = flight c); [|by rewrite Hd].
    apply list_eq. intros j. destruct (decide (j < k)%nat); [by apply list_lookup_delete_lt|].
    apply lookup_ge_None in Hk. rewrite list_lookup_delete_ge, !lookup_ge_None_2 by lia. done.
Qed.

Lemma step_timely e c c' : step e c = Some c' -> timely_so_far c' -> timely_so_far c.
Proof.
  unfold timely_so_far. intros [(i & l & rest & E & _)|[E _]]%step_inv Ht; [|by rewrite E in Ht].
  pose proof (fun m => act_timely _ _ _ _ _ m E Ht) as Htm.
  apply act_inv in E as (m & o & Hm & _ & _ & Em & _). rewrite Em in Ht. apply Forall_lookup. intros j mj Hj.
  destruct (decide (i = j)) as [->|Hne].
  - specialize (Htm _ Hj). rewrite timely_snoc in Htm. by apply andb_prop in Htm as [? _].
  - apply (Forall_lookup_1 _ _ j _ Ht). by rewrite list_lookup_insert_ne.
Qed.

Lemma step_consistent e c c' :
  consistent c -> step e c = Some c' -> timely_so_far c' -> consistent c'.
Proof.
  intros [Hs Hv] [(i & l & rest & E & Hc)|[E Hc]]%step_inv Ht.
  - eapply act_consistent; [done|exact E|done|]. intros t. specialize (Hv t). specialize (Hc t). lia.
  - split; rewrite E; [done|]. intros t. specialize (Hv t). specialize (Hc t). lia.
Qed.

Lemma step_has_led e c c' t p m :
  consistent c -> step e c = Some c' -> timely_so_far c' -> members c !! p = Some m -> has_led t m ->
  exists m', members c' !! p = Some m' /\ has_led t m'.
Proof.
  intros [Hs _] [(i & l & rest & E & _)|[E _]]%step_inv Ht Hp Hl; [|rewrite E; eauto].
  pose proof (fun m => act_timely _ _ _ _ _ m E Ht) as Htm.
  apply act_inv in E as (m0 & o & Hm & Hup & Eo & Em & _). rewrite Em.
  destruct (decide (i = p)) as [->|Hne]; [|rewrite list_lookup_insert_ne by done; eauto].
  assert (m0 = m) as -> by congruence. exists (after_label l o m). split; [apply list_lookup_insert_eq; by eapply lookup_lt_Some|].
  apply has_led_step; auto. by apply (Forall_lookup_1 _ _ _ _ Hs Hp).
Qed.

Lemma step_length e c c' : step e c = Some c' -> length (members c') = length (members c).
Proof.
  intros [(i & l & rest & E & _)|[-> _]]%step_inv; [|done].
  apply act_inv in E as (m & o & _ & _ & _ & -> & _). by rewrite length_insert.
Qed.

Lemma steps_timely es c c' : steps es c = Some c' -> timely_so_far c' -> timely_so_far c.
Proof.
  revert c. induction es as [|e es IH]; intros c E Ht; cbn in E; [by simplify_eq|].
  destruct (step e c) as [c1|] eqn:E1; [|done]. eapply step_timely; [exact E1|by eapply IH].
Qed.

Lemma steps_consistent es c c' :
  consistent c -> steps es c = Some c' -> timely_so_far c' ->
  consistent c' /\ length (members c') = length (members c).
Proof.
  revert c. induction es as [|e es IH]; intros c Hc E Ht; cbn in E; [by simplify_eq|].
  destruct (step e c) as [c1|] eqn:E1; [|done]. rewrite <- (step_length _ _ _ E1).
  apply IH; [|done|done]. eapply step_consistent; [done|exact E1|by eapply steps_timely].
Qed.

Lemma steps_has_led es c c' t p m :
  consistent c -> steps es c = Some c' -> timely_so_far c' -> members c !! p = Some m -> has_led t m ->
  exists m', members c' !! p = Some m' /\ has_led t m'.
Proof.
  revert c m. induction es as [|e es IH]; intros c m Hc E Ht Hp Hl; cbn in E; [simplify_eq; eauto|].
  destruct (step e c) as [c1|] eqn:E1; [|done]. pose proof (steps_timely _ _ _ E Ht) as Ht1.
  destruct (step_has_led _ _ _ _ _ _ Hc E1 Ht1 Hp Hl) as (m1 & Hp1 & Hl1).
  eapply IH; [by eapply step_consistent|exact E|done|exact Hp1|exact Hl1].
Qed.

Lemma steps_majority es c c' k :
  steps es c = Some c' -> Forall (fun m => k < 2 * majority_ (server_of m)) (members c) ->
  Forall (fun m => k < 2 * majority_ (server_of m)) (members c').
Proof.
  revert c. induction es as [|e es IH]; intros c E Hm; cbn in E; [by simplify_eq|].
  destruct (step e c) as [c1|] eqn:E1; [|done]. apply (IH c1 E). clear IH E.
  apply step_inv in E1 as [(i & l & rest & E & _)|[-> _]]; [|done].
  apply act_inv in E as (m & [r n'] & Hi & _ & Eo & -> & _). apply Forall_insert; [done|].
  pose proof (perform_frame (same constants) l (node m) r n' (fun _ _ => eq_refl) Eo) as Hc.
  apply constants_eq in Hc as (_ & _ & _ & _ & Hmaj).
  pose proof (Forall_lookup_1 _ _ _ _ Hm Hi) as H. unfold server_of, after_label in *. cbn in *. by rewrite Hmaj.
Qed.

Lemma consistent_booted c : booted c -> consistent c.
Proof.
  intros [Hs Hf]. split; [eapply Forall_impl; [exact Hs|apply sound_started]|].
  intros t. rewrite Hf. cbn. rewrite Nat.add_0_r.
  enough (sum_list_with (arrivals t) (members c) = 0)%nat by lia.
  induction Hs as [|m ms (Hh & _) _ IH]; [done|]. cbn. rewrite IH. unfold arrivals. by rewrite Hh.
Qed.

(** Two members that led the term [t] are the same. *)
Lemma one_leader c t p q mp mq :
  consistent c -> members c !! p = Some mp -> members c !! q = Some mq ->
  has_led t mp -> has_led t mq ->
  Z.of_nat (length (members c)) < 2 * majority_ (server_of mp) ->
  Z.of_nat (length (members c)) < 2 * majority_ (server_of mq) -> p = q.
Proof.
  intros [Hs Hv] Hp Hq [_ Np Mp] [_ Nq Mq] Hmp Hmq. destruct (decide (p = q)) as [|Hne]; [done|]. exfalso.
  specialize (Hv t). pose proof (sum_two (arrivals t) _ _ _ _ _ Hp Hq Hne) as Ha.
  assert (Hb : (sum_list_with (votes_cast t) (members c) + 2 <= length (members c))%nat).
  { eapply (sum_bound (votes_cast t)); [|exact Hp|exact Hq|done|by unfold votes_cast; rewrite Np|by unfold votes_cast; rewrite Nq].
    eapply Forall_impl; [exact Hs|]. intros m [Hsi _ _ _]. apply Hsi. }
  unfold votes_arrived in Mp, Mq. unfold arrivals in Ha at 1 2. lia.
Qed.

(** C1: Election Safety.  In a cluster of freshly started servers whose
    configured majority is more than half of them, along every run, with messages
    reordered or lost, timers firing at will and servers ending on exceptions:
    if [p] leads the term [t] at some point and [q] leads it then or later, [p] is
    [q], provided no vote request of a term reached a server after an AppendEntry
    of that term.  Without the proviso the code can elect two
    ([Witness.late_request_two_leaders]). *)
Theorem election_safety c0 es1 c1 es2 c2 t p q mp mq :
  booted c0 ->
  (forall m, m ∈ members c0 -> Z.of_nat (length (members c0)) < 2 * majority_ (server_of m)) ->
  steps es1 c0 = Some c1 -> steps es2 c1 = Some c2 -> timely_so_far c2 ->
  members c1 !! p = Some mp -> leads t mp -> members c2 !! q = Some mq -> leads t mq -> p = q.
Proof.
  intros Hb Hmaj E1 E2 Ht2 Hp Lp Hq Lq. pose proof (steps_timely _ _ _ E2 Ht2) as Ht1.
  destruct (steps_consistent _ _ _ (consistent_booted _ Hb) E1 Ht1) as [Hc1 Hl1].
  destruct (steps_consistent _ _ _ Hc1 E2 Ht2) as [Hc2 Hl2].
  assert (Hsp : sound mp) by apply (Forall_lookup_1 _ _ _ _ (cs_members _ Hc1) Hp).
  assert (Hsq : sound mq) by apply (Forall_lookup_1 _ _ _ _ (cs_members _ Hc2) Hq).
  destruct (steps_has_led _ _ _ _ _ _ Hc1 E2 Ht2 Hp (leads_has_led _ _ Hsp Lp)) as (mp2 & Hp2 & Hlp).
  assert (Hm2 : Forall (fun m => Z.of_nat (length (members c0)) < 2 * majority_ (server_of m)) (members c2)).
  { eapply steps_majority; [exact E2|]. eapply steps_majority; [exact E1|]. by apply Forall_forall. }
  rewrite <- Hl1, <- Hl2 in Hm2. pose proof (proj1 (Forall_lookup _ _) Hm2) as Hm.
  apply (one_leader c2 t p q mp2 mq); eauto. by apply leads_has_led.
Qed.
End safety.
(** ** Witness: an election in a cluster of three, and one that goes wrong *)

Module Witness.
Import ThreeServers.

Abbreviation Cluster := (cluster log_t net_t timer_t (gmap string Z)).
Definition begin (who : server_addr) : member log_t net_t timer_t (gmap string Z) :=
  {| node := boot who []; history := []; up := true |}.
Definition c0 : Cluster := {| members := map begin [A; B; C]; flight := [] |}.
Definition goes (es : list event) (c : Cluster) : Cluster := from_option id c (steps es c).
Lemma goes_steps es c : bool_decide (is_Some (steps es c)) = true -> steps es c = Some (goes es c).
Proof. unfold goes. intros [c' ->]%bool_decide_eq_true. done. Qed.

Lemma boots_all who : returns (booting who []) = true -> utf8 (fst who) = true -> in_int (snd who) = true ->
  started (begin who).
Proof.
  intros E Hu Hp. split; [done|]. split; [done|]. do 8 eexists.
  split; [exact (booting_boot who [] E)|]. split_and!; [done|exact Hu|exact Hp].
Qed.
Lemma c0_booted : booted c0.
Proof.
  split; [|done]. repeat (apply Forall_cons_2; [apply boots_all; vm_compute; reflexivity|]). apply Forall_nil_2.
Qed.
Lemma c0_majority m : m ∈ members c0 -> Z.of_nat (length (members c0)) < 2 * majority_ (server_of m).
Proof.
  intros Hm. change (Z.of_nat (length (members c0))) with 3.
  assert (H : Forall (fun m => 3 < 2 * majority_ (server_of m)) (members c0)); [|exact (proj1 (Forall_forall _ _) H m Hm)].
  apply Forall_forall. intros x Hx. apply Z.ltb_lt.
  revert x Hx. apply Forall_forall. refine (bool_decide_eq_true_1 _ _). vm_compute. reflexivity.
Qed.

(** A stands, B votes, A leads; then its first AppendEntry reaches B. *)
Definition elect : list event := [Internal 0 Elapse_candidate; Internal 0 Run; Receive 1 0 A; Receive 0 1 B].
Definition lead : list event := [Receive 1 1 A].
Definition c1 : Cluster := goes elect c0.
Definition c2 : Cluster := goes lead c1.

Lemma elect_goes : steps elect c0 = Some c1.
Proof. apply goes_steps. vm_compute. reflexivity. Qed.
Lemma lead_goes : steps lead c1 = Some c2.
Proof. apply goes_steps. vm_compute. reflexivity. Qed.
Lemma c2_timely : timely_so_far c2.
Proof. unfold timely_so_far. refine (bool_decide_eq_true_1 _ _). vm_compute. reflexivity. Qed.

Definition leading (t : Z) (m : member log_t net_t timer_t (gmap string Z)) : bool :=
  up m && bool_decide (state_ (server_of m) = primary) && (term_ (server_of m) =? t).
Lemma leading_leads t m : leading t m = true -> leads t m.
Proof. intros [[Hu Hs%bool_decide_eq_true]%andb_prop Ht%Z.eqb_eq]%andb_prop. done. Qed.

Definition who_leads (t : Z) (c : Cluster) : list bool := map (leading t) (members c).

Lemma election_safety_witness :
  who_leads 1 c1 = [true; false; false] /\
  forall q mq, members c2 !! q = Some mq -> leads 1 mq -> 0%nat = q.
Proof.
  split; [vm_compute; reflexivity|]. intros q mq Hq Lq.
  assert (HA : exists mp, members c1 !! 0%nat = Some mp /\ leading 1 mp = true)
    by (eexists; split; vm_compute; reflexivity).
  destruct HA as (mp & Hp & Lp).
  exact (election_safety c0 elect c1 lead c2 1 0 q mp mq c0_booted c0_majority elect_goes lead_goes c2_timely
    Hp (leading_leads 1 mp Lp) Hq Lq).
Defined.

(** A and C stand for the same term; B votes for A, hears A's AppendEntry, and
    then gets C's request. *)
Definition late : list event :=
  [Internal 0 Elapse_candidate; Internal 0 Run; Internal 2 Elapse_candidate; Internal 2 Run;
   Receive 1 0 A; Receive 0 3 B; Receive 1 3 A; Receive 1 2 C; Receive 2 4 B].

(** C32: the proviso of Election Safety is needed.  From the start of three servers,
    with every message sent by one of them and delivered once, there is a run
    after which A and C both lead term 1: the AppendEntry of A gave B its vote
    back, and C's late request gets it. *)
Theorem late_request_two_leaders :
  exists c, steps late c0 = Some c /\ who_leads 1 c = [true; false; true].
Proof. eexists. split; vm_compute; reflexivity. Qed.

(** The process of the member [i] is killed, and started again on its log. *)
Definition restart (i : nat) (who : server_addr) (c : Cluster) : Cluster :=
  match members c !! i with
  | Some m =>
      {| members := <[i := {| node := boot who (log_of (server_of m)); history := []; up := true |}]> (members c);
         flight := flight c |}
  | None => c
  end.

(** A and C stand for term 1 and B votes for A; B is restarted and gets C's request. *)
Definition two_stand : list event :=
  [Internal 0 Elapse_candidate; Internal 0 Run; Internal 2 Elapse_candidate; Internal 2 Run;
   Receive 1 0 A; Receive 0 3 B].
Definition second_vote : list event := [Receive 1 2 C; Receive 2 4 B].

(** C33: Election Safety does not survive a restart.  The term and the vote are not
    on the disk: a server that voted, was killed and comes back votes in the same
    term again, and two servers lead it, though no message came late. *)
Theorem restart_two_leaders :
  exists c1 c2, steps two_stand c0 = Some c1 /\ steps second_vote (restart 1 B c1) = Some c2 /\
    timely_so_far c1 /\ timely_so_far c2 /\ who_leads 1 c2 = [true; false; true].
Proof.
  exists (goes two_stand c0), (goes second_vote (restart 1 B (goes two_stand c0))).
  split_and!; [apply goes_steps; vm_compute; reflexivity..| | |vm_compute; reflexivity];
    unfold timely_so_far; refine (bool_decide_eq_true_1 _ _); vm_compute; reflexivity.
Qed.
End Witness.
End Cluster.
