(* ===== verification/LogMatching.v ===== *)
(** The logs of a cluster: along every run of servers that start with empty logs,
    two entries of the same index and term are the same, and so is all that comes
    before them; and a primary only appends.

    The invariant speaks of the set [K] of logs that are made when a primary
    appends a call, and their prefixes.  Every server's log is in [K], every
    AppendEntry in flight was sent from a log in [K], and a log in [K] is known by
    its length and the term of its last entry, since the primary of a term is one
    server whose log only grows. *)

From S2P Require Import Prelude CxxString Platform Messages Util Interfaces ThreadPool StateMachineControler RaftServer ServerFacts ServerSpecs Node Commit Replication Election ThreeServers Wire Cluster.

Module LogMatching.
Export Wire Cluster.

Section logs.
Context {L N T SM : Type} {LS : LogStore L} {LL : LogStoreLaws L} {TR : Transport N} {TL : TransportLaws N}
  {DT : DeadlineTimer handler T} {DL : DeadlineTimerLaws handler T} {RD : Rand} {RL : RandLaws}
  {RC : RaftCodecs} {RCL : RaftCodecsLaws} {VCL : VoteCodecLaws} {BS : BoostSplit} {SMC : StateMachine SM}.
Implicit Types (s : RaftServer L N T) (n : Node L N T SM) (c : cluster L N T SM) (m : member L N T SM).

Abbreviation log m := (log_of (server_of m)).

(** ** What a run is asked for *)

(** Clients send their calls, as text, to a primary, and there is room in the log
    for the entry that arrives. *)
Definition fair (e : event) c : Prop :=
  match e with
  | Client i CLIENT_APPLY call peer => forall m, members c !! i = Some m ->
      state_ (server_of m) = primary /\ utf8 call = true /\ roomy (Deliver CLIENT_APPLY call peer) (server_of m)
  | Receive i k peer => forall m t a bytes, members c !! i = Some m -> flight c !! k = Some (t, a, bytes) ->
      roomy (Deliver t bytes peer) (server_of m)
  | _ => True
  end.
Fixpoint along (P : event -> cluster L N T SM -> Prop) (es : list event) c : Prop :=
  match es with
  | [] => True
  | e :: es' => P e c /\ match step e c with Some c' => along P es' c' | None => True end
  end.
Definition fair_run : list event -> cluster L N T SM -> Prop := along fair.

Definition empty_logs c : Prop :=
  Forall (fun m => ls_ok (entries_ (server_of m)) /\ log m = []) (members c).

(** ** The primary of a term only appends *)

(** The member does not stand for the term [t], nor will it. *)
Definition settled (t : Z) m : Prop :=
  up m = true -> t < term_ (server_of m) \/ (term_ (server_of m) = t /\ state_ (server_of m) <> candidate).

Lemma settled_step t l o m :
  perform l (node m) = Some o -> up m = true -> settled t m ->
  settled t (after_label l o m) /\ (leads t (after_label l o m) -> leads t m).
Proof.
  intros E Hup Ht. specialize (Ht Hup). destruct o as [r n'].
  pose proof (perform_frame (grows term_) l (node m) r n' (fun _ _ => Z.le_refl _) E) as Hg.
  unfold grows in Hg. unfold settled, leads, server_of, after_label in *. cbn [node up fst snd].
  destruct r as [[]| | |]; try (by split; [intros ?|intros [? _]]).
  assert (Hrole : forall h : Prop, role_step h (server (node m)) (server n') ->
    (t < term_ (server n') \/ (term_ (server n') = t /\ state_ (server n') <> candidate)) /\
    (state_ (server n') = primary -> term_ (server n') = t -> state_ (server (node m)) = primary /\ term_ (server (node m)) = t)).
  { intros h [[= E1 E2 _ _]|[[E1 _]|(E1 & _ & E2)]].
    - rewrite E1, E2. destruct Ht; (split; [tauto|intros; split; [done|lia]]).
    - rewrite E1. split; [|done]. destruct (Z.eq_dec (term_ (server n')) t); [right|left]; [done|lia].
    - rewrite E1. split; [left; lia|done]. }
  destruct (step_role l (node m) n' E) as [H|(bytes & peer & -> & [H|(_ & Hc & Et & Hp)])].
  1,2: destruct (Hrole _ H) as [H1 H2]; split; [done|intros (_ & ? & ?); split; [done|by apply H2]].
  destruct Ht as [Ht|[_ Ht]]; [|by rewrite Hc in Ht]. split; [intros _; left; lia|intros (_ & _ & ?); lia].
Qed.

(** Who takes an entry over is a follower. *)
Lemma react2ae_follower (a : AppendEntryRpc) s :
  partial (react2ae a) s (fun _ s' => entries_ s' = entries_ s \/ state_ s' = follower).
Proof.
  assert (Hresp : forall ok text to lsn e, stable (same entries_) (make_resp_ae (L := L) (N := N) (T := T) ok text to lsn e)).
  { intros. unfold make_resp_ae. repeat (apply stable_bind; [exact _|apply stable_gets; exact _|intros ?]).
    by apply stable_zoom. }
  unfold react2ae. cbv zeta. destruct (1 <? _); [done|].
  apply partial_bind. intros t s1 [= <- <-]. destruct (Z.ltb_spec (ae_term a) (term_ s)) as [Hlt|Hge].
  { intros u s' E. left. match type of E with ?f s = _ => assert (Hs : stable (same entries_) f) by apply Hresp end.
    specialize (Hs s). by rewrite E in Hs. }
  apply partial_bind. intros st s1 [= <- <-]. destruct (_ && _); [done|].
  apply partial_bind. eapply partial_mono; [by apply trans2F_role|]. intros [] s1 [H1 _].
  eapply partial_mono; [apply partial_calm; solve_frame|]. intros u s2 [= E2 _ _ _]. right. congruence.
Qed.

Lemma placed_follows a x l o m peer :
  perform l (node m) = Some o -> l = Deliver APPEND_ENTRY (SerializeToString a) peer -> wireable a = true ->
  placed a x (server_of m) (server (snd o)) -> up (after_label l o m) = true ->
  log (after_label l o m) = log m \/ state_ (server_of (after_label l o m)) = follower.
Proof.
  intros E -> Hw _ Hup. cbn in E. unfold on_server, server_of in *. rewrite parse_serialize in E by done.
  pose proof (react2ae_follower a (server (node m))) as H.
  destruct (react2ae a (server (node m))) as [r s'] eqn:E0. injection E as <-. cbn in *.
  destruct r as [[]| | |]; try done. destruct (H _ _ E0) as [E|E]; [left|by right].
  unfold log_of. by rewrite E.
Qed.

Lemma appends_only l o m t :
  perform l (node m) = Some o -> step_effect l (server_of m) (server (snd o)) ->
  leads t (after_label l o m) -> log m `prefix_of` log (after_label l o m).
Proof.
  intros E He (Hup & Hp & _). destruct He as [[_ Hl _ _]|call peer _ _ Hl _|a x peer El Hw _ Hpl|k p _ _ Hl].
  - change (server (snd o)) with (server_of (after_label l o m)) in Hl. by rewrite Hl.
  - change (server (snd o)) with (server_of (after_label l o m)) in Hl. rewrite Hl. by eexists.
  - destruct (placed_follows a x l o m peer E El Hw Hpl Hup) as [->|Hf]; [done|by rewrite Hf in Hp].
  - change (server (snd o)) with (server_of (after_label l o m)) in Hl. by rewrite Hl.
Qed.

(** ** The logs that are made *)

(** [p] made the logs of the term [t]; [g] is one of them, so while [p] leads [t]
    its log extends [g]. *)
Definition made_by (t : Z) (g : list rpc_Entry) (p : nat) c : Prop :=
  exists m, members c !! p = Some m /\ has_led t m /\ settled t m /\ (leads t m -> g `prefix_of` log m).

Record matching (K : list rpc_Entry -> Prop) c : Prop := {
  mt_nil : K [];
  mt_prefix g x : K (g ++ [x]) -> K g;
  mt_unique g1 x1 g2 x2 : K (g1 ++ [x1]) -> K (g2 ++ [x2]) -> length g1 = length g2 -> en_term x1 = en_term x2 ->
    g1 ++ [x1] = g2 ++ [x2];
  mt_members : Forall (fun m => regular (server_of m) /\ K (log m)) (members c);
  mt_flight : Forall (fun p => exists g, K g /\ intact g p) (flight c);
  mt_made g x : K (g ++ [x]) -> exists p, made_by (en_term x) (g ++ [x]) p c;
}.

Section known.
Context (K : list rpc_Entry -> Prop) c (HK : matching K c).

Lemma known_take g k : K g -> K (take k g).
Proof.
  induction g as [|x g IH] using rev_ind; intros H; [by destruct k|].
  destruct (decide (k <= length g)%nat) as [Hk|Hk].
  - rewrite take_app_le by done. apply IH. by eapply mt_prefix.
  - rewrite take_ge; [done|]. rewrite length_app. cbn. lia.
Qed.

(** Known logs agree up to an entry of the same index and term. *)
Lemma known_agree g1 g2 i x y :
  K g1 -> K g2 -> g1 !! i = Some x -> g2 !! i = Some y -> en_term x = en_term y -> take (S i) g1 = take (S i) g2.
Proof.
  intros H1 H2 Hx Hy Ht. pose proof (known_take g1 (S i) H1) as K1. pose proof (known_take g2 (S i) H2) as K2.
  rewrite (take_S_r _ _ _ Hx) in K1 |- *. rewrite (take_S_r _ _ _ Hy) in K2 |- *.
  apply (mt_unique _ _ HK); [done|done| |done].
  apply lookup_lt_Some in Hx, Hy. rewrite !length_take. lia.
Qed.

(** Known logs with entries of the same term before [n] are the same up to [n]. *)
Lemma known_match g1 g2 (n : nat) t :
  K g1 -> K g2 -> (forall k, n = S k -> exists y, g1 !! k = Some y /\ en_term y = t) ->
  (forall k, n = S k -> exists y, g2 !! k = Some y /\ en_term y = t) -> take n g1 = take n g2.
Proof.
  intros H1 H2 P1 P2. destruct n as [|k]; [done|].
  destruct (P1 k eq_refl) as (x & Hx & Ex), (P2 k eq_refl) as (y & Hy & Ey). eapply known_agree; eauto. congruence.
Qed.

(** The log in which the entry of an AppendEntry was put is known. *)
Lemma known_placed a x g s s' :
  K g -> K (log_of s) -> tells g a -> ae_entry a = [x] -> placed a x s s' -> K (log_of s').
Proof.
  intros Hg Hs Ha Hx [_ (n & Hn & Hle & Hprev & ->) _].
  destruct (tells_entry _ _ _ Ha Hx) as (n' & Hn' & Hgn & Hgprev). assert (n' = n) as -> by lia.
  rewrite (known_match _ _ _ _ Hs Hg Hprev Hgprev), <- (take_S_r _ _ _ Hgn). by apply known_take.
Qed.
End known.

(** ** One event *)

Definition enough c : Prop :=
  Forall (fun m => Z.of_nat (length (members c)) < 2 * majority_ (server_of m)) (members c).

(** A member whose server did a step with such an effect. *)
Section act.
Context (K : list rpc_Entry -> Prop) (i : nat) (l : label) (rest : list packet) c c' m (o : res unit * Node L N T SM).
Hypothesis HK : matching K c.
Hypothesis Hc : consistent c.
Hypothesis Hm : members c !! i = Some m.
Hypothesis Hup : up m = true.
Hypothesis Ho : perform l (node m) = Some o.
Hypothesis Htime : timely [] (history m ++ [l]) = true.
Hypothesis Ec : members c' = <[i := after_label l o m]> (members c).
Hypothesis Ef : flight c' = rest ++ skipn (length (sent_by m)) (sent_by (after_label l o m)).
Hypothesis Hrest : Forall (fun p => exists g, K g /\ intact g p) rest.
Hypothesis He : step_effect l (server_of m) (server (snd o)).

Lemma here : members c' !! i = Some (after_label l o m).
Proof. rewrite Ec. apply list_lookup_insert_eq. by eapply lookup_lt_Some. Qed.

(** What was made stays made. *)
Lemma still_made t g p : made_by t g p c -> made_by t g p c'.
Proof.
  intros (m0 & Hp & Hl & Hs & Hg). destruct (decide (i = p)) as [<-|Hne].
  - assert (m0 = m) as -> by congruence. exists (after_label l o m).
    destruct (settled_step t l o m Ho Hup Hs) as [Hs' Hl']. split_and!; [apply here| |done|].
    + apply has_led_step; try done. by apply (Forall_lookup_1 _ _ _ _ (cs_members _ Hc) Hm).
    + intros H. etrans; [by apply Hg, Hl'|]. by eapply appends_only.
  - exists m0. rewrite Ec, list_lookup_insert_ne by done. done.
Qed.

(** The messages sent in the step. *)
Lemma sent_known (K' : list rpc_Entry -> Prop) :
  (forall g, K g -> K' g) -> K' (log (after_label l o m)) ->
  Forall (fun p => exists g, K' g /\ intact g p) (flight c').
Proof.
  intros Hsub Hlog. rewrite Ef. apply Forall_app_2.
  { eapply Forall_impl; [exact Hrest|]. intros p (g & Hg & Hp). eauto. }
  assert (Hold : K' (log m)) by (apply Hsub; by apply (Forall_lookup_1 _ _ _ _ (mt_members _ _ HK) Hm)).
  change (log_of (server (snd o))) with (log (after_label l o m)) in *.
  assert (Hnew : exists new, sent_by (after_label l o m) = sent_by m ++ new /\
    Forall (fun p => intact (log m) p \/ intact (log (after_label l o m)) p) new).
  { destruct He as [[_ _ (new & En & Hn) _]|call peer _ _ _ [= En _ _ _]|a x peer _ _ _ [_ _ H _]|k p _ _ En];
      [|exists []|exact H|exists []].
    - exists new. split; [exact En|]. eapply Forall_impl; [exact Hn|]. by left.
    - rewrite app_nil_r. split; [|done]. unfold sent_by, server_of, after_label. cbn. by rewrite En.
    - rewrite app_nil_r. split; [|done]. unfold sent_by, server_of, after_label. cbn. by rewrite En. }
  destruct Hnew as (new & -> & Hn). rewrite drop_app_length. eapply Forall_impl; [exact Hn|].
  intros p [Hp|Hp]; eauto.
Qed.

(** A step after which the log is one that was known. *)
Lemma act_known : regular (server (snd o)) -> K (log (after_label l o m)) -> matching K c'.
Proof.
  intros Hr Hlog. split; [apply HK|apply HK|apply HK| | |].
  - rewrite Ec. apply Forall_insert; [apply HK|]. by split.
  - by apply sent_known.
  - intros g x Hg. destruct (mt_made _ _ HK g x Hg) as [p Hp]. exists p. by apply still_made.
Qed.

(** A primary appends: the new log is of a length and term that was not known. *)
Lemma act_appended x :
  enough c -> leads (en_term x) m -> regular (server (snd o)) -> log (after_label l o m) = log m ++ [x] ->
  matching (fun g => K g \/ g = log m ++ [x]) c'.
Proof.
  intros Hmaj Hlead Hr Hlog.
  assert (Hs : sound m) by apply (Forall_lookup_1 _ _ _ _ (cs_members _ Hc) Hm).
  destruct (Forall_lookup_1 _ _ _ _ (mt_members _ _ HK) Hm) as [_ Hold].
  assert (Hno : forall g y, K (g ++ [y]) -> length g = length (log m) -> en_term y <> en_term x).
  { intros g y Hg Hlen Ey. destruct (mt_made _ _ HK g y Hg) as (p & m0 & Hp & Hl & _ & Hpre). rewrite Ey in *.
    assert (p = i) as -> by (eapply (one_leader c (en_term x)); eauto using leads_has_led;
      eapply (Forall_lookup_1 _ _ _ _ Hmaj); eauto).
    assert (m0 = m) as -> by congruence. apply prefix_length in Hpre; [|done]. rewrite length_app in Hpre. cbn in Hpre. lia. }
  split.
  - left. apply HK.
  - intros g y [Hg|[-> ->]%app_inj_tail]; left; [by eapply mt_prefix|done].
  - intros g1 x1 g2 x2 [H1|E1] [H2|E2] Hlen Ht; [by eapply (mt_unique _ _ HK)|..|congruence].
    + apply app_inj_tail in E2 as [-> ->]. by destruct (Hno _ _ H1 Hlen).
    + apply app_inj_tail in E1 as [-> ->]. by destruct (Hno _ _ H2 (eq_sym Hlen)).
  - rewrite Ec. apply Forall_insert.
    + eapply Forall_impl; [apply (mt_members _ _ HK)|]. intros m0 [? ?]. by split; [|left].
    + split; [done|by right].
  - apply sent_known; [by left|by right].
  - intros g y [Hg|[-> ->]%app_inj_tail].
    + destruct (mt_made _ _ HK g y Hg) as [p Hp]. exists p. by apply still_made.
    + exists i, (after_label l o m). split_and!; [apply here| | |intros _; by rewrite Hlog].
      * apply has_led_step; try done. by apply leads_has_led.
      * apply (settled_step _ l o m Ho Hup). intros _. right. by destruct Hlead as (_ & -> & ->).
Qed.
End act.

(** A label that a fair event may have the process [i] perform: what arrives is a
    client's call or was sent from a known log. *)
Record allowed (K : list rpc_Entry -> Prop) (i : nat) (l : label) c : Prop := {
  al_known t bytes peer : l = Deliver t bytes peer ->
    if from_client t then utf8 bytes = true \/ t = CLIENT_QUERY else exists g, K g /\ intact g (t, peer, bytes);
  al_roomy m : members c !! i = Some m -> roomy l (server_of m);
  al_primary m call peer : members c !! i = Some m -> l = Deliver CLIENT_APPLY call peer ->
    state_ (server_of m) = primary;
  al_flight t bytes peer : l = Deliver t bytes peer -> from_client t = false -> exists a, (t, a, bytes) ∈ flight c;
}.

Lemma delete_subseteq {A} k (ps : list A) : delete k ps ⊆ ps.
Proof.
  intros x Hx. apply list_elem_of_lookup in Hx as [j Hj]. destruct (decide (j < k)%nat).
  - rewrite list_lookup_delete_lt in Hj by done. by eapply list_elem_of_lookup_2.
  - rewrite list_lookup_delete_ge in Hj by lia. by eapply list_elem_of_lookup_2.
Qed.
Lemma Forall_subseteq {A} (P : A -> Prop) ps ps' : ps' ⊆ ps -> Forall P ps -> Forall P ps'.
Proof. rewrite !Forall_forall. auto. Qed.

(** Every fair event is a process that performs a label it may, or a loss. *)
Lemma step_allowed K e c c' :
  matching K c -> step e c = Some c' -> fair e c ->
  (exists i l rest, act i l rest c = Some c' /\ rest ⊆ flight c /\
     allowed K i l c /\ forall call peer, l = Deliver CLIENT_APPLY call peer -> e = Client i CLIENT_APPLY call peer) \/
  (members c' = members c /\ exists k, flight c' = delete k (flight c)).
Proof.
  intros HK E Hf. pose proof (mt_flight _ _ HK) as Hfl. destruct e as [i l|i k peer|i t bytes peer|k]; cbn [step] in E.
  - destruct (internal l) eqn:Hi; [|done]. left. exists i, l, (flight c). split_and!; [done|done| |by intros call peer ->].
    split; [by intros t bytes peer ->|by destruct l|by intros m call peer _ ->|by intros t bytes peer ->].
  - destruct (flight c !! k) as [[[t a] bytes]|] eqn:Hk; [|done]. destruct (members c !! i) eqn:Hi; [|done].
    destruct (bool_decide _); [|done]. destruct (Forall_lookup_1 _ _ _ _ Hfl Hk) as (g & Hg & Hp).
    left. eexists i, _, _. split_and!; [exact E|apply delete_subseteq| |by intros call peer0 [= -> _ _]]. split.
    + intros t0 bytes0 peer0 [= <- <- <-]. destruct t; cbn in Hp |- *; try done; eauto.
    + intros m0 Hm0. by eapply Hf.
    + intros m0 call peer0 _ [= -> _ _]. done.
    + intros t0 bytes0 peer0 [= <- <- _] _. exists a. by eapply list_elem_of_lookup_2.
  - destruct (from_client t) eqn:Hcl; [|done]. left. eexists i, _, _.
    split_and!; [exact E|done| |by intros call peer0 [= -> -> ->]]. split.
    + intros t0 bytes0 peer0 [= <- <- <-]. rewrite Hcl. destruct t; try done; [left|by right].
      apply act_inv in E as (m & _ & Hm & _). by destruct (Hf m Hm) as (_ & ? & _).
    + intros m Hm. destruct t; try done. by destruct (Hf m Hm) as (_ & _ & ?).
    + intros m call peer0 Hm [= -> _ _]. by destruct (Hf m Hm) as (? & _).
    + intros t0 bytes0 peer0 [= <- _ _]. by rewrite Hcl.
  - injection E as <-. right. split; [done|]. by exists k.
Qed.

(** The known logs grow by the entry of a client's call. *)
Definition grown (e : event) c (K K' : list rpc_Entry -> Prop) : Prop :=
  (forall g, K g -> K' g) /\
  forall g x, K' (g ++ [x]) -> K (g ++ [x]) \/
    exists i m call peer, e = Client i CLIENT_APPLY call peer /\ members c !! i = Some m /\
      x = Commit.call_entry call (server_of m).
Lemma grown_same e c K : grown e c K K.
Proof. split; [done|]. by left. Qed.

Lemma allowed_intact K i l c : allowed K i l c -> arrives_intact l.
Proof.
  intros [Hl _ _]. destruct l as [t bytes peer| | | | | | |]; try done. specialize (Hl t bytes peer eq_refl).
  destruct t; cbn in Hl |- *; try (by destruct Hl as [?|?]); destruct Hl as (g & _ & Hg); eauto.
Qed.

(** What a process does with a label it may perform. *)
Lemma act_effect K i l rest c c' :
  matching K c -> act i l rest c = Some c' -> allowed K i l c -> exists m o,
    members c !! i = Some m /\ up m = true /\ perform l (node m) = Some o /\
    members c' = <[i := after_label l o m]> (members c) /\
    flight c' = rest ++ skipn (length (sent_by m)) (sent_by (after_label l o m)) /\
    step_effect l (server_of m) (server (snd o)).
Proof.
  intros HK E Hal. apply act_inv in E as (m & o & Hm & Hup & Ho & Ec & Ef). exists m, o. split_and!; try done.
  destruct (Forall_lookup_1 _ _ _ _ (mt_members _ _ HK) Hm) as [Hr _]. destruct o as [r n'].
  eapply perform_effect; [done|by eapply allowed_intact|by apply (al_roomy _ _ _ _ Hal)|exact Ho].
Qed.

Lemma act_matching K e i l rest c c' :
  matching K c -> consistent c -> enough c -> timely_so_far c' -> act i l rest c = Some c' ->
  Forall (fun p => exists g, K g /\ intact g p) rest -> allowed K i l c ->
  (forall call peer, l = Deliver CLIENT_APPLY call peer -> e = Client i CLIENT_APPLY call peer) ->
  exists K', matching K' c' /\ grown e c K K'.
Proof.
  intros HK Hc Hmaj Ht E Hrest Hal Hev. pose proof (fun m => act_timely _ _ _ _ _ m E Ht) as Htime.
  destruct (act_effect K i l rest c c' HK E Hal) as (m & [r n'] & Hm & Hup & Ho & Ec & Ef & He).
  specialize (Htime m Hm). destruct (Forall_lookup_1 _ _ _ _ (mt_members _ _ HK) Hm) as [_ Hlog].
  pose proof He as He0. destruct He0 as [Hk|call peer El Hr' El' [= _ _ Es Et]|a x peer El Hw Hx Hp|k p _ Hr' Es].
  - exists K. split; [|apply grown_same]. eapply (act_known K i l rest c c' m (r, n')); eauto; [apply Hk|].
    cbn [snd] in Hk. change (K (log_of (server n'))). rewrite (tm_log _ _ Hk). exact Hlog.
  - eexists. split.
    + eapply (act_appended K i l rest c c' m (r, n') HK Hc Hm Hup Ho Htime Ec Ef Hrest He
        (Commit.call_entry call (server (node m)))); eauto.
      split; [done|]. split; [by eapply (al_primary _ _ _ _ Hal)|done].
    + split; [by left|]. intros g x [Hg|[_ ->]%app_inj_tail]; [by left|right].
      exists i, m, call, peer. split_and!; [by apply Hev|done|done].
  - exists K. split; [|apply grown_same]. eapply (act_known K i l rest c c' m (r, n')); eauto; [apply Hp|].
    pose proof (al_known _ _ _ _ Hal _ _ _ El) as Hl. cbn in Hl. destruct Hl as (g & Hg & a' & Eb & Hw' & Hta).
    pose proof (parse_serialize a Hw) as Ea. rewrite Eb, parse_serialize in Ea by done. subst a'.
    exact (known_placed K c HK a x g (server (node m)) (server n') Hg Hlog Hta Hx Hp).
  - exists K. split; [|apply grown_same]. eapply (act_known K i l rest c c' m (r, n')); eauto. cbn [snd] in Es.
    change (K (log_of (server n'))). by rewrite Es.
Qed.

Lemma step_matching K e c c' :
  matching K c -> consistent c -> enough c -> timely_so_far c' -> step e c = Some c' -> fair e c ->
  exists K', matching K' c' /\ grown e c K K'.
Proof.
  intros HK Hc Hmaj Ht E Hf. destruct (step_allowed K e c c' HK E Hf) as [(i & l & rest & Ea & Hrest & Hal & Hev)|[Em [k Ef]]].
  - eapply act_matching; try done. by eapply Forall_subseteq, (mt_flight _ _ HK).
  - exists K. split; [|apply grown_same]. split; try apply HK; [by rewrite Em; apply HK|rewrite Ef; eapply Forall_subseteq, (mt_flight _ _ HK); apply delete_subseteq|].
    intros g x Hg. destruct (mt_made _ _ HK g x Hg) as [p Hp]. exists p. unfold made_by. by rewrite Em.
Qed.

(** A member that leads the term [t] after an event led it before, and what it had
    in its log is there. *)
Lemma step_appends K e c c' t p m :
  matching K c -> step e c = Some c' -> fair e c -> members c !! p = Some m -> settled t m ->
  exists m', members c' !! p = Some m' /\ settled t m' /\ (leads t m' -> leads t m /\ log m `prefix_of` log m').
Proof.
  intros HK E Hf Hp Hs. destruct (step_allowed K e c c' HK E Hf) as [(i & l & rest & Ea & _ & Hal & _)|[-> _]];
    [|exists m; by split_and!].
  destruct (act_effect K i l rest c c' HK Ea Hal) as (m0 & o & Hm & Hup & Ho & -> & _ & He).
  destruct (decide (i = p)) as [->|Hne]; [|exists m; rewrite list_lookup_insert_ne by done; by split_and!].
  assert (m0 = m) as -> by congruence. exists (after_label l o m).
  destruct (settled_step t l o m Ho Hup Hs) as [Hs' Hl'].
  split_and!; [apply list_lookup_insert_eq; by eapply lookup_lt_Some|done|].
  intros H. split; [by apply Hl'|by eapply appends_only].
Qed.

(** ** Runs *)

Lemma booted_matching c : booted c -> empty_logs c -> matching (fun g => g = []) c.
Proof.
  intros [Hs Hf] He. split; try done; [by intros [] ? [=]|by intros [] ? ? ? [=]| | |by intros [] ? [=]].
  - apply Forall_lookup. intros i m Hm. destruct (Forall_lookup_1 _ _ _ _ He Hm) as [Hok Hl].
    destruct (Forall_lookup_1 _ _ _ _ Hs Hm) as (_ & _ & ip & port & path & content & entries & network & sm & seed & E & _ & Hu & Hp).
    pose proof (start_entries _ _ _ _ _ _ _ _ _ _ E) as Ee. unfold server_of, log_of in *. rewrite Ee in Hok, Hl.
    destruct (regular_start ip port path content entries network sm seed _ _ E Hok ltac:(by rewrite Hl) Hu Hp) as [Hr Hg].
    split; [exact Hr|]. by rewrite <- Hl, <- Hg.
  - by rewrite Hf.
Qed.

Lemma step_enough e c c' : step e c = Some c' -> enough c -> enough c'.
Proof.
  intros E H. unfold enough. rewrite (step_length _ _ _ E).
  apply (steps_majority [e] c c'); [|exact H]. cbn. by rewrite E.
Qed.

Lemma steps_app es1 es2 c :
  steps (es1 ++ es2) c = match steps es1 c with Some c' => steps es2 c' | None => None end.
Proof. revert c. induction es1 as [|e es1 IH]; intros c; cbn; [done|]. by destruct (step e c). Qed.

(** What is known at the end of a run. *)
Record run_ok c : Prop := {
  ro_consistent : consistent c;
  ro_enough : enough c;
  ro_matching : exists K, matching K c;
}.

Lemma steps_ok es c c' :
  run_ok c -> steps es c = Some c' -> timely_so_far c' -> fair_run es c -> run_ok c'.
Proof.
  revert c. induction es as [|e es IH]; intros c Hok E Ht Hf; cbn in E, Hf; [by simplify_eq|].
  destruct Hf as [Hf Hfs]. destruct (step e c) as [c1|] eqn:E1; [|done]. pose proof (steps_timely _ _ _ E Ht) as Ht1.
  apply (IH c1); [|done..]. destruct Hok as [Hc Hmaj [K HK]].
  destruct (step_matching K e c c1 HK Hc Hmaj Ht1 E1 Hf) as (K' & HK' & _).
  split; [by eapply step_consistent|by eapply step_enough|by exists K'].
Qed.
Lemma booted_ok c : booted c -> empty_logs c -> enough c -> run_ok c.
Proof. intros Hb He Hm. split; [by apply consistent_booted|done|]. eexists. by apply booted_matching. Qed.

(** C2: Log Matching.  In a cluster of freshly started servers with empty logs and
    a sufficient majority, along every run, with messages reordered or lost, timers
    firing at will and servers ending on exceptions: if the logs of two servers
    have entries of the same term at an index, the logs are the same up to that
    index.  The provisos: no vote request of a term reaches a server after an
    AppendEntry of that term ([timely_so_far]); clients send their calls to a primary
    only, as UTF-8 text, and every log has room for the entry that arrives
    ([fair_run]); no server is restarted. *)
Theorem log_matching c0 es c p q mp mq i x y :
  booted c0 -> empty_logs c0 -> enough c0 -> steps es c0 = Some c -> timely_so_far c -> fair_run es c0 ->
  members c !! p = Some mp -> members c !! q = Some mq -> log mp !! i = Some x -> log mq !! i = Some y ->
  en_term x = en_term y -> take (S i) (log mp) = take (S i) (log mq).
Proof.
  intros Hb He Hmaj E Ht Hf Hp Hq Hx Hy Hxy.
  destruct (steps_ok es c0 c (booted_ok _ Hb He Hmaj) E Ht Hf) as [_ _ [K HK]].
  eapply (known_agree K c HK); eauto; eapply (Forall_lookup_1 _ _ _ _ (mt_members _ _ HK)); eauto.
Qed.

Lemma steps_append es c c' t p m :
  run_ok c -> steps es c = Some c' -> timely_so_far c' -> fair_run es c -> members c !! p = Some m -> settled t m ->
  exists m', members c' !! p = Some m' /\ (leads t m' -> leads t m /\ log m `prefix_of` log m').
Proof.
  revert c m. induction es as [|e es IH]; intros c m Hok E Ht Hf Hp Hs; cbn in E, Hf; [simplify_eq; eauto|].
  destruct Hf as [Hf Hfs]. destruct (step e c) as [c1|] eqn:E1; [|done]. pose proof (steps_timely _ _ _ E Ht) as Ht1.
  pose proof Hok as [Hc Hmaj [K HK]]. destruct (step_appends K e c c1 t p m HK E1 Hf Hp Hs) as (m1 & Hp1 & Hs1 & Hl1).
  assert (Hok1 : run_ok c1) by (apply (steps_ok [e] c c1); [done|cbn; by rewrite E1|done|cbn; by rewrite E1]).
  destruct (IH c1 m1 Hok1 E Ht Hfs Hp1 Hs1) as (m' & Hp' & Hl'). exists m'. split; [done|].
  intros H. destruct (Hl' H) as [H1 Hpre]. destruct (Hl1 H1). split; [done|by etrans].
Qed.

(** C3: Leader Append-Only.  Under the provisos of Log Matching (no vote request of a
    term after an AppendEntry of that term, client calls to a primary only, as UTF-8
    text and with room in the log; no restart), a server that leads a term at two
    moments of a run has at the second what it had in its log at the first, at the
    same places. *)
Theorem leader_append_only c0 es1 c1 es2 c2 t p m1 m2 :
  booted c0 -> empty_logs c0 -> enough c0 -> steps es1 c0 = Some c1 -> steps es2 c1 = Some c2 ->
  timely_so_far c2 -> fair_run es1 c0 -> fair_run es2 c1 ->
  members c1 !! p = Some m1 -> leads t m1 -> members c2 !! p = Some m2 -> leads t m2 ->
  log m1 `prefix_of` log m2.
Proof.
  intros Hb He Hmaj E1 E2 Ht Hf1 Hf2 H1 L1 H2 L2. pose proof (steps_timely _ _ _ E2 Ht) as Ht1.
  pose proof (steps_ok es1 c0 c1 (booted_ok _ Hb He Hmaj) E1 Ht1 Hf1) as Hok.
  destruct (steps_append es2 c1 c2 t p m1 Hok E2 Ht Hf2 H1) as (m & Hm & Hl).
  - intros _. right. by destruct L1 as (_ & -> & ->).
  - assert (m = m2) as -> by congruence. by apply Hl.
Qed.

(** A message of the protocol that is read as it was written, with every number in
    the range of its field. *)
Definition read_back {A} `{Wireable A} `{Codec A} (bytes : string) : Prop :=
  exists a : A, bytes = SerializeToString a /\ wireable a = true /\ ParseFromString bytes = a.
Definition well_sent (p : packet) : Prop :=
  let '(t, _, bytes) := p in
  match t with
  | REQUEST_VOTE => read_back (A := RequestVoteRpc) bytes
  | APPEND_ENTRY => read_back (A := AppendEntryRpc) bytes /\
      (length (ae_entry (ParseFromString bytes)) <= 1)%nat
  | RESP_VOTE => read_back (A := Resp_RequestVoteRpc) bytes
  | RESP_APPEND => read_back (A := Resp_AppendEntryRpc) bytes
  | CLIENT_APPLY | CLIENT_QUERY => False
  | _ => True
  end.

Lemma survives_read_back {A} `{CodecLaws A} (P : A -> Prop) bytes : survives P bytes -> read_back (A := A) bytes.
Proof. intros (a & -> & Hw & _). exists a. by rewrite parse_serialize. Qed.
Lemma intact_well_sent g p : intact g p -> well_sent p.
Proof.
  destruct p as [[t a] bytes]. destruct t; cbn; try done; intros H; try (by eapply survives_read_back).
  split; [by eapply survives_read_back|]. destruct H as (m & -> & Hw & Ht). rewrite parse_serialize by done.
  destruct Ht as (n & _ & _ & -> & _). rewrite length_take. lia.
Qed.

(** C27: the messages between servers are well formed.  In a cluster of freshly
    started servers with empty logs and a sufficient majority, along every run
    without restarts in which no vote request of a term reaches a server after an
    AppendEntry of that term ([timely_so_far]), clients send their calls to a primary
    only and as UTF-8 text, and every log has room for the entry that arrives
    ([fair_run]): no number that a server sends leaves the range of its field, and
    every message between servers is read as it was written, with terms, indices,
    sequence numbers, the commit index and the entries; an AppendEntry has one entry
    at most.  A call that is not UTF-8 would not survive: the field is a proto3
    string. *)
Theorem messages_well_sent c0 es c :
  booted c0 -> empty_logs c0 -> enough c0 -> steps es c0 = Some c -> timely_so_far c -> fair_run es c0 ->
  Forall well_sent (flight c).
Proof.
  intros Hb He Hmaj E Ht Hf. destruct (steps_ok es c0 c (booted_ok _ Hb He Hmaj) E Ht Hf) as [_ _ [K HK]].
  eapply Forall_impl; [apply (mt_flight _ _ HK)|]. intros p (g & _ & Hp). by eapply intact_well_sent.
Qed.
End logs.

(** ** Witness: a call reaches two logs, and one that should not have *)

Module Witness.
Import ThreeServers.
Import Cluster.Witness.

Definition fair_b (e : event) (c : Cluster) : bool :=
  match e with
  | Client i CLIENT_APPLY call _ =>
      match members c !! i with
      | Some m => bool_decide (state_ (server_of m) = primary) && utf8 call && (log_size (server_of m) + 1 <? INT_MAX)
      | None => true
      end
  | Receive i k _ =>
      match flight c !! k with
      | Some (APPEND_ENTRY, _, bytes) =>
          let a : AppendEntryRpc := ParseFromString bytes in ae_prelog_index a + 1 + 1 <? INT_MAX
      | Some (CLIENT_APPLY, _, _) => false
      | _ => true
      end
  | _ => true
  end.
Fixpoint along_b (p : event -> Cluster -> bool) (es : list event) (c : Cluster) : bool :=
  match es with
  | [] => true
  | e :: es' => p e c && match step e c with Some c' => along_b p es' c' | None => true end
  end.
Lemma along_b_along (p : event -> Cluster -> bool) (P : event -> Cluster -> Prop) es c :
  (forall e c, p e c = true -> P e c) -> along_b p es c = true -> along P es c.
Proof.
  intros Hp. revert c. induction es as [|e es IH]; intros c H; cbn in *; [done|]. apply andb_prop in H as [H1 H2].
  split; [by apply Hp|]. destruct (step e c); [by apply IH|done].
Qed.

Lemma fair_b_fair e c : fair_b e c = true -> fair e c.
Proof.
  destruct e as [i l|i k peer|i t call peer|k]; cbn [fair_b fair]; try done.
  - intros H m t a bytes _ Hk. rewrite Hk in H. destruct t; try done. unfold roomy. cbv zeta in *.
    destruct (ae_entry _) as [|x [|]]; try done. by apply Z.ltb_lt in H.
  - destruct t; try done. intros H m Hm. rewrite Hm in H.
    apply andb_prop in H as [[Hs%bool_decide_eq_true Hu]%andb_prop Hr%Z.ltb_lt]. by split_and!.
Qed.
Lemma fair_run_b_fair es c : along_b fair_b es c = true -> fair_run es c.
Proof. apply along_b_along, fair_b_fair. Qed.

(** A leads, gets a call of a client, and sends it to B. *)
Definition put_x : string := EasyStateMachine.EasyStateMachine.build_apply_str "x" 7.
Definition put_y : string := EasyStateMachine.EasyStateMachine.build_apply_str "y" 8.
Definition replicate : list event :=
  [Client 0 CLIENT_APPLY put_x client_addr; Receive 1 1 A; Receive 0 2 B; Receive 1 2 A].
Definition es : list event := elect ++ replicate.
Definition c_end : Cluster := goes es c0.

Lemma c0_empty : empty_logs c0.
Proof. unfold empty_logs. repeat (apply Forall_cons_2; [split; vm_compute; reflexivity|]). apply Forall_nil_2. Qed.
Lemma c0_enough : enough c0.
Proof. unfold enough. apply Forall_forall. apply c0_majority. Qed.
Lemma es_runs : steps es c0 = Some c_end.
Proof. apply goes_steps. vm_compute. reflexivity. Qed.
Lemma replicate_runs : steps replicate c1 = Some c_end.
Proof. pose proof es_runs as H. unfold es in H. by rewrite steps_app, elect_goes in H. Qed.
Lemma c_end_timely : timely_so_far c_end.
Proof. unfold timely_so_far. refine (bool_decide_eq_true_1 _ _). vm_compute. reflexivity. Qed.
Lemma es_fair : fair_run es c0.
Proof. apply fair_run_b_fair. vm_compute. reflexivity. Qed.
Lemma elect_fair : fair_run elect c0.
Proof. apply fair_run_b_fair. vm_compute. reflexivity. Qed.
Lemma replicate_fair : fair_run replicate c1.
Proof. apply fair_run_b_fair. vm_compute. reflexivity. Qed.

Definition logs (c : Cluster) : list (list rpc_Entry) := map (fun m => log_of (server_of m)) (members c).
Definition entry_x : rpc_Entry := {| en_term := 1; en_index := 0; en_msg := put_x |}.
Definition entry_y : rpc_Entry := {| en_term := 1; en_index := 0; en_msg := put_y |}.

Lemma c_end_flight : map (fun '(t, _, _) => t) (flight c_end) = [REQUEST_VOTE; APPEND_ENTRY; RESP_APPEND].
Proof. vm_compute. reflexivity. Qed.
Lemma c_end_logs : logs c_end = [[entry_x]; [entry_x]; []].
Proof. vm_compute. reflexivity. Qed.

Lemma log_matching_witness :
  logs c_end = [[entry_x]; [entry_x]; []] /\
  forall mp mq, members c_end !! 0%nat = Some mp -> members c_end !! 1%nat = Some mq ->
    forall x y, log_of (server_of mp) !! 0%nat = Some x -> log_of (server_of mq) !! 0%nat = Some y ->
    en_term x = en_term y -> firstn 1 (log_of (server_of mp)) = firstn 1 (log_of (server_of mq)).
Proof.
  split; [exact c_end_logs|]. intros mp mq Hp Hq x y.
  exact (log_matching c0 es c_end 0 1 mp mq 0 x y c0_booted c0_empty c0_enough es_runs c_end_timely es_fair Hp Hq).
Defined.

Definition first_of (c : Cluster) : member log_t net_t timer_t (gmap string Z) := default (begin A) (members c !! 0%nat).
Lemma first_lookup c : bool_decide (is_Some (members c !! 0%nat)) = true -> members c !! 0%nat = Some (first_of c).
Proof. unfold first_of. intros [m ->]%bool_decide_eq_true. done. Qed.
Lemma A_before : members c1 !! 0%nat = Some (first_of c1) /\ leading 1 (first_of c1) = true.
Proof. split; [apply first_lookup|]; vm_compute; reflexivity. Qed.
Lemma A_after : members c_end !! 0%nat = Some (first_of c_end) /\ leading 1 (first_of c_end) = true.
Proof. split; [apply first_lookup|]; vm_compute; reflexivity. Qed.
Lemma A_logs : log_of (server_of (first_of c1)) = [] /\ log_of (server_of (first_of c_end)) = [entry_x].
Proof. split; vm_compute; reflexivity. Qed.

Lemma leader_append_only_witness :
  log_of (server_of (first_of c1)) = [] /\ log_of (server_of (first_of c_end)) = [entry_x] /\
  log_of (server_of (first_of c1)) `prefix_of` log_of (server_of (first_of c_end)).
Proof.
  destruct A_before as [E1 L1], A_after as [E2 L2]. split_and!; [apply A_logs|apply A_logs|].
  exact (leader_append_only c0 elect c1 replicate c_end 1 0 _ _ c0_booted c0_empty c0_enough elect_goes replicate_runs
    c_end_timely elect_fair replicate_fair E1 (leading_leads 1 _ L1) E2 (leading_leads 1 _ L2)).
Defined.

Lemma messages_well_sent_witness :
  map (fun '(t, _, _) => t) (flight c_end) = [REQUEST_VOTE; APPEND_ENTRY; RESP_APPEND] /\ Forall well_sent (flight c_end).
Proof.
  split; [exact c_end_flight|].
  exact (messages_well_sent c0 es c_end c0_booted c0_empty c0_enough es_runs c_end_timely es_fair).
Defined.

(** B follows A and then takes a call, as A does. *)
Definition fork : list event :=
  elect ++ [Receive 1 1 A; Client 0 CLIENT_APPLY put_x client_addr; Client 1 CLIENT_APPLY put_y client_addr].

(** C34: the proviso of Log Matching is needed, since a follower takes client calls
    too.  A leads term 1 and appends a call, B follows A and appends another one,
    and both logs have at index 0 an entry of term 1, not the same. *)
Theorem call_to_follower_forks_logs :
  exists c, steps fork c0 = Some c /\ timely_so_far c /\ logs c = [[entry_x]; [entry_y]; []].
Proof.
  exists (goes fork c0). split_and!.
  - apply goes_steps. vm_compute. reflexivity.
  - unfold timely_so_far. refine (bool_decide_eq_true_1 _ _). vm_compute. reflexivity.
  - vm_compute. reflexivity.
Qed.

(** A's entry is stored by B too, committed, applied and acknowledged.  Then C,
    whose log is empty, stands for the terms 1 and 2, gets B's vote for 2, and
    gets a call: it replaces A's entry in the log of B, and C applies it. *)
Definition overwrite : list event :=
  es ++ [Receive 0 2 B; Internal 0 (Write_wake 0); Internal 0 (Write_finish 0); Internal 0 Run;
         Internal 2 Elapse_candidate; Internal 2 Run; Internal 2 Elapse_candidate; Internal 2 Run;
         Receive 1 7 C; Receive 2 7 B; Client 2 CLIENT_APPLY put_y client_addr;
         Receive 1 8 C; Receive 2 8 B; Receive 1 8 C; Receive 2 8 B;
         Internal 2 (Write_wake 0); Internal 2 (Write_finish 0)].
Definition machines (c : Cluster) : list (list (string * Z)) := map (fun m => map_to_list (machine (node m))) (members c).
Definition entry_y2 : rpc_Entry := {| en_term := 2; en_index := 0; en_msg := put_y |}.
Definition replies_to (a : server_addr) (c : Cluster) : nat :=
  length (filter (fun p => fst p = (RESP_CLIENT_APPLY, a)) (flight c)).

(** C35: State Machine Safety is not given.  Under all provisos of the theorems
    above there is a run of three servers after which two have applied different
    calls at the first index: the vote does not look at the term of the
    candidate's last entry, so a server without an entry that is committed, and
    whose client was answered, becomes primary and has it overwritten. *)
Theorem committed_entry_overwritten :
  exists c, steps overwrite c0 = Some c /\ timely_so_far c /\ fair_run overwrite c0 /\
    machines c = [[("x", 7)]; []; [("y", 8)]] /\ logs c = [[entry_x]; [entry_y2]; [entry_y2]] /\
    replies_to client_addr c = 1%nat.
Proof.
  exists (goes overwrite c0). split_and!.
  - apply goes_steps. vm_compute. reflexivity.
  - unfold timely_so_far. refine (bool_decide_eq_true_1 _ _). vm_compute. reflexivity.
  - apply fair_run_b_fair. vm_compute. reflexivity.
  - vm_compute. reflexivity.
  - vm_compute. reflexivity.
  - vm_compute. reflexivity.
Qed.
End Witness.
End LogMatching.
