(* ===== verification/Replicas.v ===== *)
(** The replicated state machine: what a cluster is for.  As long as only the
    primary of one term takes calls, the state machines of all servers, at every
    moment and whatever is lost, reordered or fails, are one machine that was fed
    a prefix of one sequence of client calls: [replicated_state_machine].

    The parts it is put together from: the logs agree (LogMatching), the tasks of a
    server are entries of its logs (Wire), they run in the order of the log
    (Commit), and machines that are given the same calls answer alike
    ([StateMachineLaws]).  That a server can be behind, and answer queries all the
    same, is [stale_read]. *)

From S2P Require Import Prelude CxxString Platform Messages Util Interfaces EasyStateMachine ThreadPool StateMachineControler RaftServer ServerFacts ServerSpecs Node Commit Replication Election ThreeServers Wire Cluster LogMatching.

Module Replicas.
Import StateMachineControler (write_thread_pool_, apply_task).
Export LogMatching.

Section replicas.
Context {L N T SM : Type} {LS : LogStore L} {LL : LogStoreLaws L} {TR : Transport N} {TL : TransportLaws N}
  {DT : DeadlineTimer handler T} {DL : DeadlineTimerLaws handler T} {RD : Rand} {RL : RandLaws}
  {RC : RaftCodecs} {RCL : RaftCodecsLaws} {VCL : VoteCodecLaws} {BS : BoostSplit}
  {SMC : StateMachine SM} {SML : StateMachineLaws SM}.
Implicit Types (s : RaftServer L N T) (n : Node L N T SM) (c : cluster L N T SM) (m : member L N T SM).

Abbreviation log m := (log_of (server_of m)).
Abbreviation pool m := (write_thread_pool_ (smc_ (server_of m))).

(** ** The specification: one machine, one sequence of calls *)

Definition apply_all (calls : list string) (sm : SM) : SM := foldl (fun sm call => snd (sm_apply call sm)) sm calls.

Lemma apply_all_snoc calls call sm : apply_all (calls ++ [call]) sm = snd (sm_apply call (apply_all calls sm)).
Proof. unfold apply_all. by rewrite foldl_snoc. Qed.

(** The calls a member's machine has been given. *)
Definition is_apply (l : label) : bool := match l with Write_finish _ => true | _ => false end.
Definition applied m : nat := length (filter (fun l => is_apply l = true) (history m)).

(** ** One member *)

(** The calls and the indices of tasks. *)
Definition calls_of (ts : list apply_task) : list string := map fst ts.
Definition indices_of (ts : list apply_task) : list Z := map snd ts.
Lemma calls_app ts ts' : calls_of (ts ++ ts') = calls_of ts ++ calls_of ts'.
Proof. apply map_app. Qed.
Lemma indices_app ts ts' : indices_of (ts ++ ts') = indices_of ts ++ indices_of ts'.
Proof. apply map_app. Qed.

(** The member has run the tasks [ran] of known entries, in order; its machine is
    the one that was given their calls. *)
Definition of_known (K : list rpc_Entry -> Prop) (t : apply_task) : Prop := exists g, K g /\ from_log g t.
Record replica_of (ran : list apply_task) (K : list rpc_Entry -> Prop) (sm0 : SM) m : Prop := {
  rp_order : Commit.in_order ran (server_of m);
  rp_applied : length ran = applied m;
  rp_machine : sm_equiv (machine (node m)) (apply_all (calls_of ran) sm0);
  rp_known : Forall (of_known K) (ran ++ queue (pool m));
}.
Definition replica (K : list rpc_Entry -> Prop) (sm0 : SM) m : Prop := exists ran, replica_of ran K sm0 m.

Lemma perform_machine l n r n' ran sm0 :
  perform l n = Some (r, n') -> sm_equiv (machine n) (apply_all (calls_of ran) sm0) ->
  sm_equiv (machine n') (apply_all (calls_of (ran ++ task_of_step l n)) sm0) /\
  length (task_of_step l n) = if is_apply l then 1%nat else 0%nat.
Proof.
  intros E Hm. destruct l; cbn in E; unfold on_server in E; cbn [task_of_step is_apply];
    try (rewrite app_nil_r; split; [|done]);
    repeat (match type of E with context [match ?x with _ => _ end] => destruct x eqn:? end); simplify_eq/=; try exact Hm.
  - split; [|done]. rewrite calls_app. cbn [calls_of map]. rewrite apply_all_snoc. destruct a as [call i0]. unfold StateMachineControler.run_apply_task in *.
    pose proof (sm_apply_equiv call _ _ Hm). destruct (sm_apply call (machine n)). by simplify_eq/=.
  - destruct q as [query a]. unfold StateMachineControler.run_query_task in *.
    pose proof (sm_get_equiv query (machine n)) as Hq. destruct (sm_get query (machine n)). simplify_eq/=. by etrans.
Qed.

Lemma member_queue l o m :
  perform l (node m) = Some o -> step_effect l (server_of m) (server (snd o)) ->
  (exists w, ThreadPool.workers (pool m) = [w]) ->
  exists ts, task_of_step l (node m) ++ queue (pool (after_label l o m)) = queue (pool m) ++ ts /\
    Forall (fun t => from_log (log m) t \/ from_log (log (after_label l o m)) t) ts.
Proof. destruct o as [r n']. exact (step_queue l (node m) r n'). Qed.

Lemma replica_step ran K K' sm0 l o m :
  replica_of ran K sm0 m -> perform l (node m) = Some o -> step_effect l (server_of m) (server (snd o)) ->
  (forall g, K g -> K' g) -> K' (log m) -> K' (log (after_label l o m)) ->
  replica_of (ran ++ task_of_step l (node m)) K' sm0 (after_label l o m).
Proof.
  intros [Hin Hlen Hm Hq] E He Hsub Hold Hnew.
  destruct (member_queue l o m E He (proj1 Hin)) as (ts & Eq & Hts). destruct o as [r n'].
  destruct (perform_machine _ _ _ _ _ _ E Hm) as [Hm' Ht]. split.
  - exact (Commit.in_order_step ran l (node m) r n' Hin E).
  - unfold applied in *. cbn. rewrite length_app, filter_app, length_app, Hlen, Ht, filter_cons.
    by destruct (decide _), (is_apply l).
  - exact Hm'.
  - rewrite <- app_assoc, Eq, app_assoc. apply Forall_app_2.
    + eapply Forall_impl; [exact Hq|]. intros t (g & Hg & Hf). exists g. auto.
    + eapply Forall_impl; [exact Hts|]. intros t [Hf|Hf]; eexists; eauto.
Qed.

(** ** Known logs of one term are prefixes of each other *)

Definition all_made (P : rpc_Entry -> Prop) (K : list rpc_Entry -> Prop) : Prop := forall g x, K (g ++ [x]) -> P x.

Section one_term.
Context (K : list rpc_Entry -> Prop) c (HK : matching K c) (t : Z) (Ht : all_made (fun x => en_term x = t) K).

Lemma known_term g i x : K g -> g !! i = Some x -> en_term x = t.
Proof.
  intros Hg Hx. apply (Ht (take i g)). rewrite <- (take_S_r _ _ _ Hx). by eapply known_take.
Qed.

Lemma known_prefix g1 g2 : K g1 -> K g2 -> (length g1 <= length g2)%nat -> g1 `prefix_of` g2.
Proof.
  intros H1 H2 Hle. destruct g1 as [|x g1 _] using rev_ind; [apply prefix_nil|].
  rewrite length_app in Hle. cbn in Hle. destruct (lookup_lt_is_Some_2 g2 (length g1)) as [y Hy]; [lia|].
  assert (Hx : (g1 ++ [x]) !! length g1 = Some x) by by rewrite lookup_app_r, Nat.sub_diag.
  assert (E : take (S (length g1)) (g1 ++ [x]) = take (S (length g1)) g2).
  { eapply (known_agree K c HK); eauto. rewrite (known_term _ _ _ H1 Hx). by rewrite (known_term _ _ _ H2 Hy). }
  rewrite take_ge in E by (rewrite length_app; cbn; lia). rewrite E. apply prefix_take.
Qed.

Lemma known_chain g1 g2 : K g1 -> K g2 -> g1 `prefix_of` g2 \/ g2 `prefix_of` g1.
Proof. intros H1 H2. destruct (Nat.le_ge_cases (length g1) (length g2)); [left|right]; by apply known_prefix. Qed.

(** Tasks of known entries, in order, are the calls of a known log. *)
Lemma tasks_known (ran : list apply_task) :
  indices_of ran = seqZ 0 (Z.of_nat (length ran)) -> Forall (of_known K) ran ->
  exists g, K g /\ length g = length ran /\ calls_of ran = map en_msg g.
Proof.
  induction ran as [|[call i] ran IH] using rev_ind; intros Hs Hk; [by exists []; split; [apply HK|]|].
  apply Forall_app in Hk as [Hk [(g0 & Hg0 & x & Hx & Ex) _]%Forall_cons].
  rewrite indices_app, length_app, Nat2Z.inj_add, seqZ_app, Z.add_0_l in Hs by lia.
  change (indices_of [(call, i)]) with [i] in Hs. change (seqZ _ (Z.of_nat 1)) with [Z.of_nat (length ran)] in Hs.
  apply app_inj_tail in Hs as [Hs ->]. destruct (IH Hs Hk) as (g & Hg & Hl & Eg).
  cbn [fst snd] in *. rewrite <- Nat2Z.inj_add, Nat2Z.id in Hx. cbn [Nat.add] in Hx. rewrite length_app, Nat.add_1_r, calls_app.
  exists (take (S (length ran)) g0). split_and!; [by eapply known_take|..].
  - apply lookup_lt_Some in Hx. rewrite length_take. lia.
  - assert (Hp : g `prefix_of` g0) by (apply known_prefix; [done..|]; apply lookup_lt_Some in Hx; lia).
    rewrite (take_S_r _ _ _ Hx). destruct Hp as [k ->]. rewrite take_app_length' by done.
    by rewrite map_app, Eg, <- Ex.
Qed.

(** The member's log, and the calls its machine was given, in the log [u]. *)
Record explained (sm0 : SM) m (u : list rpc_Entry) : Prop := {
  ex_log : log m `prefix_of` u;
  ex_applied : (applied m <= length u)%nat;
  ex_machine : sm_equiv (machine (node m)) (apply_all (map en_msg (take (applied m) u)) sm0);
}.

Lemma explained_mono sm0 m u u' : u `prefix_of` u' -> explained sm0 m u -> explained sm0 m u'.
Proof.
  intros [k ->] [Hl Ha Hm]. split; [by apply prefix_app_r|rewrite length_app; lia|by rewrite take_app_le].
Qed.

Lemma replica_explained sm0 m : K (log m) -> replica K sm0 m -> exists u, K u /\ explained sm0 m u.
Proof.
  intros Hlog [ran [(_ & Hs & _) Hlen Hm Hq]]. apply Forall_app in Hq as [Hran _].
  change (indices_of (ran ++ queue (pool m)) =
    seqZ 0 (StateMachineControler.applied_index_ (smc_ (server_of m)) + 1)) in Hs.
  rewrite indices_app in Hs. apply seqZ_front in Hs. unfold indices_of at 2 in Hs. rewrite length_map in Hs.
  destruct (tasks_known ran Hs Hran) as (g & Hg & Hl & Eg).
  assert (Hla : length g = applied m) by (by etrans).
  assert (He : explained sm0 m (if decide (length g <= length (log m))%nat then log m else g)).
  { case_decide as Hle.
    - pose proof (known_prefix g (log m) Hg Hlog Hle) as [k E]. split; [done|lia|].
      rewrite E, take_app_length', <- Eg by lia. exact Hm.
    - split; [apply known_prefix; [done..|lia]|lia|]. rewrite take_ge, <- Eg by lia. exact Hm. }
  eexists. split; [|exact He]. by case_decide.
Qed.

(** One log explains all members. *)
Lemma all_explained sm0 ms :
  Forall (fun m => K (log m) /\ replica K sm0 m) ms -> exists u, K u /\ Forall (fun m => explained sm0 m u) ms.
Proof.
  induction 1 as [|m ms [Hlog Hr] _ (u & Hu & Hms)]; [exists []; split; [apply HK|done]|].
  destruct (replica_explained sm0 m Hlog Hr) as (v & Hv & Hm). destruct (known_chain u v Hu Hv) as [Huv|Hvu].
  - exists v. split; [done|]. constructor; [done|]. eapply Forall_impl; [exact Hms|]. intros m'. by apply explained_mono.
  - exists u. split; [done|]. constructor; [by eapply explained_mono|done].
Qed.
End one_term.

(** ** Runs *)

(** Only the primary of the term [t] takes calls. *)
Definition in_term (t : Z) (e : event) c : Prop :=
  match e with
  | Client i CLIENT_APPLY _ _ => forall m, members c !! i = Some m -> term_ (server_of m) = t
  | _ => True
  end.

(** An entry of that term, of a call that a client made in [es]. *)
Definition of_client (t : Z) (es : list event) (x : rpc_Entry) : Prop :=
  en_term x = t /\ exists i peer, Client i CLIENT_APPLY (en_msg x) peer ∈ es.

Record replicated (t : Z) (all : list event) (sm0 : SM) c : Prop := {
  rd_consistent : consistent c;
  rd_enough : enough c;
  rd_known : exists K, matching K c /\ all_made (of_client t all) K /\ Forall (replica K sm0) (members c);
}.

Lemma replica_mono K K' sm0 m : (forall g, K g -> K' g) -> replica K sm0 m -> replica K' sm0 m.
Proof.
  intros H [ran [Hin Hlen Hm Hq]]. exists ran. split; [done..|].
  eapply Forall_impl; [exact Hq|]. intros t (g & Hg & Hf). exists g. auto.
Qed.

Lemma step_replicated t all sm0 e c c' :
  replicated t all sm0 c -> step e c = Some c' -> timely_so_far c' -> fair e c -> in_term t e c -> e ∈ all ->
  replicated t all sm0 c'.
Proof.
  intros [Hc Hmaj (K & HK & Hmade & Hr)] E Ht Hf Hterm Hall.
  split; [by eapply step_consistent|by eapply step_enough|].
  destruct (step_matching K e c c' HK Hc Hmaj Ht E Hf) as (K' & HK' & Hsub & Hnew). exists K'. split_and!; [done|..].
  - intros g x [Hg|(i & m & call & peer & -> & Hm & ->)]%Hnew; [by eapply Hmade|]. split; [by eapply Hterm|eauto].
  - destruct (step_allowed K e c c' HK E Hf) as [(i & l & rest & Ea & _ & Hal & _)|[-> _]];
      [|eapply Forall_impl; [exact Hr|intros m; by apply replica_mono]].
    destruct (act_effect K i l rest c c' HK Ea Hal) as (m & o & Hm & Hup & Ho & Em & _ & He).
    pose proof (here i l c c' m o Hm Em) as Hm'. rewrite Em. apply Forall_insert.
    + eapply Forall_impl; [exact Hr|]. intros m0. by apply replica_mono.
    + destruct (Forall_lookup_1 _ _ _ _ Hr Hm) as [ran Hran]. eexists. apply (replica_step ran K K' sm0 l o m); try done.
      * apply Hsub. by apply (Forall_lookup_1 _ _ _ _ (mt_members _ _ HK) Hm).
      * by apply (Forall_lookup_1 _ _ _ _ (mt_members _ _ HK') Hm').
Qed.

Lemma steps_replicated t all sm0 es c c' :
  replicated t all sm0 c -> steps es c = Some c' -> timely_so_far c' -> fair_run es c -> along (in_term t) es c ->
  es ⊆ all -> replicated t all sm0 c'.
Proof.
  revert c. induction es as [|e es IH]; intros c Hr E Ht Hf Hin Hsub; cbn in E, Hf, Hin; [by simplify_eq|].
  destruct Hf as [Hf Hfs], Hin as [Hi His]. destruct (step e c) as [c1|] eqn:E1; [|done].
  apply (IH c1); [|done..|set_solver]. eapply step_replicated; [exact Hr|exact E1|by eapply steps_timely|done|done|set_solver].
Qed.

Lemma booted_replicated t all sm0 c :
  booted c -> empty_logs c -> enough c -> Forall (fun m => sm_equiv (machine (node m)) sm0) (members c) ->
  replicated t all sm0 c.
Proof.
  intros Hb He Hmaj Hsm. split; [by apply consistent_booted|done|]. exists (fun g => g = []).
  split_and!; [by apply booted_matching|by intros [] ? [=]|]. apply Forall_lookup. intros i m Hm.
  destruct (Forall_lookup_1 _ _ _ _ (proj1 Hb) Hm) as (Hh & _ & ip & port & path & content & entries & network & sm & seed & E & _).
  exists []. split.
  - exact (Commit.start_in_order _ _ _ _ _ _ _ _ _ _ E).
  - unfold applied. by rewrite Hh.
  - exact (Forall_lookup_1 _ _ _ _ Hsm Hm).
  - destruct (start_smc _ _ _ _ _ _ _ _ _ _ E) as (Es & _). unfold server_of.
    unfold StateMachineControler.new in Es. injection Es as <-. apply Forall_nil_2.
Qed.

(** C4: the replicated state machine.  In a cluster of freshly started servers with
    empty logs, a sufficient majority and machines that answer alike, consider a run
    in which no server is restarted and: no vote request of a term reaches a server
    after an AppendEntry of that term ([timely_so_far], without which two servers can
    lead a term, [late_request_two_leaders]); clients send their calls to a primary
    only, as UTF-8 text, and every log has room for the entry that arrives
    ([fair_run]); and all these calls reach a server in the term [t] ([in_term]).
    Then, with messages reordered or lost, timers firing at will, workers
    interleaving and servers ending on exceptions, there is one sequence [u] of entries, each of a call that a
    client made, such that every log is a prefix of [u] and every machine answers as
    one that was given the first calls of [u], as many as the server has applied; so
    machines that have applied equally many answer every query alike. *)
Theorem replicated_state_machine c0 es c t sm0 :
  booted c0 -> empty_logs c0 -> enough c0 -> Forall (fun m => sm_equiv (machine (node m)) sm0) (members c0) ->
  steps es c0 = Some c -> timely_so_far c -> fair_run es c0 -> along (in_term t) es c0 ->
  (exists u, Forall (of_client t es) u /\ Forall (fun m => explained sm0 m u) (members c)) /\
  (forall m1 m2 query, m1 ∈ members c -> m2 ∈ members c -> applied m1 = applied m2 ->
     fst (sm_get query (machine (node m1))) = fst (sm_get query (machine (node m2)))).
Proof.
  intros Hb He Hmaj Hsm E Ht Hf Hin.
  destruct (steps_replicated t es sm0 es c0 c (booted_replicated _ _ _ _ Hb He Hmaj Hsm) E Ht Hf Hin) as [_ _ (K & HK & Hmade & Hr)];
    [done|].
  assert (Hu : exists u, Forall (of_client t es) u /\ Forall (fun m => explained sm0 m u) (members c)).
  { destruct (all_explained K c HK t) with (sm0 := sm0) (ms := members c) as (u & Hu & Hex).
    - intros g x Hg. apply (Hmade g x Hg).
    - apply Forall_lookup. intros i m Hm. split; [by apply (Forall_lookup_1 _ _ _ _ (mt_members _ _ HK) Hm)|].
      exact (Forall_lookup_1 _ _ _ _ Hr Hm).
    - exists u. split; [|done]. apply Forall_lookup. intros i x Hx. apply (Hmade (take i u)).
      rewrite <- (take_S_r _ _ _ Hx). by eapply known_take. }
  split; [done|]. destruct Hu as (u & _ & Hex). intros m1 m2 query H1 H2 Ea. rewrite Forall_forall in Hex.
  apply sm_get_reply. rewrite (ex_machine _ _ _ (Hex m1 H1)), Ea. symmetry. apply (Hex m2 H2).
Qed.
End replicas.

(** ** Witness: a call is applied by two servers *)

Module Witness.
Import ThreeServers.
Import Cluster.Witness LogMatching.Witness.

(** A hears that B stores the call, applies it, and tells B, which applies it too. *)
Definition everywhere : list event :=
  es ++ [Receive 0 2 B; Internal 0 (Write_wake 0); Internal 0 (Write_finish 0);
         Receive 1 2 A; Internal 1 (Write_wake 0); Internal 1 (Write_finish 0)].
Definition c_applied : Cluster := goes everywhere c0.

Definition in_term_b (t : Z) (e : event) (c : Cluster) : bool :=
  match e with
  | Client i CLIENT_APPLY _ _ => match members c !! i with Some m => term_ (server_of m) =? t | None => true end
  | _ => true
  end.
Lemma in_term_b_ok e c : in_term_b 1 e c = true -> in_term 1 e c.
Proof.
  destruct e as [| |i [] call peer|]; intros H; try done. intros m Hm. cbn in H. rewrite Hm in H. by apply Z.eqb_eq.
Qed.
Lemma everywhere_runs : steps everywhere c0 = Some c_applied.
Proof. apply goes_steps. vm_compute. reflexivity. Qed.
Lemma c_applied_timely : timely_so_far c_applied.
Proof. unfold timely_so_far. refine (bool_decide_eq_true_1 _ _). vm_compute. reflexivity. Qed.
Lemma everywhere_fair : fair_run everywhere c0.
Proof. apply fair_run_b_fair. vm_compute. reflexivity. Qed.
Lemma everywhere_in_term : along (in_term 1) everywhere c0.
Proof. apply (along_b_along (in_term_b 1)); [exact in_term_b_ok|vm_compute; reflexivity]. Qed.
Lemma c0_machines : Forall (fun m => sm_equiv (machine (node m)) ∅) (members c0).
Proof. repeat (apply Forall_cons_2; [intros k; vm_compute; reflexivity|]). apply Forall_nil_2. Qed.

Definition applied_everywhere : list nat := map applied (members c_applied).
Lemma two_applied : applied_everywhere = [1%nat; 1%nat; 0%nat].
Proof. vm_compute. reflexivity. Qed.

Lemma replicated_state_machine_witness :
  applied_everywhere = [1%nat; 1%nat; 0%nat] /\
  exists u, Forall (of_client 1 everywhere) u /\ Forall (fun m => explained ∅ m u) (members c_applied).
Proof.
  split; [exact two_applied|].
  exact (proj1 (replicated_state_machine c0 everywhere c_applied 1 ∅ c0_booted c0_empty c0_enough c0_machines
    everywhere_runs c_applied_timely everywhere_fair everywhere_in_term)).
Defined.

(** ** Reads are not linearizable *)

(** A has applied the call and answered it; the client asks B, which stores the
    call but has not heard that it is committed. *)
Definition written : list event :=
  es ++ [Receive 0 2 B; Internal 0 (Write_wake 0); Internal 0 (Write_finish 0); Internal 0 Run].
Definition read_at_b : list event :=
  [Client 1 CLIENT_QUERY (EasyStateMachine.EasyStateMachine.build_query_str "x") client_addr;
   Internal 1 (Read_wake 0); Internal 1 (Read_finish 0); Internal 1 Run].

(** The calls of the servers to the client, in the order of the servers. *)
Definition to_client (c : Cluster) : list (RPC_TYPE * string) :=
  concat (map (fun m => map (fun '(t, _, bytes) => (t, bytes))
    (filter (fun '(_, a, _) => a = client_addr) (sent_by m))) (members c)).

(** C39: a client that has the answer to its write can read the value from before
    it.  In a run of three servers, under all provisos, the call that sets x to 7
    is answered; a query of x that the client makes afterwards, to another server,
    returns 0, as every server answers queries from its own machine. *)
Theorem stale_read :
  exists c1 c2, steps written c0 = Some c1 /\ steps read_at_b c1 = Some c2 /\
    timely_so_far c2 /\ fair_run (written ++ read_at_b) c0 /\ along (in_term 1) (written ++ read_at_b) c0 /\
    to_client c1 = [(RESP_CLIENT_APPLY, SerializeToString {| ra_ok := true |})] /\
    to_client c2 = [(RESP_CLIENT_APPLY, SerializeToString {| ra_ok := true |});
                    (RESP_CLIENT_QUERY, SerializeToString {| rq_ok := true; rq_v := 0 |})].
Proof.
  exists (goes written c0), (goes read_at_b (goes written c0)).
  split; [apply goes_steps; vm_compute; reflexivity|]. split; [apply goes_steps; vm_compute; reflexivity|].
  split; [unfold timely_so_far; refine (bool_decide_eq_true_1 _ _); vm_compute; reflexivity|].
  split; [apply fair_run_b_fair; vm_compute; reflexivity|].
  split; [apply (along_b_along (in_term_b 1)); [exact in_term_b_ok|vm_compute; reflexivity]|].
  split; vm_compute; reflexivity.
Qed.
End Witness.
End Replicas.
