(* ===== verification/Agreement.v ===== *)
(** Machines agree over several terms.  [replicated_state_machine] is about runs
    in which only one term takes calls; here any number of servers lead, one after
    the other, and their machines still are one machine that was fed prefixes of
    one sequence of client calls, provided that leaders are complete
    ([complete]): a server that sends an AppendEntry has in its log what its own
    machine was given; and at the moment a primary commits, its log has, as far
    as it reaches, what any machine was given.  This is Raft's Leader Completeness,
    asked of the primary that commits alone; of followers, and of primaries that
    only send, nothing is asked about other machines.  Raft's election makes leaders
    complete; the vote of this code does not, and [committed_entry_overwritten] is
    a run in which a leader that is not complete makes machines differ.  What is
    shown is that everything else does its part: stale leaders, messages that come
    late, are sent again or never come, followers that are behind or diverge, servers that end.

    The invariant: an AppendEntry in flight names a commit index up to which the
    log it was sent from was given to some machine ([backed]). *)

From S2P Require Import Prelude CxxString Platform Messages Util Interfaces EasyStateMachine ThreadPool StateMachineControler RaftServer ServerFacts ServerSpecs Node Commit Replication Election ThreeServers Wire Progress Cluster LogMatching Replicas.

Module Agreement.
Import StateMachineControler (write_thread_pool_, applied_index_, apply_task).
Export Progress Replicas.

(** ** Lists that agree as far as both reach *)

Section lists.
Context {A : Type}.
Implicit Types l u : list A.

Definition comparable l u : Prop := l `prefix_of` u \/ u `prefix_of` l.

Lemma comparable_sym l u : comparable l u -> comparable u l.
Proof. intros [|]; [by right|by left]. Qed.
Lemma comparable_prefix l l' u : l `prefix_of` l' -> comparable l' u -> comparable l u.
Proof. intros H [H'|H']; [left; by etrans|by eapply prefix_weak_total]. Qed.
Lemma comparable_short l u : comparable l u -> (length l <= length u)%nat -> l `prefix_of` u.
Proof. intros [|[k ->]] Hle; [done|]. rewrite length_app in Hle. destruct k; [by rewrite app_nil_r|cbn in Hle; lia]. Qed.
Lemma comparable_upper (ls : list (list A)) :
  (forall l u, l ∈ ls -> u ∈ ls -> comparable l u) -> exists u, (u = [] \/ u ∈ ls) /\ Forall (fun l => l `prefix_of` u) ls.
Proof.
  induction ls as [|l ls IH]; intros H; [exists []; split; [by left|done]|].
  destruct IH as (u & Hu & Hls); [intros l1 l2 ? ?; apply H; by right|].
  assert (Hc : comparable l u).
  { destruct Hu as [->|Hu]; [right; apply prefix_nil|]. apply H; [by left|by right]. }
  destruct Hc as [Hc|Hc].
  - exists u. split; [destruct Hu; [by left|right; by right]|by constructor].
  - exists l. split; [right; by left|]. constructor; [done|]. eapply Forall_impl; [exact Hls|]. intros l' ?. by transitivity u.
Qed.
Lemma prefix_snoc_lookup l u x : l `prefix_of` u -> u !! length l = Some x -> l ++ [x] `prefix_of` u.
Proof.
  intros [k ->] H. rewrite lookup_app_r, Nat.sub_diag in H by done. destruct k; simplify_eq/=.
  apply prefix_app, prefix_cons, prefix_nil.
Qed.
Lemma prefix_take_le l u k : l `prefix_of` u -> (k <= length l)%nat -> take k u `prefix_of` l.
Proof. intros [w ->] H. rewrite take_app_le by done. apply prefix_take. Qed.
End lists.

Lemma below_max (a b c : Z) : a <= b <= Z.max a c -> b <> a -> b <= c.
Proof. lia. Qed.

Section agreement.
Context {L N T SM : Type} {LS : LogStore L} {LL : LogStoreLaws L} {TR : Transport N} {TL : TransportLaws N}
  {DT : DeadlineTimer handler T} {DL : DeadlineTimerLaws handler T} {RD : Rand} {RL : RandLaws}
  {RC : RaftCodecs} {RCL : RaftCodecsLaws} {VCL : VoteCodecLaws} {BS : BoostSplit}
  {SMC : StateMachine SM} {SML : StateMachineLaws SM}.
Implicit Types (s : RaftServer L N T) (n : Node L N T SM) (c : cluster L N T SM) (m : member L N T SM).

Abbreviation log m := (log_of (server_of m)).
Abbreviation texts m := (map en_msg (log_of (server_of m))).
Abbreviation pool m := (write_thread_pool_ (smc_ (server_of m))).

(** ** What the machines are given *)

Section given.
Context (c0 : cluster L N T SM).

(** The tasks that the member [i] has run since the start [c0], and all that its
    machine was given: those, the one that runs and those that wait. *)
Definition ran (i : nat) m : list apply_task :=
  match members c0 !! i with Some m0 => applied_tasks (history m) (node m0) | None => [] end.
Definition handed (i : nat) m : list apply_task := ran i m ++ queue (pool m).
Definition given (i : nat) m : list string := calls_of (handed i m).

(** The member's history leads from the start to where it is. *)
Definition follows (i : nat) m : Prop :=
  up m = true -> exists m0, members c0 !! i = Some m0 /\ perform_all (history m) (node m0) = Some (Val tt, node m).

Lemma perform_all_snoc ls l n n1 o :
  perform_all ls n = Some (Val tt, n1) -> perform l n1 = Some o -> perform_all (ls ++ [l]) n = Some o.
Proof.
  revert n. induction ls as [|l0 ls IH]; intros n E Ho; cbn in E |- *.
  - simplify_eq. rewrite Ho. by destruct o as [[[]| | |] ?].
  - destruct (perform l0 n) as [[[]  n2]|]; try done; [by apply IH|destruct ls..]; by simplify_eq.
Qed.
Lemma applied_tasks_snoc ls l n n1 o :
  perform_all ls n = Some (Val tt, n1) -> perform l n1 = Some o ->
  applied_tasks (ls ++ [l]) n = applied_tasks ls n ++ task_of_step l n1.
Proof.
  revert n. induction ls as [|l0 ls IH]; intros n E Ho; cbn in E |- *.
  - simplify_eq. rewrite Ho. destruct o as [r n']. destruct r; [by rewrite app_nil_r|..];
      (destruct l; try done; cbn in Ho |- *; destruct (ThreadPool.finish _ _) as [[t p]|]; [|done];
       destruct (StateMachineControler.run_apply_task _ _); by simplify_eq).
  - destruct (perform l0 n) as [[[] n2]|]; try done; [|destruct ls; by simplify_eq..].
    rewrite (IH n2) by done. by rewrite app_assoc.
Qed.

Lemma follows_step i l o m :
  follows i m -> up m = true -> perform l (node m) = Some o ->
  follows i (after_label l o m) /\ ran i (after_label l o m) = ran i m ++ task_of_step l (node m).
Proof.
  intros Hf Hup Ho. destruct (Hf Hup) as (m0 & Hm0 & E). split.
  - intros Hup'. exists m0. split; [done|]. cbn [after_label history node up fst] in *.
    rewrite (perform_all_snoc _ _ _ _ _ E Ho). by destruct o as [[[]| | |] ?].
  - unfold ran. rewrite Hm0. by apply (applied_tasks_snoc _ _ _ (node m) o).
Qed.

(** The member and what it was given, which is its log's calls 0, 1, ... in
    order. *)
Record on_course (K : list rpc_Entry -> Prop) (sm0 : SM) (i : nat) m : Prop := {
  oc_follows : follows i m;
  oc_replica : replica_of (ran i m) K sm0 m;
  oc_commit : up m = true -> commit_index_ (server_of m) <= applied_to (server_of m);
}.

Lemma handed_indices i m : Commit.in_order (ran i m) (server_of m) ->
  indices_of (handed i m) = seqZ 0 (applied_to (server_of m) + 1) /\ -1 <= applied_to (server_of m).
Proof. intros (_ & H & _ & Ha). by split. Qed.
Lemma indices_length ts : length (indices_of ts) = length ts.
Proof. apply length_map. Qed.
Lemma indices_lookup ts k t : ts !! k = Some t -> indices_of ts !! k = Some (snd t).
Proof. intros H. transitivity (snd <$> ts !! k); [apply list_lookup_fmap|by rewrite H]. Qed.
Lemma handed_length i m : Commit.in_order (ran i m) (server_of m) ->
  Z.of_nat (length (handed i m)) = applied_to (server_of m) + 1.
Proof. intros [H Ha]%handed_indices. rewrite <- indices_length, H, length_seqZ. lia. Qed.
Lemma handed_index i m k t : Commit.in_order (ran i m) (server_of m) -> handed i m !! k = Some t -> snd t = Z.of_nat k.
Proof.
  intros [H Ha]%handed_indices Hk%indices_lookup. rewrite H in Hk. apply lookup_seqZ in Hk. lia.
Qed.
Lemma given_length i m : length (given i m) = length (handed i m).
Proof. apply length_map. Qed.

Lemma grows_into (ts ts' : list apply_task) u :
  calls_of ts `prefix_of` u ->
  (forall k t, (ts ++ ts') !! k = Some t -> (length ts <= k)%nat -> u !! k = Some (fst t)) ->
  calls_of (ts ++ ts') `prefix_of` u.
Proof.
  intros Hp. induction ts' as [|t ts' IH] using rev_ind; intros H; [by rewrite app_nil_r|].
  rewrite app_assoc, calls_app. apply prefix_snoc_lookup.
  - apply IH. intros k t' Hk. apply H. rewrite app_assoc. by apply lookup_app_l_Some.
  - unfold calls_of. rewrite length_map. apply H; [|rewrite length_app; lia].
    by rewrite app_assoc, lookup_app_r, Nat.sub_diag.
Qed.

(** ** One step of a member *)

(** The member sends an AppendEntry; it has its machine apply entries as primary. *)
Definition sends m m' : Prop :=
  exists p, p ∈ skipn (length (sent_by m)) (sent_by m') /\ p.1.1 = APPEND_ENTRY.
Definition commits m m' : Prop :=
  state_ (server_of m) = primary /\ state_ (server_of m') = primary /\
  applied_to (server_of m') <> applied_to (server_of m).

(** Its log has what its machine was given; it has, as far as it reaches, what any
    machine was given. *)
Definition keeps_own (i : nat) m : Prop := given i m `prefix_of` texts m.
Definition has_committed c m : Prop :=
  forall j mj, members c !! j = Some mj -> comparable (texts m) (given j mj).

(** What an AppendEntry says committed was given to a machine. *)
Definition backed (K : list rpc_Entry -> Prop) c (p : packet) : Prop :=
  p.1.1 = APPEND_ENTRY -> exists g j mj, K g /\ intact g p /\ members c !! j = Some mj /\
    let rc := ae_commit_index (ParseFromString p.2) in
    rc < Z.of_nat (length g) /\ take (Z.to_nat (rc + 1)) (map en_msg g) `prefix_of` given j mj.

Section one.
Context (K : list rpc_Entry -> Prop) (sm0 : SM) c (i : nat) (l : label) m (o : res unit * Node L N T SM).
Hypothesis HK : matching K c.
Hypothesis Hm : members c !! i = Some m.
Hypothesis Hup : up m = true.
Hypothesis Ho : perform l (node m) = Some o.
Hypothesis He : step_effect l (server_of m) (server (snd o)).
Hypothesis Hpg : progresses l (server_of m) (fst o) (server (snd o)).
Hypothesis Hon : on_course K sm0 i m.
Hypothesis Hcomp : forall j mj, members c !! j = Some mj -> comparable (given i m) (given j mj).
Hypothesis Hpair : forall j k mj mk, members c !! j = Some mj -> members c !! k = Some mk -> comparable (given j mj) (given k mk).
Hypothesis Hown : sends m (after_label l o m) \/ commits m (after_label l o m) -> keeps_own i m.
Hypothesis Hahead : commits m (after_label l o m) -> has_committed c m.
Hypothesis Hback : forall (a : AppendEntryRpc) peer, l = Deliver APPEND_ENTRY (SerializeToString a) peer -> exists b, backed K c (APPEND_ENTRY, b, SerializeToString a).

Abbreviation m' := (after_label l o m).

Lemma order_after : Commit.in_order (ran i m') (server_of m').
Proof.
  destruct (follows_step i l o m (oc_follows _ _ _ _ Hon) Hup Ho) as [_ ->].
  apply (Commit.in_order_step _ l (node m) (fst o) (snd o)); [apply Hon|by rewrite <- surjective_pairing].
Qed.
Lemma handed_grows : exists ts, handed i m' = handed i m ++ ts /\
  Forall (fun t => from_log (log m) t \/ from_log (log m') t) ts.
Proof.
  destruct (member_queue l o m Ho He (proj1 (rp_order _ _ _ _ (oc_replica _ _ _ _ Hon)))) as (ts & Eq & Hts).
  exists ts. split; [|done]. destruct (follows_step i l o m (oc_follows _ _ _ _ Hon) Hup Ho) as [_ E].
  unfold handed. by rewrite E, <- !app_assoc, Eq.
Qed.
Lemma given_grows : given i m `prefix_of` given i m'.
Proof. destruct handed_grows as (ts & E & _). unfold given. rewrite E, calls_app. by eexists. Qed.

(** New tasks of a log that is a list as far as they go keep what was given in
    that list. *)
Lemma given_into g u :
  (exists ts, handed i m' = handed i m ++ ts /\ Forall (from_log g) ts) ->
  given i m `prefix_of` u ->
  (forall k y, applied_to (server_of m) < Z.of_nat k <= applied_to (server_of m') -> g !! k = Some y ->
     u !! k = Some (en_msg y)) ->
  given i m' `prefix_of` u.
Proof.
  intros (ts & E & Hts) Hp Hu. unfold given. rewrite E. apply grows_into; [done|].
  intros k t Hk Hle.
  assert (Hlo : applied_to (server_of m) + 1 <= Z.of_nat k).
  { rewrite <- (handed_length i m (rp_order _ _ _ _ (oc_replica _ _ _ _ Hon))). by apply inj_le. }
  pose proof Hk as Hk'. rewrite <- E in Hk'.
  assert (Hhi : Z.of_nat k < applied_to (server_of m') + 1).
  { rewrite <- (handed_length i m' order_after). apply inj_lt. exact (lookup_lt_Some _ _ _ Hk'). }
  apply (handed_index i m' k t order_after) in Hk'. rewrite lookup_app_r in Hk by done.
  destruct (Forall_lookup_1 _ _ _ _ Hts Hk : from_log g t) as (y & Hy & <-).
  rewrite Hk', Nat2Z.id in Hy. apply (Hu k y); [lia|done].
Qed.
Lemma given_same : applied_to (server_of m') = applied_to (server_of m) -> given i m' = given i m.
Proof.
  intros Ea. destruct given_grows as [k E]. pose proof (f_equal length E) as El.
  rewrite length_app, !given_length in El. pose proof (handed_length i m (rp_order _ _ _ _ (oc_replica _ _ _ _ Hon))) as H1.
  pose proof (handed_length i m' order_after) as H2. destruct k; [by rewrite app_nil_r in E|]. cbn in El. lia.
Qed.

(** A primary is given what comes next in its log. *)
Lemma given_primary :
  log m' = log m -> given i m `prefix_of` texts m -> given i m' `prefix_of` texts m.
Proof.
  intros El Hp. apply (given_into (log m)); [|done|].
  - destruct handed_grows as (ts & E & Hts). exists ts. split; [done|]. eapply Forall_impl; [exact Hts|].
    rewrite El. by intros t [|].
  - intros k y _ Hk. by rewrite list_lookup_fmap, Hk.
Qed.

(** A follower is given what the log of the AppendEntry has, as far as it was
    said to be committed. *)
Lemma taken_over a g k y :
  takes_over a (server_of m) (server_of m') -> K g -> K (log m) -> tells g a ->
  ae_commit_index a < Z.of_nat (length g) -> Z.of_nat k <= Z.min (ae_commit_index a) (log_size (server_of m') - 1) ->
  log m' !! k = Some y -> g !! k = Some y.
Proof.
  intros [(n & Hn & Hle & Hprev & El) _ _] Hg Hlog (n' & Hn' & Hgn & Hae & Hgprev) Hrc Hk Hy.
  assert (n' = n) as -> by lia. pose proof (known_match K c HK _ _ _ _ Hlog Hg Hprev Hgprev) as E.
  rewrite El in Hy. rewrite take_1_drop in Hae. destruct (g !! n) as [x|] eqn:Hx; rewrite Hae in Hy.
  - rewrite E, <- (take_S_r _ _ _ Hx) in Hy. apply lookup_take_Some in Hy. tauto.
  - apply lookup_ge_None in Hx. rewrite <- (lookup_take_lt g n k) by lia. rewrite <- E. by rewrite lookup_take_lt by lia.
Qed.

Lemma handed_delivered P t bytes peer :
  l = Deliver t bytes peer -> fed P (smc_ (server_of m)) (smc_ (server_of m')) ->
  exists ts, handed i m' = handed i m ++ ts /\ Forall P ts.
Proof.
  intros El (ts & Ep & Hts). exists ts. split; [|done].
  destruct (follows_step i l o m (oc_follows _ _ _ _ Hon) Hup Ho) as [_ E]. unfold handed. rewrite E.
  assert (task_of_step l (node m) = []) as -> by by rewrite El.
  rewrite app_nil_r, <- app_assoc. f_equal. rewrite Ep. unfold queue, ThreadPool.running. cbn. by rewrite app_assoc.
Qed.

Lemma given_step :
  K (log m) ->
  (forall j mj, members c !! j = Some mj -> comparable (given i m') (given j mj)) /\
  (sends m m' -> given i m' `prefix_of` texts m).
Proof.
  intros Hlog. destruct (decide (applied_to (server_of m') = applied_to (server_of m))) as [Ea|Ea].
  { rewrite given_same by done. split; [done|]. intros H. apply Hown. by left. }
  destruct (pg_applies _ _ _ _ Hpg) as [|[(Hp & Hp' & El)|(a & peer & El & Hw & Hto & new & En & Hmute)]]; [done|..].
  - assert (Hh : commits m m') by done. pose proof (given_primary El (Hown (or_intror Hh))) as Hg.
    split; [|done]. intros j mj Hj. eapply comparable_prefix; [exact Hg|by apply (Hahead Hh j)].
  - destruct (Hback a peer El) as [b Hb]. destruct (Hb eq_refl) as (g & j & mj & Hg & Hin & Hj & Hrc & Hgiven).
    cbn [snd] in Hrc, Hgiven. rewrite parse_serialize in Hrc, Hgiven by done.
    destruct Hin as (a' & Ea' & Hw' & Ht). assert (a' = a) as ->.
    { pose proof (parse_serialize a Hw) as E1. rewrite Ea', parse_serialize in E1 by done. done. }
    pose proof (handed_length i m (rp_order _ _ _ _ (oc_replica _ _ _ _ Hon))) as Hl.
    pose proof (handed_length i m' order_after) as Hl'. rewrite <- given_length in Hl, Hl'.
    pose proof (to_applied _ _ _ Hto) as Happ. change (server (snd o)) with (server_of m') in *.
    assert (Hmin : applied_to (server_of m') <= Z.min (ae_commit_index a) (log_size (server_of m') - 1)) by exact (below_max _ _ _ Happ Ea).
    assert (Hlt : Z.of_nat (length (given i m)) <= Z.of_nat (length (given j mj))).
    { apply prefix_length in Hgiven. rewrite length_take, length_map in Hgiven. lia. }
    assert (Hin : given i m' `prefix_of` given j mj).
    { apply (given_into (log m')); [by eapply handed_delivered, Hto|apply comparable_short; [by apply Hcomp|lia]|].
      intros k y Hk Hy. apply (taken_over a g) in Hy; try done; [|lia].
      eapply prefix_lookup_Some; [|exact Hgiven]. rewrite lookup_take_lt by lia. by rewrite list_lookup_fmap, Hy. }
    split.
    + intros k mk Hk. eapply comparable_prefix; [exact Hin|by apply (Hpair j k)].
    + intros (p & Hp & Hae). exfalso. change (sent_by m') with (calls (network_ (server_of m'))) in Hp.
      rewrite En, drop_app_length in Hp. exact (proj1 (Forall_forall _ _) Hmute p Hp Hae).
Qed.
End one.

(** ** Runs *)

(** A text that a client called a server with in the events [all]. *)
Definition called (all : list event) (x : string) : Prop := exists i peer, Client i CLIENT_APPLY x peer ∈ all.

(** Leader Completeness: a server that sends an AppendEntry has in its log what its own
    machine was given, and a primary that commits also has, as far as its log
    reaches, what any other machine was given. *)
Definition complete (e : event) c : Prop :=
  forall c' i m m', step e c = Some c' -> members c !! i = Some m -> members c' !! i = Some m' ->
    (sends m m' \/ commits m m' -> keeps_own i m) /\ (commits m m' -> has_committed c m).

Record agreeing (all : list event) (sm0 : SM) c : Prop := {
  ag_consistent : consistent c;
  ag_enough : enough c;
  ag_known : exists K, matching K c /\ all_made (fun x => called all (en_msg x)) K /\ Forall (backed K c) (flight c) /\
    forall i m, members c !! i = Some m -> on_course K sm0 i m;
  ag_pair j k mj mk : members c !! j = Some mj -> members c !! k = Some mk -> comparable (given j mj) (given k mk);
}.

Lemma backed_mono (K K' : list rpc_Entry -> Prop) c c' p :
  (forall g, K g -> K' g) ->
  (forall j mj, members c !! j = Some mj -> exists mj', members c' !! j = Some mj' /\ given j mj `prefix_of` given j mj') ->
  backed K c p -> backed K' c' p.
Proof.
  intros HK Hg Hb Ha. destruct (Hb Ha) as (g & j & mj & Hk & Hin & Hj & Hrc & Hp).
  destruct (Hg j mj Hj) as (mj' & Hj' & Hp'). exists g, j, mj'. cbv zeta. split_and!; auto. by etrans.
Qed.
Lemma on_course_mono (K K' : list rpc_Entry -> Prop) sm0 i m :
  (forall g, K g -> K' g) -> on_course K sm0 i m -> on_course K' sm0 i m.
Proof.
  intros HK [Hf [H1 H2 H3 H4] Hc]. split; [done| |done]. split; [done..|].
  eapply Forall_impl; [exact H4|]. intros t (g & Hg & Ht). exists g. auto.
Qed.

Section act.
Context (K K' : list rpc_Entry -> Prop) (sm0 : SM) (i : nat) (l : label) (rest : list packet) c c'.
Hypothesis HK : matching K c.
Hypothesis HK' : matching K' c'.
Hypothesis Hsub : forall g, K g -> K' g.
Hypothesis Ea : act i l rest c = Some c'.
Hypothesis Hrest : rest ⊆ flight c.
Hypothesis Hal : allowed K i l c.
Hypothesis Hback : Forall (backed K c) (flight c).
Hypothesis Hon : forall i m, members c !! i = Some m -> on_course K sm0 i m.
Hypothesis Hpair : forall j k mj mk, members c !! j = Some mj -> members c !! k = Some mk -> comparable (given j mj) (given k mk).
Hypothesis Hcompl : forall m m', members c !! i = Some m -> members c' !! i = Some m' ->
  (sends m m' \/ commits m m' -> keeps_own i m) /\ (commits m m' -> has_committed c m).

Lemma act_agreeing :
  Forall (backed K' c') (flight c') /\ (forall j m, members c' !! j = Some m -> on_course K' sm0 j m) /\
  forall j k mj mk, members c' !! j = Some mj -> members c' !! k = Some mk -> comparable (given j mj) (given k mk).
Proof.
  destruct (act_effect K i l rest c c' HK Ea Hal) as (m & o & Hm & Hup & Ho & Em & Ef & He).
  destruct (Forall_lookup_1 _ _ _ _ (mt_members _ _ HK) Hm) as [Hr Hlog].
  pose proof (here i l c c' m o Hm Em) as Hm'.
  destruct (Forall_lookup_1 _ _ _ _ (mt_members _ _ HK') Hm') as [_ Hlog'].
  assert (Hpg : progresses l (server_of m) (fst o) (server (snd o))).
  { destruct o as [r n']. eapply perform_progresses; [done|by eapply allowed_intact|by apply (al_roomy _ _ _ _ Hal)| |exact Ho].
    by apply (oc_commit _ _ _ _ (Hon i m Hm)). }
  destruct (Hcompl m _ Hm Hm') as [Hown Hahead].
  destruct (given_step K sm0 c i l m o HK Hup Ho He Hpg (Hon i m Hm) (fun j mj => Hpair i j m mj Hm) Hpair Hown Hahead) as [Hg Hin]; [|done|].
  { intros a peer ->. destruct (al_flight _ _ _ _ Hal _ _ _ eq_refl eq_refl) as [b Hb]. exists b.
    by apply (proj1 (Forall_forall _ _) Hback). }
  pose proof (given_grows K sm0 i l m o Hup Ho He (Hon i m Hm)) as Hgrow.
  assert (Hgrows : forall j mj, members c !! j = Some mj ->
    exists mj', members c' !! j = Some mj' /\ given j mj `prefix_of` given j mj').
  { intros j mj Hj. destruct (decide (i = j)) as [<-|Hne]; [assert (mj = m) as -> by congruence; eauto|].
    exists mj. by rewrite Em, list_lookup_insert_ne. }
  assert (Hother : forall j mj, members c' !! j = Some mj -> j = i /\ mj = after_label l o m \/ j <> i /\ members c !! j = Some mj).
  { intros j mj Hj. destruct (decide (j = i)) as [->|Hne]; [left; split; [done|congruence]|right].
    by rewrite Em, list_lookup_insert_ne in Hj by done. }
  split_and!.
  - rewrite Ef. apply Forall_app_2.
    { apply (Forall_subseteq _ _ _ Hrest). eapply Forall_impl; [exact Hback|]. intros p. by apply backed_mono. }
    destruct (pg_sends _ _ _ _ Hpg) as (new & En & Hnew). change (calls (network_ (server (snd o)))) with (sent_by (after_label l o m)) in En.
    assert (Hskip : skipn (length (sent_by m)) (sent_by (after_label l o m)) = new) by (rewrite En; apply drop_app_length).
    rewrite Hskip. apply Forall_forall. intros p Hp Hae.
    destruct (proj1 (Forall_forall _ _) Hnew p Hp Hae) as (El & Hi & k & Hk & Hle).
    assert (Hgiven : given i (after_label l o m) `prefix_of` texts m).
    { apply Hin. exists p. by rewrite Hskip. }
    pose proof (handed_length i _ (order_after K sm0 i l m o Hup Ho (Hon i m Hm))) as Hlen. rewrite <- given_length in Hlen.
    pose proof (prefix_length _ _ Hgiven) as Hl. rewrite length_map in Hl.
    assert (Hrc : ae_commit_index (ParseFromString p.2) = k).
    { destruct p as [[ty a] bytes]. by apply Hk. }
    change (server (snd o)) with (server_of (after_label l o m)) in Hle.
    exists (log m), i, (after_label l o m). cbv zeta. rewrite Hrc. split_and!; [by apply Hsub|done|done|lia|].
    apply prefix_take_le; [done|lia].
  - intros j mj [[-> ->]|[_ Hj]]%Hother; [|by eapply on_course_mono, Hon].
    destruct (Hon i m Hm) as [Hf Hrep Hc]. destruct (follows_step i l o m Hf Hup Ho) as [Hf' Hran]. split; [done| |].
    + rewrite Hran. eapply replica_step; [exact Hrep|done|done|done|by apply Hsub|done].
    + intros Hup'. apply (pg_commit _ _ _ _ Hpg). cbn in Hup'. by destruct (fst o) as [[]| | |].
  - intros j k mj mk [[-> ->]|[_ Hj]]%Hother [[-> ->]|[_ Hk]]%Hother;
      [by left|by apply Hg|by apply comparable_sym, Hg|by eapply Hpair].
Qed.
End act.

Lemma step_agreeing all sm0 e c c' :
  agreeing all sm0 c -> step e c = Some c' -> timely_so_far c' -> fair e c -> complete e c -> e ∈ all ->
  agreeing all sm0 c'.
Proof.
  intros [Hc Hmaj (K & HK & Hmade & Hback & Hon) Hpair] E Ht Hf Hcomp Hall.
  destruct (step_matching K e c c' HK Hc Hmaj Ht E Hf) as (K' & HK' & Hsub & Hnew).
  assert (Hmade' : all_made (fun x => called all (en_msg x)) K').
  { intros g x [Hg|(i & m & call & peer & -> & _ & ->)]%Hnew; [by eapply Hmade|]. by exists i, peer. }
  destruct (step_allowed K e c c' HK E Hf) as [(i & l & rest & Ea & Hrest & Hal & _)|[Em [k Ef]]].
  - destruct (act_agreeing K K' sm0 i l rest c c' HK HK' Hsub Ea Hrest Hal Hback Hon Hpair) as (H1 & H2 & H3); [by eauto|].
    split; [by eapply step_consistent|by eapply step_enough| |done]. by exists K'.
  - split; [by eapply step_consistent|by eapply step_enough| |by rewrite Em]. exists K'. split_and!; [done|done| |].
    + rewrite Ef. eapply Forall_subseteq; [apply delete_subseteq|]. eapply Forall_impl; [exact Hback|].
      intros p. apply backed_mono; [done|]. intros j mj Hj. exists mj. by rewrite Em.
    + intros i m Hm. rewrite Em in Hm. by eapply on_course_mono, Hon.
Qed.

Lemma steps_agreeing all sm0 es c c' :
  agreeing all sm0 c -> steps es c = Some c' -> timely_so_far c' -> fair_run es c -> along complete es c ->
  es ⊆ all -> agreeing all sm0 c'.
Proof.
  revert c. induction es as [|e es IH]; intros c Hr E Ht Hf Hin Hsub; cbn in E, Hf, Hin; [by simplify_eq|].
  destruct Hf as [Hf Hfs], Hin as [Hi His]. destruct (step e c) as [c1|] eqn:E1; [|done].
  apply (IH c1); [|done..|set_solver]. eapply step_agreeing; [exact Hr|exact E1|by eapply steps_timely|done|done|set_solver].
Qed.

Lemma booted_agreeing all sm0 :
  booted c0 -> empty_logs c0 -> enough c0 -> Forall (fun m => sm_equiv (machine (node m)) sm0) (members c0) ->
  agreeing all sm0 c0.
Proof.
  intros Hb He Hmaj Hsm.
  assert (Hnone : forall i m, members c0 !! i = Some m -> handed i m = []).
  { intros i m Hm. destruct (Forall_lookup_1 _ _ _ _ (proj1 Hb) Hm) as (Hh & _ & ip & port & path & content & entries & network & sm & seed & E & _).
    unfold handed, ran. rewrite Hm, Hh. destruct (start_smc _ _ _ _ _ _ _ _ _ _ E) as (Es & _). unfold server_of.
    unfold StateMachineControler.new in Es. by injection Es as <-. }
  split; [by apply consistent_booted|done| |].
  - exists (fun g => g = []). split_and!; [by apply booted_matching|by intros [] ? [=]|by rewrite (proj2 Hb)|].
    intros i m Hm. pose proof (Hnone i m Hm) as Hno.
    destruct (Forall_lookup_1 _ _ _ _ (proj1 Hb) Hm) as (Hh & _ & ip & port & path & content & entries & network & sm & seed & E & _).
    assert (Hran : ran i m = []) by (unfold ran; by rewrite Hm, Hh). split.
    + intros _. exists m. by rewrite Hh.
    + unfold handed in Hno. rewrite Hran in Hno |- *. split.
      * exact (Commit.start_in_order _ _ _ _ _ _ _ _ _ _ E).
      * unfold applied. by rewrite Hh.
      * exact (Forall_lookup_1 _ _ _ _ Hsm Hm).
      * by rewrite Hno.
    + intros _. exact (start_progress _ _ _ _ _ _ _ _ _ _ E).
  - intros j k mj mk Hj Hk. left. unfold given. rewrite (Hnone j mj Hj). apply prefix_nil.
Qed.

(** Machines agree. *)
Lemma agreeing_machines all sm0 c :
  agreeing all sm0 c -> exists u, Forall (called all) u /\
    Forall (fun m => (applied m <= length u)%nat /\ sm_equiv (machine (node m)) (apply_all (take (applied m) u) sm0)) (members c).
Proof.
  intros [_ _ (K & HK & Hmade & _ & Hon) Hpair].
  destruct (comparable_upper (imap given (members c))) as (u & Hu & Hall).
  { intros l1 l2 (j & mj & -> & Hj)%elem_of_lookup_imap_1 (k & mk & -> & Hk)%elem_of_lookup_imap_1. by eapply Hpair. }
  exists u. split.
  - destruct Hu as [->|(i & m & -> & Hm)%elem_of_lookup_imap_1]; [done|].
    unfold given, calls_of. apply Forall_fmap. eapply Forall_impl; [exact (rp_known _ _ _ _ (oc_replica _ _ _ _ (Hon i m Hm)))|].
    intros t (g & Hg & x & Hx & E). unfold compose. rewrite <- E. apply (Hmade (take (Z.to_nat (snd t)) g)).
    rewrite <- (take_S_r _ _ _ Hx). by eapply known_take.
  - apply Forall_lookup. intros i m Hm. destruct (oc_replica _ _ _ _ (Hon i m Hm)) as [_ Hl Heq _].
    assert (Hp : calls_of (ran i m) `prefix_of` u).
    { transitivity (given i m); [unfold given, handed; rewrite calls_app; by eexists|].
      apply (proj1 (Forall_forall _ _) Hall). by apply elem_of_lookup_imap_2. }
    assert (Hlen : length (calls_of (ran i m)) = applied m) by (rewrite <- Hl; apply length_map).
    destruct Hp as [w ->]. rewrite length_app, <- Hlen, take_app_length. split; [lia|exact Heq].
Qed.
End given.

(** C5: State Machine Safety, if leaders are complete.  In a cluster of freshly
    started servers with empty logs, a sufficient majority and machines that answer
    alike, consider a run in which no server is restarted and: no vote request of a
    term reaches a server after an AppendEntry of that term ([timely_so_far]);
    clients send their calls to a primary only, as UTF-8 text, and every log has
    room for the entry that arrives ([fair_run]); a server that sends an AppendEntry
    has in its log the calls its own machine was given, and the log of a primary
    that commits agrees, as far as both reach, with what each machine was given
    ([complete]).  Then, over as many terms as there are, with messages reordered
    or lost, timers firing at will, workers interleaving and servers ending
    on exceptions, there is one sequence of calls that clients made such that every
    machine answers as one that was given the first of them, as many as the server
    has applied; so machines that have applied equally many answer every query
    alike.  That the calls a follower's machine is given agree with those of all
    others is derived, from Log Matching and the commit index a message names. *)
Theorem machines_agree c0 es c sm0 :
  booted c0 -> empty_logs c0 -> enough c0 -> Forall (fun m => sm_equiv (machine (node m)) sm0) (members c0) ->
  steps es c0 = Some c -> timely_so_far c -> fair_run es c0 -> along (complete c0) es c0 ->
  (exists u, Forall (called es) u /\
     Forall (fun m => (applied m <= length u)%nat /\ sm_equiv (machine (node m)) (apply_all (take (applied m) u) sm0))
       (members c)) /\
  (forall m1 m2 query, m1 ∈ members c -> m2 ∈ members c -> applied m1 = applied m2 ->
     fst (sm_get query (machine (node m1))) = fst (sm_get query (machine (node m2)))).
Proof.
  intros Hb He Hmaj Hsm E Ht Hf Hin.
  destruct (agreeing_machines c0 es sm0 c) as (u & Hu & Hall).
  { eapply steps_agreeing; [by apply booted_agreeing|done..]. }
  split; [by exists u|]. intros m1 m2 query H1 H2 Ea. rewrite Forall_forall in Hall.
  apply sm_get_reply. rewrite (proj2 (Hall m1 H1)), Ea. symmetry. apply Hall, H2.
Qed.
End agreement.

(** ** Witness: two servers lead, one after the other *)

Module Witness.
Import ThreeServers.
Import Cluster.Witness LogMatching.Witness Replicas.Witness.

#[local] Instance comparable_dec (l u : list string) : Decision (comparable l u).
Proof. unfold comparable. apply _. Defined.
Abbreviation Member := (member log_t net_t timer_t (gmap string Z)).

Definition sends_b (m m' : Member) : bool :=
  existsb (fun p => bool_decide (p.1.1 = APPEND_ENTRY)) (skipn (length (sent_by m)) (sent_by m')).
Definition commits_b (m m' : Member) : bool :=
  bool_decide (state_ (server_of m) = primary) && bool_decide (state_ (server_of m') = primary) &&
  negb (applied_to (server_of m') =? applied_to (server_of m)).
Definition complete_b (e : event) (c : Cluster) : bool :=
  match step e c with
  | Some c' => forallb id (imap (fun i m =>
      match members c' !! i with
      | Some m' =>
          let texts := map en_msg (log_of (server_of m)) in
          (negb (sends_b m m' || commits_b m m') || bool_decide (given c0 i m `prefix_of` texts)) &&
          (negb (commits_b m m') || forallb (fun l => bool_decide (comparable texts l)) (imap (given c0) (members c)))
      | None => true
      end) (members c))
  | None => true
  end.

Lemma sends_b_ok m m' : sends m m' -> sends_b m m' = true.
Proof.
  intros (p & Hp & Ht). apply existsb_exists. exists p. split; [by apply list_elem_of_In|by apply bool_decide_eq_true].
Qed.
Lemma commits_b_ok m m' : commits m m' -> commits_b m m' = true.
Proof. intros (H1 & H2 & Ha). unfold commits_b. rewrite !bool_decide_true by done. by apply negb_true_iff, Z.eqb_neq. Qed.
Lemma complete_b_ok e c : complete_b e c = true -> complete c0 e c.
Proof.
  unfold complete_b. intros H c' i m m' E Hm Hm'. rewrite E, forallb_forall in H.
  assert (Hb : (negb (sends_b m m' || commits_b m m') || bool_decide (given c0 i m `prefix_of` map en_msg (log_of (server_of m)))) &&
    (negb (commits_b m m') || forallb (fun l => bool_decide (comparable (map en_msg (log_of (server_of m))) l)) (imap (given c0) (members c))) = true).
  { apply H, list_elem_of_In, elem_of_lookup_imap. exists i, m. by rewrite Hm'. }
  apply andb_prop in Hb as [H1 H2]. split.
  - intros Ha. assert (sends_b m m' || commits_b m m' = true) as E1
      by (apply orb_true_iff; destruct Ha; [left; by apply sends_b_ok|right; by apply commits_b_ok]).
    rewrite E1 in H1. by apply bool_decide_eq_true in H1.
  - intros Ha j mj Hj. rewrite (commits_b_ok _ _ Ha) in H2. cbn [negb orb] in H2. rewrite forallb_forall in H2.
    apply (bool_decide_eq_true_1 _), H2. apply list_elem_of_In. by apply elem_of_lookup_imap_2.
Qed.

(** A's call is applied by A and B.  Then B stands for term 2, A votes for it, and
    B gets a call, which it sends to A; both apply it. *)
Definition two_terms : list event :=
  everywhere ++ [Internal 1 Run; Internal 1 Elapse_candidate; Internal 1 Run; Receive 0 3 B; Receive 1 4 A;
    Client 1 CLIENT_APPLY put_y client_addr; Receive 0 4 B; Receive 1 5 A; Receive 0 5 B; Receive 1 5 A; Receive 0 5 B;
    Internal 0 (Write_wake 0); Internal 0 (Write_finish 0); Internal 1 (Write_wake 0); Internal 1 (Write_finish 0)].
Definition c_two : Cluster := goes two_terms c0.

Lemma two_terms_run : steps two_terms c0 = Some c_two.
Proof. apply goes_steps. vm_compute. reflexivity. Qed.
Lemma c_two_timely : timely_so_far c_two.
Proof. unfold timely_so_far. refine (bool_decide_eq_true_1 _ _). vm_compute. reflexivity. Qed.
Lemma two_terms_fair : fair_run two_terms c0.
Proof. apply fair_run_b_fair. vm_compute. reflexivity. Qed.
Lemma two_terms_complete : along (complete c0) two_terms c0.
Proof. apply (along_b_along complete_b); [exact complete_b_ok|vm_compute; reflexivity]. Qed.
Lemma c_two_machines :
  map applied (members c_two) = [2%nat; 2%nat; 0%nat] /\ who_leads 2 c_two = [false; true; false] /\
  machines c_two = [[("y", 8); ("x", 7)]; [("y", 8); ("x", 7)]; []].
Proof. split_and!; vm_compute; reflexivity. Qed.

Lemma machines_agree_witness :
  map applied (members c_two) = [2%nat; 2%nat; 0%nat] /\
  exists u, Forall (called two_terms) u /\
    Forall (fun m => (applied m <= length u)%nat /\ sm_equiv (machine (node m)) (apply_all (firstn (applied m) u) ∅)) (members c_two).
Proof.
  split; [apply c_two_machines|].
  exact (proj1 (machines_agree c0 two_terms c_two ∅ c0_booted c0_empty c0_enough c0_machines two_terms_run c_two_timely
    two_terms_fair two_terms_complete)).
Defined.

(** The leader that overwrites a committed entry is not complete. *)
Lemma overwrite_incomplete : ~ along (complete c0) overwrite c0.
Proof.
  intros Hc. assert (E : steps overwrite c0 = Some (goes overwrite c0)) by (apply goes_steps; vm_compute; reflexivity).
  destruct (agreeing_machines c0 overwrite ∅ (goes overwrite c0)) as (u & _ & Hu);
    [|clear Hc].
  { eapply steps_agreeing; [by apply booted_agreeing, c0_machines; [apply c0_booted|apply c0_empty|apply c0_enough]|exact E| | |exact Hc|done].
    - unfold timely_so_far. refine (bool_decide_eq_true_1 _ _). vm_compute. reflexivity.
    - apply fair_run_b_fair. vm_compute. reflexivity. }
  set (m := fun i : nat => default (begin A) (members (goes overwrite c0) !! i) : Member).
  assert (Hm : forall i, (i < 3)%nat -> sm_equiv (machine (node (m i))) (apply_all (firstn (applied (m i)) u) ∅)).
  { intros i Hi. unfold m. destruct (members _ !! i) as [mi|] eqn:Em.
    - exact (proj2 (Forall_lookup_1 _ _ _ _ Hu Em)).
    - apply lookup_ge_None in Em. assert (length (members (goes overwrite c0)) = 3%nat) by (vm_compute; reflexivity). lia. }
  assert (H0 : applied (m 0%nat) = applied (m 2%nat)) by (vm_compute; reflexivity).
  pose proof (Hm 0%nat ltac:(lia)) as HA. pose proof (Hm 2%nat ltac:(lia)) as HC. rewrite <- H0 in HC.
  assert (Hq : fst (sm_get (EasyStateMachine.EasyStateMachine.build_query_str "x") (machine (node (m 0%nat)))) =
               fst (sm_get (EasyStateMachine.EasyStateMachine.build_query_str "x") (machine (node (m 2%nat))))).
  { apply sm_get_reply. by rewrite HA, HC. }
  vm_compute in Hq. discriminate.
Qed.
End Witness.
End Agreement.
