(* ===== verification/Service.v ===== *)
(** A call is served: what a client of the cluster waits for.  An idle primary
    takes the call, sends it to a follower when its timer expires, hears that it
    is stored, commits it, has the machine run it and answers the client, without
    an exception on the way: [call_is_served].

    It is the composition of the parts: the append (Commit), the exchange with a
    follower, which may be behind (CatchUp), the writer's pool and the io_context
    (Node).  A query needs one server only: [query_is_answered]. *)

From S2P Require Import Prelude CxxString Platform Messages Util Interfaces EasyStateMachine ThreadPool StateMachineControler RaftServer ServerFacts ServerSpecs Node Commit Replication CatchUp ThreeServers.

Module Service.
Export CatchUp.

Section service.
Context {L N T SM : Type} {LS : LogStore L} {LL : LogStoreLaws L} {TR : Transport N}
  {TL : TransportLaws N} {DT : DeadlineTimer handler T} {DL : DeadlineTimerLaws handler T}
  {RD : Rand} {RL : RandLaws} {RC : RaftCodecs} {RCL : RaftCodecsLaws} {BS : BoostSplit} {SMC : StateMachine SM}.
Implicit Types (s p f : RaftServer L N T) (n : Node L N T SM).

Abbreviation writer s := (StateMachineControler.write_thread_pool_ (smc_ s)).
Abbreviation applied s := (StateMachineControler.applied_index_ (smc_ s)).

(** ** The call is appended *)

Definition appended (l : L) (client : server_addr) (call : string) p : RaftServer L N T :=
  set_Follower_saved_index (<[server_ p := log_size p]> (Follower_saved_index p))
    (set_entries_ l (set_entryIndex_to_socketAddr_map_ (<[log_size p := client]> (entryIndex_to_socketAddr_map_ p)) p)).

(** [p] leads, [f] is the server at [a], at whatever point of the log; nothing is
    on its way between them, and the timer of [a] runs.  Everything in the log of
    [p] has been applied.  The call and the messages with it can be sent. *)
Record servable (a : server_addr) (call : string) p f (lsn nx : Z) : Prop := {
  sv_setting : setting a p f;
  sv_sender : sender a p;
  sv_receiver : receiver p f lsn nx;
  sv_new : forall e, log_of f !! length (log_of p) = Some e -> en_term e <> term_ p;
  sv_lsn : current_rpc_lsn_ p !! a = Some lsn /\ INT_MIN <= lsn;
  sv_next : nextIndex_ p !! a = Some nx;
  sv_timer : exists t, retry_timers_ p !! a = Some t /\ waits t = [H_AE a] /\ expires_at_min t = false;
  sv_applied : applied p = log_size p - 1;
  sv_writer : writer p = {| ThreadPool.workers := [ThreadPool.Waiting]; ThreadPool.tasks := []; ThreadPool.stop := false |};
  sv_wire : wireable (call_entry call p) = true;
  sv_room : forall l, take (length (log_of p)) l = log_of p -> ls_room (log_size p) (call_entry call p) l;
  sv_fits : forall l, ls_ok l -> ls_view l = log_of p ++ [call_entry call p] -> peer_ok a (set_entries_ l p);
}.

Section appended.
Context (a : server_addr) (call : string) (client : server_addr) p f (lsn nx : Z) (l : L)
  (Hsv : servable a call p f lsn nx) (Hok : ls_ok l) (Hl : ls_view l = log_of p ++ [call_entry call p]).
#[local] Abbreviation p1 := (appended l client call p).

Lemma appended_log : log_of p1 = log_of p ++ [call_entry call p].
Proof. exact Hl. Qed.
Lemma appended_size : log_size p1 = log_size p + 1.
Proof. unfold log_size. rewrite appended_log, length_app. cbn. lia. Qed.

Lemma call_or_old i e :
  log_of p1 !! i = Some e -> log_of p !! i = Some e \/ (i = length (log_of p) /\ e = call_entry call p).
Proof.
  rewrite appended_log. intros [H|[Hi H]]%lookup_app_Some; [by left|]. right. pose proof (lookup_lt_Some _ _ _ H).
  cbn in *. replace (i - length (log_of p))%nat with 0%nat in H by lia. split; [lia|]. by simplify_eq/=.
Qed.

Lemma take_appended i : (i <= length (log_of p))%nat -> take i (log_of p1) = take i (log_of p).
Proof. intros Hi. rewrite appended_log. by apply take_app_le. Qed.

Lemma appended_setting : setting a p1 f.
Proof.
  destruct (sv_setting _ _ _ _ _ _ Hsv) as [H1 H2 H3 H4 H5 H6 H7 H8 H9]. split; try done.
  - rewrite appended_log, forallb_app, H7. cbn. by rewrite (sv_wire _ _ _ _ _ _ Hsv).
  - intros i e [He|[-> ->]]%call_or_old; [by apply H8|done].
  - intros i e k He. pose proof (call_or_old _ _ He) as [Hold|[-> ->]].
    + pose proof (lookup_lt_Some _ _ _ Hold). rewrite take_appended by lia. by apply H9.
    + rewrite take_appended by done. rewrite (take_ge (log_of p)) by done. apply (sv_room _ _ _ _ _ _ Hsv).
Qed.

Lemma appended_sender : sender a p1.
Proof.
  destruct (sv_sender _ _ _ _ _ _ Hsv) as [H1 H2 [[Hlo Hrun Ha] Hsz H3 Hm Hs] H4 H5 H6 H7].
  pose proof (se_self _ _ _ (sv_setting _ _ _ _ _ _ Hsv)) as Hne.
  destruct (sv_fits _ _ _ _ _ _ Hsv l Hok Hl) as [Q1 Q2 Q3 Q4 Q5].
  split; try done.
  - split; [by split|..]; try done; cbn.
    + by rewrite map_size_insert_Some by eauto.
    + intros b i. rewrite appended_size. destruct (decide (b = server_ p)) as [->|Hb].
      * rewrite lookup_insert_eq. intros [= <-]. lia.
      * rewrite lookup_insert_ne by done. intros Hi. specialize (Hs b i Hi). lia.
  - cbn. by rewrite lookup_insert_ne.
  - rewrite appended_size. cbn. rewrite lookup_insert_eq. f_equal. lia.
  - intros b i. cbn. destruct (decide (b = server_ p)) as [->|Hb]; [|rewrite lookup_insert_ne by done; apply H6].
    rewrite lookup_insert_eq. intros [= <-]. unfold log_size. lia.
  - rewrite appended_size. change (commit_index_ p1) with (commit_index_ p). lia.
Qed.

Lemma appended_receiver : receiver p1 f lsn nx.
Proof.
  destruct (sv_receiver _ _ _ _ _ _ Hsv) as [H1 H2 H3 H4 H5 H6].
  pose proof (sn_index _ _ (sv_sender _ _ _ _ _ _ Hsv)) as Hci. split; try done.
  - intros i e1 e2 He1 He2 Et. pose proof (call_or_old _ _ He1) as [Hold|[-> ->]].
    + pose proof (lookup_lt_Some _ _ _ Hold). rewrite take_appended by lia. by eapply H4.
    + by destruct (sv_new _ _ _ _ _ _ Hsv e2 He2).
  - rewrite take_appended; [done|]. unfold log_size in *. lia.
Qed.

(** Once the AppendEntry is sent, the two are exchanging messages. *)
Lemma exchanging_sent p2 :
  lsn + 1 < INT_MAX -> ae_sent a p1 p2 ->
  exchanging a p2 f lsn nx /\ calls (network_ p2) = calls (network_ p) ++ [(APPEND_ENTRY, a, SerializeToString (in_flight a lsn p2))].
Proof.
  intros Hm Hs. pose proof appended_setting as Hset. destruct (sv_lsn _ _ _ _ _ _ Hsv) as [Hlsn Hlow].
  assert (Hl0 : map_at 0 a (current_rpc_lsn_ p1) = lsn) by (unfold map_at; cbn; by rewrite Hlsn).
  pose proof Hs as [Hc He Hsame _ Hcalls Hn Hlast _]. injection Hsame as Hci Ht Hst _ _.
  assert (Hlog : log_of p2 = log_of p1) by (unfold log_of; by rewrite He).
  split; [split|].
  - by apply (setting_eq a p1 f).
  - eapply sender_sent; [exact Hs|apply appended_sender|by rewrite Hl0].
  - pose proof (constants_eq _ _ Hc) as (_ & Hip & Hport & _).
    destruct appended_receiver as [[] [] ? ? ? ?]. split; rewrite ?Hip, ?Hport, ?Ht, ?Hlog, ?Hci; try done.
  - rewrite Hlast, lookup_insert_eq, Hl0. done.
  - rewrite Hn. apply (sv_next _ _ _ _ _ _ Hsv).
  - by rewrite Hcalls, (ae_sent_in_flight _ _ _ _ Hs Hl0).
Qed.

Lemma appended_peer t : peer_ok a (set_retry_timers_ (<[a := t]> (retry_timers_ p1)) p1).
Proof. apply peer_ok_timer, (sn_peer _ _ appended_sender). Qed.
End appended.

(** ** In the process *)

Lemma take_task (t : StateMachineControler.apply_task) ts st :
  ThreadPool.wake 0 {| ThreadPool.workers := [ThreadPool.Waiting]; ThreadPool.tasks := t :: ts; ThreadPool.stop := st |} =
    Some {| ThreadPool.workers := [ThreadPool.Running t]; ThreadPool.tasks := ts; ThreadPool.stop := st |}.
Proof. unfold ThreadPool.wake. cbn -[bool_decide]. by rewrite bool_decide_false, orb_true_r. Qed.

Lemma runs_cons l ls n n1 n2 : perform l n = Some (Val tt, n1) -> runs n1 ls n2 -> runs n (l :: ls) n2.
Proof. unfold runs. cbn. by intros ->. Qed.

(** The call arrives, the timer of the follower expires and its handler runs. *)
Definition taking (a client : server_addr) (call : string) : list label :=
  [Deliver CLIENT_APPLY call client; Elapse_retry a; Run].

Lemma call_goes_out a call client n f lsn nx :
  servable a call (server n) f lsn nx -> ready n = [] ->
  exists n1 l, runs n (taking a client call) n1 /\ machine n1 = machine n /\ ready n1 = [] /\
    ls_ok l /\ ls_view l = log_of (server n) ++ [call_entry call (server n)] /\
    ae_sent a (appended l client call (server n)) (server n1).
Proof.
  intros Hsv Hr. pose proof (sn_peer _ _ (sv_sender _ _ _ _ _ _ Hsv)) as Hp.
  destruct (append_call_ok client call (server n) (po_log _ _ Hp)) as (l & E & Hok & Hl).
  { apply (sv_room _ _ _ _ _ _ Hsv). by rewrite take_ge. }
  destruct (sv_timer _ _ _ _ _ _ Hsv) as (t & Ht & Hw & Hx).
  set (p1 := appended l client call (server n)). set (p1t := set_retry_timers_ (<[a := elapse t]> (retry_timers_ p1)) p1).
  destruct (AE_sent a p1t (elapse t)) as ([] & p2 & E2 & Hs).
  { by eapply appended_peer. }
  { cbn. by rewrite lookup_insert_eq. }
  { apply elapse_waits. }
  exists (with_ready [] (with_server p2 n)), l. split_and!; try done.
  - apply (runs_cons _ _ _ (with_server p1 n)); [cbn; unfold on_server; by rewrite E|].
    apply (runs_cons _ _ _ (with_ready [Handler (H_AE a)] (with_server p1t n))).
    { cbn -[waits elapse]. change (retry_timers_ p1) with (retry_timers_ (server n)). rewrite Ht, Hw. unfold post. cbn -[elapse]. by rewrite Hr. }
    eapply runs_cons; [|done]. cbn -[run_handler]. unfold on_server. cbn -[run_handler].
    unfold run_handler, bind, retry_expired_at_min, on_retry_timer. cbn -[p1t]. unfold p1t at 1. cbn -[p1t].
    rewrite lookup_insert_eq, elapse_expiry, Hx. rewrite (insert_id (retry_timers_ p1t)) by (cbn; by rewrite lookup_insert_eq).
    change (set_retry_timers_ (retry_timers_ p1t) p1t) with p1t. by rewrite E2.
  - by eapply ae_sent_timer.
Qed.

(** The writer runs the task of the call and the reply goes to the client. *)
Definition answering : list label := [Write_wake 0; Write_finish 0; Run].

Lemma call_comes_back call client i n :
  writer (server n) = {| ThreadPool.workers := [ThreadPool.Waiting]; ThreadPool.tasks := [(call, i)]; ThreadPool.stop := false |} ->
  ready n = [] -> state_ (server n) = primary -> entryIndex_to_socketAddr_map_ (server n) !! i = Some client ->
  call_fits client (fst (sm_apply call (machine n))) ->
  exists n2, runs n answering n2 /\ machine n2 = snd (sm_apply call (machine n)) /\
    new_calls (server n) (server n2) = [(RESP_CLIENT_APPLY, client, fst (sm_apply call (machine n)))] /\
    entries_ (server n2) = entries_ (server n).
Proof.
  intros Hw Hr Hst Hcl Hfit. unfold runs, answering. cbn -[ThreadPool.wake write_resp_apply_call].
  rewrite Hw, take_task. cbn -[write_resp_apply_call].
  destruct (sm_apply call (machine n)) as [reply sm] eqn:Es. cbn -[write_resp_apply_call] in *. rewrite Hr.
  cbn -[write_resp_apply_call]. unfold on_server. cbn -[write_resp_apply_call]. set (s := set_smc_ _ _).
  destruct (reply_ok i client reply s Hst Hcl Hfit) as (nw & E & Hc).
  rewrite E. eexists. split_and!; [done|done|by apply new_calls_app|done].
Qed.
(** Between the two, the exchange has put the call, and nothing else, into the
    writer's queue. *)
Lemma exchange_commits_call a client call p f lsn nx l p2 p' f' :
  servable a call p f lsn nx -> ls_view l = log_of p ++ [call_entry call p] ->
  ae_sent a (appended l client call p) p2 -> caught_up p2 p' f' ->
  writer p' = {| ThreadPool.workers := [ThreadPool.Waiting]; ThreadPool.tasks := [(call, log_size p)]; ThreadPool.stop := false |} /\
  state_ p' = primary /\ entryIndex_to_socketAddr_map_ p' !! log_size p = Some client /\
  log_of p' = log_of p ++ [call_entry call p] /\ commit_index_ p' = log_size p /\
  take (S (length (log_of p))) (log_of f') = log_of p ++ [call_entry call p].
Proof.
  intros Hsv Hl [_ He Hs Hs' _ _ _ _] (Hf & [Hlog Hst Hcl (es & Hes & Ea & Ew)] & Hci & Hap & _).
  injection Hs as _ _ Hst2 _ _. injection Hs' as _ Hsmc Hcl2 _ _.
  assert (Hlog2 : log_of p2 = log_of p ++ [call_entry call p]) by (unfold log_of; by rewrite He).
  assert (Hlen : length (log_of p2) = S (length (log_of p))) by (rewrite Hlog2, length_app; cbn; lia).
  assert (Hsz : log_size p2 = log_size p + 1) by (unfold log_size; lia).
  rewrite Hsmc, (sv_applied _ _ _ _ _ _ Hsv) in Hes, Ea. rewrite Hsmc, (sv_applied _ _ _ _ _ _ Hsv), (sv_writer _ _ _ _ _ _ Hsv) in Ew.
  assert (es = [call_entry call p]) as ->.
  { replace (Z.to_nat (log_size p - 1 + 1)) with (length (log_of p)) in Hes by (unfold log_size; lia).
    rewrite Hlog2, drop_app_length in Hes. destruct es as [|e es]; [cbn in Ea; lia|].
    apply prefix_cons_inv_1 in Hes as Hhd. apply prefix_cons_inv_2, prefix_nil_inv in Hes. by subst. }
  cbn in Ew. replace (log_size p - 1 + 1) with (log_size p) in Ew by lia. split_and!.
  - exact Ew.
  - rewrite Hst, Hst2. apply (sn_primary _ _ (sv_sender _ _ _ _ _ _ Hsv)).
  - rewrite Hcl, Hcl2. apply lookup_insert_eq.
  - by rewrite Hlog.
  - lia.
  - by rewrite <- Hlen, <- Hlog2.
Qed.

(** What serving a call comes to: the process [n1] with the call appended and
    sent as [bytes], the two servers after the exchange, and the process [n2] that
    has answered. *)
Record served (a client : server_addr) (call : string) n f n1 (bytes : string) p' f' n2 : Prop := {
  sd_takes : runs n (taking a client call) n1;
  sd_sends : calls (network_ (server n1)) = calls (network_ (server n)) ++ [(APPEND_ENTRY, a, bytes)];
  sd_exchange : exchange (Z.to_nat (2 * log_size (server n) + 3)) a (server n1) f bytes = Some (p', f');
  sd_log : log_of p' = log_of (server n) ++ [call_entry call (server n)];
  sd_follower : take (S (length (log_of (server n)))) (log_of f') = log_of p';
  sd_commit : commit_index_ p' = log_size (server n);
  sd_answers : runs (with_server p' n1) answering n2;
  sd_machine : machine n2 = snd (sm_apply call (machine n));
  sd_reply : new_calls p' (server n2) = [(RESP_CLIENT_APPLY, client, fst (sm_apply call (machine n)))];
}.

Lemma serves a call client n f lsn nx :
  servable a call (server n) f lsn nx -> ready n = [] ->
  lsn + 2 * log_size (server n) + 6 < INT_MAX ->
  call_fits client (fst (sm_apply call (machine n))) ->
  exists n1 bytes p' f' n2, served a client call n f n1 bytes p' f' n2 /\
    ls_ok (entries_ p') /\ ls_ok (entries_ f') /\ entries_ (server n2) = entries_ p'.
Proof.
  intros Hsv Hr Hroom Hfit.
  destruct (call_goes_out a call client n f lsn nx Hsv Hr) as (n1 & l & E1 & Em & Hr1 & Hok & Hl & Hs).
  assert (Hpos : 0 <= log_size (server n)) by (unfold log_size; lia).
  destruct (exchanging_sent a call client (server n) f lsn nx l Hsv Hok Hl (server n1)) as [Hex Hcalls]; [lia|done|].
  pose proof (exchanging_next _ _ _ _ _ Hex) as [Hnx _].
  assert (Hsz : log_size (server n1) = log_size (server n) + 1).
  { rewrite <- (appended_size call client (server n) l Hl). unfold log_size, log_of. by rewrite (as_entries _ _ _ Hs). }
  destruct (exchange_ok (Z.to_nat (2 * log_size (server n) + 3)) a (server n1) f lsn nx Hex) as (p' & f' & E2 & Hup);
    [right; lia|lia|]. pose proof Hup as (_ & _ & _ & _ & Hokp & Hokf).
  destruct (exchange_commits_call _ _ _ _ _ _ _ _ _ _ _ Hsv Hl Hs Hup) as (Hw & Hst & Hcl & Hlog & Hci & Hf).
  destruct (call_comes_back call client (log_size (server n)) (with_server p' n1)) as (n2 & E3 & Em2 & Hnew & He2); try done.
  { cbn. by rewrite Em. }
  cbn in Em2, Hnew, He2. rewrite Em in *. exists n1, (SerializeToString (in_flight a lsn (server n1))), p', f', n2.
  split_and!; try done. split; try done. by rewrite Hlog.
Qed.

(** C6: a call is served.  In a cluster of three, an idle primary and a follower
    at any point of the log: a client's call that arrives at the primary is
    appended, goes out when the follower's timer expires, and after a bounded
    number of messages the follower has it; the primary has committed it, the
    writer runs it on the state machine, and the client gets the machine's reply,
    once and nothing else ([served]).  No step throws. *)
Theorem call_is_served a call client n f lsn nx :
  servable a call (server n) f lsn nx -> ready n = [] ->
  lsn + 2 * log_size (server n) + 6 < INT_MAX ->
  call_fits client (fst (sm_apply call (machine n))) ->
  exists n1 bytes p' f' n2, served a client call n f n1 bytes p' f' n2.
Proof.
  intros Hsv Hr Hroom Hfit.
  destruct (serves a call client n f lsn nx Hsv Hr Hroom Hfit) as (n1 & bytes & p' & f' & n2 & H & _). by exists n1, bytes, p', f', n2.
Qed.

(** ** Queries *)

(** A query arrives, a reader takes it and ends, and its reply is posted. *)
Definition querying (i : nat) (client : server_addr) (query : string) : list label :=
  [Deliver CLIENT_QUERY query client; Read_wake i; Read_finish i; Run].

Abbreviation readers n := (StateMachineControler.read_thread_pool (smc_ (server n))).

Lemma same_readers s : set_smc_ (StateMachineControler.set_read_thread_pool (StateMachineControler.read_thread_pool (smc_ s)) (smc_ s)) s = s.
Proof. destruct s as [? ? ? ? ? ? ? ? ? ? ? ? ? ? ? ? ? ? ? ? ? [] ? ?]. done. Qed.

(** C38: a query is answered, by any server in any role: an idle reader runs it on
    the machine of that server, the client gets the machine's reply and nothing
    else is sent, the machine answers as before, and the server is as it was. *)
Theorem query_is_answered {SML : StateMachineLaws SM} i client query n :
  ThreadPool.workers (readers n) !! i = Some ThreadPool.Waiting -> ThreadPool.tasks (readers n) = [] ->
  ThreadPool.stop (readers n) = false -> ready n = [] ->
  call_fits client (fst (sm_get query (machine n))) ->
  exists n', runs n (querying i client query) n' /\
    calls (network_ (server n')) =
      calls (network_ (server n)) ++ [(RESP_CLIENT_QUERY, client, fst (sm_get query (machine n)))] /\
    sm_equiv (machine n') (machine n) /\ server n' = set_network_ (network_ (server n')) (server n).
Proof.
  intros Hi Ht Hs Hr Hfit. destruct n as [s sm rd]. cbn [server machine ready] in *. subst rd.
  destruct (StateMachineControler.read_thread_pool (smc_ s)) as [ws ts st] eqn:Ep. cbn in Hi, Ht, Hs. subst ts st.
  set (pool w q := {| ThreadPool.workers := <[i := w]> ws; ThreadPool.tasks := q; ThreadPool.stop := false |}).
  set (with_pool x := set_smc_ (StateMachineControler.set_read_thread_pool x (smc_ s)) s).
  assert (Hws : <[i := ThreadPool.Waiting]> ws = ws) by by apply list_insert_id.
  assert (Hback : with_pool (pool ThreadPool.Waiting []) = s).
  { unfold with_pool, pool. rewrite Hws, <- Ep. apply same_readers. }
  destruct (call_val RESP_CLIENT_QUERY client (fst (sm_get query sm)) s eq_refl Hfit) as (nw & E & Hc).
  exists {| server := set_network_ nw s; machine := snd (sm_get query sm); ready := [] |}.
  split_and!; [|exact Hc|apply sm_get_equiv|done].
  apply (runs_cons _ _ _ {| server := with_pool (pool ThreadPool.Waiting [(query, client)]); machine := sm; ready := [] |}).
  { cbn. unfold on_server, get_from_state_machine, on_smc, zoom.
    unfold StateMachineControler.get_from_state_machine, StateMachineControler.enqueue_read, zoom, ThreadPool.enqueue.
    cbn. rewrite Ep. cbn. unfold with_server, with_pool, pool. rewrite Hws.
    by destruct s. }
  apply (runs_cons _ _ _ {| server := with_pool (pool (ThreadPool.Running (query, client)) []); machine := sm; ready := [] |}).
  { cbn. unfold ThreadPool.wake. cbn. rewrite list_lookup_insert_eq by (by eapply lookup_lt_Some). cbn.
    unfold with_read_pool, ThreadPool.set_worker, pool. cbn. by rewrite list_insert_insert_eq. }
  apply (runs_cons _ _ _ {| server := s; machine := snd (sm_get query sm);
    ready := [Posted (StateMachineControler.Post_write_resp_query_call client (fst (sm_get query sm)))] |}).
  { cbn. unfold ThreadPool.finish. cbn. rewrite list_lookup_insert_eq by (by eapply lookup_lt_Some). cbn.
    destruct (sm_get query sm) as [reply sm']. cbn. unfold post, with_read_pool, ThreadPool.set_worker. cbn.
    rewrite list_insert_insert_eq. unfold with_machine, with_server, with_ready. cbn [server machine ready].
    change (set_smc_ _ _) with (with_pool (pool ThreadPool.Waiting [])). by rewrite Hback. }
  eapply runs_cons; [|done]. cbn. unfold on_server. cbn. unfold write_resp_query_call. by rewrite E.
Qed.
End service.

(** ** Witness: a second call, served by a server that has heard nothing yet *)

Module Witness.
Import ThreeServers.

(** A was elected by B, and both have the first call, which A has applied. *)
Definition idle : Process := after (win_election ++ commit_one ++ apply_one) (boot A []).
Definition behind : Server := server (boot C []).
Definition put_y : string := EasyStateMachine.EasyStateMachine.build_apply_str "y" 8.
Definition first_entry : rpc_Entry :=
  {| en_term := 1; en_index := 0; en_msg := EasyStateMachine.EasyStateMachine.build_apply_str "x" 7 |}.

Lemma log_idle : log_of (server idle) = [first_entry].
Proof. vm_compute. reflexivity. Qed.
Lemma log_behind : log_of behind = [].
Proof. vm_compute. reflexivity. Qed.

Lemma setting_idle : setting C (server idle) behind.
Proof.
  split; [vm_compute; reflexivity|vm_compute; reflexivity|vm_compute; congruence|vm_compute; reflexivity|
    split; vm_compute; reflexivity|split; vm_compute; reflexivity|vm_compute; reflexivity| |].
  - intros i e. rewrite log_idle. intros He. destruct i as [|i]; cbn in He; by simplify_eq.
  - intros i e l He _. apply lookup_lt_Some in He. rewrite log_idle in He. cbn in He. unfold ls_room. cbn. unfold INT_MAX. lia.
Qed.

Lemma sender_idle : sender C (server idle).
Proof.
  split; [vm_compute; reflexivity| | |vm_compute; eauto|vm_compute; reflexivity| |vm_compute; split; congruence].
  - split; [vm_compute; done|vm_compute; eauto|exists 0|exists 2|done]; (split; [vm_compute; reflexivity|]);
      vm_compute; split; congruence.
  - split; [split; vm_compute; try done; congruence|vm_compute; reflexivity|vm_compute; lia|vm_compute; reflexivity|].
    intros a i Hi. apply Z.ltb_lt. revert Hi. apply (map_all_lookup (fun _ i => i <? log_size (server idle))).
    vm_compute. reflexivity.
  - intros a i Hi. apply Z.leb_le. revert Hi. apply (map_all_lookup (fun _ i => -1 <=? i)).
    vm_compute. reflexivity.
Qed.

Lemma receiver_behind : receiver (server idle) behind 2 0.
Proof.
  split.
  - split; [split; vm_compute; try done; congruence|done].
  - vm_compute. split; congruence.
  - vm_compute. reflexivity.
  - rewrite log_behind. intros i e1 e2 _ [=].
  - vm_compute. repeat split; congruence.
  - rewrite log_behind, log_idle. reflexivity.
Qed.

Lemma servable_idle : servable C put_y (server idle) behind 2 0.
Proof.
  split; [exact setting_idle|exact sender_idle|exact receiver_behind| |split; vm_compute; [done|congruence]|
    vm_compute; done|vm_compute; eauto|vm_compute; reflexivity|vm_compute; reflexivity|vm_compute; reflexivity| |].
  - rewrite log_behind. intros e [=].
  - intros l _. unfold ls_room. cbn. unfold INT_MAX. vm_compute. congruence.
  - intros l _ Hl. change (l = log_of (server idle) ++ [call_entry put_y (server idle)]) in Hl. rewrite Hl, log_idle. clear Hl l.
    split; [vm_compute; done|vm_compute; eauto|exists 0|exists 2|done]; (split; [vm_compute; reflexivity|]);
      vm_compute; split; congruence.
Qed.
Lemma idle_ready : ready idle = [].
Proof. vm_compute. reflexivity. Qed.
Lemma idle_room : 2 + 2 * log_size (server idle) + 6 < INT_MAX.
Proof. vm_compute. reflexivity. Qed.

Lemma call_is_served_witness :
  exists n1 bytes p' f' n2,
    runs idle (taking C client_addr put_y) n1 /\
    exchange (Z.to_nat (2 * log_size (server idle) + 3)) C (server n1) behind bytes = Some (p', f') /\
    runs (with_server p' n1) answering n2 /\
    new_calls p' (server n2) = [(RESP_CLIENT_APPLY, client_addr, fst (sm_apply put_y (machine idle)))].
Proof.
  destruct (call_is_served C put_y client_addr idle behind 2 0 servable_idle idle_ready idle_room I)
    as (n1 & bytes & p' & f' & n2 & [H1 _ H2 _ _ _ H3 _ H4]).
  exists n1, bytes, p', f', n2. split; [exact H1|]. split; [exact H2|]. split; [exact H3|exact H4].
Defined.

Definition get_x : string := EasyStateMachine.EasyStateMachine.build_query_str "x".
Lemma idle_readers :
  ThreadPool.workers (StateMachineControler.read_thread_pool (smc_ (server idle))) !! 2%nat = Some ThreadPool.Waiting /\
  ThreadPool.tasks (StateMachineControler.read_thread_pool (smc_ (server idle))) = [] /\
  ThreadPool.stop (StateMachineControler.read_thread_pool (smc_ (server idle))) = false.
Proof. split_and!; vm_compute; reflexivity. Qed.
Lemma get_x_reply : fst (sm_get get_x (machine idle)) = SerializeToString {| rq_ok := true; rq_v := 7 |}.
Proof. vm_compute. reflexivity. Qed.

Lemma get_x_fits : call_fits client_addr (fst (sm_get get_x (machine idle))).
Proof. exact I. Qed.

Lemma query_is_answered_witness :
  exists n', runs idle (querying 2 client_addr get_x) n' /\
    calls (network_ (server n')) = calls (network_ (server idle)) ++
      [(RESP_CLIENT_QUERY, client_addr, SerializeToString {| rq_ok := true; rq_v := 7 |})].
Proof.
  destruct (query_is_answered 2 client_addr get_x idle (proj1 idle_readers) (proj1 (proj2 idle_readers))
    (proj2 (proj2 idle_readers)) idle_ready get_x_fits) as (n' & H1 & H2 & _).
  exists n'. split; [exact H1|]. rewrite H2, get_x_reply. reflexivity.
Defined.
End Witness.
End Service.
