(* ===== verification/Durable.v ===== *)
(** What an answer is worth: with the logs in files, a call that the client has
    an answer to is on the disks of two servers of three, and each of them, killed
    at that moment and started again, has it ([answered_call_survives]).

    The composition of the serving of a call (Service) with the log in files
    (EntriesStore): a server writes no other files than its own, and those hold
    its log whenever it is well formed. *)

From S2P Require Import Prelude CxxString Platform Timer Messages Util Interfaces EasyStateMachine Data Entry ThreadPool StateMachineControler RaftServer ServerFacts ServerSpecs Node Commit Replication EntriesStore CatchUp ThreeServers Service.

Module Durable.
Export Service EntriesStore.
Import Entry.

Section durable.
Context {N T SM : Type} {TR : Transport N} {TL : TransportLaws N} {DT : DeadlineTimer handler T}
  {DL : DeadlineTimerLaws handler T} {RD : Rand} {RL : RandLaws} {RC : RaftCodecs} {RCL : RaftCodecsLaws}
  {BS : BoostSplit} {SMC : StateMachine SM} {PX : Posix} {PH : PosixHealthy} {BA : BinaryArchive} {BAL : BinaryArchiveLaws}.
Implicit Types (s p f : RaftServer store N T) (n : Node store N T SM).

(** A process started on the disk of [s] has the log [l]. *)
Definition recovers (port : Z) s (l : list rpc_Entry) : Prop :=
  exists e d, Entries.new port (snd (entries_ s)) = (Val e, d) /\ Entries.log e = l.

Abbreviation files_of s := (files (entries_ s)).

Lemma runs_keep_files ls n n' : runs n ls n' -> files_of (server n') = files_of (server n).
Proof. intros E. by apply (frame_runs (same (fun s => files (entries_ s))) ls n (Val tt) n'). Qed.

(** C7: an answer is durable.  When a primary with its log in files has served a
    call and the client has the reply, a process started on the primary's disk
    recovers the log with the call, and one started on the follower's disk
    recovers a log that begins with it: two servers of three have it without
    their memories. *)
Theorem answered_call_survives a call client n f lsn nx port_p port_f :
  servable a call (server n) f lsn nx -> ready n = [] ->
  lsn + 2 * log_size (server n) + 6 < INT_MAX ->
  call_fits client (fst (sm_apply call (machine n))) ->
  store_ok port_p (entries_ (server n)) -> store_ok port_f (entries_ f) ->
  let l := log_of (server n) ++ [call_entry call (server n)] in
  exists n1 bytes p' f' n2, served a client call n f n1 bytes p' f' n2 /\
    recovers port_p (server n2) l /\ exists l', recovers port_f f' (l ++ l').
Proof.
  intros Hsv Hr Hroom Hfit Hsp Hsf l.
  destruct (serves a call client n f lsn nx Hsv Hr Hroom Hfit) as (n1 & bytes & p' & f' & n2 & H & Hokp & Hokf & He).
  pose proof H as [H1 _ Hx Hlog Hfol _ _ _ _]. exists n1, bytes, p', f', n2. split; [exact H|].
  destruct (exchange_frame (same (fun s => files (entries_ s))) _ _ _ _ _ _ _ Hx) as [Hfp Hff].
  pose proof (runs_keep_files _ _ _ H1) as Hf1. split.
  - destruct (restart_gives_log port_p (server n) p') as (e & d & En & El); [by etrans|done|done|].
    exists e, d. rewrite He, El. split; [exact En|]. by rewrite Hlog.
  - destruct (restart_gives_log port_f f f' Hff Hsf Hokf) as (e & d & En & El).
    exists (drop (S (length (log_of (server n)))) (log_of f')), e, d. split; [exact En|].
    rewrite El. unfold l. by rewrite <- Hlog, <- Hfol, take_drop.
Qed.
End durable.

(** ** Witness: the second call of Service, with the logs in files *)

Module Witness.
Import ThreeServers.
Import EntriesStore.Witness.

Abbreviation Disk_process := (Node store net_t timer_t (gmap string Z)).
Definition boot_on (who : server_addr) : Disk_process :=
  match start (fst who) (snd who) "config" (Some config_text) (empty_store (snd who)) [] ∅ (snd who) with
  | Some (_, n) => n
  | None => {| server := initial_members "" 0 "" (empty_store 0) [] (smc_ no_server) 0; machine := ∅; ready := [] |}
  end.
Definition idle : Disk_process :=
  match perform_all (win_election ++ commit_one ++ apply_one) (boot_on A) with
  | Some (_, n) => n
  | None => boot_on A
  end.
Definition behind : RaftServer store net_t timer_t := server (boot_on C).
Definition put_y : string := EasyStateMachine.EasyStateMachine.build_apply_str "y" 8.
Definition first_entry : rpc_Entry :=
  {| en_term := 1; en_index := 0; en_msg := EasyStateMachine.EasyStateMachine.build_apply_str "x" 7 |}.

Lemma log_idle_files : log_of (server idle) = [first_entry].
Proof. vm_compute. reflexivity. Qed.
Lemma log_behind_files : log_of behind = [].
Proof. vm_compute. reflexivity. Qed.
Lemma stored_idle : store_ok 7001 (entries_ (server idle)).
Proof.
  split; [split|..]; [vm_compute; split; congruence|vm_compute; reflexivity| |vm_compute; congruence|
    vm_compute; reflexivity..].
  split; [exists ""; vm_compute; reflexivity|left; vm_compute; reflexivity|vm_compute; split; congruence].
Qed.
Lemma stored_behind : store_ok 7003 (entries_ behind).
Proof.
  split; [split|..]; [vm_compute; split; congruence|vm_compute; reflexivity| |vm_compute; congruence|
    vm_compute; reflexivity..].
  split; [exists ""; vm_compute; reflexivity|right; split; vm_compute; reflexivity|vm_compute; split; congruence].
Qed.

Lemma room_idle e (l : list rpc_Entry) : firstn 1 l = [first_entry] -> e = call_entry put_y (server idle) -> ls_room (LogStore := entries_store) 1 e l.
Proof.
  intros Hl ->. cbn. unfold Entries.log_insert. change (Z.to_nat 1) with 1%nat. rewrite Hl.
  split_and!; [unfold INT_MAX; lia|vm_compute; congruence|vm_compute; reflexivity].
Qed.
Lemma setting_idle_files : setting C (server idle) behind.
Proof.
  split; [vm_compute; reflexivity|vm_compute; reflexivity|vm_compute; congruence|vm_compute; reflexivity|
    split; vm_compute; reflexivity|split; vm_compute; reflexivity|vm_compute; reflexivity| |].
  - intros i e. rewrite log_idle_files. intros He. destruct i as [|i]; cbn in He; by simplify_eq.
  - intros i e l He _. rewrite log_idle_files in He. destruct i as [|i]; cbn in He; simplify_eq.
    split_and!; [vm_compute; reflexivity|vm_compute; congruence|vm_compute; reflexivity].
Qed.

Lemma sender_idle_files : sender C (server idle).
Proof.
  split; [vm_compute; reflexivity| | |vm_compute; eauto|vm_compute; reflexivity| |vm_compute; split; congruence].
  - split; [exists 7001; exact stored_idle|vm_compute; eauto|exists 0|exists 2|done]; (split; [vm_compute; reflexivity|]);
      vm_compute; split; congruence.
  - split; [split; [exists 7001; exact stored_idle|..]; vm_compute; try done; congruence|vm_compute; reflexivity|vm_compute; lia|
      vm_compute; reflexivity|].
    intros a i Hi. apply Z.ltb_lt. revert Hi. apply (map_all_lookup (fun _ i => i <? log_size (server idle))).
    vm_compute. reflexivity.
  - intros a i Hi. apply Z.leb_le. revert Hi. apply (map_all_lookup (fun _ i => -1 <=? i)).
    vm_compute. reflexivity.
Qed.

Lemma receiver_behind_files : receiver (server idle) behind 2 0.
Proof.
  split.
  - split; [split; [exists 7003; exact stored_behind|..]; vm_compute; try done; congruence|done].
  - vm_compute. split; congruence.
  - vm_compute. reflexivity.
  - rewrite log_behind_files. intros i e1 e2 _ [=].
  - vm_compute. repeat split; congruence.
  - rewrite log_behind_files, log_idle_files. reflexivity.
Qed.

Lemma peer_idle l : ls_ok l -> ls_view l = [first_entry; call_entry put_y (server idle)] -> peer_ok C (set_entries_ l (server idle)).
Proof.
  intros Hok Hl. assert (Hsz : log_size (set_entries_ l (server idle)) = 2) by (unfold log_size, log_of; change (entries_ (set_entries_ l (server idle))) with l; by rewrite Hl).
  split; [exact Hok|vm_compute; eauto|exists 0|exists 2|done]; (split; [vm_compute; reflexivity|]); [|vm_compute; split; congruence].
  rewrite Hsz. lia.
Qed.

Lemma servable_idle_files : servable C put_y (server idle) behind 2 0.
Proof.
  split; [exact setting_idle_files|exact sender_idle_files|exact receiver_behind_files| |split; vm_compute; [done|congruence]|
    vm_compute; done|vm_compute; eauto|vm_compute; reflexivity|vm_compute; reflexivity|vm_compute; reflexivity| |].
  - rewrite log_behind_files. intros e [=].
  - intros l. rewrite log_idle_files. intros Hl. replace (log_size (server idle)) with 1 by (vm_compute; reflexivity). by apply room_idle.
  - intros l Hok. rewrite log_idle_files. by apply peer_idle.
Qed.
Lemma idle_ready_files : ready idle = [].
Proof. vm_compute. reflexivity. Qed.
Lemma idle_room_files : 2 + 2 * log_size (server idle) + 6 < INT_MAX.
Proof. vm_compute. reflexivity. Qed.

Lemma answered_call_survives_witness :
  exists n1 bytes p' f' n2, served C client_addr put_y idle behind n1 bytes p' f' n2 /\
    recovers 7001 (server n2) [first_entry; call_entry put_y (server idle)] /\
    exists l', recovers 7003 f' (first_entry :: call_entry put_y (server idle) :: l').
Proof.
  destruct (answered_call_survives C put_y client_addr idle behind 2 0 7001 7003 servable_idle_files idle_ready_files idle_room_files I
    stored_idle stored_behind) as (n1 & bytes & p' & f' & n2 & H1 & H2 & l' & H3).
  rewrite log_idle_files in H2, H3. exists n1, bytes, p', f', n2. split; [exact H1|]. split; [exact H2|exists l'; exact H3].
Defined.
End Witness.
End Durable.
