(* ===== verification/Programs.v ===== *)
(** main.cpp and client/main.cpp: the two programs, put together from their
    parts.  The log of the server is on the disk ([EntriesStore]), the network is
    the connections of the process ([Rpc]), the state machine is the map
    ([EasyStateMachine]); [server_main] is [main] up to the moment the io_context
    runs, and [client_main] that of the client up to its loop.

    The theorem is that the server starts: from a configuration file and a disk that holds
    a log, the process that comes up has that log and that configuration and can
    stand for election. *)

From S2P Require Import Prelude CxxString Platform Timer Messages Util Interfaces RpcToString EasyStateMachine Rpc Client Data Entry ThreadPool StateMachineControler RaftServer ServerFacts ServerSpecs Node Config EntriesStore ThreeServers.

Module Programs.
Import Entry EntriesStore (store, entries_store, entries_store_laws, store_ok(..)).
#[local] Existing Instances entries_store entries_store_laws.
Export Node.
#[local] Existing Instance Rpc.rpc_transport.

Section programs.
Context {RC : RaftCodecs} {EC : EasyCodecs} {PX : Posix} {BA : BinaryArchive} {SK : Rpc.Sockets}
  {T : Type} {DT : DeadlineTimer handler T} {RD : Rand} {BS : BoostSplit}.

(** Whether the acceptor can be bound to a port, and the text of a file. *)
Context (bindable : Z -> bool) (content : string -> option string).

Abbreviation Process := (Node store Rpc.Network T (gmap string Z)).

Lemma no_connections_wf : Rpc.wf Rpc.new.
Proof. intros a id E. cbn in E. by rewrite lookup_empty in E. Qed.
Definition no_connections : Rpc.Network := exist Rpc.wf _ no_connections_wf.

(** [throw exception] throws a copy of the base class. *)
Definition rethrow {A} (m : M disk A) : M disk A := fun d =>
  match m d with
  | (Exn _, d') => (Exn (std_exception "std::exception"), d')
  | r => r
  end.

(** The members of [RaftServer] that are built before the constructor's body: the
    network, whose acceptor is bound, and the log.  The port of the endpoint is an
    unsigned short.  [rand] is never seeded. *)
Definition construct_and_run (port : Z) (config_path : string) : M disk Process :=
  if negb (bindable (port mod 2 ^ 16)) then throw (std_exception "bind: Address already in use")
  else
    let! entries := Entries.new port in
    fun d =>
      match start "127.0.0.1" port config_path (content config_path) (entries, d) no_connections ∅ 1 with
      | Some (Val _, n) => (Val n, snd (entries_ (server n)))
      | Some (Exn e, n) => (Exn e, snd (entries_ (server n)))
      | Some (Exited c, n) => (Exited c, snd (entries_ (server n)))
      | Some (Undef w, n) => (Undef w, snd (entries_ (server n)))
      | None => (Exn (std_exception "StateMachineControler"), d)
      end.

Definition server_main (argv : list string) : M disk Process :=
  match argv with
  | _ :: config_path :: port_text :: _ =>
      let! _port := atoi port_text in
      rethrow (construct_and_run _port config_path)
  | _ => ub "argv has no third element"
  end.

(** The client prints an exception and returns from [main]. *)
Definition client_main (argv : list string) (cin : string) : M unit (option (Client.client Rpc.Network)) :=
  match argv with
  | _ :: port_text :: _ =>
      let! port := atoi port_text in
      let server := ("127.0.0.1", port) in
      ret (if bindable 12345 then Some (Client.new server no_connections cin) else None)
  | _ => ub "argv has no second element"
  end.

(** ** The constructor's body *)

Section boot.
Context {N : Type} {DL : DeadlineTimerLaws handler T} {RL : RandLaws} {BSL : BoostSplitLaws}.
Implicit Types (s : RaftServer store N T).

(** The maps of a new server: every server of the configuration has its entry. *)
Record prepared (servers : list server_addr) s' : Prop := {
  pr_next a : a ∈ servers -> nextIndex_ s' !! a = Some 0;
  pr_saved a : a ∈ servers -> Follower_saved_index s' !! a = Some (-1);
  pr_current a : a ∈ servers -> current_rpc_lsn_ s' !! a = Some 0;
  pr_follower a : a ∈ servers -> follower_rpc_lsn_ s' !! a = Some (-1);
  pr_retry a : a ∈ servers -> is_Some (retry_timers_ s' !! a);
}.
Definition members s := (constants s, entries_ s, network_ s, smc_ s, (term_ s, state_ s, already_voted_ s, commit_index_ s, candidate_timer_ s)).

Definition prepare (server_tuple : server_addr) : M (RaftServer store N T) unit :=
  put_nextIndex server_tuple 0 ;;
  put_saved_index server_tuple (-1) ;;
  put_current_rpc_lsn server_tuple 0 ;;
  put_follower_rpc_lsn server_tuple (-1) ;;
  modify (fun s => set_retry_timers_ (map_touch new_timer server_tuple (retry_timers_ s)) s).

Lemma prepare_ok servers some s :
  prepared some s ->
  total (for_each servers prepare) s (fun _ s' => prepared (some ++ servers) s' /\ members s' = members s).
Proof.
  revert some s. induction servers as [|a servers IH]; intros some s Hd; cbn [for_each].
  { apply total_ret. by rewrite app_nil_r. }
  eapply total_step; [done|]. match goal with |- total _ ?x _ => set (s1 := x) end.
  assert (H1 : prepared (some ++ [a]) s1).
  { assert (Hput : forall (v : Z) (mp : gmap server_addr Z) b, (b ∈ some -> mp !! b = Some v) ->
      b ∈ some ++ [a] -> <[a := v]> mp !! b = Some v).
    { intros v mp b Hb [Hin|Hba%list_elem_of_singleton]%elem_of_app; [|subst; by rewrite lookup_insert_eq].
      destruct (decide (a = b)) as [->|]; [by rewrite lookup_insert_eq|rewrite lookup_insert_ne by done; auto]. }
    destruct Hd as [H1 H2 H3 H4 H5]. split; intros b Hb; [apply Hput; auto..|].
    change (retry_timers_ s1) with (map_touch new_timer a (retry_timers_ s)). rewrite lookup_map_touch.
    destruct (decide (b = a)); [eauto|]. apply H5. apply elem_of_app in Hb as [?|?%list_elem_of_singleton]; done. }
  eapply total_mono; [by apply (IH (some ++ [a]))|]. intros [] s' [[G1 G2 G3 G4 G5] Hm].
  rewrite <- app_assoc in *. split; [by split|]. by rewrite Hm.
Qed.

(** Constructor and [run] on a printed configuration. *)
Lemma construct_ok servers s :
  Forall Config.printable servers -> configuration_ s = [] -> waits (candidate_timer_ s) = [] ->
  total (constructor_body (Some (Config.config_file servers)) ;; run) s (fun _ s' =>
    configuration_ s' = servers /\ N_ s' = Z.of_nat (length servers) /\
    N_ s' < 2 * majority_ s' <= N_ s' + 2 /\ prepared servers s' /\
    waits (candidate_timer_ s') = [H_run] /\ expires_at_min (candidate_timer_ s') = false /\
    (ip_ s', port_ s', entries_ s', network_ s', smc_ s') = (ip_ s, port_ s, entries_ s, network_ s, smc_ s) /\
    (term_ s', state_ s', already_voted_ s', commit_index_ s') = (term_ s, state_ s, already_voted_ s, commit_index_ s)).
Proof.
  intros Hp Hc Hw. unfold constructor_body. apply total_assoc.
  destruct (Config.load_config_ok servers s Hp Hc) as (s1 & E & H1 & H2 & H3 & Hs1).
  eapply total_step; [exact E|]. apply total_assoc, total_gets. rewrite H1.
  eapply total_bind; [apply (prepare_ok servers [] s1); split; intros a Ha; by apply not_elem_of_nil in Ha|].
  intros [] s2 [Hpre Hm]. cbn [app] in Hpre. unfold members in Hm.
  apply pair_equal_spec in Hm as [[[[Hcon He]%pair_equal_spec Hn]%pair_equal_spec Hsm]%pair_equal_spec Hm].
  injection Hm as Ht Hst Hv Hci Hcan.
  assert (HN : N_ s2 = N_ s1) by (unfold constants in Hcon; apply pair_equal_spec in Hcon as [[_ ?]%pair_equal_spec _]; done).
  apply constants_eq in Hcon as (Hconf & Hip & Hport & _ & Hmaj).
  assert (Hf : (ip_ s1, port_ s1, entries_ s1, network_ s1, smc_ s1) = (ip_ s, port_ s, entries_ s, network_ s, smc_ s) /\
    (term_ s1, state_ s1, already_voted_ s1, commit_index_ s1, candidate_timer_ s1) =
    (term_ s, state_ s, already_voted_ s, commit_index_ s, candidate_timer_ s)) by (rewrite Hs1; done).
  destruct Hf as [Hf1 Hf2]. injection Hf1 as F1 F2 F3 F4 F5. injection Hf2 as G1 G2 G3 G4 G5.
  unfold run. destruct (candidate_expires_ok s2) as (r & t & Er & Hwt & Hx). eapply total_step; [exact Er|].
  rewrite Hcan, G5, Hw. cbn [length Z.of_nat Z.eqb negb].
  eexists tt, _. split; [reflexivity|]. cbn.
  rewrite wait_waits, wait_expiry, Hwt, Hx. split_and!; try congruence; try done; try lia.
  - by destruct Hpre; split.
Qed.

End boot.

(** What a new server process is. *)
Record fresh (port : Z) (servers : list server_addr) (l : list rpc_Entry) (s : RaftServer store Rpc.Network T) : Prop := {
  fr_address : (ip_ s, port_ s) = ("127.0.0.1", port);
  fr_log : Entries.log (fst (entries_ s)) = l /\ store_ok port (entries_ s);
  fr_servers : configuration_ s = servers /\ N_ s = Z.of_nat (length servers);
  fr_majority : N_ s < 2 * majority_ s <= N_ s + 2;
  fr_role : (term_ s, state_ s, already_voted_ s, commit_index_ s) = (0, follower, false, -1);
  fr_maps : prepared servers s;
  fr_timer : waits (candidate_timer_ s) = [H_run] /\ expires_at_min (candidate_timer_ s) = false;
  fr_silent : calls (network_ s) = [];
}.
Context {RCL : RaftCodecsLaws} {PH : PosixHealthy} {BAL : BinaryArchiveLaws} {DL : DeadlineTimerLaws handler T}
  {RL : RandLaws} {BSL : BoostSplitLaws}.

(** C37: the server starts.  Given a configuration file of printable servers, a port
    that can be bound and a disk that holds the log [l], an empty disk included,
    [main] gets to the point where the io_context runs: the process has that log
    and configuration, majority and all per-server maps are set, it is a follower
    in term 0 with its election timer armed and nothing sent; and once its vote
    requests can go out, it can stand for election. *)
Theorem server_boots argv0 config_path port servers l d :
  bindable (port mod 2 ^ 16) = true -> INT_MIN <= port <= INT_MAX ->
  content config_path = Some (Config.config_file servers) -> Forall Config.printable servers -> NoDup servers ->
  Entries.stored (Entries.boot_disk port d) (Entries.data_path port) (Entries.offset_path port) l ->
  forallb wireable l = true ->
  total (server_main [argv0; config_path; to_string port]) d (fun n d' =>
    fresh port servers l (server n) /\ ready n = [] /\ d' = Entries.boot_disk port d /\
    ((forall a, a ∈ others (server n) servers ->
        call_fits a (SerializeToString (election_message (server n)))) ->
     can_elect (server n))).
Proof.
  intros Hb Hport Hcont Hp Hnd Hst Hw. unfold server_main.
  rewrite <- (str_app_nil_r (to_string port)). eapply total_step; [by apply atoi_to_string|].
  destruct (Entries.new_ok port d l Hst Hw) as (e & d' & En & Hwf & Hl & Hd' & Hdata & Hoff).
  assert (Hok : store_ok port (e, d')) by (split; cbn; rewrite ?Hl; done).
  unfold total, rethrow, construct_and_run. rewrite Hb. cbn [negb]. rewrite (bind_val _ _ _ _ _ En).
  unfold start. destruct (StateMachineControler.StateMachineControler.new 5 1) as [smc| | |] eqn:Esmc; try done.
  set (s0 := initial_members _ _ _ _ _ _ _).
  destruct (construct_ok servers s0 Hp eq_refl new_waits) as ([] & s & E & H1 & H2 & H3 & H4 & H5 & H6 & H7 & H8).
  rewrite Hcont, E. injection H7 as G1 G2 G3 G4 G5. injection H8 as F1 F2 F3 F4. cbn in G1, G2, G3, G4, F1, F2, F3, F4.
  do 2 eexists. split; [reflexivity|]. cbn [server ready]. rewrite G3. split_and!; [|done|done|].
  - split; try done; try congruence; rewrite ?G3; try done; try congruence. by rewrite G4.
  - intros Hfit. split; rewrite ?H1, ?F1, ?G3; [by exists port|done|unfold INT_MAX; lia|apply H4|exact Hfit].
Qed.
End programs.

(** ** Witness: a server with an empty disk *)

Module Witness.
Import Reference ReferenceCodecs.
#[local] Existing Instances Timer.timer Timer.timer_laws.
#[local] Existing Instance Rpc.Witness.asio.

Definition cluster : list server_addr := Config.Witness.cluster.
Definition files (path : string) : option string :=
  if bool_decide (path = "config") then Some (Config.config_file cluster) else None.
Definition argv : list string := ["raft"; "config"; "7001"].

Lemma cluster_nodup : NoDup cluster.
Proof. refine (bool_decide_eq_true_1 _ _). vm_compute. reflexivity. Qed.
Lemma port_in_int : INT_MIN <= 7001 <= INT_MAX.
Proof. split; vm_compute; congruence. Qed.
Lemma disk_empty : Entries.stored (Entries.boot_disk 7001 ∅) (Entries.data_path 7001) (Entries.offset_path 7001) [].
Proof. split; [by exists ""|by right|split; vm_compute; congruence]. Qed.

Lemma server_boots_witness :
  total (server_main (T := Timer.Timer (ref_timer handler)) (fun _ => true) files argv) ∅ (fun n _ =>
    configuration_ (server n) = cluster /\ term_ (server n) = 0 /\ state_ (server n) = follower).
Proof.
  eapply total_mono; [exact (server_boots (T := Timer.Timer (ref_timer handler)) (fun _ => true) files "raft" "config" 7001 cluster []
    ∅ eq_refl port_in_int eq_refl Config.Witness.cluster_printable cluster_nodup disk_empty eq_refl)|].
  intros n d' (H & _). split; [apply (fr_servers _ _ _ _ H)|].
  pose proof (fr_role _ _ _ _ H) as Hr. injection Hr as Ht Hs _ _. by split.
Defined.
End Witness.
End Programs.
